(* ===== verification/_CoqProject ===== *)
-Q . S2P
Prelude.v
Float64.v
Types.v
Wire.v
Region.v
Metadata.v
Outbox.v
Provider.v
Request.v
SubOps.v
EngineCore.v
EngineInv.v
EngineMemory.v
EnginePeers.v
Engine.v
EngineSafe.v
ByteMemory.v
LocalPath.v
MockPath.v
EngineSample.v
EngineHandoff.v
EngineLoop.v
Congestion.v
SocketIo.v
RdmaWire.v
RdmaVerbs.v
RdmaControl.v
RdmaProvider.v
RdmaLaws.v
RdmaBudget.v
RdmaSafe.v
RdmaSample.v
IpcWire.v
IpcProvider.v
IpcLaws.v
IpcLink.v
IpcSafe.v
IpcSample.v
UcxProvider.v
UcxLaws.v
UcxSafe.v
UcxSample.v
Device.v
DeviceSafe.v
DeviceImports.v
DeviceExport.v
DeviceSample.v
Topology.v
Mlx5.v
Mlx5Laws.v
Mlx5Sample.v
RdmaOpen.v
RdmaOpenSample.v
Text.v
HostMemory.v
HostMemorySample.v
Json.v
FloatText.v
Reports.v
ReportsSample.v
PyBinding.v
PySafe.v
PySample.v
