(* ===== verification/Prelude.v ===== *)
(** * HUX: a verification library

    HUX moves bytes between the memories of processes and hosts.  An application
    registers memory with an _engine_, exchanges metadata and region descriptors
    with its peers, and asks the engine to read or write ranges of remote memory;
    the engine cuts each transfer into sub-operations, hands them to one or more
    _transports_, collects their completions, and ends each request exactly once.
    This library models the core, the control plane, the transports, their
    congestion control, the device backends, host memory, the reports and the
    Python binding, and proves what makes them correct.

    ** Parts and files

    Shared vocabulary
    - [Prelude]: machine integers, little-endian codecs, reads that report
      running out of a buffer ([rd]), tactics and hints, generic lemmas.
    - [Float64]: IEEE binary64 arithmetic (the sources' [double]).
    - [Types] ([include/hux/*.h], [src/core/strings.cpp]): status codes, stages,
      states, spans, errors, [EngineConfig] and [validate].

    Control plane and data that crosses it
    - [Wire] ([src/control/]): identities, localities, control headers and bodies.
    - [Region] ([src/core/region_impl]): registrations, regions, descriptors.
    - [Metadata] ([EngineImpl::local_metadata], the parsing half of [add_peer]).
    - [Outbox] ([src/transport/control_outbox]): the bounded sending queue.
    - [SocketIo]: the blocking [send_all]/[recv_all] conversations of a handshake.

    The engine ([src/core/])
    - [Provider] ([src/transport/provider.h]): the transport interface as a class,
      [TransportProvider], and the laws the engine relies on, [ProviderLaws].
    - [Request] ([request_impl]): one request's state machine.
    - [SubOps] ([EngineImpl::build_subops]): splitting a transfer over lanes.
    - [EngineCore]: posting, completing, abandoning, claiming and publishing;
      [EngineMemory]: registrations and their cache; [EnginePeers]: peers and
      imported regions; [Engine]: submission, notifications, control messages,
      peer loss, progress, polling and closing.
    - [EngineInv], [EngineSafe]: the accounting invariant, and every run of the
      engine with submitters, progress and the application interleaved.
    - [EngineSample]: a complete run over the local path.
    - [EngineHandoff]: the bytes a write's ready handoffs name.
    - [EngineLoop] ([make_engine], [EngineImpl::progress_loop]): making an
      engine, and its progress thread.
    - [HostMemory], [HostMemorySample] ([host_memory.cpp]): memory on large pages.

    Transports
    - [ByteMemory], [LocalPath] ([src/transport/local/]): copies in one process.
    - [MockPath] ([src/transport/mock/]): the provider without hardware.
    - [Congestion] ([src/transport/cc/]): the controllers.
    - [RdmaWire], [RdmaVerbs], [RdmaControl], [RdmaProvider], [RdmaLaws],
      [RdmaBudget], [RdmaSafe], [RdmaSample] ([src/transport/rdma/]): the wire
      format and handshake, the adapter interface, the control stream, the
      provider, its contract, its byte budget, its queue accounting, and runs
      over a simulated adapter.
    - [RdmaOpen], [RdmaOpenSample] ([RdmaProvider::create] and its destructor):
      choosing and opening an adapter, and giving it back.
    - [Mlx5], [Mlx5Laws], [Mlx5Sample] ([mlx5_prm.h], [mlx5_ordering]): the
      fields of device commands and the commands that bring a queue pair up.
    - [IpcWire], [IpcProvider], [IpcLaws], [IpcLink], [IpcSafe], [IpcSample]
      ([src/transport/ipc/]): frames and handshake, the provider, its contract and
      its mappings, the two ends of a connection, what it promises, and runs over
      a simulated host.
    - [UcxProvider], [UcxLaws], [UcxSafe], [UcxSample] ([src/transport/ucx/]): the
      provider over UCX, its contract, what it promises, and runs.

    Devices ([src/device/])
    - [Device]: the CUDA, ROCm, Kunlun, Neuware, MUSA and host backends over one
      vendor runtime interface; a vendor's operation is [cuda_copy], [rocm_copy]
      and so on, and [dev_copy] is the virtual call.
    - [DeviceSafe], [DeviceImports], [DeviceExport], [DeviceSample]: copies and
      their settling, the table of mappings, naming memory to another process
      (also the instance of the interface [IpcProvider] uses), and runs.
    - [Topology]: PCI addresses, distances, and the adapter nearest a device.

    Reports and binding
    - [Text], [FloatText]: numbers as [printf] and streams print them; [Json]: a
      JSON printer and reader; [Reports], [ReportsSample]: [describe_config],
      every [describe] and [describe_topology].
    - [PyBinding], [PySafe], [PySample] ([python/hux_py.cpp]): the operations of
      the Python module, every run of them, and runs.

    ** How code becomes definitions

    Every operation is one definition, with the name of the function it
    translates; a function several threads enter between locks is cut at those
    points ([submit_prepare], [submit_admit], [post_part]) and recomposed.
    Objects held through [shared_ptr] live in stores keyed by id, so two holders
    see one object; a [weak_ptr] is an id that may no longer be there.  Mutexes
    make a method one atomic step.  Errors are the sources' [Status] values.
    Integers are [Z] with their width written where the source can wrap.  What is
    not this program's code is a parameter: a vendor runtime ([Runtime]; the
    engine sees a device as [DeviceBackend] and [DeviceWorld], the IPC provider
    as [IpcDevice]), verbs, adapters and sockets ([Verbs], [Adapters],
    [Sockets], [IpcHost]), UCX ([Ucx]), the mlx5 library ([Mlx5]), the files of
    the system ([Sysfs]), mapping calls ([Pages]), Python's buffers ([Python]), the order [std::shuffle] picks, the clock.  History variables ([c_log], [e_reaped],
    [mk_withheld], [py_trace]) record what happened and nothing reads them.

    ** What the theorems show

    - Requests end once ([Request], [EngineSafe]): over every interleaving no
      request is published twice, an ended one owes nothing, one in flight is
      owed a completion or has work to post, and the counters balance.
    - Memory is safe to reuse ([EngineMemory], [EngineSafe]): a deregistered
      region is used by no transfer, then or later; registrations live exactly
      while held; the cache keeps its bound.
    - Bytes go where they should ([SubOps], [LocalPath]): sub-operations tile the
      transfer inside checked ranges, a local transfer delivers exactly the bytes
      named, and the handoffs name exactly the bytes written ([EngineHandoff]).
    - Formats ([Wire], [Region], [Metadata], [RdmaWire]): round trips,
      canonicity, and decoders that never read outside their buffer.
    - Control streams ([Outbox], [RdmaControl]): messages arrive whole, in order
      and once however sockets cut the stream; queues are bounded and drain.
    - Contracts: each transport is an instance of [ProviderLaws], so the
      engine's theorems hold over it; the RDMA transport reports only what the
      adapter finished, strands nothing while posts are taken, and accounts its
      bytes exactly against any controller.
    - Shared mappings ([IpcSafe]): copies stay inside mappings still held; each
      end's table is what the other published; a region whose withdrawal was
      acknowledged is mapped by nobody.
    - UCX ([UcxSafe]): a success is reported only after UCX answered, and for a
      write only after a flush of its connection; nothing is reported twice.
    - Devices: settling covers the copies started ([DeviceSafe]); a mapping is
      held exactly while an import of it is ([DeviceImports]); a span comes out
      where it went in ([DeviceExport]); the nearest adapter is the one chosen,
      and addresses round trip ([Topology]).
    - Opening and bring-up: a provider that cannot be created gives everything
      back ([RdmaOpen]); the commands sent carry every field they were given
      ([Mlx5Laws]).
    - Congestion: the window bounds what is in flight; the adaptive rate stays in
      its range in floating point.
    - Host memory ([HostMemory]): an allocation is whole, aligned, zero and fresh,
      nothing else is touched, and what the kernel says of it is read right.
    - The progress thread ([EngineLoop]) sleeps only after a quiet spell with
      nothing outstanding.
    - Reports ([Reports]): what [describe] prints reads back as the JSON meant.
    - Python ([PySafe]): a run of the binding is a run of the engine, so all of
      the above holds of it; buffers are given back exactly once, and a read-only
      one is never registered for writing.
    - Divergences: closed runs that show behaviour the sources do not intend.

    ** Bounds and fuel

    Loops over a socket are structural in the script of its answers, and a script
    that ends is a socket with nothing more to give.  [chunk_loop] has fuel
    [len / chunk + 1] and [build_subops_terminates] shows it never runs out;
    [evict_loop] and the parsing loops have the length of what they consume.
    [Engine.close], the RDMA drain, [rdma_accept] and the RDMA path proof loop
    until a clock passes a deadline; they take the turns made, and answer nothing,
    nothing, nothing and [kTimeout] when the turns given end before the clock does.
    The UCX flush progresses until its request is done; it takes the turns made,
    answers [kTimeout] when they end first, and [flush_wait_ends] shows that a
    worker that finishes within them is enough.  [log2_up] has the 32 turns of
    its word and numbers read from [sysfs] the 8 digits of theirs.
    Reading [smaps] and JSON has the length of the text as fuel, which [Reports]
    and [HostMemory] show is enough; [%g] looks for the first digit of a number
    below one in at most 400 places, more than a double has.  The progress
    thread's turns are the ticks of its clock that are given.

    ** Not modelled

    Of the Python binding, the table that registers the module and the
    interpreter lock, which are nanobind's.  The example, the tools and the benchmarks are programs that call the library and
    print what they measure. *)

From Stdlib Require Import ZArith Lia Bool Btauto.
From stdpp Require Import base list gmap strings sorting.

#[global] Open Scope Z_scope.

(** ** Machine integers

    A w-bit unsigned integer is a [Z]; [uw w x] is its range and [wrapw w x]
    the wrap-around that C++ unsigned arithmetic performs. *)

Definition uw (w x : Z) : Prop := 0 <= x < 2 ^ w.

Definition wrapw (w x : Z) : Z := x mod 2 ^ w.

Abbreviation u8 := (uw 8).
Abbreviation u16 := (uw 16).
Abbreviation u32 := (uw 32).
Abbreviation u64 := (uw 64).
Abbreviation wrap16 := (wrapw 16).
Abbreviation wrap32 := (wrapw 32).
Abbreviation wrap64 := (wrapw 64).

(** [static_cast<int32_t>] of a 32-bit pattern, and back. *)

Definition i32 (x : Z) : Prop := - 2 ^ 31 <= x < 2 ^ 31.

Definition to_i32 (x : Z) : Z := if x <? 2 ^ 31 then x else x - 2 ^ 32.

(** ** Automation *)

Create HintDb hux discriminated.

(** Turn boolean tests on integers, in hypotheses and goal, into the
    propositions they decide. *)

Ltac b2p :=
  repeat match goal with
  | H : (_ <=? _) = true |- _ => apply Z.leb_le in H
  | H : (_ <=? _) = false |- _ => apply Z.leb_gt in H
  | H : (_ <? _) = true |- _ => apply Z.ltb_lt in H
  | H : (_ <? _) = false |- _ => apply Z.ltb_ge in H
  | H : (_ =? _) = true |- _ => apply Z.eqb_eq in H
  | H : (_ =? _) = false |- _ => apply Z.eqb_neq in H
  | H : (_ && _)%bool = true |- _ => apply andb_true_iff in H; destruct H
  | H : (_ || _)%bool = false |- _ => apply orb_false_iff in H; destruct H
  | H : negb _ = true |- _ => apply negb_true_iff in H
  | H : negb _ = false |- _ => apply negb_false_iff in H
  end.

(** Case split on the first boolean test or match that blocks [t]. *)

Ltac split_if :=
  match goal with
  | |- context [if ?b then _ else _] => destruct b eqn:?
  | H : context [if ?b then _ else _] |- _ => destruct b eqn:?
  end.

Lemma wrapw_id w x : uw w x → wrapw w x = x.
Proof. intros H. by apply Z.mod_small. Qed.

Lemma wrapw_uw w x : 0 <= w → uw w (wrapw w x).
Proof. intros Hw. apply Z.mod_pos_bound. by apply Z.pow_pos_nonneg. Qed.

Lemma to_i32_wrap x : i32 x → to_i32 (wrap32 x) = x.
Proof.
  unfold i32, to_i32, wrapw. intros H.
  destruct (Z_lt_ge_dec x 0).
  - replace (x mod 2 ^ 32) with (x + 2 ^ 32).
    + destruct (x + 2 ^ 32 <? 2 ^ 31) eqn:E; b2p; lia.
    + rewrite <- (Z.mod_add x 1 (2 ^ 32)) by lia.
      rewrite Z.mod_small; lia.
  - rewrite Z.mod_small by lia. destruct (x <? 2 ^ 31) eqn:E; b2p; lia.
Qed.

Lemma wrap_to_i32 x : u32 x → wrap32 (to_i32 x) = x ∧ i32 (to_i32 x).
Proof.
  unfold uw, i32, to_i32, wrapw. intros H.
  destruct (x <? 2 ^ 31) eqn:E; b2p.
  - rewrite Z.mod_small by lia. lia.
  - rewrite <- (Z.mod_add _ 1 (2 ^ 32)) by lia. rewrite Z.mod_small by lia. lia.
Qed.

#[export] Hint Resolve wrapw_id wrapw_uw : hux.

(** ** Results of code that reads memory

    [Done a] is a normal return, [Fail s] an early return of an error value,
    and [Oob] a read outside the buffer, which is undefined behaviour in the
    source.  Proving a reader never yields [Oob] is proving its bounds checks
    sufficient. *)

Inductive res (E A : Type) : Type :=
| Done (a : A)
| Fail (e : E)
| Oob.

Arguments Done {E A} a.
Arguments Fail {E A} e.
Arguments Oob {E A}.

Definition res_bind {E A B} (m : res E A) (f : A → res E B) : res E B :=
  match m with
  | Done a => f a
  | Fail e => Fail e
  | Oob => Oob
  end.

Declare Scope res_scope.
Delimit Scope res_scope with res.
Notation "x <~ m ;; k" := (res_bind m (fun x => k))
  (at level 100, m at next level, right associativity) : res_scope.
#[global] Open Scope res_scope.

Definition in_bounds {E A} (m : res E A) : Prop := m ≠ Oob.

(** [buf[i]] of a byte vector. *)

Definition byte_at {E} (buf : list Z) (i : nat) : res E Z :=
  match buf !! i with
  | Some b => Done b
  | None => Oob
  end.

(** ** Little-endian fields

    [le_bytes n v] is the loop
    [for (i = 0; i < n; ++i) push((v >> (8*i)) & 0xff)], and [get_le] the loop
    [v |= T(p[i]) << (8*i)] over [p = buf + off]. *)

Definition le_bytes (n : nat) (v : Z) : list Z :=
  (fun i => Z.land (Z.shiftr v (8 * Z.of_nat i)) 255) <$> seq 0 n.

#[global] Arguments le_bytes : simpl never.

Fixpoint get_loop {E} (buf : list Z) (off i n : nat) (acc : Z) : res E Z :=
  match n with
  | O => Done acc
  | S n' =>
      b <~ byte_at buf (off + i);;
      get_loop buf off (S i) n' (Z.lor acc (Z.shiftl b (8 * Z.of_nat i)))
  end.

Definition get_le {E} (buf : list Z) (off n : nat) : res E Z :=
  get_loop buf off 0 n 0.

(** The value a byte list denotes. *)

Fixpoint le_val (l : list Z) : Z :=
  match l with
  | [] => 0
  | b :: t => Z.lor b (Z.shiftl (le_val t) 8)
  end.

Lemma length_le_bytes n v : length (le_bytes n v) = n.
Proof. unfold le_bytes. by rewrite length_fmap, length_seq. Qed.

Lemma le_bytes_S n v :
  le_bytes (S n) v = Z.land v 255 :: le_bytes n (Z.shiftr v 8).
Proof.
  unfold le_bytes. cbn [seq]. rewrite fmap_cons. f_equal.
  rewrite <- fmap_S_seq, <- list_fmap_compose.
  apply list_fmap_ext. intros i j _. cbn [compose].
  rewrite Z.shiftr_shiftr by lia. do 2 f_equal. lia.
Qed.

Lemma le_bytes_u8 n v : Forall u8 (le_bytes n v).
Proof.
  apply Forall_fmap, Forall_true. intros i. cbn.
  change 255 with (Z.ones 8). rewrite Z.land_ones by lia.
  apply Z.mod_pos_bound. lia.
Qed.

Lemma le_val_le_bytes n v : le_val (le_bytes n v) = v mod 2 ^ (8 * Z.of_nat n).
Proof.
  revert v. induction n as [|n IH]; intros v.
  - cbn. by rewrite Z.mod_1_r.
  - rewrite le_bytes_S. cbn [le_val]. rewrite IH.
    apply Z.bits_inj'. intros i Hi.
    change 255 with (Z.ones 8).
    rewrite Z.lor_spec, Z.land_spec, Z.shiftl_spec by lia.
    rewrite <- !Z.land_ones by lia. rewrite !Z.land_spec.
    destruct (Z_lt_ge_dec i 8).
    + rewrite (Z.testbit_neg_r _ (i - 8)) by lia.
      rewrite (Z.ones_spec_low 8), (Z.ones_spec_low (8 * Z.of_nat (S n))) by lia.
      btauto.
    + rewrite (Z.ones_spec_high 8) by lia.
      rewrite Z.shiftr_spec by lia.
      replace (i - 8 + 8) with i by lia.
      rewrite !Z.testbit_ones_nonneg by lia.
      replace (i - 8 <? 8 * Z.of_nat n) with (i <? 8 * Z.of_nat (S n)).
      * btauto.
      * destruct (i <? 8 * Z.of_nat (S n)) eqn:E, (i - 8 <? 8 * Z.of_nat n) eqn:F;
          b2p; try done; lia.
Qed.

Lemma bits_high w b i : uw w b → 0 <= w <= i → Z.testbit b i = false.
Proof.
  intros Hb Hi. rewrite <- (Z.mod_small b (2 ^ w)) by done.
  apply Z.mod_pow2_bits_high. lia.
Qed.

(** Adding a field below [w] to one shifted above it does not carry. *)

Lemma lor_shiftl_add w b t :
  0 <= w → uw w b → Z.lor b (Z.shiftl t w) = b + 2 ^ w * t.
Proof.
  intros Hw Hb.
  assert (D : Z.land b (Z.shiftl t w) = 0).
  { apply Z.bits_inj'. intros i Hi.
    rewrite Z.land_spec, Z.shiftl_spec, Z.bits_0 by lia.
    destruct (Z_lt_ge_dec i w).
    - rewrite (Z.testbit_neg_r t) by lia. apply andb_false_r.
    - by rewrite (bits_high w) by (done || lia). }
  rewrite <- Z.lxor_lor, <- Z.add_nocarry_lxor by done.
  rewrite Z.shiftl_mul_pow2 by lia. lia.
Qed.

Lemma le_val_cons b t : u8 b → le_val (b :: t) = b + 256 * le_val t.
Proof. intros Hb. cbn [le_val]. by rewrite lor_shiftl_add by (done || lia). Qed.

Lemma le_val_range l : Forall u8 l → uw (8 * Z.of_nat (length l)) (le_val l).
Proof.
  induction 1 as [|b t Hb Ht IH]; [unfold uw; cbn; lia|].
  rewrite le_val_cons by done. unfold uw in *. cbn [length].
  replace (8 * Z.of_nat (S (length t))) with (8 + 8 * Z.of_nat (length t)) by lia.
  rewrite Z.pow_add_r by lia. nia.
Qed.

Lemma le_bytes_le_val l : Forall u8 l → le_bytes (length l) (le_val l) = l.
Proof.
  induction 1 as [|b t Hb Ht IH]; [done|].
  cbn [length]. rewrite le_bytes_S, le_val_cons by done. unfold uw in Hb. f_equal.
  - change 255 with (Z.ones 8). rewrite Z.land_ones by lia.
    rewrite (Z.mul_comm 256), Z.mod_add by lia. apply Z.mod_small. lia.
  - rewrite Z.shiftr_div_pow2 by lia. change (2 ^ 8) with 256.
    rewrite (Z.mul_comm 256), Z.div_add, Z.div_small by lia. by rewrite Z.add_0_l.
Qed.

(** ** Reading fields out of a buffer *)

Lemma get_loop_spec {E} buf off i n acc :
  (off + i + n <= length buf)%nat →
  get_loop (E := E) buf off i n acc =
  Done (Z.lor acc (Z.shiftl (le_val (take n (drop (off + i) buf))) (8 * Z.of_nat i))).
Proof.
  revert i acc. induction n as [|n IH]; intros i acc Hl; cbn [get_loop].
  - rewrite take_0. cbn [le_val]. by rewrite Z.shiftl_0_l, Z.lor_0_r.
  - unfold byte_at.
    destruct (buf !! (off + i)%nat) as [b|] eqn:Hb.
    2:{ apply lookup_ge_None in Hb. lia. }
    cbn [res_bind]. rewrite IH by lia. rewrite (drop_S buf b (off + i)) by done.
    cbn [take le_val]. replace (off + S i)%nat with (S (off + i)) by lia.
    f_equal. rewrite Z.shiftl_lor, Z.shiftl_shiftl, Z.lor_assoc by lia.
    do 2 f_equal. lia.
Qed.

Lemma get_le_spec {E} buf off n :
  (off + n <= length buf)%nat →
  get_le (E := E) buf off n = Done (le_val (take n (drop off buf))).
Proof.
  intros H. unfold get_le. rewrite get_loop_spec by lia.
  rewrite Nat.add_0_r. cbn [Z.of_nat Z.mul]. by rewrite Z.shiftl_0_r, Z.lor_0_l.
Qed.

(** A field written by [le_bytes] at its offset is read back. *)

Lemma get_le_app {E} pre n v post :
  uw (8 * Z.of_nat n) v →
  get_le (E := E) (pre ++ le_bytes n v ++ post) (length pre) n = Done v.
Proof.
  intros Hv. rewrite get_le_spec.
  - rewrite drop_app_length.
    rewrite take_app_length' by (symmetry; apply length_le_bytes).
    rewrite le_val_le_bytes. f_equal. by apply Z.mod_small.
  - rewrite !length_app, length_le_bytes. lia.
Qed.

Lemma get_le_at {E} buf off pre n v post :
  buf = pre ++ le_bytes n v ++ post → off = length pre →
  uw (8 * Z.of_nat n) v → get_le (E := E) buf off n = Done v.
Proof. intros -> -> ?. by apply get_le_app. Qed.

Lemma get_le_here {E} n v post :
  uw (8 * Z.of_nat n) v → get_le (E := E) (le_bytes n v ++ post) 0 n = Done v.
Proof. apply (get_le_app []). Qed.

Lemma get_le_end {E} n v :
  uw (8 * Z.of_nat n) v → get_le (E := E) (le_bytes n v) 0 n = Done v.
Proof. rewrite <- (app_nil_r (le_bytes n v)). apply get_le_here. Qed.

Lemma get_loop_skip {E} pre post off i n acc :
  (length pre <= off)%nat →
  get_loop (E := E) (pre ++ post) off i n acc =
  get_loop post (off - length pre) i n acc.
Proof.
  intros H. revert i acc. induction n as [|n IH]; intros i acc; [done|].
  cbn [get_loop]. unfold byte_at. rewrite lookup_app_r by lia.
  replace (off + i - length pre)%nat with (off - length pre + i)%nat by lia.
  destruct (post !! _); cbn [res_bind]; [apply IH|done].
Qed.

Lemma get_le_drop {E} pre post off n :
  (length pre <= off)%nat →
  get_le (E := E) (pre ++ post) off n = get_le post (off - length pre) n.
Proof. apply get_loop_skip. Qed.

Lemma get_le_skip {E} k v post off n :
  (k <= off)%nat →
  get_le (E := E) (le_bytes k v ++ post) off n = get_le post (off - k) n.
Proof.
  intros H. unfold get_le. rewrite get_loop_skip; rewrite length_le_bytes; done.
Qed.

(** Reads every field of a buffer given as a concatenation of fields. *)

Ltac uw_side :=
  first [ assumption | split; vm_compute; (discriminate || reflexivity) ].

Ltac rd_fields :=
  repeat first
    [ rewrite get_le_here by uw_side
    | rewrite get_le_end by uw_side
    | rewrite get_le_skip by lia; cbn [Nat.sub]
    | progress cbn [res_bind] ].

Lemma in_bounds_bind {E A B} (m : res E A) (f : A → res E B) :
  in_bounds m → (∀ a, m = Done a → in_bounds (f a)) → in_bounds (res_bind m f).
Proof. unfold in_bounds. destruct m; cbn; eauto. Qed.

Lemma get_le_in_bounds {E} buf off n :
  (off + n <= length buf)%nat → in_bounds (get_le (E := E) buf off n).
Proof. intros H. by rewrite get_le_spec. Qed.

Lemma byte_at_in_bounds {E} buf i :
  (i < length buf)%nat → in_bounds (byte_at (E := E) buf i).
Proof.
  intros H. unfold byte_at. apply lookup_lt_is_Some in H as [b ->]. done.
Qed.

Lemma in_bounds_done {E A} (a : A) : in_bounds (E := E) (Done a).
Proof. done. Qed.

Lemma in_bounds_fail {E A} (e : E) : in_bounds (A := A) (Fail e).
Proof. done. Qed.

#[export] Hint Resolve get_le_in_bounds byte_at_in_bounds in_bounds_done
  in_bounds_fail : hux.

(** Discharges bounds obligations of straight-line readers. *)

Ltac bounds :=
  repeat first
    [ progress auto with hux
    | apply get_le_in_bounds; lia
    | apply byte_at_in_bounds; lia
    | apply in_bounds_bind; [|intros ? ?]
    | split_if ].

(** The converse of reading: what a field read says about the bytes. *)

Lemma get_le_inv {E} buf off n v :
  get_le (E := E) buf off n = Done v → (0 < n)%nat →
  (off + n <= length buf)%nat ∧ v = le_val (take n (drop off buf)).
Proof.
  intros H Hn. destruct (decide (off + n <= length buf)%nat) as [L|L].
  - split; [done|]. rewrite get_le_spec in H by done. by injection H.
  - exfalso. unfold get_le in H.
    assert (∀ m i acc, (0 < m)%nat → (length buf < off + i + m)%nat →
      get_loop (E := E) buf off i m acc = Oob) as G.
    { induction m as [|m IH]; intros i acc Hm Hl; [lia|]. cbn [get_loop].
      unfold byte_at. destruct (buf !! (off + i)%nat) as [b|] eqn:Eb; cbn; [|done].
      apply lookup_lt_Some in Eb. apply IH; lia. }
    rewrite G in H; [done|lia..].
Qed.

Lemma get_le_split {E} buf off n v :
  Forall u8 buf → (0 < n)%nat → get_le (E := E) buf off n = Done v →
  drop off buf = le_bytes n v ++ drop (off + n) buf ∧ uw (8 * Z.of_nat n) v
  ∧ (off + n <= length buf)%nat.
Proof.
  intros Hb Hn H. apply get_le_inv in H as [Hl ->]; [|done].
  assert (L : length (take n (drop off buf)) = n).
  { rewrite length_take, length_drop. lia. }
  assert (F : Forall u8 (take n (drop off buf))) by auto using Forall_take, Forall_drop.
  split_and!; [|rewrite <- L at 1; by apply le_val_range|done].
  rewrite <- L at 1. rewrite le_bytes_le_val by done.
  rewrite <- drop_drop. by rewrite take_drop.
Qed.

(** ** Strings as bytes *)

Definition byte_of_ascii (a : Ascii.ascii) : Z := Z.of_N (Ascii.N_of_ascii a).
Definition ascii_of_byte (b : Z) : Ascii.ascii := Ascii.ascii_of_N (Z.to_N b).

Definition bytes_of_string (s : string) : list Z :=
  byte_of_ascii <$> String.list_ascii_of_string s.
Definition string_of_bytes (l : list Z) : string :=
  String.string_of_list_ascii (ascii_of_byte <$> l).

Lemma string_of_bytes_of_string s : string_of_bytes (bytes_of_string s) = s.
Proof.
  unfold string_of_bytes, bytes_of_string.
  rewrite <- list_fmap_compose.
  rewrite <- (String.string_of_list_ascii_of_string s) at 2. f_equal.
  rewrite <- (list_fmap_id (String.list_ascii_of_string s)) at 2.
  apply list_fmap_ext. intros i a _. unfold compose, ascii_of_byte, byte_of_ascii.
  by rewrite N2Z.id, Ascii.ascii_N_embedding.
Qed.

Lemma bytes_of_string_of_bytes l : Forall u8 l → bytes_of_string (string_of_bytes l) = l.
Proof.
  intros H. unfold string_of_bytes, bytes_of_string.
  rewrite String.list_ascii_of_string_of_list_ascii, <- list_fmap_compose.
  induction H as [|b t Hb Ht IH]; [done|]. rewrite fmap_cons, IH. f_equal.
  unfold compose, ascii_of_byte, byte_of_ascii, uw in *.
  rewrite Ascii.N_ascii_embedding by lia. lia.
Qed.

Lemma bytes_of_string_u8 s : Forall u8 (bytes_of_string s).
Proof.
  apply Forall_fmap, Forall_true. intros a. unfold compose, byte_of_ascii, uw.
  pose proof (Ascii.N_ascii_bounded a). lia.
Qed.

#[export] Hint Resolve le_bytes_u8 bytes_of_string_u8 : hux.

(** ** Ordered maps

    [std::map] is walked in the order of its keys. *)

Definition key_le {A} (a b : Z * A) : Prop := fst a <= fst b.

#[export] Instance key_le_dec {A} : RelDecision (@key_le A).
Proof. intros a b. unfold key_le. apply _. Defined.

Definition in_key_order {A} (m : gmap Z A) : list (Z * A) := merge_sort key_le (map_to_list m).

Lemma in_key_order_elem {A} (m : gmap Z A) k a : (k, a) ∈ in_key_order m ↔ m !! k = Some a.
Proof. unfold in_key_order. rewrite merge_sort_Permutation. apply elem_of_map_to_list. Qed.

Lemma in_key_order_nodup {A} (m : gmap Z A) : NoDup (in_key_order m).*1.
Proof.
  unfold in_key_order. rewrite merge_sort_Permutation. apply NoDup_fst_map_to_list.
Qed.
