(* ===== verification/Float64.v ===== *)
(** * IEEE 754 binary64 as the sources use it ([double]).

    The operations are the Standard Library's specification of IEEE arithmetic
    with round to nearest even, at precision 53 and exponent bound 1024, so they
    compute exactly the values the compiled code computes. *)

From Stdlib Require Import SpecFloat.
From stdpp Require Import base numbers.

Definition f64 : Type := spec_float.

Definition f64_of_Z (n : Z) : f64 := binary_normalize 53 1024 n 0 false.

Definition f64_add : f64 → f64 → f64 := SFadd 53 1024.
Definition f64_sub : f64 → f64 → f64 := SFsub 53 1024.
Definition f64_mul : f64 → f64 → f64 := SFmul 53 1024.
Definition f64_div : f64 → f64 → f64 := SFdiv 53 1024.
Definition f64_ltb : f64 → f64 → bool := SFltb.
Definition f64_leb : f64 → f64 → bool := SFleb.

Definition f64_zero : f64 := S754_zero false.

(** The literals of the sources, each the double nearest to its decimal. *)

Definition f64_1 : f64 := f64_of_Z 1.
Definition f64_1e_9 : f64 := S754_finite false 4835703278458517 (-82).
Definition f64_0_008 : f64 := S754_finite false 4611686018427388 (-59).
Definition f64_0_3 : f64 := S754_finite false 5404319552844595 (-54).

(** Each is what dividing its numerator by its power of ten rounds to. *)

Lemma f64_literals :
  f64_1e_9 = f64_div (f64_of_Z 1) (f64_of_Z 1000000000)
  ∧ f64_0_008 = f64_div (f64_of_Z 8) (f64_of_Z 1000)
  ∧ f64_0_3 = f64_div (f64_of_Z 3) (f64_of_Z 10).
Proof. vm_compute. auto. Qed.

Definition f64_1e6 : f64 := f64_of_Z 1000000.
Definition f64_1e9 : f64 := f64_of_Z 1000000000.
Definition f64_64 : f64 := f64_of_Z 64.
Definition f64_1000 : f64 := f64_of_Z 1000.

(** Conversion to an integer type drops the fraction.  A value no integer type
    holds (infinite, not a number) is undefined behaviour in C++; it is 0 here. *)

Definition f64_trunc (x : f64) : Z :=
  match x with
  | S754_finite s m e =>
      let a := if (0 <=? e)%Z then (Zpos m * 2 ^ e)%Z else (Zpos m / 2 ^ (- e))%Z in
      if s then (- a)%Z else a
  | _ => 0%Z
  end.

(** ** What the proofs need of the arithmetic *)

Definition f64_is_nan (x : f64) : bool := match x with S754_nan => true | _ => false end.

Definition f64_finite (x : f64) : bool :=
  match x with S754_zero _ | S754_finite _ _ _ => true | _ => false end.

Definition f64_nonzero (x : f64) : bool :=
  match x with S754_finite _ _ _ | S754_infinity _ => true | _ => false end.

(** Not below zero: positive, a zero, or not a number. *)

Definition f64_no_sign (x : f64) : bool :=
  match x with S754_finite s _ _ | S754_infinity s => negb s | _ => true end.

Lemma shr_1_nonneg r : (0 <= shr_m r → 0 <= shr_m (shr_1 r))%Z.
Proof. destruct r as [[|[p|p|]|[p|p|]] b1 b2]; cbn; lia. Qed.

Lemma iter_pos_nonneg n r : (0 <= shr_m r → 0 <= shr_m (SpecFloat.iter_pos shr_1 n r))%Z.
Proof. revert r. induction n; intros r H; cbn; auto using shr_1_nonneg. Qed.

Lemma shr_fexp_nonneg m e l : (0 <= m → 0 <= shr_m (fst (shr_fexp 53 1024 m e l)))%Z.
Proof.
  intros H. unfold shr_fexp, shr. destruct (_ - _)%Z; cbn; try apply iter_pos_nonneg;
    by destruct l as [|[]].
Qed.

(** Rounding a magnitude keeps its sign and is a number. *)

Lemma round_aux_shape s m e l :
  (0 <= m)%Z →
  match binary_round_aux 53 1024 s m e l with
  | S754_zero s' | S754_finite s' _ _ | S754_infinity s' => s' = s
  | S754_nan => False
  end.
Proof.
  intros Hm. unfold binary_round_aux.
  pose proof (shr_fexp_nonneg m e l Hm) as H1.
  destruct (shr_fexp 53 1024 m e l) as [r1 e1]. cbn in H1.
  set (n := round_nearest_even _ _).
  assert (H2 : (0 <= n)%Z).
  { unfold n, round_nearest_even. destruct (loc_of_shr_record r1) as [|[]]; try lia.
    destruct (Z.even _); lia. }
  pose proof (shr_fexp_nonneg n e1 loc_Exact H2) as H3.
  destruct (shr_fexp 53 1024 n e1 loc_Exact) as [r2 e2]. cbn in H3.
  destruct (shr_m r2); [done| |lia]. by destruct (_ <=? _)%Z.
Qed.

Lemma normalize_number m e b : f64_is_nan (binary_normalize 53 1024 m e b) = false.
Proof.
  unfold binary_normalize, binary_round. destruct m as [|m|m]; [done| |];
    destruct (shl_align _ _ _) as [mz ez];
    match goal with |- context [binary_round_aux _ _ ?s ?x ?y ?z] =>
      pose proof (round_aux_shape s x y z ltac:(lia)); by destruct (binary_round_aux _ _ s x y z) end.
Qed.

Lemma div_core_nonneg m1 e1 m2 e2 :
  (0 <= fst (fst (SFdiv_core_binary 53 1024 (Zpos m1) e1 (Zpos m2) e2)))%Z.
Proof.
  unfold SFdiv_core_binary. cbn zeta.
  match goal with |- context [Z.div_eucl ?x ?y] =>
    assert (0 <= x)%Z; [|pose proof (Z.div_pos x y ltac:(done) ltac:(lia)) as D;
      unfold Z.div in D; destruct (Z.div_eucl x y); done] end.
  destruct (_ - _)%Z; try lia. apply Z.shiftl_nonneg. lia.
Qed.

(** The sign of a quotient of magnitudes. *)

Lemma div_shape sx mx ex sy my ey :
  match f64_div (S754_finite sx mx ex) (S754_finite sy my ey) with
  | S754_zero s' | S754_finite s' _ _ | S754_infinity s' => s' = xorb sx sy
  | S754_nan => False
  end.
Proof.
  cbn. pose proof (div_core_nonneg mx ex my ey) as H.
  destruct (SFdiv_core_binary _ _ _ _ _ _) as [[m e] l]. by apply round_aux_shape.
Qed.

Lemma mul_shape sx mx ex sy my ey :
  match f64_mul (S754_finite sx mx ex) (S754_finite sy my ey) with
  | S754_zero s' | S754_finite s' _ _ | S754_infinity s' => s' = xorb sx sy
  | S754_nan => False
  end.
Proof. cbn. apply round_aux_shape. lia. Qed.

(** *** When a result is a number *)

Lemma f64_add_number x y :
  f64_finite x = true → f64_is_nan y = false → f64_is_nan (f64_add x y) = false.
Proof.
  destruct x as [[]|[]| |sx mx ex], y as [[]|[]| |sy my ey]; cbn; try done;
    intros; apply normalize_number.
Qed.

Lemma f64_sub_number x y :
  f64_finite x = true → f64_is_nan y = false → f64_is_nan (f64_sub x y) = false.
Proof.
  destruct x as [[]|[]| |sx mx ex], y as [[]|[]| |sy my ey]; cbn; try done;
    intros; apply normalize_number.
Qed.

Lemma f64_mul_number x y :
  f64_finite x = true → f64_is_nan y = false → (f64_nonzero x = true ∨ f64_finite y = true) →
  f64_is_nan (f64_mul x y) = false.
Proof.
  destruct x as [sx|sx| |sx mx ex], y as [sy|sy| |sy my ey]; try (cbn; naive_solver).
  intros _ _ _. pose proof (mul_shape sx mx ex sy my ey) as S. by destruct (f64_mul _ _).
Qed.

Lemma f64_div_number x y :
  f64_finite x = true → f64_is_nan y = false → f64_nonzero y = true →
  f64_is_nan (f64_div x y) = false.
Proof.
  destruct x as [sx|sx| |sx mx ex], y as [sy|sy| |sy my ey]; try (cbn; naive_solver).
  intros _ _ _. pose proof (div_shape sx mx ex sy my ey) as S. by destruct (f64_div _ _).
Qed.

(** *** Order *)

Lemma compare_cont_swap p q : CompOpp (Pos.compare_cont Eq p q) = Pos.compare_cont Eq q p.
Proof. symmetry. exact (Pos.compare_antisym p q). Qed.

Lemma compare_swap x y : SFcompare y x = option_map CompOpp (SFcompare x y).
Proof.
  destruct x as [sx|sx| |sx mx ex], y as [sy|sy| |sy my ey]; try reflexivity;
    try (destruct sx; reflexivity); try (destruct sy; reflexivity);
    try (destruct sx, sy; reflexivity).
  cbn [SFcompare option_map]. rewrite (Z.compare_antisym ex ey).
  rewrite <- (compare_cont_swap mx my).
  destruct sx, sy, (ex ?= ey)%Z; try reflexivity; by destruct (Pos.compare_cont Eq mx my).
Qed.

Lemma f64_leb_of_ltb x y :
  f64_is_nan x = false → f64_is_nan y = false → f64_ltb x y = false → f64_leb y x = true.
Proof.
  intros Hx Hy. unfold f64_ltb, f64_leb, SFltb, SFleb. rewrite (compare_swap x y).
  assert (SFcompare x y ≠ None) by (destruct x, y; discriminate).
  by destruct (SFcompare x y) as [[]|].
Qed.

Lemma f64_leb_refl x : f64_is_nan x = false → f64_leb x x = true.
Proof.
  unfold f64_leb, SFleb. destruct x as [s|s| |s m e]; [done|by destruct s|done|]. intros _.
  cbn [SFcompare]. rewrite Z.compare_refl, (Pos.compare_refl m : Pos.compare_cont Eq m m = Eq).
  by destruct s.
Qed.

(** *** Integers that a [double] holds *)

Lemma digits2_pos_bound m : (2 ^ (Zpos (digits2_pos m) - 1) <= Zpos m)%Z.
Proof.
  induction m as [m IH|m IH|]; cbn [digits2_pos]; [| |done].
  all: rewrite Pos2Z.inj_succ; replace (Z.succ (Zpos (digits2_pos m)) - 1)%Z
    with (Z.succ (Zpos (digits2_pos m) - 1))%Z by lia;
    rewrite Z.pow_succ_r by lia; lia.
Qed.

Lemma digits2_pos_le m k : (Zpos m < 2 ^ k → 0 <= k → Zpos (digits2_pos m) <= k)%Z.
Proof.
  intros H Hk. pose proof (digits2_pos_bound m). apply Z.nlt_ge. intros Hlt.
  assert (2 ^ k <= 2 ^ (Zpos (digits2_pos m) - 1))%Z by (apply Z.pow_le_mono_r; lia). lia.
Qed.

Lemma digits2_iter_xO m d : digits2_pos (Pos.iter xO m d) = (digits2_pos m + d)%positive.
Proof.
  revert m. induction d as [|d IH] using Pos.peano_ind; intros m; [cbn; lia|].
  rewrite Pos.iter_succ. cbn [digits2_pos]. rewrite IH. lia.
Qed.

Lemma shr_1_le r : (0 <= shr_m r → shr_m (shr_1 r) <= shr_m r)%Z.
Proof. destruct r as [[|[p|p|]|[p|p|]] b1 b2]; cbn; lia. Qed.

Lemma iter_pos_le n r : (0 <= shr_m r → shr_m (SpecFloat.iter_pos shr_1 n r) <= shr_m r)%Z.
Proof.
  revert r. induction n as [n IH|n IH|]; intros r H; cbn.
  - pose proof (shr_1_nonneg r H). pose proof (shr_1_le r H).
    pose proof (IH (shr_1 r) ltac:(done)). pose proof (iter_pos_nonneg n (shr_1 r) ltac:(done)).
    pose proof (IH (SpecFloat.iter_pos shr_1 n (shr_1 r)) ltac:(done)). lia.
  - pose proof (IH r H). pose proof (iter_pos_nonneg n r H).
    pose proof (IH (SpecFloat.iter_pos shr_1 n r) ltac:(done)). lia.
  - by apply shr_1_le.
Qed.

Lemma shr_fexp_bounds m e l :
  (0 <= m)%Z →
  (shr_m (fst (shr_fexp 53 1024 m e l)) <= m)%Z
  ∧ snd (shr_fexp 53 1024 m e l) = Z.max e (fexp 53 1024 (Zdigits2 m + e)).
Proof.
  intros Hm. unfold shr_fexp. set (r := shr_record_of_loc m l).
  assert (shr_m r = m) as Er by (by destruct l as [|[]]).
  set (f := fexp 53 1024 (Zdigits2 m + e)). unfold shr.
  destruct (f - e)%Z as [|n|n] eqn:E; cbn [fst snd].
  - rewrite Er. lia.
  - pose proof (iter_pos_le n r ltac:(lia)). lia.
  - rewrite Er. lia.
Qed.

Lemma zdigits2_le m k : (0 <= m < 2 ^ k → 0 <= k → Zdigits2 m <= k)%Z.
Proof. destruct m as [|m|m]; cbn; intros; try lia. apply digits2_pos_le; lia. Qed.

Lemma fexp_le e k : (e - 53 <= k → -1074 <= k → fexp 53 1024 e <= k)%Z.
Proof. unfold fexp, emin. lia. Qed.

Lemma round_aux_finite s m e :
  (0 <= m < 2 ^ 64)%Z → (Zdigits2 m + e <= 64)%Z → (e <= 0)%Z →
  f64_finite (binary_round_aux 53 1024 s m e loc_Exact) = true.
Proof.
  intros Hm Hd He. unfold binary_round_aux.
  pose proof (shr_fexp_nonneg m e loc_Exact ltac:(lia)) as N1.
  destruct (shr_fexp_bounds m e loc_Exact ltac:(lia)) as [B1 X1].
  destruct (shr_fexp 53 1024 m e loc_Exact) as [r1 e1]. cbn [fst snd] in N1, B1, X1.
  pose proof (fexp_le (Zdigits2 m + e) 11 ltac:(lia) ltac:(lia)).
  set (n := round_nearest_even _ _).
  assert (Hn : (0 <= n < 2 ^ 65)%Z).
  { unfold n, round_nearest_even. destruct (loc_of_shr_record r1) as [|[]]; try lia.
    destruct (Z.even _); lia. }
  pose proof (shr_fexp_nonneg n e1 loc_Exact ltac:(lia)) as N2.
  destruct (shr_fexp_bounds n e1 loc_Exact ltac:(lia)) as [_ X2].
  destruct (shr_fexp 53 1024 n e1 loc_Exact) as [r2 e2]. cbn [fst snd] in N2, X2.
  pose proof (zdigits2_le n 65 Hn ltac:(lia)).
  pose proof (fexp_le (Zdigits2 n + e1) 23 ltac:(lia) ltac:(lia)).
  destruct (shr_m r2); [done| |lia]. cbn [Z.sub].
  destruct (_ <=? _)%Z eqn:E; [done|]. apply Z.leb_gt in E. lia.
Qed.

Lemma binary_round_finite s m : (Zpos m < 2 ^ 64)%Z → f64_finite (binary_round 53 1024 s m 0) = true.
Proof.
  intros Hm. unfold binary_round, shl_align.
  pose proof (digits2_pos_le m 64 Hm ltac:(lia)) as HD.
  set (f := fexp 53 1024 (Zpos (digits2_pos m) + 0)).
  rewrite Z.sub_0_r. destruct f as [|d|d] eqn:E.
  - apply round_aux_finite; cbn; lia.
  - apply round_aux_finite; cbn; lia.
  - assert (Hd : (Zpos (digits2_pos m) + Zpos d <= 53)%Z).
    { unfold f, fexp, emin in E. lia. }
    apply round_aux_finite; cbn [Zdigits2]; rewrite ?digits2_iter_xO; try lia.
    split; [lia|]. assert (Hb : ∀ p, (Zpos p < 2 ^ Zpos (digits2_pos p))%Z).
    { induction p as [p IH|p IH|]; cbn [digits2_pos]; [| |done];
        rewrite Pos2Z.inj_succ, Z.pow_succ_r by lia; lia. }
    specialize (Hb (Pos.iter xO m d)). rewrite digits2_iter_xO in Hb.
    assert (2 ^ Zpos (digits2_pos m + d) <= 2 ^ 53)%Z by (apply Z.pow_le_mono_r; lia). lia.
Qed.

Lemma f64_of_Z_finite n : (- 2 ^ 64 < n < 2 ^ 64)%Z → f64_finite (f64_of_Z n) = true.
Proof.
  intros Hn. unfold f64_of_Z, binary_normalize. destruct n as [|n|n]; [done| |];
    apply binary_round_finite; lia.
Qed.
