(* ===== verification/Types.v ===== *)
(** * Public types: status codes, enumerations, spans, access flags and the
    engine configuration ([include/hux/status.h], [types.h], [request.h],
    [notification.h], [peer.h], [config.h], and [src/core/strings.cpp]).

    Every C++ [enum class] is a module of the same name, so [Status.kOk] reads
    as the source's [Status::kOk]. *)

From stdpp Require Import base list gmap strings.
From S2P Require Import Prelude.

Module Status.

Inductive t : Type :=
| kOk
| kWouldBlock
| kTimeout
| kCancelled
| kUnsupported
| kInvalidArgument
| kOutOfRange
| kNotFound
| kStaleGeneration
| kPeerDisconnected
| kResourceExhausted
| kDeviceError
| kTransportError
| kInternal.

#[global] Instance eq_dec : EqDecision t.
Proof. solve_decision. Defined.

Definition ok (s : t) : bool := bool_decide (s = kOk).

Definition to_string (s : t) : string :=
  match s with
  | kOk => "ok"
  | kWouldBlock => "would_block"
  | kTimeout => "timeout"
  | kCancelled => "cancelled"
  | kUnsupported => "unsupported"
  | kInvalidArgument => "invalid_argument"
  | kOutOfRange => "out_of_range"
  | kNotFound => "not_found"
  | kStaleGeneration => "stale_generation"
  | kPeerDisconnected => "peer_disconnected"
  | kResourceExhausted => "resource_exhausted"
  | kDeviceError => "device_error"
  | kTransportError => "transport_error"
  | kInternal => "internal"
  end.

End Status.

Module Stage.

Inductive t : Type :=
| kAccepted
| kSourceReusable
| kTransferComplete
| kTargetReady
| kFailedSafe
| kCancelledSafe.

#[global] Instance eq_dec : EqDecision t.
Proof. solve_decision. Defined.

(** [static_cast<uint32_t>(s)] *)

Definition to_u32 (s : t) : Z :=
  match s with
  | kAccepted => 0
  | kSourceReusable => 1
  | kTransferComplete => 2
  | kTargetReady => 3
  | kFailedSafe => 4
  | kCancelledSafe => 5
  end.

Definition to_string (s : t) : string :=
  match s with
  | kAccepted => "accepted"
  | kSourceReusable => "source_reusable"
  | kTransferComplete => "transfer_complete"
  | kTargetReady => "target_ready"
  | kFailedSafe => "failed_safe"
  | kCancelledSafe => "cancelled_safe"
  end.

End Stage.

Module RequestState.

Inductive t : Type :=
| kQueued
| kWaitDependency
| kInflight
| kWaitTargetReady
| kWaitNotifyAck
| kDraining
| kSucceeded
| kFailed
| kCancelled.

#[global] Instance eq_dec : EqDecision t.
Proof. solve_decision. Defined.

Definition is_terminal (s : t) : bool :=
  bool_decide (s = kSucceeded) || bool_decide (s = kFailed)
  || bool_decide (s = kCancelled).

Definition to_string (s : t) : string :=
  match s with
  | kQueued => "queued"
  | kWaitDependency => "wait_dependency"
  | kInflight => "inflight"
  | kWaitTargetReady => "wait_target_ready"
  | kWaitNotifyAck => "wait_notify_ack"
  | kDraining => "draining"
  | kSucceeded => "succeeded"
  | kFailed => "failed"
  | kCancelled => "cancelled"
  end.

End RequestState.

Module PathKind.

Inductive t : Type := kUnknown | kSameProcess | kIpc | kRdma | kUcx.

#[global] Instance eq_dec : EqDecision t.
Proof. solve_decision. Defined.

Definition to_string (p : t) : string :=
  match p with
  | kUnknown => "unknown"
  | kSameProcess => "same_process"
  | kIpc => "ipc"
  | kRdma => "rdma"
  | kUcx => "ucx"
  end.

End PathKind.

Module PeerPlace.

Inductive t : Type := kUnknown | kSameProcess | kSameHost | kAnotherHost.

#[global] Instance eq_dec : EqDecision t.
Proof. solve_decision. Defined.

Definition to_string (p : t) : string :=
  match p with
  | kSameProcess => "same_process"
  | kSameHost => "same_host"
  | kAnotherHost => "another_host"
  | kUnknown => "unknown"
  end.

End PeerPlace.

Module ProgressMode.

Inductive t : Type := kThread | kExplicit.

#[global] Instance eq_dec : EqDecision t.
Proof. solve_decision. Defined.

End ProgressMode.

Module CongestionControl.

Inductive t : Type := kOff | kFixedWindow | kAdaptive.

#[global] Instance eq_dec : EqDecision t.
Proof. solve_decision. Defined.

End CongestionControl.

(** [DeviceKind] has [uint8_t] as its underlying type, so a value read off the
    wire need not be one of the named ones: [raw v] is such a value. *)

Module DeviceKind.

Inductive t : Type :=
| kHost
| kCuda
| kRocm
| kCambricon
| kMoore
| kKunlun
| raw (v : Z).

#[global] Instance eq_dec : EqDecision t.
Proof. solve_decision. Defined.

Definition to_u8 (k : t) : Z :=
  match k with
  | kHost => 0
  | kCuda => 1
  | kRocm => 2
  | kCambricon => 3
  | kMoore => 4
  | kKunlun => 5
  | raw v => v
  end.

Definition of_u8 (v : Z) : t :=
  if v =? 0 then kHost
  else if v =? 1 then kCuda
  else if v =? 2 then kRocm
  else if v =? 3 then kCambricon
  else if v =? 4 then kMoore
  else if v =? 5 then kKunlun
  else raw v.

(** A value is represented one way only. *)

Definition wf (k : t) : Prop :=
  match k with
  | raw v => 6 <= v < 256
  | _ => True
  end.

Lemma of_to_u8 k : wf k → of_u8 (to_u8 k) = k.
Proof.
  destruct k; cbn; try done. intros H. unfold of_u8.
  repeat (split_if; b2p; [lia|]). done.
Qed.

Lemma to_of_u8 v : u8 v → to_u8 (of_u8 v) = v ∧ wf (of_u8 v).
Proof.
  unfold uw, of_u8. intros H.
  repeat (split_if; b2p; [subst; done|]). cbn. lia.
Qed.

Lemma to_u8_u8 k : wf k → u8 (to_u8 k).
Proof. unfold uw. destruct k; cbn; lia. Qed.

End DeviceKind.

Module MemoryKind.

Inductive t : Type := kHostPageable | kHostPinned | kDevice.

#[global] Instance eq_dec : EqDecision t.
Proof. solve_decision. Defined.

End MemoryKind.

Record DeviceId : Type := mkDeviceId { dev_kind : DeviceKind.t; dev_index : Z }.

#[global] Instance DeviceId_eq_dec : EqDecision DeviceId.
Proof. solve_decision. Defined.

Definition device_eqb (a b : DeviceId) : bool :=
  bool_decide (dev_kind a = dev_kind b) && (dev_index a =? dev_index b).

(** ** Access flags: a [uint32_t] bit set. *)

Definition AccessFlags : Type := Z.
Definition kNone : AccessFlags := 0.
Definition kLocalRead : AccessFlags := Z.shiftl 1 0.
Definition kLocalWrite : AccessFlags := Z.shiftl 1 1.
Definition kRemoteRead : AccessFlags := Z.shiftl 1 2.
Definition kRemoteWrite : AccessFlags := Z.shiftl 1 3.

Definition has_flag (set bit : AccessFlags) : bool := negb (Z.land set bit =? 0).

(** ** Spans *)

Record Span : Type := mkSpan { sp_offset : Z; sp_length : Z }.

Definition span_wf (s : Span) : Prop := u64 (sp_offset s) ∧ u64 (sp_length s).

(** [total - offset] is 64-bit unsigned subtraction. *)

Definition within (s : Span) (total : Z) : bool :=
  (sp_offset s <=? total) && (sp_length s <=? wrap64 (total - sp_offset s)).

(** ** Error detail *)

Record ErrorInfo : Type := mkErrorInfo {
  err_status : Status.t;
  err_provider : string;
  err_peer_id : Z;
  err_provider_errno : Z;
  may_have_modified_target : bool;
  err_detail : string
}.

Definition no_error : ErrorInfo :=
  mkErrorInfo Status.kOk EmptyString 0 0 false EmptyString.

Definition err_ok (e : ErrorInfo) : bool := Status.ok (err_status e).

(** ** Engine configuration *)

Record EngineConfig : Type := mkEngineConfig {
  cfg_device : DeviceId;
  cfg_progress : ProgressMode.t;
  cfg_qp_per_peer : Z;
  cfg_chunk_bytes : Z;
  cfg_wr_batch : Z;
  cfg_cq_batch : Z;
  cfg_max_inflight_requests : Z;
  cfg_scheduler_quantum_bytes : Z;
  cfg_registration_cache_entries : Z;
  cfg_cc : CongestionControl.t;
  cfg_cc_window_bytes : Z;
  cfg_notify_queue_depth : Z;
  cfg_notify_max_payload : Z;
  cfg_completion_queue_depth : Z;
  cfg_ready_queue_depth : Z;
  cfg_preferred_provider : string
}.

Definition default_config : EngineConfig := {|
  cfg_device := mkDeviceId DeviceKind.kHost 0;
  cfg_progress := ProgressMode.kThread;
  cfg_qp_per_peer := 1;
  cfg_chunk_bytes := Z.shiftl 1 20;
  cfg_wr_batch := 16;
  cfg_cq_batch := 16;
  cfg_max_inflight_requests := 4096;
  cfg_scheduler_quantum_bytes := Z.shiftl 1 20;
  cfg_registration_cache_entries := 64;
  cfg_cc := CongestionControl.kOff;
  cfg_cc_window_bytes := Z.shiftl 1 22;
  cfg_notify_queue_depth := 1024;
  cfg_notify_max_payload := 4096;
  cfg_completion_queue_depth := 16384;
  cfg_ready_queue_depth := 16384;
  cfg_preferred_provider := EmptyString
|}.

(** [EngineConfig::validate]: the status, and the reason it writes. *)

Definition validate (c : EngineConfig) : Status.t * string :=
  let fail why := (Status.kInvalidArgument, why) in
  if cfg_qp_per_peer c =? 0 then fail "qp_per_peer must be >= 1"%string
  else if cfg_chunk_bytes c =? 0 then fail "chunk_bytes must be > 0"%string
  else if 0xffffffff <? cfg_chunk_bytes c
    then fail "chunk_bytes must fit in 32 bits"%string
  else if cfg_wr_batch c =? 0 then fail "wr_batch must be >= 1"%string
  else if cfg_cq_batch c =? 0 then fail "cq_batch must be >= 1"%string
  else if cfg_max_inflight_requests c =? 0
    then fail "max_inflight_requests must be >= 1"%string
  else if cfg_notify_queue_depth c =? 0
    then fail "notify_queue_depth must be >= 1"%string
  else if cfg_notify_max_payload c =? 0
    then fail "notify_max_payload must be > 0"%string
  else if bool_decide (cfg_cc c = CongestionControl.kFixedWindow)
          && (cfg_cc_window_bytes c =? 0)
    then fail "cc_window_bytes must be > 0 when cc=fixed_window"%string
  else if bool_decide (cfg_cc c = CongestionControl.kFixedWindow)
          && (cfg_cc_window_bytes c <? cfg_chunk_bytes c)
    then fail "cc_window_bytes < chunk_bytes would stall every request"%string
  else (Status.kOk, EmptyString).

(** The fields of a configuration hold values of their C++ types. *)

Definition config_typed (c : EngineConfig) : Prop :=
  u32 (cfg_qp_per_peer c) ∧ u64 (cfg_chunk_bytes c) ∧ u32 (cfg_wr_batch c)
  ∧ u32 (cfg_cq_batch c) ∧ u32 (cfg_max_inflight_requests c)
  ∧ u64 (cfg_scheduler_quantum_bytes c) ∧ u32 (cfg_registration_cache_entries c)
  ∧ u64 (cfg_cc_window_bytes c) ∧ u32 (cfg_notify_queue_depth c)
  ∧ u32 (cfg_notify_max_payload c) ∧ u32 (cfg_completion_queue_depth c)
  ∧ u32 (cfg_ready_queue_depth c).

(** What the engine relies on of an accepted configuration. *)

Definition config_valid (c : EngineConfig) : Prop :=
  1 <= cfg_qp_per_peer c ∧ 1 <= cfg_chunk_bytes c ∧ u32 (cfg_chunk_bytes c)
  ∧ 1 <= cfg_wr_batch c ∧ 1 <= cfg_cq_batch c ∧ 1 <= cfg_max_inflight_requests c
  ∧ 1 <= cfg_notify_queue_depth c ∧ 1 <= cfg_notify_max_payload c
  ∧ (cfg_cc c = CongestionControl.kFixedWindow → cfg_chunk_bytes c <= cfg_cc_window_bytes c).

(** ** Lemmas *)

Lemma within_spec s total :
  span_wf s → u64 total →
  within s total = true ↔ sp_offset s + sp_length s <= total.
Proof.
  unfold span_wf, within, uw, wrapw. intros [Ho Hl] Ht.
  destruct (sp_offset s <=? total) eqn:E; b2p; cbn.
  - rewrite Z.leb_le, Z.mod_small by lia. lia.
  - split; [done|]. lia.
Qed.

Lemma device_eqb_eq a b : device_eqb a b = true ↔ a = b.
Proof.
  destruct a, b; unfold device_eqb; cbn. rewrite andb_true_iff, bool_decide_eq_true.
  rewrite Z.eqb_eq. split; [by intros [-> ->]|by intros [= -> ->]].
Qed.

Lemma is_terminal_spec s :
  RequestState.is_terminal s = true ↔
  s = RequestState.kSucceeded ∨ s = RequestState.kFailed ∨ s = RequestState.kCancelled.
Proof. destruct s; vm_compute; intuition congruence. Qed.

Lemma status_ok_spec s : Status.ok s = true ↔ s = Status.kOk.
Proof. unfold Status.ok. by rewrite bool_decide_eq_true. Qed.

Lemma status_ok_false s : Status.ok s = false ↔ s ≠ Status.kOk.
Proof. unfold Status.ok. by rewrite bool_decide_eq_false. Qed.

(** ** Properties *)

(** [EngineConfig::validate] accepts exactly the configurations in which
    no parameter is degenerate: a chunk is non-empty and fits the 32-bit length
    of a work request, every batch and queue bound is positive, and a fixed
    congestion window holds at least one chunk. *)
Theorem validate_ok_iff c :
  config_typed c → fst (validate c) = Status.kOk ↔ config_valid c.
Proof.
  unfold config_typed, config_valid, validate, uw. intros T.
  repeat (split_if; b2p; [split; [done|]; intros V; exfalso; cbn in *;
    repeat match goal with H : bool_decide _ = true |- _ =>
      apply bool_decide_eq_true in H end; intuition lia|]).
  split; [intros _|done].
  destruct (bool_decide (cfg_cc c = CongestionControl.kFixedWindow)) eqn:Ecc; cbn in *;
    b2p; [|apply bool_decide_eq_false in Ecc]; intuition (try done; lia).
Qed.

Lemma validate_ok_iff_witness :
  config_typed default_config ∧
  (fst (validate default_config) = Status.kOk ↔ config_valid default_config).
Proof.
  assert (T : config_typed default_config) by (vm_compute; intuition discriminate).
  split; [exact T|]. exact (validate_ok_iff default_config T).
Defined.
