(* ===== verification/Wire.v ===== *)
(** * Wire formats of the control plane ([src/control/identity.{h,cpp}] and
    [src/control/control_message.{h,cpp}]).

    Encoders produce byte lists; decoders run over an arbitrary buffer in the
    [res] monad, whose [Oob] outcome is a read past the end of the vector. *)

From stdpp Require Import base list gmap strings.
From S2P Require Import Prelude Types.

Abbreviation rd := (res Status.t).

Definition get_u16 (buf : list Z) (p : nat) : rd Z := get_le buf p 2.
Definition get_u32 (buf : list Z) (p : nat) : rd Z := get_le buf p 4.
Definition get_u64 (buf : list Z) (p : nat) : rd Z := get_le buf p 8.

(** Writes through a pointer into an existing buffer. *)

Definition put_le (buf : list Z) (p n : nat) (v : Z) : list Z :=
  take p buf ++ le_bytes n v ++ drop (p + n) buf.
Definition put_u16 (buf : list Z) (p : nat) (v : Z) : list Z := put_le buf p 2 v.
Definition put_u32 (buf : list Z) (p : nat) (v : Z) : list Z := put_le buf p 4 v.
Definition put_u64 (buf : list Z) (p : nat) (v : Z) : list Z := put_le buf p 8 v.

(** ** Identity *)

Record Identity : Type := mkIdentity { host : Z; process : Z; engine : Z }.

#[global] Instance Identity_eq_dec : EqDecision Identity.
Proof. solve_decision. Defined.

Definition identity_wf (i : Identity) : Prop :=
  u64 (host i) ∧ u64 (process i) ∧ u64 (engine i).

Definition no_identity : Identity := mkIdentity 0 0 0.

Definition kIdentityBytes : nat := 24.

Module Locality.

Inductive t : Type := kSameEngine | kSameProcess | kSameHost | kRemote.

#[global] Instance eq_dec : EqDecision t.
Proof. solve_decision. Defined.

Definition to_string (l : t) : string :=
  match l with
  | kSameEngine => "same_engine"
  | kSameProcess => "same_process"
  | kSameHost => "same_host"
  | kRemote => "remote"
  end.

End Locality.

Definition locality_of (a b : Identity) : Locality.t :=
  if negb (host a =? host b) then Locality.kRemote
  else if negb (process a =? process b) then Locality.kSameHost
  else if negb (engine a =? engine b) then Locality.kSameProcess
  else Locality.kSameEngine.

(** Appends to [out]. *)

Definition encode_identity (id : Identity) (out : list Z) : list Z :=
  out ++ le_bytes 8 (host id) ++ le_bytes 8 (process id) ++ le_bytes 8 (engine id).

#[global] Arguments encode_identity : simpl never.

Definition decode_identity (buf : list Z) (off : nat) : rd Identity :=
  if bool_decide (length buf < off + kIdentityBytes)%nat
  then Fail Status.kInvalidArgument
  else
    h <~ get_u64 buf off;;
    p <~ get_u64 buf (off + 8);;
    e <~ get_u64 buf (off + 16);;
    Done (mkIdentity h p e).

(** ** Control messages *)

Definition kControlMajor : Z := 1.
Definition kControlMinor : Z := 1.
Definition kControlHeaderBytes : nat := 12.
Definition kControlMaxPayload : Z := Z.shiftl 64 10.

(** The wire carries the type as a [uint16_t]; an unknown value is kept. *)

Module ControlType.

Definition kInvalid : Z := 0.
Definition kReadyHandoff : Z := 1.
Definition kNotification : Z := 2.
Definition kRegionInvalidate : Z := 3.
Definition kNotificationAck : Z := 4.
Definition kNotificationRefused : Z := 5.

End ControlType.

Record ControlHeader : Type := mkControlHeader {
  ch_major : Z;
  ch_minor : Z;
  ch_type : Z;
  ch_flags : Z;
  ch_payload_len : Z
}.

Definition control_header_wf (h : ControlHeader) : Prop :=
  u16 (ch_major h) ∧ u16 (ch_minor h) ∧ u16 (ch_type h) ∧ u16 (ch_flags h)
  ∧ u32 (ch_payload_len h).

(** Writes the twelve header bytes at the front of [out]. *)

Definition encode_control_header (h : ControlHeader) (out : list Z) : list Z :=
  let out := put_u16 out 0 (ch_major h) in
  let out := put_u16 out 2 (ch_minor h) in
  let out := put_u16 out 4 (ch_type h) in
  let out := put_u16 out 6 (ch_flags h) in
  put_u32 out 8 (ch_payload_len h).

Definition decode_control_header (buf : list Z) : rd ControlHeader :=
  major <~ get_u16 buf 0;;
  minor <~ get_u16 buf 2;;
  type <~ get_u16 buf 4;;
  flags <~ get_u16 buf 6;;
  len <~ get_u32 buf 8;;
  if negb (major =? kControlMajor) then Fail Status.kUnsupported
  else if kControlMaxPayload <? len then Fail Status.kInvalidArgument
  else Done (mkControlHeader major minor type flags len).

Definition encode_u64 (v : Z) : list Z := put_u64 (replicate 8 0) 0 v.

Definition decode_u64 (buf : list Z) : rd Z :=
  if bool_decide (length buf < 8)%nat then Fail Status.kInvalidArgument
  else get_u64 buf 0.

Record RegionInvalidateBody : Type := mkRegionInvalidateBody {
  ri_region : Z;
  ri_generation : Z;
  ri_has_origin : bool;
  ri_origin : Identity
}.

Definition region_invalidate_wf (b : RegionInvalidateBody) : Prop :=
  u64 (ri_region b) ∧ u32 (ri_generation b) ∧ identity_wf (ri_origin b).

Definition kNotificationHeaderBytes : nat := 8.
Definition kRegionInvalidateBytes : nat := 12.
Definition kRegionInvalidateWithOriginBytes : nat :=
  kRegionInvalidateBytes + kIdentityBytes.

Definition encode_region_invalidate (b : RegionInvalidateBody) : list Z :=
  let out := replicate kRegionInvalidateBytes 0 in
  let out := put_u64 out 0 (ri_region b) in
  let out := put_u32 out 8 (ri_generation b) in
  if ri_has_origin b then encode_identity (ri_origin b) out else out.

Definition decode_region_invalidate (buf : list Z) : rd RegionInvalidateBody :=
  if negb (bool_decide (length buf = kRegionInvalidateBytes))
     && bool_decide (length buf < kRegionInvalidateWithOriginBytes)%nat
  then Fail Status.kInvalidArgument
  else
    region <~ get_u64 buf 0;;
    generation <~ get_u32 buf 8;;
    if bool_decide (kRegionInvalidateWithOriginBytes <= length buf)%nat then
      match decode_identity buf kRegionInvalidateBytes with
      | Done o => Done (mkRegionInvalidateBody region generation true o)
      | Fail _ => Fail Status.kInvalidArgument
      | Oob => Oob
      end
    else Done (mkRegionInvalidateBody region generation false no_identity).

Record ReadyHandoffBody : Type := mkReadyHandoffBody {
  rh_request : Z;
  rh_region : Z;
  rh_generation : Z;
  rh_offset : Z;
  rh_length : Z
}.

Definition ready_handoff_wf (b : ReadyHandoffBody) : Prop :=
  u64 (rh_request b) ∧ u64 (rh_region b) ∧ u32 (rh_generation b)
  ∧ u64 (rh_offset b) ∧ u64 (rh_length b).

Definition kReadyHandoffBytes : nat := 36.

Definition encode_ready_handoff (b : ReadyHandoffBody) : list Z :=
  let out := replicate kReadyHandoffBytes 0 in
  let out := put_u64 out 0 (rh_request b) in
  let out := put_u64 out 8 (rh_region b) in
  let out := put_u32 out 16 (rh_generation b) in
  let out := put_u64 out 20 (rh_offset b) in
  put_u64 out 28 (rh_length b).

Definition decode_ready_handoff (buf : list Z) : rd ReadyHandoffBody :=
  if negb (bool_decide (length buf = kReadyHandoffBytes))
  then Fail Status.kInvalidArgument
  else
    request <~ get_u64 buf 0;;
    region <~ get_u64 buf 8;;
    generation <~ get_u32 buf 16;;
    offset <~ get_u64 buf 20;;
    len <~ get_u64 buf 28;;
    Done (mkReadyHandoffBody request region generation offset len).

(** ** Encoders as concatenations *)

Lemma encode_control_header_app h rest :
  encode_control_header h (replicate kControlHeaderBytes 0 ++ rest) =
  le_bytes 2 (ch_major h) ++ le_bytes 2 (ch_minor h) ++ le_bytes 2 (ch_type h)
  ++ le_bytes 2 (ch_flags h) ++ le_bytes 4 (ch_payload_len h) ++ rest.
Proof. reflexivity. Qed.

Lemma encode_u64_app v : encode_u64 v = le_bytes 8 v.
Proof. reflexivity. Qed.

Lemma encode_region_invalidate_app b :
  encode_region_invalidate b =
  le_bytes 8 (ri_region b) ++ le_bytes 4 (ri_generation b)
  ++ (if ri_has_origin b then encode_identity (ri_origin b) [] else []).
Proof. unfold encode_region_invalidate. destruct (ri_has_origin b); reflexivity. Qed.

Lemma encode_ready_handoff_app b :
  encode_ready_handoff b =
  le_bytes 8 (rh_request b) ++ le_bytes 8 (rh_region b)
  ++ le_bytes 4 (rh_generation b) ++ le_bytes 8 (rh_offset b)
  ++ le_bytes 8 (rh_length b).
Proof. reflexivity. Qed.

Lemma length_encode_identity i : length (encode_identity i []) = kIdentityBytes.
Proof. reflexivity. Qed.

(** ** Reading identities *)

Lemma decode_identity_app pre i post off :
  identity_wf i → off = length pre →
  decode_identity (pre ++ encode_identity i [] ++ post) off = Done i.
Proof.
  intros (Hh & Hp & He) ->. unfold decode_identity.
  rewrite bool_decide_false by (rewrite !length_app, length_encode_identity; lia).
  unfold get_u64. rewrite !(get_le_drop pre) by lia.
  rewrite Nat.sub_diag.
  replace (length pre + 8 - length pre)%nat with 8%nat by lia.
  replace (length pre + 16 - length pre)%nat with 16%nat by lia.
  unfold encode_identity. rewrite app_nil_l, <- !app_assoc.
  rd_fields. by destruct i.
Qed.

Lemma decode_identity_bounds buf off : in_bounds (decode_identity buf off).
Proof.
  unfold decode_identity, kIdentityBytes, get_u64. case_bool_decide; bounds.
Qed.

#[export] Hint Resolve decode_identity_bounds : hux.

(** ** Properties *)

(** [locality_of] is symmetric in its answer and exact: two identities are
    the same engine exactly when they are equal, and are taken to share an
    address space exactly when host and process agree. *)
Theorem locality_of_spec a b :
  locality_of a b = locality_of b a
  ∧ (locality_of a b = Locality.kSameEngine ↔ a = b)
  ∧ (locality_of a b = Locality.kRemote ↔ host a ≠ host b)
  ∧ (locality_of a b = Locality.kSameEngine ∨ locality_of a b = Locality.kSameProcess
     ↔ host a = host b ∧ process a = process b).
Proof.
  destruct a as [ha pa ea], b as [hb pb eb]. unfold locality_of; cbn.
  rewrite (Z.eqb_sym hb), (Z.eqb_sym pb), (Z.eqb_sym eb).
  destruct (ha =? hb) eqn:E1, (pa =? pb) eqn:E2, (ea =? eb) eqn:E3; b2p; subst; cbn;
    intuition congruence.
Qed.

(** A control header survives the wire: for any header of this major whose
    length is admissible, decoding the encoded bytes (whatever follows them in
    the stream) gives the header back. *)
Theorem control_header_roundtrip h rest :
  control_header_wf h → ch_major h = kControlMajor →
  ch_payload_len h <= kControlMaxPayload →
  decode_control_header
    (encode_control_header h (replicate kControlHeaderBytes 0 ++ rest)) = Done h.
Proof.
  intros (H1 & H2 & H3 & H4 & H5) Hm Hl. rewrite encode_control_header_app.
  unfold decode_control_header, get_u16, get_u32. rd_fields.
  rewrite Hm, Z.eqb_refl. cbn [negb].
  rewrite (proj2 (Z.ltb_ge _ _)) by done. rewrite <- Hm. by destruct h.
Qed.

Lemma control_header_roundtrip_witness :
  decode_control_header
    (encode_control_header (mkControlHeader 1 1 2 0 300) (replicate 12 0 ++ [7])) =
  Done (mkControlHeader 1 1 2 0 300).
Proof.
  apply (control_header_roundtrip (mkControlHeader 1 1 2 0 300) [7]);
    vm_compute; intuition discriminate.
Defined.

(** A region-invalidation notice survives the wire in both its forms, with
    and without the exporter's identity. *)
Theorem region_invalidate_roundtrip b :
  region_invalidate_wf b → (ri_has_origin b = false → ri_origin b = no_identity) →
  decode_region_invalidate (encode_region_invalidate b) = Done b.
Proof.
  intros (H1 & H2 & H3) Ho. rewrite encode_region_invalidate_app.
  destruct b as [r g has o]; cbn in *.
  unfold decode_region_invalidate, get_u64, get_u32. destruct has.
  - set (buf := le_bytes 8 r ++ _). assert (L : length buf = 36%nat) by reflexivity.
    rewrite L, bool_decide_false, bool_decide_false, bool_decide_true
      by (vm_compute; lia).
    subst buf. cbn [negb andb]. rd_fields.
    rewrite app_assoc, <- (app_nil_r (encode_identity o [])).
    by rewrite decode_identity_app.
  - rewrite app_nil_r.
    set (buf := le_bytes 8 r ++ _). assert (L : length buf = 12%nat) by reflexivity.
    rewrite L, bool_decide_true, (bool_decide_false (_ <= 12)%nat)
      by (vm_compute; lia).
    subst buf. cbn [negb andb]. rd_fields. by rewrite Ho.
Qed.

Lemma region_invalidate_roundtrip_witness :
  decode_region_invalidate
    (encode_region_invalidate (mkRegionInvalidateBody 9 4 true (mkIdentity 1 2 3))) =
  Done (mkRegionInvalidateBody 9 4 true (mkIdentity 1 2 3)).
Proof.
  apply (region_invalidate_roundtrip (mkRegionInvalidateBody 9 4 true (mkIdentity 1 2 3)));
    vm_compute; intuition discriminate.
Defined.

(** A ready handoff survives the wire: the receiver learns exactly the
    request, region, generation and range the sender named. *)
Theorem ready_handoff_roundtrip b :
  ready_handoff_wf b → decode_ready_handoff (encode_ready_handoff b) = Done b.
Proof.
  intros (H1 & H2 & H3 & H4 & H5). rewrite encode_ready_handoff_app.
  unfold decode_ready_handoff.
  rewrite bool_decide_true by (rewrite !length_app, !length_le_bytes; done).
  cbn [negb]. unfold get_u64, get_u32. rd_fields. by destruct b.
Qed.

Lemma ready_handoff_roundtrip_witness :
  decode_ready_handoff (encode_ready_handoff (mkReadyHandoffBody 5 1 1 4096 65536)) =
  Done (mkReadyHandoffBody 5 1 1 4096 65536).
Proof.
  apply (ready_handoff_roundtrip (mkReadyHandoffBody 5 1 1 4096 65536));
    vm_compute; intuition discriminate.
Defined.

(** No decoder of a control-message body reads outside the buffer it is
    given, whatever a peer sent; a header is read safely from any buffer at
    least a header long. *)
Theorem control_decoders_in_bounds buf :
  in_bounds (decode_region_invalidate buf)
  ∧ in_bounds (decode_ready_handoff buf)
  ∧ in_bounds (decode_u64 buf)
  ∧ (∀ off, in_bounds (decode_identity buf off))
  ∧ (kControlHeaderBytes <= length buf → in_bounds (decode_control_header buf))%nat.
Proof.
  unfold decode_region_invalidate, decode_ready_handoff, decode_u64,
    decode_control_header, get_u64, get_u32, get_u16, kRegionInvalidateBytes,
    kRegionInvalidateWithOriginBytes, kReadyHandoffBytes, kControlHeaderBytes.
  split_and!.
  - case_bool_decide as E1; cbn [negb andb].
    + bounds. exfalso. rewrite bool_decide_eq_true in *.
      unfold kRegionInvalidateBytes, kIdentityBytes in *. lia.
    + case_bool_decide as E2; [bounds|]. unfold kRegionInvalidateBytes in *.
      apply in_bounds_bind; [apply get_le_in_bounds; lia|intros ? _].
      apply in_bounds_bind; [apply get_le_in_bounds; lia|intros ? _].
      case_bool_decide; [|bounds].
      pose proof (decode_identity_bounds buf 12) as D. unfold in_bounds in *.
      by destruct (decode_identity buf 12).
  - case_bool_decide as E; cbn [negb]; bounds.
  - case_bool_decide; bounds.
  - intros off. apply decode_identity_bounds.
  - intros H. bounds.
Qed.
