(* ===== verification/Region.v ===== *)
(** * Regions, registrations and descriptors ([src/core/region_impl.{h,cpp}]).

    A [Registration] is what the providers returned for a range; a
    [MemoryRegionImpl] is a handle into one; a [RegionDescriptor] is what
    travels to a peer, which holds it as a [RemoteRegionImpl]. *)

From stdpp Require Import base list gmap strings.
From S2P Require Import Prelude Types Wire.

Record ProviderKey : Type := mkProviderKey { pk_provider : string; pk_remote_key : Z }.

Record RegionDescriptor : Type := mkRegionDescriptor {
  d_major : Z;
  d_minor : Z;
  d_origin : Identity;
  d_region : Z;
  d_generation : Z;
  d_base : Z;
  d_length : Z;
  d_remote_key : Z;
  d_provider_keys : list ProviderKey;
  d_device_kind : DeviceKind.t;
  d_device_index : Z;
  d_access : AccessFlags
}.

Definition kDescriptorMajor : Z := 2.
Definition kDescriptorMinor : Z := 0.
Definition kDescriptorBytes : nat := 2 + 2 + kIdentityBytes + 8 + 4 + 8 + 8 + 8 + 1 + 4 + 4.

Definition provider_key_wf (k : ProviderKey) : Prop :=
  (Z.of_nat (length (bytes_of_string (pk_provider k))) < 2 ^ 16) ∧ u64 (pk_remote_key k).

Definition descriptor_wf (d : RegionDescriptor) : Prop :=
  identity_wf (d_origin d) ∧ u64 (d_region d) ∧ u32 (d_generation d)
  ∧ u64 (d_base d) ∧ u64 (d_length d) ∧ u64 (d_remote_key d)
  ∧ DeviceKind.wf (d_device_kind d) ∧ i32 (d_device_index d) ∧ u32 (d_access d)
  ∧ Forall provider_key_wf (d_provider_keys d)
  ∧ Z.of_nat (length (d_provider_keys d)) < 2 ^ 16.

(** ** Descriptor codec *)

Definition encode_key (k : ProviderKey) : list Z :=
  let name := bytes_of_string (pk_provider k) in
  le_bytes 2 (wrap16 (Z.of_nat (length name))) ++ name ++ le_bytes 8 (pk_remote_key k).

Definition encode_descriptor (d : RegionDescriptor) : list Z :=
  le_bytes 2 kDescriptorMajor ++ le_bytes 2 kDescriptorMinor
  ++ encode_identity (d_origin d) []
  ++ le_bytes 8 (d_region d) ++ le_bytes 4 (d_generation d)
  ++ le_bytes 8 (d_base d) ++ le_bytes 8 (d_length d) ++ le_bytes 8 (d_remote_key d)
  ++ le_bytes 1 (DeviceKind.to_u8 (d_device_kind d))
  ++ le_bytes 4 (wrap32 (d_device_index d)) ++ le_bytes 4 (d_access d)
  ++ le_bytes 2 (wrap16 (Z.of_nat (length (d_provider_keys d))))
  ++ concat (encode_key <$> d_provider_keys d).

(** The loop over the provider keys: cursor [p], bytes [remaining] after it. *)

Fixpoint decode_keys (buf : list Z) (p remaining : nat) (count : nat)
    : rd (list ProviderKey * nat) :=
  match count with
  | O => Done ([], remaining)
  | S count' =>
      if bool_decide (remaining < 2)%nat then Fail Status.kInvalidArgument
      else
        n <~ get_u16 buf p;;
        let n := Z.to_nat n in
        let p := (p + 2)%nat in
        let remaining := (remaining - 2)%nat in
        if bool_decide (remaining < n + 8)%nat then Fail Status.kInvalidArgument
        else
          let name := string_of_bytes (take n (drop p buf)) in
          key <~ get_u64 buf (p + n);;
          rest <~ decode_keys buf (p + n + 8) (remaining - (n + 8)) count';;
          Done (mkProviderKey name key :: fst rest, snd rest)
  end.

Definition decode_descriptor (buf : list Z) : rd RegionDescriptor :=
  if bool_decide (length buf < kDescriptorBytes)%nat then Fail Status.kInvalidArgument
  else
    major <~ get_u16 buf 0;;
    minor <~ get_u16 buf 2;;
    if negb (major =? kDescriptorMajor) then Fail Status.kUnsupported
    else
      match decode_identity buf 4 with
      | Oob => Oob
      | Fail _ => Fail Status.kInvalidArgument
      | Done origin =>
          region <~ get_u64 buf 28;;
          generation <~ get_u32 buf 36;;
          base <~ get_u64 buf 40;;
          len <~ get_u64 buf 48;;
          rkey <~ get_u64 buf 56;;
          kind <~ get_le buf 64 1;;
          index <~ get_u32 buf 65;;
          access <~ get_u32 buf 69;;
          let d keys := mkRegionDescriptor major minor origin region generation
            base len rkey keys (DeviceKind.of_u8 kind) (to_i32 index) access in
          let remaining := (length buf - kDescriptorBytes)%nat in
          if bool_decide (remaining < 2)%nat then
            if bool_decide (remaining = 0%nat) then Done (d [])
            else Fail Status.kInvalidArgument
          else
            count <~ get_u16 buf 73;;
            ks <~ decode_keys buf 75 (remaining - 2) (Z.to_nat count);;
            if bool_decide (snd ks = 0%nat) then Done (d (fst ks))
            else Fail Status.kInvalidArgument
      end.

(** ** Registrations *)

Record Key : Type := mkKey { k_provider : string; k_local_key : Z; k_remote_key : Z }.

Record Registration : Type := mkRegistration {
  r_base : Z;
  r_length : Z;
  r_device : DeviceId;
  r_access : AccessFlags;
  r_keys : list Key;
  r_local_key : Z;
  r_remote_key : Z
}.

Definition local_key_for (r : Registration) (provider : string) : option Z :=
  k_local_key <$> find (fun k => String.eqb (k_provider k) provider) (r_keys r).

Definition registration_covers (r : Registration) (addr len : Z) (dev : DeviceId)
    (access : AccessFlags) : bool :=
  if negb (device_eqb (r_device r) dev) then false
  else
    let want := access in
    let have := r_access r in
    if negb (Z.land want (wrap32 (Z.lnot have)) =? 0) then false
    else
      let remote := Z.lor kRemoteRead kRemoteWrite in
      if negb (Z.land want remote =? Z.land have remote) then false
      else if addr <? r_base r then false
      else
        let off := wrap64 (addr - r_base r) in
        (off <=? r_length r) && (len <=? wrap64 (r_length r - off)).

(** ** Handles *)

Record RegionView : Type := mkRegionView { v_region : Z; v_span : Span }.

Record MemoryRegionImpl : Type := mkMemoryRegion {
  mr_origin : Identity;
  mr_id : Z;
  mr_gen : Z;
  mr_base : Z;
  mr_length : Z;
  mr_dev : DeviceId;
  mr_mem : MemoryKind.t;
  mr_access : AccessFlags;
  mr_reg : Registration;
  mr_retired : bool
}.

Definition retire (r : MemoryRegionImpl) : MemoryRegionImpl :=
  mkMemoryRegion (mr_origin r) (mr_id r) (mr_gen r) (mr_base r) (mr_length r)
    (mr_dev r) (mr_mem r) (mr_access r) (mr_reg r) true.

Definition memory_view (r : MemoryRegionImpl) (off len : Z) : rd RegionView :=
  let s := mkSpan off len in
  if negb (within s (mr_length r)) then Fail Status.kOutOfRange
  else Done (mkRegionView (mr_id r) s).

Definition export_descriptor (r : MemoryRegionImpl) : list Z :=
  encode_descriptor (mkRegionDescriptor 0 0 (mr_origin r) (mr_id r) (mr_gen r)
    (mr_base r) (mr_length r) (r_remote_key (mr_reg r))
    ((fun k => mkProviderKey (k_provider k) (k_remote_key k)) <$> r_keys (mr_reg r))
    (dev_kind (mr_dev r)) (dev_index (mr_dev r)) (mr_access r)).

Record RemoteRegionImpl : Type := mkRemoteRegion { rr_d : RegionDescriptor; rr_valid : bool }.

Definition invalidate (r : RemoteRegionImpl) : RemoteRegionImpl :=
  mkRemoteRegion (rr_d r) false.

Definition remote_view (r : RemoteRegionImpl) (off len : Z) : rd RegionView :=
  if negb (rr_valid r) then Fail Status.kStaleGeneration
  else
    let s := mkSpan off len in
    if negb (within s (d_length (rr_d r))) then Fail Status.kOutOfRange
    else Done (mkRegionView (d_region (rr_d r)) s).

Definition remote_key_for (r : RemoteRegionImpl) (provider : string) : option Z :=
  match find (fun k => String.eqb (pk_provider k) provider) (d_provider_keys (rr_d r)) with
  | Some k => Some (pk_remote_key k)
  | None =>
      match d_provider_keys (rr_d r) with
      | [] => Some (d_remote_key (rr_d r))
      | _ => None
      end
  end.

(** ** Codec lemmas *)

Lemma length_encode_key k :
  length (encode_key k) = (length (bytes_of_string (pk_provider k)) + 10)%nat.
Proof. unfold encode_key. rewrite !length_app, !length_le_bytes. lia. Qed.

Lemma decode_keys_app ks pre :
  Forall provider_key_wf ks →
  let body := concat (encode_key <$> ks) in
  decode_keys (pre ++ body) (length pre) (length body) (length ks) = Done (ks, 0%nat).
Proof.
  intros H. revert pre. induction H as [|k ks [Hn Hk] Hks IH]; intros pre; [done|].
  cbn [length decode_keys]. rewrite fmap_cons. cbn [concat].
  set (body := encode_key k ++ _).
  set (rest := concat (encode_key <$> ks)) in *.
  assert (L : length body = (length (bytes_of_string (pk_provider k)) + 10 + length rest)%nat).
  { unfold body. rewrite length_app, length_encode_key. done. }
  rewrite bool_decide_false by lia. unfold get_u16, get_u64.
  set (name := bytes_of_string (pk_provider k)) in *.
  assert (B : pre ++ body =
    (pre ++ le_bytes 2 (Z.of_nat (length name))) ++ name ++ le_bytes 8 (pk_remote_key k) ++ rest).
  { unfold body, encode_key. fold name. rewrite wrapw_id by (unfold uw; lia).
    by rewrite <- !app_assoc. }
  rewrite B. set (pre2 := pre ++ le_bytes 2 (Z.of_nat (length name))) in *.
  assert (L2 : length pre2 = (length pre + 2)%nat).
  { unfold pre2. by rewrite length_app, length_le_bytes. }
  rewrite (get_le_at _ _ pre 2 (Z.of_nat (length name)) (name ++ le_bytes 8 (pk_remote_key k) ++ rest)).
  2: unfold pre2; by rewrite <- !app_assoc. 2: done. 2: unfold uw; lia.
  cbn [res_bind]. rewrite Nat2Z.id, bool_decide_false by lia.
  rewrite (get_le_at _ _ (pre2 ++ name) 8 (pk_remote_key k) rest).
  2: by rewrite <- !app_assoc. 2: rewrite length_app; lia. 2: done.
  cbn [res_bind].
  replace (length body - 2 - (length name + 8))%nat with (length rest) by lia.
  specialize (IH (pre2 ++ name ++ le_bytes 8 (pk_remote_key k))). cbn zeta in IH.
  rewrite !length_app, length_le_bytes, <- !app_assoc in IH.
  replace (length pre + 2 + length name + 8)%nat
    with (length pre2 + (length name + 8))%nat by lia.
  rewrite IH. cbn [res_bind fst snd]. do 2 f_equal. f_equal.
  rewrite <- L2, drop_app_length, take_app_length. unfold name.
  rewrite string_of_bytes_of_string. by destruct k.
Qed.

Lemma decode_keys_bounds buf p remaining count :
  (p + remaining <= length buf)%nat → in_bounds (decode_keys buf p remaining count).
Proof.
  revert p remaining. induction count as [|count IH]; intros p remaining H; [done|].
  cbn [decode_keys]. case_bool_decide; [done|]. unfold get_u16, get_u64.
  apply in_bounds_bind; [apply get_le_in_bounds; lia|intros n _].
  case_bool_decide; [done|].
  apply in_bounds_bind; [apply get_le_in_bounds; lia|intros key _].
  apply in_bounds_bind; [apply IH; lia|done].
Qed.

(** What a successful parse of the keys says about the bytes. *)

Lemma decode_keys_sound buf p remaining count ks rem' :
  Forall u8 buf → (p + remaining = length buf)%nat →
  decode_keys buf p remaining count = Done (ks, rem') →
  drop p buf = concat (encode_key <$> ks) ++ drop (length buf - rem') buf
  ∧ (rem' <= remaining)%nat ∧ length ks = count ∧ Forall provider_key_wf ks.
Proof.
  intros Hb. revert p remaining ks. induction count as [|count IH]; intros p remaining ks Hp H.
  - injection H as <- <-. cbn. split_and!; try done. f_equal; lia.
  - cbn [decode_keys] in H. case_bool_decide as B1; [done|].
    unfold get_u16, get_u64 in H.
    destruct (get_le buf p 2) as [n| |] eqn:En; try done. cbn [res_bind] in H.
    apply get_le_split in En as (D1 & Rn & L1); [|done|lia].
    case_bool_decide as B2; [done|].
    destruct (get_le buf (p + 2 + Z.to_nat n) 8) as [key| |] eqn:Ek; try done.
    cbn [res_bind] in H. apply get_le_split in Ek as (D2 & Rk & L2); [|done|lia].
    destruct (decode_keys buf (p + 2 + Z.to_nat n + 8) (remaining - 2 - (Z.to_nat n + 8)) count)
      as [[ks' r']| |] eqn:Er; try done. cbn [res_bind fst snd] in H. injection H as <- <-.
    apply IH in Er as (D3 & Hr & Hl & Hw); [|lia].
    set (name := take (Z.to_nat n) (drop (p + 2) buf)) in *.
    assert (Hname : bytes_of_string (string_of_bytes name) = name).
    { apply bytes_of_string_of_bytes. unfold name. auto using Forall_take, Forall_drop. }
    assert (Lname : Z.of_nat (length name) = n).
    { unfold name. rewrite length_take, length_drop. unfold uw in Rn. lia. }
    split_and!; [|lia|cbn; lia|].
    + rewrite fmap_cons. cbn [concat]. unfold encode_key at 1. cbn [pk_provider pk_remote_key].
      rewrite Hname, Lname, wrapw_id by done.
      rewrite D1, <- !app_assoc. f_equal. rewrite <- D3, <- D2.
      unfold name. rewrite <- (take_drop (Z.to_nat n) (drop (p + 2) buf)) at 1.
      by rewrite drop_drop.
    + constructor; [|done]. split; cbn [pk_provider pk_remote_key]; [|done].
      rewrite Hname, Lname. apply Rn.
Qed.

(** The fixed part of an encoded descriptor, read field by field. *)

Definition descriptor_fixed (d : RegionDescriptor) : list Z :=
  le_bytes 2 kDescriptorMajor ++ le_bytes 2 kDescriptorMinor
  ++ le_bytes 8 (host (d_origin d)) ++ le_bytes 8 (process (d_origin d))
  ++ le_bytes 8 (engine (d_origin d))
  ++ le_bytes 8 (d_region d) ++ le_bytes 4 (d_generation d)
  ++ le_bytes 8 (d_base d) ++ le_bytes 8 (d_length d) ++ le_bytes 8 (d_remote_key d)
  ++ le_bytes 1 (DeviceKind.to_u8 (d_device_kind d))
  ++ le_bytes 4 (wrap32 (d_device_index d)) ++ le_bytes 4 (d_access d)
  ++ le_bytes 2 (wrap16 (Z.of_nat (length (d_provider_keys d)))).

Lemma encode_descriptor_fixed d :
  encode_descriptor d = descriptor_fixed d ++ concat (encode_key <$> d_provider_keys d).
Proof. reflexivity. Qed.

Lemma get_le_app_l {E} pre post o n v :
  get_le (E := E) pre o n = Done v → (0 < n)%nat →
  get_le (E := E) (pre ++ post) o n = Done v.
Proof.
  intros H Hn. apply get_le_inv in H as [L ->]; [|done].
  rewrite get_le_spec by (rewrite length_app; lia). f_equal.
  rewrite drop_app_le, take_app_le; [done|rewrite length_drop; lia|lia].
Qed.

Ltac rd_field := unfold descriptor_fixed; rd_fields; reflexivity.

Lemma encode_descriptor_u8 d : Forall u8 (encode_descriptor d).
Proof.
  unfold encode_descriptor, encode_identity. rewrite app_nil_l.
  repeat apply Forall_app_2; auto with hux.
  apply Forall_concat, Forall_fmap, Forall_true. intros k. unfold compose, encode_key.
  repeat apply Forall_app_2; auto with hux.
Qed.

Definition canonical_version (d : RegionDescriptor) : Prop :=
  d_major d = kDescriptorMajor ∧ d_minor d = kDescriptorMinor.

(** ** Properties *)

(** C17: Descriptor round trip: decoding an encoded descriptor yields the same
    origin, region, generation, range, device, access and the same list of
    provider keys. *)
Theorem descriptor_roundtrip d :
  descriptor_wf d → canonical_version d →
  decode_descriptor (encode_descriptor d) = Done d.
Proof.
  intros (Ho & Hr & Hg & Hb & Hl & Hk & Hd & Hi & Ha & Hks & Hn) [Hmaj Hmin].
  set (body := concat (encode_key <$> d_provider_keys d)).
  set (buf := encode_descriptor d).
  assert (L : length buf = (75 + length body)%nat).
  { unfold buf, encode_descriptor. by rewrite !length_app, !length_le_bytes. }
  assert (Hid : decode_identity buf 4 = Done (d_origin d)).
  { apply (decode_identity_app (le_bytes 2 2 ++ le_bytes 2 0) _ (drop 28 buf) 4 Ho eq_refl). }
  assert (Hdk : decode_keys buf 75 (length body) (length (d_provider_keys d))
    = Done (d_provider_keys d, 0%nat)).
  { apply (decode_keys_app (d_provider_keys d) (descriptor_fixed d) Hks). }
  unfold decode_descriptor.
  change kDescriptorBytes with 73%nat.
  rewrite L, Hid, bool_decide_false by lia.
  replace (75 + length body - 73)%nat with (2 + length body)%nat by lia.
  rewrite bool_decide_false by lia.
  replace (2 + length body - 2)%nat with (length body) by lia.
  pose proof (DeviceKind.to_u8_u8 _ Hd) as Hk8.
  pose proof (wrapw_uw 32 (d_device_index d) ltac:(lia)) as Hi32.
  assert (Hn16 : u16 (wrap16 (Z.of_nat (length (d_provider_keys d))))) by by apply wrapw_uw.
  assert (F : ∀ o n v, get_le (E := Status.t) (descriptor_fixed d) o n = Done v →
    (0 < n)%nat → get_le (E := Status.t) buf o n = Done v).
  { intros o n v. unfold buf. rewrite encode_descriptor_fixed. apply get_le_app_l. }
  unfold get_u16, get_u32, get_u64.
  destruct Ho as (Hh & Hp & He).
  rewrite (F 0%nat 2%nat 2), (F 2%nat 2%nat 0) by (rd_field || lia). cbn [res_bind negb Z.eqb].
  change (negb (2 =? kDescriptorMajor)) with false. cbn iota.
  rewrite (F 28%nat 8%nat (d_region d)), (F 36%nat 4%nat (d_generation d)),
    (F 40%nat 8%nat (d_base d)), (F 48%nat 8%nat (d_length d)),
    (F 56%nat 8%nat (d_remote_key d)),
    (F 64%nat 1%nat (DeviceKind.to_u8 (d_device_kind d))),
    (F 65%nat 4%nat (wrap32 (d_device_index d))), (F 69%nat 4%nat (d_access d)),
    (F 73%nat 2%nat (wrap16 (Z.of_nat (length (d_provider_keys d)))))
    by (rd_field || lia).
  cbn [res_bind]. rewrite wrapw_id, Nat2Z.id, Hdk by (unfold uw; lia).
  cbn [res_bind fst snd]. rewrite bool_decide_true by done.
  rewrite DeviceKind.of_to_u8, to_i32_wrap by done.
  destruct d; cbn in *; by subst.
Qed.

Definition sample_descriptor : RegionDescriptor :=
  mkRegionDescriptor 2 0 (mkIdentity 11 22 3) 7 1 4096 65536 99
    [mkProviderKey "rdma"%string 99; mkProviderKey "ipc"%string 5]
    DeviceKind.kCuda 1 12.

Lemma sample_descriptor_wf : descriptor_wf sample_descriptor.
Proof.
  unfold descriptor_wf, identity_wf, uw, i32; cbn.
  split_and!; try lia; repeat constructor; cbn; try lia.
Qed.

Lemma descriptor_roundtrip_witness :
  decode_descriptor (encode_descriptor sample_descriptor) = Done sample_descriptor.
Proof.
  apply (descriptor_roundtrip sample_descriptor sample_descriptor_wf). by split.
Defined.

(** Memory safety of the descriptor parser: on every byte vector, of any
    length and content, no read falls outside the vector. *)
Theorem decode_descriptor_in_bounds buf : in_bounds (decode_descriptor buf).
Proof.
  unfold decode_descriptor. change kDescriptorBytes with 73%nat.
  case_bool_decide; [done|]. unfold get_u16, get_u32, get_u64.
  do 2 (apply in_bounds_bind; [apply get_le_in_bounds; lia|intros ? _]).
  split_if; [done|].
  pose proof (decode_identity_bounds buf 4) as D. unfold in_bounds in D.
  destruct (decode_identity buf 4); [|done|done].
  do 8 (apply in_bounds_bind; [apply get_le_in_bounds; lia|intros ? _]).
  case_bool_decide; [case_bool_decide; done|].
  apply in_bounds_bind; [apply get_le_in_bounds; lia|intros ? _].
  apply in_bounds_bind; [apply decode_keys_bounds; lia|intros ? _].
  by case_bool_decide.
Qed.

(** One parsing step of the fixed part: what was read is what was there. *)

Ltac peel H :=
  match type of H with
  | res_bind (get_le ?buf ?o ?n) _ = Done _ =>
      let E := fresh "E" in
      destruct (get_le buf o n) eqn:E; try discriminate H; cbn [res_bind] in H;
      apply get_le_split in E as (? & ? & ?); [|assumption|lia]
  end.

(** A descriptor is accepted only if it is the canonical encoding of what
    is read from it: from any byte vector longer than the bare fixed part that
    decodes at this minor version, re-encoding the result gives the vector
    back, and the result is well formed. *)
Theorem decode_descriptor_canonical buf d :
  Forall u8 buf → decode_descriptor buf = Done d →
  length buf ≠ kDescriptorBytes → d_minor d = kDescriptorMinor →
  encode_descriptor d = buf ∧ descriptor_wf d ∧ d_major d = kDescriptorMajor.
Proof.
  intros Hb H Hl Hm. unfold decode_descriptor in H.
  change kDescriptorBytes with 73%nat in *. unfold get_u16, get_u32, get_u64 in H.
  case_bool_decide as B1; [done|]. peel H. peel H.
  destruct (negb _) eqn:Emaj; [done|]. b2p.
  unfold decode_identity in H. change kIdentityBytes with 24%nat in H.
  rewrite bool_decide_false in H by lia. unfold get_u64 in H.
  destruct (get_le buf 4 8) as [h| |] eqn:Eh; cbn [res_bind] in H; try done.
  destruct (get_le buf (4 + 8) 8) as [p| |] eqn:Ep; cbn [res_bind] in H; try done.
  destruct (get_le buf (4 + 16) 8) as [e| |] eqn:Ee; cbn [res_bind] in H; try done.
  apply get_le_split in Eh as (? & ? & ?); [|done|lia].
  apply get_le_split in Ep as (? & ? & ?); [|done|lia].
  apply get_le_split in Ee as (? & ? & ?); [|done|lia].
  do 8 peel H. case_bool_decide as B2; [case_bool_decide; [lia|done]|].
  peel H.
  destruct (decode_keys _ _ _ _) as [[ks r]| |] eqn:Ek; cbn [res_bind fst snd] in H; try done.
  case_bool_decide as B3; [|done]. injection H as <-. subst r.
  apply decode_keys_sound in Ek as (Dk & _ & Lk & Wk); [|done|lia].
  rewrite Nat.sub_0_r, drop_all, app_nil_r in Dk. cbn [d_minor] in Hm.
  assert (Hc : uw (8 * Z.of_nat 2) (Z.of_nat (length ks))) by (rewrite Lk; unfold uw in *; lia).
  split_and!; [|unfold descriptor_wf, identity_wf; cbn|by cbn].
  - unfold encode_descriptor, encode_identity. cbn -[le_bytes].
    match goal with |- context [DeviceKind.of_u8 ?x] =>
      rewrite (proj1 (DeviceKind.to_of_u8 x ltac:(assumption))) end.
    match goal with |- context [to_i32 ?x] =>
      rewrite (proj1 (wrap_to_i32 x ltac:(assumption))) end.
    rewrite wrapw_id, Lk, Z2Nat.id by (unfold uw in *; lia).
    subst. unfold kDescriptorMajor, kDescriptorMinor in *. rewrite <- Dk, <- !app_assoc.
    cbn [Nat.add] in *.
    change buf with (drop 0 buf) at 2.
    repeat (match goal with D : drop ?o buf = _ |- _ = drop ?o buf => rewrite D end;
            cbn [Nat.add]; f_equal).
  - split_and!; try (eassumption || done).
    + by apply DeviceKind.to_of_u8.
    + by apply wrap_to_i32.
    + apply Hc.
Qed.

Lemma decode_descriptor_canonical_witness :
  decode_descriptor (encode_descriptor sample_descriptor) = Done sample_descriptor
  ∧ descriptor_wf sample_descriptor.
Proof.
  split; [vm_compute; reflexivity|].
  refine (proj1 (proj2 (decode_descriptor_canonical
    (encode_descriptor sample_descriptor) sample_descriptor _ _ _ _))).
  - apply encode_descriptor_u8.
  - vm_compute; reflexivity.
  - vm_compute; discriminate.
  - reflexivity.
Defined.

(** The access bits a peer can exercise. *)

Definition remote_bits (a : AccessFlags) : Z := Z.land a (Z.lor kRemoteRead kRemoteWrite).

Lemma lnot_cover want have :
  u32 want → u32 have →
  Z.land want (wrap32 (Z.lnot have)) = 0 ↔ Z.land want have = want.
Proof.
  intros Hw Hh. unfold wrapw. rewrite <- Z.land_ones by lia.
  split; intros H; apply Z.bits_inj'; intros i Hi;
    apply (f_equal (fun z => Z.testbit z i)) in H; revert H;
    rewrite !Z.land_spec, ?Z.bits_0, ?Z.lnot_spec by lia;
    (destruct (Z_lt_ge_dec i 32);
      [rewrite Z.ones_spec_low by lia
      |rewrite (bits_high 32 want) by (done || lia)]);
    destruct (Z.testbit want i), (Z.testbit have i); done.
Qed.

(** [registration_covers] is exact. An existing registration is reused
    only for the same device, when it grants every permission asked for, when
    what a peer may do through it is exactly what was asked for, and when the
    requested range lies inside it as integers: no wrapped sum is taken for a
    range that fits. *)
Theorem registration_covers_spec r addr len dev access :
  u64 addr → u64 len → u64 (r_base r) → u64 (r_length r) → u32 access → u32 (r_access r) →
  registration_covers r addr len dev access = true ↔
  r_device r = dev
  ∧ Z.land access (r_access r) = access
  ∧ remote_bits access = remote_bits (r_access r)
  ∧ r_base r <= addr ∧ addr + len <= r_base r + r_length r.
Proof.
  intros Ha Hl Hb Hr Hw Hh. unfold registration_covers, remote_bits.
  rewrite <- (lnot_cover access (r_access r)) by done. unfold uw in *.
  destruct (device_eqb (r_device r) dev) eqn:Ed; cbn [negb].
  2:{ split; [done|]. intros (E & _). apply device_eqb_eq in E. congruence. }
  apply device_eqb_eq in Ed.
  destruct (Z.land access _ =? 0) eqn:Ec; b2p; cbn [negb].
  2:{ split; [done|]. intuition congruence. }
  destruct (_ =? Z.land (r_access r) _) eqn:Er; b2p; cbn [negb].
  2:{ split; [done|]. intuition congruence. }
  destruct (addr <? r_base r) eqn:Es; b2p.
  - split; [done|]. lia.
  - unfold wrapw. rewrite (Z.mod_small (addr - r_base r)) by lia.
    destruct (addr - r_base r <=? r_length r) eqn:Eo; b2p; cbn [andb].
    + rewrite Z.mod_small, Z.leb_le by lia. split; [intros; split_and!|]; try done; lia.
    + split; [done|]. lia.
Qed.

Lemma registration_covers_spec_witness :
  registration_covers (mkRegistration 4096 65536 (mkDeviceId DeviceKind.kHost 0) 15 [] 1 2)
    8192 4096 (mkDeviceId DeviceKind.kHost 0) 13 = true.
Proof.
  apply (registration_covers_spec
    (mkRegistration 4096 65536 (mkDeviceId DeviceKind.kHost 0) 15 [] 1 2));
    cbn; unfold uw; try lia.
  split_and!; try reflexivity; lia.
Defined.
