(* ===== verification/Metadata.v ===== *)
(** * An engine's metadata blob ([EngineImpl::local_metadata] and the parsing
    half of [EngineImpl::add_peer]).

    Identity, magic, version, then every provider's dialling information, each
    named. *)

From stdpp Require Import base list strings numbers.
From S2P Require Import Prelude Types Wire.

Definition kMetadataMagic : Z := 0x58554821.
Definition kMetadataMajor : Z := 1.
Definition kMetadataMinor : Z := 0.

(** What one provider offers: its name and its dialling blob. *)

Definition Offer : Type := string * list Z.

Definition encode_offer (o : Offer) : list Z :=
  let name := bytes_of_string (fst o) in
  le_bytes 2 (wrap16 (Z.of_nat (length name))) ++ name
  ++ le_bytes 2 (wrap16 (Z.of_nat (length (snd o)))) ++ snd o.

(** [minor] is [kMetadataMinor] in this engine; a newer peer writes its own. *)

Definition encode_envelope (id : Identity) (minor : Z) (metas : list Offer) : list Z :=
  encode_identity id []
  ++ le_bytes 2 (Z.land kMetadataMagic 0xffff)
  ++ le_bytes 2 (Z.land (Z.shiftr kMetadataMagic 16) 0xffff)
  ++ le_bytes 2 kMetadataMajor ++ le_bytes 2 minor
  ++ le_bytes 2 (wrap16 (Z.of_nat (length metas)))
  ++ concat (encode_offer <$> metas).

Definition encode_metadata (id : Identity) (metas : list Offer) : Status.t * list Z :=
  match metas with
  | [] => (Status.kInternal, encode_identity id [])
  | _ => (Status.kOk, encode_envelope id kMetadataMinor metas)
  end.

Definition is_envelope (buf : list Z) : rd bool :=
  if bool_decide (length buf < kIdentityBytes + 8)%nat then Done false
  else
    lo <~ get_u16 buf kIdentityBytes;;
    hi <~ get_u16 buf (kIdentityBytes + 2);;
    Done (Z.lor lo (Z.shiftl hi 16) =? kMetadataMagic).

(** The loop over the offers, from cursor [at_]. *)

Fixpoint parse_offers (buf : list Z) (at_ : nat) (count : nat) : rd (list Offer * nat) :=
  match count with
  | O => Done ([], at_)
  | S count =>
      if bool_decide (length buf < at_ + 2)%nat then Fail Status.kInvalidArgument
      else
        n <~ get_u16 buf at_;;
        let n := Z.to_nat n in
        let at_ := (at_ + 2)%nat in
        if bool_decide (length buf < at_ + n + 2)%nat then Fail Status.kInvalidArgument
        else
          let name := string_of_bytes (take n (drop at_ buf)) in
          let at_ := (at_ + n)%nat in
          mlen <~ get_u16 buf at_;;
          let mlen := Z.to_nat mlen in
          let at_ := (at_ + 2)%nat in
          if bool_decide (length buf < at_ + mlen)%nat then Fail Status.kInvalidArgument
          else
            let meta := take mlen (drop at_ buf) in
            rest <~ parse_offers buf (at_ + mlen) count;;
            Done ((name, meta) :: fst rest, snd rest)
  end.

(** [None]: not an engine's metadata, so one provider's dialling blob. *)

Definition parse_metadata (buf : list Z) : rd (option (Identity * list Offer)) :=
  env <~ is_envelope buf;;
  if negb env then Done None
  else
    major <~ get_u16 buf (kIdentityBytes + 4);;
    if negb (major =? kMetadataMajor) then Fail Status.kUnsupported
    else
      match decode_identity buf 0 with
      | Oob => Oob
      | Fail _ => Done None
      | Done id =>
          let at_ := (kIdentityBytes + 8)%nat in
          if bool_decide (length buf < at_ + 2)%nat then Fail Status.kInvalidArgument
          else
            count <~ get_u16 buf at_;;
            r <~ parse_offers buf (at_ + 2) (Z.to_nat count);;
            if negb (bool_decide (snd r = length buf)) then Fail Status.kInvalidArgument
            else Done (Some (id, fst r))
      end.

(** ** Lemmas *)

Definition offer_wf (o : Offer) : Prop :=
  Z.of_nat (length (bytes_of_string (fst o))) < 2 ^ 16 ∧ Z.of_nat (length (snd o)) < 2 ^ 16.

Lemma length_encode_offer o :
  length (encode_offer o) = (4 + length (bytes_of_string (fst o)) + length (snd o))%nat.
Proof. unfold encode_offer. rewrite !length_app, !length_le_bytes. lia. Qed.

Lemma wrap16_len {A} (l : list A) :
  Z.of_nat (length l) < 2 ^ 16 → wrap16 (Z.of_nat (length l)) = Z.of_nat (length l).
Proof. intros. apply wrapw_id. unfold uw. lia. Qed.

Lemma get_u16_at buf off pre v post :
  buf = pre ++ le_bytes 2 v ++ post → off = length pre → uw 16 v → get_u16 buf off = Done v.
Proof.
  intros -> -> H. unfold get_u16. rewrite (get_le_at _ _ pre 2 v post); auto.
Qed.

Lemma take_drop_middle_at {A} (buf pre x post : list A) off n :
  buf = pre ++ x ++ post → off = length pre → n = length x → take n (drop off buf) = x.
Proof. intros -> -> ->. by rewrite drop_app_length, take_app_length. Qed.

Lemma parse_offers_app metas pre post :
  Forall offer_wf metas →
  parse_offers (pre ++ concat (encode_offer <$> metas) ++ post) (length pre) (length metas)
  = Done (metas, (length pre + length (concat (encode_offer <$> metas)))%nat).
Proof.
  intros H. revert pre. induction H as [|[name meta] metas [Hn Hm] _ IH]; intros pre.
  { cbn. f_equal. f_equal. lia. }
  cbn [fst snd] in Hn, Hm. cbn [length parse_offers]. rewrite fmap_cons. cbn [concat].
  set (nb := bytes_of_string name) in *.
  set (rest := concat (encode_offer <$> metas)) in *.
  set (buf := pre ++ (encode_offer (name, meta) ++ rest) ++ post).
  assert (B : buf = pre ++ le_bytes 2 (Z.of_nat (length nb)) ++ nb
    ++ le_bytes 2 (Z.of_nat (length meta)) ++ meta ++ rest ++ post).
  { unfold buf, encode_offer. cbn [fst snd]. fold nb. rewrite !wrap16_len by done.
    by rewrite <- !app_assoc. }
  assert (L : length buf = (length pre + (4 + length nb + length meta) + length rest
    + length post)%nat).
  { rewrite B, !length_app, !length_le_bytes. lia. }
  rewrite bool_decide_false by lia.
  rewrite (get_u16_at buf _ pre (Z.of_nat (length nb)) _ B eq_refl) by (unfold uw; lia).
  cbn [res_bind]. rewrite Nat2Z.id, bool_decide_false by lia.
  rewrite (get_u16_at buf _ (pre ++ le_bytes 2 (Z.of_nat (length nb)) ++ nb)
    (Z.of_nat (length meta)) (meta ++ rest ++ post)).
  2: by rewrite B, <- !app_assoc. 2: rewrite !length_app, length_le_bytes; lia.
  2: unfold uw; lia.
  cbn [res_bind]. rewrite Nat2Z.id, bool_decide_false by lia.
  rewrite (take_drop_middle_at buf (pre ++ le_bytes 2 (Z.of_nat (length nb))) nb
    (le_bytes 2 (Z.of_nat (length meta)) ++ meta ++ rest ++ post));
    [|by rewrite B, <- !app_assoc|rewrite length_app, length_le_bytes; lia|done].
  rewrite (take_drop_middle_at buf (pre ++ le_bytes 2 (Z.of_nat (length nb)) ++ nb
    ++ le_bytes 2 (Z.of_nat (length meta))) meta (rest ++ post));
    [|by rewrite B, <- !app_assoc|rewrite !length_app, !length_le_bytes; lia|done].
  specialize (IH (pre ++ encode_offer (name, meta))).
  rewrite <- app_assoc in IH. fold rest in IH.
  assert (B2 : pre ++ encode_offer (name, meta) ++ rest ++ post = buf)
    by (unfold buf; by rewrite <- !app_assoc).
  rewrite B2 in IH. rewrite length_app, length_encode_offer in IH. cbn [fst snd] in IH. fold nb in IH.
  replace (length pre + 2 + length nb + 2 + length meta)%nat
    with (length pre + (4 + length nb + length meta))%nat by lia.
  rewrite IH. cbn [res_bind fst snd]. unfold nb. rewrite string_of_bytes_of_string.
  f_equal. f_equal. rewrite length_app, length_encode_offer. cbn [fst snd]. fold nb. lia.
Qed.

(** Everything before the offers. *)

Definition envelope_head (id : Identity) (minor : Z) (n : nat) : list Z :=
  encode_identity id []
  ++ le_bytes 2 (Z.land kMetadataMagic 0xffff)
  ++ le_bytes 2 (Z.land (Z.shiftr kMetadataMagic 16) 0xffff)
  ++ le_bytes 2 kMetadataMajor ++ le_bytes 2 minor ++ le_bytes 2 (wrap16 (Z.of_nat n)).

Lemma length_envelope_head id minor n : length (envelope_head id minor n) = 34%nat.
Proof. reflexivity. Qed.

Lemma encode_envelope_head id minor metas tail :
  encode_envelope id minor metas ++ tail
  = envelope_head id minor (length metas) ++ concat (encode_offer <$> metas) ++ tail.
Proof. unfold encode_envelope, envelope_head. by rewrite <- !app_assoc. Qed.

Lemma get_u16_id id rest off :
  (24 <= off)%nat → get_u16 (encode_identity id [] ++ rest) off = get_u16 rest (off - 24).
Proof. intros H. unfold get_u16. by rewrite get_le_drop. Qed.

Lemma is_envelope_head id minor n rest : is_envelope (envelope_head id minor n ++ rest) = Done true.
Proof.
  unfold is_envelope. rewrite bool_decide_false
    by (rewrite length_app, length_envelope_head; unfold kIdentityBytes; lia).
  unfold envelope_head. rewrite <- !app_assoc, !get_u16_id by (unfold kIdentityBytes; lia). unfold get_u16.
  cbn [kIdentityBytes Nat.sub Nat.add]. rd_fields. done.
Qed.

(** Parsing an envelope with [tail] after its last offer. *)

Lemma parse_metadata_app id minor metas tail :
  identity_wf id → Forall offer_wf metas → Z.of_nat (length metas) < 2 ^ 16 →
  parse_metadata (encode_envelope id minor metas ++ tail) =
  match tail with [] => Done (Some (id, metas)) | _ => Fail Status.kInvalidArgument end.
Proof.
  intros Hid Hm Hn. rewrite encode_envelope_head. set (body := concat _).
  unfold parse_metadata. rewrite is_envelope_head. cbn [res_bind negb].
  pose proof (parse_offers_app metas (envelope_head id minor (length metas)) tail Hm) as P.
  rewrite length_envelope_head in P. fold body in P.
  set (buf := envelope_head id minor (length metas) ++ body ++ tail) in *.
  assert (L : length buf = (34 + (length body + length tail))%nat)
    by (unfold buf; by rewrite !length_app, length_envelope_head).
  assert (G : get_u16 buf (kIdentityBytes + 4) = Done kMetadataMajor
    ∧ get_u16 buf (kIdentityBytes + 8) = Done (Z.of_nat (length metas))).
  { unfold buf, envelope_head. rewrite <- !app_assoc, !get_u16_id by (unfold kIdentityBytes; lia). unfold get_u16.
    cbn [kIdentityBytes Nat.sub Nat.add]. rewrite wrap16_len by done.
    assert (uw (8 * Z.of_nat 2) (Z.of_nat (length metas))) by (unfold uw; lia).
    split; rd_fields; done. }
  destruct G as [-> ->]. cbn [res_bind]. rewrite Z.eqb_refl. cbn [negb].
  assert (D : decode_identity buf 0 = Done id).
  { unfold buf, envelope_head. rewrite <- !app_assoc. by apply (decode_identity_app []). }
  rewrite D. rewrite bool_decide_false by (rewrite L; unfold kIdentityBytes; lia).
  rewrite Nat2Z.id. cbn [res_bind]. change (kIdentityBytes + 8 + 2)%nat with 34%nat. rewrite P.
  cbn [res_bind fst snd]. destruct tail as [|b tail].
  - rewrite bool_decide_true by (rewrite L; cbn; lia). done.
  - rewrite bool_decide_false by (rewrite L; cbn; lia). done.
Qed.

Lemma parse_offers_bounds buf at_ count : in_bounds (parse_offers buf at_ count).
Proof.
  revert at_. induction count as [|count IH]; intros at_; cbn [parse_offers]; [done|].
  unfold get_u16. case_bool_decide; [done|]. apply in_bounds_bind; [bounds|]. intros n _.
  case_bool_decide; [done|]. apply in_bounds_bind; [bounds|]. intros m _.
  case_bool_decide; [done|]. apply in_bounds_bind; [apply IH|]. intros [] _. done.
Qed.

(** ** Properties *)

(** C18: Metadata round trip: what [local_metadata] writes, [add_peer] reads
    back as the same identity and the same named dialling blobs in the same
    order, whatever the blobs contain. *)
Theorem metadata_roundtrip id metas :
  identity_wf id → Forall offer_wf metas → 0 < Z.of_nat (length metas) < 2 ^ 16 →
  fst (encode_metadata id metas) = Status.kOk
  ∧ parse_metadata (snd (encode_metadata id metas)) = Done (Some (id, metas)).
Proof.
  intros Hid Hm Hn. unfold encode_metadata. destruct metas as [|m metas]; [cbn in Hn; lia|].
  split; [done|]. cbn [snd]. rewrite <- (app_nil_r (encode_envelope _ _ _)).
  rewrite parse_metadata_app; [done..|lia].
Qed.

Definition sample_offers : list Offer := [("rdma"%string, [1; 2; 3]); ("ipc"%string, [])].

Lemma metadata_roundtrip_witness :
  parse_metadata (snd (encode_metadata (mkIdentity 7 8 9) sample_offers))
  = Done (Some (mkIdentity 7 8 9, sample_offers)).
Proof.
  apply metadata_roundtrip.
  - unfold identity_wf, uw. cbn. lia.
  - repeat constructor; cbn; lia.
  - cbn. lia.
Defined.

(** Memory safety of the metadata parser: on every byte vector handed to
    [add_peer], of any length and content, no read falls outside it. *)
Theorem parse_metadata_in_bounds buf : in_bounds (parse_metadata buf).
Proof.
  unfold parse_metadata, is_envelope, get_u16, kIdentityBytes.
  case_bool_decide; [done|]. cbn [Nat.add] in *.
  apply in_bounds_bind.
  { apply in_bounds_bind; [bounds|]. intros lo _. apply in_bounds_bind; [bounds|]. done. }
  intros env _. destruct (negb env); [done|]. apply in_bounds_bind; [bounds|]. intros major _.
  destruct (negb _); [done|]. pose proof (decode_identity_bounds buf 0) as B.
  destruct (decode_identity buf 0); [|done|done].
  case_bool_decide; [done|]. apply in_bounds_bind; [bounds|]. intros count _.
  apply in_bounds_bind; [apply parse_offers_bounds|]. intros r _. by destruct (negb _).
Qed.

(** An engine's metadata with anything appended is refused, whatever minor
    version it names: [add_peer] accepts a newer minor only if that version
    added no field after the offers. *)
Theorem newer_minor_fields_refused id minor metas b tail :
  identity_wf id → Forall offer_wf metas → Z.of_nat (length metas) < 2 ^ 16 →
  parse_metadata (encode_envelope id minor metas) = Done (Some (id, metas))
  ∧ parse_metadata (encode_envelope id minor metas ++ b :: tail)
    = Fail Status.kInvalidArgument.
Proof.
  intros Hid Hm Hn. rewrite (parse_metadata_app id minor metas (b :: tail)) by done.
  split; [|done]. rewrite <- (app_nil_r (encode_envelope _ _ _)).
  by rewrite parse_metadata_app.
Qed.

Lemma newer_minor_fields_refused_witness :
  parse_metadata (encode_envelope (mkIdentity 7 8 9) 1 sample_offers ++ [0])
  = Fail Status.kInvalidArgument.
Proof.
  apply (newer_minor_fields_refused (mkIdentity 7 8 9) 1 sample_offers 0 []).
  - unfold identity_wf, uw. cbn. lia.
  - repeat constructor; cbn; lia.
  - cbn. lia.
Defined.
