(* ===== verification/Outbox.v ===== *)
(** * The control outbox ([src/transport/control_outbox.{h,cpp}]).

    The sending half of a control channel.  The socket is an environment: one
    [SendResult] per call of [::send], so a run is determined by a script of
    them, and every loop below is structural in the script.  A script that runs
    out stands for a socket that is full.

    Each operation also returns the bytes the socket took, so that a sequence
    of operations determines the byte stream the peer reads. *)

From stdpp Require Import base list gmap strings.
From S2P Require Import Prelude Types.

(** What one [::send(fd, p, left, MSG_NOSIGNAL | MSG_DONTWAIT)] did: the
    socket had room for [k] bytes and took [min k left] of them, or failed. *)

Inductive SendResult : Type :=
| Room (k : nat)
| Eintr
| Eagain
| Eother.

Record ControlOutbox : Type := mkOutbox {
  fd_ : Z;
  limit_ : Z;
  q_ : list (list Z);
  front_off_ : nat;
  bytes_ : Z;
  broken_ : bool
}.

Definition kDefaultLimit : Z := Z.shiftl 1 20.

(** A freshly constructed outbox has no socket. *)

Definition outbox_init : ControlOutbox := mkOutbox (-1) kDefaultLimit [] 0 0 false.

Definition reset (fd limit : Z) (o : ControlOutbox) : ControlOutbox :=
  mkOutbox fd limit [] 0 0 false.

Definition mark_broken (o : ControlOutbox) : ControlOutbox :=
  mkOutbox (fd_ o) (limit_ o) (q_ o) (front_off_ o) (bytes_ o) true.

(** The [while (!q_.empty())] loop of [flush_locked]. *)

Fixpoint flush_loop (s : list SendResult) (o : ControlOutbox)
    : ControlOutbox * Status.t * list Z * list SendResult :=
  match q_ o with
  | [] => (o, Status.kOk, [], s)
  | m :: rest =>
      let left := (length m - front_off_ o)%nat in
      match s with
      | [] => (o, Status.kWouldBlock, [], [])
      | Room k :: s' =>
          let k := Nat.min k left in
          if bool_decide (0 < k)%nat then
            let off := (front_off_ o + k)%nat in
            let bytes := bytes_ o - Z.of_nat k in
            let o' :=
              if bool_decide (off = length m)
              then mkOutbox (fd_ o) (limit_ o) rest 0 bytes (broken_ o)
              else mkOutbox (fd_ o) (limit_ o) (q_ o) off bytes (broken_ o) in
            let '(o'', st, sent, s'') := flush_loop s' o' in
            (o'', st, take k (drop (front_off_ o) m) ++ sent, s'')
          else (mark_broken o, Status.kPeerDisconnected, [], s')
      | Eintr :: s' => flush_loop s' o
      | Eagain :: s' => (o, Status.kWouldBlock, [], s')
      | Eother :: s' => (mark_broken o, Status.kPeerDisconnected, [], s')
      end
  end.

Definition flush_locked (s : list SendResult) (o : ControlOutbox)
    : ControlOutbox * Status.t * list Z * list SendResult :=
  if broken_ o then (o, Status.kPeerDisconnected, [], s)
  else if fd_ o <? 0 then (o, Status.kPeerDisconnected, [], s)
  else flush_loop s o.

(** The direct write in [post]: [None] when the channel ended, otherwise how
    far it got. *)

Fixpoint post_loop (s : list SendResult) (msg : list Z) (off : nat)
    : option nat * list Z * list SendResult :=
  if bool_decide (off < length msg)%nat then
    match s with
    | [] => (Some off, [], [])
    | Room k :: s' =>
        let k := Nat.min k (length msg - off) in
        if bool_decide (0 < k)%nat then
          let '(r, sent, s'') := post_loop s' msg (off + k) in
          (r, take k (drop off msg) ++ sent, s'')
        else (None, [], s')
    | Eintr :: s' => post_loop s' msg off
    | Eagain :: s' => (Some off, [], s')
    | Eother :: s' => (None, [], s')
    end
  else (Some off, [], s).

Definition post (s : list SendResult) (msg : list Z) (o : ControlOutbox)
    : ControlOutbox * Status.t * list Z * list SendResult :=
  if bool_decide (msg = []) then (o, Status.kInvalidArgument, [], s)
  else if broken_ o || (fd_ o <? 0) then (o, Status.kPeerDisconnected, [], s)
  else
    let '(o1, st, sent1, s1) := flush_locked s o in
    if bool_decide (st = Status.kPeerDisconnected) then (o1, st, sent1, s1)
    else
      match q_ o1 with
      | [] =>
          let '(r, sent2, s2) := post_loop s1 msg 0 in
          match r with
          | None => (mark_broken o1, Status.kPeerDisconnected, sent1 ++ sent2, s2)
          | Some off =>
              if bool_decide (off = length msg)
              then (o1, Status.kOk, sent1 ++ sent2, s2)
              else
                (mkOutbox (fd_ o1) (limit_ o1) (q_ o1 ++ [msg]) off
                   (bytes_ o1 + Z.of_nat (length msg - off)) (broken_ o1),
                 Status.kOk, sent1 ++ sent2, s2)
          end
      | _ =>
          if limit_ o1 <? bytes_ o1 + Z.of_nat (length msg)
          then (o1, Status.kWouldBlock, sent1, s1)
          else
            (mkOutbox (fd_ o1) (limit_ o1) (q_ o1 ++ [msg]) (front_off_ o1)
               (bytes_ o1 + Z.of_nat (length msg)) (broken_ o1),
             Status.kOk, sent1, s1)
      end.

Definition flush (s : list SendResult) (o : ControlOutbox)
    : ControlOutbox * Status.t * list Z * list SendResult := flush_locked s o.

Definition backlog_bytes (o : ControlOutbox) : Z := bytes_ o.
Definition backlog_messages (o : ControlOutbox) : nat := length (q_ o).
Definition broken (o : ControlOutbox) : bool := broken_ o.

(** ** Invariant and abstraction *)

(** Bytes still owed to the peer. *)

Definition owed (o : ControlOutbox) : list Z := drop (front_off_ o) (concat (q_ o)).

Definition outbox_inv (o : ControlOutbox) : Prop :=
  Forall (fun m => m ≠ []) (q_ o)
  ∧ match q_ o with
    | [] => front_off_ o = 0%nat
    | m :: _ => (front_off_ o < length m)%nat
    end
  ∧ bytes_ o = Z.of_nat (length (owed o)).

(** ** Sequences of calls *)

Inductive OutboxOp : Type :=
| OpPost (msg : list Z) (s : list SendResult)
| OpFlush (s : list SendResult).

(** Runs a sequence of calls, keeping the messages [post] accepted and the
    bytes the socket took. *)

Record OutboxRun : Type := mkRun {
  run_box : ControlOutbox;
  run_accepted : list (list Z);
  run_wire : list Z
}.

Definition outbox_step (r : OutboxRun) (op : OutboxOp) : OutboxRun :=
  match op with
  | OpPost msg s =>
      let '(o, st, sent, _) := post s msg (run_box r) in
      mkRun o
        (if bool_decide (st = Status.kOk) then run_accepted r ++ [msg] else run_accepted r)
        (run_wire r ++ sent)
  | OpFlush s =>
      let '(o, _, sent, _) := flush s (run_box r) in
      mkRun o (run_accepted r) (run_wire r ++ sent)
  end.

Definition outbox_run (ops : list OutboxOp) (r : OutboxRun) : OutboxRun :=
  foldl outbox_step r ops.

Definition fresh_run (fd limit : Z) : OutboxRun :=
  mkRun (reset fd limit outbox_init) [] [].

(** ** Lemmas *)

Lemma owed_cons m rest off fd lim b br :
  (off <= length m)%nat →
  owed (mkOutbox fd lim (m :: rest) off b br) = drop off m ++ concat rest.
Proof. intros H. unfold owed. cbn. by rewrite drop_app_le by done. Qed.

Lemma outbox_inv_init fd lim o : outbox_inv (reset fd lim o).
Proof. repeat split; constructor. Qed.

Lemma mark_broken_inv o : outbox_inv o → outbox_inv (mark_broken o).
Proof. done. Qed.

#[local] Hint Resolve mark_broken_inv : core.

(** Outcomes a flush can have, given the box it started from. *)

Definition flush_outcome (o o' : ControlOutbox) (st : Status.t) : Prop :=
  (st = Status.kOk ∧ q_ o' = [] ∧ broken_ o' = broken_ o)
  ∨ (st = Status.kWouldBlock ∧ q_ o' ≠ [] ∧ broken_ o' = broken_ o)
  ∨ (st = Status.kPeerDisconnected ∧ broken_ o' = true).

Lemma flush_loop_spec s o o' st sent s' :
  outbox_inv o → flush_loop s o = (o', st, sent, s') →
  outbox_inv o' ∧ owed o = sent ++ owed o'
  ∧ fd_ o' = fd_ o ∧ limit_ o' = limit_ o ∧ flush_outcome o o' st.
Proof.
  unfold flush_outcome.
  revert o o' st sent s'. induction s as [|r s IH]; intros o o' st sent s' Hi H;
    destruct (q_ o) as [|m rest] eqn:Eq; cbn [flush_loop] in H; rewrite Eq in H.
  - injection H as <- <- <- <-. split_and!; auto.
  - injection H as <- <- <- <-. split_and!; auto. right; left. by rewrite Eq.
  - injection H as <- <- <- <-. split_and!; auto.
  - destruct r as [k| | |].
    + case_bool_decide as Hk; [|injection H as <- <- <- <-; split_and!; auto].
      destruct Hi as (Hne & Hoff & Hb). rewrite Eq in Hne, Hoff.
      set (k' := Nat.min k (length m - front_off_ o)) in *.
      set (o1 := if bool_decide (front_off_ o + k' = length m)%nat then _ else _) in H.
      destruct (flush_loop s o1) as [[[o2 st2] sent2] s2] eqn:E2.
      injection H as <- <- <- <-.
      assert (Ho : owed o = take k' (drop (front_off_ o) m) ++ owed o1).
      { unfold owed at 1. rewrite Eq. cbn [concat]. rewrite drop_app_le by lia.
        rewrite <- (take_drop k' (drop (front_off_ o) m)) at 1.
        rewrite <- app_assoc, drop_drop. f_equal. unfold o1.
        case_bool_decide as Hd.
        - by rewrite Hd, drop_all.
        - rewrite owed_cons by lia. done. }
      assert (Hi1 : outbox_inv o1).
      { assert (Hb1 : bytes_ o1 = Z.of_nat (length (owed o1))).
        { assert (Hb2 : bytes_ o1 = bytes_ o - Z.of_nat k')
            by (unfold o1; case_bool_decide; done).
          rewrite Hb2, Hb, Ho, length_app, length_take, length_drop. lia. }
        split_and!; [..|exact Hb1]; unfold o1; case_bool_decide as Hd; cbn;
          rewrite ?Eq; try done.
        - by inversion Hne.
        - inversion Hne as [|? ? _ Hr]; subst. destruct Hr as [|m' ? Hm' _]; [done|].
          destruct m'; [done|]. cbn; lia.
        - lia. }
      apply IH in E2 as (I2 & O2 & F2 & L2 & C2); [|done].
      assert (fd_ o1 = fd_ o ∧ limit_ o1 = limit_ o ∧ broken_ o1 = broken_ o) as (F1 & L1 & B1)
        by (unfold o1; case_bool_decide; done).
      rewrite B1 in C2. split_and!; auto; try congruence.
      by rewrite Ho, O2, app_assoc.
    + apply IH in H; auto.
    + injection H as <- <- <- <-. split_and!; auto. right; left. by rewrite Eq.
    + injection H as <- <- <- <-. split_and!; auto.
Qed.

Lemma flush_spec s o o' st sent s' :
  outbox_inv o → flush_locked s o = (o', st, sent, s') →
  outbox_inv o' ∧ owed o = sent ++ owed o'
  ∧ fd_ o' = fd_ o ∧ limit_ o' = limit_ o
  ∧ (st = Status.kPeerDisconnected ∨ flush_outcome o o' st)
  ∧ (broken_ o = true → o' = o)
  ∧ (st = Status.kPeerDisconnected → broken_ o' = true ∨ fd_ o < 0).
Proof.
  intros Hi H. unfold flush_locked in H.
  destruct (broken_ o) eqn:Eb; [injection H as <- <- <- <-; split_and!; auto|].
  destruct (fd_ o <? 0) eqn:Ef; b2p; [injection H as <- <- <- <-; split_and!; auto|].
  apply flush_loop_spec in H as (I & O & F & L & C); [|done].
  split_and!; auto; [congruence|].
  intros ->. destruct C as [(? & _)|[(? & _)|(_ & ?)]]; auto; done.
Qed.

Lemma post_loop_spec s msg off r sent s' :
  (off <= length msg)%nat → post_loop s msg off = (r, sent, s') →
  match r with
  | Some off' => (off <= off' <= length msg)%nat ∧ drop off msg = sent ++ drop off' msg
  | None => ∃ tail, drop off msg = sent ++ tail
  end.
Proof.
  revert off r sent s'. induction s as [|x s IH]; intros off r sent s' Ho H;
    cbn [post_loop] in H; (case_bool_decide as Hl;
      [|injection H as <- <- <-; split; [lia|done]]).
  - injection H as <- <- <-. split; [lia|done].
  - destruct x as [k| | |].
    + case_bool_decide as Hk; [|injection H as <- <- <-; by eexists].
      set (k' := Nat.min k (length msg - off)) in *.
      destruct (post_loop s msg (off + k')) as [[r2 sent2] s2] eqn:E.
      injection H as <- <- <-. apply IH in E; [|lia].
      assert (D : drop off msg = take k' (drop off msg) ++ drop (off + k') msg)
        by (by rewrite <- drop_drop, take_drop).
      destruct r2 as [off2|].
      * destruct E as [? E]. split; [lia|]. by rewrite D, E, app_assoc at 1.
      * destruct E as [t E]. exists t. by rewrite D, E, app_assoc at 1.
    + by apply IH in H.
    + injection H as <- <- <-. split; [lia|done].
    + injection H as <- <- <-. by eexists.
Qed.

(** Appending a message at the back of the queue. *)

Lemma inv_front o : outbox_inv o → (front_off_ o <= length (concat (q_ o)))%nat.
Proof.
  intros (_ & H & _). destruct (q_ o); cbn; [lia|]. rewrite length_app. lia.
Qed.

Lemma owed_push o msg b br :
  outbox_inv o →
  owed (mkOutbox (fd_ o) (limit_ o) (q_ o ++ [msg]) (front_off_ o) b br) = owed o ++ msg.
Proof.
  intros Hi. unfold owed. cbn. rewrite concat_app. cbn. rewrite app_nil_r.
  apply drop_app_le. by apply inv_front.
Qed.

Lemma owed_empty o : outbox_inv o → q_ o = [] → owed o = [].
Proof. intros _ E. unfold owed. rewrite E. apply drop_nil. Qed.

Lemma push_inv o msg :
  outbox_inv o → msg ≠ [] → q_ o ≠ [] →
  outbox_inv (mkOutbox (fd_ o) (limit_ o) (q_ o ++ [msg]) (front_off_ o)
    (bytes_ o + Z.of_nat (length msg)) (broken_ o)).
Proof.
  intros Hi Hm Hq. pose proof Hi as (Hne & Hoff & Hb). split_and!.
  - cbn. apply Forall_app_2; [done|]. by constructor.
  - cbn. destruct (q_ o); [done|]. exact Hoff.
  - rewrite owed_push by done. cbn. rewrite Hb, length_app. lia.
Qed.

Lemma first_inv fd lim msg off br :
  msg ≠ [] → (off < length msg)%nat →
  outbox_inv (mkOutbox fd lim [msg] off (Z.of_nat (length msg - off)) br).
Proof.
  intros Hm Ho. split_and!; cbn; [by repeat constructor|done|].
  unfold owed; cbn. rewrite app_nil_r, length_drop. done.
Qed.

(** [post] once the flush has left nothing queued. *)

Definition post_direct (s : list SendResult) (msg : list Z) (o1 : ControlOutbox) :=
  let '(r, sent2, s2) := post_loop s msg 0 in
  match r with
  | None => (mark_broken o1, Status.kPeerDisconnected, sent2, s2)
  | Some off =>
      if bool_decide (off = length msg) then (o1, Status.kOk, sent2, s2)
      else (mkOutbox (fd_ o1) (limit_ o1) (q_ o1 ++ [msg]) off
              (bytes_ o1 + Z.of_nat (length msg - off)) (broken_ o1),
            Status.kOk, sent2, s2)
  end.

Lemma post_direct_spec s msg o o' st sent s' :
  outbox_inv o → q_ o = [] → msg ≠ [] → broken_ o = false →
  post_direct s msg o = (o', st, sent, s') →
  outbox_inv o' ∧ fd_ o' = fd_ o ∧ limit_ o' = limit_ o
  ∧ (st = Status.kOk → broken_ o' = false ∧ msg = sent ++ owed o')
  ∧ (st ≠ Status.kOk → broken_ o' = true)
  ∧ sent `prefix_of` msg
  ∧ bytes_ o' <= Z.of_nat (length msg).
Proof.
  intros Hi Hq Hm Hbr H. unfold post_direct in H.
  assert (Hz : bytes_ o = 0).
  { destruct Hi as (_ & _ & ->). unfold owed. rewrite Hq. cbn. by rewrite drop_nil. }
  destruct (post_loop s msg 0) as [[r sent2] s2] eqn:E.
  apply post_loop_spec in E; [|lia]. rewrite drop_0 in E.
  destruct r as [off|].
  - destruct E as [Ho E].
    assert (P : sent2 `prefix_of` msg) by (by eexists).
    case_bool_decide as Hd.
    + injection H as <- <- <- <-. subst off. rewrite drop_all, app_nil_r in E. subst.
      split_and!; auto; try done; [|lia].
      intros _. rewrite (owed_empty o), app_nil_r by done. done.
    + injection H as <- <- <- <-. rewrite Hq. cbn [app]. split_and!; auto; try done.
      * rewrite Hz, Z.add_0_l. apply first_inv; [done|lia].
      * intros _. split; [done|]. rewrite E at 1. f_equal. unfold owed. cbn.
        by rewrite app_nil_r.
      * cbn. lia.
  - destruct E as [t E]. injection H as <- <- <- <-. split_and!; auto; try done.
    + by exists t.
    + cbn. lia.
Qed.

Lemma post_spec s msg o o' st sent s' :
  outbox_inv o → post s msg o = (o', st, sent, s') →
  outbox_inv o' ∧ fd_ o' = fd_ o ∧ limit_ o' = limit_ o
  ∧ (broken_ o = true → o' = o ∧ sent = [] ∧ st ≠ Status.kOk)
  ∧ (st = Status.kOk → broken_ o' = false ∧ owed o ++ msg = sent ++ owed o')
  ∧ (st ≠ Status.kOk → broken_ o' = false → owed o = sent ++ owed o')
  ∧ sent `prefix_of` owed o ++ msg
  ∧ bytes_ o' <= Z.max (bytes_ o) (Z.max (limit_ o) (Z.of_nat (length msg))).
Proof.
  intros Hi H. unfold post in H. case_bool_decide as Hm.
  { injection H as <- <- <- <-. split_and!; auto; try done; [apply prefix_nil|lia]. }
  destruct (broken_ o || (fd_ o <? 0)) eqn:Eb.
  { injection H as <- <- <- <-. split_and!; auto; try done; [apply prefix_nil|lia]. }
  apply orb_false_iff in Eb as [Eb Ef]. b2p. rewrite Eb.
  destruct (flush_locked s o) as [[[o1 st1] sent1] s1] eqn:E1.
  apply flush_spec in E1 as (I1 & O1 & F1 & L1 & C1 & _ & D1); [|done].
  assert (Hle : bytes_ o1 <= bytes_ o).
  { destruct Hi as (_ & _ & ->), I1 as (_ & _ & ->). rewrite O1, length_app. lia. }
  assert (P1 : ∀ x, x `prefix_of` owed o1 ++ msg → sent1 ++ x `prefix_of` owed o ++ msg).
  { intros x Hx. rewrite O1, <- app_assoc. by apply prefix_app. }
  case_bool_decide as Hst.
  { injection H as <- <- <- <-. subst st1. split_and!; auto; try done.
    - rewrite <- (app_nil_r sent1). apply P1, prefix_nil.
    - lia. }
  destruct C1 as [|C1]; [done|].
  assert (B1 : broken_ o1 = false).
  { destruct C1 as [(_ & _ & ->)|[(_ & _ & ->)|(? & _)]]; [done|done|congruence]. }
  destruct (q_ o1) as [|m rest] eqn:Eq1.
  - destruct (post_direct s1 msg o1) as [[[o2 st2] sent2] s2] eqn:E2.
    assert (H' : (o2, st2, sent1 ++ sent2, s2) = (o', st, sent, s')).
    { rewrite <- H. unfold post_direct in E2. rewrite Eq1 in E2.
      destruct (post_loop s1 msg 0) as [[[off|] snt] sx];
        [case_bool_decide|]; injection E2 as <- <- <- <-; done. }
    injection H' as <- <- <- <-.
    apply post_direct_spec in E2 as (I2 & F2 & L2 & K2 & N2 & P2 & S2); auto.
    rewrite (owed_empty o1) in * by done. rewrite app_nil_r in O1. subst sent1.
    split_and!; auto; try congruence; try done.
    + intros Hk. destruct (K2 Hk) as [? K]. split; [done|].
      by rewrite K, app_assoc at 1.
    + intros Hk Hb. rewrite (N2 Hk) in Hb. done.
    + lia.
  - destruct (limit_ o1 <? _) eqn:El; b2p; injection H as <- <- <- <-.
    + split_and!; auto; try done; [|lia].
      rewrite <- (app_nil_r sent1). apply P1, prefix_nil.
    + replace (m :: rest ++ [msg]) with (q_ o1 ++ [msg]) by (by rewrite Eq1).
      split_and!; auto; try done.
      * apply push_inv; [done..|]. by rewrite Eq1.
      * intros _. split; [done|]. rewrite owed_push by done. by rewrite O1, app_assoc.
      * rewrite <- (app_nil_r sent1). apply P1, prefix_nil.
      * cbn. rewrite <- L1. lia.
Qed.

(** ** Invariant of a run *)

Definition run_inv (fd lim maxmsg : Z) (r : OutboxRun) : Prop :=
  outbox_inv (run_box r) ∧ fd_ (run_box r) = fd ∧ limit_ (run_box r) = lim
  ∧ bytes_ (run_box r) <= Z.max lim maxmsg
  ∧ (broken_ (run_box r) = false →
     run_wire r ++ owed (run_box r) = concat (run_accepted r))
  ∧ ∃ extra, run_wire r `prefix_of` concat (run_accepted r) ++ extra.

Definition op_size (maxmsg : Z) (op : OutboxOp) : Prop :=
  match op with
  | OpPost msg _ => Z.of_nat (length msg) <= maxmsg
  | OpFlush _ => True
  end.

Lemma outbox_step_inv fd lim maxmsg r op :
  0 <= fd → op_size maxmsg op → run_inv fd lim maxmsg r →
  run_inv fd lim maxmsg (outbox_step r op).
Proof.
  intros Hfd Hop (Hi & Hf & Hl & Hb & Hs & extra & Hp). unfold run_inv. destruct op as [msg s|s]; cbn in *.
  - destruct (post s msg (run_box r)) as [[[o st] sent] s'] eqn:E.
    apply post_spec in E as (I & F & L & Br & K & N & P & S); [|done]. cbn.
    split_and!; [done|congruence|congruence|lia|..].
    + intros Hbr. destruct (broken_ (run_box r)) eqn:Ebr.
      { destruct (Br eq_refl) as (-> & _). congruence. }
      specialize (Hs eq_refl). case_bool_decide as Hst.
      * destruct (K Hst) as [_ K']. rewrite concat_app. cbn.
        by rewrite app_nil_r, <- Hs, <- !app_assoc, K'.
      * specialize (N Hst Hbr). by rewrite <- Hs, N, app_assoc.
    + destruct (broken_ (run_box r)) eqn:Ebr.
      { destruct (Br eq_refl) as (_ & -> & Hst). rewrite bool_decide_false by done.
        rewrite app_nil_r. eauto. }
      specialize (Hs eq_refl). case_bool_decide as Hst.
      * exists []. rewrite concat_app. cbn. rewrite !app_nil_r, <- Hs, <- app_assoc.
        by apply prefix_app.
      * exists msg. rewrite <- Hs, <- app_assoc. by apply prefix_app.
  - unfold flush. destruct (flush_locked s (run_box r)) as [[[o st] sent] s'] eqn:E.
    apply flush_spec in E as (I & O & F & L & C & Br & D); [|done]. cbn.
    assert (Hle : bytes_ o <= bytes_ (run_box r)).
    { destruct Hi as (_ & _ & ->), I as (_ & _ & ->). rewrite O, length_app. lia. }
    assert (Hsent : broken_ (run_box r) = true → sent = []).
    { intros Hbr. rewrite (Br Hbr) in O. apply (f_equal length) in O.
      rewrite length_app in O. destruct sent; [done|cbn in O; lia]. }
    split_and!; [done|congruence|congruence|lia|..].
    + intros Hbr. destruct (broken_ (run_box r)) eqn:Ebr.
      { rewrite (Br eq_refl) in Hbr. congruence. }
      by rewrite <- (Hs eq_refl), O, app_assoc.
    + destruct (broken_ (run_box r)) eqn:Ebr.
      { rewrite Hsent, app_nil_r by done. eauto. }
      exists []. rewrite app_nil_r, <- (Hs eq_refl), O.
      by apply prefix_app, prefix_app_r.
Qed.

Lemma outbox_run_inv fd lim maxmsg ops r :
  0 <= fd → Forall (op_size maxmsg) ops → run_inv fd lim maxmsg r →
  run_inv fd lim maxmsg (outbox_run ops r).
Proof.
  intros Hfd Hops. revert r. induction Hops as [|op ops Hop Hops IH]; intros r Hr; [done|].
  cbn. apply IH. by apply outbox_step_inv.
Qed.

Lemma fresh_run_inv fd lim maxmsg : 0 <= maxmsg → run_inv fd lim maxmsg (fresh_run fd lim).
Proof.
  intros Hm. repeat split; try constructor; [cbn; lia|].
  exists []. apply prefix_nil.
Qed.

(** Whatever is posted, no message is longer than the longest. *)

Lemma any_run_inv fd lim ops :
  0 <= fd → ∃ maxmsg, run_inv fd lim maxmsg (outbox_run ops (fresh_run fd lim)).
Proof.
  intros Hfd.
  set (maxmsg := Z.of_nat (foldr (fun op n =>
    match op with OpPost m _ => Nat.max (length m) n | _ => n end) 0%nat ops)).
  assert (Hops : Forall (op_size maxmsg) ops).
  { unfold maxmsg. clear. induction ops as [|op ops IH]; constructor; cbn.
    - destruct op; cbn; [lia|done].
    - eapply Forall_impl; [exact IH|]. intros [m s|s]; cbn; [|done].
      destruct op; cbn; lia. }
  exists maxmsg. apply outbox_run_inv; [done|done|apply fresh_run_inv; lia].
Qed.

(** ** Properties *)

(** C10: Stream integrity of the control outbox. After any sequence of [post]
    and [flush] calls, against any behaviour of the socket (short writes,
    EINTR, EAGAIN, errors), the bytes the peer has been sent followed by the
    bytes still queued are exactly the accepted messages concatenated in the
    order they were accepted, unless the channel broke. Messages are never
    interleaved, duplicated, reordered or truncated; and once the channel has
    broken the stream is a prefix of the offered messages. *)
Theorem outbox_stream_integrity fd lim ops :
  0 <= fd →
  let r := outbox_run ops (fresh_run fd lim) in
  (broken (run_box r) = false →
   run_wire r ++ owed (run_box r) = concat (run_accepted r))
  ∧ (∃ extra, run_wire r `prefix_of` concat (run_accepted r) ++ extra)
  ∧ backlog_bytes (run_box r) = Z.of_nat (length (owed (run_box r))).
Proof.
  intros Hfd r. destruct (any_run_inv fd lim ops Hfd) as (m & I & _ & _ & _ & S & P).
  split_and!; [exact S|exact P|apply I].
Qed.

Definition sample_ops : list OutboxOp :=
  [OpPost [1; 2; 3] [Room 2; Eagain]; OpPost [4; 5] [Eintr; Eagain]; OpFlush [Room 1; Room 9]].

Lemma outbox_stream_integrity_witness :
  run_wire (outbox_run sample_ops (fresh_run 7 64)) = [1; 2; 3; 4; 5].
Proof.
  pose proof (proj1 (outbox_stream_integrity 7 64 sample_ops ltac:(lia)) eq_refl) as H.
  replace (owed (run_box (outbox_run sample_ops (fresh_run 7 64)))) with (@nil Z) in H
    by (vm_compute; reflexivity).
  rewrite app_nil_r in H. exact H.
Defined.

(** The backlog is bounded: whatever is posted and however slowly the peer
    reads, the bytes queued never exceed the limit, or the length of a single
    message when one message alone is longer than the limit. *)
Theorem outbox_backlog_bounded fd lim maxmsg ops :
  0 <= fd → 0 <= maxmsg → Forall (op_size maxmsg) ops →
  backlog_bytes (run_box (outbox_run ops (fresh_run fd lim))) <= Z.max lim maxmsg.
Proof.
  intros Hfd Hm Hops.
  by destruct (outbox_run_inv fd lim maxmsg ops (fresh_run fd lim) Hfd Hops
    (fresh_run_inv fd lim maxmsg Hm)) as (_ & _ & _ & B & _).
Qed.

Lemma outbox_backlog_bounded_witness :
  backlog_bytes (run_box (outbox_run sample_ops (fresh_run 7 64))) <= Z.max 64 3.
Proof.
  apply (outbox_backlog_bounded 7 64 3 sample_ops); [lia|lia|].
  repeat constructor; cbn; lia.
Defined.

(** Enough room in the socket drains everything. *)

Lemma flush_loop_drains o k s :
  outbox_inv o → (length (owed o) <= k)%nat → (length (q_ o) <= length s)%nat →
  Forall (fun x => x = Room k) s →
  ∃ o' s', flush_loop s o = (o', Status.kOk, owed o, s') ∧ q_ o' = [] ∧ broken_ o' = broken_ o.
Proof.
  intros Hi Hk Hs Hall. revert o Hi Hk Hs.
  induction Hall as [|x s -> Hall IH]; intros o Hi Hk Hs;
    destruct (q_ o) as [|m rest] eqn:Eq; cbn [flush_loop]; rewrite Eq.
  - eexists _, _. rewrite (owed_empty o) by done. done.
  - cbn in Hs. lia.
  - eexists _, _. rewrite (owed_empty o) by done. done.
  - pose proof Hi as (Hne & Hoff & Hb). rewrite Eq in Hne, Hoff.
    assert (Ho : owed o = drop (front_off_ o) m ++ concat rest).
    { unfold owed. rewrite Eq. cbn. by rewrite drop_app_le by lia. }
    assert (Lk : (length m - front_off_ o <= k)%nat).
    { rewrite Ho, length_app, length_drop in Hk. lia. }
    rewrite Nat.min_r by done. rewrite bool_decide_true by lia.
    rewrite bool_decide_true by lia.
    set (o1 := mkOutbox _ _ _ _ _ _).
    assert (O1 : owed o1 = concat rest) by (unfold owed; cbn; apply drop_0).
    destruct (IH o1) as (o' & s' & E & Q & B).
    + split_and!.
      * by inversion Hne.
      * cbn. destruct rest as [|m' rest']; [done|]. inversion Hne as [|? ? _ Hr]; subst.
        inversion Hr; subst. destruct m'; [done|]. cbn. lia.
      * rewrite O1. cbn. rewrite Hb, Ho, length_app, length_drop. lia.
    + rewrite Ho, length_app in Hk. rewrite O1. lia.
    + cbn in *. lia.
    + rewrite E. eexists _, _. split; [|by split]. f_equal. f_equal.
      rewrite Ho, O1. f_equal. by rewrite take_ge by (rewrite length_drop; lia).
Qed.

(** Progress: a backlog drains. On a live channel, a flush against a socket
    with room for what is owed sends all of it, in order, reports kOk and
    leaves the queue empty, so that the next message is written directly. *)
Theorem outbox_flush_drains o k s :
  outbox_inv o → broken_ o = false → 0 <= fd_ o →
  (length (owed o) <= k)%nat → (length (q_ o) <= length s)%nat →
  Forall (fun x => x = Room k) s →
  ∃ o' s', flush s o = (o', Status.kOk, owed o, s')
    ∧ backlog_messages o' = 0%nat ∧ broken o' = false.
Proof.
  intros Hi Hb Hf Hk Hs Hall. unfold flush, flush_locked.
  rewrite Hb, (proj2 (Z.ltb_ge _ _)) by done.
  destruct (flush_loop_drains o k s Hi Hk Hs Hall) as (o' & s' & E & Q & B).
  exists o', s'. unfold backlog_messages, broken. rewrite Q, B. done.
Qed.

Lemma outbox_flush_drains_witness :
  ∃ o' s', flush [Room 10; Room 10] (mkOutbox 3 64 [[1; 2]; [3]] 1 2 false)
    = (o', Status.kOk, [2; 3], s') ∧ backlog_messages o' = 0%nat ∧ broken o' = false.
Proof.
  apply (outbox_flush_drains (mkOutbox 3 64 [[1; 2]; [3]] 1 2 false) 10);
    try (cbn; lia); try reflexivity.
  - repeat split; repeat constructor; done.
  - repeat constructor.
Defined.
