(* ===== verification/Provider.v ===== *)
(** * The contract between the engine and a transport ([src/transport/provider.h]).

    Data that crosses the boundary, and the interface itself as a type class:
    [TransportProvider P] gives the operations of a transport whose state is
    [P], and [ProviderLaws P] what the engine relies on of every one of them. *)

From stdpp Require Import base list gmap strings.
From Stdlib Require Import SpecFloat.
From S2P Require Import Prelude Types Wire.

Module SubOpKind.

Inductive t : Type := kRead | kWrite.

#[global] Instance eq_dec : EqDecision t.
Proof. solve_decision. Defined.

End SubOpKind.

(** Connections are objects shared between the peer, the requests in flight
    and the provider; a [ConnId] names one. *)

Definition ConnId : Type := Z.

Record SubOp : Type := mkSubOp {
  op_signal_peer : bool;
  op_peer_token : Z;
  op_kind : SubOpKind.t;
  op_request : Z;
  op_sub_id : Z;
  op_local_addr : Z;
  op_local_key : Z;
  op_remote_addr : Z;
  op_remote_key : Z;
  op_length : Z
}.

Record CompletionEvent : Type := mkCompletionEvent {
  ev_request : Z;
  ev_sub_id : Z;
  ev_bytes : Z;
  ev_status : Status.t;
  ev_provider_errno : Z;
  ev_may_have_modified_target : bool
}.

Record SubmitResult : Type := mkSubmitResult {
  sr_accepted : nat;
  sr_status : Status.t;
  sr_provider_errno : Z
}.

Record ControlMessage : Type := mkControlMessage {
  cm_peer : Z;
  cm_type : Z;
  cm_payload : list Z;
  cm_conn : option ConnId
}.

Record PeerArrival : Type := mkPeerArrival { pa_token : Z; pa_from : Z }.

Record ProviderStats : Type := mkProviderStats {
  ps_subops_posted : Z;
  ps_subops_completed : Z;
  ps_subops_failed : Z;
  ps_payload_bytes : Z;
  ps_payload_bytes_copied : Z
}.

Definition no_provider_stats : ProviderStats := mkProviderStats 0 0 0 0 0.

(** Counters are [uint64_t]; these are the increments the providers make. *)

Definition count_posted (s : ProviderStats) (bytes copied : Z) : ProviderStats :=
  mkProviderStats (wrap64 (ps_subops_posted s + 1)) (ps_subops_completed s)
    (ps_subops_failed s) (wrap64 (ps_payload_bytes s + bytes))
    (wrap64 (ps_payload_bytes_copied s + copied)).

Definition count_completed (s : ProviderStats) : ProviderStats :=
  mkProviderStats (ps_subops_posted s) (wrap64 (ps_subops_completed s + 1))
    (ps_subops_failed s) (ps_payload_bytes s) (ps_payload_bytes_copied s).

Definition count_failed (s : ProviderStats) : ProviderStats :=
  mkProviderStats (ps_subops_posted s) (ps_subops_completed s)
    (wrap64 (ps_subops_failed s + 1)) (ps_payload_bytes s) (ps_payload_bytes_copied s).

(** ** The interface *)

(** What a completion poll, a control poll and a registration return. *)

Record ProviderCaps : Type := mkProviderCaps {
  cap_name : string;
  cap_relative_capacity : SpecFloat.spec_float;
  cap_max_segment_bytes : Z
}.

Class TransportProvider (P : Type) : Type := {
  caps : P → ProviderCaps;
  stats : P → ProviderStats;
  register_region : P → Z → Z → DeviceId → AccessFlags → P * (Status.t * Z * Z);
  deregister_region : P → Z → P * Status.t;
  connect : P → list Z → P * (Status.t * ConnId);
  disconnect : P → ConnId → P * Status.t;
  local_metadata : P → Status.t * list Z;
  submit : P → ConnId → list SubOp → P * SubmitResult;
  poll : P → Z → P * (Status.t * list CompletionEvent);
  send_control : P → option ConnId → Z → list Z → P * Status.t;
  broadcast_control : P → Z → list Z → P * (Status.t * Z * Z);
  poll_control : P → Z → P * (Status.t * list ControlMessage);
  poll_peer_arrivals : P → Z → P * (Status.t * list PeerArrival);
  alive : P → ConnId → bool;
  qp_count : P → ConnId → Z
}.

Definition count_req {A} (f : A → Z) (i : Z) (l : list A) : nat :=
  length (filter (fun a => f a = i) l).

Lemma count_req_app {A} (f : A → Z) i l k :
  count_req f i (l ++ k) = (count_req f i l + count_req f i k)%nat.
Proof. unfold count_req. by rewrite list.filter_app, length_app. Qed.

Lemma count_req_nil {A} (f : A → Z) i : count_req f i [] = 0%nat.
Proof. done. Qed.

Lemma count_req_cons {A} (f : A → Z) i a l :
  count_req f i (a :: l) = ((if decide (f a = i) then 1 else 0) + count_req f i l)%nat.
Proof. unfold count_req. rewrite filter_cons. by case_decide. Qed.

Lemma count_req_map {A B} (f : B → Z) (g : A → B) i l :
  count_req f i (map g l) = count_req (fun a => f (g a)) i l.
Proof.
  unfold count_req. induction l as [|a l IH]; [done|]. cbn [map]. rewrite !filter_cons.
  repeat case_decide; cbn; by rewrite ?IH.
Qed.

(** What the engine relies on.  [outstanding p i] is the number of
    sub-operations of request [i] that [p] has accepted and whose completion it
    has not handed over.  A submit accepts a prefix of what it was offered; a
    poll hands over every completion it retires, once; and no other operation
    makes or loses a completion (a disconnected connection's work still
    completes, failed, through [poll]). *)

Class ProviderLaws (P : Type) `{TransportProvider P} : Type := {
  outstanding : P → Z → nat;
  submit_accepts p c ops : (sr_accepted (snd (submit p c ops)) <= length ops)%nat;
  submit_outstanding p c ops i :
    outstanding (fst (submit p c ops)) i =
    (outstanding p i
     + count_req op_request i (take (sr_accepted (snd (submit p c ops))) ops))%nat;
  poll_outstanding p n i :
    outstanding p i =
    (outstanding (fst (poll p n)) i + count_req ev_request i (snd (snd (poll p n))))%nat;
  register_outstanding p a l d f i :
    outstanding (fst (register_region p a l d f)) i = outstanding p i;
  deregister_outstanding p k i : outstanding (fst (deregister_region p k)) i = outstanding p i;
  connect_outstanding p m i : outstanding (fst (connect p m)) i = outstanding p i;
  disconnect_outstanding p c i : outstanding (fst (disconnect p c)) i = outstanding p i;
  send_outstanding p c t b i : outstanding (fst (send_control p c t b)) i = outstanding p i;
  broadcast_outstanding p t b i :
    outstanding (fst (broadcast_control p t b)) i = outstanding p i;
  poll_control_outstanding p n i : outstanding (fst (poll_control p n)) i = outstanding p i;
  poll_arrivals_outstanding p n i :
    outstanding (fst (poll_peer_arrivals p n)) i = outstanding p i
}.

(** The device a transfer is ordered against: its events change state over
    time, so a query may move it. *)

Class DeviceWorld (D : Type) : Type := {
  event_recorded : D → Z → bool;
  event_query : D → Z → D * (Status.t * bool)
}.
