(* ===== verification/Request.v ===== *)
(** * One logical request ([src/core/request_impl.{h,cpp}]).

    Every method takes the request's mutex for its whole body, so each is one
    atomic transition of [RequestImpl]; concurrent callers are sequences of
    such transitions. *)

From stdpp Require Import base list gmap strings.
From S2P Require Import Prelude Types Wire Region Provider.

(** Where a write landed on the peer. *)

Record RemoteTarget : Type := mkRemoteTarget {
  rt_region : Z;
  rt_generation : Z;
  rt_span : Span
}.

(** What the request holds on to: set before it is admitted. *)

Record Attachments : Type := mkAttachments {
  held_regions : list Z;
  held_conn : option ConnId;
  held_lanes : list ConnId;
  req_peer : Z;
  req_provider : option nat;
  req_has_device : bool;
  target_addr : Z;
  target_bytes : Z;
  remote_targets : list RemoteTarget
}.

Definition no_attachments : Attachments := mkAttachments [] None [] 0 None false 0 0 [].

Record RequestImpl : Type := mkRequest {
  id_ : Z;
  kind_ : SubOpKind.t;
  total_subops_ : Z;
  context_ : Z;
  state_ : RequestState.t;
  completed_subops_ : Z;
  accepted_subops_ : Z;
  sealed_ : bool;
  parts_left_ : Z;
  cancel_requested_ : bool;
  stages_ : Z;
  error_ : ErrorInfo;
  att_ : Attachments
}.

Definition stage_bit (s : Stage.t) : Z := Z.shiftl 1 (Stage.to_u32 s).

Definition new_request (id : Z) (kind : SubOpKind.t) (total context : Z) : RequestImpl :=
  mkRequest id kind total context RequestState.kQueued 0 0 false 0 false
    (stage_bit Stage.kAccepted) no_error no_attachments.

(** Field updates. *)

Definition upd_state (s : RequestState.t) (r : RequestImpl) : RequestImpl :=
  mkRequest (id_ r) (kind_ r) (total_subops_ r) (context_ r) s (completed_subops_ r)
    (accepted_subops_ r) (sealed_ r) (parts_left_ r) (cancel_requested_ r) (stages_ r)
    (error_ r) (att_ r).

Definition upd_counts (completed accepted : Z) (sealed : bool) (parts : Z) (r : RequestImpl)
    : RequestImpl :=
  mkRequest (id_ r) (kind_ r) (total_subops_ r) (context_ r) (state_ r) completed accepted
    sealed parts (cancel_requested_ r) (stages_ r) (error_ r) (att_ r).

Definition upd_cancel (r : RequestImpl) : RequestImpl :=
  mkRequest (id_ r) (kind_ r) (total_subops_ r) (context_ r) (state_ r) (completed_subops_ r)
    (accepted_subops_ r) (sealed_ r) (parts_left_ r) true (stages_ r) (error_ r) (att_ r).

Definition upd_stages (stages : Z) (r : RequestImpl) : RequestImpl :=
  mkRequest (id_ r) (kind_ r) (total_subops_ r) (context_ r) (state_ r) (completed_subops_ r)
    (accepted_subops_ r) (sealed_ r) (parts_left_ r) (cancel_requested_ r) stages (error_ r)
    (att_ r).

Definition upd_error (e : ErrorInfo) (r : RequestImpl) : RequestImpl :=
  mkRequest (id_ r) (kind_ r) (total_subops_ r) (context_ r) (state_ r) (completed_subops_ r)
    (accepted_subops_ r) (sealed_ r) (parts_left_ r) (cancel_requested_ r) (stages_ r) e
    (att_ r).

Definition upd_att (a : Attachments) (r : RequestImpl) : RequestImpl :=
  mkRequest (id_ r) (kind_ r) (total_subops_ r) (context_ r) (state_ r) (completed_subops_ r)
    (accepted_subops_ r) (sealed_ r) (parts_left_ r) (cancel_requested_ r) (stages_ r)
    (error_ r) a.

(** ** Queries *)

Definition terminal_locked (r : RequestImpl) : bool := RequestState.is_terminal (state_ r).

Definition reached (s : Stage.t) (r : RequestImpl) : bool :=
  negb (Z.land (stages_ r) (stage_bit s) =? 0).

Definition cancel_requested (r : RequestImpl) : bool := cancel_requested_ r.

Definition sealed (r : RequestImpl) : bool := sealed_ r.

Definition accepted_subops (r : RequestImpl) : Z := accepted_subops_ r.

Definition abandoning (r : RequestImpl) : bool :=
  terminal_locked r || cancel_requested_ r || negb (err_ok (error_ r)).

Definition test (r : RequestImpl) : Status.t * bool := (Status.kOk, terminal_locked r).

Definition outcome_locked (r : RequestImpl) : Status.t :=
  if bool_decide (state_ r = RequestState.kCancelled) then Status.kCancelled
  else if negb (err_ok (error_ r)) then err_status (error_ r)
  else if bool_decide (state_ r = RequestState.kFailed) then Status.kInternal
  else Status.kOk.

Definition reached_or (s : Stage.t) (r : RequestImpl) : Status.t :=
  if reached s r then Status.kOk
  else if bool_decide (state_ r = RequestState.kCancelled) then Status.kCancelled
  else if terminal_locked r then
    if err_ok (error_ r) then Status.kInternal else err_status (error_ r)
  else Status.kWouldBlock.

(** [wait] looks at the request when it is called and when it is woken or
    times out: [later] is the request as it is then. *)

Definition wait (later : RequestImpl) (r : RequestImpl) : Status.t :=
  if terminal_locked r then outcome_locked r
  else if terminal_locked later then outcome_locked later
  else Status.kTimeout.

(** [make_visible] is the device backend's. *)

Definition wait_on (make_visible : Z → Z → Status.t) (stream : bool) (r : RequestImpl)
    : Status.t :=
  if negb stream then Status.kInvalidArgument
  else if negb (req_has_device (att_ r)) then Status.kUnsupported
  else
    let s := reached_or Stage.kTargetReady r in
    if negb (Status.ok s) then s
    else make_visible (target_addr (att_ r)) (target_bytes (att_ r)).

Definition wait_source_reusable_on (stream : bool) (r : RequestImpl) : Status.t :=
  if negb stream then Status.kInvalidArgument
  else if negb (bool_decide (kind_ r = SubOpKind.kWrite)) then Status.kInvalidArgument
  else if negb (req_has_device (att_ r)) then Status.kUnsupported
  else reached_or Stage.kSourceReusable r.

(** ** Transitions *)

Definition record_error_locked (e : ErrorInfo) (r : RequestImpl) : RequestImpl :=
  if err_ok e || negb (err_ok (error_ r)) then r else upd_error e r.

Definition set_state (s : RequestState.t) (r : RequestImpl) : RequestImpl :=
  if terminal_locked r || cancel_requested_ r then r else upd_state s r.

Definition mark_stage (s : Stage.t) (r : RequestImpl) : RequestImpl :=
  upd_stages (Z.lor (stages_ r) (stage_bit s)) r.

Definition add_accepted_subops (n : Z) (r : RequestImpl) : RequestImpl :=
  upd_counts (completed_subops_ r) (wrap32 (accepted_subops_ r + n)) (sealed_ r)
    (parts_left_ r) r.

Definition seal_accepted (r : RequestImpl) : RequestImpl :=
  upd_counts (completed_subops_ r) (accepted_subops_ r) true (parts_left_ r) r.

Definition set_parts (n : Z) (r : RequestImpl) : RequestImpl :=
  upd_counts (completed_subops_ r) (accepted_subops_ r) (sealed_ r) n r.

Definition part_finished (r : RequestImpl) : RequestImpl * bool :=
  let parts := if 0 <? parts_left_ r then parts_left_ r - 1 else parts_left_ r in
  (upd_counts (completed_subops_ r) (accepted_subops_ r) (sealed_ r) parts r, parts =? 0).

Definition seal_if_idle (r : RequestImpl) : RequestImpl * bool :=
  (seal_accepted r,
   negb (terminal_locked r) && (accepted_subops_ r <=? completed_subops_ r)).

Definition event_error (ev : CompletionEvent) : ErrorInfo :=
  mkErrorInfo (ev_status ev) EmptyString 0 (ev_provider_errno ev)
    (ev_may_have_modified_target ev) EmptyString.

Definition on_subop_complete (ev : CompletionEvent) (r : RequestImpl) : RequestImpl * bool :=
  if terminal_locked r then (r, false)
  else
    let r :=
      if negb (Status.ok (ev_status ev)) then record_error_locked (event_error ev) r else r in
    let r :=
      upd_counts (wrap32 (completed_subops_ r + 1)) (accepted_subops_ r) (sealed_ r)
        (parts_left_ r) r in
    let expected := if sealed_ r then accepted_subops_ r else total_subops_ r in
    (r, expected <=? completed_subops_ r).

Definition cancel (r : RequestImpl) : RequestImpl * Status.t :=
  if bool_decide (state_ r = RequestState.kSucceeded) then (r, Status.kInvalidArgument)
  else if terminal_locked r then (r, Status.kOk)
  else (upd_state RequestState.kDraining (upd_cancel r), Status.kOk).

Definition note_error (e : ErrorInfo) (r : RequestImpl) : RequestImpl :=
  if terminal_locked r then r else record_error_locked e r.

Definition fail (e : ErrorInfo) (r : RequestImpl) : RequestImpl :=
  if terminal_locked r then r
  else
    let r := record_error_locked e r in
    upd_state RequestState.kFailed
      (upd_stages (Z.lor (stages_ r) (stage_bit Stage.kFailedSafe)) r).

Definition finish_success (r : RequestImpl) : RequestImpl :=
  if terminal_locked r then r
  else
    upd_state RequestState.kSucceeded
      (upd_stages (Z.lor (stages_ r)
        (Z.lor (Z.lor (stage_bit Stage.kTransferComplete) (stage_bit Stage.kTargetReady))
               (stage_bit Stage.kSourceReusable))) r).

Definition finish_cancelled (r : RequestImpl) : RequestImpl :=
  if terminal_locked r then r
  else
    upd_state RequestState.kCancelled
      (upd_stages (Z.lor (stages_ r) (stage_bit Stage.kCancelledSafe)) r).

(** The last element is the one that may be extended; 64-bit sums wrap. *)

Fixpoint add_target (ts : list RemoteTarget) (region gen : Z) (span : Span)
    : list RemoteTarget :=
  match ts with
  | [] => [mkRemoteTarget region gen span]
  | [t] =>
      if (rt_region t =? region) && (rt_generation t =? gen)
         && (wrap64 (sp_offset (rt_span t) + sp_length (rt_span t)) =? sp_offset span)
      then [mkRemoteTarget (rt_region t) (rt_generation t)
              (mkSpan (sp_offset (rt_span t))
                 (wrap64 (sp_length (rt_span t) + sp_length span)))]
      else [t; mkRemoteTarget region gen span]
  | t :: ts' => t :: add_target ts' region gen span
  end.

Definition add_remote_target (region gen : Z) (span : Span) (r : RequestImpl) : RequestImpl :=
  let a := att_ r in
  upd_att (mkAttachments (held_regions a) (held_conn a) (held_lanes a) (req_peer a)
    (req_provider a) (req_has_device a) (target_addr a) (target_bytes a)
    (add_target (remote_targets a) region gen span)) r.

(** ** The request as a state machine

    One constructor per method.  The engine moves a request to non-terminal
    states only through [set_state], and marks only the two stages that a
    completion proves through [mark_stage]. *)

Inductive req_step : RequestImpl → RequestImpl → Prop :=
| step_set_state s r : RequestState.is_terminal s = false → req_step r (set_state s r)
| step_mark_stage s r :
    s = Stage.kTransferComplete ∨ s = Stage.kTargetReady → req_step r (mark_stage s r)
| step_add_accepted n r : req_step r (add_accepted_subops n r)
| step_seal_accepted r : req_step r (seal_accepted r)
| step_set_parts n r : req_step r (set_parts n r)
| step_part_finished r : req_step r (fst (part_finished r))
| step_seal_if_idle r : req_step r (fst (seal_if_idle r))
| step_on_subop_complete ev r : req_step r (fst (on_subop_complete ev r))
| step_cancel r : req_step r (fst (cancel r))
| step_note_error e r : req_step r (note_error e r)
| step_fail e r : req_step r (fail e r)
| step_finish_success r : req_step r (finish_success r)
| step_finish_cancelled r : req_step r (finish_cancelled r)
| step_add_remote_target reg gen sp r : req_step r (add_remote_target reg gen sp r).

(** ** Lemmas *)

Lemma reached_testbit s r : reached s r = Z.testbit (stages_ r) (Stage.to_u32 s).
Proof.
  unfold reached, stage_bit. rewrite Z.shiftl_1_l.
  assert (H0 : 0 <= Stage.to_u32 s) by (destruct s; cbn; lia).
  destruct (Z.testbit (stages_ r) (Stage.to_u32 s)) eqn:E.
  - apply negb_true_iff, Z.eqb_neq. intros H.
    apply (f_equal (fun z => Z.testbit z (Stage.to_u32 s))) in H. revert H.
    rewrite Z.land_spec, E, Z.pow2_bits_true, Z.bits_0 by done. done.
  - apply negb_false_iff, Z.eqb_eq, Z.bits_inj'. intros i Hi.
    rewrite Z.land_spec, Z.bits_0. destruct (decide (i = Stage.to_u32 s)) as [->|Hne].
    + by rewrite E.
    + rewrite (Z.pow2_bits_false _ i) by congruence. apply andb_false_r.
Qed.

Lemma stage_bit_testbit s s' :
  Z.testbit (stage_bit s) (Stage.to_u32 s') = bool_decide (s = s').
Proof. destruct s, s'; reflexivity. Qed.

Lemma reached_lor s r b :
  reached s (upd_stages (Z.lor (stages_ r) b) r) = reached s r || Z.testbit b (Stage.to_u32 s).
Proof. rewrite !reached_testbit. cbn. apply Z.lor_spec. Qed.

Lemma reached_end s st r b :
  reached s (upd_state st (upd_stages (Z.lor (stages_ r) b) r))
  = reached s r || Z.testbit b (Stage.to_u32 s).
Proof. rewrite !reached_testbit. apply Z.lor_spec. Qed.

Lemma reached_same s r r' : stages_ r' = stages_ r → reached s r' = reached s r.
Proof. intros H. unfold reached. by rewrite H. Qed.

(** [record_error_locked] touches nothing but the error. *)

Lemma record_error_frame e r :
  let r' := record_error_locked e r in
  state_ r' = state_ r ∧ stages_ r' = stages_ r ∧ cancel_requested_ r' = cancel_requested_ r
  ∧ completed_subops_ r' = completed_subops_ r ∧ accepted_subops_ r' = accepted_subops_ r
  ∧ sealed_ r' = sealed_ r ∧ parts_left_ r' = parts_left_ r ∧ total_subops_ r' = total_subops_ r
  ∧ att_ r' = att_ r ∧ id_ r' = id_ r ∧ kind_ r' = kind_ r
  ∧ (err_ok (error_ r) = false → error_ r' = error_ r).
Proof.
  unfold record_error_locked. cbn. destruct (err_ok (error_ r)) eqn:E; cbn.
  - rewrite orb_false_r. destruct (err_ok e); split_and!; done.
  - rewrite orb_true_r. split_and!; done.
Qed.

Lemma record_error_err e r :
  err_ok e = false → err_ok (error_ (record_error_locked e r)) = false.
Proof.
  intros H. unfold record_error_locked. rewrite H. cbn.
  destruct (err_ok (error_ r)) eqn:E; done.
Qed.

Ltac unfold_step :=
  unfold set_state, mark_stage, add_accepted_subops, seal_accepted, set_parts, part_finished,
    seal_if_idle, seal_accepted, on_subop_complete, cancel, note_error, fail, finish_success,
    finish_cancelled, add_remote_target in *; cbn [fst snd] in *.

Lemma terminal_step r r' :
  req_step r r' → terminal_locked r = true →
  state_ r' = state_ r ∧ error_ r' = error_ r ∧ cancel_requested_ r' = cancel_requested_ r.
Proof.
  intros H T. destruct H; unfold_step; rewrite ?T; cbn; try done.
  by case_bool_decide.
Qed.

Lemma terminal_steps r r' :
  rtc req_step r r' → terminal_locked r = true →
  state_ r' = state_ r ∧ error_ r' = error_ r.
Proof.
  induction 1 as [|x y z Hxy _ IH]; intros T; [done|].
  destruct (terminal_step _ _ Hxy T) as (S & E & _).
  destruct IH as [S' E']; [unfold terminal_locked in *; congruence|]. split; congruence.
Qed.

Lemma error_step r r' :
  req_step r r' → err_ok (error_ r) = false → error_ r' = error_ r.
Proof.
  intros H E.
  assert (R : ∀ e x, error_ x = error_ r → error_ (record_error_locked e x) = error_ r).
  { intros e x Hx. rewrite <- Hx. apply record_error_frame. congruence. }
  destruct H; unfold_step; repeat split_if; cbn; try done; auto.
Qed.

Lemma reached_step s r r' :
  req_step r r' → reached s r = true → reached s r' = true.
Proof.
  intros H E. rewrite reached_testbit in *.
  assert (R : ∀ e x, stages_ (record_error_locked e x) = stages_ x).
  { intros e x. apply record_error_frame. }
  destruct H; unfold_step; repeat split_if; cbn; rewrite ?R, ?Z.lor_spec, ?E; done.
Qed.

(** What the published stages say about the state. *)

Definition stages_match (r : RequestImpl) : Prop :=
  reached Stage.kAccepted r = true
  ∧ (reached Stage.kFailedSafe r = true ↔ state_ r = RequestState.kFailed)
  ∧ (reached Stage.kCancelledSafe r = true ↔ state_ r = RequestState.kCancelled)
  ∧ (reached Stage.kSourceReusable r = true ↔ state_ r = RequestState.kSucceeded)
  ∧ (state_ r = RequestState.kSucceeded →
     reached Stage.kTransferComplete r = true ∧ reached Stage.kTargetReady r = true)
  ∧ (cancel_requested_ r = true →
     terminal_locked r = true ∨ state_ r = RequestState.kDraining).

Lemma stages_match_eq r r' :
  stages_ r' = stages_ r → state_ r' = state_ r → cancel_requested_ r' = cancel_requested_ r →
  stages_match r → stages_match r'.
Proof.
  unfold stages_match, terminal_locked. intros E -> ->.
  by rewrite !(reached_same _ r r') by done.
Qed.

Lemma stages_match_state s r :
  RequestState.is_terminal s = false → terminal_locked r = false →
  (cancel_requested_ r = true → s = RequestState.kDraining) →
  stages_match r → stages_match (upd_state s r).
Proof.
  unfold stages_match, terminal_locked. rewrite !(reached_same _ r (upd_state s r)) by done.
  cbn [state_ upd_state cancel_requested_]. intros Hs Ht Hc (A & F & C & S & X & K).
  assert (∀ t, RequestState.is_terminal t = true → t ≠ s ∧ t ≠ state_ r) as N.
  { intros t Et. split; intros ->; congruence. }
  destruct (N RequestState.kFailed eq_refl), (N RequestState.kCancelled eq_refl),
    (N RequestState.kSucceeded eq_refl).
  split_and!; try done; try (split; intros HH; exfalso;
    first [apply F in HH|apply C in HH|apply S in HH|idtac]; congruence).
  all: try (intros HH; exfalso; congruence).
  intros HH. right. auto.
Qed.

(** Ending a request: the three terminal transitions share this. *)

Lemma stages_match_end r st b :
  terminal_locked r = false → stages_match r →
  (st = RequestState.kFailed ∧ b = stage_bit Stage.kFailedSafe)
  ∨ (st = RequestState.kCancelled ∧ b = stage_bit Stage.kCancelledSafe)
  ∨ (st = RequestState.kSucceeded
     ∧ b = Z.lor (Z.lor (stage_bit Stage.kTransferComplete) (stage_bit Stage.kTargetReady))
             (stage_bit Stage.kSourceReusable)) →
  stages_match (upd_state st (upd_stages (Z.lor (stages_ r) b) r)).
Proof.
  unfold stages_match, terminal_locked. rewrite !reached_end.
  intros T (A & F & C & S & X & K) H.
  assert (reached Stage.kFailedSafe r = false) as ->.
  { destruct (reached Stage.kFailedSafe r); [|done]. rewrite (proj1 F eq_refl) in T. done. }
  assert (reached Stage.kCancelledSafe r = false) as ->.
  { destruct (reached Stage.kCancelledSafe r); [|done]. rewrite (proj1 C eq_refl) in T. done. }
  assert (reached Stage.kSourceReusable r = false) as ->.
  { destruct (reached Stage.kSourceReusable r); [|done]. rewrite (proj1 S eq_refl) in T. done. }
  rewrite A. destruct H as [[-> ->]|[[-> ->]|[-> ->]]]; cbn;
    rewrite ?orb_true_r; split_and!; try done; auto.
Qed.

Lemma stages_match_step r r' : req_step r r' → stages_match r → stages_match r'.
Proof.
  intros H M.
  assert (R : ∀ e x, stages_match x → stages_match (record_error_locked e x)).
  { intros e x. apply stages_match_eq; apply record_error_frame. }
  destruct H; unfold_step; try (revert M; by apply stages_match_eq).
  - destruct (terminal_locked r) eqn:T; [done|]. destruct (cancel_requested_ r) eqn:C; [done|].
    apply stages_match_state; auto. congruence.
  - destruct M as (A & F & C & S & X & K). unfold stages_match, terminal_locked in *.
    rewrite !reached_lor, A. cbn [state_ upd_stages cancel_requested_].
    destruct H as [-> | ->]; cbn [orb]; rewrite !stage_bit_testbit;
      rewrite !(bool_decide_eq_false_2 (_ = _)) by done; rewrite ?orb_false_r;
      split_and!; try done; intros HH; destruct (X HH) as [-> ->]; done.
  - destruct (terminal_locked r) eqn:T; cbn; [done|].
    destruct (negb _); [apply (R (event_error ev)) in M|]; revert M; by apply stages_match_eq.
  - case_bool_decide; cbn; [done|]. destruct (terminal_locked r) eqn:T; cbn; [done|].
    assert (M' : stages_match (upd_state RequestState.kDraining r)) by (by apply stages_match_state).
    destruct M' as (A & F & C & S & X & K). repeat split; try apply F; try apply C;
      try apply S; try apply X; auto.
  - destruct (terminal_locked r) eqn:T; auto.
  - destruct (terminal_locked r) eqn:T; [done|]. apply stages_match_end; auto.
    unfold terminal_locked in *. by rewrite (proj1 (record_error_frame e r)).
  - destruct (terminal_locked r) eqn:T; [done|]. apply stages_match_end; auto.
  - destruct (terminal_locked r) eqn:T; [done|]. apply stages_match_end; auto.
Qed.

Lemma stages_match_new id k n c : stages_match (new_request id k n c).
Proof. unfold stages_match. vm_compute. intuition congruence. Qed.

Lemma stages_match_steps r r' : rtc req_step r r' → stages_match r → stages_match r'.
Proof. induction 1; eauto using stages_match_step. Qed.

(** ** Who ends a request

    The calls that decide when a request has nothing left outstanding, made by
    the submitting thread ([EAccept], [ESeal]) and by the completion path
    ([EComplete]), in any interleaving. *)

Inductive CountEvent : Type :=
| EAccept (n : Z)
| EComplete (ev : CompletionEvent)
| ESeal.

(** Runs the calls and counts how many of them were told to end the request. *)

Definition count_step (x : RequestImpl * Z) (e : CountEvent) : RequestImpl * Z :=
  let '(r, n) := x in
  match e with
  | EAccept k => (add_accepted_subops k r, n)
  | EComplete ev => let '(r', last) := on_subop_complete ev r in (r', if last then n + 1 else n)
  | ESeal => let '(r', idle) := seal_if_idle r in (r', if idle then n + 1 else n)
  end.

Definition count_run (es : list CountEvent) (x : RequestImpl * Z) : RequestImpl * Z :=
  foldl count_step x es.

Fixpoint accepts (es : list CountEvent) : Z :=
  match es with
  | [] => 0
  | EAccept k :: t => k + accepts t
  | _ :: t => accepts t
  end.

Fixpoint completes (es : list CountEvent) : Z :=
  match es with
  | [] => 0
  | EComplete _ :: t => 1 + completes t
  | _ :: t => completes t
  end.

Definition accept_ok (e : CountEvent) : Prop :=
  match e with EAccept k => 0 <= k | EComplete _ => True | ESeal => False end.

Definition is_complete (e : CountEvent) : Prop :=
  match e with EComplete _ => True | _ => False end.

Lemma on_subop_complete_counts ev r :
  terminal_locked r = false →
  let r' := fst (on_subop_complete ev r) in
  state_ r' = state_ r ∧ completed_subops_ r' = wrap32 (completed_subops_ r + 1)
  ∧ accepted_subops_ r' = accepted_subops_ r ∧ sealed_ r' = sealed_ r
  ∧ total_subops_ r' = total_subops_ r
  ∧ snd (on_subop_complete ev r) =
    ((if sealed_ r then accepted_subops_ r else total_subops_ r)
     <=? wrap32 (completed_subops_ r + 1)).
Proof.
  intros T. unfold on_subop_complete. rewrite T. cbn.
  destruct (record_error_frame (event_error ev) r)
    as (S & _ & _ & C & A & L & P & N & _).
  destruct (negb _); cbn; rewrite ?S, ?C, ?A, ?L, ?N; done.
Qed.

Lemma accepts_nonneg es : Forall accept_ok es → 0 <= accepts es.
Proof. induction 1 as [|[] ? ? ? IH]; cbn in *; try done; lia. Qed.

Lemma completes_nonneg es : 0 <= completes es.
Proof. induction es as [|[] ? ?]; cbn; lia. Qed.

(** Before sealing, no call ends a request that was only partly accepted. *)

Lemma count_run_unsealed es r n :
  terminal_locked r = false → sealed_ r = false → Forall accept_ok es →
  u32 (total_subops_ r) → 0 <= completed_subops_ r → 0 <= accepted_subops_ r →
  completed_subops_ r + completes es < total_subops_ r →
  accepted_subops_ r + accepts es < total_subops_ r →
  let '(r', n') := count_run es (r, n) in
  n' = n ∧ terminal_locked r' = false ∧ sealed_ r' = false ∧ total_subops_ r' = total_subops_ r
  ∧ completed_subops_ r' = completed_subops_ r + completes es
  ∧ accepted_subops_ r' = accepted_subops_ r + accepts es.
Proof.
  intros T S H. revert r n T S.
  induction H as [|e es He Hes IH]; intros r n T S U C0 A0 Hc Ha.
  - cbn in *. split_and!; auto; lia.
  - unfold count_run. cbn [foldl]. fold (count_run es (count_step (r, n) e)).
    pose proof (completes_nonneg es). pose proof (accepts_nonneg es Hes).
    destruct e as [k|ev|]; [| |done]; cbn [accepts completes accept_ok] in *.
    + cbn [count_step].
      assert (W : wrap32 (accepted_subops_ r + k) = accepted_subops_ r + k)
        by (apply wrapw_id; unfold uw in *; lia).
      specialize (IH (add_accepted_subops k r) n).
      unfold add_accepted_subops in *. cbn in IH. rewrite W in *.
      destruct (count_run es _) as [r' n']. destruct IH as (-> & ? & ? & ? & ? & ?); auto; try lia.
      split_and!; auto; lia.
    + cbn [count_step]. destruct (on_subop_complete_counts ev r T) as (St & C & A & L & N & X).
      assert (W : wrap32 (completed_subops_ r + 1) = completed_subops_ r + 1)
        by (apply wrapw_id; unfold uw in *; lia).
      rewrite W in *. destruct (on_subop_complete ev r) as [r1 last]. cbn [fst snd] in *.
      rewrite S in X. rewrite X, (proj2 (Z.leb_gt _ _)) by lia.
      specialize (IH r1 n). unfold terminal_locked in *. rewrite St, L, N, C, A in IH.
      destruct (count_run es _) as [r' n']. destruct IH as (-> & ? & ? & ? & ? & ?); auto; try lia.
      split_and!; auto; lia.
Qed.

(** After sealing, exactly the completion that retires the last accepted
    sub-operation ends it. *)

Lemma count_run_sealed es r n :
  terminal_locked r = false → sealed_ r = true → Forall is_complete es →
  u32 (accepted_subops_ r) → 0 <= completed_subops_ r →
  completed_subops_ r + completes es = accepted_subops_ r →
  snd (count_run es (r, n)) = if completes es =? 0 then n else n + 1.
Proof.
  intros T S H. revert r n T S. induction H as [|e es He Hes IH]; intros r n T S U C0 Hc.
  - done.
  - destruct e as [|ev|]; try done. unfold count_run. cbn [foldl].
    fold (count_run es (count_step (r, n) (EComplete ev))). cbn [count_step completes] in *.
    pose proof (completes_nonneg es).
    destruct (on_subop_complete_counts ev r T) as (St & C & A & L & N & X).
    assert (W : wrap32 (completed_subops_ r + 1) = completed_subops_ r + 1)
      by (apply wrapw_id; unfold uw in *; lia).
    rewrite W in *. destruct (on_subop_complete ev r) as [r1 last]. cbn [fst snd] in *.
    rewrite S in X. rewrite IH; unfold terminal_locked in *; rewrite ?St, ?L, ?A, ?C; auto; try lia.
    rewrite X. destruct (1 + completes es =? 0) eqn:E1, (completes es =? 0) eqn:E2,
      (accepted_subops_ r <=? completed_subops_ r + 1) eqn:E3; b2p; lia.
Qed.

(** ** Properties *)

(** C14: Terminal is final. Once a request has succeeded, failed or been
    cancelled, no sequence of later calls, from any thread, changes its state
    or its error; and a wait gives that one outcome whether it began before or
    after the request ended. *)
Theorem request_terminal_final r r' r'' :
  rtc req_step r r' → terminal_locked r' = true → rtc req_step r' r'' →
  state_ r'' = state_ r' ∧ error_ r'' = error_ r'
  ∧ wait r' r = outcome_locked r' ∧ wait r'' r = outcome_locked r'
  ∧ wait r'' r' = outcome_locked r'.
Proof.
  intros H1 T H2. destruct (terminal_steps _ _ H2 T) as [S2 E2].
  assert (T2 : terminal_locked r'' = true) by (unfold terminal_locked in *; congruence).
  assert (O2 : outcome_locked r'' = outcome_locked r')
    by (unfold outcome_locked; by rewrite S2, E2).
  split_and!; auto; unfold wait; rewrite ?T, ?T2; auto;
    destruct (terminal_locked r) eqn:T0; auto;
    destruct (terminal_steps _ _ H1 T0) as [S1 E1];
    unfold outcome_locked; by rewrite S1, E1.
Qed.

Lemma request_terminal_final_witness :
  let r := new_request 1 SubOpKind.kWrite 1 0 in
  let e := mkErrorInfo Status.kTransportError EmptyString 0 5 true EmptyString in
  wait (finish_success (fail e r)) r = Status.kTransportError.
Proof.
  intros r e.
  refine (proj1 (proj2 (proj2 (proj2
    (request_terminal_final r (fail e r) (finish_success (fail e r)) _ _ _))))).
  - apply rtc_once. constructor.
  - reflexivity.
  - apply rtc_once. constructor.
Defined.

(** Published stages are never withdrawn and the first error sticks: along
    any sequence of calls a reached stage stays reached, and once an error has
    been recorded it is never replaced. *)
Theorem request_stages_and_error_monotone r r' :
  rtc req_step r r' →
  (∀ s, reached s r = true → reached s r' = true)
  ∧ (err_ok (error_ r) = false → error_ r' = error_ r).
Proof.
  induction 1 as [|x y z Hxy _ [IH1 IH2]]; [done|]. split.
  - intros s Hs. eauto using reached_step.
  - intros Hx. pose proof (error_step _ _ Hxy Hx) as E. rewrite IH2; congruence.
Qed.

Lemma request_stages_and_error_monotone_witness :
  reached Stage.kAccepted (fst (cancel (new_request 1 SubOpKind.kRead 3 0))) = true.
Proof.
  refine (proj1 (request_stages_and_error_monotone (new_request 1 SubOpKind.kRead 3 0) _ _)
    Stage.kAccepted _).
  - apply rtc_once. constructor.
  - reflexivity.
Defined.

(** What a stage proves. In every state a request can reach, FailedSafe is
    published exactly when it failed, CancelledSafe exactly when it was
    cancelled, SourceReusable exactly when it succeeded, so at most one of the
    three ever is; a success has also reached TransferComplete and
    TargetReady; and a cancellation that has not ended is draining. *)
Theorem request_stages_match_state id k n c r :
  rtc req_step (new_request id k n c) r → stages_match r.
Proof. intros H. eapply stages_match_steps; [exact H|]. apply stages_match_new. Qed.

Lemma request_stages_match_state_witness :
  stages_match (finish_cancelled (fst (cancel (new_request 4 SubOpKind.kWrite 2 0)))).
Proof.
  apply (request_stages_match_state 4 SubOpKind.kWrite 2 0).
  eapply rtc_l; [apply step_cancel|]. apply rtc_once. apply step_finish_cancelled.
Defined.

(** C15: A request abandoned halfway is ended by exactly one caller. However
    the submitter's accounting interleaves with the completions (including a
    completion that arrives before its sub-operation was counted as accepted),
    if some of the request was never accepted and every accepted sub-operation
    completes, exactly one of [seal_if_idle] and the [on_subop_complete] calls
    reports that the request is to be ended. *)
Theorem request_ended_exactly_once r pre post :
  terminal_locked r = false → sealed_ r = false →
  completed_subops_ r = 0 → accepted_subops_ r = 0 → u32 (total_subops_ r) →
  Forall accept_ok pre → Forall is_complete post →
  accepts pre < total_subops_ r →
  completes pre + completes post = accepts pre →
  snd (count_run (pre ++ ESeal :: post) (r, 0)) = 1.
Proof.
  intros T S C0 A0 U Hpre Hpost Hlt Hc.
  pose proof (completes_nonneg pre). pose proof (completes_nonneg post).
  unfold count_run. rewrite foldl_app. fold (count_run pre (r, 0)).
  pose proof (count_run_unsealed pre r 0 T S Hpre U) as P.
  destruct (count_run pre (r, 0)) as [r1 n1].
  destruct P as (-> & T1 & S1 & N1 & C1 & A1); try lia.
  cbn [foldl count_step]. unfold seal_if_idle. rewrite T1. cbn [negb andb].
  match goal with |- snd (foldl count_step ?x post) = 1 =>
    change (snd (count_run post x) = 1) end.
  rewrite count_run_sealed; try done; cbn; unfold uw in *; try lia.
  destruct (accepted_subops_ r1 <=? completed_subops_ r1) eqn:E1,
    (completes post =? 0) eqn:E2; b2p; lia.
Qed.

Definition ok_event (req sub : Z) : CompletionEvent :=
  mkCompletionEvent req sub 4096 Status.kOk 0 false.

Lemma request_ended_exactly_once_witness :
  snd (count_run ([EComplete (ok_event 1 0); EAccept 2] ++ ESeal :: [EComplete (ok_event 1 1)])
    (new_request 1 SubOpKind.kWrite 5 0, 0)) = 1.
Proof.
  apply request_ended_exactly_once; try reflexivity; try (unfold uw; cbn; lia);
    repeat constructor; cbn; lia.
Defined.

(** ** The ranges a vector write hands off *)

Definition in_span (s : Span) (b : Z) : Prop := sp_offset s <= b < sp_offset s + sp_length s.

Definition covers (ts : list RemoteTarget) (reg gen b : Z) : Prop :=
  ∃ t, t ∈ ts ∧ rt_region t = reg ∧ rt_generation t = gen ∧ in_span (rt_span t) b.

(** A span inside a region, whose length is a [uint64_t]. *)

Definition span_fits (s : Span) : Prop :=
  0 <= sp_offset s ∧ 0 <= sp_length s ∧ sp_offset s + sp_length s < 2 ^ 64.

Lemma covers_cons t ts reg gen b :
  covers (t :: ts) reg gen b ↔
  (rt_region t = reg ∧ rt_generation t = gen ∧ in_span (rt_span t) b) ∨ covers ts reg gen b.
Proof.
  unfold covers. split.
  - intros (x & Hx & H). apply elem_of_cons in Hx as [->|Hx]; eauto.
  - intros [H|(x & Hx & H)]; [exists t|exists x]; rewrite elem_of_cons; auto.
Qed.

Lemma covers_nil reg gen b : ¬ covers [] reg gen b.
Proof. intros (t & Ht & _). by apply not_elem_of_nil in Ht. Qed.

Lemma add_target_spec ts region gen span reg' gen' b :
  Forall (fun t => span_fits (rt_span t)) ts → span_fits span →
  (covers (add_target ts region gen span) reg' gen' b ↔
   covers ts reg' gen' b ∨ (region = reg' ∧ gen = gen' ∧ in_span span b))
  ∧ Forall (fun t => span_fits (rt_span t)) (add_target ts region gen span).
Proof.
  intros H Hs. induction H as [|t ts Ht Hts IH].
  - cbn [add_target]. rewrite covers_cons. pose proof (covers_nil reg' gen' b).
    split; [cbn; tauto|]. by constructor; [|constructor].
  - destruct ts as [|t2 ts].
    + clear IH. cbn [add_target].
      destruct (_ && _) eqn:E; b2p.
      2:{ rewrite !covers_cons. pose proof (covers_nil reg' gen' b).
          split; [cbn; tauto|]. by constructor; [|constructor; [|constructor]]. }
      destruct t as [tr tg [to tl]], span as [so sl]. unfold span_fits, in_span in *. cbn in *.
      subst. rewrite (wrapw_id 64 (to + tl)) in * by (unfold uw; lia). subst.
      rewrite (wrapw_id 64 (tl + sl)) by (unfold uw; lia).
      rewrite !covers_cons. pose proof (covers_nil reg' gen' b). unfold in_span; cbn.
      split; [|constructor; [cbn; lia|constructor]].
      split; [intros [(? & ? & ?)|]; [|tauto]|intros [[(? & ? & ?)|]|(? & ? & ?)]; [|tauto|]].
      * destruct (Z_lt_ge_dec b (to + tl)); [left; left|right]; split_and!; auto; lia.
      * left. split_and!; auto; lia.
      * left. split_and!; auto; lia.
    + change (add_target (t :: t2 :: ts) region gen span)
        with (t :: add_target (t2 :: ts) region gen span).
      destruct IH as [IH1 IH2]. rewrite covers_cons, IH1, (covers_cons t). split; [tauto|].
      by constructor.
Qed.

(** [submit_vector]'s loop over the remote segments of a write. *)

Definition targets_of (segs : list (Z * Z * Span)) : list RemoteTarget :=
  foldl (fun ts '(reg, gen, sp) => if sp_length sp =? 0 then ts else add_target ts reg gen sp)
    [] segs.

(** The ready handoffs of a vector write name exactly the bytes written: a
    byte of a region is covered by the merged ranges if and only if it lies in
    one of the segments, whatever their order, adjacency or regions. *)
Theorem handoff_ranges_exact segs reg gen b :
  Forall (fun '(_, _, sp) => span_fits sp) segs →
  covers (targets_of segs) reg gen b ↔
  ∃ sp, (reg, gen, sp) ∈ segs ∧ in_span sp b.
Proof.
  intros H. unfold targets_of.
  assert (G : ∀ ts, Forall (fun t => span_fits (rt_span t)) ts →
    covers (foldl (fun ts '(reg, gen, sp) =>
      if sp_length sp =? 0 then ts else add_target ts reg gen sp) ts segs) reg gen b ↔
    covers ts reg gen b ∨ ∃ sp, (reg, gen, sp) ∈ segs ∧ in_span sp b).
  { induction H as [|[[r g] sp] segs Hsp Hsegs IH]; intros ts Hts; cbn [foldl].
    - split; [auto|]. intros [?|(sp & Hx & _)]; [done|]. by apply not_elem_of_nil in Hx.
    - destruct (sp_length sp =? 0) eqn:E; b2p.
      + rewrite IH by done. split.
        * intros [?|(sp' & Hx & ?)]; [auto|]. right. exists sp'. by rewrite elem_of_cons; auto.
        * intros [?|(sp' & Hx & Hi)]; [auto|]. apply elem_of_cons in Hx as [[= -> -> ->]|Hx].
          -- unfold in_span in Hi. lia.
          -- right. eauto.
      + destruct (add_target_spec ts r g sp reg gen b Hts Hsp) as [C F].
        rewrite IH by done. rewrite C. split.
        * intros [[?|(-> & -> & ?)]|(sp' & Hx & ?)]; [auto|right; exists sp|right; exists sp'];
            rewrite elem_of_cons; auto.
        * intros [?|(sp' & Hx & Hi)]; [auto|].
          apply elem_of_cons in Hx as [[= -> -> ->]|Hx]; [auto|right; eauto]. }
  rewrite G by constructor. pose proof (covers_nil reg gen b). tauto.
Qed.

Lemma handoff_ranges_exact_witness :
  covers (targets_of [(1, 1, mkSpan 0 8); (1, 1, mkSpan 8 8); (2, 1, mkSpan 0 4)]) 1 1 12.
Proof.
  apply (handoff_ranges_exact [(1, 1, mkSpan 0 8); (1, 1, mkSpan 8 8); (2, 1, mkSpan 0 4)]).
  - repeat constructor; cbn; lia.
  - exists (mkSpan 8 8). split; [|unfold in_span; cbn; lia].
    rewrite !elem_of_cons. auto.
Defined.
