(* ===== verification/SubOps.v ===== *)
(** * Splitting a transfer into sub-operations ([EngineImpl::build_subops]).

    Paired segments are cut into chunks no longer than any lane can carry, and
    each chunk goes to the lane it costs least in proportion to that lane's
    weight.  The lane choice is in [double] arithmetic, as in the source. *)

From stdpp Require Import base list gmap strings numbers.
From S2P Require Import Prelude Float64 Types Wire Region Provider.

(** What [build_subops] reads of a lane: its transport's name and limit, and
    its weight. *)

Record LaneInfo : Type := mkLaneInfo {
  li_name : string;
  li_weight : f64;
  li_max_segment : Z
}.

(** No chunk longer than any lane can carry in one operation. *)

Definition chunk_limit (chunk_bytes : Z) (lanes : list LaneInfo) : Z :=
  foldl (fun chunk l =>
    let most := li_max_segment l in
    if (0 <? most) && (most <? chunk) then most else chunk) chunk_bytes lanes.

Definition lane_cost (assigned n : f64) (l : LaneInfo) : f64 :=
  let w := if f64_ltb f64_zero (li_weight l) then li_weight l else f64_1e_9 in
  f64_div (f64_add assigned n) w.

(** The loop over the lanes: [have] and [best] start empty. *)

Fixpoint pick_lane_loop (n : f64) (k : nat) (lanes : list LaneInfo) (assigned : list f64)
    (lane : nat) (best : option f64) : nat :=
  match lanes, assigned with
  | l :: lanes, a :: assigned =>
      let cost := lane_cost a n l in
      let better := match best with None => true | Some b => f64_ltb cost b end in
      if better then pick_lane_loop n (S k) lanes assigned k (Some cost)
      else pick_lane_loop n (S k) lanes assigned lane best
  | _, _ => lane
  end.

Definition pick_lane (n : Z) (lanes : list LaneInfo) (assigned : list f64) : nat :=
  pick_lane_loop (f64_of_Z n) 0 lanes assigned 0 None.

(** What the loops carry. *)

Record Build : Type := mkBuild {
  b_out : list (list SubOp);
  b_assigned : list f64;
  b_sub_id : Z;
  b_total : Z;
  b_held : list Z
}.

Definition push_op (lane : nat) (op : SubOp) (b : Build) : Build :=
  mkBuild (alter (fun ops => ops ++ [op]) lane (b_out b))
    (alter (fun a => f64_add a (f64_of_Z (op_length op))) lane (b_assigned b))
    (b_sub_id b + 1) (b_total b) (b_held b).

Section Build.
Context (kind : SubOpKind.t) (req : Z) (lanes : list LaneInfo) (chunk : Z).

(** One chunk of a segment, [off] bytes into it. *)

Definition make_op (lr : MemoryRegionImpl) (rr : RemoteRegionImpl) (loff roff off n : Z)
    (lane : string) (sub_id : Z) : option SubOp :=
  match local_key_for (mr_reg lr) lane with
  | None => None
  | Some lkey =>
      match remote_key_for rr lane with
      | None => None
      | Some rkey =>
          Some (mkSubOp false 0 kind req sub_id (mr_base lr + loff + off) lkey
            (wrap64 (d_base (rr_d rr) + roff + off)) rkey n)
      end
  end.

(** [while (off < length)]; [None] when the fuel runs out. *)

Fixpoint chunk_loop (fuel : nat) (lr : MemoryRegionImpl) (rr : RemoteRegionImpl)
    (loff roff len off : Z) (b : Build) : option (Status.t + Build) :=
  if len <=? off then Some (inr b)
  else
    match fuel with
    | O => None
    | S fuel =>
        let n := if chunk <? len - off then chunk else len - off in
        let lane := pick_lane n lanes (b_assigned b) in
        let name := match lanes !! lane with Some l => li_name l | None => EmptyString end in
        match make_op lr rr loff roff off n name (b_sub_id b) with
        | None => Some (inl Status.kUnsupported)
        | Some op => chunk_loop fuel lr rr loff roff len (off + n) (push_op lane op b)
        end
    end.

Definition chunk_fuel (len : Z) : nat := Z.to_nat (len / chunk + 1).

Context (find_region : Z → option MemoryRegionImpl) (find_remote : Z → option RemoteRegionImpl).

(** The checks on one pair of segments, in the order the source makes them. *)

Definition check_segment (l r : RegionView) : Status.t + (MemoryRegionImpl * RemoteRegionImpl) :=
  match find_region (v_region l) with
  | None => inl Status.kNotFound
  | Some lr =>
      if mr_retired lr then inl Status.kStaleGeneration
      else
        match find_remote (v_region r) with
        | None => inl Status.kNotFound
        | Some rr =>
            if negb (rr_valid rr) then inl Status.kStaleGeneration
            else
              let needed :=
                if bool_decide (kind = SubOpKind.kWrite) then kRemoteWrite else kRemoteRead in
              if negb (has_flag (d_access (rr_d rr)) needed) then inl Status.kInvalidArgument
              else if negb (sp_length (v_span l) =? sp_length (v_span r))
              then inl Status.kInvalidArgument
              else if negb (within (v_span l) (mr_length lr)) then inl Status.kOutOfRange
              else if negb (within (v_span r) (d_length (rr_d rr))) then inl Status.kOutOfRange
              else inr (lr, rr)
        end
  end.

Definition hold (lr : MemoryRegionImpl) (len : Z) (b : Build) : Build :=
  mkBuild (b_out b) (b_assigned b) (b_sub_id b) (wrap64 (b_total b + len))
    (b_held b ++ [mr_id lr]).

Fixpoint segment_loop (segs : list (RegionView * RegionView)) (b : Build)
    : option (Status.t + Build) :=
  match segs with
  | [] => Some (inr b)
  | (l, r) :: segs =>
      match check_segment l r with
      | inl s => Some (inl s)
      | inr (lr, rr) =>
          let len := sp_length (v_span l) in
          match chunk_loop (chunk_fuel len) lr rr (sp_offset (v_span l))
                  (sp_offset (v_span r)) len 0 (hold lr len b) with
          | None => None
          | Some (inl s) => Some (inl s)
          | Some (inr b) => segment_loop segs b
          end
      end
  end.

End Build.

(** The sub-operations of each lane, the regions held, where the first segment
    lands and how many bytes move. *)

Record Built : Type := mkBuilt {
  bt_per_lane : list (list SubOp);
  bt_held : list Z;
  bt_target_addr : Z;
  bt_target_bytes : Z
}.

Definition build_subops (chunk_bytes : Z) (find_region : Z → option MemoryRegionImpl)
    (find_remote : Z → option RemoteRegionImpl) (segs : list (RegionView * RegionView))
    (kind : SubOpKind.t) (req : Z) (lanes : list LaneInfo) : option (Status.t + Built) :=
  match lanes with
  | [] => Some (inl Status.kNotFound)
  | _ =>
      let chunk := chunk_limit chunk_bytes lanes in
      let b := mkBuild (replicate (length lanes) []) (replicate (length lanes) f64_zero) 0 0 [] in
      match segment_loop kind req lanes chunk find_region find_remote segs b with
      | None => None
      | Some (inl s) => Some (inl s)
      | Some (inr b) =>
          let addr :=
            match segs with
            | (l, _) :: _ =>
                match find_region (v_region l) with
                | Some lr => mr_base lr + sp_offset (v_span l)
                | None => 0
                end
            | [] => 0
            end in
          Some (inr (mkBuilt (b_out b) (b_held b) addr (b_total b)))
      end
  end.

(** ** What the sub-operations of a transfer are *)

(** [tr] cuts the rest of a segment, from [off] to [len], into consecutive
    pieces, in order, numbered from [id]; each entry is the lane a piece went
    to and the sub-operation for it. *)

Fixpoint cuts (kind : SubOpKind.t) (req : Z) (lanes : list LaneInfo) (chunk : Z)
    (lr : MemoryRegionImpl) (rr : RemoteRegionImpl) (loff roff len off id : Z)
    (tr : list (nat * SubOp)) : Prop :=
  match tr with
  | [] => off = len
  | (k, op) :: tr =>
      ∃ n l, 0 < n <= chunk ∧ off + n <= len ∧ lanes !! k = Some l
        ∧ make_op kind req lr rr loff roff off n (li_name l) id = Some op
        ∧ cuts kind req lanes chunk lr rr loff roff len (off + n) (id + 1) tr
  end.

(** The same for a list of segments. *)

Fixpoint cuts_all (kind : SubOpKind.t) (req : Z) (lanes : list LaneInfo) (chunk : Z)
    (find_region : Z → option MemoryRegionImpl) (find_remote : Z → option RemoteRegionImpl)
    (segs : list (RegionView * RegionView)) (id : Z) (trs : list (list (nat * SubOp))) : Prop :=
  match segs, trs with
  | [], [] => True
  | (l, r) :: segs, tr :: trs =>
      (∃ lr rr, check_segment kind find_region find_remote l r = inr (lr, rr)
        ∧ cuts kind req lanes chunk lr rr (sp_offset (v_span l)) (sp_offset (v_span r))
            (sp_length (v_span l)) 0 id tr)
      ∧ cuts_all kind req lanes chunk find_region find_remote segs
          (id + Z.of_nat (length tr)) trs
  | _, _ => False
  end.

(** What lane [k] was given, in the order it was given. *)

Definition of_lane (k : nat) (tr : list (nat * SubOp)) : list SubOp :=
  snd <$> filter (fun x => fst x = k) tr.

(** ** Lemmas *)

Lemma pick_lane_loop_range n k lanes assigned lane best :
  pick_lane_loop n k lanes assigned lane best = lane ∨
  (k <= pick_lane_loop n k lanes assigned lane best < k + length lanes)%nat.
Proof.
  revert k assigned lane best.
  induction lanes as [|l lanes IH]; intros k [|a assigned] lane best; cbn; try by left.
  destruct (match best with None => _ | Some _ => _ end);
    match goal with |- context [pick_lane_loop n (S k) lanes assigned ?x ?y] =>
      destruct (IH (S k) assigned x y) end; lia.
Qed.

Lemma pick_lane_lookup n lanes assigned :
  lanes ≠ [] → ∃ l, lanes !! pick_lane n lanes assigned = Some l.
Proof.
  intros Hne. apply lookup_lt_is_Some. unfold pick_lane.
  destruct (pick_lane_loop_range (f64_of_Z n) 0 lanes assigned 0 None) as [->|]; [|lia].
  destruct lanes; [done|cbn; lia].
Qed.

Lemma of_lane_cons k j op tr :
  of_lane k ((j, op) :: tr) = (if decide (j = k) then [op] else []) ++ of_lane k tr.
Proof. unfold of_lane. rewrite filter_cons. cbn. by case_decide. Qed.

Lemma of_lane_app k tr tr' : of_lane k (tr ++ tr') = of_lane k tr ++ of_lane k tr'.
Proof. unfold of_lane. by rewrite list.filter_app, fmap_app. Qed.

Lemma chunk_limit_spec chunk_bytes lanes :
  chunk_limit chunk_bytes lanes <= chunk_bytes
  ∧ (1 <= chunk_bytes → 1 <= chunk_limit chunk_bytes lanes)
  ∧ Forall (fun l => 0 < li_max_segment l → chunk_limit chunk_bytes lanes <= li_max_segment l)
      lanes.
Proof.
  unfold chunk_limit. revert chunk_bytes.
  induction lanes as [|l lanes IH]; intros c; cbn [foldl]; [split; [lia|split; [lia|done]]|].
  set (c' := if (_ && _) then _ else _). destruct (IH c') as (H1 & H2 & H3).
  assert (c' <= c ∧ (1 <= c → 1 <= c') ∧ (0 < li_max_segment l → c' <= li_max_segment l)).
  { unfold c'. destruct (0 <? li_max_segment l) eqn:E1, (li_max_segment l <? c) eqn:E2;
      cbn; b2p; lia. }
  split; [lia|]. split; [lia|]. constructor; [lia|done].
Qed.

Section BuildLemmas.
Context (kind : SubOpKind.t) (req : Z) (lanes : list LaneInfo) (chunk : Z).
Hypothesis Hchunk : 1 <= chunk.
Hypothesis Hlanes : lanes ≠ [].

(** The state after the sub-operations [tr] were pushed. *)

Definition pushed (b b' : Build) (tr : list (nat * SubOp)) : Prop :=
  (∀ k, b_out b' !! k = (fun ops => ops ++ of_lane k tr) <$> b_out b !! k)
  ∧ b_sub_id b' = b_sub_id b + Z.of_nat (length tr)
  ∧ b_total b' = b_total b ∧ b_held b' = b_held b.

Lemma pushed_nil b : pushed b b [].
Proof.
  split_and!; try done; [|cbn; lia]. intros k. destruct (b_out b !! k); cbn; [|done].
  by rewrite app_nil_r.
Qed.

Lemma pushed_cons b b' k op tr :
  pushed (push_op k op b) b' tr → pushed b b' ((k, op) :: tr).
Proof.
  intros (H1 & H2 & H3 & H4). split_and!; try done; [|cbn [length push_op b_sub_id] in *; lia].
  intros j. rewrite H1, of_lane_cons. cbn [b_out push_op].
  destruct (decide (k = j)) as [->|Hne].
  - rewrite list_lookup_alter_eq. destruct (b_out b !! j); cbn; [|done].
    by rewrite <- app_assoc.
  - by rewrite list_lookup_alter_ne.
Qed.

Lemma chunk_loop_spec fuel lr rr loff roff len off b :
  off <= len →
  match chunk_loop kind req lanes chunk fuel lr rr loff roff len off b with
  | Some (inr b') => ∃ tr, pushed b b' tr
      ∧ cuts kind req lanes chunk lr rr loff roff len off (b_sub_id b) tr
  | _ => True
  end.
Proof.
  revert off b. induction fuel as [|fuel IH]; intros off b Hoff; cbn [chunk_loop];
    destruct (len <=? off) eqn:E; b2p.
  1, 3: exists []; split; [apply pushed_nil|cbn; lia].
  { done. }
  set (n := if chunk <? len - off then chunk else len - off).
  assert (Hn : 0 < n <= chunk ∧ off + n <= len)
    by (unfold n; destruct (chunk <? len - off) eqn:En; b2p; lia).
  set (k := pick_lane n lanes (b_assigned b)).
  destruct (pick_lane_lookup n lanes (b_assigned b) Hlanes) as [l Hl]. fold k in Hl. rewrite Hl.
  destruct (make_op kind req lr rr loff roff off n (li_name l) (b_sub_id b)) as [op|] eqn:Hop;
    [|done].
  specialize (IH (off + n) (push_op k op b) ltac:(lia)).
  destruct (chunk_loop _ _ _ _ fuel _ _ _ _ _ _ _) as [[|b']|]; [done| |done].
  destruct IH as (tr & Hp & Hc). exists ((k, op) :: tr). split; [by apply pushed_cons|].
  cbn [cuts]. exists n, l. split_and!; try done; lia.
Qed.

Lemma chunk_loop_total fuel lr rr loff roff len off b :
  len - off <= Z.of_nat fuel * chunk →
  is_Some (chunk_loop kind req lanes chunk fuel lr rr loff roff len off b).
Proof.
  revert off b. induction fuel as [|fuel IH]; intros off b H; cbn [chunk_loop];
    destruct (len <=? off) eqn:E; b2p; eauto; [lia|].
  set (n := if chunk <? len - off then chunk else len - off).
  destruct (make_op _ _ _ _ _ _ _ _ _ _); [|eauto]. apply IH.
  unfold n. destruct (chunk <? len - off) eqn:En; b2p; nia.
Qed.

Lemma chunk_fuel_enough len : len <= Z.of_nat (chunk_fuel chunk len) * chunk.
Proof.
  unfold chunk_fuel. destruct (Z_lt_ge_dec len 0).
  { pose proof (Z.mul_nonneg_nonneg (Z.of_nat (Z.to_nat (len / chunk + 1))) chunk). lia. }
  pose proof (Z.div_pos len chunk). pose proof (Z.mod_pos_bound len chunk).
  pose proof (Z.div_mod len chunk). rewrite Z2Nat.id by lia. nia.
Qed.

Context (find_region : Z → option MemoryRegionImpl) (find_remote : Z → option RemoteRegionImpl).

Lemma segment_loop_total segs b :
  is_Some (segment_loop kind req lanes chunk find_region find_remote segs b).
Proof.
  revert b. induction segs as [|[l r] segs IH]; intros b; cbn [segment_loop]; [eauto|].
  destruct (check_segment _ _ _ l r) as [|[lr rr]]; [eauto|].
  destruct (chunk_loop_total (chunk_fuel chunk (sp_length (v_span l))) lr rr
    (sp_offset (v_span l)) (sp_offset (v_span r)) (sp_length (v_span l)) 0
    (hold lr (sp_length (v_span l)) b)) as [[|b'] ->]; [|eauto..].
  pose proof (chunk_fuel_enough (sp_length (v_span l))). lia.
Qed.

(** What the segments hold and how many bytes they name. *)

Definition total_length (segs : list (RegionView * RegionView)) : Z :=
  foldr (fun '(l, _) n => sp_length (v_span l) + n) 0 segs.

Definition held_ids (segs : list (RegionView * RegionView)) : list Z :=
  (fun '(l, _) => match find_region (v_region l) with Some lr => mr_id lr | None => 0 end) <$> segs.

Lemma check_segment_local l r lr rr :
  check_segment kind find_region find_remote l r = inr (lr, rr) →
  find_region (v_region l) = Some lr.
Proof.
  unfold check_segment. destruct (find_region (v_region l)) as [x|]; [|done].
  destruct (mr_retired x); [done|]. destruct (find_remote (v_region r)) as [y|]; [|done].
  repeat (destruct (negb _); [done|]). by intros [= -> ->].
Qed.

Lemma segment_loop_spec segs b :
  Forall (fun '(l, _) => 0 <= sp_length (v_span l)) segs → u64 (b_total b) →
  match segment_loop kind req lanes chunk find_region find_remote segs b with
  | Some (inr b') => ∃ trs,
      cuts_all kind req lanes chunk find_region find_remote segs (b_sub_id b) trs
      ∧ (∀ k, b_out b' !! k = (fun ops => ops ++ of_lane k (concat trs)) <$> b_out b !! k)
      ∧ b_total b' = wrap64 (b_total b + total_length segs)
      ∧ b_held b' = b_held b ++ held_ids segs
  | _ => True
  end.
Proof.
  intros H. revert b.
  induction H as [|[l r] segs Hl Hsegs IH]; intros b Hu; cbn [segment_loop].
  - exists []. cbn. rewrite !app_nil_r, Z.add_0_r, wrapw_id by done. split_and!; try done.
    intros k. destruct (b_out b !! k); cbn; [|done]. by rewrite app_nil_r.
  - destruct (check_segment kind find_region find_remote l r) as [|[lr rr]] eqn:Hc; [done|].
    pose proof (chunk_loop_spec (chunk_fuel chunk (sp_length (v_span l))) lr rr
      (sp_offset (v_span l)) (sp_offset (v_span r)) (sp_length (v_span l)) 0
      (hold lr (sp_length (v_span l)) b) Hl) as Hs.
    destruct (chunk_loop _ _ _ _ _ _ _ _ _ _ _ _) as [[|b1]|]; [done| |done].
    destruct Hs as (tr & (P1 & P2 & P3 & P4) & Hcuts). specialize (IH b1).
    destruct (segment_loop _ _ _ _ _ _ segs b1) as [[|b2]|] eqn:E2; [done| |done].
    destruct IH as (trs & C & O & T & Hd).
    { rewrite P3. unfold wrapw, uw. cbn. by apply Z.mod_pos_bound. }
    exists (tr :: trs).
    cbn [hold b_sub_id b_out b_total b_held] in *. split_and!.
    + cbn [cuts_all]. rewrite P2 in C. split; [eauto|exact C].
    + intros k. rewrite O, P1. change (concat (tr :: trs)) with (tr ++ concat trs).
      rewrite of_lane_app. destruct (b_out b !! k); cbn; [|done]. by rewrite app_assoc.
    + rewrite T, P3. cbn [total_length foldr]. unfold wrapw.
      rewrite Z.add_mod_idemp_l by lia. f_equal. unfold total_length. lia.
    + rewrite Hd, P4. cbn [held_ids fmap list_fmap].
      rewrite (check_segment_local _ _ _ _ Hc), <- app_assoc. done.
Qed.

End BuildLemmas.

(** Every piece of a cut lies inside its segment. *)

Lemma cuts_elem kind req lanes chunk lr rr loff roff len off id tr k op :
  cuts kind req lanes chunk lr rr loff roff len off id tr → (k, op) ∈ tr →
  ∃ o n l id', off <= o ∧ 0 < n <= chunk ∧ o + n <= len ∧ lanes !! k = Some l
    ∧ make_op kind req lr rr loff roff o n (li_name l) id' = Some op.
Proof.
  revert off id. induction tr as [|[j x] tr IH]; intros off id Hc Hin.
  - by apply not_elem_of_nil in Hin.
  - destruct Hc as (n & l & Hn & Hle & Hl & Hop & Hrest).
    apply elem_of_cons in Hin as [[= -> ->]|Hin].
    + exists off, n, l, id. split_and!; try done; lia.
    + destruct (IH _ _ Hrest Hin) as (o & n' & l' & id' & ? & ? & ? & ? & ?).
      exists o, n', l', id'. split_and!; try done; lia.
Qed.

Lemma cuts_all_elem kind req lanes chunk fr fm segs id trs k op :
  cuts_all kind req lanes chunk fr fm segs id trs → (k, op) ∈ concat trs →
  ∃ l r lr rr o n li id', (l, r) ∈ segs ∧ check_segment kind fr fm l r = inr (lr, rr)
    ∧ 0 <= o ∧ 0 < n <= chunk ∧ o + n <= sp_length (v_span l) ∧ lanes !! k = Some li
    ∧ make_op kind req lr rr (sp_offset (v_span l)) (sp_offset (v_span r)) o n (li_name li) id'
      = Some op.
Proof.
  revert id trs. induction segs as [|[l r] segs IH]; intros id [|tr trs] Hc Hin; try done.
  - by apply not_elem_of_nil in Hin.
  - destruct Hc as [(lr & rr & Hs & Hcut) Hrest].
    change (concat (tr :: trs)) with (tr ++ concat trs) in Hin.
    apply elem_of_app in Hin as [Hin|Hin].
    + destruct (cuts_elem _ _ _ _ _ _ _ _ _ _ _ _ _ _ Hcut Hin)
        as (o & n & li & id' & ? & ? & ? & ? & ?).
      exists l, r, lr, rr, o, n, li, id'. split_and!; try done; try lia. apply list_elem_of_here.
    + destruct (IH _ _ Hrest Hin) as (l' & r' & lr' & rr' & o & n & li & id' & Hx & ?).
      exists l', r', lr', rr', o, n, li, id'. split; [by apply list_elem_of_further|done].
Qed.

Lemma of_lane_elem k op tr : op ∈ of_lane k tr → (k, op) ∈ tr.
Proof.
  unfold of_lane. rewrite list_elem_of_fmap. intros ([j x] & -> & H).
  apply list_elem_of_filter in H as [<- H]. done.
Qed.

(** What [build_subops] did, when it succeeds. *)

Lemma build_subops_inv cb fr fm segs kind req lanes bt :
  1 <= cb → Forall (fun '(l, _) => 0 <= sp_length (v_span l)) segs →
  build_subops cb fr fm segs kind req lanes = Some (inr bt) →
  ∃ trs, cuts_all kind req lanes (chunk_limit cb lanes) fr fm segs 0 trs
    ∧ (∀ k, (k < length lanes)%nat → bt_per_lane bt !! k = Some (of_lane k (concat trs)))
    ∧ length (bt_per_lane bt) = length lanes
    ∧ bt_target_bytes bt = wrap64 (total_length segs) ∧ bt_held bt = held_ids fr segs.
Proof.
  intros Hcb Hlen H. unfold build_subops in H. destruct (chunk_limit_spec cb lanes) as (_ & Hc & _).
  set (chunk := chunk_limit cb lanes) in *.
  destruct lanes as [|l0 lanes']; [done|]. set (lanes := l0 :: lanes') in *.
  set (b0 := mkBuild _ _ _ _ _) in H.
  pose proof (segment_loop_spec kind req lanes chunk ltac:(lia) ltac:(done) fr fm segs b0 Hlen
    ltac:(unfold uw; cbn; lia)) as S.
  destruct (segment_loop _ _ _ _ _ _ segs b0) as [[|b]|]; try done.
  destruct S as (trs & C & O & T & Hd). injection H as <-. exists trs.
  assert (L : ∀ k, (k < length lanes)%nat → b_out b !! k = Some (of_lane k (concat trs))).
  { intros k Hk. rewrite O. cbn [b_out b0]. by rewrite (lookup_replicate_2 _ _ _ Hk). }
  split_and!; auto. cbn. apply Nat.le_antisymm.
  - apply Nat.nlt_ge. intros Hlt. apply lookup_lt_is_Some in Hlt as [x Hx].
    rewrite O in Hx. cbn [b_out b0] in Hx.
    apply fmap_Some in Hx as (y & Hy & _). apply lookup_replicate_1 in Hy as [_ Hy]. cbn in *. lia.
  - apply Nat.nlt_ge. intros Hlt.
    specialize (L (length (b_out b)) Hlt). apply lookup_lt_Some in L. lia.
Qed.

(** Every sub-operation of a built transfer, where it came from. *)

Definition op_safe (cb : Z) (fr : Z → option MemoryRegionImpl)
    (fm : Z → option RemoteRegionImpl) (kind : SubOpKind.t) (req : Z)
    (segs : list (RegionView * RegionView)) (li : LaneInfo) (op : SubOp) : Prop :=
  ∃ l r lr rr, (l, r) ∈ segs
    ∧ fr (v_region l) = Some lr ∧ mr_retired lr = false
    ∧ fm (v_region r) = Some rr ∧ rr_valid rr = true
    ∧ has_flag (d_access (rr_d rr))
        (if bool_decide (kind = SubOpKind.kWrite) then kRemoteWrite else kRemoteRead) = true
    ∧ op_kind op = kind ∧ op_request op = req
    ∧ local_key_for (mr_reg lr) (li_name li) = Some (op_local_key op)
    ∧ remote_key_for rr (li_name li) = Some (op_remote_key op)
    ∧ 0 < op_length op <= cb
    ∧ (0 < li_max_segment li → op_length op <= li_max_segment li)
    ∧ mr_base lr <= op_local_addr op
    ∧ op_local_addr op + op_length op <= mr_base lr + mr_length lr
    ∧ ∃ o, op_remote_addr op = wrap64 (d_base (rr_d rr) + o)
        ∧ 0 <= o ∧ o + op_length op <= d_length (rr_d rr).

Definition seg_wf (s : RegionView * RegionView) : Prop :=
  span_wf (v_span (fst s)) ∧ span_wf (v_span (snd s)).

Lemma check_segment_inv kind fr fm l r lr rr :
  check_segment kind fr fm l r = inr (lr, rr) →
  fr (v_region l) = Some lr ∧ mr_retired lr = false
  ∧ fm (v_region r) = Some rr ∧ rr_valid rr = true
  ∧ has_flag (d_access (rr_d rr))
      (if bool_decide (kind = SubOpKind.kWrite) then kRemoteWrite else kRemoteRead) = true
  ∧ sp_length (v_span l) = sp_length (v_span r)
  ∧ within (v_span l) (mr_length lr) = true ∧ within (v_span r) (d_length (rr_d rr)) = true.
Proof.
  unfold check_segment. destruct (fr (v_region l)) as [x|]; [|done].
  destruct (mr_retired x) eqn:E1; [done|]. destruct (fm (v_region r)) as [y|]; [|done].
  destruct (rr_valid y) eqn:E2; [|done]. cbn [negb].
  set (flag := if bool_decide _ then _ else _).
  destruct (has_flag _ flag) eqn:E3; [|done]. cbn [negb].
  destruct (_ =? _) eqn:E4; [|done]. cbn [negb].
  destruct (within (v_span l) _) eqn:E5; [|done]. cbn [negb].
  destruct (within (v_span r) _) eqn:E6; [|done]. cbn [negb].
  intros [= -> ->]. b2p. split_and!; done.
Qed.

Lemma make_op_inv kind req lr rr loff roff off n name id op :
  make_op kind req lr rr loff roff off n name id = Some op →
  op_kind op = kind ∧ op_request op = req ∧ op_length op = n
  ∧ local_key_for (mr_reg lr) name = Some (op_local_key op)
  ∧ remote_key_for rr name = Some (op_remote_key op)
  ∧ op_local_addr op = mr_base lr + loff + off
  ∧ op_remote_addr op = wrap64 (d_base (rr_d rr) + roff + off).
Proof.
  unfold make_op. destruct (local_key_for _ _) as [lk|]; [|done].
  destruct (remote_key_for _ _) as [rk|]; [|done]. by intros [= <-].
Qed.

Lemma seg_wf_lengths segs :
  Forall seg_wf segs → Forall (fun '(l, _) => 0 <= sp_length (v_span l)) segs.
Proof.
  apply Forall_impl. intros [l r] [[_ Hl] _]. unfold uw in Hl. cbn in *. lia.
Qed.

(** ** Properties *)

(** C9: [build_subops] always finishes: for a configuration the engine accepts
    (a chunk of at least one byte), whatever the segments, regions, keys and
    lanes, its loops end with either sub-operations or an error. *)
Theorem build_subops_terminates cb fr fm segs kind req lanes :
  1 <= cb → is_Some (build_subops cb fr fm segs kind req lanes).
Proof.
  intros Hcb. unfold build_subops. destruct (chunk_limit_spec cb lanes) as (_ & Hc & _).
  destruct lanes as [|l0 lanes']; [eauto|]. set (lanes := l0 :: lanes') in *.
  match goal with |- context [segment_loop ?k ?q ?ls ?c ?f ?m ?s ?b] =>
    destruct (segment_loop_total k q ls c ltac:(lia) f m s b) as [[|] ->] end; eauto.
Qed.


(** C8: Every sub-operation is safe to post: it belongs to a pair of segments
    of the call, over a live local region and a valid remote one exported for
    this kind of access; it stays inside both regions; it carries the keys the
    lane's own transport minted at each end; and it is no longer than the
    configured chunk or than that transport can carry. *)
Theorem build_subops_safe cb fr fm segs kind req lanes bt k ops op li :
  1 <= cb → Forall seg_wf segs →
  (∀ i lr, fr i = Some lr → u64 (mr_length lr)) →
  (∀ i rr, fm i = Some rr → u64 (d_length (rr_d rr))) →
  build_subops cb fr fm segs kind req lanes = Some (inr bt) →
  bt_per_lane bt !! k = Some ops → op ∈ ops → lanes !! k = Some li →
  op_safe cb fr fm kind req segs li op.
Proof.
  intros Hcb Hw Hlw Hrw Hb Hk Hop Hli.
  destruct (build_subops_inv _ _ _ _ _ _ _ _ Hcb (seg_wf_lengths _ Hw) Hb)
    as (trs & Hc & Hl & _).
  rewrite (Hl k (lookup_lt_Some _ _ _ Hli)) in Hk. injection Hk as <-.
  apply of_lane_elem in Hop.
  destruct (cuts_all_elem _ _ _ _ _ _ _ _ _ _ _ Hc Hop)
    as (l & r & lr & rr & o & n & li' & id' & Hin & Hs & Ho & Hn & Hon & Hli' & Hmk).
  assert (li' = li) as -> by congruence.
  destruct (check_segment_inv _ _ _ _ _ _ _ Hs) as (F1 & F2 & F3 & F4 & F5 & F6 & F7 & F8).
  destruct (make_op_inv _ _ _ _ _ _ _ _ _ _ _ Hmk) as (M1 & M2 & M3 & M4 & M5 & M6 & M7).
  destruct (chunk_limit_spec cb lanes) as (C1 & _ & C2).
  pose proof (proj1 (Forall_lookup _ _) C2 _ _ Hli) as C3. cbn in C3.
  destruct (proj1 (list.Forall_forall _ _) Hw _ Hin) as [Wl Wr]. cbn in Wl, Wr.
  apply (within_spec _ _ Wl (Hlw _ _ F1)) in F7. apply (within_spec _ _ Wr (Hrw _ _ F3)) in F8.
  destruct Wl as [Wl _], Wr as [Wr _]. unfold uw in Wl, Wr.
  exists l, r, lr, rr. rewrite M3, M6, M7. split_and!; try done; try lia.
  exists (sp_offset (v_span r) + o). split_and!; [f_equal; lia|lia|lia].
Qed.

(** ** Witnesses *)

Module SampleTransfer.

Definition reg : Registration :=
  mkRegistration 4096 65536 (mkDeviceId DeviceKind.kHost 0) 15
    [mkKey "rdma"%string 7 70; mkKey "rdma#1"%string 8 80] 7 70.
Definition lr : MemoryRegionImpl :=
  mkMemoryRegion (mkIdentity 1 2 3) 1 1 4096 65536 (mkDeviceId DeviceKind.kHost 0)
    MemoryKind.kHostPageable 15 reg false.
Definition rr : RemoteRegionImpl :=
  mkRemoteRegion (mkRegionDescriptor 2 0 (mkIdentity 4 5 6) 9 1 8192 65536 99
    [mkProviderKey "rdma"%string 99; mkProviderKey "rdma#1"%string 98]
    DeviceKind.kHost 0 15) true.
Definition fr (i : Z) : option MemoryRegionImpl := if i =? 1 then Some lr else None.
Definition fm (i : Z) : option RemoteRegionImpl := if i =? 9 then Some rr else None.
Definition lanes : list LaneInfo :=
  [mkLaneInfo "rdma"%string (f64_of_Z 2) 0; mkLaneInfo "rdma#1"%string f64_1 4096].
Definition segs : list (RegionView * RegionView) :=
  [(mkRegionView 1 (mkSpan 100 9000), mkRegionView 9 (mkSpan 0 9000));
   (mkRegionView 1 (mkSpan 20000 5), mkRegionView 9 (mkSpan 9000 5))].

Definition lengths (bt : Built) : list (list (Z * Z)) :=
  map (map (fun op => (op_sub_id op, op_length op))) (bt_per_lane bt).

Lemma segs_wf : Forall seg_wf segs.
Proof. repeat constructor; unfold uw; cbn; lia. Qed.

Definition built : Built :=
  match build_subops 8192 fr fm segs SubOpKind.kWrite 5 lanes with
  | Some (inr bt) => bt
  | _ => mkBuilt [] [] 0 0
  end.

Lemma build_ok : build_subops 8192 fr fm segs SubOpKind.kWrite 5 lanes = Some (inr built).
Proof. vm_compute. reflexivity. Qed.

Example built_lengths :
  lengths built = [[(0, 4096); (1, 4096)]; [(2, 808); (3, 5)]].
Proof. vm_compute. reflexivity. Qed.

End SampleTransfer.

Lemma build_subops_terminates_witness :
  is_Some (build_subops 1 SampleTransfer.fr SampleTransfer.fm SampleTransfer.segs
    SubOpKind.kRead 5 SampleTransfer.lanes).
Proof. apply build_subops_terminates. lia. Defined.


Lemma build_subops_safe_witness :
  ∃ op, bt_per_lane SampleTransfer.built !! 1%nat ≫= head = Some op
    ∧ op_safe 8192 SampleTransfer.fr SampleTransfer.fm SubOpKind.kWrite 5 SampleTransfer.segs
        (mkLaneInfo "rdma#1"%string f64_1 4096) op.
Proof.
  eexists. split; [vm_compute; reflexivity|].
  eapply (build_subops_safe 8192 _ _ SampleTransfer.segs _ _ SampleTransfer.lanes
    SampleTransfer.built 1);
    [lia|exact SampleTransfer.segs_wf| | |exact SampleTransfer.build_ok
    |vm_compute; reflexivity|apply list_elem_of_here|reflexivity].
  - intros i lr. unfold SampleTransfer.fr. destruct (i =? 1); [|done].
    intros [= <-]. unfold uw. cbn. lia.
  - intros i rr. unfold SampleTransfer.fm. destruct (i =? 9); [|done].
    intros [= <-]. unfold uw. cbn. lia.
Defined.
