(* ===== verification/EngineCore.v ===== *)
(** * The transfer core of the engine ([src/core/engine_impl.{h,cpp}]).

    Posting, abandoning, completing and ending requests: [post_ops],
    [part_done], [end_abandoned], [claim], [publish], [keep_completed_locked],
    [drain_pending], [dependency_state], and the completion half of
    [progress()].

    Requests are objects shared by the in-flight table, the pending queue, the
    completion queue and the application: they live in the store [c_reqs],
    keyed by their id, and everything else holds ids.  [c_log] is a history
    variable: the ids handed to [publish], in order; nothing reads it. *)

From stdpp Require Import base list gmap strings.
From S2P Require Import Prelude Types Wire Region Provider Request.

(** ** Counters ([EngineStats]) *)

Inductive StatField : Type :=
| requests_accepted
| requests_succeeded
| requests_failed
| requests_cancelled
| requests_would_block
| submit_deferred
| registrations_created
| registrations_reused
| notifications_sent
| notifications_received
| notifications_dropped
| ready_handoffs_sent
| ready_handoffs_failed
| ready_handoffs_received
| region_invalidates_sent
| region_invalidates_failed
| notification_acks_failed
| peak_inflight_requests.

#[global] Instance StatField_eq_dec : EqDecision StatField.
Proof. solve_decision. Defined.

Definition EngineStats : Type := StatField → Z.

Definition zero_stats : EngineStats := fun _ => 0.

Definition bump (f : StatField) (n : Z) (s : EngineStats) : EngineStats :=
  fun g => if decide (g = f) then s g + n else s g.

Definition raise_to (f : StatField) (n : Z) (s : EngineStats) : EngineStats :=
  fun g => if decide (g = f) then Z.max (s g) n else s g.

(** ** Work waiting to be posted *)

Record PendingSubmit : Type := mkPending {
  pd_req : Z;
  pd_ops : list SubOp;
  pd_conn : ConnId;
  pd_peer : Z;
  pd_provider : option nat;
  pd_after : list (option Z)
}.

Definition set_ops (ops : list SubOp) (p : PendingSubmit) : PendingSubmit :=
  mkPending (pd_req p) ops (pd_conn p) (pd_peer p) (pd_provider p) (pd_after p).

(** The scheduling quantum: whole sub-operations up to [max_bytes], and always
    at least one.  [bytes] is a [uint64_t] sum. *)

Fixpoint take_quantum (max_bytes : Z) (bytes : Z) (taken : nat) (ops : list SubOp) : nat :=
  match ops with
  | [] => taken
  | op :: rest =>
      if bool_decide (0 < taken)%nat && (max_bytes <? wrap64 (bytes + op_length op)) then taken
      else take_quantum max_bytes (wrap64 (bytes + op_length op)) (S taken) rest
  end.

Section Core.
Context {P D : Type} `{!TransportProvider P} `{!DeviceWorld D}.

Record Core : Type := mkCore {
  c_providers : list P;
  c_dev : D;
  c_reqs : gmap Z RequestImpl;
  c_inflight : gset Z;
  c_notify : gmap Z Z;
  c_pending : list PendingSubmit;
  c_rr : nat;
  c_completed : list Z;
  c_dropped : Z;
  c_log : list Z;
  c_stats : EngineStats
}.

Definition with_providers (x : list P) (c : Core) : Core :=
  mkCore x (c_dev c) (c_reqs c) (c_inflight c) (c_notify c) (c_pending c) (c_rr c)
    (c_completed c) (c_dropped c) (c_log c) (c_stats c).

Definition with_dev (x : D) (c : Core) : Core :=
  mkCore (c_providers c) x (c_reqs c) (c_inflight c) (c_notify c) (c_pending c) (c_rr c)
    (c_completed c) (c_dropped c) (c_log c) (c_stats c).

Definition with_reqs (x : gmap Z RequestImpl) (c : Core) : Core :=
  mkCore (c_providers c) (c_dev c) x (c_inflight c) (c_notify c) (c_pending c) (c_rr c)
    (c_completed c) (c_dropped c) (c_log c) (c_stats c).

Definition with_inflight (x : gset Z) (c : Core) : Core :=
  mkCore (c_providers c) (c_dev c) (c_reqs c) x (c_notify c) (c_pending c) (c_rr c)
    (c_completed c) (c_dropped c) (c_log c) (c_stats c).

Definition with_notify (x : gmap Z Z) (c : Core) : Core :=
  mkCore (c_providers c) (c_dev c) (c_reqs c) (c_inflight c) x (c_pending c) (c_rr c)
    (c_completed c) (c_dropped c) (c_log c) (c_stats c).

Definition with_pending (x : list PendingSubmit) (c : Core) : Core :=
  mkCore (c_providers c) (c_dev c) (c_reqs c) (c_inflight c) (c_notify c) x (c_rr c)
    (c_completed c) (c_dropped c) (c_log c) (c_stats c).

Definition with_rr (x : nat) (c : Core) : Core :=
  mkCore (c_providers c) (c_dev c) (c_reqs c) (c_inflight c) (c_notify c) (c_pending c) x
    (c_completed c) (c_dropped c) (c_log c) (c_stats c).

Definition with_completed (x : list Z) (c : Core) : Core :=
  mkCore (c_providers c) (c_dev c) (c_reqs c) (c_inflight c) (c_notify c) (c_pending c)
    (c_rr c) x (c_dropped c) (c_log c) (c_stats c).

Definition with_dropped (x : Z) (c : Core) : Core :=
  mkCore (c_providers c) (c_dev c) (c_reqs c) (c_inflight c) (c_notify c) (c_pending c)
    (c_rr c) (c_completed c) x (c_log c) (c_stats c).

Definition with_log (x : list Z) (c : Core) : Core :=
  mkCore (c_providers c) (c_dev c) (c_reqs c) (c_inflight c) (c_notify c) (c_pending c)
    (c_rr c) (c_completed c) (c_dropped c) x (c_stats c).

Definition with_stats (x : EngineStats) (c : Core) : Core :=
  mkCore (c_providers c) (c_dev c) (c_reqs c) (c_inflight c) (c_notify c) (c_pending c)
    (c_rr c) (c_completed c) (c_dropped c) (c_log c) x.

Definition put_req (i : Z) (r : RequestImpl) (c : Core) : Core :=
  with_reqs (<[i := r]> (c_reqs c)) c.

Definition count (f : StatField) (n : Z) (c : Core) : Core := with_stats (bump f n (c_stats c)) c.

(** Replaces provider [k]. *)

Definition set_provider (k : nat) (p : P) (c : Core) : Core :=
  with_providers (<[k := p]> (c_providers c)) c.

(** ** Ending a request *)

Definition keep_completed_locked (cfg : EngineConfig) (i : Z) (c : Core) : Core :=
  if cfg_completion_queue_depth cfg =? 0 then with_dropped (c_dropped c + 1) c
  else
    let q := c_completed c ++ [i] in
    if Z.of_nat (length q) <=? cfg_completion_queue_depth cfg then with_completed q c
    else with_dropped (c_dropped c + 1) (with_completed (tail q) c).

Definition publish (cfg : EngineConfig) (i : Z) (c : Core) : Core :=
  keep_completed_locked cfg i (with_log (c_log c ++ [i]) c).

(** Taking a request out of the in-flight table is what claims it. *)

Definition claim (i : Z) (c : Core) : Core * bool :=
  (with_inflight (c_inflight c ∖ {[i]}) c, bool_decide (i ∈ c_inflight c)).

Definition end_abandoned (cfg : EngineConfig) (i : Z) (c : Core) : Core :=
  let '(c, mine) := claim i c in
  if negb mine then c
  else
    match c_reqs c !! i with
    | None => c
    | Some r =>
        if cancel_requested r
        then publish cfg i (put_req i (finish_cancelled r) (count requests_cancelled 1 c))
        else publish cfg i (put_req i (fail (error_ r) r) (count requests_failed 1 c))
    end.

Definition part_done (cfg : EngineConfig) (i : Z) (c : Core) : Core :=
  match c_reqs c !! i with
  | None => c
  | Some r =>
      let '(r, last) := part_finished r in
      let c := put_req i r c in
      if negb last || negb (abandoning r) then c
      else
        let '(r, idle) := seal_if_idle r in
        let c := put_req i r c in
        if idle then end_abandoned cfg i c else c
  end.

(** ** Posting *)

Definition submit_error (p : P) (pd : PendingSubmit) (sr : SubmitResult) (outst : Z)
    : ErrorInfo :=
  mkErrorInfo
    (if Status.ok (sr_status sr) then Status.kTransportError else sr_status sr)
    (cap_name (caps p)) (pd_peer pd) (sr_provider_errno sr) (0 <? outst)
    (if outst =? 0 then "submit rejected"%string else "partial submit"%string).

(** [None] when nothing is left to submit for this piece of work (the source's
    [true]), otherwise the piece with what is left of it.  The provider index
    is in range for every piece the engine makes. *)

Definition post_ops (cfg : EngineConfig) (p : PendingSubmit) (max_bytes : Z) (c : Core)
    : Core * option PendingSubmit :=
  if bool_decide (pd_ops p = []) then (c, None)
  else
    match c_reqs c !! pd_req p with
    | None => (c, Some p)
    | Some r =>
        if abandoning r then (part_done cfg (pd_req p) c, None)
        else
          let k := match pd_provider p with Some k => k | None => 0%nat end in
          match c_providers c !! k with
          | None => (c, Some p)
          | Some prov =>
              let slice := take (take_quantum max_bytes 0 0 (pd_ops p)) (pd_ops p) in
              let r := set_state RequestState.kInflight r in
              let '(prov, sr) := submit prov (pd_conn p) slice in
              let r := add_accepted_subops (Z.of_nat (sr_accepted sr)) r in
              let c := put_req (pd_req p) r (set_provider k prov c) in
              let p := set_ops (drop (sr_accepted sr) (pd_ops p)) p in
              if bool_decide (sr_accepted sr < length slice)%nat
                 && bool_decide (sr_status sr = Status.kWouldBlock)
              then (count submit_deferred 1 c, Some p)
              else if bool_decide (sr_accepted sr = length slice) then
                if negb (bool_decide (pd_ops p = [])) then (c, Some p)
                else (part_done cfg (pd_req p) c, None)
              else
                let r := note_error (submit_error prov p sr (accepted_subops r)) r in
                let r := set_state RequestState.kDraining r in
                (part_done cfg (pd_req p) (put_req (pd_req p) r c), None)
          end
    end.

(** ** Dependencies *)

Fixpoint dependency_loop (after : list (option Z)) (d : D) (state : Status.t) : D * Status.t :=
  match after with
  | [] => (d, state)
  | None :: rest => dependency_loop rest d state
  | Some e :: rest =>
      if negb (event_recorded d e) then (d, Status.kInvalidArgument)
      else
        let '(d, (q, complete)) := event_query d e in
        if negb (Status.ok q) then (d, q)
        else dependency_loop rest d (if complete then state else Status.kWouldBlock)
  end.

Definition dependency_state (after : list (option Z)) (d : D) : D * Status.t :=
  dependency_loop after d Status.kOk.

Definition status_error (s : Status.t) : ErrorInfo :=
  mkErrorInfo s EmptyString 0 0 false EmptyString.

(** ** One scheduling pass *)

(** One turn of the loop in [drain_pending]. *)

Definition drain_one (cfg : EngineConfig) (p : PendingSubmit) (c : Core)
    : Core * option PendingSubmit :=
  let post c := post_ops cfg p (cfg_scheduler_quantum_bytes cfg) c in
  match c_reqs c !! pd_req p with
  | None => (c, Some p)
  | Some r =>
      if abandoning r then post c
      else
        let '(d, s) := dependency_state (pd_after p) (c_dev c) in
        let c := with_dev d c in
        if bool_decide (s = Status.kWouldBlock) then (c, Some p)
        else if negb (Status.ok s)
        then post (put_req (pd_req p) (note_error (status_error s) r) c)
        else post c
  end.

Fixpoint drain_turn (cfg : EngineConfig) (turn : list PendingSubmit) (c : Core)
    : Core * list PendingSubmit :=
  match turn with
  | [] => (c, [])
  | p :: rest =>
      let '(c, rem) := drain_one cfg p c in
      let '(c, waiting) := drain_turn cfg rest c in
      (c, match rem with Some p => p :: waiting | None => waiting end)
  end.

(** [std::rotate] to the cursor, then a turn each. *)

Definition drain_pending (cfg : EngineConfig) (c : Core) : Core :=
  if bool_decide (c_pending c = []) then c
  else
    let n := length (c_pending c) in
    let cursor := if bool_decide (n <= c_rr c)%nat then 0%nat else c_rr c in
    let turn := drop cursor (c_pending c) ++ take cursor (c_pending c) in
    let c := with_rr (if bool_decide (1 < n)%nat then 1%nat else 0%nat) (with_pending [] c) in
    let '(c, waiting) := drain_turn cfg turn c in
    with_pending (c_pending c ++ waiting) c.

(** ** Completions *)

Definition handoff_body (r : RequestImpl) (t : RemoteTarget) : ReadyHandoffBody :=
  mkReadyHandoffBody (id_ r) (rt_region t) (rt_generation t) (sp_offset (rt_span t))
    (sp_length (rt_span t)).

(** One handoff, over the transport and connection the request went out on. *)

Definition send_handoff (r : RequestImpl) (c : Core) (t : RemoteTarget) : Core :=
  match held_conn (att_ r) with
  | None => c
  | Some conn =>
      let k := match req_provider (att_ r) with Some k => k | None => 0%nat end in
      match c_providers c !! k with
      | None => c
      | Some prov =>
          let '(prov, s) := send_control prov (Some conn) ControlType.kReadyHandoff
            (encode_ready_handoff (handoff_body r t)) in
          let c := set_provider k prov c in
          if Status.ok s then count ready_handoffs_sent 1 c else count ready_handoffs_failed 1 c
      end
  end.

(** The end of a request whose last sub-operation completed. *)

Definition finish_transfer (cfg : EngineConfig) (has_device : bool) (i : Z) (r : RequestImpl)
    (c : Core) : Core :=
  if cancel_requested r
  then publish cfg i (put_req i (finish_cancelled r) (count requests_cancelled 1 c))
  else if negb (err_ok (error_ r))
  then publish cfg i (put_req i (fail (error_ r) r) (count requests_failed 1 c))
  else
    let r := mark_stage Stage.kTransferComplete r in
    let r := if has_device && bool_decide (kind_ r = SubOpKind.kRead)
             then mark_stage Stage.kTargetReady r else r in
    let c := foldl (send_handoff r) (put_req i r c) (remote_targets (att_ r)) in
    publish cfg i (put_req i (finish_success r) (count requests_succeeded 1 c)).

Definition on_event (cfg : EngineConfig) (has_device : bool) (c : Core) (ev : CompletionEvent)
    : Core :=
  let i := ev_request ev in
  if negb (bool_decide (i ∈ c_inflight c)) then c
  else
    match c_reqs c !! i with
    | None => c
    | Some r =>
        let '(r, last) := on_subop_complete ev r in
        let c := put_req i r c in
        if negb last then c
        else
          let '(c, mine) := claim i c in
          if negb mine then c else finish_transfer cfg has_device i r c
    end.

(** Takes a batch from every transport, keeping the first error. *)

Fixpoint poll_all (cfg : EngineConfig) (ps : list P)
    : list P * Status.t * list CompletionEvent :=
  match ps with
  | [] => ([], Status.kOk, [])
  | p :: rest =>
      let '(p, (s, batch)) := poll p (cfg_cq_batch cfg) in
      let '(rest, s', batch') := poll_all cfg rest in
      (p :: rest, (if Status.ok s then s' else s), batch ++ batch')
  end.

Definition poll_completion_events (cfg : EngineConfig) (has_device : bool) (c : Core)
    : Core * Status.t :=
  let '(ps, polled, events) := poll_all cfg (c_providers c) in
  (foldl (on_event cfg has_device) (with_providers ps c) events, polled).

End Core.

Arguments Core P D : clear implicits.
