(* ===== verification/EngineInv.v ===== *)
(** * The engine's accounting invariant.

    For every request the engine knows, how much of it is in flight: [out] the
    sub-operations accepted by a provider whose completion has not been
    handled, [np] and [no] the pieces of work still to be posted and the
    sub-operations in them, [k] whether a piece of it is being dealt with right
    now.  The invariant ties these to the counters inside the request, to the
    in-flight table, to the history of published requests and to the engine's
    counters, and every operation of [EngineCore] preserves it. *)

From stdpp Require Import base list gmap strings numbers.
From S2P Require Import Prelude Types Wire Region Provider Request EngineCore.

Set Warnings "-clear-no-such-hyp".

(** ** Counting the work that is still to be posted *)

Definition nparts (i : Z) (ps : list PendingSubmit) : nat :=
  sum_list_with (fun p => if decide (pd_req p = i) then 1%nat else 0%nat) ps.

Definition nops (i : Z) (ps : list PendingSubmit) : nat :=
  sum_list_with (fun p => if decide (pd_req p = i) then length (pd_ops p) else 0%nat) ps.

Definition part_ok (p : PendingSubmit) : Prop :=
  pd_ops p ≠ [] ∧ Forall (fun op => op_request op = pd_req p) (pd_ops p).

Lemma sum_list_with_Permutation {A} (f : A → nat) l l' :
  l ≡ₚ l' → sum_list_with f l = sum_list_with f l'.
Proof. induction 1; cbn; lia. Qed.

Lemma nparts_cons i p ps :
  nparts i (p :: ps) = ((if decide (pd_req p = i) then 1 else 0) + nparts i ps)%nat.
Proof. done. Qed.

Lemma nops_cons i p ps :
  nops i (p :: ps) =
  ((if decide (pd_req p = i) then length (pd_ops p) else 0) + nops i ps)%nat.
Proof. done. Qed.

Lemma nparts_le_nops i ps : Forall part_ok ps → (nparts i ps <= nops i ps)%nat.
Proof.
  induction 1 as [|p ps [Hne _] _ IH]; [done|]. rewrite nparts_cons, nops_cons.
  case_decide; [|lia]. destruct (pd_ops p); [done|]. cbn. lia.
Qed.

Lemma nparts_0_nops i ps : nparts i ps = 0%nat → nops i ps = 0%nat.
Proof.
  induction ps as [|p ps IH]; [done|]. rewrite nparts_cons, nops_cons.
  case_decide; [lia|auto].
Qed.

(** ** Quantum *)

Lemma take_quantum_bounds max ops b t :
  (t <= take_quantum max b t ops <= t + length ops)%nat
  ∧ (ops ≠ [] → t = 0%nat → 0 < take_quantum max b t ops)%nat.
Proof.
  revert b t. induction ops as [|op ops IH]; intros b t; cbn [take_quantum length].
  - split; [lia|done].
  - destruct (_ && _) eqn:E.
    + b2p. apply bool_decide_eq_true in H. split; [lia|intros; lia].
    + specialize (IH (wrap64 (b + op_length op)) (S t)). split; [lia|intros; lia].
Qed.

(** ** The invariant of one request *)

Record flight (r : RequestImpl) (out np no k : nat) : Prop := mkFlight {
  fl_live : terminal_locked r = false;
  fl_total : 0 < total_subops_ r < 2 ^ 32;
  fl_completed : 0 <= completed_subops_ r;
  fl_out : completed_subops_ r + Z.of_nat out = accepted_subops_ r;
  fl_parts : parts_left_ r = Z.of_nat (np + k);
  fl_room : accepted_subops_ r + Z.of_nat no <= total_subops_ r;
  fl_sealed : sealed_ r = true → (np + k = 0)%nat;
  fl_whole : abandoning r = false → accepted_subops_ r + Z.of_nat no = total_subops_ r;
  fl_ends : (np + k = 0)%nat →
    (0 < out)%nat ∧ (sealed_ r = true ∨ accepted_subops_ r = total_subops_ r);
  fl_hand : k = 1%nat → abandoning r = false → (0 < out)%nat
}.

Definition req_ok (R : gset Z) (j : Z) (ro : option RequestImpl) (infl logd : Prop)
    (out np no k : nat) : Prop :=
  match ro with
  | None => ¬ infl ∧ ¬ logd ∧ out = 0%nat ∧ np = 0%nat ∧ k = 0%nat
  | Some r =>
      id_ r = j
      ∧ (infl → ¬ logd ∧ flight r out np no k)
      ∧ (¬ infl → 0 < total_subops_ r → terminal_locked r = true ∧ logd)
      ∧ (logd → terminal_locked r = true ∧ (j ∉ R → out = 0%nat ∧ np = 0%nat))
      ∧ (total_subops_ r <= 0 → np = 0%nat ∧ k = 0%nat ∧ out = 0%nat)
  end.

Lemma req_ok_iff R j ro (i1 i2 l1 l2 : Prop) out np no k :
  (i1 ↔ i2) → (l1 ↔ l2) → req_ok R j ro i1 l1 out np no k → req_ok R j ro i2 l2 out np no k.
Proof. unfold req_ok. intros Hi Hl. destruct ro; rewrite Hi, Hl; done. Qed.

(** ** How each step moves it *)

Definition same_total (r r' : RequestImpl) : Prop :=
  id_ r' = id_ r ∧ total_subops_ r' = total_subops_ r ∧ att_ r' = att_ r.

Lemma flight_room r out np no k : flight r out np no k → 0 <= accepted_subops_ r < 2 ^ 32.
Proof. intros [??????????]. lia. Qed.

Lemma abandoning_set_state s r :
  RequestState.is_terminal s = false → abandoning (set_state s r) = abandoning r.
Proof.
  intros H. unfold set_state, abandoning, terminal_locked.
  destruct (RequestState.is_terminal (state_ r)) eqn:T, (cancel_requested_ r) eqn:C; cbn;
    rewrite ?T, ?C, ?H; done.
Qed.

Lemma live_set_state s r :
  RequestState.is_terminal s = false → terminal_locked r = false →
  terminal_locked (set_state s r) = false.
Proof. intros. unfold set_state, terminal_locked in *. by destruct (_ || _). Qed.

Lemma flight_cong r r' out np no k :
  flight r out np no k → terminal_locked r' = false → total_subops_ r' = total_subops_ r →
  completed_subops_ r' = completed_subops_ r → accepted_subops_ r' = accepted_subops_ r →
  sealed_ r' = sealed_ r → parts_left_ r' = parts_left_ r →
  (abandoning r' = false → abandoning r = false) → flight r' out np no k.
Proof.
  intros [H1 H2 H3 H4 H5 H6 H7 H8 H9 H10] T E1 E2 E3 E4 E5 A.
  split; rewrite ?E1, ?E2, ?E3, ?E4, ?E5; auto.
Qed.

Lemma flight_set_state s r out np no k :
  RequestState.is_terminal s = false → flight r out np no k →
  flight (set_state s r) out np no k.
Proof.
  intros Hs F. eapply flight_cong; [exact F|..]; try (unfold set_state; by destruct (_ || _)).
  - by apply live_set_state; [|apply (fl_live _ _ _ _ _ F)].
  - by rewrite abandoning_set_state.
Qed.

Lemma abandoning_err r : err_ok (error_ r) = false → abandoning r = true.
Proof. intros H. unfold abandoning. rewrite H. apply orb_true_r. Qed.

Lemma note_error_frame e r :
  state_ (note_error e r) = state_ r ∧ id_ (note_error e r) = id_ r
  ∧ total_subops_ (note_error e r) = total_subops_ r
  ∧ completed_subops_ (note_error e r) = completed_subops_ r
  ∧ accepted_subops_ (note_error e r) = accepted_subops_ r
  ∧ sealed_ (note_error e r) = sealed_ r ∧ parts_left_ (note_error e r) = parts_left_ r
  ∧ cancel_requested_ (note_error e r) = cancel_requested_ r
  ∧ att_ (note_error e r) = att_ r
  ∧ (err_ok (error_ (note_error e r)) = true → err_ok (error_ r) = true).
Proof.
  unfold note_error, record_error_locked. destruct (terminal_locked r); [done|].
  destruct (err_ok e) eqn:E1, (err_ok (error_ r)) eqn:E2; cbn; rewrite ?E1, ?E2; done.
Qed.

Lemma note_error_sets e r :
  terminal_locked r = false → err_ok e = false → err_ok (error_ (note_error e r)) = false.
Proof.
  intros T E. unfold note_error, record_error_locked. rewrite T, E. cbn.
  destruct (err_ok (error_ r)) eqn:E2; cbn; done.
Qed.

Lemma flight_note_error e r out np no k :
  flight r out np no k → flight (note_error e r) out np no k.
Proof.
  intros F. destruct (note_error_frame e r) as (S & _ & N & C & A & L & Q & X & _ & Y).
  eapply flight_cong; [exact F|..]; auto.
  - unfold terminal_locked. rewrite S. apply F.
  - unfold abandoning, terminal_locked. rewrite S, X.
    destruct (err_ok (error_ (note_error e r))); cbn.
    + by rewrite Y.
    + by rewrite orb_true_r.
Qed.

Lemma flight_cancel r out np no k :
  flight r out np no k → flight (fst (cancel r)) out np no k.
Proof.
  intros F. unfold cancel. case_bool_decide; [done|]. rewrite (fl_live _ _ _ _ _ F).
  eapply flight_cong; [exact F|..]; try done.
Qed.

(** A slice of [n] sub-operations is offered and [a] of them are accepted. *)

Lemma flight_accept r out np n no a :
  flight r out (S np) (n + no) 0 → (a <= n)%nat →
  flight (add_accepted_subops (Z.of_nat a) r) (out + a) (S np) (n - a + no) 0.
Proof.
  intros F Ha. pose proof (flight_room _ _ _ _ _ F).
  destruct F as [H1 H2 H3 H4 H5 H6 H7 H8 H9 H10].
  assert (W : wrap32 (accepted_subops_ r + Z.of_nat a) = accepted_subops_ r + Z.of_nat a)
    by (apply wrapw_id; unfold uw; lia).
  split; unfold add_accepted_subops; cbn; rewrite ?W; try done; try lia.
  intros A. specialize (H8 A). lia.
Qed.

(** The piece of work is over: the request is in hand until [part_done]. *)

Lemma flight_take r out np n no :
  flight r out (S np) (n + no) 0 →
  (abandoning r = true ∨ n = 0%nat ∧ (0 < out)%nat) → flight r out np no 1.
Proof.
  intros [H1 H2 H3 H4 H5 H6 H7 H8 H9 H10] Hd. split; try done; try lia.
  - intros S. specialize (H7 S). lia.
  - intros A. specialize (H8 A). destruct Hd as [|[-> ?]]; [congruence|lia].
  - intros _ A. destruct Hd as [|[]]; [congruence|lia].
Qed.

Lemma part_finished_abandoning r : abandoning (fst (part_finished r)) = abandoning r.
Proof. done. Qed.

Lemma flight_part_done r out np no :
  flight r out np no 1 → (np = 0%nat → no = 0%nat) →
  let '(r1, last) := part_finished r in
  same_total r r1 ∧ terminal_locked r1 = false ∧
  if negb last || negb (abandoning r1) then flight r1 out np no 0
  else let '(r2, idle) := seal_if_idle r1 in
       same_total r r2 ∧ terminal_locked r2 = false ∧
       if idle then out = 0%nat ∧ np = 0%nat else flight r2 out np no 0.
Proof.
  intros [H1 H2 H3 H4 H5 H6 H7 H8 H9 H10] Hn. unfold part_finished.
  assert (E : (0 <? parts_left_ r) = true) by (apply Z.ltb_lt; lia). rewrite E.
  split; [done|]. split; [done|].
  destruct (negb (parts_left_ r - 1 =? 0)) eqn:Ez; cbn [orb]; b2p.
  - split; cbn; try done; try lia; intros; specialize (H7 ltac:(done)); lia.
  - change (abandoning _) with (abandoning r) at 1.
    assert (np = 0%nat) as -> by lia. destruct (abandoning r) eqn:A; cbn [negb].
    + unfold seal_if_idle. cbn. split; [done|]. split; [done|].
      change (terminal_locked _) with (terminal_locked r). rewrite H1. cbn.
      destruct (accepted_subops_ r <=? completed_subops_ r) eqn:Ei; b2p; [split; lia|].
      split; cbn; try done; try lia.
      intros B. change (abandoning r = false) in B. congruence.
    + specialize (H8 eq_refl). specialize (H10 eq_refl eq_refl).
      split; cbn; try done; lia.
Qed.

Lemma on_subop_complete_rest ev r :
  terminal_locked r = false →
  let r' := fst (on_subop_complete ev r) in
  id_ r' = id_ r ∧ att_ r' = att_ r ∧ parts_left_ r' = parts_left_ r
  ∧ (abandoning r' = false → abandoning r = false).
Proof.
  intros T. unfold on_subop_complete. rewrite T. cbn [fst snd].
  assert (G : ∀ r0, state_ r0 = state_ r → cancel_requested_ r0 = cancel_requested_ r →
    (err_ok (error_ r0) = true → err_ok (error_ r) = true) →
    abandoning r0 = false → abandoning r = false).
  { intros r0 E1 E2 E3. unfold abandoning, terminal_locked. rewrite E1, E2, !orb_false_iff.
    rewrite !negb_false_iff. tauto. }
  destruct (record_error_frame (event_error ev) r) as (S & _ & X & _ & _ & _ & Q & _ & Ea & I & _ & E).
  destruct (negb _); cbn; [|by split_and!; auto; apply G].
  split_and!; auto. apply G; auto. cbn. intros Ek.
  destruct (err_ok (error_ r)) eqn:Er; [done|]. rewrite E in Ek; congruence.
Qed.

Lemma flight_event ev r out np no :
  flight r (S out) np no 0 → (np <= no)%nat →
  let '(r', last) := on_subop_complete ev r in
  same_total r r' ∧ terminal_locked r' = false ∧
  if last then out = 0%nat ∧ np = 0%nat else flight r' out np no 0.
Proof.
  intros F Hn. pose proof (flight_room _ _ _ _ _ F).
  destruct F as [H1 H2 H3 H4 H5 H6 H7 H8 H9 H10].
  destruct (on_subop_complete_counts ev r H1) as (S & C & A & L & N & X).
  destruct (on_subop_complete_rest ev r H1) as (I & Ia & Q & B).
  destruct (on_subop_complete ev r) as [r' last]. cbn [fst snd] in *.
  rewrite (wrapw_id 32) in * by (unfold uw; lia). unfold same_total.
  split; [done|]. split; [by unfold terminal_locked; rewrite S|].
  destruct last; symmetry in X; b2p.
  - destruct (sealed_ r) eqn:E; [specialize (H7 eq_refl)|]; split; lia.
  - split; rewrite ?C, ?A, ?L, ?N, ?Q; try done; try lia.
    + by unfold terminal_locked; rewrite S.
    + intros Hb. apply H8. by apply B.
    + intros Hp. destruct (H9 Hp) as [_ [E|E]]; [rewrite E in X|]; split; auto;
        destruct (sealed_ r); lia.
Qed.


(** What the rest of the engine adds to the accounting: a fact about what the
    requests in flight hold on to, and the ids handed out so far to requests
    and to notifications. *)

Record Ghost : Type := mkGhost {
  g_holds : Z → Attachments → Prop;
  g_known : Z → Prop;
  g_noted : Z → Prop
}.

Section Inv.
Context {P D : Type} `{!TransportProvider P} `{!ProviderLaws P} `{!DeviceWorld D}.
Implicit Types c : Core P D.

Definition total_out (ps : list P) (i : Z) : nat := sum_list_with (fun p => outstanding p i) ps.

(** Completions of [i] still to be handled: at the providers, or in the batch
    [evs] taken from them. *)

Definition out (c : Core P D) (evs : list CompletionEvent) (i : Z) : nat :=
  (total_out (c_providers c) i + count_req ev_request i evs)%nat.

Definition hand (h : option Z) (i : Z) : nat := if decide (h = Some i) then 1%nat else 0%nat.

Definition ended_count (s : EngineStats) : Z :=
  s requests_succeeded + s requests_failed + s requests_cancelled.

Definition notify_ok (c : Core P D) : Prop :=
  (∀ n i, c_notify c !! n = Some i → ∃ r, c_reqs c !! i = Some r ∧ total_subops_ r = 0
    ∧ terminal_locked r = false ∧ (i ∉ c_log c) ∧ (i ∉ c_inflight c))
  ∧ (∀ n m i, c_notify c !! n = Some i → c_notify c !! m = Some i → n = m).

Lemma total_out_insert ps k p p' i :
  ps !! k = Some p →
  (total_out (<[k := p']> ps) i + outstanding p i = total_out ps i + outstanding p' i)%nat.
Proof.
  unfold total_out. revert k. induction ps as [|q ps IH]; intros [|k] H; try done.
  - injection H as ->. cbn [sum_list_with insert list_insert]. lia.
  - specialize (IH k H). change (<[S k := p']> (q :: ps)) with (q :: <[k := p']> ps).
    cbn [sum_list_with]. lia.
Qed.

Lemma total_out_insert_same ps k p p' i :
  ps !! k = Some p → outstanding p' i = outstanding p i →
  total_out (<[k := p']> ps) i = total_out ps i.
Proof. intros H E. pose proof (total_out_insert ps k p p' i H). lia. Qed.

Lemma count_req_take {A} (f : A → Z) i j n (l : list A) :
  Forall (fun a => f a = j) l → (n <= length l)%nat →
  count_req f i (take n l) = if decide (j = i) then n else 0%nat.
Proof.
  intros H. revert n. induction H as [|a l Ha Hl IH]; intros n Hn.
  - cbn in *. assert (n = 0%nat) as -> by lia. by case_decide.
  - destruct n as [|n]; [by case_decide|]. cbn [take]. unfold count_req.
    rewrite filter_cons. cbn in Hn. specialize (IH n ltac:(lia)). unfold count_req in IH.
    rewrite Ha. destruct (decide (j = i)); cbn; rewrite IH; done.
Qed.

(** ** Counters *)

Definition ends (f : StatField) : Prop :=
  f = requests_succeeded ∨ f = requests_failed ∨ f = requests_cancelled.

Lemma ended_count_bump f s : ends f → ended_count (bump f 1 s) = ended_count s + 1.
Proof. unfold ended_count, bump. intros [-> | [-> | ->]];
  repeat case_decide; try done; lia. Qed.

Lemma ended_count_bump_ne f n s : ¬ ends f → ended_count (bump f n s) = ended_count s.
Proof.
  unfold ends, ended_count, bump. intros H.
  rewrite !decide_False by (intros <-; tauto). done.
Qed.

Lemma bump_ne f g n s : g ≠ f → bump f n s g = s g.
Proof. unfold bump. intros. by rewrite decide_False. Qed.

Lemma ends_cases : ends requests_succeeded ∧ ends requests_failed ∧ ends requests_cancelled.
Proof. unfold ends. auto. Qed.

(** ** Steps the invariant does not see *)

Record quiet (c c' : Core P D) : Prop := mkQuiet {
  q_reqs : c_reqs c' = c_reqs c;
  q_inflight : c_inflight c' = c_inflight c;
  q_log : c_log c' = c_log c;
  q_notify : c_notify c' = c_notify c;
  q_pending : c_pending c' = c_pending c;
  q_out : ∀ j, total_out (c_providers c') j = total_out (c_providers c) j;
  q_accepted : c_stats c' requests_accepted = c_stats c requests_accepted;
  q_ended : ended_count (c_stats c') = ended_count (c_stats c)
}.

#[global] Instance quiet_preorder : PreOrder quiet.
Proof.
  split.
  - intros c. by split.
  - intros c1 c2 c3 [] []. split; congruence.
Qed.

Lemma quiet_count f n c : ¬ ends f → f ≠ requests_accepted → quiet c (count f n c).
Proof.
  intros H1 H2. split; try done; cbn.
  - by apply bump_ne.
  - by apply ended_count_bump_ne.
Qed.

Lemma quiet_providers c ps :
  (∀ j, total_out ps j = total_out (c_providers c) j) → quiet c (with_providers ps c).
Proof. intros H. by split. Qed.

Lemma quiet_set_provider c k p p' :
  c_providers c !! k = Some p → (∀ j, outstanding p' j = outstanding p j) →
  quiet c (set_provider k p' c).
Proof.
  intros Hk H. apply quiet_providers. intros j. by apply (total_out_insert_same _ k p).
Qed.

Lemma quiet_send_handoff r c t : quiet c (send_handoff r c t).
Proof.
  unfold send_handoff. destruct (held_conn (att_ r)) as [conn|]; [|done].
  set (k := match req_provider (att_ r) with Some k => k | None => 0%nat end).
  destruct (c_providers c !! k) as [prov|] eqn:Hk; [|done].
  set (t0 := ControlType.kReadyHandoff). set (b0 := encode_ready_handoff _).
  pose proof (send_outstanding prov (Some conn) t0 b0) as E.
  destruct (send_control prov (Some conn) t0 b0) as [prov' s]. cbn [fst] in E.
  transitivity (set_provider k prov' c); [by eapply quiet_set_provider|].
  destruct (Status.ok s); apply quiet_count; unfold ends; naive_solver.
Qed.

Lemma quiet_send_handoffs r ts c : quiet c (foldl (send_handoff r) c ts).
Proof.
  revert c. induction ts as [|t ts IH]; intros c; [done|]. cbn [foldl].
  transitivity (send_handoff r c t); [apply quiet_send_handoff|apply IH].
Qed.

Lemma quiet_out c c' evs j : quiet c c' → out c' evs j = out c evs j.
Proof. intros []. unfold out. by rewrite q_out0. Qed.

Context (gh : Ghost).

(** [R] is the set of requests taken by the peer reaper, whose sub-operations
    may still be owed by a provider after they were ended. *)

Record core_inv (R : gset Z) (c : Core P D) (ps : list PendingSubmit) (h : option Z)
    (evs : list CompletionEvent) : Prop := mkCoreInv {
  ci_req : ∀ j, req_ok R j (c_reqs c !! j) (j ∈ c_inflight c) (j ∈ c_log c)
    (out c evs j) (nparts j ps) (nops j ps) (hand h j);
  ci_log : NoDup (c_log c);
  ci_parts : Forall part_ok ps;
  ci_stats : c_stats c requests_accepted
    = ended_count (c_stats c) + Z.of_nat (size (c_inflight c));
  ci_notify : notify_ok c;
  ci_att : ∀ j r, c_reqs c !! j = Some r → j ∈ c_inflight c → g_holds gh j (att_ r);
  ci_known : ∀ j, is_Some (c_reqs c !! j) → g_known gh j;
  ci_noted : ∀ n, is_Some (c_notify c !! n) → g_noted gh n
}.

(** ** Lemmas *)

(** Only request [i] is affected by a step: it is enough to look at [i]. *)

Lemma core_inv_local R c c' ps ps' h h' evs evs' i :
  core_inv R c ps h evs →
  (∀ j, j ≠ i →
    c_reqs c' !! j = c_reqs c !! j ∧ (j ∈ c_inflight c' ↔ j ∈ c_inflight c)
    ∧ (j ∈ c_log c' ↔ j ∈ c_log c) ∧ out c' evs' j = out c evs j
    ∧ nparts j ps' = nparts j ps ∧ nops j ps' = nops j ps ∧ hand h' j = hand h j) →
  req_ok R i (c_reqs c' !! i) (i ∈ c_inflight c') (i ∈ c_log c')
    (out c' evs' i) (nparts i ps') (nops i ps') (hand h' i) →
  NoDup (c_log c') → Forall part_ok ps' →
  c_stats c' requests_accepted
    = ended_count (c_stats c') + Z.of_nat (size (c_inflight c')) →
  notify_ok c' → (∀ r, c_reqs c' !! i = Some r → i ∈ c_inflight c' → g_holds gh i (att_ r)) →
  (is_Some (c_reqs c' !! i) → g_known gh i) →
  (∀ n, is_Some (c_notify c' !! n) → g_noted gh n) →
  core_inv R c' ps' h' evs'.
Proof.
  intros I Hj Hi Hl Hp Hs Hn Ha Hk Ht. split; auto.
  - intros j. destruct (decide (j = i)) as [->|Hne]; [done|].
    destruct (Hj j Hne) as (-> & E1 & E2 & -> & -> & -> & ->).
    eapply req_ok_iff; [..|apply (ci_req _ _ _ _ _ I)]; naive_solver.
  - intros j r. destruct (decide (j = i)) as [->|Hne]; [auto|].
    destruct (Hj j Hne) as (-> & -> & _). apply (ci_att _ _ _ _ _ I).
  - intros j. destruct (decide (j = i)) as [->|Hne]; [auto|].
    destruct (Hj j Hne) as (-> & _). apply (ci_known _ _ _ _ _ I).
Qed.

(** Changes that the invariant does not see. *)

Lemma core_inv_frame R c c' ps h evs :
  core_inv R c ps h evs →
  c_reqs c' = c_reqs c → c_inflight c' = c_inflight c → c_log c' = c_log c →
  c_notify c' = c_notify c → (∀ j, total_out (c_providers c') j = total_out (c_providers c) j) →
  c_stats c' requests_accepted = c_stats c requests_accepted →
  ended_count (c_stats c') = ended_count (c_stats c) →
  core_inv R c' ps h evs.
Proof.
  intros [Hr Hl Hp Hs Hn Ha Hk Ht] E1 E2 E3 E4 E5 E6 E7. split; auto.
  - intros j. unfold out. rewrite E1, E2, E3, E5. apply Hr.
  - by rewrite E3.
  - by rewrite E6, E7, E2.
  - unfold notify_ok in *. by rewrite E1, E2, E3, E4.
  - by rewrite E1, E2.
  - by rewrite E1.
  - by rewrite E4.
Qed.

(** A change of one request of positive size leaves notifications alone. *)

Lemma notify_ok_put c c' i r' :
  notify_ok c → c_notify c' = c_notify c → c_reqs c' = <[i := r']> (c_reqs c) →
  (∃ r, c_reqs c !! i = Some r ∧ 0 < total_subops_ r) →
  (∀ j, j ≠ i → (j ∈ c_inflight c' → j ∈ c_inflight c) ∧ (j ∈ c_log c' → j ∈ c_log c)) →
  notify_ok c'.
Proof.
  intros [H1 H2] En Er (r & Hr & Ht) Hj. split.
  - intros n j Hn. rewrite En in Hn. destruct (H1 n j Hn) as (rj & Hrj & ? & ? & ? & ?).
    assert (j ≠ i) by (intros ->; rewrite Hr in Hrj; injection Hrj as ->; lia).
    exists rj. rewrite Er, lookup_insert_ne by done. destruct (Hj j); naive_solver.
  - intros n m j. rewrite En. apply H2.
Qed.

(** A step that moves request [i], in flight before and after. *)

Lemma core_inv_put R c c' ps ps' h h' evs evs' i r r' :
  core_inv R c ps h evs → c_reqs c !! i = Some r → i ∈ c_inflight c →
  (c_reqs c' = <[i := r']> (c_reqs c) ∧ c_inflight c' = c_inflight c ∧ c_log c' = c_log c
   ∧ c_notify c' = c_notify c
   ∧ c_stats c' requests_accepted = c_stats c requests_accepted
   ∧ ended_count (c_stats c') = ended_count (c_stats c)) →
  (∀ j, j ≠ i → out c' evs' j = out c evs j ∧ nparts j ps' = nparts j ps
    ∧ nops j ps' = nops j ps ∧ hand h' j = hand h j) →
  Forall part_ok ps' → same_total r r' →
  flight r' (out c' evs' i) (nparts i ps') (nops i ps') (hand h' i) →
  core_inv R c' ps' h' evs'.
Proof.
  intros I Hr Hi (E1 & E2 & E3 & E4 & E5 & E6) Hj Hp (Tid & Tn & Ta) F.
  pose proof (ci_req _ _ _ _ _ I i) as Q. rewrite Hr in Q. destruct Q as (Hid & Hin & _).
  destruct (Hin Hi) as [Hnl F0]. pose proof (fl_total _ _ _ _ _ F0).
  eapply (core_inv_local _ _ _ _ _ _ _ _ _ i I); auto.
  - intros j Hne. rewrite E1, E2, E3, lookup_insert_ne by done.
    destruct (Hj j Hne) as (? & ? & ? & ?). naive_solver.
  - rewrite E1, lookup_insert_eq, E2, E3. cbn.
    split_and!; try done; try lia; try congruence; naive_solver.
  - rewrite E3. apply I.
  - rewrite E2, E5, E6. apply I.
  - eapply notify_ok_put; [apply I|done|exact E1|exists r; split; [done|lia]|].
    intros j _. by rewrite E2, E3.
  - intros x. rewrite E1, lookup_insert_eq. intros [= <-] _. rewrite Ta.
    by apply (ci_att _ _ _ _ _ I).
  - intros _. apply (ci_known _ _ _ _ _ I). eauto.
  - rewrite E4. apply I.
Qed.

(** A step that ends request [i] and publishes it. *)

Lemma core_inv_end R c c' ps ps' h h' evs evs' i r r' :
  core_inv R c ps h evs → c_reqs c !! i = Some r → i ∈ c_inflight c →
  (c_reqs c' = <[i := r']> (c_reqs c) ∧ c_inflight c' = c_inflight c ∖ {[i]}
   ∧ c_log c' = c_log c ++ [i] ∧ c_notify c' = c_notify c
   ∧ c_stats c' requests_accepted = c_stats c requests_accepted
   ∧ ended_count (c_stats c') = ended_count (c_stats c) + 1) →
  (∀ j, j ≠ i → out c' evs' j = out c evs j ∧ nparts j ps' = nparts j ps
    ∧ nops j ps' = nops j ps ∧ hand h' j = hand h j) →
  Forall part_ok ps' → same_total r r' → terminal_locked r' = true →
  (i ∈ R ∨ out c' evs' i = 0%nat ∧ nparts i ps' = 0%nat) →
  core_inv R c' ps' h' evs'.
Proof.
  intros I Hr Hi (E1 & E2 & E3 & E4 & E5 & E6) Hj Hp (Tid & Tn & Ta) T Z.
  pose proof (ci_req _ _ _ _ _ I i) as Q. rewrite Hr in Q. destruct Q as (Hid & Hin & _).
  destruct (Hin Hi) as [Hnl F0]. pose proof (fl_total _ _ _ _ _ F0).
  eapply (core_inv_local _ _ _ _ _ _ _ _ _ i I); auto.
  - intros j Hne. rewrite E1, E2, E3, lookup_insert_ne by done.
    destruct (Hj j Hne) as (? & ? & ? & ?). split_and!; auto; set_solver.
  - rewrite E1, lookup_insert_eq, E2, E3. cbn.
    split_and!; try done; try lia; try congruence.
    + set_solver.
    + intros _ _. split; [done|set_solver].
    + intros _. split; [done|]. naive_solver.
  - rewrite E3. apply list.NoDup_app. split; [apply I|]. split; [set_solver|apply NoDup_singleton].
  - rewrite E2, E5, E6, (ci_stats _ _ _ _ _ I).
    pose proof (size_difference (c_inflight c) {[i]} ltac:(set_solver)) as Sz.
    rewrite size_singleton in Sz.
    assert (0 < size (c_inflight c))%nat
      by (apply Nat.neq_0_lt_0; intros Z0%size_empty_inv; set_solver). lia.
  - eapply notify_ok_put; [apply I|done|exact E1|exists r; split; [done|lia]|].
    intros j Hne. rewrite E2, E3. set_solver.
  - rewrite E2. set_solver.
  - intros _. apply (ci_known _ _ _ _ _ I). eauto.
  - rewrite E4. apply I.
Qed.

(** A step on a request that has been ended already (a part of a request the
    reaper took). *)

Lemma core_inv_ended R c c' ps ps' h h' evs evs' i r r' :
  core_inv R c ps h evs → c_reqs c !! i = Some r → i ∉ c_inflight c → 0 < total_subops_ r →
  (c_reqs c' = <[i := r']> (c_reqs c) ∧ c_inflight c' = c_inflight c ∧ c_log c' = c_log c
   ∧ c_notify c' = c_notify c
   ∧ c_stats c' requests_accepted = c_stats c requests_accepted
   ∧ ended_count (c_stats c') = ended_count (c_stats c)) →
  (∀ j, j ≠ i → out c' evs' j = out c evs j ∧ nparts j ps' = nparts j ps
    ∧ nops j ps' = nops j ps ∧ hand h' j = hand h j) →
  Forall part_ok ps' → same_total r r' → terminal_locked r' = terminal_locked r →
  (out c' evs' i <= out c evs i)%nat → (nparts i ps' <= nparts i ps)%nat →
  core_inv R c' ps' h' evs'.
Proof.
  intros I Hr Hi Ht (E1 & E2 & E3 & E4 & E5 & E6) Hj Hp (Tid & Tn & Ta) T Lo Ln.
  pose proof (ci_req _ _ _ _ _ I i) as Q. rewrite Hr in Q. destruct Q as (Hid & _ & Hl & Hg & _).
  destruct (Hl Hi Ht) as [Tr Hlog]. destruct (Hg Hlog) as [_ Hz].
  eapply (core_inv_local _ _ _ _ _ _ _ _ _ i I); auto.
  - intros j Hne. rewrite E1, E2, E3, lookup_insert_ne by done.
    destruct (Hj j Hne) as (? & ? & ? & ?). done.
  - rewrite E1, lookup_insert_eq, E2, E3. cbn. rewrite T, Tn, Tr.
    split_and!; try done; try lia; try congruence.
    intros _. split; [done|]. intros HR. destruct (Hz HR). lia.
  - rewrite E3. apply I.
  - rewrite E2, E5, E6. apply I.
  - eapply notify_ok_put; [apply I|done|exact E1|by exists r|].
    intros j _. by rewrite E2, E3.
  - by rewrite E2.
  - intros _. apply (ci_known _ _ _ _ _ I). eauto.
  - rewrite E4. apply I.
Qed.

(** ** Publishing and ending *)

Lemma publish_frame cfg i c :
  c_reqs (publish cfg i c) = c_reqs c ∧ c_inflight (publish cfg i c) = c_inflight c
  ∧ c_log (publish cfg i c) = c_log c ++ [i] ∧ c_notify (publish cfg i c) = c_notify c
  ∧ c_stats (publish cfg i c) = c_stats c ∧ c_providers (publish cfg i c) = c_providers c
  ∧ c_pending (publish cfg i c) = c_pending c.
Proof.
  unfold publish, keep_completed_locked. destruct (_ =? 0); [done|]. destruct (_ <=? _); done.
Qed.

Definition finished (r r' : RequestImpl) : Prop :=
  r' = finish_cancelled r ∨ r' = finish_success r ∨ ∃ e, r' = fail e r.

Lemma terminal_same_total r r' :
  finished r r' → same_total r r' ∧ terminal_locked r' = true.
Proof.
  unfold finished, finish_cancelled, finish_success, fail, same_total.
  intros [->|[->|(e & ->)]]; destruct (terminal_locked r) eqn:T; try done.
  cbn. destruct (record_error_frame e r) as (_ & _ & _ & _ & _ & _ & _ & N & A & I & _).
  by rewrite I, N, A.
Qed.

(** Ends request [i]: one counter, the final state, out of the table, published. *)

Lemma end_inv R cfg c0 c ps ps' h h' evs evs' i r r1 r' f :
  core_inv R c0 ps h evs → c_reqs c0 !! i = Some r → i ∈ c_inflight c0 →
  (c_reqs c = c_reqs c0 ∨ ∃ r0, c_reqs c = <[i := r0]> (c_reqs c0)) →
  c_inflight c = c_inflight c0 ∖ {[i]} → c_log c = c_log c0 → c_notify c = c_notify c0 →
  c_stats c requests_accepted = c_stats c0 requests_accepted →
  ended_count (c_stats c) = ended_count (c_stats c0) → ends f →
  (∀ j, j ≠ i → out c evs' j = out c0 evs j ∧ nparts j ps' = nparts j ps
    ∧ nops j ps' = nops j ps ∧ hand h' j = hand h j) →
  Forall part_ok ps' → same_total r r1 → finished r1 r' →
  (i ∈ R ∨ out c evs' i = 0%nat ∧ nparts i ps' = 0%nat) →
  core_inv R (publish cfg i (put_req i r' (count f 1 c))) ps' h' evs'.
Proof.
  intros I Hr Hi E1 E2 E3 E4 E5 E6 Hf Hj Hp (Hs1 & Hs2 & Hs5) Hfin Z.
  destruct (terminal_same_total _ _ Hfin) as [(Hs3 & Hs4 & Hs6) T].
  destruct (publish_frame cfg i (put_req i r' (count f 1 c))) as (F1 & F2 & F3 & F4 & F5 & F6 & _).
  assert (O : ∀ j, out (publish cfg i (put_req i r' (count f 1 c))) evs' j = out c evs' j)
    by (intros; unfold out; by rewrite F6).
  eapply (core_inv_end _ _ _ _ _ _ _ _ _ i r r' I); auto.
  - rewrite F1, F2, F3, F4, F5. cbn. rewrite E2, E3, E4, ended_count_bump, E6 by done.
    rewrite bump_ne by (intros <-; by destruct Hf as [?|[?|?]]).
    split_and!; auto. destruct E1 as [->|(r0 & ->)]; [done|]. by rewrite insert_insert_eq.
  - intros j. rewrite O. auto.
  - split_and!; congruence.
  - by rewrite O.
Qed.

(** ** [part_done] *)

Lemma hand_self i : hand (Some i) i = 1%nat.
Proof. unfold hand. by rewrite decide_True. Qed.

Lemma hand_other i j : j ≠ i → hand (Some i) j = 0%nat.
Proof. unfold hand. intros. rewrite decide_False; congruence. Qed.

Lemma hand_none j : hand None j = 0%nat.
Proof. done. Qed.

(** What the invariant says of a request with work in hand or to be posted. *)

Lemma core_inv_known R c ps h evs i :
  core_inv R c ps h evs → (0 < nparts i ps + hand h i)%nat →
  ∃ r, c_reqs c !! i = Some r ∧ 0 < total_subops_ r
    ∧ (i ∈ c_inflight c → flight r (out c evs i) (nparts i ps) (nops i ps) (hand h i))
    ∧ (i ∉ c_inflight c → terminal_locked r = true).
Proof.
  intros I H. pose proof (ci_req _ _ _ _ _ I i) as Q.
  destruct (c_reqs c !! i) as [r|]; cbn in Q; [|lia]. destruct Q as (_ & Q1 & Q2 & _ & Q3).
  assert (0 < total_subops_ r) by (destruct (Z_lt_ge_dec 0 (total_subops_ r)); [done|];
    destruct Q3 as (? & ? & _); lia).
  exists r. naive_solver.
Qed.

Lemma abandoning_terminal r : terminal_locked r = true → abandoning r = true.
Proof. intros H. unfold abandoning. by rewrite H. Qed.

Lemma seal_if_idle_terminal r : terminal_locked r = true → snd (seal_if_idle r) = false.
Proof. intros H. unfold seal_if_idle. cbn. by rewrite H. Qed.

Ltac others := intros; cbn; rewrite ?hand_none, ?hand_other by done; done.

Lemma part_done_inv R cfg c ps evs i :
  core_inv R c ps (Some i) evs → core_inv R (part_done cfg i c) ps None evs.
Proof.
  intros I. destruct (core_inv_known _ _ _ _ _ i I) as (r & Hr & Ht & Hin & Hout);
    [rewrite hand_self; lia|]. unfold part_done. rewrite Hr, hand_self in *.
  pose proof (ci_parts _ _ _ _ _ I) as Hp.
  destruct (decide (i ∈ c_inflight c)) as [Hi|Hi].
  - pose proof (flight_part_done _ _ _ _ (Hin Hi) (nparts_0_nops i ps)) as F.
    destruct (part_finished r) as [r1 last]. destruct F as (S1 & T1 & F).
    destruct (negb last || negb (abandoning r1)).
    { eapply (core_inv_put _ _ _ _ _ _ _ _ _ i r r1 I); auto; [by cbn|others]. }
    destruct (seal_if_idle r1) as [r2 idle]. destruct F as (S2 & T2 & F).
    destruct idle.
    2:{ eapply (core_inv_put _ _ _ _ _ _ _ _ _ i r r2 I); auto; [|others].
        cbn. by rewrite insert_insert_eq. }
    destruct F as [Fo Fn]. unfold end_abandoned, claim. cbn.
    rewrite bool_decide_true by done. cbn. rewrite lookup_insert_eq.
    pose proof ends_cases as (? & ? & ?).
    destruct (cancel_requested r2); eapply (end_inv _ _ _ _ _ _ _ _ _ _ _ r r2 _ _ I); auto;
      try (cbn; eauto; fail); try others; try (unfold finished; eauto; fail);
      right; exists r2; cbn; by rewrite insert_insert_eq.
  - specialize (Hout Hi). assert (T1 : terminal_locked (fst (part_finished r)) = true) by done.
    assert (S1 : same_total r (fst (part_finished r))) by done.
    destruct (part_finished r) as [r1 last]. cbn [fst] in *.
    destruct (negb last || negb (abandoning r1)).
    { eapply (core_inv_ended _ _ _ _ _ _ _ _ _ i r r1 I); auto; [by cbn|others|congruence]. }
    pose proof (seal_if_idle_terminal r1 T1) as E. unfold seal_if_idle in *. cbn [snd] in E.
    rewrite E. eapply (core_inv_ended _ _ _ _ _ _ _ _ _ i r (seal_accepted r1) I); auto; [| others | ..].
    + cbn. by rewrite insert_insert_eq.
    + change (terminal_locked r1 = terminal_locked r). congruence.
Qed.

(** ** [post_ops] *)

Lemma nparts_self p ps : nparts (pd_req p) (p :: ps) = S (nparts (pd_req p) ps).
Proof. rewrite nparts_cons, decide_True by done. done. Qed.

Lemma nops_self p ps :
  nops (pd_req p) (p :: ps) = (length (pd_ops p) + nops (pd_req p) ps)%nat.
Proof. by rewrite nops_cons, decide_True. Qed.

Lemma parts_other p ps j :
  j ≠ pd_req p → nparts j (p :: ps) = nparts j ps ∧ nops j (p :: ps) = nops j ps.
Proof. intros. rewrite nparts_cons, nops_cons, !decide_False by done. done. Qed.

(** A piece of work of a request that is being abandoned is dropped. *)

Lemma drop_part_inv R cfg c p ps evs r :
  core_inv R c (p :: ps) None evs → c_reqs c !! pd_req p = Some r → abandoning r = true →
  core_inv R (part_done cfg (pd_req p) c) ps None evs.
Proof.
  intros I Hr A. apply part_done_inv.
  destruct (core_inv_known _ _ _ _ _ (pd_req p) I) as (r' & Hr' & Ht & Hin & Hout);
    [rewrite nparts_self; lia|]. assert (r' = r) as -> by congruence.
  pose proof (Forall_inv_tail (ci_parts _ _ _ _ _ I)) as Hp.
  assert (Hoth : ∀ j, j ≠ pd_req p → out c evs j = out c evs j ∧ nparts j ps = nparts j (p :: ps)
    ∧ nops j ps = nops j (p :: ps) ∧ hand (Some (pd_req p)) j = hand None j).
  { intros j Hj. destruct (parts_other p ps j Hj) as [-> ->]. by rewrite hand_other. }
  destruct (decide (pd_req p ∈ c_inflight c)) as [Hi|Hi].
  - eapply (core_inv_put _ _ _ _ _ _ _ _ _ (pd_req p) r r I); auto.
    + by rewrite insert_id.
    + done.
    + rewrite hand_self. specialize (Hin Hi). rewrite nparts_self, nops_self in Hin.
      eapply flight_take; eauto.
  - eapply (core_inv_ended _ _ _ _ _ _ _ _ _ (pd_req p) r r I); auto.
    + by rewrite insert_id.
    + done.
    + rewrite nparts_self. lia.
Qed.

(** The accounting of one [submit]. *)

Lemma submit_out c c' k prov conn ops j i n evs :
  c_providers c !! k = Some prov →
  c_providers c' = <[k := fst (submit prov conn (take n ops))]> (c_providers c) →
  Forall (fun op => op_request op = i) ops → (n <= length ops)%nat →
  out c' evs j = (out c evs j +
    if decide (i = j) then sr_accepted (snd (submit prov conn (take n ops))) else 0)%nat.
Proof.
  intros Hk Hc Hops Hn. unfold out. rewrite Hc.
  pose proof (total_out_insert _ k prov (fst (submit prov conn (take n ops))) j Hk) as T.
  rewrite submit_outstanding in T.
  pose proof (submit_accepts prov conn (take n ops)) as A. rewrite length_take in A.
  rewrite take_take, (count_req_take _ j i) in T by (auto; lia).
  rewrite Nat.min_l in T by lia. destruct (decide (i = j)); lia.
Qed.

Lemma live_inflight R c p ps evs r :
  core_inv R c (p :: ps) None evs → c_reqs c !! pd_req p = Some r → abandoning r = false →
  pd_req p ∈ c_inflight c
  ∧ flight r (out c evs (pd_req p)) (S (nparts (pd_req p) ps))
      (length (pd_ops p) + nops (pd_req p) ps) 0.
Proof.
  intros I Hr A.
  destruct (core_inv_known _ _ _ _ _ (pd_req p) I) as (r' & Hr' & Ht & Hin & Hout);
    [rewrite nparts_self; lia|]. assert (r' = r) as -> by congruence.
  destruct (decide (pd_req p ∈ c_inflight c)) as [Hi|Hi].
  - rewrite nparts_self, nops_self in Hin. auto.
  - specialize (Hout Hi). apply abandoning_terminal in Hout. congruence.
Qed.

Lemma submit_error_err (prov : P) p sr n : err_ok (submit_error prov p sr n) = false.
Proof. unfold err_ok, submit_error. cbn. by destruct (Status.ok (sr_status sr)) eqn:E. Qed.

(** [c'] is [c] after a submit accepted [a] sub-operations of [p]. *)

Definition posted (c c' : Core P D) (p : PendingSubmit) (evs : list CompletionEvent) (a : nat)
    (r1 : RequestImpl) : Prop :=
  (c_reqs c' = <[pd_req p := r1]> (c_reqs c) ∧ c_inflight c' = c_inflight c
   ∧ c_log c' = c_log c ∧ c_notify c' = c_notify c
   ∧ c_stats c' requests_accepted = c_stats c requests_accepted
   ∧ ended_count (c_stats c') = ended_count (c_stats c))
  ∧ ∀ j, out c' evs j = (out c evs j + if decide (pd_req p = j) then a else 0)%nat.

Lemma posted_more_inv R c c' p ps evs a r r1 :
  core_inv R c (p :: ps) None evs → c_reqs c !! pd_req p = Some r → pd_req p ∈ c_inflight c →
  posted c c' p evs a r1 → same_total r r1 → drop a (pd_ops p) ≠ [] →
  flight r1 (out c evs (pd_req p) + a) (S (nparts (pd_req p) ps))
    (length (pd_ops p) - a + nops (pd_req p) ps) 0 →
  core_inv R c' (set_ops (drop a (pd_ops p)) p :: ps) None evs.
Proof.
  intros I Hr Hi [Hs O] S1 Hd F1. pose proof (ci_parts _ _ _ _ _ I) as Hp.
  eapply (core_inv_put _ _ _ _ _ _ _ _ _ (pd_req p) r r1 I); auto.
  - intros j Hj. rewrite O, decide_False by congruence.
    destruct (parts_other p ps j Hj) as [-> ->].
    destruct (parts_other (set_ops (drop a (pd_ops p)) p) ps j Hj) as [-> ->].
    rewrite Nat.add_0_r. done.
  - inversion Hp as [|?? [? ?] ?]; subst. constructor; [|done]. split; [done|].
    by apply Forall_drop.
  - rewrite O, decide_True by done.
    change (pd_req p) with (pd_req (set_ops (drop a (pd_ops p)) p)).
    rewrite nparts_self, nops_self. cbn. rewrite length_drop. exact F1.
Qed.

Lemma posted_done_inv R cfg c c' p ps evs a r r1 :
  core_inv R c (p :: ps) None evs → c_reqs c !! pd_req p = Some r → pd_req p ∈ c_inflight c →
  posted c c' p evs a r1 → same_total r r1 →
  flight r1 (out c evs (pd_req p) + a) (S (nparts (pd_req p) ps))
    (length (pd_ops p) - a + nops (pd_req p) ps) 0 →
  (abandoning r1 = true ∨ length (pd_ops p) = a) →
  core_inv R (part_done cfg (pd_req p) c') ps None evs.
Proof.
  intros I Hr Hi [Hs O] S1 F1 Hd. apply part_done_inv.
  pose proof (ci_parts _ _ _ _ _ I) as Hp. inversion Hp as [|?? [Hne ?] ?]; subst.
  eapply (core_inv_put _ _ _ _ _ _ _ _ _ (pd_req p) r r1 I); auto.
  - intros j Hj. rewrite O, decide_False, Nat.add_0_r, hand_other by congruence.
    destruct (parts_other p ps j Hj) as [-> ->]. done.
  - rewrite O, decide_True, hand_self by done. eapply flight_take; [exact F1|].
    destruct Hd as [|E]; [auto|right]. destruct (pd_ops p); [done|]. cbn in *. lia.
Qed.

Lemma post_ops_inv R cfg c p ps max evs :
  core_inv R c (p :: ps) None evs →
  let '(c', rem) := post_ops cfg p max c in core_inv R c' (option_list rem ++ ps) None evs.
Proof.
  intros I. pose proof (Forall_inv (ci_parts _ _ _ _ _ I)) as [Hne Hreq].
  unfold post_ops. rewrite bool_decide_false by done.
  destruct (c_reqs c !! pd_req p) as [r|] eqn:Hr; [|done].
  destruct (abandoning r) eqn:A; [by eapply drop_part_inv|].
  destruct (live_inflight _ _ _ _ _ _ I Hr A) as [Hi F].
  set (k := match pd_provider p with Some k => k | None => 0%nat end).
  destruct (c_providers c !! k) as [prov|] eqn:Hk; [|done].
  pose proof (take_quantum_bounds max (pd_ops p) 0 0) as [Hq Hq1]. specialize (Hq1 Hne eq_refl).
  set (m := take_quantum max 0 0 (pd_ops p)) in *.
  pose proof (submit_accepts prov (pd_conn p) (take m (pd_ops p))) as Ha.
  pose proof (fun c' j Hc => submit_out c c' k prov (pd_conn p) (pd_ops p) j (pd_req p) m evs
    Hk Hc Hreq ltac:(lia)) as O.
  destruct (submit prov (pd_conn p) (take m (pd_ops p))) as [prov' sr]. cbn [fst snd] in *.
  rewrite length_take, Nat.min_l in * by lia. set (a := sr_accepted sr) in *.
  apply (flight_set_state RequestState.kInflight) in F; [|done].
  pose proof (flight_accept _ _ _ _ _ a F ltac:(lia)) as F1.
  set (r1 := add_accepted_subops (Z.of_nat a) (set_state RequestState.kInflight r)) in *.
  assert (S1 : same_total r r1) by (unfold r1, set_state; by destruct (_ || _)).
  destruct (bool_decide (a < m)%nat && _) eqn:E1; [|clear E1; case_bool_decide as E2].
  - b2p. apply bool_decide_eq_true in H.
    eapply posted_more_inv; [exact I|exact Hr|exact Hi| |exact S1| |exact F1].
    + split; [done|]. intros j. by apply O.
    + intros D0%(f_equal length). rewrite length_drop in D0. cbn in D0. lia.
  - cbn [pd_ops set_ops]. case_bool_decide as E3; cbn [negb].
    + apply (posted_done_inv _ _ _ _ p ps _ a r r1 I Hr Hi); [|exact S1|exact F1|].
      * split; [done|]. intros j. by apply O.
      * right. apply (f_equal length) in E3. rewrite length_drop in E3. cbn in E3. lia.
    + eapply posted_more_inv; [exact I|exact Hr|exact Hi| |exact S1|exact E3|exact F1].
      split; [done|]. intros j. by apply O.
  - match goal with |- context [note_error ?e r1] => set (err := e) end.
    destruct (note_error_frame err r1) as (_ & N1 & N2 & _ & _ & _ & _ & _ & N3 & _).
    apply (posted_done_inv _ _ _ _ p ps _ a r
      (set_state RequestState.kDraining (note_error err r1)) I Hr Hi);
      [| |by apply flight_set_state, flight_note_error|].
    + split; [|intros j; by apply O]. cbn. by rewrite insert_insert_eq.
    + destruct S1 as (? & ? & ?). unfold set_state.
      destruct (_ || _); split_and!; cbn; congruence.
    + left. rewrite abandoning_set_state by done. apply abandoning_err, note_error_sets.
      * apply F1.
      * apply submit_error_err.
Qed.

(** ** [drain_pending] *)

Lemma core_inv_perm R c ps ps' h evs :
  ps ≡ₚ ps' → core_inv R c ps h evs → core_inv R c ps' h evs.
Proof.
  intros Hp [H1 H2 H3 H4 H5 H6 H7 H8]. split; auto.
  - intros j. unfold nparts, nops.
    rewrite <- !(sum_list_with_Permutation _ ps ps' Hp). apply H1.
  - by rewrite <- Hp.
Qed.

Lemma drain_one_inv R cfg c p ps evs :
  core_inv R c (p :: ps) None evs →
  let '(c', rem) := drain_one cfg p c in core_inv R c' (option_list rem ++ ps) None evs.
Proof.
  intros I. unfold drain_one. destruct (c_reqs c !! pd_req p) as [r|] eqn:Hr; [|done].
  destruct (abandoning r) eqn:A; [by apply post_ops_inv|].
  destruct (dependency_state (pd_after p) (c_dev c)) as [d s].
  assert (I1 : core_inv R (with_dev d c) (p :: ps) None evs) by by eapply core_inv_frame.
  case_bool_decide; [done|]. destruct (negb (Status.ok s)); [|by apply post_ops_inv].
  apply post_ops_inv. destruct (live_inflight _ _ _ _ _ _ I Hr A) as [Hi F].
  destruct (note_error_frame (status_error s) r) as (_ & N1 & N2 & _ & _ & _ & _ & _ & N3 & _).
  eapply (core_inv_put _ _ _ _ _ _ _ _ _ (pd_req p) r _ I1); try done.
  - apply I.
  - rewrite nparts_self, nops_self. by apply flight_note_error.
Qed.

Lemma part_done_pending cfg i c : c_pending (part_done cfg i c) = c_pending c.
Proof.
  unfold part_done, end_abandoned. destruct (c_reqs c !! i); [|done].
  destruct (part_finished r) as [r1 last]. destruct (_ || _); [done|].
  destruct (seal_if_idle r1) as [r2 []]; [|done]. unfold claim. cbn.
  case_bool_decide; cbn; [|done]. rewrite lookup_insert_eq.
  destruct (cancel_requested r2);
    match goal with |- c_pending (publish _ _ ?x) = _ =>
      by destruct (publish_frame cfg i x) as (_ & _ & _ & _ & _ & _ & ->) end.
Qed.

Lemma post_ops_pending cfg p max c : c_pending (fst (post_ops cfg p max c)) = c_pending c.
Proof.
  unfold post_ops. case_bool_decide; [done|].
  destruct (c_reqs c !! _); [|done]. destruct (abandoning _); [apply part_done_pending|].
  destruct (c_providers c !! _); [|done]. destruct (submit _ _ _) as [p' sr].
  repeat (case_match; try done; cbn [fst]; rewrite ?part_done_pending).
Qed.

Lemma drain_one_pending cfg p c : c_pending (fst (drain_one cfg p c)) = c_pending c.
Proof.
  pose proof (post_ops_pending cfg p (cfg_scheduler_quantum_bytes cfg)) as G. unfold drain_one. destruct (c_reqs c !! _); [|done]. destruct (abandoning _); [apply G|].
  destruct (dependency_state _ _). case_bool_decide; [done|]. by destruct (negb _); rewrite G.
Qed.

Lemma drain_turn_inv R cfg turn c ps evs :
  core_inv R c (turn ++ ps) None evs →
  let '(c', waiting) := drain_turn cfg turn c in
  core_inv R c' (waiting ++ ps) None evs ∧ c_pending c' = c_pending c.
Proof.
  revert c ps. induction turn as [|p turn IH]; intros c ps I; [done|]. cbn [drain_turn].
  pose proof (drain_one_inv _ cfg _ _ _ _ I) as I1. pose proof (drain_one_pending cfg p c) as E.
  destruct (drain_one cfg p c) as [c1 rem]. cbn [fst] in E.
  specialize (IH c1 (option_list rem ++ ps)).
  destruct (drain_turn cfg turn c1) as [c2 waiting].
  destruct IH as [I2 E2]; [eapply core_inv_perm; [|exact I1]; solve_Permutation|].
  split; [|congruence]. eapply core_inv_perm; [|exact I2].
  destruct rem; cbn; solve_Permutation.
Qed.

(** [ps] are pieces of work in the hands of submitting threads. *)

Lemma drain_pending_inv R cfg c ps evs :
  core_inv R c (c_pending c ++ ps) None evs →
  core_inv R (drain_pending cfg c) (c_pending (drain_pending cfg c) ++ ps) None evs.
Proof.
  intros I. unfold drain_pending. case_bool_decide as E; [done|].
  set (cur := if bool_decide _ then 0%nat else c_rr c).
  set (c0 := with_rr _ _).
  pose proof (drain_turn_inv R cfg (drop cur (c_pending c) ++ take cur (c_pending c)) c0 ps evs)
    as H. destruct (drain_turn cfg _ c0) as [c1 waiting]. destruct H as [I1 E1].
  - eapply core_inv_perm; [|by eapply (core_inv_frame _ _ _ _ _ _ I)].
    rewrite (Permutation_app_comm (drop _ _)). by rewrite take_drop.
  - cbn. rewrite E1. cbn. by eapply (core_inv_frame _ _ _ _ _ _ I1).
Qed.

Lemma core_inv_quiet R c c' ps h evs :
  core_inv R c ps h evs → quiet c c' → core_inv R c' ps h evs.
Proof. intros I []. by eapply core_inv_frame. Qed.

Lemma core_inv_mono R R' c ps h evs :
  R ⊆ R' → core_inv R c ps h evs → core_inv R' c ps h evs.
Proof.
  intros HR [H1 H2 H3 H4 H5 H6 H7 H8]. split; auto. intros j. specialize (H1 j). unfold req_ok in *.
  destruct (c_reqs c !! j); [|done]. destruct H1 as (?&?&?&Hl&?). split_and!; auto.
  intros Hj. destruct (Hl Hj) as [? Hz]. split; [done|]. intros Hn. apply Hz. set_solver.
Qed.

(** ** Completions *)

Lemma out_cons c ev evs j :
  out c (ev :: evs) j = ((if decide (ev_request ev = j) then 1 else 0) + out c evs j)%nat.
Proof. unfold out, count_req. rewrite filter_cons. case_decide; cbn; lia. Qed.

(** [c] has the last completion of [r] applied and the request claimed. *)

Lemma finish_transfer_inv R cfg hd c0 c ps evs ev r0 r :
  core_inv R c0 ps None (ev :: evs) → c_reqs c0 !! ev_request ev = Some r0 →
  ev_request ev ∈ c_inflight c0 → c = with_inflight (c_inflight c0 ∖ {[ev_request ev]})
    (put_req (ev_request ev) r c0) →
  same_total r0 r → out c0 evs (ev_request ev) = 0%nat → nparts (ev_request ev) ps = 0%nat →
  core_inv R (finish_transfer cfg hd (ev_request ev) r c) ps None evs.
Proof.
  intros I Hr Hi -> S1 Ho Hn. pose proof ends_cases as (? & ? & ?).
  pose proof (ci_parts _ _ _ _ _ I) as Hp.
  assert (Hoth : ∀ j, j ≠ ev_request ev → out c0 evs j = out c0 (ev :: evs) j)
    by (intros j Hj; by rewrite out_cons, decide_False by (by intros <-; apply Hj)).
  unfold finish_transfer. destruct (cancel_requested r); [|destruct (negb _)].
  1-2: eapply (end_inv _ _ _ _ _ _ _ _ _ _ _ r0 r _ _ I); auto; try (cbn; eauto; fail);
    unfold finished; eauto.
  set (r2 := if (_ && _) then _ else _).
  set (c1 := put_req _ r2 _).
  pose proof (quiet_send_handoffs r2 (remote_targets (att_ r2)) c1) as Q.
  pose proof (fun evs j => quiet_out _ _ evs j Q) as F6. destruct Q as [F1 F2 F3 F4 F5 _ F7 F8].
  eapply (end_inv _ _ _ _ _ _ _ _ _ _ _ r0 r2 _ _ I); rewrite ?F1, ?F2, ?F3, ?F4, ?F7, ?F8;
    auto; try done.
  - right. exists r2. cbn. by rewrite insert_insert_eq.
  - intros j Hj. rewrite F6. by rewrite <- Hoth.
  - unfold r2. destruct S1 as (? & ? & ?). by destruct (_ && _).
  - unfold finished. auto.
  - right. by rewrite F6.
Qed.

Lemma on_event_inv R cfg hd c ps evs ev :
  core_inv R c ps None (ev :: evs) → core_inv R (on_event cfg hd c ev) ps None evs.
Proof.
  intros I. unfold on_event. set (i := ev_request ev).
  pose proof (ci_parts _ _ _ _ _ I) as Hp.
  assert (Hoth : ∀ j, j ≠ i → out c evs j = out c (ev :: evs) j)
    by (intros j Hj; by rewrite out_cons, decide_False by (by intros <-; apply Hj)).
  assert (Hself : out c (ev :: evs) i = S (out c evs i)) by (by rewrite out_cons, decide_True).
  pose proof (ci_req _ _ _ _ _ I i) as Q. rewrite Hself in Q.
  destruct (c_reqs c !! i) as [r|] eqn:Hr; [|cbn in Q; lia].
  case_bool_decide as Hi; cbn [negb].
  - destruct Q as (_ & Q & _). destruct (Q Hi) as [_ F].
    pose proof (flight_event ev _ _ _ _ F (nparts_le_nops i ps Hp)) as E.
    destruct (on_subop_complete ev r) as [r1 last]. destruct E as (S1 & T1 & E).
    destruct last; cbn [negb].
    + unfold claim. cbn. rewrite bool_decide_true by done. cbn [negb].
      eapply (finish_transfer_inv _ _ _ _ _ _ _ _ r r1 I); auto; apply E.
    + eapply (core_inv_put _ _ _ _ _ _ _ _ _ i r r1 I); auto; [by cbn|].
      intros j Hj. cbn. by rewrite <- Hoth.
  - destruct Q as (_ & _ & _ & _ & Q).
    eapply (core_inv_ended _ _ _ _ _ _ _ _ _ i r r I); auto; try done.
    + destruct (Z_lt_ge_dec 0 (total_subops_ r)); [done|]. destruct Q as (_ & _ & ?); lia.
    + by rewrite insert_id.
    + lia.
Qed.

Lemma on_events_inv R cfg hd c ps evs evs' :
  core_inv R c ps None (evs ++ evs') →
  core_inv R (foldl (on_event cfg hd) c evs) ps None evs'.
Proof.
  revert c. induction evs as [|ev evs IH]; intros c I; [done|]. cbn [foldl].
  apply IH. by apply on_event_inv.
Qed.

Lemma poll_all_out cfg (ps : list P) i :
  let '(ps', _, evs) := poll_all cfg ps in
  total_out ps i = (total_out ps' i + count_req ev_request i evs)%nat.
Proof.
  induction ps as [|p ps IH]; [done|]. cbn [poll_all].
  pose proof (poll_outstanding p (cfg_cq_batch cfg) i) as E.
  destruct (poll p (cfg_cq_batch cfg)) as [p' [s b]]. destruct (poll_all cfg ps) as [[ps' s'] b'].
  cbn [fst snd] in *. unfold total_out in *. cbn [sum_list_with]. unfold count_req in *.
  rewrite list.filter_app, length_app. lia.
Qed.

Lemma poll_events_inv R cfg hd c ps :
  core_inv R c ps None [] → core_inv R (fst (poll_completion_events cfg hd c)) ps None [].
Proof.
  intros I. unfold poll_completion_events. pose proof (poll_all_out cfg (c_providers c)) as E.
  destruct (poll_all cfg (c_providers c)) as [[ps' s] evs]. cbn [fst].
  apply on_events_inv. rewrite app_nil_r. destruct I as [H1 H2 H3 H4 H5 H6 H7 H8]. split; auto.
  intros j. specialize (H1 j). unfold out in *. cbn [c_providers with_providers].
  rewrite E in H1. unfold count_req at 2 in H1. cbn in H1. by rewrite Nat.add_0_r in H1.
Qed.

End Inv.
