(* ===== verification/EngineMemory.v ===== *)
(** * The engine's memory: registration, its cache, deregistration
    ([EngineImpl::register_memory], [find_registration], [cache_registration],
    [deregister_memory], [release_cached_registrations]).

    A [Registration] is an object shared by the handles over its range and the
    cache, and is given back to the providers by whichever of them lets go of
    it last.  The reference count is not stored: it is the number of live
    handles that refer to the registration, plus one for the cache. *)

From stdpp Require Import base list gmap strings numbers.
From S2P Require Import Prelude Types Wire Region Provider Request EngineCore.

(** The device backend, as far as registration asks it. *)

Record DeviceBackend : Type := mkDeviceBackend {
  db_probe_pointer : Z → option (DeviceId * MemoryKind.t);
  db_max_registration_bytes : Z
}.

(** A live registration: what it covers, and what its deleter gives back. *)

Record RegEntry : Type := mkRegEntry {
  rg_reg : Registration;
  rg_held : list (nat * Z)
}.

Record Memory : Type := mkMemory {
  m_objs : gmap Z MemoryRegionImpl;
  m_reg_of : gmap Z Z;
  m_table : gset Z;
  m_regs : gmap Z RegEntry;
  m_cache : list Z;
  m_next_region : Z;
  m_next_reg : Z;
  m_generation : Z
}.

Definition with_objs (x : gmap Z MemoryRegionImpl) (m : Memory) : Memory :=
  mkMemory x (m_reg_of m) (m_table m) (m_regs m) (m_cache m) (m_next_region m)
    (m_next_reg m) (m_generation m).

Definition with_table (x : gset Z) (m : Memory) : Memory :=
  mkMemory (m_objs m) (m_reg_of m) x (m_regs m) (m_cache m) (m_next_region m)
    (m_next_reg m) (m_generation m).

Definition with_regs (x : gmap Z RegEntry) (m : Memory) : Memory :=
  mkMemory (m_objs m) (m_reg_of m) (m_table m) x (m_cache m) (m_next_region m)
    (m_next_reg m) (m_generation m).

Definition with_cache (x : list Z) (m : Memory) : Memory :=
  mkMemory (m_objs m) (m_reg_of m) (m_table m) (m_regs m) x (m_next_region m)
    (m_next_reg m) (m_generation m).

(** [find_region]. *)

Definition find_region (m : Memory) (i : Z) : option MemoryRegionImpl :=
  if bool_decide (i ∈ m_table m) then m_objs m !! i else None.

(** The handles that refer to registration [g]. *)

Definition handles_of (m : Memory) (g : Z) : list Z :=
  fst <$> filter (fun kv => snd kv = g) (map_to_list (m_reg_of m)).

(** [use_count() == 1] for an entry of the cache: nothing but the cache holds
    it.  [local] is the registration a caller up the stack still holds. *)

Definition unused (m : Memory) (local : option Z) (g : Z) : bool :=
  bool_decide (handles_of m g = []) && negb (bool_decide (local = Some g)).

Section Memory.
Context {P D : Type} `{!TransportProvider P}.
Implicit Types c : Core P D.

(** ** Giving registrations back *)

Fixpoint deregister_held (held : list (nat * Z)) (ps : list P) : list P :=
  match held with
  | [] => ps
  | (k, lkey) :: held =>
      deregister_held held
        match ps !! k with
        | Some p => <[k := fst (deregister_region p lkey)]> ps
        | None => ps
        end
  end.

(** The deleter of registration [g]. *)

Definition release (g : Z) (cm : Core P D * Memory) : Core P D * Memory :=
  let '(c, m) := cm in
  match m_regs m !! g with
  | None => (c, m)
  | Some e =>
      (with_providers (deregister_held (rg_held e) (c_providers c)) c,
       with_regs (delete g (m_regs m)) m)
  end.

Definition release_all (gs : list Z) (cm : Core P D * Memory) : Core P D * Memory :=
  foldl (fun cm g => release g cm) cm gs.

(** ** The cache *)

Definition find_registration (m : Memory) (addr len : Z) (dev : DeviceId) (access : AccessFlags)
    : option Z :=
  find (fun g =>
    match m_regs m !! g with
    | Some e => registration_covers (rg_reg e) addr len dev access
    | None => false
    end) (m_cache m).

(** The first entry [f] accepts, and the list without it. *)

Fixpoint take_first (f : Z → bool) (l : list Z) : option (Z * list Z) :=
  match l with
  | [] => None
  | g :: l =>
      if f g then Some (g, l)
      else match take_first f l with Some (x, l') => Some (x, g :: l') | None => None end
  end.

(** [while (reg_cache_.size() > bound)]: each turn drops one entry, so the
    length is enough fuel. *)

Fixpoint evict_loop (fuel : nat) (bound : Z) (f : Z → bool) (cache : list Z)
    : list Z * list Z :=
  match fuel with
  | O => (cache, [])
  | S fuel =>
      if Z.of_nat (length cache) <=? bound then (cache, [])
      else
        match take_first f cache with
        | None => (cache, [])
        | Some (g, cache) =>
            let '(cache, evicted) := evict_loop fuel bound f cache in (cache, g :: evicted)
        end
  end.

Definition cache_registration (cfg : EngineConfig) (g : Z) (cm : Core P D * Memory)
    : Core P D * Memory :=
  let '(c, m) := cm in
  let cache := m_cache m ++ [g] in
  let '(cache, evicted) :=
    evict_loop (length cache) (cfg_registration_cache_entries cfg) (unused m (Some g)) cache in
  release_all evicted (c, with_cache cache m).

Definition release_cached_registrations (cm : Core P D * Memory) : (Core P D * Memory) * Z :=
  let '(c, m) := cm in
  let dropped := filter (fun g => unused m None g = true) (m_cache m) in
  let kept := filter (fun g => unused m None g = false) (m_cache m) in
  (release_all dropped (c, with_cache kept m), wrap32 (Z.of_nat (length dropped))).

(** ** Registering *)

(** Every provider in turn; one that refuses contributes no key. *)

Fixpoint register_all (k : nat) (ps : list P) (addr len : Z) (dev : DeviceId)
    (access : AccessFlags) (first_error : Status.t)
    : list P * list Key * list (nat * Z) * Status.t :=
  match ps with
  | [] => ([], [], [], first_error)
  | p :: ps =>
      let '(p', (s, lkey, rkey)) := register_region p addr len dev access in
      if negb (Status.ok s) then
        let '(ps, keys, held, fe) := register_all (S k) ps addr len dev access
          (if Status.ok first_error then s else first_error) in
        (p' :: ps, keys, held, fe)
      else
        let '(ps, keys, held, fe) := register_all (S k) ps addr len dev access first_error in
        (p' :: ps, mkKey (cap_name (caps p')) lkey rkey :: keys, (k, lkey) :: held, fe)
  end.

(** A handle over registration [g]. *)

Definition add_handle (origin : Identity) (addr len : Z) (dev : DeviceId) (mem : MemoryKind.t)
    (access : AccessFlags) (g : Z) (reg : Registration) (m : Memory) : Memory * Z :=
  let i := m_next_region m in
  (mkMemory
     (<[i := mkMemoryRegion origin i (m_generation m) addr len dev mem access reg false]> (m_objs m))
     (<[i := g]> (m_reg_of m)) ({[i]} ∪ m_table m) (m_regs m) (m_cache m) (i + 1)
     (m_next_reg m) (m_generation m), i).

Definition add_registration (e : RegEntry) (m : Memory) : Memory * Z :=
  let g := m_next_reg m in
  (mkMemory (m_objs m) (m_reg_of m) (m_table m) (<[g := e]> (m_regs m)) (m_cache m)
     (m_next_region m) (g + 1) (m_generation m), g).

Definition register_memory (cfg : EngineConfig) (device : option DeviceBackend)
    (origin : Identity) (addr len : Z) (access : AccessFlags) (cm : Core P D * Memory)
    : (Core P D * Memory) * (Status.t * option Z) :=
  let '(c, m) := cm in
  if (addr =? 0) || (len =? 0) then (cm, (Status.kInvalidArgument, None))
  else
    let '(dev, mem) :=
      match device with
      | Some d => match db_probe_pointer d addr with
                  | Some x => x
                  | None => (cfg_device cfg, MemoryKind.kHostPageable)
                  end
      | None => (cfg_device cfg, MemoryKind.kHostPageable)
      end in
    let cap := match device with Some d => db_max_registration_bytes d | None => 0 end in
    if negb (cap =? 0) && (cap <? len) then (cm, (Status.kResourceExhausted, None))
    else
      match find_registration m addr len dev access with
      | Some g =>
          match m_regs m !! g with
          | None => (cm, (Status.kInternal, None))
          | Some e =>
              let '(m, i) := add_handle origin addr len dev mem access g (rg_reg e) m in
              ((count registrations_reused 1 c, m), (Status.kOk, Some i))
          end
      | None =>
          let c := count registrations_created 1 c in
          let '(ps, keys, held, fe) :=
            register_all 0 (c_providers c) addr len dev access Status.kOk in
          let c := with_providers ps c in
          match keys with
          | [] => ((c, m), (if Status.ok fe then Status.kUnsupported else fe, None))
          | k0 :: _ =>
              let reg := mkRegistration addr len dev access keys (k_local_key k0)
                (k_remote_key k0) in
              let '(m, g) := add_registration (mkRegEntry reg held) m in
              let '(c, m) :=
                if 0 <? cfg_registration_cache_entries cfg
                then cache_registration cfg g (c, m) else (c, m) in
              let '(m, i) := add_handle origin addr len dev mem access g reg m in
              ((c, m), (Status.kOk, Some i))
          end
      end.

(** ** Deregistering *)

(** Whether a request in flight uses handle [i]. *)

(** One result per item; a failure keeps the others. *)

Fixpoint register_each (cfg : EngineConfig) (device : option DeviceBackend) (origin : Identity)
    (ranges : list (Z * Z)) (access : AccessFlags) (cm : Core P D * Memory)
    : (Core P D * Memory) * list (Status.t * option Z) :=
  match ranges with
  | [] => (cm, [])
  | (addr, len) :: ranges =>
      let '(cm, r) := register_memory cfg device origin addr len access cm in
      let '(cm, rs) := register_each cfg device origin ranges access cm in (cm, r :: rs)
  end.

Definition register_memory_batch (cfg : EngineConfig) (device : option DeviceBackend)
    (origin : Identity) (addrs lengths : list Z) (access : AccessFlags) (cm : Core P D * Memory)
    : (Core P D * Memory) * (Status.t * list (Status.t * option Z)) :=
  if negb (bool_decide (length addrs = length lengths)) then (cm, (Status.kInvalidArgument, []))
  else
    let '(cm, rs) := register_each cfg device origin (zip addrs lengths) access cm in
    (cm, (Status.kOk, rs)).

Definition region_busy (c : Core P D) (i : Z) : bool :=
  existsb (fun j =>
    match c_reqs c !! j with
    | Some r => bool_decide (i ∈ held_regions (att_ r))
    | None => false
    end) (elements (c_inflight c)).

(** Broadcasts over every provider: those that could not are returned. *)

Fixpoint broadcast_all (k : nat) (ps : list P) (type : Z) (payload : list Z)
    : list P * Z * Z * list nat :=
  match ps with
  | [] => ([], 0, 0, [])
  | p :: ps =>
      let '(p, (s, sent, refused)) := broadcast_control p type payload in
      let '(ps, sent', refused', rest) := broadcast_all (S k) ps type payload in
      if Status.ok s then (p :: ps, sent + sent', refused + refused', rest)
      else (p :: ps, sent', refused', k :: rest)
  end.

(** The peers of the transports that could not broadcast, one by one:
    [(connected, provider, conn)] of each. *)

Fixpoint tell_peers (peers : list (bool * nat * ConnId)) (one_by_one : list nat) (type : Z)
    (payload : list Z) (ps : list P) : list P * Z * Z :=
  match peers with
  | [] => (ps, 0, 0)
  | (connected, k, conn) :: peers =>
      if negb connected || negb (bool_decide (k ∈ one_by_one))
      then tell_peers peers one_by_one type payload ps
      else
        match ps !! k with
        | None => tell_peers peers one_by_one type payload ps
        | Some p =>
            let '(p, s) := send_control p (Some conn) type payload in
            let '(ps, sent, refused) :=
              tell_peers peers one_by_one type payload (<[k := p]> ps) in
            if Status.ok s then (ps, sent + 1, refused) else (ps, sent, refused + 1)
        end
  end.

Definition deregister_memory (peers : list (bool * nat * ConnId)) (i : Z)
    (cm : Core P D * Memory) : (Core P D * Memory) * Status.t :=
  let '(c, m) := cm in
  match m_objs m !! i with
  | None => (cm, Status.kInvalidArgument)
  | Some lr =>
      let m := with_objs (<[i := retire lr]> (m_objs m)) m in
      if region_busy c i then ((c, m), Status.kWouldBlock)
      else
        let m := with_table (m_table m ∖ {[i]}) m in
        let payload := encode_region_invalidate
          (mkRegionInvalidateBody (mr_id lr) (mr_gen lr) true (mr_origin lr)) in
        let '(ps, sent, refused, one_by_one) :=
          broadcast_all 0 (c_providers c) ControlType.kRegionInvalidate payload in
        let '(ps, sent', refused') :=
          tell_peers peers one_by_one ControlType.kRegionInvalidate payload ps in
        ((count region_invalidates_failed (refused + refused')
            (count region_invalidates_sent (sent + sent') (with_providers ps c)), m), Status.kOk)
  end.

(** The last reference to handle [i] goes: the table and the requests in
    flight have let go of it, and so has the application.  Its registration
    follows if nothing else holds it. *)

Definition forget_region (i : Z) (cm : Core P D * Memory) : Core P D * Memory :=
  let '(c, m) := cm in
  if bool_decide (i ∈ m_table m) || region_busy c i then cm
  else
    match m_reg_of m !! i with
    | None => cm
    | Some g =>
        let m := mkMemory (delete i (m_objs m)) (delete i (m_reg_of m)) (m_table m) (m_regs m)
          (m_cache m) (m_next_region m) (m_next_reg m) (m_generation m) in
        if bool_decide (g ∈ m_cache m) || negb (bool_decide (handles_of m g = []))
        then (c, m) else release g (c, m)
    end.

End Memory.

Set Warnings "-clear-no-such-hyp".

(** ** The invariant *)

(** [gs] are registrations on their way back to the providers. *)

Record mem_inv (m : Memory) (gs : list Z) : Prop := mkMemInv {
  mi_handle : ∀ i g, m_reg_of m !! i = Some g →
    ∃ lr e, m_objs m !! i = Some lr ∧ m_regs m !! g = Some e ∧ mr_reg lr = rg_reg e
      ∧ mr_id lr = i
      ∧ registration_covers (mr_reg lr) (mr_base lr) (mr_length lr) (mr_dev lr) (mr_access lr)
        = true;
  mi_objs : ∀ i lr, m_objs m !! i = Some lr → is_Some (m_reg_of m !! i);
  mi_table : ∀ i, i ∈ m_table m → is_Some (m_objs m !! i);
  mi_nodup : NoDup (m_cache m ++ gs);
  mi_cached : ∀ g, g ∈ m_cache m ++ gs → is_Some (m_regs m !! g);
  mi_unheld : ∀ g, g ∈ gs → handles_of m g = [];
  mi_no_leak : ∀ g, is_Some (m_regs m !! g) →
    g ∈ m_cache m ∨ g ∈ gs ∨ handles_of m g ≠ [];
  mi_fresh_region : ∀ i, is_Some (m_reg_of m !! i) → i < m_next_region m;
  mi_fresh_reg : ∀ g, is_Some (m_regs m !! g) → g < m_next_reg m
}.

Lemma handles_of_nil m g : handles_of m g = [] ↔ ∀ i, m_reg_of m !! i ≠ Some g.
Proof.
  unfold handles_of. split.
  - intros H i Hi. apply fmap_nil_inv in H.
    assert (In : (i, g) ∈ filter (fun kv => snd kv = g) (map_to_list (m_reg_of m))).
    { apply list_elem_of_filter. split; [done|]. by apply elem_of_map_to_list. }
    rewrite H in In. by apply not_elem_of_nil in In.
  - intros H. destruct (filter _ _) as [|[i g'] l] eqn:E; [done|].
    assert (In : (i, g') ∈ filter (fun kv => snd kv = g) (map_to_list (m_reg_of m)))
      by (rewrite E; apply list_elem_of_here).
    apply list_elem_of_filter in In as [Hg In]. cbn in Hg. subst.
    apply elem_of_map_to_list in In. by destruct (H i).
Qed.

Lemma handles_of_ext m m' g : m_reg_of m = m_reg_of m' → handles_of m g = handles_of m' g.
Proof. unfold handles_of. by intros ->. Qed.

Section MemoryInv.
Context {P D : Type} `{!TransportProvider P}.
Implicit Types c : Core P D.

Lemma take_first_spec f l x l' :
  take_first f l = Some (x, l') → f x = true ∧ l ≡ₚ x :: l'.
Proof.
  revert l'. induction l as [|y l IH]; intros l'; cbn [take_first]; [done|].
  destruct (f y) eqn:E; [by intros [= <- <-]|].
  destruct (take_first f l) as [[z l2]|]; [|done]. intros [= <- <-].
  destruct (IH l2 eq_refl) as [Hf Hp]. split; [done|]. rewrite Hp. apply Permutation_swap.
Qed.

Lemma take_first_none f l : take_first f l = None → Forall (fun x => f x = false) l.
Proof.
  induction l as [|y l IH]; cbn [take_first]; [constructor|].
  destruct (f y) eqn:E; [done|]. destruct (take_first f l) as [[]|]; [done|]. auto.
Qed.

Lemma evict_loop_spec fuel bound f cache :
  let '(kept, evicted) := evict_loop fuel bound f cache in
  cache ≡ₚ kept ++ evicted ∧ Forall (fun x => f x = true) evicted
  ∧ ((length cache <= fuel)%nat → 0 <= bound →
      Z.of_nat (length kept) <= bound ∨ Forall (fun x => f x = false) kept).
Proof.
  revert cache. induction fuel as [|fuel IH]; intros cache; cbn [evict_loop].
  - rewrite app_nil_r. split_and!; [done|constructor|]. destruct cache; cbn; [auto|lia].
  - destruct (_ <=? _) eqn:E; b2p.
    { rewrite app_nil_r. split_and!; [done|constructor|auto]. }
    destruct (take_first f cache) as [[g rest]|] eqn:T.
    + apply take_first_spec in T as [Hg Hp]. specialize (IH rest).
      destruct (evict_loop fuel bound f rest) as [kept ev]. destruct IH as (P1 & P2 & P3).
      split_and!; [|by constructor|].
      * rewrite Hp, P1. apply Permutation_middle.
      * intros Hl Hb. apply P3; [|done]. apply Permutation_length in Hp. cbn in Hp. lia.
    + apply take_first_none in T. rewrite app_nil_r. split_and!; [done|constructor|auto].
Qed.

(** Giving back a registration nothing holds. *)

Lemma release_inv g gs c m :
  mem_inv m (g :: gs) → mem_inv (snd (release g (c, m))) gs.
Proof.
  intros I. pose proof (mi_cached _ _ I g ltac:(set_solver)) as [e He].
  pose proof (mi_unheld _ _ I g ltac:(set_solver)) as Hu. rewrite handles_of_nil in Hu.
  assert (Hnd : (g ∉ m_cache m) ∧ (g ∉ gs)).
  { pose proof (mi_nodup _ _ I) as N. rewrite <- Permutation_middle in N.
    apply list.NoDup_cons in N as [N _]. set_solver. }
  unfold release. rewrite He. cbn [snd]. destruct I as [H1 H2 H3 H4 H5 H6 H7 H8 H9].
  split; cbn; auto.
  - intros i g' Hi. destruct (H1 i g' Hi) as (lr & e' & ? & ? & ?).
    exists lr, e'. split; [done|]. rewrite lookup_delete_ne; [done|]. intros ->. by apply (Hu i).
  - rewrite <- Permutation_middle in H4. by apply list.NoDup_cons in H4 as [_ H4].
  - intros g' Hg'. rewrite lookup_delete_ne; [apply H5; set_solver|]. set_solver.
  - intros g' Hg'. rewrite (handles_of_ext _ m) by done. apply H6. set_solver.
  - intros g' Hg'. destruct (decide (g = g')) as [->|Hne].
    + rewrite lookup_delete_eq in Hg'. by destruct Hg'.
    + rewrite lookup_delete_ne in Hg' by done. rewrite (handles_of_ext _ m) by done.
      destruct (H7 g' Hg') as [?|[?|?]]; set_solver.
  - intros g' Hg'. apply H9. destruct (decide (g = g')) as [->|Hne].
    + rewrite lookup_delete_eq in Hg'. by destruct Hg'.
    + by rewrite lookup_delete_ne in Hg'.
Qed.

Lemma release_all_inv gs c m :
  mem_inv m gs → mem_inv (snd (release_all gs (c, m))) [].
Proof.
  revert c m. induction gs as [|g gs IH]; intros c m I; [done|]. unfold release_all. cbn [foldl].
  pose proof (release_inv g gs c m I) as I1. destruct (release g (c, m)) as [c1 m1]. by apply IH.
Qed.

(** Taking entries out of the cache that nothing else holds. *)

Lemma uncache_inv m kept gs :
  mem_inv m [] → m_cache m ≡ₚ kept ++ gs → (∀ g, g ∈ gs → handles_of m g = []) →
  mem_inv (with_cache kept m) gs.
Proof.
  intros [H1 H2 H3 H4 H5 H6 H7 H8 H9] Hp Hu. rewrite app_nil_r in *. split; cbn; auto.
  - by rewrite <- Hp.
  - intros g. rewrite <- Hp. apply H5.
  - intros g Hg. destruct (H7 g Hg) as [Hc|[Hc|Hc]]; [|by apply not_elem_of_nil in Hc|auto].
    rewrite Hp in Hc. set_solver.
Qed.

Lemma release_cached_inv c m :
  mem_inv m [] → mem_inv (snd (fst (release_cached_registrations (c, m)))) [].
Proof.
  intros I. unfold release_cached_registrations. cbn [fst]. apply release_all_inv.
  apply uncache_inv; [done| |].
  - clear I. induction (m_cache m) as [|g l IH]; [done|]. rewrite !filter_cons.
    destruct (unused m None g); cbn; rewrite IH at 1; solve_Permutation.
  - intros g Hg. apply list_elem_of_filter in Hg as [Hg _]. unfold unused in Hg. b2p.
    by apply bool_decide_eq_true in H.
Qed.

Lemma release_all_lookup gs c m g :
  g ∉ gs → m_regs (snd (release_all gs (c, m))) !! g = m_regs m !! g.
Proof.
  revert c m. induction gs as [|g' gs IH]; intros c m Hg; [done|]. unfold release_all. cbn [foldl].
  unfold release at 2. destruct (m_regs m !! g') as [e|] eqn:He;
    fold (release_all (P := P) (D := D) gs); unfold release_all in IH; rewrite IH by set_solver;
    [|done].
  cbn. rewrite lookup_delete_ne by set_solver. done.
Qed.

Lemma cache_registration_inv cfg g c m e :
  mem_inv m [g] → m_regs m !! g = Some e →
  mem_inv (snd (cache_registration cfg g (c, m))) []
  ∧ m_regs (snd (cache_registration cfg g (c, m))) !! g = Some e.
Proof.
  intros I He. unfold cache_registration.
  pose proof (evict_loop_spec (length (m_cache m ++ [g])) (cfg_registration_cache_entries cfg)
    (unused m (Some g)) (m_cache m ++ [g])) as S.
  destruct (evict_loop _ _ _ _) as [kept ev]. destruct S as (S1 & S2 & _).
  assert (I0 : mem_inv (with_cache (m_cache m ++ [g]) m) []).
  { destruct I as [H1 H2 H3 H4 H5 H6 H7 H8 H9]. split; cbn; rewrite ?app_nil_r; auto.
    - intros x Hx. by apply not_elem_of_nil in Hx.
    - intros x Hx. destruct (H7 x Hx) as [?|[?|?]]; set_solver. }
  rewrite list.Forall_forall in S2.
  split.
  - apply release_all_inv.
    apply (uncache_inv (with_cache (m_cache m ++ [g]) m) kept ev I0 S1).
    intros x Hx. specialize (S2 x Hx). cbn in S2. unfold unused in S2. b2p.
    by apply bool_decide_eq_true in H.
  - rewrite release_all_lookup; [done|]. intros Hg. specialize (S2 g Hg). cbn in S2.
    unfold unused in S2. rewrite (bool_decide_true (Some g = Some g)) in S2 by done.
    by rewrite andb_false_r in S2.
Qed.

Lemma add_registration_inv m e :
  mem_inv m [] → mem_inv (fst (add_registration e m)) [m_next_reg m]
    ∧ m_regs (fst (add_registration e m)) !! m_next_reg m = Some e.
Proof.
  intros [H1 H2 H3 H4 H5 H6 H7 H8 H9]. rewrite app_nil_r in *. unfold add_registration.
  assert (Fr : m_regs m !! m_next_reg m = None).
  { destruct (m_regs m !! m_next_reg m) eqn:E; [|done]. specialize (H9 (m_next_reg m)).
    rewrite E in H9. specialize (H9 ltac:(eauto)). lia. }
  assert (Fu : ∀ i, m_reg_of m !! i ≠ Some (m_next_reg m)).
  { intros i Hi. destruct (H1 _ _ Hi) as (lr & e' & _ & He & _). congruence. }
  split; [|by cbn; rewrite lookup_insert_eq]. split; cbn; auto.
  - intros i g Hi. destruct (H1 i g Hi) as (lr & e' & ? & ? & ?). exists lr, e'.
    split; [done|]. rewrite lookup_insert_ne; [done|]. intros <-. by apply (Fu i).
  - apply list.NoDup_app. split; [done|]. split; [|apply NoDup_singleton].
    intros x Hx Hx'. apply list_elem_of_singleton in Hx' as ->. destruct (H5 _ Hx). congruence.
  - intros g Hg. apply elem_of_app in Hg as [Hg| ->%list_elem_of_singleton].
    + destruct (decide (g = m_next_reg m)) as [->|]; [rewrite lookup_insert_eq; eauto|].
      rewrite lookup_insert_ne by done. auto.
    + rewrite lookup_insert_eq. eauto.
  - intros g ->%list_elem_of_singleton. apply handles_of_nil. done.
  - intros g Hg. destruct (decide (g = m_next_reg m)) as [->|Hne]; [set_solver|].
    rewrite lookup_insert_ne in Hg by done.
    destruct (H7 g Hg) as [?|[?|?]]; [auto|set_solver|auto].
  - intros g Hg. destruct (decide (g = m_next_reg m)) as [->|Hne]; [lia|].
    rewrite lookup_insert_ne in Hg by done. specialize (H9 g Hg). lia.
Qed.

Lemma add_handle_inv origin addr len dev mem access g e m gs :
  mem_inv m gs → (∀ x, x ∈ gs → x = g) → m_regs m !! g = Some e →
  registration_covers (rg_reg e) addr len dev access = true →
  mem_inv (fst (add_handle origin addr len dev mem access g (rg_reg e) m)) [].
Proof.
  intros [H1 H2 H3 H4 H5 H6 H7 H8 H9] Hgs He Hcov. unfold add_handle. cbn [fst].
  assert (Fr : m_reg_of m !! m_next_region m = None).
  { destruct (m_reg_of m !! m_next_region m) eqn:E; [|done]. specialize (H8 (m_next_region m)).
    rewrite E in H8. specialize (H8 ltac:(eauto)). lia. }
  split; cbn; rewrite ?app_nil_r.
  - intros i g' Hi. destruct (decide (i = m_next_region m)) as [->|Hne].
    + rewrite lookup_insert_eq in Hi. injection Hi as <-. rewrite lookup_insert_eq.
      eexists _, e. split; [done|]. split; [done|]. done.
    + rewrite lookup_insert_ne in Hi by done.
      destruct (H1 i g' Hi) as (lr & e' & ? & ?). exists lr, e'. by rewrite lookup_insert_ne.
  - intros i lr Hi. destruct (decide (i = m_next_region m)) as [->|Hne];
      [rewrite lookup_insert_eq; eauto|].
    rewrite lookup_insert_ne in Hi by done. rewrite lookup_insert_ne by done. eauto.
  - intros i Hi. destruct (decide (i = m_next_region m)) as [->|Hne];
      [rewrite lookup_insert_eq; eauto|]. rewrite lookup_insert_ne by done. apply H3. set_solver.
  - by apply list.NoDup_app in H4 as [? _].
  - intros x Hx. apply H5. set_solver.
  - intros x Hx. by apply not_elem_of_nil in Hx.
  - intros x Hx. destruct (decide (x = g)) as [->|Hne].
    + right; right. rewrite handles_of_nil. intros Hn. apply (Hn (m_next_region m)). cbn.
      apply lookup_insert_eq.
    + destruct (H7 x Hx) as [?|[Hin|Hh]]; [auto|by destruct Hne; auto|]. right; right.
      rewrite handles_of_nil in *. intros Hn. apply Hh. intros i Hi. apply (Hn i). cbn.
      rewrite lookup_insert_ne; [done|]. intros <-. congruence.
  - intros i Hi. destruct (decide (i = m_next_region m)) as [->|Hne]; [lia|].
    rewrite lookup_insert_ne in Hi by done. specialize (H8 i Hi). lia.
  - auto.
Qed.

(** A registration covers the range it was made for. *)

Lemma covers_self addr len dev access keys lk rk :
  u64 len → u32 access → 0 <= addr →
  registration_covers (mkRegistration addr len dev access keys lk rk) addr len dev access = true.
Proof.
  intros Hl Ha H0. unfold registration_covers. cbn.
  rewrite (proj2 (device_eqb_eq dev dev) eq_refl), Z.ltb_irrefl, Z.sub_diag. cbn [negb].
  change (wrap64 0) with 0.
  rewrite (proj2 (Z.eqb_eq _ 0) (proj2 (lnot_cover access access Ha Ha) (Z.land_diag access))).
  cbn [negb]. rewrite Z.eqb_refl. cbn [negb]. rewrite Z.sub_0_r, (wrapw_id 64 len Hl).
  unfold uw in Hl. apply andb_true_intro. split; apply Z.leb_le; cbn; lia.
Qed.

Lemma find_registration_spec m addr len dev access g e :
  find_registration m addr len dev access = Some g → m_regs m !! g = Some e →
  g ∈ m_cache m ∧ registration_covers (rg_reg e) addr len dev access = true.
Proof.
  unfold find_registration. intros H He. apply find_some in H as [Hin H]. rewrite He in H.
  split; [by apply list_elem_of_In|done].
Qed.

Lemma register_memory_inv cfg device origin addr len access c m :
  mem_inv m [] → 0 <= addr → u64 len → u32 access →
  mem_inv (snd (fst (register_memory cfg device origin addr len access (c, m)))) [].
Proof.
  intros I H0 Hl Ha. unfold register_memory. destruct (_ || _); [done|].
  destruct (match device with Some d => _ | None => _ end) as [dev mem].
  destruct (_ && _); [done|].
  destruct (find_registration m addr len dev access) as [g|] eqn:F.
  - destruct (m_regs m !! g) as [e|] eqn:He; [|done].
    destruct (find_registration_spec _ _ _ _ _ _ _ F He) as [_ Hc].
    pose proof (add_handle_inv origin addr len dev mem access g e m [] I ltac:(set_solver) He Hc).
    by destruct (add_handle _ _ _ _ _ _ _ _ m).
  - cbn [c_providers count with_stats].
    destruct (register_all 0 _ addr len dev access Status.kOk) as [[[ps keys] held] fe].
    destruct keys as [|k0 keys]; [done|].
    set (reg := mkRegistration _ _ _ _ _ _ _).
    destruct (add_registration_inv m (mkRegEntry reg held) I) as [I1 He].
    destruct (add_registration (mkRegEntry reg held) m) as [m1 g] eqn:E. cbn [fst] in *.
    assert (g = m_next_reg m) as -> by (unfold add_registration in E; congruence).
    assert (Hc : registration_covers (rg_reg (mkRegEntry reg held)) addr len dev access = true)
      by (by apply covers_self).
    destruct (0 <? _).
    + match goal with |- context [cache_registration cfg ?g (?c1, m1)] =>
        destruct (cache_registration_inv cfg g c1 m1 _ I1 He) as [I2 He2];
        destruct (cache_registration cfg g (c1, m1)) as [c2 m2] end. cbn [fst snd] in *.
      pose proof (add_handle_inv origin addr len dev mem access (m_next_reg m) _ m2 [] I2 ltac:(set_solver)
        He2 Hc) as I3.
      change (rg_reg (mkRegEntry reg held)) with reg in I3.
      by destruct (add_handle _ _ _ _ _ _ _ _ m2).
    + pose proof (add_handle_inv origin addr len dev mem access (m_next_reg m) _ m1 [_] I1
        ltac:(set_solver) He Hc) as I3.
      change (rg_reg (mkRegEntry reg held)) with reg in I3.
      by destruct (add_handle _ _ _ _ _ _ _ _ m1).
Qed.

Lemma deregister_memory_inv peers i c m :
  mem_inv m [] → mem_inv (snd (fst (deregister_memory peers i (c, m)))) [].
Proof.
  intros I. unfold deregister_memory. destruct (m_objs m !! i) as [lr|] eqn:Hi; [|done].
  assert (I1 : mem_inv (with_objs (<[i := retire lr]> (m_objs m)) m) []).
  { destruct I as [H1 H2 H3 H4 H5 H6 H7 H8 H9]. split; cbn; auto.
    - intros j g Hj. destruct (H1 j g Hj) as (lr' & e & Hl & He & Hs).
      destruct (decide (i = j)) as [->|Hne].
      + rewrite lookup_insert_eq. assert (lr' = lr) as -> by congruence.
        by exists (retire lr), e.
      + rewrite lookup_insert_ne by done. by exists lr', e.
    - intros j lr' Hj. destruct (decide (i = j)) as [->|Hne]; [eauto|].
      rewrite lookup_insert_ne in Hj by done. eauto.
    - intros j Hj. destruct (decide (i = j)) as [->|Hne]; [rewrite lookup_insert_eq; eauto|].
      rewrite lookup_insert_ne by done. auto. }
  destruct (region_busy c i); [done|].
  destruct (broadcast_all 0 _ _ _) as [[[ps sent] refused] obo].
  destruct (tell_peers _ _ _ _ ps) as [[ps' sent'] refused']. cbn [fst snd].
  destruct I1 as [H1 H2 H3 H4 H5 H6 H7 H8 H9]. split; cbn; auto.
  intros j Hj. apply H3. cbn. set_solver.
Qed.

Lemma forget_region_inv i c m :
  mem_inv m [] → mem_inv (snd (forget_region i (c, m))) [].
Proof.
  intros I. unfold forget_region. destruct (bool_decide (i ∈ m_table m)) eqn:Ht; [done|].
  apply bool_decide_eq_false in Ht. cbn [orb]. destruct (region_busy c i); [done|].
  destruct (m_reg_of m !! i) as [g|] eqn:Hg; [|done].
  set (m' := mkMemory _ _ _ _ _ _ _ _). destruct I as [H1 H2 H3 H4 H5 H6 H7 H8 H9].
  rewrite app_nil_r in *.
  assert (Hh : ∀ x, x ≠ g → handles_of m x ≠ [] → handles_of m' x ≠ []).
  { intros x Hx. rewrite !handles_of_nil. intros Hn Hn'. apply Hn. intros j Hj.
    apply (Hn' j). cbn. rewrite lookup_delete_ne; [done|]. intros <-. congruence. }
  assert (G : ∀ gs, (g ∈ m_cache m ∧ gs = [] ∨ handles_of m' g ≠ [] ∧ gs = []
      ∨ (g ∉ m_cache m) ∧ handles_of m' g = [] ∧ gs = [g]) → mem_inv m' gs).
  { intros gs Hgs. split; cbn; auto.
    - intros j x Hj. destruct (decide (i = j)) as [->|Hne]; [by rewrite lookup_delete_eq in Hj|].
      rewrite lookup_delete_ne in Hj by done. destruct (H1 j x Hj) as (lr & e & ? & ?).
      exists lr, e. by rewrite lookup_delete_ne.
    - intros j lr Hj. destruct (decide (i = j)) as [->|Hne]; [by rewrite lookup_delete_eq in Hj|].
      rewrite lookup_delete_ne in Hj by done. rewrite lookup_delete_ne by done. eauto.
    - intros j Hj. rewrite lookup_delete_ne by (intros ->; done). auto.
    - destruct Hgs as [[_ ->]|[[_ ->]|(Hc & _ & ->)]]; rewrite ?app_nil_r; auto.
      apply list.NoDup_app. split; [done|]. split; [set_solver|apply NoDup_singleton].
    - intros x Hx. apply elem_of_app in Hx as [Hx|Hx]; [auto|].
      assert (x = g) as -> by (destruct Hgs as [[_ ->]|[[_ ->]|(_ & _ & ->)]]; set_solver).
      destruct (H1 _ _ Hg) as (_ & e & _ & -> & _). eauto.
    - intros x Hx. destruct Hgs as [[_ ->]|[[_ ->]|(_ & Hn & ->)]]; set_solver.
    - intros x Hx. destruct (decide (x = g)) as [->|Hne].
      + destruct Hgs as [[? ->]|[[? ->]|(_ & Hn & ->)]]; auto. right; left. set_solver.
      + destruct (H7 x Hx) as [?|[Hin|?]]; auto. by apply not_elem_of_nil in Hin.
    - intros j Hj. destruct (decide (i = j)) as [->|Hne];
        [rewrite lookup_delete_eq in Hj; by destruct Hj|].
      rewrite lookup_delete_ne in Hj by done. auto. }
  destruct (bool_decide (g ∈ m_cache m')) eqn:E1; [|destruct (bool_decide (handles_of m' g = [])) eqn:E2].
  - apply bool_decide_eq_true in E1. cbn [orb snd]. apply G. auto.
  - apply bool_decide_eq_false in E1. apply bool_decide_eq_true in E2. cbn [orb negb].
    apply release_inv. apply G. right; right. auto.
  - apply bool_decide_eq_false in E2. cbn [orb negb snd]. apply G. auto.
Qed.

End MemoryInv.

(** ** Runs *)

Section MemoryRuns.
Context {P D : Type} `{!TransportProvider P}.
Context (cfg : EngineConfig) (device : option DeviceBackend) (origin : Identity).

(** One call; [ms_core] is anything else the engine does in between, which
    leaves the memory alone. *)

Inductive mem_step : Core P D * Memory → Core P D * Memory → Prop :=
| ms_register addr len access cm :
    0 <= addr → u64 len → u32 access →
    mem_step cm (fst (register_memory cfg device origin addr len access cm))
| ms_deregister peers i cm : mem_step cm (fst (deregister_memory peers i cm))
| ms_release_cached cm : mem_step cm (fst (release_cached_registrations cm))
| ms_forget i cm : mem_step cm (forget_region i cm)
| ms_core c c' m : mem_step (c, m) (c', m).

Definition empty_memory : Memory := mkMemory ∅ ∅ ∅ ∅ [] 1 1 1.

Lemma empty_memory_inv : mem_inv empty_memory [].
Proof.
  split; cbn; intros *; rewrite ?lookup_empty; try done; try set_solver; try (by intros []).
  apply NoDup_nil_2.
Qed.

Lemma mem_step_inv cm cm' : mem_step cm cm' → mem_inv (snd cm) [] → mem_inv (snd cm') [].
Proof.
  intros H I. destruct H as [addr len access [c m]|peers i [c m]|[c m]|i [c m]|c c' m].
  - by apply register_memory_inv.
  - by apply deregister_memory_inv.
  - by apply release_cached_inv.
  - by apply forget_region_inv.
  - done.
Qed.

Lemma mem_steps_inv cm cm' : rtc mem_step cm cm' → mem_inv (snd cm) [] → mem_inv (snd cm') [].
Proof. induction 1; eauto using mem_step_inv. Qed.

End MemoryRuns.

(** ** Properties *)

(** C5: A registration lives exactly as long as something holds it. After any
    sequence of registrations (reused or not), deregistrations, evictions,
    cache releases and dropped handles, interleaved with anything else: the
    registration under every live handle has not been given back to the
    providers and covers the handle's range, device and permissions; every
    cached registration is live; and every live registration is held by a
    handle or by the cache, so none is leaked. *)
Theorem registrations_live_while_held {P D} `{!TransportProvider P} cfg device origin
    (c : Core P D) (cm : Core P D * Memory) :
  rtc (mem_step cfg device origin) (c, empty_memory) cm →
  let m := snd cm in
  (∀ i lr, m_objs m !! i = Some lr → ∃ g e,
     m_reg_of m !! i = Some g ∧ m_regs m !! g = Some e ∧ mr_reg lr = rg_reg e
     ∧ registration_covers (rg_reg e) (mr_base lr) (mr_length lr) (mr_dev lr) (mr_access lr)
       = true)
  ∧ (∀ g, g ∈ m_cache m → is_Some (m_regs m !! g))
  ∧ (∀ g, is_Some (m_regs m !! g) → g ∈ m_cache m ∨ ∃ i, m_reg_of m !! i = Some g).
Proof.
  intros H m. destruct (mem_steps_inv _ _ _ _ _ H empty_memory_inv)
    as [H1 H2 H3 H4 H5 H6 H7 H8 H9]. fold m in H1, H2, H5, H7. rewrite app_nil_r in H5.
  split_and!; [|done|].
  - intros i lr Hi. destruct (H2 i lr Hi) as [g Hg].
    destruct (H1 i g Hg) as (lr' & e & Hl & He & Hr & _ & Hc). exists g, e.
    assert (lr' = lr) as -> by congruence. rewrite Hr in Hc. done.
  - intros g Hg. destruct (H7 g Hg) as [?|[Hin|Hh]]; [auto|by apply not_elem_of_nil in Hin|right].
    destruct (handles_of m g) as [|i l] eqn:E; [done|]. exists i.
    assert (Hi : i ∈ handles_of m g) by (rewrite E; apply list_elem_of_here).
    unfold handles_of in Hi. apply list_elem_of_fmap in Hi as ([j x] & -> & Hx).
    apply list_elem_of_filter in Hx as [Hx Hin]. cbn in *. subst.
    by apply elem_of_map_to_list in Hin.
Qed.

(** The cache bound gives way only to registrations in use: once a
    registration has been cached, either the cache is within the configured
    number of entries, or every entry left in it is held by a handle or is the
    one just made. *)
Theorem cache_bound {P D} `{!TransportProvider P} cfg g (c : Core P D) m :
  0 <= cfg_registration_cache_entries cfg →
  let m' := snd (cache_registration cfg g (c, m)) in
  Z.of_nat (length (m_cache m')) <= cfg_registration_cache_entries cfg
  ∨ ∀ x, x ∈ m_cache m' → x = g ∨ handles_of m' x ≠ [].
Proof.
  intros Hb. unfold cache_registration.
  pose proof (evict_loop_spec (length (m_cache m ++ [g])) (cfg_registration_cache_entries cfg)
    (unused m (Some g)) (m_cache m ++ [g])) as S.
  destruct (evict_loop _ _ _ _) as [kept ev]. destruct S as (_ & _ & S).
  assert (F : ∀ l (cm : Core P D * Memory), m_cache (snd (release_all l cm)) = m_cache (snd cm)
    ∧ m_reg_of (snd (release_all l cm)) = m_reg_of (snd cm)).
  { induction l as [|x l IH]; intros [c0 m0]; [done|]. unfold release_all. cbn [foldl].
    destruct (IH (release x (c0, m0))) as [E1 E2]. unfold release_all in E1, E2.
    rewrite E1, E2. unfold release. by destruct (m_regs m0 !! x). }
  destruct (F ev (c, with_cache kept m)) as [E1 E2]. cbn [snd] in E1, E2.
  cbn zeta. rewrite E1. cbn. destruct (S ltac:(done) Hb) as [?|Hall]; [auto|].
  right. intros x Hx. rewrite list.Forall_forall in Hall. specialize (Hall x Hx). cbn in Hall.
  rewrite (handles_of_ext _ m) by (by rewrite E2). unfold unused in Hall.
  destruct (decide (g = x)) as [->|Hne]; [by left|right]. intros Hn.
  rewrite (bool_decide_true (handles_of m x = [])) in Hall by done.
  rewrite bool_decide_false in Hall by congruence. done.
Qed.
