(* ===== verification/EnginePeers.v ===== *)
(** * Peers and imported regions ([PeerImpl], [EngineImpl::add_peer],
    [remove_peer], [peer_for_conn], [find_remote]).

    A peer and an imported region are objects shared with the application: they
    stay in the stores [t_objs] and [t_robjs] after the engine's tables have let
    go of them. *)

From stdpp Require Import base list gmap strings numbers.
From S2P Require Import Prelude Float64 Types Wire Region Metadata Provider Request EngineCore.

(** One way of reaching a peer. *)

Record Lane : Type := mkLane {
  ln_provider : nat;
  ln_conn : ConnId;
  ln_weight : f64
}.

Record PeerCaps : Type := mkPeerCaps {
  pc_provider : string;
  pc_place : PeerPlace.t;
  pc_path : PathKind.t;
  pc_qp_count : Z;
  pc_lane_count : Z;
  pc_remote_max_registration_bytes : Z
}.

Record PeerImpl : Type := mkPeer {
  p_id : Z;
  p_remote_identity : Identity;
  p_lanes : list Lane;
  p_caps : PeerCaps;
  p_epoch : Z;
  p_connected : bool;
  p_imported : list Z
}.

Definition bump_epoch (p : PeerImpl) : PeerImpl :=
  mkPeer (p_id p) (p_remote_identity p) (p_lanes p) (p_caps p) (wrap32 (p_epoch p + 1)) false
    (p_imported p).

Definition push_imported (h : Z) (p : PeerImpl) : PeerImpl :=
  mkPeer (p_id p) (p_remote_identity p) (p_lanes p) (p_caps p) (p_epoch p) (p_connected p)
    (p_imported p ++ [h]).

(** [conn()] and [provider()]: the first lane's. *)

Definition peer_conn (p : PeerImpl) : option ConnId := ln_conn <$> head (p_lanes p).
Definition peer_provider (p : PeerImpl) : option nat := ln_provider <$> head (p_lanes p).

Record Peers : Type := mkPeers {
  t_objs : gmap Z PeerImpl;
  t_peers : gset Z;
  t_next_peer : Z;
  t_robjs : gmap Z RemoteRegionImpl;
  t_remotes : gmap (Z * Z) Z;
  t_next_remote : Z
}.

Definition empty_peers : Peers := mkPeers ∅ ∅ 1 ∅ ∅ 1.

Definition put_peer (i : Z) (p : PeerImpl) (t : Peers) : Peers :=
  mkPeers (<[i := p]> (t_objs t)) (t_peers t) (t_next_peer t) (t_robjs t) (t_remotes t)
    (t_next_remote t).

Definition put_robj (h : Z) (r : RemoteRegionImpl) (t : Peers) : Peers :=
  mkPeers (t_objs t) (t_peers t) (t_next_peer t) (<[h := r]> (t_robjs t)) (t_remotes t)
    (t_next_remote t).

Definition find_remote (t : Peers) (peer region : Z) : option RemoteRegionImpl :=
  h ← t_remotes t !! (peer, region); t_robjs t !! h.

(** The peers in the table; the order of a hash map is not specified. *)

Definition known_peers (t : Peers) : list PeerImpl :=
  omap (fun i => t_objs t !! i) (elements (t_peers t)).

Definition peer_for_conn (t : Peers) (conn : option ConnId) : Z :=
  match conn with
  | None => 0
  | Some conn =>
      match find (fun p => existsb (fun l => ln_conn l =? conn) (p_lanes p)) (known_peers t) with
      | Some p => p_id p
      | None => 0
      end
  end.

(** ** Importing a region *)

(** The key of the provider named [want], if the descriptor has one. *)

Definition key_named (want : string) (ks : list ProviderKey) : option Z :=
  pk_remote_key <$> find (fun k => String.eqb (pk_provider k) want) ks.

Definition set_remote_key (k : Z) (d : RegionDescriptor) : RegionDescriptor :=
  mkRegionDescriptor (d_major d) (d_minor d) (d_origin d) (d_region d) (d_generation d)
    (d_base d) (d_length d) k (d_provider_keys d) (d_device_kind d) (d_device_index d)
    (d_access d).

(** The loop over the lanes: [names] are their providers', [first] holds for
    the first lane. *)

Fixpoint import_keys (first : bool) (names : list string) (d : RegionDescriptor) (usable : bool)
    : RegionDescriptor * bool :=
  match names with
  | [] => (d, usable)
  | want :: names =>
      match key_named want (d_provider_keys d) with
      | Some k => import_keys false names (if first then set_remote_key k d else d) true
      | None => import_keys false names d usable
      end
  end.

Definition identified (i : Identity) : bool :=
  negb (host i =? 0) || negb (process i =? 0) || negb (engine i =? 0).

Definition identity_eqb (a b : Identity) : bool :=
  (host a =? host b) && (process a =? process b) && (engine a =? engine b).

Section Peers.
Context {P D : Type} `{!TransportProvider P}.

Definition lane_names (ps : list P) (lanes : list Lane) : list string :=
  omap (fun l => (fun p => cap_name (caps p)) <$> ps !! ln_provider l) lanes.

(** The new handle with [kOk]. *)

Definition import_region (ps : list P) (i : Z) (descriptor : list Z) (t : Peers)
    : Peers * (Status.t * option Z) :=
  match t_objs t !! i with
  | None => (t, (Status.kInvalidArgument, None))
  | Some p =>
      match decode_descriptor descriptor with
      | Oob => (t, (Status.kInternal, None))
      | Fail s => (t, (s, None))
      | Done d =>
          if identified (p_remote_identity p)
             && negb (identity_eqb (d_origin d) (p_remote_identity p))
          then (t, (Status.kStaleGeneration, None))
          else
            let '(d, usable) :=
              match d_provider_keys d with
              | [] => (d, true)
              | _ => import_keys true (lane_names ps (p_lanes p)) d false
              end in
            if negb usable then (t, (Status.kUnsupported, None))
            else
              let h := t_next_remote t in
              (mkPeers (<[i := push_imported h p]> (t_objs t)) (t_peers t) (t_next_peer t)
                 (<[h := mkRemoteRegion d true]> (t_robjs t))
                 (<[(i, d_region d) := h]> (t_remotes t)) (h + 1),
               (Status.kOk, Some h))
      end
  end.

(** One result per item; a malformed entry does not affect the rest. *)

Fixpoint import_region_batch (ps : list P) (i : Z) (descs : list (list Z)) (t : Peers)
    : Peers * list (option Z) :=
  match descs with
  | [] => (t, [])
  | d :: descs =>
      let '(t, (s, h)) := import_region ps i d t in
      let '(t, hs) := import_region_batch ps i descs t in
      (t, (if Status.ok s then h else None) :: hs)
  end.

(** ** Adding a peer *)

Definition suits (provider : string) (locality : Locality.t) : bool :=
  if String.eqb provider "ipc"%string then
    bool_decide (locality = Locality.kSameHost) || bool_decide (locality = Locality.kSameProcess)
  else if String.eqb provider "local"%string then bool_decide (locality = Locality.kSameProcess)
  else true.

(** The name up to the first ['#']. *)

Definition family (n : string) : string :=
  match String.index 0 "#"%string n with
  | Some h => String.substring 0 h n
  | None => n
  end.

Definition offer_for (name : string) (offered : list Offer) : option (list Z) :=
  snd <$> find (fun o => String.eqb (fst o) name) offered.

(** The first provider that suits and that the peer offers, from index [k]. *)

Fixpoint choose_provider (k : nat) (ps : list P) (locality : Locality.t) (offered : list Offer)
    (provider_meta : list Z) : option (nat * list Z) :=
  match ps with
  | [] => None
  | p :: ps =>
      let name := cap_name (caps p) in
      if negb (suits name locality) then choose_provider (S k) ps locality offered provider_meta
      else
        match offered with
        | [] => Some (k, provider_meta)
        | _ =>
            match offer_for name offered with
            | Some meta => Some (k, meta)
            | None => choose_provider (S k) ps locality offered provider_meta
            end
        end
  end.

(** The rest of the family: [todo] are the providers from index [k] on; the
    list [ps] is threaded because connecting changes them. *)

Fixpoint connect_siblings (k : nat) (todo : list P) (chosen : nat) (fam : string)
    (locality : Locality.t) (offered : list Offer) (ps : list P) : list P * list Lane :=
  match todo with
  | [] => (ps, [])
  | p :: todo =>
      let name := cap_name (caps p) in
      if bool_decide (k = chosen) || negb (suits name locality)
         || negb (String.eqb (family name) fam)
      then connect_siblings (S k) todo chosen fam locality offered ps
      else
        match offer_for name offered with
        | None => connect_siblings (S k) todo chosen fam locality offered ps
        | Some meta =>
            let '(p', (s, conn)) := connect p meta in
            let '(ps, lanes) :=
              connect_siblings (S k) todo chosen fam locality offered (<[k := p']> ps) in
            (ps, if Status.ok s
                 then mkLane k conn (cap_relative_capacity (caps p')) :: lanes else lanes)
        end
  end.

Definition place_of (l : Locality.t) : PeerPlace.t :=
  match l with
  | Locality.kSameEngine | Locality.kSameProcess => PeerPlace.kSameProcess
  | Locality.kSameHost => PeerPlace.kSameHost
  | Locality.kRemote => PeerPlace.kAnotherHost
  end.

Definition path_of (provider : string) : PathKind.t :=
  if String.eqb provider "local"%string then PathKind.kSameProcess
  else if String.eqb provider "ipc"%string then PathKind.kIpc
  else if String.eqb (family provider) "ucx"%string then PathKind.kUcx
  else PathKind.kRdma.

Definition lanes_qp_count (ps : list P) (lanes : list Lane) : Z :=
  foldr (fun l n => match ps !! ln_provider l with
                    | Some p => qp_count p (ln_conn l) + n
                    | None => n
                    end) 0 lanes.

(** [mine] is this engine's identity, [max_reg] its device's registration cap. *)

Definition add_peer (mine : Identity) (max_reg : Z) (metadata : list Z) (ct : Core P D * Peers)
    : (Core P D * Peers) * (Status.t * option Z) :=
  let '(c, t) := ct in
  match parse_metadata metadata with
  | Oob => (ct, (Status.kInternal, None))
  | Fail s => (ct, (s, None))
  | Done parsed =>
      let '(peer_id, locality, provider_meta, offered) :=
        match parsed with
        | Some (id, offered) =>
            (id, locality_of mine id, drop kIdentityBytes metadata, offered)
        | None => (no_identity, Locality.kRemote, metadata, [])
        end in
      let ps := c_providers c in
      match choose_provider 0 ps locality offered provider_meta with
      | None => (ct, (Status.kUnsupported, None))
      | Some (k, meta) =>
          match ps !! k with
          | None => (ct, (Status.kInternal, None))
          | Some prov =>
              let name := cap_name (caps prov) in
              let '(prov, (s, conn)) := connect prov meta in
              let ps := <[k := prov]> ps in
              if negb (Status.ok s) then ((with_providers ps c, t), (s, None))
              else
                let '(ps, siblings) :=
                  connect_siblings 0 ps k (family name) locality offered ps in
                let lanes := mkLane k conn (cap_relative_capacity (caps prov)) :: siblings in
                let pcaps := mkPeerCaps name (place_of locality) (path_of name)
                  (lanes_qp_count ps lanes) (wrap32 (Z.of_nat (length lanes))) max_reg in
                let i := t_next_peer t in
                ((with_providers ps c,
                  mkPeers (<[i := mkPeer i peer_id lanes pcaps 0 true []]> (t_objs t))
                    ({[i]} ∪ t_peers t) (i + 1) (t_robjs t) (t_remotes t) (t_next_remote t)),
                 (Status.kOk, Some i))
          end
      end
  end.

(** ** Ending notifications *)

Definition notify_match (c : Core P D) (peer : Z) (only_cancelled : bool) (j : Z) : bool :=
  match c_reqs c !! j with
  | None => false
  | Some r =>
      if only_cancelled then cancel_requested r
      else (peer =? 0) || (req_peer (att_ r) =? peer)
  end.

Definition end_one (cfg : EngineConfig) (e : ErrorInfo) (c : Core P D) (j : Z) : Core P D :=
  match c_reqs c !! j with
  | None => c
  | Some r =>
      publish cfg j (put_req j
        (if err_ok e || cancel_requested r then finish_cancelled r else fail e r) c)
  end.

Definition end_notifications (cfg : EngineConfig) (peer : Z) (only_cancelled : bool)
    (e : ErrorInfo) (c : Core P D) : Core P D :=
  let hit := fun kv : Z * Z => notify_match c peer only_cancelled (snd kv) = true in
  let ended := filter hit (map_to_list (c_notify c)) in
  let kept := filter (fun kv : Z * Z => notify_match c peer only_cancelled (snd kv) = false)
    (c_notify c) in
  foldl (end_one cfg e) (with_notify kept c) (snd <$> ended).

(** ** Removing a peer *)

(** Disconnects every lane; the first failure is the one reported. *)

Fixpoint disconnect_lanes (lanes : list Lane) (ps : list P) (first : Status.t)
    : list P * Status.t :=
  match lanes with
  | [] => (ps, first)
  | l :: lanes =>
      match ps !! ln_provider l with
      | None => disconnect_lanes lanes ps first
      | Some p =>
          let '(p, s) := disconnect p (ln_conn l) in
          disconnect_lanes lanes (<[ln_provider l := p]> ps)
            (if negb (Status.ok s) && Status.ok first then s else first)
      end
  end.

Definition removed_error (i : Z) : ErrorInfo :=
  mkErrorInfo Status.kPeerDisconnected EmptyString i 0 false
    "the peer was removed before acknowledging; whether it arrived is not known"%string.

Definition remove_peer (cfg : EngineConfig) (i : Z) (ct : Core P D * Peers)
    : (Core P D * Peers) * Status.t :=
  let '(c, t) := ct in
  match t_objs t !! i with
  | None => (ct, Status.kInvalidArgument)
  | Some p =>
      let t := mkPeers (<[i := bump_epoch p]> (t_objs t)) (t_peers t ∖ {[i]}) (t_next_peer t)
        (t_robjs t) (t_remotes t) (t_next_remote t) in
      let c := end_notifications cfg (p_id p) false (removed_error (p_id p)) c in
      let '(ps, s) := disconnect_lanes (p_lanes p) (c_providers c) Status.kOk in
      ((with_providers ps c, t), s)
  end.

(** Which transport a location calls for ([provider_for]). *)

Definition provider_for (ps : list P) (locality : Locality.t) : option nat :=
  let near := bool_decide (locality = Locality.kSameHost)
              || bool_decide (locality = Locality.kSameProcess) in
  let fits p := let name := cap_name (caps p) in
    String.eqb name "ipc"%string
    || (bool_decide (locality = Locality.kSameProcess) && String.eqb name "local"%string) in
  match (if near then list_find (fun p => fits p = true) ps else None) with
  | Some (k, _) => Some k
  | None => match ps with [] => None | _ => Some 0%nat end
  end.

End Peers.
