(* ===== verification/Engine.v ===== *)
(** * The engine ([EngineImpl]): submitting, notifying, progress, polling and
    closing.

    A submission is several atomic pieces, as in the source: [submit_prepare]
    (checks, splitting), [submit_admit] (the admission under the lock, with its
    second look at what may have changed) and one [post_part] per lane.
    [submit_vector] is their composition; [world_step] lets every other thread's
    calls fall between them.  [e_reaped] is a history variable: the requests the
    peer reaper took; nothing reads it. *)

From stdpp Require Import base list gmap strings numbers.
From S2P Require Import Prelude Float64 Types Wire Region Metadata Provider Request SubOps.
From S2P Require Import EngineCore EngineMemory EnginePeers.

Record TransferOptions : Type := mkTransferOptions {
  opt_after : list (option Z);
  opt_notify : bool;
  opt_ready_handoff : bool;
  opt_context : Z
}.

Record Notification : Type := mkNotification {
  nt_peer : Z;
  nt_id : Z;
  nt_payload : list Z
}.

Record ReadyEvent : Type := mkReadyEvent {
  re_request : Z;
  re_peer : Z;
  re_has_device : bool;
  re_addr : Z;
  re_bytes : Z;
  re_region : Z;
  re_generation : Z;
  re_span : Span
}.

(** [ReadyEventImpl::wait_on]; [make_visible] is the device backend's. *)

Definition ready_wait_on (make_visible : Z → Z → Status.t) (stream : bool) (ev : ReadyEvent)
    : Status.t :=
  if negb stream then Status.kInvalidArgument
  else if negb (re_has_device ev) then Status.kUnsupported
  else make_visible (re_addr ev) (re_bytes ev).

(** A submission that has been checked and split but not admitted. *)

Record Prepared : Type := mkPrepared {
  pr_req : RequestImpl;
  pr_per_lane : list (list SubOp);
  pr_lanes : list Lane;
  pr_after : list (option Z)
}.

Section Engine.
Context {P D : Type} `{!TransportProvider P} `{!DeviceWorld D}.

Record Engine : Type := mkEngine {
  e_core : Core P D;
  e_mem : Memory;
  e_peers : Peers;
  e_notifications : list Notification;
  e_ready : list ReadyEvent;
  e_ready_dropped : Z;
  e_next_request : Z;
  e_next_notify : Z;
  e_closed : bool;
  e_stopping : bool;
  e_progress_events : Z;
  e_reaped : gset Z
}.

Definition set_core (c : Core P D) (e : Engine) : Engine :=
  mkEngine c (e_mem e) (e_peers e) (e_notifications e) (e_ready e) (e_ready_dropped e)
    (e_next_request e) (e_next_notify e) (e_closed e) (e_stopping e) (e_progress_events e)
    (e_reaped e).

Definition set_mem (m : Memory) (e : Engine) : Engine :=
  mkEngine (e_core e) m (e_peers e) (e_notifications e) (e_ready e) (e_ready_dropped e)
    (e_next_request e) (e_next_notify e) (e_closed e) (e_stopping e) (e_progress_events e)
    (e_reaped e).

Definition set_peers (t : Peers) (e : Engine) : Engine :=
  mkEngine (e_core e) (e_mem e) t (e_notifications e) (e_ready e) (e_ready_dropped e)
    (e_next_request e) (e_next_notify e) (e_closed e) (e_stopping e) (e_progress_events e)
    (e_reaped e).

Definition set_notifications (x : list Notification) (e : Engine) : Engine :=
  mkEngine (e_core e) (e_mem e) (e_peers e) x (e_ready e) (e_ready_dropped e)
    (e_next_request e) (e_next_notify e) (e_closed e) (e_stopping e) (e_progress_events e)
    (e_reaped e).

Definition set_ready (x : list ReadyEvent) (dropped : Z) (e : Engine) : Engine :=
  mkEngine (e_core e) (e_mem e) (e_peers e) (e_notifications e) x dropped
    (e_next_request e) (e_next_notify e) (e_closed e) (e_stopping e) (e_progress_events e)
    (e_reaped e).

Definition set_next (req notify : Z) (e : Engine) : Engine :=
  mkEngine (e_core e) (e_mem e) (e_peers e) (e_notifications e) (e_ready e) (e_ready_dropped e)
    req notify (e_closed e) (e_stopping e) (e_progress_events e)
    (e_reaped e).

Definition set_flags (closed stopping : bool) (e : Engine) : Engine :=
  mkEngine (e_core e) (e_mem e) (e_peers e) (e_notifications e) (e_ready e) (e_ready_dropped e)
    (e_next_request e) (e_next_notify e) closed stopping (e_progress_events e)
    (e_reaped e).

Definition add_events (n : nat) (e : Engine) : Engine :=
  mkEngine (e_core e) (e_mem e) (e_peers e) (e_notifications e) (e_ready e) (e_ready_dropped e)
    (e_next_request e) (e_next_notify e) (e_closed e) (e_stopping e)
    (e_progress_events e + Z.of_nat n) (e_reaped e).

Definition add_reaped (js : list Z) (e : Engine) : Engine :=
  mkEngine (e_core e) (e_mem e) (e_peers e) (e_notifications e) (e_ready e) (e_ready_dropped e)
    (e_next_request e) (e_next_notify e) (e_closed e) (e_stopping e) (e_progress_events e)
    (e_reaped e ∪ list_to_set js).

Definition on_core (f : Core P D → Core P D) (e : Engine) : Engine := set_core (f (e_core e)) e.

Context (cfg : EngineConfig) (mine : Identity) (device : option DeviceBackend).

Definition has_device : bool := bool_decide (is_Some device).

(** ** Submitting *)

Definition lane_info (ps : list P) (l : Lane) : LaneInfo :=
  match ps !! ln_provider l with
  | Some p => mkLaneInfo (cap_name (caps p)) (ln_weight l) (cap_max_segment_bytes (caps p))
  | None => mkLaneInfo EmptyString (ln_weight l) 0
  end.

(** The ranges a write with a handoff will name. *)

Definition targets_for (t : Peers) (peer : Z) (remote : list RegionView) : list RemoteTarget :=
  foldl (fun ts v =>
    if sp_length (v_span v) =? 0 then ts
    else
      match find_remote t peer (v_region v) with
      | Some rr => add_target ts (v_region v) (d_generation (rr_d rr)) (v_span v)
      | None => ts
      end) [] remote.

Definition submit_prepare (i : Z) (local remote : list RegionView) (opts : TransferOptions)
    (kind : SubOpKind.t) (e : Engine) : Engine * (Status.t + Prepared) :=
  match t_objs (e_peers e) !! i with
  | None => (e, inl Status.kInvalidArgument)
  | Some p =>
      if e_closed e then (e, inl Status.kInvalidArgument)
      else if bool_decide (local = []) || negb (bool_decide (length local = length remote))
      then (e, inl Status.kInvalidArgument)
      else if opt_notify opts then (e, inl Status.kUnsupported)
      else if negb (p_connected p) then (e, inl Status.kPeerDisconnected)
      else
        let '(d, dep) := dependency_state (opt_after opts) (c_dev (e_core e)) in
        let e := on_core (with_dev d) e in
        if negb (Status.ok dep) && negb (bool_decide (dep = Status.kWouldBlock))
        then (e, inl dep)
        else if cfg_max_inflight_requests cfg <=? Z.of_nat (size (c_inflight (e_core e)))
        then (on_core (count requests_would_block 1) e, inl Status.kWouldBlock)
        else
          let req_id := e_next_request e in
          let e := set_next (req_id + 1) (e_next_notify e) e in
          let lanes := p_lanes p in
          match build_subops (cfg_chunk_bytes cfg) (find_region (e_mem e))
                  (find_remote (e_peers e) (p_id p)) (zip local remote) kind req_id
                  (lane_info (c_providers (e_core e)) <$> lanes) with
          | None => (e, inl Status.kInternal)
          | Some (inl s) => (e, inl s)
          | Some (inr bt) =>
              let total := length (concat (bt_per_lane bt)) in
              if bool_decide (total = 0%nat) then (e, inl Status.kInvalidArgument)
              else
                let targets :=
                  if bool_decide (kind = SubOpKind.kWrite) && opt_ready_handoff opts
                  then targets_for (e_peers e) (p_id p) remote else [] in
                let att := mkAttachments (bt_held bt) (peer_conn p) [] (p_id p) None
                  has_device (bt_target_addr bt) (bt_target_bytes bt) targets in
                let req := upd_att att
                  (new_request req_id kind (wrap32 (Z.of_nat total)) (opt_context opts)) in
                (e, inr (mkPrepared req (bt_per_lane bt) lanes (opt_after opts)))
          end
  end.

(** One piece of work per lane that was given any. *)

Definition parts_of (pr : Prepared) : list PendingSubmit :=
  omap (fun '(ops, l) =>
    if bool_decide (ops = []) then None
    else Some (mkPending (id_ (pr_req pr)) ops (ln_conn l) (req_peer (att_ (pr_req pr)))
                 (Some (ln_provider l)) (pr_after pr)))
    (zip (pr_per_lane pr) (pr_lanes pr)).

Definition retired_region (m : Memory) (i : Z) : bool :=
  match m_objs m !! i with Some lr => mr_retired lr | None => false end.

(** The request's connections and provider, and its number of parts. *)

Definition equip (pr : Prepared) : RequestImpl :=
  let r := pr_req pr in
  let a := att_ r in
  set_parts (wrap32 (Z.of_nat (length (parts_of pr))))
    (upd_att (mkAttachments (held_regions a) (held_conn a) (pd_conn <$> parts_of pr)
                (req_peer a) (ln_provider <$> head (pr_lanes pr)) (req_has_device a)
                (target_addr a) (target_bytes a) (remote_targets a)) r).

(** [inl s]: refused.  [inr parts]: admitted, with these parts for the calling
    thread to post. *)

Definition submit_admit (pr : Prepared) (e : Engine) : Engine * (Status.t + list PendingSubmit) :=
  let i := id_ (pr_req pr) in
  if e_closed e then (e, inl Status.kInvalidArgument)
  else if existsb (retired_region (e_mem e)) (held_regions (att_ (pr_req pr)))
  then (e, inl Status.kStaleGeneration)
  else
    let c := e_core e in
    let c := with_inflight ({[i]} ∪ c_inflight c) c in
    let c := count requests_accepted 1 c in
    let c := with_stats
      (raise_to peak_inflight_requests (Z.of_nat (size (c_inflight c))) (c_stats c)) c in
    let parts := parts_of pr in
    let r := equip pr in
    let '(d, dep) := match pr_after pr with
                     | [] => (c_dev c, Status.kOk)
                     | after => dependency_state after (c_dev c)
                     end in
    let c := with_dev d c in
    if bool_decide (dep = Status.kWouldBlock) then
      let c := put_req i (set_state RequestState.kWaitDependency r) c in
      (set_core (with_pending (c_pending c ++ parts) c) e, inr [])
    else
      let r := if negb (Status.ok dep) then note_error (status_error dep) r else r in
      (set_core (put_req i r c) e, inr parts).

(** The calling thread posts one part; what did not fit waits its turn. *)

Definition post_part (p : PendingSubmit) (e : Engine) : Engine :=
  let '(c, rem) := post_ops cfg p (cfg_scheduler_quantum_bytes cfg) (e_core e) in
  set_core (match rem with Some p => with_pending (c_pending c ++ [p]) c | None => c end) e.

Definition submit_vector (i : Z) (local remote : list RegionView) (opts : TransferOptions)
    (kind : SubOpKind.t) (e : Engine) : Engine * (Status.t * option Z) :=
  match submit_prepare i local remote opts kind e with
  | (e, inl s) => (e, (s, None))
  | (e, inr pr) =>
      match submit_admit pr e with
      | (e, inl s) => (e, (s, None))
      | (e, inr parts) => (foldl (fun e p => post_part p e) e parts, (Status.kOk, Some (id_ (pr_req pr))))
      end
  end.

Definition read (i : Z) (local remote : RegionView) (opts : TransferOptions) (e : Engine) :=
  submit_vector i [local] [remote] opts SubOpKind.kRead e.

Definition write (i : Z) (local remote : RegionView) (opts : TransferOptions) (e : Engine) :=
  submit_vector i [local] [remote] opts SubOpKind.kWrite e.

Definition readv (i : Z) (local remote : list RegionView) (opts : TransferOptions) (e : Engine) :=
  submit_vector i local remote opts SubOpKind.kRead e.

Definition writev (i : Z) (local remote : list RegionView) (opts : TransferOptions) (e : Engine) :=
  submit_vector i local remote opts SubOpKind.kWrite e.

(** ** Notifying *)

Definition take_notification (id : Z) (c : Core P D) : Core P D * option Z :=
  match c_notify c !! id with
  | None => (c, None)
  | Some j => (with_notify (delete id (c_notify c)) c, Some j)
  end.

Definition notify_error (s : Status.t) (provider : string) (peer : Z) : ErrorInfo :=
  mkErrorInfo s provider peer 0 false "control send failed"%string.

Definition notify (i : Z) (payload : list Z) (e : Engine) : Engine * (Status.t * option Z) :=
  match t_objs (e_peers e) !! i with
  | None => (e, (Status.kInvalidArgument, None))
  | Some p =>
      if cfg_notify_max_payload cfg <? Z.of_nat (length payload)
      then (e, (Status.kInvalidArgument, None))
      else if e_closed e then (e, (Status.kInvalidArgument, None))
      else if negb (p_connected p) then (e, (Status.kPeerDisconnected, None))
      else
        let id := e_next_notify e in
        let j := e_next_request e in
        let e := set_next (j + 1) (id + 1) e in
        let a := mkAttachments [] None [] (p_id p) None false 0 0 [] in
        let r := upd_att a
          (set_state RequestState.kWaitNotifyAck (new_request j SubOpKind.kWrite 0 0)) in
        let body := encode_u64 id ++ payload in
        let c := put_req j r (with_notify (<[id := j]> (c_notify (e_core e))) (e_core e)) in
        match peer_provider p with
        | None => (set_core c e, (Status.kInternal, Some j))
        | Some k =>
            match c_providers c !! k with
            | None => (set_core c e, (Status.kInternal, Some j))
            | Some prov =>
                let '(prov, s) := send_control prov (peer_conn p) ControlType.kNotification body in
                let c := set_provider k prov c in
                if Status.ok s
                then (set_core (count notifications_sent 1 c) e, (s, Some j))
                else
                  let '(c, taken) := take_notification id c in
                  match taken with
                  | None => (set_core c e, (s, Some j))
                  | Some _ =>
                      (set_core (put_req j
                         (fail (notify_error s (cap_name (caps prov)) (p_id p)) r) c) e,
                       (s, Some j))
                  end
            end
        end
  end.

(** ** The peer reaper *)

Definition any_lane_gone (ps : list P) (p : PeerImpl) : bool :=
  existsb (fun l => match ps !! ln_provider l with
                    | Some prov => negb (alive prov (ln_conn l))
                    | None => false
                    end) (p_lanes p).

Definition stranded_error (provider : string) (peer : Z) (r : RequestImpl) : ErrorInfo :=
  mkErrorInfo Status.kPeerDisconnected provider peer 0
    (bool_decide (kind_ r = SubOpKind.kWrite))
    "peer disconnected while the request was in flight"%string.

Definition departed_error (peer : Z) : ErrorInfo :=
  mkErrorInfo Status.kPeerDisconnected EmptyString peer 0 false
    "the peer went before acknowledging; whether it arrived is not known"%string.

(** The in-flight requests of a peer. *)

Definition belongs_to (c : Core P D) (peer j : Z) : bool :=
  match c_reqs c !! j with
  | Some r => req_peer (att_ r) =? peer
  | None => false
  end.

Definition requests_of (c : Core P D) (peer : Z) : list Z :=
  filter (fun j => belongs_to c peer j = true) (elements (c_inflight c)).

Definition strand_one (provider : string) (peer : Z) (c : Core P D) (j : Z) : Core P D :=
  match c_reqs c !! j with
  | None => c
  | Some r =>
      let r := seal_accepted r in
      publish cfg j (put_req j (fail (stranded_error provider peer r) r)
        (count requests_failed 1 c))
  end.

Definition reap_one (e : Engine) (i : Z) : Engine :=
  match t_objs (e_peers e) !! i with
  | None => e
  | Some p =>
      let e := set_peers (put_peer i (bump_epoch p) (e_peers e)) e in
      let c := e_core e in
      let '(ps, _) := disconnect_lanes (p_lanes p) (c_providers c) Status.kOk in
      let c := with_providers ps c in
      let stranded := requests_of c (p_id p) in
      let c := with_inflight (c_inflight c ∖ list_to_set stranded) c in
      let name := match peer_provider p ≫= fun k => ps !! k with
                  | Some prov => cap_name (caps prov)
                  | None => EmptyString
                  end in
      let c := foldl (strand_one name (p_id p)) c stranded in
      set_core (end_notifications cfg (p_id p) false (departed_error (p_id p)) c)
        (add_reaped stranded e)
  end.

Definition departed (e : Engine) : list Z :=
  p_id <$> filter (fun p => p_connected p && any_lane_gone (c_providers (e_core e)) p = true)
    (known_peers (e_peers e)).

Definition reap_departed_peers (e : Engine) : Engine := foldl reap_one e (departed e).

(** ** Control messages *)

Definition keep_ready_locked (ev : ReadyEvent) (e : Engine) : Engine :=
  if cfg_ready_queue_depth cfg <=? Z.of_nat (length (e_ready e))
  then set_ready (e_ready e) (e_ready_dropped e + 1) e
  else set_ready (e_ready e ++ [ev]) (e_ready_dropped e) e.

Definition on_ready_handoff (peer : Z) (payload : list Z) (e : Engine) : Engine :=
  match decode_ready_handoff payload with
  | Done b =>
      let span := mkSpan (rh_offset b) (rh_length b) in
      let addr := match find_region (e_mem e) (rh_region b) with
                  | Some lr => if within span (mr_length lr) then mr_base lr + rh_offset b else 0
                  | None => 0
                  end in
      keep_ready_locked (mkReadyEvent (rh_request b) peer has_device addr (rh_length b)
                           (rh_region b) (rh_generation b) span)
        (on_core (count ready_handoffs_received 1) e)
  | _ => e
  end.

(** [k] is the transport it arrived on. *)

Definition reply (k : nat) (conn : option ConnId) (type : Z) (body : list Z) (c : Core P D)
    : Core P D * Status.t :=
  match c_providers c !! k with
  | None => (c, Status.kInternal)
  | Some prov =>
      let '(prov, s) := send_control prov conn type body in (set_provider k prov c, s)
  end.

Definition on_notification (k : nat) (peer : Z) (conn : option ConnId) (payload : list Z)
    (e : Engine) : Engine :=
  if bool_decide (length payload < kNotificationHeaderBytes)%nat then e
  else
    match decode_u64 (take kNotificationHeaderBytes payload) with
    | Done id =>
        let queued := Z.of_nat (length (e_notifications e)) <? cfg_notify_queue_depth cfg in
        if queued then
          let e := set_notifications
            (e_notifications e ++ [mkNotification peer id (drop kNotificationHeaderBytes payload)])
            e in
          let e := on_core (count notifications_received 1) e in
          match conn with
          | None => e
          | Some _ =>
              let '(c, s) := reply k conn ControlType.kNotificationAck (encode_u64 id) (e_core e) in
              set_core (if Status.ok s then c else count notification_acks_failed 1 c) e
          end
        else
          let e := on_core (count notifications_dropped 1) e in
          match conn with
          | None => e
          | Some _ =>
              set_core (fst (reply k conn ControlType.kNotificationRefused (encode_u64 id)
                               (e_core e))) e
          end
    | _ => e
    end.

(** The imported regions a notice names. *)

Definition exported_by (t : Peers) (origin : Identity) (h : Z) : bool :=
  match t_robjs t !! h with
  | Some rr => identity_eqb (d_origin (rr_d rr)) origin
  | None => false
  end.

Definition named_regions (t : Peers) (peer : Z) (b : RegionInvalidateBody) : list Z :=
  if ri_has_origin b then
    snd <$> filter (fun kv : (Z * Z) * Z =>
      snd (fst kv) = ri_region b ∧ exported_by t (ri_origin b) (snd kv) = true)
      (map_to_list (t_remotes t))
  else if peer =? 0 then []
  else match t_remotes t !! (peer, ri_region b) with Some h => [h] | None => [] end.

Definition invalidate_one (gen : Z) (t : Peers) (h : Z) : Peers :=
  match t_robjs t !! h with
  | None => t
  | Some rr => if d_generation (rr_d rr) =? gen then put_robj h (invalidate rr) t else t
  end.

Definition on_region_invalidate (peer : Z) (payload : list Z) (e : Engine) : Engine :=
  match decode_region_invalidate payload with
  | Done b =>
      let t := e_peers e in
      set_peers (foldl (invalidate_one (ri_generation b)) t (named_regions t peer b)) e
  | _ => e
  end.

(** [done]: what the acknowledgement or refusal does to the request. *)

Definition on_notification_reply (done_ : RequestImpl → RequestImpl) (payload : list Z)
    (e : Engine) : Engine :=
  match decode_u64 payload with
  | Done id =>
      match take_notification id (e_core e) with
      | (c, Some j) =>
          match c_reqs c !! j with
          | Some r => set_core (publish cfg j (put_req j (done_ r) c)) e
          | None => set_core c e
          end
      | (_, None) => e
      end
  | _ => e
  end.

Definition refused_error (peer : Z) : ErrorInfo :=
  mkErrorInfo Status.kResourceExhausted EmptyString peer 0 false
    "the peer's notification queue was full"%string.

Definition handle_control (k : nat) (e : Engine) (m : ControlMessage) : Engine :=
  let peer := peer_for_conn (e_peers e) (cm_conn m) in
  if cm_type m =? ControlType.kReadyHandoff then on_ready_handoff peer (cm_payload m) e
  else if cm_type m =? ControlType.kNotification
  then on_notification k peer (cm_conn m) (cm_payload m) e
  else if cm_type m =? ControlType.kRegionInvalidate
  then on_region_invalidate peer (cm_payload m) e
  else if cm_type m =? ControlType.kNotificationAck
  then on_notification_reply (fun r => finish_success (mark_stage Stage.kTransferComplete r))
         (cm_payload m) e
  else if cm_type m =? ControlType.kNotificationRefused
  then on_notification_reply (fail (refused_error peer)) (cm_payload m) e
  else e.

(** ** Progress *)

Definition control_turn (e : Engine) (k : nat) : Engine :=
  match c_providers (e_core e) !! k with
  | None => e
  | Some prov =>
      let '(prov, (s, msgs)) := poll_control prov (cfg_cq_batch cfg) in
      let e := on_core (set_provider k prov) e in
      if Status.ok s then foldl (handle_control k) (add_events (length msgs) e) msgs else e
  end.

Definition arrival_event (a : PeerArrival) : ReadyEvent :=
  mkReadyEvent (pa_token a) (pa_from a) has_device 0 0 0 0 (mkSpan 0 0).

Definition arrival_turn (e : Engine) (k : nat) : Engine :=
  match c_providers (e_core e) !! k with
  | None => e
  | Some prov =>
      let '(prov, (s, arrivals)) := poll_peer_arrivals prov (cfg_cq_batch cfg) in
      let e := on_core (set_provider k prov) e in
      if Status.ok s
      then foldl (fun e a => keep_ready_locked (arrival_event a) e)
             (add_events (length arrivals) e) arrivals
      else e
  end.

Definition progress (e : Engine) : Engine * Status.t :=
  let e := on_core (drain_pending cfg) e in
  let e := reap_departed_peers e in
  let e := on_core (end_notifications cfg 0 true no_error) e in
  let turns := seq 0 (length (c_providers (e_core e))) in
  let e := foldl control_turn e turns in
  let e := foldl arrival_turn e turns in
  let n := length (snd (poll_all cfg (c_providers (e_core e)))) in
  let '(c, polled) := poll_completion_events cfg has_device (e_core e) in
  (set_core c (add_events n e), polled).

(** ** Polling *)

Definition explicit_progress (e : Engine) : Engine * Status.t :=
  if bool_decide (cfg_progress cfg = ProgressMode.kExplicit) then progress e
  else (e, Status.kOk).

Definition poll_notifications (max : Z) (e : Engine) : Engine * (Status.t * list Notification) :=
  let '(e, _) := explicit_progress e in
  let n := Z.to_nat max in
  (set_notifications (drop n (e_notifications e)) e, (Status.kOk, take n (e_notifications e))).

Definition poll_completions (max : Z) (e : Engine) : Engine * (Status.t * list Z) :=
  let '(e, s) := explicit_progress e in
  let n := Z.to_nat max in
  (on_core (fun c => with_completed (drop n (c_completed c)) c) e,
   (s, take n (c_completed (e_core e)))).

Definition poll_ready_events (max : Z) (e : Engine) : Engine * (Status.t * list ReadyEvent) :=
  let '(e, _) := explicit_progress e in
  let n := Z.to_nat max in
  (set_ready (drop n (e_ready e)) (e_ready_dropped e) e, (Status.kOk, take n (e_ready e))).

Definition has_outstanding (e : Engine) : bool :=
  negb (bool_decide (c_inflight (e_core e) = ∅)) || negb (bool_decide (c_pending (e_core e) = []))
  || negb (bool_decide (c_notify (e_core e) = ∅)).

(** ** Closing *)

(** [expired n] is whether the deadline has passed on turn [n]; without a
    timeout it never has.  [None] when the fuel runs out. *)

Fixpoint close_loop (fuel : nat) (n : nat) (expired : nat → bool) (e : Engine)
    : option (Engine * Status.t) :=
  if bool_decide (c_inflight (e_core e) = ∅) then
    let e := on_core (end_notifications cfg 0 false no_error) e in
    Some (set_flags (e_closed e) true e, Status.kOk)
  else if expired n then Some (e, Status.kTimeout)
  else
    match fuel with
    | O => None
    | S fuel => close_loop fuel (S n) expired (fst (progress e))
    end.

Definition close (fuel : nat) (expired : nat → bool) (e : Engine) : option (Engine * Status.t) :=
  close_loop fuel 0 expired (set_flags true (e_stopping e) e).

(** The application cancels request [j]. *)

Definition cancel_request (j : Z) (e : Engine) : Engine * Status.t :=
  match c_reqs (e_core e) !! j with
  | None => (e, Status.kInvalidArgument)
  | Some r => let '(r, s) := cancel r in (on_core (put_req j r) e, s)
  end.

(** ** Counters *)

Record StatsView : Type := mkStatsView {
  sv_stats : EngineStats;
  sv_completions_dropped : Z;
  sv_ready_events_dropped : Z;
  sv_waiting_on_dependency : Z;
  sv_cache_size : Z;
  sv_provider : ProviderStats
}.

Definition add_provider_stats (a b : ProviderStats) : ProviderStats :=
  mkProviderStats (ps_subops_posted a + ps_subops_posted b)
    (ps_subops_completed a + ps_subops_completed b) (ps_subops_failed a + ps_subops_failed b)
    (ps_payload_bytes a + ps_payload_bytes b)
    (ps_payload_bytes_copied a + ps_payload_bytes_copied b).

Definition waits (c : Core P D) (p : PendingSubmit) : bool :=
  match c_reqs c !! pd_req p with
  | Some r => bool_decide (state_ r = RequestState.kWaitDependency)
  | None => false
  end.

Definition waiting_on_dependency (c : Core P D) : gset Z :=
  list_to_set (pd_req <$> filter (fun p => waits c p = true) (c_pending c)).

Definition engine_stats (e : Engine) : StatsView :=
  let c := e_core e in
  mkStatsView (c_stats c) (c_dropped c) (e_ready_dropped e)
    (Z.of_nat (size (waiting_on_dependency c))) (Z.of_nat (length (m_cache (e_mem e))))
    (foldl add_provider_stats no_provider_stats (stats <$> c_providers c)).

End Engine.

Arguments Engine P D : clear implicits.
