(* ===== verification/EngineSafe.v ===== *)
(** * Every run of the engine, with submitters, progress and the application
    interleaved.

    [World] is the engine together with what submitting threads have in hand:
    submissions prepared but not admitted, and admitted pieces of work they have
    yet to post.  [world_step] is one atomic piece of any call, so a run is any
    interleaving of calls from any number of threads. *)

From stdpp Require Import base list gmap strings numbers.
From S2P Require Import Prelude Float64 Types Wire Region Metadata Provider Request SubOps.
From S2P Require Import EngineCore EngineInv EngineMemory EnginePeers Engine.

Set Warnings "-clear-no-such-hyp".

Section Steps.
Context {P D : Type} `{!TransportProvider P} `{!ProviderLaws P} `{!DeviceWorld D}.
Implicit Types c : Core P D.
Context (gh : Ghost).

(** ** Pieces of work are only moved by [drain_pending] and the submitters *)

Lemma on_event_pending cfg hd c ev : c_pending (on_event cfg hd c ev) = c_pending c.
Proof.
  assert (G : ∀ i c0, c_pending (publish cfg i c0) = c_pending c0)
    by (intros; apply publish_frame).
  unfold on_event. destruct (negb _); [done|]. destruct (c_reqs c !! _); [|done].
  destruct (on_subop_complete ev r) as [r1 last]. destruct (negb last); [done|].
  unfold claim. cbn. case_bool_decide; cbn; [|done]. unfold finish_transfer.
  destruct (cancel_requested r1); [by rewrite G|]. destruct (negb _); [by rewrite G|].
  rewrite G. cbn. by rewrite (q_pending _ _ (quiet_send_handoffs _ _ _)).
Qed.

Lemma poll_events_pending cfg hd c :
  c_pending (fst (poll_completion_events cfg hd c)) = c_pending c.
Proof.
  unfold poll_completion_events. destruct (poll_all cfg (c_providers c)) as [[ps s] evs]. cbn [fst].
  assert (G : ∀ l c0, c_pending (foldl (on_event cfg hd) c0 l) = c_pending c0).
  { induction l as [|ev l IH]; intros c0; [done|]. cbn [foldl]. by rewrite IH, on_event_pending. }
  by rewrite G.
Qed.

(** ** Admission *)

Lemma core_inv_fresh R c ps h evs i :
  core_inv gh R c ps h evs → c_reqs c !! i = None →
  (i ∉ c_inflight c) ∧ (i ∉ c_log c) ∧ out c evs i = 0%nat ∧ nparts i ps = 0%nat
  ∧ (∀ n, c_notify c !! n ≠ Some i).
Proof.
  intros I Hi. pose proof (ci_req _ _ _ _ _ _ I i) as Q. rewrite Hi in Q.
  destruct Q as (? & ? & ? & ? & _). split_and!; auto.
  intros n Hn. destruct (proj1 (ci_notify _ _ _ _ _ _ I) n i Hn) as (r & Hr & _). congruence.
Qed.

Lemma nparts_app i ps ps' : nparts i (ps ++ ps') = (nparts i ps + nparts i ps')%nat.
Proof. unfold nparts. by rewrite sum_list_with_app. Qed.

Lemma nops_app i ps ps' : nops i (ps ++ ps') = (nops i ps + nops i ps')%nat.
Proof. unfold nops. by rewrite sum_list_with_app. Qed.

Lemma core_inv_admit R c c' ps parts i r :
  core_inv gh R c ps None [] → c_reqs c !! i = None →
  c_reqs c' = <[i := r]> (c_reqs c) → c_inflight c' = {[i]} ∪ c_inflight c →
  c_log c' = c_log c → c_notify c' = c_notify c → c_providers c' = c_providers c →
  c_stats c' requests_accepted = c_stats c requests_accepted + 1 →
  ended_count (c_stats c') = ended_count (c_stats c) →
  Forall part_ok parts → Forall (fun p => pd_req p = i) parts →
  id_ r = i → g_holds gh i (att_ r) → g_known gh i → flight r 0 (nparts i parts) (nops i parts) 0 →
  core_inv gh R c' (ps ++ parts) None [].
Proof.
  intros I Hi E1 E2 E3 E4 E5 E6 E7 Hp Hr Hid Hh Hkn F.
  destruct (core_inv_fresh _ _ _ _ _ _ I Hi) as (N1 & N2 & N3 & N4 & N5).
  pose proof (fl_total _ _ _ _ _ F) as Ht.
  assert (Ho : ∀ j, out c' [] j = out c [] j) by (intros j; unfold out; by rewrite E5).
  assert (Hz : ∀ j, j ≠ i → nparts j parts = 0%nat).
  { intros j Hj. clear -Hr Hj. induction Hr as [|p l Hx Hr IH]; [done|].
    rewrite nparts_cons, decide_False by congruence. done. }
  eapply (core_inv_local _ _ _ _ _ _ _ _ _ _ i I).
  - intros j Hj. rewrite E1, E2, E3, Ho, lookup_insert_ne, nparts_app, nops_app by done.
    specialize (Hz j Hj). pose proof (nparts_0_nops j parts Hz). split_and!; try done; try lia.
    set_solver.
  - rewrite E1, lookup_insert_eq, E2, E3, Ho, nparts_app, nops_app, N3, N4.
    pose proof (nparts_0_nops i ps N4) as ->. cbn. split_and!; try done; try lia.
    + intros Hn. set_solver.
  - rewrite E3. apply I.
  - apply Forall_app. split; [apply I|done].
  - rewrite E2, E6, E7, (ci_stats _ _ _ _ _ _ I), size_union by set_solver.
    rewrite size_singleton. lia.
  - destruct (ci_notify _ _ _ _ _ _ I) as [M1 M2]. split.
    + intros n j Hn. rewrite E4 in Hn. destruct (M1 n j Hn) as (r' & ? & ? & ? & ? & ?).
      assert (j ≠ i) by (intros ->; by apply (N5 n)).
      exists r'. rewrite E1, lookup_insert_ne, E2, E3 by done. split_and!; try done. set_solver.
    + intros n m j. rewrite E4. apply M2.
  - intros x. rewrite E1, lookup_insert_eq. by intros [= <-] _.
  - done.
  - rewrite E4. apply I.
Qed.

(** ** Requests without sub-operations *)

(** Moves a request of no sub-operations that is not published. *)

Lemma core_inv_small R c c' ps h evs i r r' (logged : bool) :
  core_inv gh R c ps h evs → c_reqs c !! i = Some r → total_subops_ r <= 0 →
  id_ r' = i → total_subops_ r' = total_subops_ r →
  (i ∉ c_log c) → (logged = true → terminal_locked r' = true) →
  c_reqs c' = <[i := r']> (c_reqs c) → c_inflight c' = c_inflight c →
  c_log c' = (if logged then c_log c ++ [i] else c_log c) →
  (∀ n j, c_notify c' !! n = Some j → c_notify c !! n = Some j) →
  (∀ n, c_notify c' !! n = Some i → terminal_locked r' = false ∧ logged = false) →
  (∀ j, total_out (c_providers c') j = total_out (c_providers c) j) →
  c_stats c' requests_accepted = c_stats c requests_accepted →
  ended_count (c_stats c') = ended_count (c_stats c) →
  core_inv gh R c' ps h evs.
Proof.
  intros I Hr Ht Hid Ht' Hlog HT E1 E2 E3 E4 E4' E5 E6 E7.
  assert (Ho : ∀ j, out c' evs j = out c evs j) by (intros; unfold out; by rewrite E5).
  pose proof (ci_req _ _ _ _ _ _ I i) as Q. rewrite Hr in Q.
  destruct Q as (_ & Q1 & _ & _ & Q3). destruct Q3 as (Z1 & Z2 & Z3); [lia|].
  assert (Hni : i ∉ c_inflight c).
  { intros Hin. destruct (Q1 Hin) as [_ F]. pose proof (fl_total _ _ _ _ _ F). lia. }
  assert (Hl : ∀ j, j ≠ i → j ∈ c_log c' ↔ j ∈ c_log c)
    by (intros; rewrite E3; destruct logged; set_solver).
  eapply (core_inv_local _ _ _ _ _ _ _ _ _ _ i I).
  - intros j Hj. rewrite E1, E2, Ho, Hl, lookup_insert_ne by done. done.
  - rewrite E1, lookup_insert_eq, E2, Ho, Z1, Z2, Z3. cbn. split_and!; try done; try lia.
    rewrite E3. destruct logged; [|done]. intros _. split; [auto|done].
  - rewrite E3. destruct logged; [|apply I]. apply list.NoDup_app.
    split; [apply I|]. split; [set_solver|apply NoDup_singleton].
  - apply I.
  - rewrite E2, E6, E7. apply I.
  - destruct (ci_notify _ _ _ _ _ _ I) as [M1 M2]. split.
    + intros n j Hn. destruct (M1 n j (E4 _ _ Hn)) as (x & ? & ? & ? & ? & ?).
      rewrite E1, E2. destruct (decide (j = i)) as [->|Hne].
      * destruct (E4' n Hn) as [? Hf]. exists r'. rewrite lookup_insert_eq, E3, Hf.
        assert (x = r) as -> by congruence. split_and!; try done. congruence.
      * exists x. rewrite lookup_insert_ne, Hl by done. done.
    + intros n m j Hn Hm. eauto.
  - rewrite E2. done.
  - intros _. apply (ci_known _ _ _ _ _ _ I). eauto.
  - intros n [j Hn]. apply (ci_noted _ _ _ _ _ _ I). eauto.
Qed.

(** ** Ending notifications *)

Lemma publish_put_small R cfg c ps evs i r r' :
  core_inv gh R c ps None evs → c_reqs c !! i = Some r → total_subops_ r = 0 →
  (i ∉ c_log c) → (∀ n, c_notify c !! n ≠ Some i) →
  id_ r' = i → total_subops_ r' = 0 → terminal_locked r' = true →
  core_inv gh R (publish cfg i (put_req i r' c)) ps None evs.
Proof.
  intros I Hr Ht Hl Hn Hid Ht' T.
  destruct (publish_frame cfg i (put_req i r' c)) as (F1 & F2 & F3 & F4 & F5 & F6 & _).
  eapply (core_inv_small _ _ _ _ _ _ i r r' true I); auto; try lia; rewrite ?F1, ?F2, ?F3, ?F4, ?F5, ?F6;
    auto.
  intros n Hx. by destruct (Hn n).
Qed.

(** The notifications of [js] have been taken out of the table. *)

Definition untabled (c : Core P D) (js : list Z) : Prop :=
  NoDup js ∧ ∀ j, j ∈ js → (∃ r, c_reqs c !! j = Some r ∧ total_subops_ r = 0 ∧ id_ r = j)
    ∧ (j ∉ c_log c) ∧ ∀ n, c_notify c !! n ≠ Some j.

Lemma end_one_inv R cfg e c ps evs js :
  core_inv gh R c ps None evs → untabled c js →
  core_inv gh R (foldl (end_one cfg e) c js) ps None evs
  ∧ c_pending (foldl (end_one cfg e) c js) = c_pending c.
Proof.
  revert c. induction js as [|j js IH]; intros c I [Hnd Hu]; [done|]. cbn [foldl].
  apply list.NoDup_cons in Hnd as [Hj Hnd].
  destruct (Hu j (list_elem_of_here _ _)) as ((r & Hr & Ht & Hid) & Hl & Hn).
  unfold end_one at 2 4. rewrite Hr.
  set (r' := if err_ok e || cancel_requested r then finish_cancelled r else fail e r).
  destruct (terminal_same_total r r') as [(S1 & S2 & _) T].
  { unfold r', finished. destruct (_ || _); eauto. }
  destruct (publish_frame cfg j (put_req j r' c)) as (F1 & F2 & F3 & F4 & F5 & F6 & F7).
  destruct (IH (publish cfg j (put_req j r' c))) as [I2 P2].
  - apply (publish_put_small R cfg c ps evs j r r' I Hr Ht Hl Hn); [congruence..|done].
  - split; [done|]. intros x Hx. assert (x ≠ j) by (intros ->; done).
    destruct (Hu x (list_elem_of_further _ _ _ Hx)) as ((rx & ? & ? & ?) & ? & ?).
    rewrite F1, F3, F4. cbn. split_and!; auto.
    + exists rx. by rewrite lookup_insert_ne.
    + rewrite elem_of_app, list_elem_of_singleton. tauto.
  - split; [done|]. by rewrite P2, F7.
Qed.

Lemma end_notifications_inv R cfg peer oc e c ps evs :
  core_inv gh R c ps None evs →
  core_inv gh R (end_notifications cfg peer oc e c) ps None evs
  ∧ c_pending (end_notifications cfg peer oc e c) = c_pending c.
Proof.
  intros I. unfold end_notifications.
  set (hit := fun kv : Z * Z => notify_match c peer oc (snd kv) = true).
  set (kept := filter _ (c_notify c)).
  destruct (ci_notify _ _ _ _ _ _ I) as [M1 M2].
  assert (Hk : ∀ n j, kept !! n = Some j → c_notify c !! n = Some j)
    by (intros n j Hn; by apply map_lookup_filter_Some in Hn as [? _]).
  assert (I1 : core_inv gh R (with_notify kept c) ps None evs).
  { destruct I as [H1 H2 H3 H4 H5 H6 H7 H8]. split; auto; [|intros n [j Hn]; eauto]. split.
    - intros n j Hn. apply (M1 n j). by apply Hk.
    - intros n m j Hn Hm. apply (M2 n m j); by apply Hk. }
  set (js := snd <$> filter hit (map_to_list (c_notify c))).
  apply (end_one_inv R cfg e (with_notify kept c) ps evs js I1). split.
  - unfold js. clear I1. apply NoDup_fmap_2_strong; [|by apply list.NoDup_filter, NoDup_map_to_list].
    intros [n j] [n' j'] H1 H2 Hj. cbn in Hj. subst j'.
    apply list_elem_of_filter in H1 as [_ H1%elem_of_map_to_list].
    apply list_elem_of_filter in H2 as [_ H2%elem_of_map_to_list]. by rewrite (M2 n n' j).
  - intros j Hj. apply list_elem_of_fmap in Hj as ([n j'] & -> & Hx). cbn.
    apply list_elem_of_filter in Hx as [Hm Hx%elem_of_map_to_list]. unfold hit in Hm. cbn in Hm.
    destruct (M1 n j' Hx) as (r & Hr & Ht & _ & Hl & _).
    pose proof (ci_req _ _ _ _ _ _ I j') as Q. rewrite Hr in Q. destruct Q as (Hid & _).
    split_and!; eauto. intros n' Hn'. apply map_lookup_filter_Some in Hn' as [_ Hf].
    cbn in Hf. congruence.
Qed.

(** ** The reaper *)

Lemma strand_one_inflight cfg name peer x c j :
  strand_one cfg name peer (with_inflight x c) j = with_inflight x (strand_one cfg name peer c j).
Proof.
  unfold strand_one. cbn. destruct (c_reqs c !! j); [|done].
  unfold publish, keep_completed_locked. cbn. destruct (_ =? 0); [done|]. by destruct (_ <=? _).
Qed.

Lemma strand_one_frame cfg name peer c j :
  c_inflight (strand_one cfg name peer c j) = c_inflight c
  ∧ c_pending (strand_one cfg name peer c j) = c_pending c
  ∧ c_providers (strand_one cfg name peer c j) = c_providers c
  ∧ ∀ x, x ≠ j → c_reqs (strand_one cfg name peer c j) !! x = c_reqs c !! x.
Proof.
  unfold strand_one. destruct (c_reqs c !! j); [|done].
  match goal with |- context [publish cfg j ?c0] =>
    destruct (publish_frame cfg j c0) as (-> & -> & _ & _ & _ & -> & ->) end.
  split_and!; try done. intros x Hx. cbn. by rewrite lookup_insert_ne.
Qed.

Lemma strand_inv R cfg name peer c ps js :
  core_inv gh R c ps None [] → NoDup js → (∀ j, j ∈ js → j ∈ c_inflight c) →
  let c' := foldl (strand_one cfg name peer)
    (with_inflight (c_inflight c ∖ list_to_set js) c) js in
  core_inv gh (R ∪ list_to_set js) c' ps None [] ∧ c_pending c' = c_pending c.
Proof.
  revert R c. induction js as [|j js IH]; intros R c I Hnd Hin; cbn [foldl].
  - split; [|done]. assert (R ∪ list_to_set [] = R) as -> by set_solver.
    eapply core_inv_quiet; [exact I|]. split; try done. cbn. set_solver.
  - apply list.NoDup_cons in Hnd as [Hj Hnd]. assert (Hi : j ∈ c_inflight c) by (apply Hin; set_solver).
    pose proof (ci_req _ _ _ _ _ _ I j) as Q.
    destruct (c_reqs c !! j) as [r|] eqn:Hr; [|by destruct Q as [Q _]].
    set (c1 := strand_one cfg name peer (with_inflight (c_inflight c ∖ {[j]}) c) j).
    assert (I1 : core_inv gh (R ∪ {[j]}) c1 ps None []).
    { unfold c1, strand_one. cbn [c_reqs with_inflight]. rewrite Hr.
      pose proof ends_cases as (? & ? & ?).
      eapply (end_inv gh _ cfg c _ ps ps None None [] [] j r (seal_accepted r)); eauto;
        try (cbn; eauto; fail); try done.
      - eapply core_inv_mono; [|exact I]. set_solver.
      - apply I.
      - unfold finished. eauto.
      - left. set_solver. }
    destruct (strand_one_frame cfg name peer (with_inflight (c_inflight c ∖ {[j]}) c) j)
      as (F1 & F2 & F3 & _). fold c1 in F1, F2, F3. cbn in F1.
    destruct (IH (R ∪ {[j]}) c1 I1 Hnd) as [I2 P2].
    { intros x Hx. rewrite F1. set_solver. }
    assert (Eq : strand_one cfg name peer
        (with_inflight (c_inflight c ∖ list_to_set (j :: js)) c) j
      = with_inflight (c_inflight c1 ∖ list_to_set js) c1).
    { rewrite F1. unfold c1. rewrite <- strand_one_inflight.
      assert (c_inflight c ∖ list_to_set (j :: js) = c_inflight c ∖ {[j]} ∖ list_to_set js)
        as -> by set_solver. done. }
    cbn zeta. rewrite Eq. clear Eq.
    assert (R ∪ list_to_set (j :: js) = R ∪ {[j]} ∪ list_to_set js) as -> by set_solver.
    rewrite P2, F2. done.
Qed.

(** A new notification. *)

Lemma core_inv_note R c ps id j r :
  core_inv gh R c ps None [] → c_reqs c !! j = None → c_notify c !! id = None →
  g_known gh j → g_noted gh id → id_ r = j → total_subops_ r = 0 → terminal_locked r = false →
  core_inv gh R (put_req j r (with_notify (<[id := j]> (c_notify c)) c)) ps None [].
Proof.
  intros I Hj Hid Kj Kid Hr Ht Hl.
  destruct (core_inv_fresh _ _ _ _ _ _ I Hj) as (N1 & N2 & N3 & N4 & N5).
  eapply (core_inv_local _ _ _ _ _ _ _ _ _ _ j I); try apply I; cbn; auto.
  - intros x Hx. rewrite lookup_insert_ne by done. done.
  - rewrite lookup_insert_eq. cbn. unfold out in *. cbn. split_and!; try done; try lia.
  - destruct (ci_notify _ _ _ _ _ _ I) as [M1 M2]. split; cbn.
    + intros n x Hn. destruct (decide (n = id)) as [->|Hne].
      * rewrite lookup_insert_eq in Hn. injection Hn as <-. exists r. by rewrite lookup_insert_eq.
      * rewrite lookup_insert_ne in Hn by done. destruct (M1 n x Hn) as (y & Hy & ?).
        exists y. rewrite lookup_insert_ne; [done|]. intros <-. congruence.
    + intros n m x. rewrite !lookup_insert_Some.
      intros [[<- <-]|[_ Hn]] [[<- Hx]|[_ Hm]]; try done.
      * by destruct (N5 m).
      * subst. by destruct (N5 n).
      * by apply (M2 n m x).
  - done.
  - intros n [x Hn]. destruct (decide (n = id)) as [->|Hne]; [done|].
    rewrite lookup_insert_ne in Hn by done. apply (ci_noted _ _ _ _ _ _ I). eauto.
Qed.

(** The rest of the engine moved. *)

Lemma core_inv_ghost gh' R c ps h evs :
  core_inv gh R c ps h evs →
  (∀ j r, c_reqs c !! j = Some r → j ∈ c_inflight c →
    g_holds gh j (att_ r) → g_holds gh' j (att_ r)) →
  (∀ j, is_Some (c_reqs c !! j) → g_known gh j → g_known gh' j) →
  (∀ n, g_noted gh n → g_noted gh' n) →
  core_inv gh' R c ps h evs.
Proof. intros [H1 H2 H3 H4 H5 H6 H7 H8] A B C. split; eauto. Qed.

End Steps.

(** ** The memory calls, as the accounting sees them *)

Section MemoryQuiet.
Context {P D : Type} `{!TransportProvider P} `{!ProviderLaws P}.
Implicit Types c : Core P D.

Lemma deregister_held_out held (ps : list P) j :
  total_out (deregister_held held ps) j = total_out ps j.
Proof.
  revert ps. induction held as [|[k lkey] held IH]; intros ps; [done|]. cbn [deregister_held].
  rewrite IH. destruct (ps !! k) as [p|] eqn:Hk; [|done].
  apply (total_out_insert_same _ _ p); [done|]. apply deregister_outstanding.
Qed.

Definition same_regions (m m' : Memory) : Prop :=
  m_objs m' = m_objs m ∧ m_table m' = m_table m ∧ m_next_region m' = m_next_region m.

Lemma release_quiet g c m :
  quiet c (fst (release g (c, m))) ∧ same_regions m (snd (release g (c, m))).
Proof.
  unfold release. destruct (m_regs m !! g); [|done]. split; [|done].
  apply quiet_providers. intros j. apply deregister_held_out.
Qed.

Lemma release_all_quiet gs c m :
  quiet c (fst (release_all gs (c, m))) ∧ same_regions m (snd (release_all gs (c, m))).
Proof.
  revert c m. induction gs as [|g gs IH]; intros c m; [done|]. unfold release_all. cbn [foldl].
  destruct (release_quiet g c m) as (Q & E1 & E2 & E3). destruct (release g (c, m)) as [c1 m1].
  destruct (IH c1 m1) as (Q' & E1' & E2' & E3'). unfold release_all in *. cbn [fst snd] in *.
  split; [by transitivity c1|]. split_and!; congruence.
Qed.

Lemma release_cached_quiet c m :
  let cm := fst (release_cached_registrations (c, m)) in
  quiet c (fst cm) ∧ same_regions m (snd cm).
Proof.
  unfold release_cached_registrations. cbn [fst].
  match goal with |- context [release_all ?gs (c, ?m1)] =>
    apply (release_all_quiet gs c m1) end.
Qed.

Lemma register_all_out k (ps : list P) addr len dev access fe j :
  let '(ps', _, _, _) := register_all k ps addr len dev access fe in
  total_out ps' j = total_out ps j.
Proof.
  revert k fe. induction ps as [|p ps IH]; intros k fe; [done|]. cbn [register_all].
  pose proof (register_outstanding p addr len dev access j) as O.
  destruct (register_region p addr len dev access) as [p' [[s lk] rk]]. cbn [fst] in O.
  destruct (negb (Status.ok s));
    match goal with |- context [register_all (S k) ps addr len dev access ?x] =>
      specialize (IH (S k) x) end;
    destruct (register_all _ _ _ _ _ _ _) as [[[ps' ks] h] fe'];
    unfold total_out in *; cbn [sum_list_with]; lia.
Qed.

Lemma broadcast_all_out k (ps : list P) type payload j :
  let '(ps', _, _, _) := broadcast_all k ps type payload in total_out ps' j = total_out ps j.
Proof.
  revert k. induction ps as [|p ps IH]; intros k; [done|]. cbn [broadcast_all].
  pose proof (broadcast_outstanding p type payload j) as O.
  destruct (broadcast_control p type payload) as [p' [[s a] b]]. cbn [fst] in O.
  specialize (IH (S k)). destruct (broadcast_all (S k) ps type payload) as [[[ps' a'] b'] r].
  destruct (Status.ok s); unfold total_out in *; cbn [sum_list_with]; lia.
Qed.

Lemma tell_peers_out peers obo type payload (ps : list P) j :
  let '(ps', _, _) := tell_peers peers obo type payload ps in total_out ps' j = total_out ps j.
Proof.
  revert ps. induction peers as [|[[cn k] conn] peers IH]; intros ps; [done|]. cbn [tell_peers].
  destruct (_ || _); [apply IH|]. destruct (ps !! k) as [p|] eqn:Hk; [|apply IH].
  pose proof (send_outstanding p (Some conn) type payload) as O.
  destruct (send_control p (Some conn) type payload) as [p' s]. cbn [fst] in O.
  specialize (IH (<[k := p']> ps)).
  destruct (tell_peers peers obo type payload (<[k := p']> ps)) as [[ps' a] b].
  rewrite (total_out_insert_same _ _ p) in IH by done. by destruct (Status.ok s).
Qed.

(** How a call may change which regions there are. *)

Definition grows (m m' : Memory) : Prop :=
  m_table m ⊆ m_table m'
  ∧ (∀ i, is_Some (m_objs m !! i) → is_Some (m_objs m' !! i))
  ∧ (∀ i lr, m_objs m' !! i = Some lr → m_objs m !! i = Some lr ∨ i ∈ m_table m').

Lemma grows_same m m' : m_objs m' = m_objs m → m_table m' = m_table m → grows m m'.
Proof. intros E1 E2. unfold grows. rewrite E1, E2. auto. Qed.

Lemma cache_registration_quiet cfg g c m :
  let cm := cache_registration cfg g (c, m) in
  quiet c (fst cm) ∧ same_regions m (snd cm).
Proof.
  unfold cache_registration. destruct (evict_loop _ _ _ _) as [kept ev].
  apply (release_all_quiet ev c (with_cache kept m)).
Qed.

Lemma add_handle_grows origin addr len dev mem access g reg m m' i :
  add_handle origin addr len dev mem access g reg m = (m', i) → grows m m'.
Proof.
  unfold add_handle. intros [= <- <-]. unfold grows. cbn. split_and!; [set_solver| |].
  - intros i [lr Hi]. destruct (decide (i = m_next_region m)) as [->|Hne];
      [rewrite lookup_insert_eq; eauto|rewrite lookup_insert_ne; eauto].
  - intros i lr. rewrite lookup_insert_Some. intros [[<- _]|[_ ?]]; [right; set_solver|auto].
Qed.

Lemma register_memory_quiet cfg device origin addr len access c m :
  let cm := fst (register_memory cfg device origin addr len access (c, m)) in
  quiet c (fst cm) ∧ grows m (snd cm).
Proof.
  unfold register_memory. destruct (_ || _); [split; [done|by apply grows_same]|].
  destruct (match device with Some d => _ | None => _ end) as [dev mem].
  destruct (_ && _); [split; [done|by apply grows_same]|].
  destruct (find_registration m addr len dev access) as [g|].
  - destruct (m_regs m !! g) as [e|]; [|split; [done|by apply grows_same]].
    destruct (add_handle origin addr len dev mem access g (rg_reg e) m) as [m' i] eqn:E.
    split; [|by eapply add_handle_grows]. apply quiet_count; [unfold ends; naive_solver|done].
  - set (c1 := count registrations_created 1 c).
    assert (Q1 : quiet c c1) by (apply quiet_count; [unfold ends; naive_solver|done]).
    pose proof (register_all_out 0 (c_providers c1) addr len dev access Status.kOk) as O.
    destruct (register_all 0 _ addr len dev access Status.kOk) as [[[ps keys] held] fe].
    assert (Q2 : quiet c (with_providers ps c1))
      by (transitivity c1; [done|by apply quiet_providers]).
    destruct keys as [|k0 keys]; [split; [done|by apply grows_same]|].
    set (e := mkRegEntry _ held). destruct (add_registration e m) as [m1 g] eqn:E1.
    assert (G1 : m_objs m1 = m_objs m ∧ m_table m1 = m_table m)
      by (unfold add_registration in E1; injection E1 as <- _; done).
    destruct G1 as [G1 G2].
    set (cm := if 0 <? _ then _ else _).
    assert (C : quiet c (fst cm) ∧ m_objs (snd cm) = m_objs m ∧ m_table (snd cm) = m_table m).
    { unfold cm. destruct (0 <? _); [|done].
      destruct (cache_registration_quiet cfg g (with_providers ps c1) m1) as (? & -> & -> & _).
      split; [|done]. by transitivity (with_providers ps c1). }
    destruct cm as [c3 m3]. cbn [fst snd] in C. destruct C as (C1 & C2 & C3).
    destruct (add_handle _ _ _ _ _ _ _ _ m3) as [m4 i] eqn:E. split; [done|].
    apply add_handle_grows in E as (A1 & A2 & A3). unfold grows. rewrite C2, C3 in *.
    split_and!; auto.
Qed.

Lemma deregister_memory_quiet peers i c m :
  let '(cm, s) := deregister_memory peers i (c, m) in
  quiet c (fst cm)
  ∧ (s = Status.kOk → region_busy c i = false ∧ i ∉ m_table (snd cm))
  ∧ (∀ j, is_Some (m_objs (snd cm) !! j) ↔ is_Some (m_objs m !! j))
  ∧ (∀ j, j ∈ m_table m → region_busy c j = true → j ∈ m_table (snd cm))
  ∧ (∀ j lr, m_objs (snd cm) !! j = Some lr → j ∉ m_table (snd cm) →
       mr_retired lr = true ∨ m_objs m !! j = Some lr ∧ j ∉ m_table m).
Proof.
  unfold deregister_memory. destruct (m_objs m !! i) as [lr|] eqn:Hi; [|split_and!; auto; done].
  set (m1 := with_objs _ m).
  assert (Hobj : ∀ j, is_Some (m_objs m1 !! j) ↔ is_Some (m_objs m !! j)).
  { intros j. cbn. destruct (decide (i = j)) as [->|Hne].
    - rewrite lookup_insert_eq, Hi. split; eauto.
    - by rewrite lookup_insert_ne. }
  assert (Hret : ∀ j x, m_objs m1 !! j = Some x →
    j = i ∧ mr_retired x = true ∨ j ≠ i ∧ m_objs m !! j = Some x).
  { intros j x. cbn. rewrite lookup_insert_Some. intros [[<- <-]|[? ?]]; auto. }
  destruct (region_busy c i) eqn:Hb.
  { cbn [fst snd]. split; [done|]. split; [done|]. split; [done|]. split; [done|].
    intros j x Hj Hn. destruct (Hret j x Hj) as [[_ ?]|[_ ?]]; auto. }
  pose proof (broadcast_all_out 0 (c_providers c) ControlType.kRegionInvalidate
    (encode_region_invalidate (mkRegionInvalidateBody (mr_id lr) (mr_gen lr) true (mr_origin lr))))
    as O1.
  destruct (broadcast_all 0 _ _ _) as [[[ps sent] refused] obo].
  pose proof (tell_peers_out peers obo ControlType.kRegionInvalidate
    (encode_region_invalidate (mkRegionInvalidateBody (mr_id lr) (mr_gen lr) true (mr_origin lr)))
    ps) as O2.
  destruct (tell_peers _ _ _ _ ps) as [[ps' sent'] refused']. split_and!; auto.
  - cbn. transitivity (with_providers ps' c).
    { apply quiet_providers. intros j. by rewrite O2, O1. }
    etransitivity; [|apply quiet_count; [unfold ends; naive_solver|done]].
    apply quiet_count; [unfold ends; naive_solver|done].
  - intros _. split; [done|]. cbn. set_solver.
  - intros j Hj Hbj. cbn. apply elem_of_difference. split; [done|].
    intros ->%elem_of_singleton. congruence.
  - cbn. intros j x Hj Hn. destruct (Hret j x Hj) as [[_ ?]|[Hne ?]]; [auto|right].
    split; [done|]. set_solver.
Qed.

Lemma forget_region_quiet i c m :
  let cm := forget_region i (c, m) in
  quiet c (fst cm) ∧ m_table (snd cm) = m_table m
  ∧ (∀ j lr, m_objs (snd cm) !! j = Some lr → m_objs m !! j = Some lr)
  ∧ (∀ j, j ≠ i → is_Some (m_objs m !! j) → is_Some (m_objs (snd cm) !! j)).
Proof.
  unfold forget_region. destruct (_ || _); [by split_and!|].
  destruct (m_reg_of m !! i) as [g|]; [|by split_and!].
  set (m' := mkMemory _ _ _ _ _ _ _ _).
  assert (G : (∀ j lr, m_objs m' !! j = Some lr → m_objs m !! j = Some lr)
    ∧ (∀ j, j ≠ i → is_Some (m_objs m !! j) → is_Some (m_objs m' !! j))).
  { split; cbn.
    - intros j lr. rewrite lookup_delete_Some. tauto.
    - intros j Hj. by rewrite lookup_delete_ne. }
  destruct (_ || _); [by split_and!; try apply G|].
  destruct (release_quiet g c m') as (Q & E1 & E2 & _). rewrite E1, E2. split_and!; try done; apply G.
Qed.

Lemma region_busy_spec c i j r :
  j ∈ c_inflight c → c_reqs c !! j = Some r → i ∈ held_regions (att_ r) → region_busy c i = true.
Proof.
  intros Hj Hr Hi. unfold region_busy. apply existsb_exists. exists j. split.
  - by apply list_elem_of_In, elem_of_elements.
  - rewrite Hr. by apply bool_decide_eq_true.
Qed.

Lemma connect_siblings_out k (todo ps : list P) chosen fam loc offered j :
  (∀ n p, todo !! n = Some p → ps !! (k + n)%nat = Some p) →
  total_out (fst (connect_siblings k todo chosen fam loc offered ps)) j = total_out ps j.
Proof.
  revert k ps. induction todo as [|p todo IH]; intros k ps Hsub; [done|]. cbn [connect_siblings].
  assert (Hk : ps !! k = Some p) by (specialize (Hsub 0%nat p eq_refl); by rewrite Nat.add_0_r in Hsub).
  assert (Hs : ∀ n q, todo !! n = Some q → ps !! (S k + n)%nat = Some q).
  { intros n q Hq. rewrite <- (Hsub (S n) q Hq). f_equal. lia. }
  destruct (_ || _); [by apply IH|]. destruct (offer_for _ offered) as [meta|]; [|by apply IH].
  pose proof (connect_outstanding p meta) as O. destruct (connect p meta) as [p' [s conn]].
  cbn [fst] in O. specialize (IH (S k) (<[k := p']> ps)).
  destruct (connect_siblings (S k) todo chosen fam loc offered (<[k := p']> ps)) as [ps' lanes].
  cbn [fst] in *. rewrite IH; [by apply (total_out_insert_same _ _ p)|].
  intros n q Hq. rewrite list_lookup_insert_ne by lia. auto.
Qed.

Lemma add_peer_quiet mine max_reg metadata c t :
  quiet c (fst (fst (add_peer mine max_reg metadata (c, t)))).
Proof.
  unfold add_peer. destruct (parse_metadata metadata) as [parsed| |]; [|done|done].
  destruct (match parsed with Some x => _ | None => _ end) as [[[pid loc] meta0] offered].
  destruct (choose_provider 0 _ loc offered meta0) as [[k meta]|]; [|done].
  destruct (c_providers c !! k) as [prov|] eqn:Hk; [|done].
  pose proof (connect_outstanding prov meta) as O.
  destruct (connect prov meta) as [prov' [s conn]]. cbn [fst] in O.
  assert (O1 : ∀ j, total_out (<[k := prov']> (c_providers c)) j = total_out (c_providers c) j)
    by (intros j; by apply (total_out_insert_same _ _ prov)).
  destruct (negb (Status.ok s)); [by apply quiet_providers|].
  match goal with |- context [connect_siblings 0 ?ps k ?f loc offered ?ps] =>
    pose proof (fun j => connect_siblings_out 0 ps ps k f loc offered j ltac:(done)) as O2;
    destruct (connect_siblings 0 ps k f loc offered ps) as [ps2 sib] end.
  cbn [fst] in *. apply quiet_providers. intros j. by rewrite O2.
Qed.

End MemoryQuiet.

(** ** The world *)

Section World.
Context {P D : Type} `{!TransportProvider P} `{!ProviderLaws P} `{!DeviceWorld D}.
Context (cfg : EngineConfig) (mine : Identity) (device : option DeviceBackend).

Record World : Type := mkWorld {
  w_e : Engine P D;
  w_prepared : list Prepared;
  w_parts : list PendingSubmit
}.

Definition prepared_ids (w : World) : list Z := (fun pr => id_ (pr_req pr)) <$> w_prepared w.

(** The peers [deregister_memory] may have to tell one by one. *)

Definition peers_to_tell (t : Peers) : list (bool * nat * ConnId) :=
  omap (fun p => match peer_provider p, peer_conn p with
                 | Some k, Some conn => Some (p_connected p, k, conn)
                 | _, _ => None
                 end) (known_peers t).

(** Calls that are one piece. *)

Definition with_cm (e : Engine P D) (cm : Core P D * Memory) : Engine P D :=
  set_mem (snd cm) (set_core (fst cm) e).

Definition with_ct (e : Engine P D) (ct : Core P D * Peers) : Engine P D :=
  set_peers (snd ct) (set_core (fst ct) e).

Inductive call : Engine P D → Engine P D → Prop :=
| call_progress e : call e (fst (progress cfg device e))
| call_notify e i payload : call e (fst (notify cfg i payload e))
| call_cancel e j : call e (fst (cancel_request j e))
| call_register e addr len access :
    0 <= addr → u64 len → u32 access →
    call e (with_cm e (fst (register_memory cfg device mine addr len access (e_core e, e_mem e))))
| call_deregister e i :
    call e (with_cm e (fst (deregister_memory (peers_to_tell (e_peers e)) i (e_core e, e_mem e))))
| call_release_cached e :
    call e (with_cm e (fst (release_cached_registrations (e_core e, e_mem e))))
| call_add_peer e max_reg metadata :
    call e (with_ct e (fst (add_peer mine max_reg metadata (e_core e, e_peers e))))
| call_remove_peer e i :
    call e (with_ct e (fst (remove_peer cfg i (e_core e, e_peers e))))
| call_import e i desc :
    call e (set_peers (fst (import_region (c_providers (e_core e)) i desc (e_peers e))) e)
| call_poll_notifications e n : call e (fst (poll_notifications cfg device n e))
| call_poll_completions e n : call e (fst (poll_completions cfg device n e))
| call_poll_ready e n : call e (fst (poll_ready_events cfg device n e))
| call_close_begin e : call e (set_flags true (e_stopping e) e)
| call_close_end e :
    c_inflight (e_core e) = ∅ →
    call e (set_flags (e_closed e) true (on_core (end_notifications cfg 0 false no_error) e)).

(** A region object goes once no handle, table or request refers to it; a
    submission in a thread's hands is such a request. *)

Inductive world_step : World → World → Prop :=
| ws_call w e' : call (w_e w) e' → world_step w (mkWorld e' (w_prepared w) (w_parts w))
| ws_prepare w i local remote opts kind e' pr :
    submit_prepare cfg device i local remote opts kind (w_e w) = (e', inr pr) →
    Forall seg_wf (zip local remote) →
    Z.of_nat (length (concat (pr_per_lane pr))) < 2 ^ 32 →
    world_step w (mkWorld e' (pr :: w_prepared w) (w_parts w))
| ws_refuse w i local remote opts kind e' s :
    submit_prepare cfg device i local remote opts kind (w_e w) = (e', inl s) →
    world_step w (mkWorld e' (w_prepared w) (w_parts w))
| ws_admit w l1 pr l2 e' parts :
    w_prepared w = l1 ++ pr :: l2 →
    submit_admit pr (w_e w) = (e', inr parts) →
    world_step w (mkWorld e' (l1 ++ l2) (parts ++ w_parts w))
| ws_turn_away w l1 pr l2 e' s :
    w_prepared w = l1 ++ pr :: l2 →
    submit_admit pr (w_e w) = (e', inl s) →
    world_step w (mkWorld e' (l1 ++ l2) (w_parts w))
| ws_post w l1 p l2 :
    w_parts w = l1 ++ p :: l2 →
    world_step w (mkWorld (post_part cfg p (w_e w)) (w_prepared w) (l1 ++ l2))
| ws_forget w i :
    Forall (fun pr => i ∉ held_regions (att_ (pr_req pr))) (w_prepared w) →
    world_step w (mkWorld (with_cm (w_e w) (forget_region i (e_core (w_e w), e_mem (w_e w))))
      (w_prepared w) (w_parts w)).

Definition init_core (ps : list P) (d : D) : Core P D :=
  mkCore ps d ∅ ∅ ∅ [] 0 [] 0 [] zero_stats.

Definition init_engine (ps : list P) (d : D) : Engine P D :=
  mkEngine (init_core ps d) empty_memory empty_peers [] [] 0 1 1 false false 0 ∅.

Definition init_world (ps : list P) (d : D) : World := mkWorld (init_engine ps d) [] [].

(** ** The invariant *)

Definition prepared_ok (m : Memory) (pr : Prepared) : Prop :=
  let r := pr_req pr in
  state_ r = RequestState.kQueued ∧ completed_subops_ r = 0 ∧ accepted_subops_ r = 0
  ∧ sealed_ r = false ∧ cancel_requested_ r = false ∧ err_ok (error_ r) = true
  ∧ total_subops_ r = Z.of_nat (length (concat (pr_per_lane pr)))
  ∧ 0 < total_subops_ r < 2 ^ 32
  ∧ length (pr_per_lane pr) = length (pr_lanes pr)
  ∧ Forall (Forall (fun op => op_request op = id_ r)) (pr_per_lane pr)
  ∧ ∀ i, i ∈ held_regions (att_ r) → is_Some (m_objs m !! i).

(** Regions held by a request in flight are in the table; ids below the
    counter are taken, except those of submissions not yet admitted. *)

Definition ghost (w : World) : Ghost :=
  mkGhost (fun _ a => ∀ i, i ∈ held_regions a → i ∈ m_table (e_mem (w_e w)))
    (fun j => j < e_next_request (w_e w) ∧ j ∉ prepared_ids w)
    (fun n => n < e_next_notify (w_e w)).

Record world_inv (w : World) : Prop := mkWorldInv {
  wi_core : core_inv (ghost w) (e_reaped (w_e w)) (e_core (w_e w))
    (c_pending (e_core (w_e w)) ++ w_parts w) None [];
  wi_mem : mem_inv (e_mem (w_e w)) [];
  wi_retired : ∀ i lr, m_objs (e_mem (w_e w)) !! i = Some lr → i ∉ m_table (e_mem (w_e w)) →
    mr_retired lr = true;
  wi_nodup : NoDup (prepared_ids w);
  wi_ids : ∀ j, j ∈ prepared_ids w → j < e_next_request (w_e w);
  wi_prepared : Forall (prepared_ok (e_mem (w_e w))) (w_prepared w)
}.

(** ** Steps that leave the memory and the id counters alone *)

Definition good (gh : Ghost) (parts : list PendingSubmit) (e : Engine P D) : Prop :=
  core_inv gh (e_reaped e) (e_core e) (c_pending (e_core e) ++ parts) None [].

Definition keeps (e e' : Engine P D) : Prop :=
  e_mem e' = e_mem e ∧ e_next_request e' = e_next_request e ∧ e_next_notify e' = e_next_notify e.

Definition steps_good (gh : Ghost) (parts : list PendingSubmit) (e e' : Engine P D) : Prop :=
  (good gh parts e → good gh parts e') ∧ keeps e e'.

#[local] Instance steps_good_preorder gh parts : PreOrder (steps_good gh parts).
Proof.
  split.
  - intros e. by split.
  - intros e1 e2 e3 [A1 (B1 & B2 & B3)] [A2 (C1 & C2 & C3)].
    split; [auto|]. split_and!; congruence.
Qed.

Lemma steps_good_foldl {A} gh parts (f : Engine P D → A → Engine P D) l e :
  (∀ e a, steps_good gh parts e (f e a)) → steps_good gh parts e (foldl f e l).
Proof.
  intros H. revert e. induction l as [|a l IH]; intros e; [done|]. cbn [foldl].
  transitivity (f e a); [apply H|apply IH].
Qed.

Lemma steps_good_quiet gh parts e c :
  quiet (e_core e) c → steps_good gh parts e (set_core c e).
Proof.
  intros Q. split; [|done]. unfold good. cbn. rewrite (q_pending _ _ Q). intros I.
  by eapply core_inv_quiet.
Qed.

Lemma steps_good_same gh parts e e' :
  e_core e' = e_core e → e_reaped e' = e_reaped e → keeps e e' → steps_good gh parts e e'.
Proof. intros E1 E2 K. split; [|done]. unfold good. by rewrite E1, E2. Qed.

Lemma drain_good gh parts e : steps_good gh parts e (on_core (drain_pending cfg) e).
Proof. split; [|done]. apply drain_pending_inv. Qed.

Lemma end_notifications_good gh parts peer oc err e :
  steps_good gh parts e (on_core (end_notifications cfg peer oc err) e).
Proof.
  split; [|done]. unfold good. intros I. cbn.
  destruct (end_notifications_inv gh (e_reaped e) cfg peer oc err (e_core e)
    (c_pending (e_core e) ++ parts) [] I) as [I1 E]. by rewrite E.
Qed.

Lemma disconnect_lanes_out lanes (ps : list P) first j :
  total_out (fst (disconnect_lanes lanes ps first)) j = total_out ps j.
Proof.
  revert ps first. induction lanes as [|l lanes IH]; intros ps first; [done|].
  cbn [disconnect_lanes]. destruct (ps !! ln_provider l) as [p|] eqn:Hp; [|apply IH].
  pose proof (disconnect_outstanding p (ln_conn l)) as O.
  destruct (disconnect p (ln_conn l)) as [p' s]. rewrite IH.
  apply (total_out_insert_same _ _ p); [done|apply O].
Qed.

Lemma reap_one_good gh parts e i : steps_good gh parts e (reap_one cfg e i).
Proof.
  unfold reap_one. destruct (t_objs (e_peers e) !! i) as [p|]; [|done].
  split; [|by destruct (disconnect_lanes _ _ _)]. unfold good. intros I.
  cbn [e_core set_peers].
  pose proof (disconnect_lanes_out (p_lanes p) (c_providers (e_core e)) Status.kOk) as O.
  destruct (disconnect_lanes (p_lanes p) (c_providers (e_core e)) Status.kOk) as [ps s].
  cbn [fst] in O. set (c1 := with_providers ps (e_core e)).
  assert (I1 : core_inv gh (e_reaped e) c1 (c_pending c1 ++ parts) None []).
  { eapply core_inv_quiet; [exact I|]. by apply quiet_providers. }
  set (js := requests_of c1 (p_id p)).
  set (name := match _ with Some prov => _ | None => _ end).
  destruct (strand_inv gh (e_reaped e) cfg name (p_id p) c1 (c_pending c1 ++ parts) js I1)
    as [I2 E2].
  { apply list.NoDup_filter, NoDup_elements. }
  { intros j Hj. apply list_elem_of_filter in Hj as [_ Hj]. by apply elem_of_elements. }
  set (c2 := foldl _ _ js) in *. cbn zeta in E2.
  destruct (end_notifications_inv gh (e_reaped e ∪ list_to_set js) cfg (p_id p) false
    (departed_error (p_id p)) c2 (c_pending c1 ++ parts) [] I2) as [I3 E3].
  cbn. fold c1 js c2. rewrite E3, E2. exact I3.
Qed.

Lemma keep_ready_good gh parts ev e : steps_good gh parts e (keep_ready_locked cfg ev e).
Proof. apply steps_good_same; unfold keep_ready_locked, keeps; by destruct (_ <=? _). Qed.

Lemma quiet_reply k conn type body (c : Core P D) : quiet c (fst (reply k conn type body c)).
Proof.
  unfold reply. destruct (c_providers c !! k) as [prov|] eqn:Hk; [|done].
  pose proof (send_outstanding prov conn type body) as O.
  destruct (send_control prov conn type body) as [prov' s]. by eapply quiet_set_provider.
Qed.

Lemma not_ends_stat f :
  f ≠ requests_succeeded → f ≠ requests_failed → f ≠ requests_cancelled → ¬ ends f.
Proof. unfold ends. tauto. Qed.

Ltac quiet_stat := apply quiet_count; [apply not_ends_stat; done|done].

Lemma on_notification_good gh parts k peer conn payload e :
  steps_good gh parts e (on_notification cfg k peer conn payload e).
Proof.
  unfold on_notification. case_bool_decide; [done|].
  destruct (decode_u64 _) as [id| |]; [|done|done]. destruct (_ <? _).
  - set (e1 := set_notifications _ e).
    transitivity (on_core (count notifications_received 1) e1).
    { transitivity e1; [by apply steps_good_same|]. apply steps_good_quiet. quiet_stat. }
    destruct conn as [cn|]; [|done]. set (e2 := on_core _ e1).
    pose proof (quiet_reply k (Some cn) ControlType.kNotificationAck (encode_u64 id) (e_core e2)) as Q.
    destruct (reply k _ _ _ (e_core e2)) as [c s]. apply steps_good_quiet. cbn [fst] in Q.
    transitivity c; [done|]. destruct (Status.ok s); [done|]. quiet_stat.
  - transitivity (on_core (count notifications_dropped 1) e);
      [apply steps_good_quiet; quiet_stat|].
    destruct conn as [cn|]; [|done]. apply steps_good_quiet. apply quiet_reply.
Qed.

Lemma take_notification_spec id (c c' : Core P D) j :
  take_notification id c = (c', Some j) →
  c_notify c !! id = Some j ∧ c' = with_notify (delete id (c_notify c)) c.
Proof. unfold take_notification. destruct (c_notify c !! id); [|done]. by intros [= <- <-]. Qed.

Lemma core_inv_unnote gh R (c : Core P D) ps evs id :
  core_inv gh R c ps None evs →
  core_inv gh R (with_notify (delete id (c_notify c)) c) ps None evs.
Proof.
  intros [H1 H2 H3 H4 [M1 M2] H6 H7 H8]. split; auto; cbn.
  - split; cbn.
    + intros n j Hn. apply lookup_delete_Some in Hn as [_ Hn]. by apply (M1 n).
    + intros n m j Hn Hm. apply lookup_delete_Some in Hn as [_ Hn].
      apply lookup_delete_Some in Hm as [_ Hm]. by apply (M2 n m j).
  - intros n [j Hn]. apply lookup_delete_Some in Hn as [_ Hn]. eauto.
Qed.

Lemma notification_reply_good gh parts f payload e :
  (∀ r, terminal_locked r = false → total_subops_ (f r) = total_subops_ r ∧ id_ (f r) = id_ r
     ∧ terminal_locked (f r) = true) →
  steps_good gh parts e (on_notification_reply cfg f payload e).
Proof.
  intros Hf. unfold on_notification_reply. destruct (decode_u64 payload) as [id| |]; [|done|done].
  destruct (take_notification id (e_core e)) as [c [j|]] eqn:T; [|done].
  apply take_notification_spec in T as [Hj ->]. cbn [c_reqs with_notify].
  destruct (c_reqs (e_core e) !! j) as [r|] eqn:Hr.
  2:{ split; [|done]. unfold good. apply core_inv_unnote. }
  split; [|done]. unfold good. intros I. cbn [e_core e_reaped set_core].
  destruct (publish_frame cfg j (put_req j (f r) (with_notify (delete id (c_notify (e_core e)))
    (e_core e)))) as (_ & _ & _ & _ & _ & _ & ->).
  destruct (ci_notify _ _ _ _ _ _ I) as [M1 M2].
  destruct (M1 id j Hj) as (r' & Hr' & Ht & Hlive & Hl & _). assert (r' = r) as -> by congruence.
  pose proof (ci_req _ _ _ _ _ _ I j) as Q. rewrite Hr in Q. destruct Q as (Hid & _).
  destruct (Hf r Hlive) as (F1 & F2 & F3).
  eapply (publish_put_small gh _ cfg _ _ _ j r (f r));
    [by apply core_inv_unnote|done|done|done| |congruence|congruence|done].
  cbn. intros n Hn. apply lookup_delete_Some in Hn as [Hne Hn]. apply Hne. by eapply M2.
Qed.

Lemma handle_control_good gh parts k e m : steps_good gh parts e (handle_control cfg device k e m).
Proof.
  unfold handle_control.
  destruct (_ =? _).
  { unfold on_ready_handoff. destruct (decode_ready_handoff _) as [b| |]; [|done|done].
    etransitivity; [|apply keep_ready_good]. apply steps_good_quiet. quiet_stat. }
  destruct (_ =? _); [apply on_notification_good|].
  destruct (_ =? _).
  { unfold on_region_invalidate. destruct (decode_region_invalidate _); [|done|done].
    by apply steps_good_same. }
  destruct (_ =? _).
  { apply notification_reply_good. intros r Hr. unfold finish_success. cbn.
    change (terminal_locked (mark_stage Stage.kTransferComplete r)) with (terminal_locked r).
    rewrite Hr. done. }
  destruct (_ =? _); [|done]. apply notification_reply_good. intros r Hr.
  destruct (terminal_same_total r (fail (refused_error (peer_for_conn (e_peers e) (cm_conn m))) r))
    as [(? & ? & _) ?]; [unfold finished; eauto|]. done.
Qed.

Lemma control_turn_good gh parts e k : steps_good gh parts e (control_turn cfg device e k).
Proof.
  unfold control_turn. destruct (c_providers (e_core e) !! k) as [prov|] eqn:Hk; [|done].
  pose proof (poll_control_outstanding prov (cfg_cq_batch cfg)) as O.
  destruct (poll_control prov (cfg_cq_batch cfg)) as [prov' [s msgs]]. cbn [fst] in O.
  transitivity (on_core (set_provider k prov') e).
  { apply steps_good_quiet. by eapply quiet_set_provider. }
  destruct (Status.ok s); [|done]. etransitivity; [|apply steps_good_foldl; apply handle_control_good].
  by apply steps_good_same.
Qed.

Lemma arrival_turn_good gh parts e k : steps_good gh parts e (arrival_turn cfg device e k).
Proof.
  unfold arrival_turn. destruct (c_providers (e_core e) !! k) as [prov|] eqn:Hk; [|done].
  pose proof (poll_arrivals_outstanding prov (cfg_cq_batch cfg)) as O.
  destruct (poll_peer_arrivals prov (cfg_cq_batch cfg)) as [prov' [s arr]]. cbn [fst] in O.
  transitivity (on_core (set_provider k prov') e).
  { apply steps_good_quiet. by eapply quiet_set_provider. }
  destruct (Status.ok s); [|done].
  etransitivity; [|apply (steps_good_foldl _ _ (fun e a => keep_ready_locked cfg (arrival_event device a) e));
    intros; apply keep_ready_good].
  by apply steps_good_same.
Qed.

Lemma progress_good gh parts e : steps_good gh parts e (fst (progress cfg device e)).
Proof.
  unfold progress. set (e1 := on_core (drain_pending cfg) e).
  set (e2 := reap_departed_peers cfg e1). set (e3 := on_core _ e2).
  set (e4 := foldl (control_turn cfg device) e3 _). set (e5 := foldl (arrival_turn cfg device) e4 _).
  transitivity e5.
  { transitivity e1; [apply drain_good|]. transitivity e2.
    { unfold e2, reap_departed_peers. apply steps_good_foldl. intros. apply reap_one_good. }
    transitivity e3; [apply end_notifications_good|].
    transitivity e4; apply steps_good_foldl; intros; [apply control_turn_good|apply arrival_turn_good]. }
  pose proof (poll_events_inv gh (e_reaped e5) cfg (has_device device) (e_core e5)
    (c_pending (e_core e5) ++ parts)) as I.
  pose proof (poll_events_pending cfg (has_device device) (e_core e5)) as E.
  destruct (poll_completion_events cfg (has_device device) (e_core e5)) as [c s].
  split; [|done]. unfold good. cbn in *. rewrite E. exact I.
Qed.

Lemma world_good w e' :
  world_inv w → steps_good (ghost w) (w_parts w) (w_e w) e' →
  world_inv (mkWorld e' (w_prepared w) (w_parts w)).
Proof.
  intros [W1 W2 W3 W4 W5 W6] [S (K1 & K2 & K3)]. split; cbn; rewrite ?K1, ?K2, ?K3; auto.
  eapply core_inv_ghost; [exact (S W1)|..]; cbn; rewrite ?K1, ?K2, ?K3; done.
Qed.

Lemma cancel_good gh parts j e : steps_good gh parts e (fst (cancel_request j e)).
Proof.
  unfold cancel_request. destruct (c_reqs (e_core e) !! j) as [r|] eqn:Hr; [|done].
  destruct (cancel r) as [r' s] eqn:Hc. cbn [fst].
  assert (r' = fst (cancel r)) as -> by by rewrite Hc.
  assert (Hterm : terminal_locked r = true → fst (cancel r) = r).
  { intros T. unfold cancel. case_bool_decide; [done|]. by rewrite T. }
  assert (S : same_total r (fst (cancel r)))
    by (unfold cancel; case_bool_decide; [done|]; by destruct (terminal_locked r)).
  assert (Hlive : terminal_locked r = false → terminal_locked (fst (cancel r)) = false).
  { intros T. unfold cancel. case_bool_decide; [done|]. by rewrite T. }
  split; [|done]. unfold good. cbn. intros I.
  destruct (terminal_locked r) eqn:T.
  { rewrite Hterm by done. eapply core_inv_quiet; [exact I|]. split; try done. cbn.
    by rewrite insert_id. }
  pose proof (ci_req _ _ _ _ _ _ I j) as Q. rewrite Hr in Q. destruct Q as (Hid & Q1 & Q2 & Q3 & Q4).
  destruct S as (S1 & S2 & S3).
  destruct (decide (j ∈ c_inflight (e_core e))) as [Hi|Hi].
  - eapply (core_inv_put gh _ _ _ _ _ _ _ _ _ j r _ I); try done; [apply I|].
    apply flight_cancel. by apply Q1.
  - destruct (Z_lt_ge_dec 0 (total_subops_ r)) as [Hp|Hp]; [by destruct (Q2 Hi Hp); congruence|].
    assert (Hl : j ∉ c_log (e_core e)) by (intros Hl; destruct (Q3 Hl); congruence).
    eapply (core_inv_small gh _ _ _ _ _ _ j r (fst (cancel r)) false I); try done; try congruence;
      try lia.
    intros n Hn. split; [auto|done].
Qed.

Lemma post_part_inv w l1 p l2 :
  world_inv w → w_parts w = l1 ++ p :: l2 →
  world_inv (mkWorld (post_part cfg p (w_e w)) (w_prepared w) (l1 ++ l2)).
Proof.
  intros [W1 W2 W3 W4 W5 W6] E. unfold post_part.
  pose proof (post_ops_inv (ghost w) (e_reaped (w_e w)) cfg (e_core (w_e w)) p
    (c_pending (e_core (w_e w)) ++ l1 ++ l2) (cfg_scheduler_quantum_bytes cfg) []) as I.
  pose proof (post_ops_pending cfg p (cfg_scheduler_quantum_bytes cfg) (e_core (w_e w))) as Pd.
  destruct (post_ops cfg p _ (e_core (w_e w))) as [c rem]. cbn [fst] in Pd.
  split; cbn; auto.
  eapply (core_inv_ghost (ghost w)); [|done..].
  destruct rem as [p'|]; cbn; rewrite Pd.
  - eapply core_inv_perm; [|eapply core_inv_frame; [apply I|..]; try done].
    + cbn. solve_Permutation.
    + eapply core_inv_perm; [|exact W1]. rewrite E. solve_Permutation.
  - eapply I. eapply core_inv_perm; [|exact W1]. rewrite E. solve_Permutation.
Qed.

(** ** Admission *)

Lemma parts_of_spec pr :
  Forall (Forall (fun op => op_request op = id_ (pr_req pr))) (pr_per_lane pr) →
  length (pr_per_lane pr) = length (pr_lanes pr) →
  Forall part_ok (parts_of pr) ∧ Forall (fun p => pd_req p = id_ (pr_req pr)) (parts_of pr)
  ∧ nparts (id_ (pr_req pr)) (parts_of pr) = length (parts_of pr)
  ∧ nops (id_ (pr_req pr)) (parts_of pr) = length (concat (pr_per_lane pr)).
Proof.
  unfold parts_of. destruct pr as [r pl ls af]. cbn [pr_req pr_per_lane pr_lanes pr_after].
  intros H. revert ls. induction H as [|ops pl Hops Hpl IH]; intros [|l ls] Hlen; try done.
  cbn [zip zip_with omap list_omap]. injection Hlen as Hlen.
  destruct (IH ls Hlen) as (A1 & A2 & A3 & A4). case_bool_decide as Ho.
  { subst ops. split_and!; auto. }
  split_and!.
  - constructor; [|done]. by split.
  - by constructor.
  - rewrite nparts_cons, decide_True by done. cbn [length]. by rewrite A3.
  - rewrite nops_cons, decide_True by done. cbn [concat pd_ops]. by rewrite A4, length_app.
Qed.

Lemma parts_le_ops pr :
  Forall (Forall (fun op => op_request op = id_ (pr_req pr))) (pr_per_lane pr) →
  length (pr_per_lane pr) = length (pr_lanes pr) →
  (length (parts_of pr) <= length (concat (pr_per_lane pr)))%nat
  ∧ (concat (pr_per_lane pr) ≠ [] → 0 < length (parts_of pr))%nat.
Proof.
  intros H1 H2. destruct (parts_of_spec pr H1 H2) as (A1 & A2 & A3 & A4).
  pose proof (nparts_le_nops (id_ (pr_req pr)) _ A1). split; [lia|].
  intros Hc. destruct (parts_of pr) as [|p l]; [|cbn; lia]. destruct (concat _); [done|].
  cbn in A4. lia.
Qed.

Lemma equip_flight m pr :
  prepared_ok m pr →
  flight (equip pr) 0 (nparts (id_ (pr_req pr)) (parts_of pr))
    (nops (id_ (pr_req pr)) (parts_of pr)) 0
  ∧ id_ (equip pr) = id_ (pr_req pr)
  ∧ held_regions (att_ (equip pr)) = held_regions (att_ (pr_req pr)).
Proof.
  intros (S & C & A & Se & Ca & Er & N & T & L & Hops & _).
  destruct (parts_of_spec pr Hops L) as (_ & _ & P1 & P2).
  destruct (parts_le_ops pr Hops L) as [Q1 Q2].
  rewrite P1, P2. split; [|done].
  assert (0 < length (parts_of pr))%nat.
  { apply Q2. intros E. rewrite E in N. cbn in N. lia. }
  assert (W : wrap32 (Z.of_nat (length (parts_of pr))) = Z.of_nat (length (parts_of pr)))
    by (apply wrapw_id; unfold uw; lia).
  split; cbn; rewrite ?W, ?N, ?C, ?A; try done; try lia.
  - unfold terminal_locked. cbn. by rewrite S.
  - rewrite Se. done.
Qed.

(** The submission leaves its thread's hands, refused. *)

Lemma drop_prepared w l1 pr l2 :
  world_inv w → w_prepared w = l1 ++ pr :: l2 →
  let w' := mkWorld (w_e w) (l1 ++ l2) (w_parts w) in
  world_inv w' ∧ prepared_ok (e_mem (w_e w)) pr
  ∧ id_ (pr_req pr) < e_next_request (w_e w) ∧ (id_ (pr_req pr) ∉ prepared_ids w')
  ∧ c_reqs (e_core (w_e w)) !! id_ (pr_req pr) = None.
Proof.
  intros [W1 W2 W3 W4 W5 W6] Hp w'.
  assert (Hids : prepared_ids w ≡ₚ id_ (pr_req pr) :: prepared_ids w').
  { unfold prepared_ids. rewrite Hp. cbn. rewrite !fmap_app, fmap_cons. solve_Permutation. }
  rewrite Hp in W6. apply Forall_app in W6 as [V1 V2]. inversion V2; subst.
  assert (Hin : id_ (pr_req pr) ∈ prepared_ids w) by (rewrite Hids; apply list_elem_of_here).
  split_and!; auto.
  - split; cbn; auto.
    + eapply core_inv_ghost; [exact W1|..]; cbn; try done.
      intros j _ [? Hn]. split; [done|]. intros Hj. apply Hn. rewrite Hids. by constructor.
    + rewrite Hids in W4. by apply list.NoDup_cons in W4 as [_ W4].
    + intros j Hj. apply W5. rewrite Hids. by constructor.
    + apply Forall_app. done.
  - rewrite Hids in W4. by apply list.NoDup_cons in W4 as [W4 _].
  - destruct (c_reqs (e_core (w_e w)) !! id_ (pr_req pr)) eqn:E; [|done].
    destruct (ci_known _ _ _ _ _ _ W1 (id_ (pr_req pr))) as [_ Hn]; [by rewrite E|done].
Qed.

Lemma not_retired_tabled w pr :
  world_inv w → prepared_ok (e_mem (w_e w)) pr →
  existsb (retired_region (e_mem (w_e w))) (held_regions (att_ (pr_req pr))) = false →
  ∀ i, i ∈ held_regions (att_ (pr_req pr)) → i ∈ m_table (e_mem (w_e w)).
Proof.
  intros W (_ & _ & _ & _ & _ & _ & _ & _ & _ & _ & Hobj) Hex i Hi.
  destruct (decide (i ∈ m_table (e_mem (w_e w)))) as [|Hn]; [done|].
  destruct (Hobj i Hi) as [lr Hlr]. pose proof (wi_retired _ W i lr Hlr Hn) as Hr.
  assert (existsb (retired_region (e_mem (w_e w))) (held_regions (att_ (pr_req pr))) = true);
    [|congruence].
  apply existsb_exists. exists i. split; [by apply list_elem_of_In|].
  unfold retired_region. by rewrite Hlr.
Qed.

(** The request enters the table, with [parts] to be posted. *)

Lemma admitted_inv w pr r c' (e' : Engine P D) w_parts' :
  world_inv w → prepared_ok (e_mem (w_e w)) pr →
  existsb (retired_region (e_mem (w_e w))) (held_regions (att_ (pr_req pr))) = false →
  id_ (pr_req pr) < e_next_request (w_e w) → (id_ (pr_req pr) ∉ prepared_ids w) →
  c_reqs (e_core (w_e w)) !! id_ (pr_req pr) = None →
  r = set_state RequestState.kWaitDependency (equip pr) ∨ r = equip pr
    ∨ (∃ err, r = note_error err (equip pr)) →
  e' = set_core c' (w_e w) →
  c_reqs c' = <[id_ (pr_req pr) := r]> (c_reqs (e_core (w_e w))) →
  c_inflight c' = {[id_ (pr_req pr)]} ∪ c_inflight (e_core (w_e w)) →
  c_log c' = c_log (e_core (w_e w)) → c_notify c' = c_notify (e_core (w_e w)) →
  c_providers c' = c_providers (e_core (w_e w)) →
  c_stats c' requests_accepted = c_stats (e_core (w_e w)) requests_accepted + 1 →
  ended_count (c_stats c') = ended_count (c_stats (e_core (w_e w))) →
  c_pending c' ++ w_parts' ≡ₚ (c_pending (e_core (w_e w)) ++ w_parts w) ++ parts_of pr →
  world_inv (mkWorld e' (w_prepared w) w_parts').
Proof.
  intros W Hok Hex Hlt Hnin Hnone Hr -> E1 E2 E3 E4 E5 E6 E7 Hperm.
  pose proof (not_retired_tabled _ _ W Hok Hex) as Htab.
  destruct (equip_flight _ _ Hok) as (F & Fid & Fh).
  pose proof Hok as (_ & _ & _ & _ & _ & _ & _ & _ & L & Hops & _).
  destruct (parts_of_spec pr Hops L) as (P1 & P2 & _).
  assert (Fr : flight r 0 (nparts (id_ (pr_req pr)) (parts_of pr))
      (nops (id_ (pr_req pr)) (parts_of pr)) 0 ∧ id_ r = id_ (pr_req pr)
      ∧ held_regions (att_ r) = held_regions (att_ (pr_req pr))).
  { destruct Hr as [->|[->|(err & ->)]].
    - split; [by apply flight_set_state|]. unfold set_state. by destruct (_ || _).
    - done.
    - destruct (note_error_frame err (equip pr)) as (_ & N1 & _ & _ & _ & _ & _ & _ & N2 & _).
      split; [by apply flight_note_error|]. by rewrite N1, N2. }
  destruct Fr as (Fr & Fri & Frh). destruct W as [W1 W2 W3 W4 W5 W6]. split; cbn; auto.
  eapply (core_inv_ghost (ghost w)); [|done..]. eapply core_inv_perm; [by symmetry|].
  eapply (core_inv_admit (ghost w) _ _ c' _ (parts_of pr) _ r W1 Hnone); eauto; try done.
  cbn. rewrite Frh. exact Htab.
Qed.

Lemma admit_inv w l1 pr l2 e' r :
  world_inv w → w_prepared w = l1 ++ pr :: l2 → submit_admit pr (w_e w) = (e', r) →
  match r with
  | inr parts => world_inv (mkWorld e' (l1 ++ l2) (parts ++ w_parts w))
  | inl _ => world_inv (mkWorld e' (l1 ++ l2) (w_parts w))
  end.
Proof.
  intros W Hp. destruct (drop_prepared w l1 pr l2 W Hp) as (W' & Hok & Hlt & Hnin & Hnone).
  unfold submit_admit. destruct (e_closed (w_e w)); [by intros [= <- <-]|].
  destruct (existsb _ _) eqn:Hex; [by intros [= <- <-]|].
  set (c1 := with_stats _ _).
  assert (St : c_stats c1 requests_accepted = c_stats (e_core (w_e w)) requests_accepted + 1
    ∧ ended_count (c_stats c1) = ended_count (c_stats (e_core (w_e w)))).
  { unfold c1, ended_count, raise_to, bump. cbn. done. }
  destruct St as [St1 St2].
  destruct (match pr_after pr with [] => _ | _ => _ end) as [d dep].
  case_bool_decide; intros [= <- <-].
  - eapply (admitted_inv (mkWorld (w_e w) (l1 ++ l2) (w_parts w)) pr
      (set_state RequestState.kWaitDependency (equip pr)) _ _ (w_parts w) W'); eauto; try done.
    change ((c_pending (e_core (w_e w)) ++ parts_of pr) ++ w_parts w
      ≡ₚ (c_pending (e_core (w_e w)) ++ w_parts w) ++ parts_of pr). solve_Permutation.
  - eapply (admitted_inv (mkWorld (w_e w) (l1 ++ l2) (w_parts w)) pr
      (if negb (Status.ok dep) then note_error (status_error dep) (equip pr) else equip pr) _ _
      (parts_of pr ++ w_parts w) W'); eauto; try done.
    + destruct (negb _); eauto.
    + change (c_pending (e_core (w_e w)) ++ parts_of pr ++ w_parts w
        ≡ₚ (c_pending (e_core (w_e w)) ++ w_parts w) ++ parts_of pr). solve_Permutation.
Qed.

(** ** Preparing *)

(** Ids handed out since, and quiet changes, do no harm. *)

Lemma world_later w e' :
  world_inv w → quiet (e_core (w_e w)) (e_core e') → e_mem e' = e_mem (w_e w) →
  e_reaped e' = e_reaped (w_e w) → e_next_request (w_e w) <= e_next_request e' →
  e_next_notify (w_e w) <= e_next_notify e' →
  world_inv (mkWorld e' (w_prepared w) (w_parts w)).
Proof.
  intros [W1 W2 W3 W4 W5 W6] Q Em Er En Ek. split; cbn; rewrite ?Em; auto.
  - rewrite Er, (q_pending _ _ Q). eapply core_inv_ghost; [eapply core_inv_quiet; [exact W1|done]|..];
      cbn; rewrite ?Em; try done.
    + intros j _ [? ?]. split; [lia|done].
    + intros n ?. lia.
  - intros j Hj. specialize (W5 j Hj). lia.
Qed.

Lemma cuts_all_local kind req lanes chunk fr fm segs id trs :
  cuts_all kind req lanes chunk fr fm segs id trs →
  Forall (fun '(l, _) => is_Some (fr (v_region l))) segs.
Proof.
  revert id trs. induction segs as [|[l r] segs IH]; intros id [|tr trs]; try done.
  intros [(lr & rr & Hc & _) Hrest]. constructor; [|by eapply IH].
  apply check_segment_inv in Hc as (-> & _). eauto.
Qed.

Lemma find_region_obj m i lr :
  mem_inv m [] → find_region m i = Some lr → m_objs m !! i = Some lr ∧ mr_id lr = i.
Proof.
  intros I. unfold find_region. case_bool_decide; [|done]. intros Hi. split; [done|].
  destruct (mi_objs _ _ I i lr Hi) as [g Hg].
  destruct (mi_handle _ _ I i g Hg) as (lr' & e & Hl & _ & _ & Hid & _). congruence.
Qed.

Lemma build_prepared m fm segs kind req lanes bt cb :
  1 <= cb → Forall seg_wf segs → mem_inv m [] →
  build_subops cb (find_region m) fm segs kind req lanes = Some (inr bt) →
  length (bt_per_lane bt) = length lanes
  ∧ Forall (Forall (fun op => op_request op = req)) (bt_per_lane bt)
  ∧ ∀ i, i ∈ bt_held bt → is_Some (m_objs m !! i).
Proof.
  intros Hcb Hw I Hb.
  destruct (build_subops_inv _ _ _ _ _ _ _ _ Hcb (seg_wf_lengths _ Hw) Hb)
    as (trs & Hc & Hl & Hlen & _ & Hh). split_and!; [done| |].
  - apply Forall_lookup. intros k ops Hk. pose proof (lookup_lt_Some _ _ _ Hk) as Hlt.
    rewrite Hlen in Hlt. rewrite (Hl k Hlt) in Hk. injection Hk as <-.
    apply list.Forall_forall. intros op Hop. apply of_lane_elem in Hop.
    destruct (cuts_all_elem _ _ _ _ _ _ _ _ _ _ _ Hc Hop)
      as (? & ? & ? & ? & ? & ? & ? & ? & _ & _ & _ & _ & _ & _ & Hmk).
    by apply make_op_inv in Hmk as (_ & ? & _).
  - rewrite Hh. intros i Hi. unfold held_ids in Hi. apply list_elem_of_fmap in Hi as ([l r] & -> & Hin).
    apply cuts_all_local in Hc. rewrite list.Forall_forall in Hc. destruct (Hc _ Hin) as [lr Hlr].
    rewrite Hlr. destruct (find_region_obj m _ lr I Hlr) as [? ->]. eauto.
Qed.

Hypothesis Hchunk : 1 <= cfg_chunk_bytes cfg.

Lemma prepare_inv w i local remote opts kind e' r :
  world_inv w → submit_prepare cfg device i local remote opts kind (w_e w) = (e', r) →
  match r with
  | inl _ => world_inv (mkWorld e' (w_prepared w) (w_parts w))
  | inr pr => Forall seg_wf (zip local remote) →
      Z.of_nat (length (concat (pr_per_lane pr))) < 2 ^ 32 →
      world_inv (mkWorld e' (pr :: w_prepared w) (w_parts w))
  end.
Proof.
  intros W. unfold submit_prepare. destruct (t_objs (e_peers (w_e w)) !! i) as [p|].
  2:{ intros [= <- <-]. by destruct w. }
  destruct (e_closed (w_e w)); [intros [= <- <-]; by destruct w|].
  destruct (_ || _); [intros [= <- <-]; by destruct w|].
  destruct (opt_notify opts); [intros [= <- <-]; by destruct w|].
  destruct (negb (p_connected p)); [intros [= <- <-]; by destruct w|].
  destruct (dependency_state (opt_after opts) (c_dev (e_core (w_e w)))) as [d dep].
  set (e1 := on_core (with_dev d) (w_e w)).
  assert (Q1 : quiet (e_core (w_e w)) (e_core e1)) by by split.
  destruct (_ && _).
  { intros [= <- <-]. by apply world_later. }
  destruct (_ <=? _).
  { intros [= <- <-]. by apply world_later. }
  set (e2 := set_next _ _ e1).
  assert (W2 : world_inv (mkWorld e2 (w_prepared w) (w_parts w)))
    by (apply world_later; try done; cbn; lia).
  destruct (build_subops _ _ _ _ _ _ _) as [[s|bt]|] eqn:Hb; try by intros [= <- <-].
  case_bool_decide as Hz; [by intros [= <- <-]|]. intros [= <- <-]. cbn. intros Hw Hlt.
  destruct (build_prepared _ _ _ _ _ _ _ _ Hchunk Hw (wi_mem _ W2) Hb) as (L & Hops & Hheld).
  assert (Wr : wrap32 (Z.of_nat (length (concat (bt_per_lane bt))))
    = Z.of_nat (length (concat (bt_per_lane bt)))) by (apply wrapw_id; unfold uw; lia).
  destruct W as [U1 U2 U3 U4 U5 U6]. destruct W2 as [V1 V2 V3 V4 V5 V6]. split; cbn; auto.
  - eapply core_inv_ghost; [eapply core_inv_quiet; [exact U1|exact Q1]|..]; cbn; try done.
    intros j _ [? Hn]. split; [lia|]. rewrite elem_of_cons. intros [->|?]; [lia|done].
  - apply list.NoDup_cons. split; [|done]. intros Hin. specialize (U5 _ Hin). cbn in U5. lia.
  - intros j. rewrite elem_of_cons. intros [->|Hj]; [cbn; lia|]. specialize (U5 j Hj). lia.
  - constructor; [|done]. unfold prepared_ok. cbn. rewrite Wr, length_fmap in *.
    split_and!; auto; lia.
Qed.

(** ** The other calls *)

Lemma notify_inv w i payload :
  world_inv w →
  world_inv (mkWorld (fst (notify cfg i payload (w_e w))) (w_prepared w) (w_parts w)).
Proof.
  intros W. unfold notify. destruct (t_objs (e_peers (w_e w)) !! i) as [p|]; [|by destruct w].
  destruct (_ <? _); [by destruct w|]. destruct (e_closed (w_e w)); [by destruct w|].
  destruct (negb (p_connected p)); [by destruct w|].
  set (id := e_next_notify (w_e w)). set (j := e_next_request (w_e w)).
  set (e1 := set_next (j + 1) (id + 1) (w_e w)). set (c0 := e_core (w_e w)).
  set (r := upd_att _ _). set (c1 := put_req j r _).
  assert (W1 : world_inv (mkWorld e1 (w_prepared w) (w_parts w)))
    by (apply world_later; try done; cbn; lia).
  assert (Hj : c_reqs c0 !! j = None).
  { destruct (c_reqs c0 !! j) eqn:E; [|done].
    destruct (ci_known _ _ _ _ _ _ (wi_core _ W) j) as [Hlt _]; [unfold c0 in E; by rewrite E|].
    unfold j in Hlt. lia. }
  assert (Hid : c_notify c0 !! id = None).
  { destruct (c_notify c0 !! id) eqn:E; [|done].
    pose proof (ci_noted _ _ _ _ _ _ (wi_core _ W) id) as Hlt.
    cbn in Hlt. unfold c0 in E. rewrite E in Hlt. specialize (Hlt ltac:(eauto)). unfold id in Hlt. lia. }
  assert (W2 : world_inv (mkWorld (set_core c1 e1) (w_prepared w) (w_parts w))).
  { destruct W1 as [V1 V2 V3 V4 V5 V6]. split; cbn; auto.
    assert (X : core_inv (ghost (mkWorld e1 (w_prepared w) (w_parts w))) (e_reaped e1) c1
      (c_pending c0 ++ w_parts w) None []).
    { apply core_inv_note; try done.
      - cbn. split; [lia|]. intros Hin. specialize (wi_ids _ W j Hin). unfold j. lia.
      - cbn. lia. }
    eapply core_inv_ghost; [exact X|..]; done. }
  destruct (peer_provider p) as [k|]; [|exact W2].
  destruct (c_providers c1 !! k) as [prov|] eqn:Hk; [|exact W2].
  match goal with |- context [send_control prov ?a ?b ?c] =>
    pose proof (send_outstanding prov a b c) as O;
    destruct (send_control prov a b c) as [prov' s] end. cbn [fst] in O.
  assert (Qs : quiet c1 (set_provider k prov' c1)) by by eapply quiet_set_provider.
  assert (W3 : world_inv (mkWorld (set_core (set_provider k prov' c1) e1) (w_prepared w) (w_parts w))).
  { apply (world_good _ _ W2). by apply (steps_good_quiet _ _ (set_core c1 e1)). }
  destruct (Status.ok s).
  { apply (world_good _ _ W3).
    apply (steps_good_quiet _ _ (set_core (set_provider k prov' c1) e1)). quiet_stat. }
  assert (Hn1 : c_notify (set_provider k prov' c1) !! id = Some j) by (cbn; apply lookup_insert_eq).
  unfold take_notification. rewrite Hn1. cbn [fst].
  apply (world_good _ _ W3). split; [|done]. unfold good.
  cbn [e_core e_reaped set_core w_e]. set (c2 := set_provider k prov' c1). intros I.
  change (c_pending (put_req _ _ _)) with (c_pending c2).
  match goal with |- context [fail ?e r] => set (err := e) end.
  destruct (terminal_same_total r (fail err r)) as [(S1 & S2 & _) T]; [unfold finished; eauto|].
  apply (core_inv_unnote _ _ _ _ _ id) in I.
  eapply (core_inv_small _ _ _ _ _ _ _ j r (fail err r) false I); try done.
  - cbn. by rewrite lookup_insert_eq.
  - intros Hin. apply (core_inv_fresh _ _ _ _ _ _ j (wi_core _ W)) in Hj as (_ & Hn & _). done.
  - cbn. intros n Hn. exfalso. apply lookup_delete_Some in Hn as [Hne Hn].
    rewrite lookup_insert_ne in Hn by done.
    apply (core_inv_fresh _ _ _ _ _ _ j (wi_core _ W)) in Hj as (_ & _ & _ & _ & Hn'). by apply (Hn' n).
Qed.

Lemma with_cm_core e cm : e_core (with_cm e cm) = fst cm ∧ e_mem (with_cm e cm) = snd cm.
Proof. done. Qed.

(** Calls on the memory that only add regions. *)

Lemma grows_inv w (cm : Core P D * Memory) :
  world_inv w → quiet (e_core (w_e w)) (fst cm) → grows (e_mem (w_e w)) (snd cm) →
  mem_inv (snd cm) [] →
  world_inv (mkWorld (with_cm (w_e w) cm) (w_prepared w) (w_parts w)).
Proof.
  intros [W1 W2 W3 W4 W5 W6] Q (G1 & G2 & G3) I. split; cbn; auto.
  - rewrite (q_pending _ _ Q).
    eapply core_inv_ghost; [eapply core_inv_quiet; [exact W1|done]|..]; cbn; try done.
    intros j r _ _ H i Hi. apply G1. auto.
  - intros i lr Hi Hn. destruct (G3 i lr Hi) as [Ho|?]; [|done]. apply (W3 i lr Ho). set_solver.
  - eapply Forall_impl; [|exact W6]. intros pr (?&?&?&?&?&?&?&?&?&?& Hh).
    unfold prepared_ok. split_and!; auto; lia.
Qed.

Lemma deregister_inv w i :
  world_inv w →
  world_inv (mkWorld (with_cm (w_e w) (fst (deregister_memory (peers_to_tell (e_peers (w_e w))) i
    (e_core (w_e w), e_mem (w_e w))))) (w_prepared w) (w_parts w)).
Proof.
  intros [W1 W2 W3 W4 W5 W6].
  pose proof (deregister_memory_quiet (peers_to_tell (e_peers (w_e w))) i (e_core (w_e w))
    (e_mem (w_e w))) as H.
  pose proof (deregister_memory_inv (peers_to_tell (e_peers (w_e w))) i (e_core (w_e w)) _ W2) as I.
  destruct (deregister_memory _ i _) as [cm s]. cbn [fst] in I.
  destruct H as (Q & _ & H1 & H2 & H3). split; cbn; auto.
  - rewrite (q_pending _ _ Q).
    eapply core_inv_ghost; [eapply core_inv_quiet; [exact W1|done]|..]; cbn; try done.
    intros j r Hr Hj Hh x Hx. apply H2; [auto|].
    rewrite (q_reqs _ _ Q) in Hr. rewrite (q_inflight _ _ Q) in Hj. by eapply region_busy_spec.
  - intros j lr Hj Hn. destruct (H3 j lr Hj Hn) as [?|[? ?]]; [done|]. eauto.
  - eapply Forall_impl; [|exact W6]. intros pr (?&?&?&?&?&?&?&?&?&?& Hh).
    unfold prepared_ok. split_and!; auto; [lia..|]. intros x Hx. apply H1. auto.
Qed.

Lemma forget_inv w i :
  world_inv w → Forall (fun pr => i ∉ held_regions (att_ (pr_req pr))) (w_prepared w) →
  world_inv (mkWorld (with_cm (w_e w) (forget_region i (e_core (w_e w), e_mem (w_e w))))
    (w_prepared w) (w_parts w)).
Proof.
  intros [W1 W2 W3 W4 W5 W6] Hf.
  destruct (forget_region_quiet i (e_core (w_e w)) (e_mem (w_e w))) as (Q & H1 & H2 & H3).
  pose proof (forget_region_inv i (e_core (w_e w)) _ W2) as I.
  set (cm := forget_region i (e_core (w_e w), e_mem (w_e w))) in *. clearbody cm.
  split; cbn; rewrite ?H1; auto.
  - rewrite (q_pending _ _ Q).
    eapply core_inv_ghost; [eapply core_inv_quiet; [exact W1|done]|..]; cbn; rewrite ?H1; done.
  - intros j lr Hj. apply W3. auto.
  - rewrite list.Forall_forall in *. intros pr Hpr. specialize (Hf pr Hpr).
    destruct (W6 pr Hpr) as (?&?&?&?&?&?&?&?&?&?& Hh).
    unfold prepared_ok. split_and!; auto; [lia..|]. intros x Hx. apply H3; [|auto].
    intros ->. done.
Qed.

Lemma explicit_progress_good gh parts e :
  steps_good gh parts e (fst (explicit_progress cfg device e)).
Proof. unfold explicit_progress. case_bool_decide; [apply progress_good|done]. Qed.

Lemma remove_peer_good gh parts i e :
  steps_good gh parts e (with_ct e (fst (remove_peer cfg i (e_core e, e_peers e)))).
Proof.
  unfold remove_peer. destruct (t_objs (e_peers e) !! i) as [p|]; [|by apply steps_good_same].
  set (c1 := end_notifications cfg (p_id p) false (removed_error (p_id p)) (e_core e)).
  pose proof (disconnect_lanes_out (p_lanes p) (c_providers c1) Status.kOk) as O.
  destruct (disconnect_lanes (p_lanes p) (c_providers c1) Status.kOk) as [ps s]. cbn [fst] in *.
  transitivity (set_core c1 e); [apply end_notifications_good|].
  transitivity (set_core (with_providers ps c1) (set_core c1 e)).
  { apply steps_good_quiet. by apply quiet_providers. }
  by apply steps_good_same.
Qed.

Lemma call_inv w e' :
  world_inv w → call (w_e w) e' → world_inv (mkWorld e' (w_prepared w) (w_parts w)).
Proof.
  intros W H. inversion H; subst.
  - apply world_good; [done|]. apply progress_good.
  - by apply notify_inv.
  - apply world_good; [done|]. apply cancel_good.
  - destruct (register_memory_quiet cfg device mine addr len access (e_core (w_e w)) (e_mem (w_e w)))
      as [Q G]. apply grows_inv; auto. apply register_memory_inv; auto. apply W.
  - by apply deregister_inv.
  - destruct (release_cached_quiet (e_core (w_e w)) (e_mem (w_e w))) as (Q & E1 & E2 & _).
    apply grows_inv; auto; [by apply grows_same|].
    apply (release_cached_inv (e_core (w_e w))). apply W.
  - apply world_good; [done|].
    transitivity (set_core (fst (fst (add_peer mine max_reg metadata
      (e_core (w_e w), e_peers (w_e w))))) (w_e w)).
    { apply steps_good_quiet. apply add_peer_quiet. }
    by apply steps_good_same.
  - apply world_good; [done|]. apply remove_peer_good.
  - apply world_good; [done|]. by apply steps_good_same.
  - apply world_good; [done|]. unfold poll_notifications.
    pose proof (explicit_progress_good (ghost w) (w_parts w) (w_e w)) as G.
    destruct (explicit_progress cfg device (w_e w)) as [e s]. cbn [fst] in *.
    transitivity e; [done|]. by apply steps_good_same.
  - apply world_good; [done|]. unfold poll_completions.
    pose proof (explicit_progress_good (ghost w) (w_parts w) (w_e w)) as G.
    destruct (explicit_progress cfg device (w_e w)) as [e s]. cbn [fst] in *.
    transitivity e; [done|]. apply steps_good_quiet. by split.
  - apply world_good; [done|]. unfold poll_ready_events.
    pose proof (explicit_progress_good (ghost w) (w_parts w) (w_e w)) as G.
    destruct (explicit_progress cfg device (w_e w)) as [e s]. cbn [fst] in *.
    transitivity e; [done|]. by apply steps_good_same.
  - apply world_good; [done|]. by apply steps_good_same.
  - apply world_good; [done|].
    etransitivity; [apply (end_notifications_good _ _ 0 false no_error)|]. by apply steps_good_same.
Qed.

Lemma world_step_inv w w' : world_step w w' → world_inv w → world_inv w'.
Proof.
  intros H W. destruct H as [w e' Hc|w i local remote opts kind e' pr Hp Hs Hn
    |w i local remote opts kind e' s Hp|w l1 pr l2 e' parts Hl Ha|w l1 pr l2 e' s Hl Ha
    |w l1 p l2 Hl|w i Hf].
  - by apply call_inv.
  - by apply (prepare_inv _ _ _ _ _ _ _ _ W Hp).
  - by apply (prepare_inv _ _ _ _ _ _ _ _ W Hp).
  - by apply (admit_inv _ _ _ _ _ _ W Hl Ha).
  - by apply (admit_inv _ _ _ _ _ _ W Hl Ha).
  - by apply post_part_inv.
  - by apply forget_inv.
Qed.

Lemma init_world_inv ps d : (∀ j, total_out ps j = 0%nat) → world_inv (init_world ps d).
Proof.
  intros O. split; try (by constructor).
  - change (core_inv (ghost (init_world ps d)) ∅ (init_core ps d) [] None []).
    split; try (by constructor).
    + intros j. assert (out (init_core ps d) [] j = 0%nat) as ->
        by (unfold out; cbn [c_providers init_core]; by rewrite O).
      change (c_reqs (init_core ps d) !! j) with ((∅ : gmap Z RequestImpl) !! j).
      rewrite lookup_empty. cbn. split_and!; try done; set_solver.
    + intros j r Hj. change ((∅ : gmap Z RequestImpl) !! j = Some r) in Hj.
      by rewrite lookup_empty in Hj.
    + cbn. intros *. rewrite lookup_empty. by intros [].
    + cbn. intros *. rewrite lookup_empty. by intros [].
  - apply empty_memory_inv.
  - cbn. intros *. by rewrite lookup_empty.
  - cbn. set_solver.
Qed.

Lemma world_steps_inv ps d w :
  (∀ j, total_out ps j = 0%nat) → rtc world_step (init_world ps d) w → world_inv w.
Proof.
  intros O H. assert (G : ∀ w1 w2, rtc world_step w1 w2 → world_inv w1 → world_inv w2)
    by (induction 1; eauto using world_step_inv).
  eapply G; [exact H|]. by apply init_world_inv.
Qed.

(** ** Regions that were taken back *)

Definition gone (i : Z) (m : Memory) : Prop := (i ∉ m_table m) ∧ i < m_next_region m.

Definition gone_kept (i : Z) (m m' : Memory) : Prop := gone i m → gone i m'.

Lemma same_regions_gone i m m' : same_regions m m' → gone_kept i m m'.
Proof. intros (_ & E1 & E2). unfold gone_kept, gone. by rewrite E1, E2. Qed.

Lemma register_memory_gone addr len access (c : Core P D) m i :
  gone_kept i m (snd (fst (register_memory cfg device mine addr len access (c, m)))).
Proof.
  assert (H : ∀ origin dev mem g reg m0, gone i m →
    m_table m0 = m_table m → m_next_region m0 = m_next_region m →
    gone i (fst (add_handle origin addr len dev mem access g reg m0))).
  { intros origin dev mem g reg m0 [G1 G2] E1 E2. unfold gone, add_handle. cbn. rewrite E1, E2.
    split; [set_solver by lia|lia]. }
  intros G. unfold register_memory. destruct (_ || _); [done|].
  destruct (match device with Some d => _ | None => _ end) as [dev mem].
  destruct (_ && _); [done|].
  destruct (find_registration m addr len dev access) as [g|].
  - destruct (m_regs m !! g) as [e|]; [|done].
    specialize (H mine dev mem g (rg_reg e) m G eq_refl eq_refl).
    by destruct (add_handle mine addr len dev mem access g (rg_reg e) m).
  - destruct (register_all 0 _ addr len dev access Status.kOk) as [[[ps keys] held] fe].
    destruct keys as [|k0 keys]; [done|]. set (reg := mkRegistration _ _ _ _ _ _ _).
    unfold add_registration. set (m1 := mkMemory _ _ _ _ _ _ _ _).
    set (cm := if 0 <? _ then _ else _).
    assert (E : m_table (snd cm) = m_table m ∧ m_next_region (snd cm) = m_next_region m).
    { unfold cm. destruct (0 <? _); [|done].
      by destruct (cache_registration_quiet cfg (m_next_reg m)
        (with_providers ps (count registrations_created 1 c)) m1) as (_ & _ & -> & ->). }
    destruct cm as [c3 m3]. cbn [snd] in E. destruct E as [E1 E2].
    specialize (H mine dev mem (m_next_reg m) reg m3 G E1 E2).
    by destruct (add_handle mine addr len dev mem access (m_next_reg m) reg m3).
Qed.

Lemma deregister_memory_gone peers j (c : Core P D) m i :
  gone_kept i m (snd (fst (deregister_memory peers j (c, m)))).
Proof.
  intros G. unfold deregister_memory. destruct (m_objs m !! j); [|done].
  destruct (region_busy c j); [done|].
  destruct (broadcast_all 0 _ _ _) as [[[ps a] b] obo]. destruct (tell_peers _ _ _ _ ps) as [[ps' a'] b'].
  destruct G as [G1 G2]. split; cbn; [set_solver|done].
Qed.

Lemma forget_region_gone j (c : Core P D) m i : gone_kept i m (snd (forget_region j (c, m))).
Proof.
  intros [G1 G2]. unfold forget_region. destruct (_ || _); [done|].
  destruct (m_reg_of m !! j) as [g|]; [|done].
  destruct (_ || _); [done|]. unfold release. cbn. by destruct (m_regs m !! g).
Qed.

Lemma notify_mem i payload (e : Engine P D) : e_mem (fst (notify cfg i payload e)) = e_mem e.
Proof.
  unfold notify. destruct (t_objs (e_peers e) !! i) as [p|]; [|done].
  destruct (_ <? _); [done|]. destruct (e_closed e); [done|]. destruct (negb _); [done|].
  destruct (peer_provider p) as [k|]; [|done]. cbn zeta.
  match goal with |- context [c_providers ?c !! k] => destruct (c_providers c !! k); [|done] end.
  destruct (send_control _ _ _ _) as [prov' s]. destruct (Status.ok s); [done|].
  by destruct (take_notification _ _) as [c' [j|]].
Qed.

(** Only registering, deregistering and releasing the cache change the memory. *)

Lemma call_mem e e' :
  call e e' →
  e_mem e' = e_mem e
  ∨ (∃ addr len access,
       e' = with_cm e (fst (register_memory cfg device mine addr len access (e_core e, e_mem e))))
  ∨ (∃ i, e' = with_cm e (fst (deregister_memory (peers_to_tell (e_peers e)) i (e_core e, e_mem e))))
  ∨ e' = with_cm e (fst (release_cached_registrations (e_core e, e_mem e))).
Proof.
  intros H. set (gh := mkGhost (fun _ _ => True) (fun _ => True) (fun _ => True)).
  assert (K : ∀ e1, steps_good gh [] e e1 → e_mem e1 = e_mem e) by (intros e1 [_ [Hk _]]; exact Hk).
  assert (X : e_mem (fst (explicit_progress cfg device e)) = e_mem e) by (apply K, explicit_progress_good).
  destruct H; [left|left|left|right; left; eauto|right; right; left; eauto|auto|left..].
  - apply K, progress_good.
  - apply notify_mem.
  - apply K, cancel_good.
  - done.
  - apply K, remove_peer_good.
  - done.
  - unfold poll_notifications. by destruct (explicit_progress cfg device e).
  - unfold poll_completions. by destruct (explicit_progress cfg device e).
  - unfold poll_ready_events. by destruct (explicit_progress cfg device e).
  - done.
  - done.
Qed.

Lemma call_gone e e' i : call e e' → gone_kept i (e_mem e) (e_mem e').
Proof.
  intros H. apply call_mem in H as [E|[(addr & len & access & ->)|[(j & ->)| ->]]].
  - unfold gone_kept. by rewrite E.
  - apply register_memory_gone.
  - apply deregister_memory_gone.
  - apply same_regions_gone. apply (release_cached_quiet (e_core e) (e_mem e)).
Qed.

Lemma prepare_mem i local remote opts kind (e e' : Engine P D) r :
  submit_prepare cfg device i local remote opts kind e = (e', r) → e_mem e' = e_mem e.
Proof.
  unfold submit_prepare. destruct (t_objs (e_peers e) !! i) as [p|]; [|by intros [= <- _]].
  destruct (e_closed e); [by intros [= <- _]|]. destruct (_ || _); [by intros [= <- _]|].
  destruct (opt_notify opts); [by intros [= <- _]|].
  destruct (negb (p_connected p)); [by intros [= <- _]|].
  destruct (dependency_state _ _) as [d dep]. destruct (_ && _); [by intros [= <- _]|].
  destruct (_ <=? _); [by intros [= <- _]|].
  destruct (build_subops _ _ _ _ _ _ _) as [[s|bt]|]; try by intros [= <- _].
  case_bool_decide; by intros [= <- _].
Qed.

Lemma admit_mem pr (e e' : Engine P D) r : submit_admit pr e = (e', r) → e_mem e' = e_mem e.
Proof.
  unfold submit_admit. destruct (e_closed e); [by intros [= <- _]|].
  destruct (existsb _ _); [by intros [= <- _]|].
  destruct (match pr_after pr with [] => _ | _ => _ end) as [d dep].
  case_bool_decide; by intros [= <- _].
Qed.

Lemma world_step_gone w w' i :
  world_step w w' → gone_kept i (e_mem (w_e w)) (e_mem (w_e w')).
Proof.
  intros H. destruct H as [w e' Hc|w j local remote opts kind e' pr Hp Hs Hn
    |w j local remote opts kind e' s Hp|w l1 pr l2 e' parts Hl Ha|w l1 pr l2 e' s Hl Ha
    |w l1 p l2 Hl|w j Hf]; cbn [w_e].
  - by apply call_gone.
  - unfold gone_kept. by rewrite (prepare_mem _ _ _ _ _ _ _ _ Hp).
  - unfold gone_kept. by rewrite (prepare_mem _ _ _ _ _ _ _ _ Hp).
  - unfold gone_kept. by rewrite (admit_mem _ _ _ _ Ha).
  - unfold gone_kept. by rewrite (admit_mem _ _ _ _ Ha).
  - intros G. unfold post_part. destruct (post_ops _ _ _ _). exact G.
  - apply forget_region_gone.
Qed.

Lemma world_steps_gone w w' i :
  rtc world_step w w' → gone i (e_mem (w_e w)) → gone i (e_mem (w_e w')).
Proof. induction 1 as [|x y z H _ IH]; [done|]. intros G. apply IH. by eapply world_step_gone. Qed.

(** ** [submit_vector] is a run of these steps *)

Lemma post_parts_steps e prepared parts rest :
  rtc world_step (mkWorld e prepared (parts ++ rest))
    (mkWorld (foldl (fun e p => post_part cfg p e) e parts) prepared rest).
Proof.
  revert e. induction parts as [|p parts IH]; intros e; [done|]. cbn [foldl].
  eapply rtc_l; [|apply IH]. apply (ws_post (mkWorld e prepared (p :: parts ++ rest)) [] p). done.
Qed.

Lemma submit_vector_steps i local remote opts kind e prepared parts :
  (∀ pr, snd (submit_prepare cfg device i local remote opts kind e) = inr pr →
    Z.of_nat (length (concat (pr_per_lane pr))) < 2 ^ 32) →
  Forall seg_wf (zip local remote) →
  rtc world_step (mkWorld e prepared parts)
    (mkWorld (fst (submit_vector cfg device i local remote opts kind e)) prepared parts).
Proof.
  intros Hn Hw. unfold submit_vector.
  destruct (submit_prepare cfg device i local remote opts kind e) as [e1 [s|pr]] eqn:Hp.
  { apply rtc_once. by apply (ws_refuse (mkWorld e prepared parts) i local remote opts kind e1 s). }
  eapply rtc_l; [apply (ws_prepare (mkWorld e prepared parts) i local remote opts kind e1 pr); auto|].
  cbn. destruct (submit_admit pr e1) as [e2 [s|ps]] eqn:Ha.
  - apply rtc_once. by apply (ws_turn_away (mkWorld e1 (pr :: prepared) parts) [] pr prepared e2 s).
  - eapply rtc_l; [by apply (ws_admit (mkWorld e1 (pr :: prepared) parts) [] pr prepared e2 ps)|].
    apply post_parts_steps.
Qed.

End World.

Arguments World P D : clear implicits.

(** ** Properties *)

Section Properties.
Context {P D : Type} `{!TransportProvider P} `{!ProviderLaws P} `{!DeviceWorld D}.
Context (cfg : EngineConfig) (mine : Identity) (device : option DeviceBackend).

(** Reached from a fresh engine over idle transports, by any interleaving. *)

Definition reachable (w : World P D) : Prop :=
  ∃ ps d, (∀ j, total_out ps j = 0%nat) ∧ rtc (world_step cfg mine device) (init_world ps d) w.

Lemma reachable_inv w : 1 <= cfg_chunk_bytes cfg → reachable w → world_inv w.
Proof. intros Hc (ps & d & O & H). by eapply world_steps_inv. Qed.

Lemma total_out_elem (ps : list P) p j : p ∈ ps → (outstanding p j <= total_out ps j)%nat.
Proof.
  induction 1 as [p ps|p q ps _ IH]; unfold total_out in *; cbn [sum_list_with]; lia.
Qed.

Lemma nparts_elem ps p : p ∈ ps → (0 < nparts (pd_req p) ps)%nat.
Proof.
  induction 1 as [p ps|p q ps _ IH]; rewrite nparts_cons; [rewrite decide_True by done|]; lia.
Qed.

Lemma total_out_pos (ps : list P) j :
  (0 < total_out ps j)%nat → ∃ p, p ∈ ps ∧ (0 < outstanding p j)%nat.
Proof.
  induction ps as [|p ps IH]; unfold total_out in *; cbn [sum_list_with]; [lia|]. intros H.
  destruct (decide (0 < outstanding p j)%nat); [exists p; split; [apply list_elem_of_here|done]|].
  destruct IH as (q & Hq & ?); [lia|]. exists q. split; [by apply list_elem_of_further|done].
Qed.

Lemma nparts_pos ps j : (0 < nparts j ps)%nat → ∃ p, p ∈ ps ∧ pd_req p = j.
Proof.
  induction ps as [|p ps IH]; [cbn; lia|]. rewrite nparts_cons. case_decide as E.
  - intros _. exists p. split; [apply list_elem_of_here|done].
  - intros H. destruct IH as (q & Hq & ?); [lia|]. exists q. split; [by apply list_elem_of_further|done].
Qed.


(** C2: What the end of a transfer means to its caller. Once a transfer has
    ended (whether it succeeded, failed or was cancelled) and was not taken by
    the reaper of a lost peer, no transport owes a completion for it and no
    piece of it is left to be posted, in the engine's queue or in any
    submitting thread's hands: its buffers are not touched again. *)
Theorem ended_transfers_idle w j r :
  1 <= cfg_chunk_bytes cfg → reachable w →
  c_reqs (e_core (w_e w)) !! j = Some r → 0 < total_subops_ r → terminal_locked r = true →
  (j ∉ e_reaped (w_e w)) →
  (∀ p, p ∈ c_providers (e_core (w_e w)) → outstanding p j = 0%nat)
  ∧ (∀ p, p ∈ c_pending (e_core (w_e w)) ++ w_parts w → pd_req p ≠ j).
Proof.
  intros Hc H Hr Ht T Hn. pose proof (wi_core _ (reachable_inv w Hc H)) as I.
  pose proof (ci_req _ _ _ _ _ _ I j) as Q. rewrite Hr in Q. destruct Q as (_ & Q1 & Q2 & Q3 & _).
  assert (Hi : j ∉ c_inflight (e_core (w_e w))).
  { intros Hi. destruct (Q1 Hi) as [_ F]. pose proof (fl_live _ _ _ _ _ F). congruence. }
  destruct (Q2 Hi Ht) as [_ Hl]. destruct (Q3 Hl) as [_ Z]. destruct (Z Hn) as [Z1 Z2]. split.
  - intros p Hp. pose proof (total_out_elem _ _ j Hp). unfold out in Z1. lia.
  - intros p Hp <-. pose proof (nparts_elem _ _ Hp). lia.
Qed.

(** C3: No transfer is stranded. Every transfer in flight is owed a completion
    by some transport, or has a piece still to be posted (waiting its turn or
    its dependencies, or in a submitter's hands); there is no state in which
    one is in flight with nothing left that could end it. *)
Theorem inflight_can_end w j :
  1 <= cfg_chunk_bytes cfg → reachable w → j ∈ c_inflight (e_core (w_e w)) →
  (∃ p, p ∈ c_providers (e_core (w_e w)) ∧ (0 < outstanding p j)%nat)
  ∨ (∃ p, p ∈ c_pending (e_core (w_e w)) ++ w_parts w ∧ pd_req p = j).
Proof.
  intros Hc H Hi. pose proof (wi_core _ (reachable_inv w Hc H)) as I.
  pose proof (ci_req _ _ _ _ _ _ I j) as Q. destruct (c_reqs (e_core (w_e w)) !! j) as [r|];
    [|by destruct Q as (? & _)].
  destruct Q as (_ & Q1 & _). destruct (Q1 Hi) as [_ F].
  destruct (decide (nparts j (c_pending (e_core (w_e w)) ++ w_parts w) = 0%nat)) as [E|E].
  - left. destruct (fl_ends _ _ _ _ _ F) as [Ho _]; [rewrite E; done|].
    unfold out in Ho. cbn in Ho. apply total_out_pos. unfold count_req in Ho. cbn in Ho. lia.
  - right. apply nparts_pos. lia.
Qed.


(** C4: Deregistered memory is left alone. If [deregister_memory] answered kOk
    for a region, then at that moment and in every later state, whatever any
    thread does (a submission already checked and split against the region
    included), no transfer in flight uses it. *)
Theorem deregistered_region_unused w i cm w' j r :
  1 <= cfg_chunk_bytes cfg → reachable w →
  deregister_memory (peers_to_tell (e_peers (w_e w))) i (e_core (w_e w), e_mem (w_e w))
    = (cm, Status.kOk) →
  rtc (world_step cfg mine device)
    (mkWorld (with_cm (w_e w) cm) (w_prepared w) (w_parts w)) w' →
  j ∈ c_inflight (e_core (w_e w')) → c_reqs (e_core (w_e w')) !! j = Some r →
  i ∉ held_regions (att_ r).
Proof.
  intros Hc Hw Hd Hs Hj Hr Hi. pose proof (reachable_inv w Hc Hw) as W.
  pose proof (deregister_inv w i W) as W1. rewrite Hd in W1. cbn [fst] in W1.
  assert (W2 : world_inv w').
  { clear -W1 Hs Hc. revert W1. induction Hs as [|x y z H _ IH]; [done|].
    intros W1. apply IH. by eapply world_step_inv. }
  assert (G : gone i (e_mem (w_e w'))).
  { eapply world_steps_gone; [exact Hc|exact Hs|]. cbn [w_e]. split.
    - pose proof (deregister_memory_quiet (peers_to_tell (e_peers (w_e w))) i (e_core (w_e w))
        (e_mem (w_e w))) as Q. rewrite Hd in Q. by destruct Q as (_ & Q & _); apply Q.
    - cbn. pose proof (deregister_memory_inv (peers_to_tell (e_peers (w_e w))) i (e_core (w_e w)) _
        (wi_mem _ W)) as I. rewrite Hd in I. cbn [fst] in I.
      assert (Ho : is_Some (m_objs (snd cm) !! i)).
      { revert Hd. unfold deregister_memory. destruct (m_objs (e_mem (w_e w)) !! i); [|done].
        destruct (region_busy _ i); [done|]. destruct (broadcast_all 0 _ _ _) as [[[? ?] ?] ?].
        destruct (tell_peers _ _ _ _ _) as [[? ?] ?]. intros [= <-]. cbn.
        rewrite lookup_insert_eq. eauto. }
      destruct Ho as [lr Ho]. apply (mi_fresh_region _ _ I). by apply (mi_objs _ _ I i lr). }
  destruct G as [G _]. apply G. by apply (ci_att _ _ _ _ _ _ (wi_core _ W2) j r Hr Hj).
Qed.

End Properties.
