(* ===== verification/ByteMemory.v ===== *)
(** * Process memory as the in-process transports use it.

    Memory is a finite map from addresses to bytes; an address never written
    reads as 0.  [memcpy] is the C function on ranges that do not overlap, the
    case its contract covers. *)

From stdpp Require Import base list gmap numbers.
From S2P Require Import Prelude.

Abbreviation ByteMem := (gmap Z Z).

Definition peek (m : ByteMem) (a : Z) : Z := default 0 (m !! a).

Fixpoint load (m : ByteMem) (a : Z) (n : nat) : list Z :=
  match n with
  | O => []
  | S n => peek m a :: load m (a + 1) n
  end.

Fixpoint store (m : ByteMem) (a : Z) (bs : list Z) : ByteMem :=
  match bs with
  | [] => m
  | b :: bs => <[a := b]> (store m (a + 1) bs)
  end.

Definition memcpy (m : ByteMem) (dst src n : Z) : ByteMem := store m dst (load m src (Z.to_nat n)).

Lemma length_load m a n : length (load m a n) = n.
Proof. revert a. induction n; intros; cbn; auto. Qed.

Lemma load_lookup m a n (i : nat) : (i < n)%nat → load m a n !! i = Some (peek m (a + Z.of_nat i)).
Proof.
  revert a i. induction n as [|n IH]; intros a [|i] H; cbn; try lia.
  - by rewrite Z.add_0_r.
  - rewrite IH by lia. do 2 f_equal. lia.
Qed.

Lemma peek_store m a bs x :
  peek (store m a bs) x =
  if decide (a <= x < a + Z.of_nat (length bs)) then default 0 (bs !! Z.to_nat (x - a))
  else peek m x.
Proof.
  revert a. induction bs as [|b bs IH]; intros a; cbn [store length].
  - case_decide; [lia|done].
  - unfold peek in *. destruct (decide (x = a)) as [->|Hne].
    + rewrite lookup_insert_eq, Z.sub_diag. case_decide; [done|lia].
    + rewrite lookup_insert_ne, IH by congruence. repeat case_decide; try lia.
      replace (Z.to_nat (x - a)) with (S (Z.to_nat (x - (a + 1)))) by lia. done.
Qed.

(** What a copy does to every byte of memory. *)

Lemma peek_memcpy m dst src n x :
  0 <= n →
  peek (memcpy m dst src n) x =
  if decide (dst <= x < dst + n) then peek m (src + (x - dst)) else peek m x.
Proof.
  intros Hn. unfold memcpy. rewrite peek_store, length_load.
  repeat case_decide; try lia.
  rewrite load_lookup by lia. cbn. f_equal. lia.
Qed.
