(* ===== verification/LocalPath.v ===== *)
(** * Transfers inside one process ([src/transport/local/]).

    The registry of published ranges and the process's memory are shared by
    every [LocalProvider] of the process, so the state of the transport is the
    whole process ([LocalWorld]) and the provider it is seen from
    ([LocalProvider], a node of that world).  A pairing is the [weak_ptr] of the
    source: it resolves while the node it names exists. *)

From stdpp Require Import base list gmap strings numbers.
From S2P Require Import Prelude Float64 Types Wire Region Provider SubOps ByteMemory.

(** ** The registry *)

Record Entry : Type := mkEntry { en_addr : Z; en_length : Z }.

Record LocalRegistry : Type := mkLocalRegistry { lr_entries : gmap Z Entry; lr_next : Z }.

Definition publish (addr length : Z) (r : LocalRegistry) : LocalRegistry * Z :=
  let key := lr_next r in
  (mkLocalRegistry (<[key := mkEntry addr length]> (lr_entries r)) (wrap64 (key + 1)), key).

Definition withdraw (key : Z) (r : LocalRegistry) : LocalRegistry :=
  mkLocalRegistry (delete key (lr_entries r)) (lr_next r).

Definition resolve_locked (r : LocalRegistry) (key address length : Z) : option Z :=
  match lr_entries r !! key with
  | None => None
  | Some e =>
      if address <? en_addr e then None
      else
        let offset := address - en_addr e in
        if (en_length e <? offset) || (en_length e - offset <? length) then None
        else Some (en_addr e + offset)
  end.

Definition copy (r : LocalRegistry) (m : ByteMem) (key address length local : Z)
    (into_local : bool) : option ByteMem :=
  match resolve_locked r key address length with
  | None => None
  | Some remote =>
      Some (if into_local then memcpy m local remote length else memcpy m remote local length)
  end.

(** ** The providers of a process *)

Record LocalNode : Type := mkLocalNode {
  nd_stats : ProviderStats;
  nd_completions : list CompletionEvent;
  nd_control : list ControlMessage;
  nd_local_keys : gmap Z Z;
  nd_peer : option nat
}.

Definition new_node : LocalNode := mkLocalNode no_provider_stats [] [] ∅ None.

Record LocalWorld : Type := mkLocalWorld {
  lw_registry : LocalRegistry;
  lw_memory : ByteMem;
  lw_nodes : gmap nat LocalNode;
  lw_next_conn : Z
}.

Record LocalProvider : Type := mkLocalProvider { lp_self : nat; lp_world : LocalWorld }.

Definition node (p : LocalProvider) : LocalNode :=
  default new_node (lw_nodes (lp_world p) !! lp_self p).

Definition set_node (i : nat) (n : LocalNode) (p : LocalProvider) : LocalProvider :=
  let w := lp_world p in
  mkLocalProvider (lp_self p)
    (mkLocalWorld (lw_registry w) (lw_memory w) (<[i := n]> (lw_nodes w)) (lw_next_conn w)).

Definition set_registry (r : LocalRegistry) (p : LocalProvider) : LocalProvider :=
  let w := lp_world p in
  mkLocalProvider (lp_self p) (mkLocalWorld r (lw_memory w) (lw_nodes w) (lw_next_conn w)).

Definition set_memory (m : ByteMem) (p : LocalProvider) : LocalProvider :=
  let w := lp_world p in
  mkLocalProvider (lp_self p) (mkLocalWorld (lw_registry w) m (lw_nodes w) (lw_next_conn w)).

Definition local_caps : ProviderCaps := mkProviderCaps "local"%string f64_1 0.

Definition pair_with (peer : nat) (p : LocalProvider) : LocalProvider :=
  let n := node p in
  set_node (lp_self p) (mkLocalNode (nd_stats n) (nd_completions n) (nd_control n)
    (nd_local_keys n) (Some peer)) p.

Definition local_register_region (p : LocalProvider) (addr length : Z)
    : LocalProvider * (Status.t * Z * Z) :=
  if (addr =? 0) || (length =? 0) then (p, (Status.kInvalidArgument, 0, 0))
  else
    let '(r, key) := publish addr length (lw_registry (lp_world p)) in
    let n := node p in
    (set_node (lp_self p) (mkLocalNode (nd_stats n) (nd_completions n) (nd_control n)
       (<[key := addr]> (nd_local_keys n)) (nd_peer n)) (set_registry r p),
     (Status.kOk, key, key)).

Definition local_deregister_region (p : LocalProvider) (key : Z) : LocalProvider * Status.t :=
  let n := node p in
  match nd_local_keys n !! key with
  | None => (p, Status.kNotFound)
  | Some _ =>
      (set_registry (withdraw key (lw_registry (lp_world p)))
         (set_node (lp_self p) (mkLocalNode (nd_stats n) (nd_completions n) (nd_control n)
            (delete key (nd_local_keys n)) (nd_peer n)) p), Status.kOk)
  end.

Definition local_connect (p : LocalProvider) : LocalProvider * (Status.t * ConnId) :=
  let w := lp_world p in
  (mkLocalProvider (lp_self p)
     (mkLocalWorld (lw_registry w) (lw_memory w) (lw_nodes w) (lw_next_conn w + 1)),
   (Status.kOk, lw_next_conn w)).

Definition local_event (op : SubOp) : CompletionEvent :=
  mkCompletionEvent (op_request op) (op_sub_id op) (op_length op) Status.kOk 0 false.

(** One turn of the loop of [submit]: [None] when the range is refused. *)

Definition submit_one (p : LocalProvider) (op : SubOp) : option LocalProvider :=
  match copy (lw_registry (lp_world p)) (lw_memory (lp_world p)) (op_remote_key op)
          (op_remote_addr op) (op_length op) (op_local_addr op)
          (bool_decide (op_kind op = SubOpKind.kRead)) with
  | None => None
  | Some m =>
      let n := node p in
      Some (set_node (lp_self p)
        (mkLocalNode (count_posted (nd_stats n) (op_length op) (op_length op))
           (nd_completions n ++ [local_event op]) (nd_control n) (nd_local_keys n) (nd_peer n))
        (set_memory m p))
  end.

Fixpoint submit_loop (p : LocalProvider) (ops : list SubOp) (accepted : nat)
    : LocalProvider * SubmitResult :=
  match ops with
  | [] => (p, mkSubmitResult accepted Status.kOk 0)
  | op :: ops =>
      match submit_one p op with
      | None => (p, mkSubmitResult accepted Status.kInvalidArgument 0)
      | Some p => submit_loop p ops (S accepted)
      end
  end.

Definition local_submit (p : LocalProvider) (ops : list SubOp) : LocalProvider * SubmitResult :=
  submit_loop p ops 0.

Definition local_poll (p : LocalProvider) (max : Z)
    : LocalProvider * (Status.t * list CompletionEvent) :=
  let n := node p in
  let out := take (Z.to_nat max) (nd_completions n) in
  (set_node (lp_self p)
     (mkLocalNode (foldl (fun s _ => count_completed s) (nd_stats n) out)
        (drop (Z.to_nat max) (nd_completions n)) (nd_control n) (nd_local_keys n) (nd_peer n)) p,
   (Status.kOk, out)).

Definition deliver_control (i : nat) (msg : ControlMessage) (p : LocalProvider) : LocalProvider :=
  let n := default new_node (lw_nodes (lp_world p) !! i) in
  set_node i (mkLocalNode (nd_stats n) (nd_completions n) (nd_control n ++ [msg])
    (nd_local_keys n) (nd_peer n)) p.

(** [peer_.lock()], and where a message goes: to the other side while there is
    one, back to this one otherwise. *)

Definition locked_peer (p : LocalProvider) : option nat :=
  match nd_peer (node p) with
  | None => None
  | Some j => if decide (is_Some (lw_nodes (lp_world p) !! j)) then Some j else None
  end.

Definition control_target (p : LocalProvider) : nat := default (lp_self p) (locked_peer p).

Definition local_send_control (p : LocalProvider) (conn : option ConnId) (type : Z)
    (payload : list Z) : LocalProvider * Status.t :=
  match conn with
  | None => (p, Status.kInvalidArgument)
  | Some c =>
      (deliver_control (control_target p) (mkControlMessage 0 type payload (Some c)) p, Status.kOk)
  end.

Definition local_broadcast_control (p : LocalProvider) (type : Z) (payload : list Z)
    : LocalProvider * (Status.t * Z * Z) :=
  (deliver_control (control_target p) (mkControlMessage 0 type payload None) p,
   (Status.kOk, 1, 0)).

Definition local_poll_control (p : LocalProvider) (max : Z)
    : LocalProvider * (Status.t * list ControlMessage) :=
  let n := node p in
  (set_node (lp_self p) (mkLocalNode (nd_stats n) (nd_completions n)
     (drop (Z.to_nat max) (nd_control n)) (nd_local_keys n) (nd_peer n)) p,
   (Status.kOk, take (Z.to_nat max) (nd_control n))).

#[export] Instance local_provider : TransportProvider LocalProvider := {
  caps _ := local_caps;
  stats p := nd_stats (node p);
  register_region p a l _ _ := local_register_region p a l;
  deregister_region := local_deregister_region;
  connect p _ := local_connect p;
  disconnect p _ := (p, Status.kOk);
  local_metadata _ := (Status.kOk, bytes_of_string "local");
  submit p _ ops := local_submit p ops;
  poll := local_poll;
  send_control := local_send_control;
  broadcast_control := local_broadcast_control;
  poll_control := local_poll_control;
  poll_peer_arrivals p _ := (p, (Status.kOk, []));
  alive _ _ := true;
  qp_count _ _ := 1
}.

(** ** Lemmas *)

Lemma node_set_node_self i n p : lp_self p = i → node (set_node i n p) = n.
Proof. intros <-. unfold node. cbn. by rewrite lookup_insert_eq. Qed.

Lemma node_set_memory m p : node (set_memory m p) = node p.
Proof. done. Qed.

Lemma node_set_registry r p : node (set_registry r p) = node p.
Proof. done. Qed.

Lemma deliver_control_completions i msg p :
  nd_completions (node (deliver_control i msg p)) = nd_completions (node p).
Proof.
  unfold deliver_control, node. cbn. destruct (decide (i = lp_self p)) as [->|Hne].
  - by rewrite lookup_insert_eq.
  - by rewrite lookup_insert_ne.
Qed.

(** A range the registry grants is the one that was asked for, inside the range
    that was published. *)

Lemma resolve_locked_spec r key a n x :
  resolve_locked r key a n = Some x ↔
  x = a ∧ ∃ e, lr_entries r !! key = Some e ∧ en_addr e <= a ∧ a - en_addr e <= en_length e
    ∧ a + n <= en_addr e + en_length e.
Proof.
  unfold resolve_locked.
  destruct (lr_entries r !! key) as [e|]; [|split; [done|by intros (_ & e & ? & _)]].
  split.
  - repeat split_if; try done. intros [= <-]. split; [lia|]. exists e. split_and!; try done; lia.
  - intros (-> & e' & [= <-] & H1 & H2 & H3). repeat split_if; try lia. f_equal. lia.
Qed.

(** The state of a provider after it took one operation. *)

Lemma submit_one_inv p op p' :
  submit_one p op = Some p' →
  lw_registry (lp_world p') = lw_registry (lp_world p)
  ∧ (∃ e, lr_entries (lw_registry (lp_world p)) !! op_remote_key op = Some e
      ∧ en_addr e <= op_remote_addr op
      ∧ op_remote_addr op + op_length op <= en_addr e + en_length e)
  ∧ lw_memory (lp_world p') =
      (if bool_decide (op_kind op = SubOpKind.kRead)
       then memcpy (lw_memory (lp_world p)) (op_local_addr op) (op_remote_addr op) (op_length op)
       else memcpy (lw_memory (lp_world p)) (op_remote_addr op) (op_local_addr op) (op_length op))
  ∧ nd_completions (node p') = nd_completions (node p) ++ [local_event op].
Proof.
  unfold submit_one, copy. destruct (resolve_locked _ _ _ _) as [x|] eqn:E; [|done].
  apply resolve_locked_spec in E as (-> & e & He & H1 & H2 & H3).
  intros [= <-]. rewrite node_set_node_self by done. split_and!; try done. exists e. done.
Qed.

Lemma submit_one_refused p op :
  submit_one p op = None ↔
  resolve_locked (lw_registry (lp_world p)) (op_remote_key op) (op_remote_addr op) (op_length op)
  = None.
Proof. unfold submit_one, copy. destruct (resolve_locked _ _ _ _); naive_solver. Qed.

(** What [submit] does, in terms of its one-operation turns. *)

Definition op_memory (m : ByteMem) (op : SubOp) : ByteMem :=
  if bool_decide (op_kind op = SubOpKind.kRead)
  then memcpy m (op_local_addr op) (op_remote_addr op) (op_length op)
  else memcpy m (op_remote_addr op) (op_local_addr op) (op_length op).

Definition granted (r : LocalRegistry) (op : SubOp) : Prop :=
  is_Some (resolve_locked r (op_remote_key op) (op_remote_addr op) (op_length op)).

Lemma submit_loop_spec p ops a p' r :
  submit_loop p ops a = (p', r) →
  ∃ n, sr_accepted r = (a + n)%nat ∧ (n <= length ops)%nat
    ∧ lw_registry (lp_world p') = lw_registry (lp_world p)
    ∧ lw_memory (lp_world p') = foldl op_memory (lw_memory (lp_world p)) (take n ops)
    ∧ nd_completions (node p') = nd_completions (node p) ++ map local_event (take n ops)
    ∧ Forall (granted (lw_registry (lp_world p))) (take n ops)
    ∧ (sr_status r = Status.kOk ∧ n = length ops
       ∨ sr_status r = Status.kInvalidArgument
         ∧ ∃ op, ops !! n = Some op ∧ ¬ granted (lw_registry (lp_world p)) op).
Proof.
  revert p a. induction ops as [|op ops IH]; intros p a H; cbn in H.
  - injection H as <- <-. exists 0%nat. cbn. rewrite app_nil_r. split_and!; auto; lia.
  - destruct (submit_one p op) as [p1|] eqn:E.
    + destruct (submit_one_inv _ _ _ E) as (R & G & M & C).
      destruct (IH _ _ H) as (n & A1 & A2 & A3 & A4 & A5 & A6 & A7).
      exists (S n). cbn [take map foldl length lookup list_lookup]. rewrite R in *.
      split_and!; try done; try lia.
      * by rewrite A4, M.
      * rewrite A5, C, <- app_assoc. done.
      * constructor; [|done]. apply not_eq_None_Some. intros X.
        apply submit_one_refused in X. congruence.
      * destruct A7 as [[? ->]|(? & ?)]; auto.
    + injection H as <- <-. exists 0%nat. cbn. rewrite app_nil_r.
      split_and!; try done; try lia. right. split; [done|]. exists op. split; [done|].
      apply submit_one_refused in E. unfold granted. rewrite E. by intros [].
Qed.

#[export] Instance local_laws : ProviderLaws LocalProvider.
Proof.
  refine {| outstanding p i := count_req ev_request i (nd_completions (node p)) |}; intros; cbn.
  - unfold local_submit. destruct (submit_loop p ops 0) as [p' r] eqn:E.
    destruct (submit_loop_spec _ _ _ _ _ E) as (n & A & ? & _). cbn. lia.
  - unfold local_submit. destruct (submit_loop p ops 0) as [p' r] eqn:E.
    destruct (submit_loop_spec _ _ _ _ _ E) as (n & A & _ & _ & _ & C & _). cbn.
    by rewrite C, count_req_app, count_req_map, A.
  - rewrite node_set_node_self by done. cbn.
    rewrite <- (take_drop (Z.to_nat n) (nd_completions (node p))) at 1.
    rewrite count_req_app. unfold count_req. lia.
  - unfold local_register_region. destruct (_ || _); [done|]. cbn. by rewrite node_set_node_self by done.
  - unfold local_deregister_region. destruct (_ !! _); [|done]. cbn.
    by rewrite node_set_registry, node_set_node_self.
  - done.
  - done.
  - unfold local_send_control. destruct c; [|done]. cbn. by rewrite deliver_control_completions.
  - by rewrite deliver_control_completions.
  - by rewrite node_set_node_self by done.
  - done.
Defined.

(** ** Properties *)

(** A local submit takes a prefix of what it was offered and stops at the
    first operation the registry refuses: each operation taken had its whole
    remote range inside a published one, moved its bytes and left one
    successful completion behind, in order; the operation it stopped at, if
    any, named an unknown key or left its range, and nothing of it or of what
    follows was copied. *)
Theorem local_submit_exact p c ops :
  let r := snd (submit p c ops) in
  let p' := fst (submit p c ops) in
  let taken := take (sr_accepted r) ops in
  (sr_accepted r <= length ops)%nat
  ∧ lw_memory (lp_world p') = foldl op_memory (lw_memory (lp_world p)) taken
  ∧ nd_completions (node p') = nd_completions (node p) ++ map local_event taken
  ∧ Forall (granted (lw_registry (lp_world p))) taken
  ∧ (sr_status r = Status.kOk ∧ taken = ops
     ∨ sr_status r = Status.kInvalidArgument
       ∧ ∃ op, ops !! sr_accepted r = Some op ∧ ¬ granted (lw_registry (lp_world p)) op).
Proof.
  cbn. unfold local_submit. destruct (submit_loop p ops 0) as [p' r] eqn:E.
  destruct (submit_loop_spec _ _ _ _ _ E) as (n & A & B & _ & C & G & F & H).
  cbn in A |- *. rewrite A. split_and!; try done. destruct H as [[? ->]|H]; [|by right].
  left. by rewrite firstn_all.
Qed.

(** *** Delivering a whole transfer *)

(** Which byte of which address a transfer moves where: byte [o] of a segment
    goes from one side's address to the other's. *)

Definition seg_moves (kind : SubOpKind.t) (fr : Z → option MemoryRegionImpl)
    (fm : Z → option RemoteRegionImpl) (segs : list (RegionView * RegionView)) (dst src : Z) : Prop :=
  ∃ l r lr rr o, (l, r) ∈ segs ∧ fr (v_region l) = Some lr ∧ fm (v_region r) = Some rr
    ∧ 0 <= o < sp_length (v_span l)
    ∧ let la := mr_base lr + sp_offset (v_span l) + o in
      let ra := d_base (rr_d rr) + sp_offset (v_span r) + o in
      if bool_decide (kind = SubOpKind.kRead) then dst = la ∧ src = ra else dst = ra ∧ src = la.

Definition op_moves (op : SubOp) (dst src : Z) : Prop :=
  ∃ o, 0 <= o < op_length op
    ∧ if bool_decide (op_kind op = SubOpKind.kRead)
      then dst = op_local_addr op + o ∧ src = op_remote_addr op + o
      else dst = op_remote_addr op + o ∧ src = op_local_addr op + o.

Lemma op_memory_moves m op x :
  0 <= op_length op →
  (∃ y, op_moves op x y ∧ peek (op_memory m op) x = peek m y)
  ∨ (∀ y, ¬ op_moves op x y) ∧ peek (op_memory m op) x = peek m x.
Proof.
  intros Hn. unfold op_moves, op_memory.
  case_bool_decide; rewrite peek_memcpy by done; case_decide.
  - left. exists (op_remote_addr op + (x - op_local_addr op)).
    split; [exists (x - op_local_addr op); lia|done].
  - right. split; [|done]. intros y (o & ? & ? & ?). lia.
  - left. exists (op_local_addr op + (x - op_remote_addr op)).
    split; [exists (x - op_remote_addr op); lia|done].
  - right. split; [|done]. intros y (o & ? & ? & ?). lia.
Qed.

(** Moves that agree with one another and whose sources are never targets can be
    made in any cuts. *)

Lemma moves_all (R : Z → Z → Prop) m ops :
  (∀ x y z, R x y → R x z → y = z) → (∀ x y z, R x y → ¬ R y z) →
  Forall (fun op => 0 <= op_length op ∧ ∀ x y, op_moves op x y → R x y) ops →
  (∀ x y op, op ∈ ops → op_moves op x y → peek (foldl op_memory m ops) x = peek m y)
  ∧ (∀ x, (∀ op y, op ∈ ops → ¬ op_moves op x y) → peek (foldl op_memory m ops) x = peek m x).
Proof.
  intros Hf Hs H. induction ops as [|op ops IH] using rev_ind; [split; [set_solver|done]|].
  apply Forall_app in H as [H Hop]. apply Forall_singleton in Hop as [Hn HR].
  destruct (IH H) as [I1 I2]. rewrite foldl_app. cbn [foldl].
  set (m' := foldl op_memory m ops) in *.
  assert (Src : ∀ x y, op_moves op x y → peek m' y = peek m y).
  { intros x y Hm. apply I2. intros op' z Hin Hz. rewrite list.Forall_forall in H.
    destruct (H _ Hin) as [_ HR']. exact (Hs _ _ _ (HR _ _ Hm) (HR' _ _ Hz)). }
  split.
  - intros x y op' Hin Hm. destruct (op_memory_moves m' op x Hn) as [(z & Hz & ->)|[No ->]].
    + rewrite (Src _ _ Hz). f_equal. apply (Hf x); [auto|].
      apply elem_of_app in Hin as [Hin|Hin%list_elem_of_singleton]; [|subst; auto].
      rewrite list.Forall_forall in H. by apply (H _ Hin).
    + apply elem_of_app in Hin as [Hin|Hin%list_elem_of_singleton]; [eauto|subst].
      by destruct (No y).
  - intros x No. destruct (op_memory_moves m' op x Hn) as [(z & Hz & _)|[_ ->]].
    + exfalso. apply (No op z); [|done]. apply elem_of_app. right. by apply list_elem_of_singleton.
    + apply I2. intros op' y Hin. apply No. apply elem_of_app. by left.
Qed.

(** Every byte of a segment is in one of its cuts. *)

Lemma cuts_cover kind req lanes chunk lr rr loff roff len off id tr o :
  cuts kind req lanes chunk lr rr loff roff len off id tr → off <= o < len →
  ∃ k op b n id' li, (k, op) ∈ tr ∧ b <= o < b + n ∧ off <= b ∧ b + n <= len
    ∧ lanes !! k = Some li
    ∧ make_op kind req lr rr loff roff b n (li_name li) id' = Some op.
Proof.
  revert off id. induction tr as [|[k op] tr IH]; intros off id Hc Ho; cbn in Hc; [lia|].
  destruct Hc as (n & li & Hn & Hle & Hli & Hop & Hc).
  destruct (decide (o < off + n)).
  - exists k, op, off, n, id, li. split_and!; try done; try lia. apply list_elem_of_here.
  - destruct (IH _ _ Hc ltac:(lia)) as (k' & op' & b & n' & id' & li' & Hin & ? & ? & ? & ? & ?).
    exists k', op', b, n', id', li'. split_and!; try done; try lia. by apply list_elem_of_further.
Qed.

Lemma cuts_all_cover kind req lanes chunk fr fm segs id trs l r lr rr o :
  cuts_all kind req lanes chunk fr fm segs id trs → (l, r) ∈ segs →
  check_segment kind fr fm l r = inr (lr, rr) → 0 <= o < sp_length (v_span l) →
  ∃ k op b n id' li, (k, op) ∈ concat trs ∧ b <= o < b + n ∧ 0 <= b ∧ b + n <= sp_length (v_span l)
    ∧ lanes !! k = Some li
    ∧ make_op kind req lr rr (sp_offset (v_span l)) (sp_offset (v_span r)) b n (li_name li) id'
      = Some op.
Proof.
  revert id trs. induction segs as [|[l' r'] segs IH]; intros id [|tr trs] Hc Hin Hs Ho; try done.
  - by apply not_elem_of_nil in Hin.
  - destruct Hc as [(lr' & rr' & Hs' & Hc) Hrest]. cbn [concat].
    apply elem_of_cons in Hin as [[= <- <-]|Hin].
    + rewrite Hs in Hs'. injection Hs' as <- <-.
      destruct (cuts_cover _ _ _ _ _ _ _ _ _ _ _ _ _ Hc Ho)
        as (k & op & b & n & id' & li & ? & ? & ? & ? & ?).
      exists k, op, b, n, id', li. rewrite elem_of_app. auto.
    + destruct (IH _ _ Hrest Hin Hs Ho) as (k & op & b & n & id' & li & ? & ?).
      exists k, op, b, n, id', li. rewrite elem_of_app. auto.
Qed.

(** The key a peer's descriptor carries for this transport is published here,
    for the range the descriptor names, and that range does not wrap around the
    address space. *)

Definition published (r : LocalRegistry) (name : string) (rr : RemoteRegionImpl) : Prop :=
  0 <= d_base (rr_d rr) ∧ 0 <= d_length (rr_d rr)
  ∧ d_base (rr_d rr) + d_length (rr_d rr) < 2 ^ 64
  ∧ ∀ key, remote_key_for rr name = Some key →
      lr_entries r !! key = Some (mkEntry (d_base (rr_d rr)) (d_length (rr_d rr))).

Section Delivery.
Context (cb req : Z) (fr : Z → option MemoryRegionImpl) (fm : Z → option RemoteRegionImpl)
  (segs : list (RegionView * RegionView)) (kind : SubOpKind.t) (li : LaneInfo)
  (reg : LocalRegistry).
Context (Hwf : Forall seg_wf segs)
  (Hpub : ∀ i rr, fm i = Some rr → published reg (li_name li) rr).

(** Where a piece of a segment lies at either end. *)

Lemma piece_addr l r lr rr b n id op :
  (l, r) ∈ segs → check_segment kind fr fm l r = inr (lr, rr) →
  make_op kind req lr rr (sp_offset (v_span l)) (sp_offset (v_span r)) b n (li_name li) id
  = Some op → 0 <= b → 0 < n → b + n <= sp_length (v_span l) →
  fr (v_region l) = Some lr ∧ fm (v_region r) = Some rr
  ∧ op_kind op = kind ∧ op_length op = n
  ∧ op_local_addr op = mr_base lr + sp_offset (v_span l) + b
  ∧ op_remote_addr op = d_base (rr_d rr) + sp_offset (v_span r) + b
  ∧ granted reg op.
Proof.
  intros Hin Hs Hop Hb Hn Hbn.
  destruct (check_segment_inv _ _ _ _ _ _ _ Hs) as (F1 & _ & F3 & _ & _ & F6 & _ & F8).
  destruct (make_op_inv _ _ _ _ _ _ _ _ _ _ _ Hop) as (K & _ & N & _ & RK & LA & RA).
  destruct (Hpub _ _ F3) as (B0 & L0 & BL & Hk).
  destruct (proj1 (list.Forall_forall _ _) Hwf _ Hin) as [_ Wr]. cbn in Wr.
  apply (within_spec _ _ Wr) in F8; [|unfold uw; lia]. destruct Wr as [Wr _]. unfold uw in Wr.
  rewrite wrapw_id in RA by (unfold uw; lia).
  split_and!; try done. unfold granted. exists (op_remote_addr op). apply resolve_locked_spec.
  split; [done|]. eexists. split; [by apply Hk|]. cbn. lia.
Qed.

Lemma pieces_granted trs k op :
  cuts_all kind req [li] (chunk_limit cb [li]) fr fm segs 0 trs → (k, op) ∈ concat trs →
  granted reg op ∧ 0 <= op_length op
  ∧ ∀ x y, op_moves op x y → seg_moves kind fr fm segs x y.
Proof.
  intros Hc Hin. destruct (cuts_all_elem _ _ _ _ _ _ _ _ _ _ _ Hc Hin)
    as (l & r & lr & rr & o & n & li' & id' & Hs & Hch & Ho & Hn & Hon & Hli & Hop).
  destruct k as [|[|]]; try done. injection Hli as <-.
  destruct (piece_addr _ _ _ _ _ _ _ _ Hs Hch Hop Ho ltac:(lia) Hon)
    as (F1 & F2 & K & N & LA & RA & G).
  split_and!; [done|lia|]. intros x y (q & Hq & Hm). rewrite K in Hm.
  exists l, r, lr, rr, (o + q). split_and!; try done; try lia. cbn.
  destruct (bool_decide _); lia.
Qed.

Lemma pieces_cover trs x y :
  cuts_all kind req [li] (chunk_limit cb [li]) fr fm segs 0 trs →
  (∀ l r, (l, r) ∈ segs → ∃ lr rr, check_segment kind fr fm l r = inr (lr, rr)) →
  seg_moves kind fr fm segs x y → ∃ k op, (k, op) ∈ concat trs ∧ op_moves op x y.
Proof.
  intros Hc Hall (l & r & lr & rr & o & Hin & Hl & Hr & Ho & Hm).
  destruct (Hall _ _ Hin) as (lr' & rr' & Hs).
  destruct (cuts_all_cover _ _ _ _ _ _ _ _ _ _ _ _ _ _ Hc Hin Hs Ho)
    as (k & op & b & n & id' & li' & Hop & Hb & B0 & Hbn & Hli & Hmk).
  destruct k as [|[|]]; try done. injection Hli as <-.
  destruct (piece_addr _ _ _ _ _ _ _ _ Hin Hs Hmk B0 ltac:(lia) Hbn)
    as (F1 & F2 & K & N & LA & RA & G).
  assert (lr' = lr) as -> by congruence. assert (rr' = rr) as -> by congruence.
  exists 0%nat, op. split; [done|]. exists (o - b). split; [lia|]. rewrite K. cbn in Hm.
  destruct (bool_decide _); lia.
Qed.

End Delivery.

Lemma cuts_all_checked kind req lanes chunk fr fm segs id trs l r :
  cuts_all kind req lanes chunk fr fm segs id trs → (l, r) ∈ segs →
  ∃ lr rr, check_segment kind fr fm l r = inr (lr, rr).
Proof.
  revert id trs. induction segs as [|[l' r'] segs IH]; intros id [|tr trs] Hc Hin; try done.
  - by apply not_elem_of_nil in Hin.
  - destruct Hc as [(lr' & rr' & Hs & _) Hrest].
    apply elem_of_cons in Hin as [[= -> ->]|Hin]; eauto.
Qed.

Lemma of_single_lane kind req li chunk fr fm segs id trs :
  cuts_all kind req [li] chunk fr fm segs id trs → of_lane 0 (concat trs) = snd <$> concat trs.
Proof.
  intros Hc. unfold of_lane. f_equal.
  assert (Hk : Forall (fun x => fst x = 0%nat) (concat trs)).
  2: { induction Hk as [|x l Hx Hk IH]; [done|]. by rewrite filter_cons_True, IH. }
  apply list.Forall_forall. intros [k op] Hin. destruct (cuts_all_elem _ _ _ _ _ _ _ _ _ _ _ Hc Hin)
    as (? & ? & ? & ? & ? & ? & ? & ? & _ & _ & _ & _ & _ & Hli & _).
  by destruct k as [|[|]].
Qed.

(** C6: A transfer over the local path delivers exactly its bytes. Whatever way
    [build_subops] cut the segments, submitting the pieces to a local provider
    where the remote ranges are published takes them all and completes each
    once, with success; afterwards every byte the segments name at the
    destination holds what its source held before, and every other byte of
    memory is as it was. (The segments must agree on what goes where, and no
    source may be a target: ranges that overlap are outside memcpy's contract.) *)
Theorem local_transfer_delivers cb fr fm segs kind req li bt ops p c :
  1 <= cb → Forall seg_wf segs →
  (∀ i rr, fm i = Some rr → published (lw_registry (lp_world p)) (li_name li) rr) →
  (∀ x y z, seg_moves kind fr fm segs x y → seg_moves kind fr fm segs x z → y = z) →
  (∀ x y z, seg_moves kind fr fm segs x y → ¬ seg_moves kind fr fm segs y z) →
  build_subops cb fr fm segs kind req [li] = Some (inr bt) → bt_per_lane bt = [ops] →
  let r := snd (submit p c ops) in
  let p' := fst (submit p c ops) in
  sr_status r = Status.kOk ∧ sr_accepted r = length ops
  ∧ nd_completions (node p') = nd_completions (node p) ++ map local_event ops
  ∧ (∀ x y, seg_moves kind fr fm segs x y →
       peek (lw_memory (lp_world p')) x = peek (lw_memory (lp_world p)) y)
  ∧ (∀ x, (∀ y, ¬ seg_moves kind fr fm segs x y) →
       peek (lw_memory (lp_world p')) x = peek (lw_memory (lp_world p)) x).
Proof.
  intros Hcb Hwf Hpub Hf Hs Hb Hops. cbn. unfold local_submit.
  destruct (build_subops_inv _ _ _ _ _ _ _ _ Hcb (seg_wf_lengths _ Hwf) Hb)
    as (trs & Hc & Hl & _).
  specialize (Hl 0%nat ltac:(cbn; lia)). rewrite Hops, (of_single_lane _ _ _ _ _ _ _ _ _ Hc) in Hl.
  injection Hl as ->.
  pose proof (pieces_granted cb req fr fm segs kind li _ Hwf Hpub trs) as Hg.
  pose proof (pieces_cover cb req fr fm segs kind li _ Hwf Hpub trs) as Hcov.
  assert (Hall : ∀ op, op ∈ snd <$> concat trs → ∃ k, (k, op) ∈ concat trs).
  { intros op Hin. apply list_elem_of_fmap in Hin as ([k x] & -> & Hin). eauto. }
  destruct (submit_loop p (snd <$> concat trs) 0) as [p' r] eqn:E. cbn [fst snd].
  destruct (submit_loop_spec _ _ _ _ _ E) as (n & A & B & _ & M & C & _ & H).
  destruct H as [[St ->]|(_ & op & Hop & No)].
  2: { apply list_elem_of_lookup_2, Hall in Hop as [k Hop]. by destruct (Hg _ _ Hc Hop). }
  rewrite firstn_all in M, C.
  destruct (moves_all (seg_moves kind fr fm segs) (lw_memory (lp_world p)) (snd <$> concat trs) Hf Hs)
    as [D1 D2].
  { apply list.Forall_forall. intros op [k Hop]%Hall. by destruct (Hg _ _ Hc Hop). }
  split_and!; auto; rewrite M.
  - intros x y Hm.
    destruct (Hcov x y Hc (fun l r => cuts_all_checked _ _ _ _ _ _ _ _ _ l r Hc) Hm) as (k & op & Hin & Hop).
    apply (D1 x y op); [|done]. apply list_elem_of_fmap. by exists (k, op).
  - intros x No. apply D2. intros op y [k Hop]%Hall Hm.
    destruct (Hg _ _ Hc Hop) as (_ & _ & Hx). by apply (No y), Hx.
Qed.

(** *** Keys are never reused *)

(** Anything any provider of the process does; a registration is allowed as
    long as the 64-bit key counter has not come round. *)

Inductive local_step : LocalWorld → LocalWorld → Prop :=
| ls_register i a n w :
    lr_next (lw_registry w) + 1 < 2 ^ 64 →
    local_step w (lp_world (fst (local_register_region (mkLocalProvider i w) a n)))
| ls_deregister i k w :
    local_step w (lp_world (fst (local_deregister_region (mkLocalProvider i w) k)))
| ls_connect i w : local_step w (lp_world (fst (local_connect (mkLocalProvider i w))))
| ls_submit i ops w : local_step w (lp_world (fst (local_submit (mkLocalProvider i w) ops)))
| ls_poll i n w : local_step w (lp_world (fst (local_poll (mkLocalProvider i w) n)))
| ls_send i c t b w :
    local_step w (lp_world (fst (local_send_control (mkLocalProvider i w) c t b)))
| ls_broadcast i t b w :
    local_step w (lp_world (fst (local_broadcast_control (mkLocalProvider i w) t b)))
| ls_poll_control i n w :
    local_step w (lp_world (fst (local_poll_control (mkLocalProvider i w) n)))
| ls_pair i j w : local_step w (lp_world (pair_with j (mkLocalProvider i w))).

Definition withdrawn (k : Z) (w : LocalWorld) : Prop :=
  lr_entries (lw_registry w) !! k = None ∧ 0 <= k < lr_next (lw_registry w).

Lemma local_step_withdrawn k w w' : local_step w w' → withdrawn k w → withdrawn k w'.
Proof.
  unfold withdrawn. intros St [H1 H2]. destruct St; cbn; try done.
  - unfold local_register_region. destruct (_ || _); [done|]. cbn.
    rewrite wrapw_id by (unfold uw; lia). rewrite lookup_insert_ne by lia. split; [done|lia].
  - unfold local_deregister_region. destruct (nd_local_keys _ !! _); [|done]. cbn.
    split; [|done]. rewrite lookup_delete. by case_decide.
  - unfold local_submit. destruct (submit_loop _ ops 0) as [p' r] eqn:E.
    destruct (submit_loop_spec _ _ _ _ _ E) as (n & _ & _ & R & _). cbn. by rewrite R.
  - unfold local_send_control. by destruct c.
Qed.

Lemma local_steps_withdrawn k w w' : rtc local_step w w' → withdrawn k w → withdrawn k w'.
Proof. induction 1; eauto using local_step_withdrawn. Qed.

(** A deregistered key stays dead. Once a provider has withdrawn a key it
    had published, no operation naming that key is ever taken again, whatever
    the providers of the process do next, new registrations included. *)
Theorem local_key_never_reused p k w' q c op ops :
  lr_next (lw_registry (lp_world p)) < 2 ^ 64 →
  (∀ key, is_Some (nd_local_keys (node p) !! key) → 0 <= key < lr_next (lw_registry (lp_world p))) →
  snd (deregister_region p k) = Status.kOk →
  rtc local_step (lp_world (fst (deregister_region p k))) w' → lp_world q = w' →
  op_remote_key op = k →
  sr_accepted (snd (submit q c (op :: ops))) = 0%nat
  ∧ sr_status (snd (submit q c (op :: ops))) = Status.kInvalidArgument
  ∧ fst (submit q c (op :: ops)) = q.
Proof.
  cbn. intros Hn Hk Hd Hs Hq Ho.
  assert (W : withdrawn k w').
  { apply (local_steps_withdrawn _ _ _ Hs). unfold withdrawn, local_deregister_region in *.
    destruct (nd_local_keys (node p) !! k) eqn:E; [|done]. cbn.
    rewrite lookup_delete_eq. split; [done|]. apply Hk. by rewrite E. }
  unfold local_submit. cbn. destruct W as [W _].
  assert (submit_one q op = None) as ->; [|done].
  apply submit_one_refused. unfold resolve_locked. by rewrite Ho, Hq, W.
Qed.

(** ** Samples *)

Module SampleLocal.

Definition start : LocalProvider :=
  mkLocalProvider 0 (mkLocalWorld (mkLocalRegistry ∅ 1)
    (store ∅ 4096 [10; 11; 12; 13; 14]) {[0%nat := new_node; 1%nat := new_node]} 0).

Definition host : DeviceId := mkDeviceId DeviceKind.kHost 0.

(** The peer publishes 64 bytes at 8192. *)

Definition world : LocalProvider := fst (register_region start 8192 64 host 15).

Definition lr : MemoryRegionImpl :=
  mkMemoryRegion (mkIdentity 1 2 3) 1 1 4096 16 host MemoryKind.kHostPageable 15
    (mkRegistration 4096 16 host 15 [mkKey "local"%string 7 7] 7 7) false.
Definition rr : RemoteRegionImpl :=
  mkRemoteRegion (mkRegionDescriptor 2 0 (mkIdentity 4 5 6) 9 1 8192 64 1
    [mkProviderKey "local"%string 1] DeviceKind.kHost 0 15) true.
Definition fr (i : Z) : option MemoryRegionImpl := if i =? 1 then Some lr else None.
Definition fm (i : Z) : option RemoteRegionImpl := if i =? 9 then Some rr else None.
Definition segs : list (RegionView * RegionView) :=
  [(mkRegionView 1 (mkSpan 0 5), mkRegionView 9 (mkSpan 32 5))].
Definition lane : LaneInfo := mkLaneInfo "local"%string f64_1 0.

Definition built : Built :=
  match build_subops 2 fr fm segs SubOpKind.kWrite 5 [lane] with
  | Some (inr bt) => bt
  | _ => mkBuilt [] [] 0 0
  end.

Definition ops : list SubOp := concat (bt_per_lane built).

Lemma moves_spec x y :
  seg_moves SubOpKind.kWrite fr fm segs x y ↔ 8224 <= x < 8229 ∧ y = x - 4128.
Proof.
  unfold seg_moves, segs, fr, fm. split.
  - intros (l & r & l' & r' & o & Hin & H1 & H2 & H3 & H4).
    apply list_elem_of_singleton in Hin. injection Hin as -> ->. cbn in H1, H2.
    injection H1 as <-. injection H2 as <-. cbn in H3, H4.
    rewrite bool_decide_eq_false_2 in H4 by done. lia.
  - intros [H ->]. exists (mkRegionView 1 (mkSpan 0 5)), (mkRegionView 9 (mkSpan 32 5)), lr, rr.
    exists (x - 8224). rewrite list_elem_of_singleton, bool_decide_eq_false_2 by done.
    cbn. split_and!; try done; lia.
Qed.

End SampleLocal.

Lemma local_transfer_delivers_witness :
  sr_accepted (snd (submit SampleLocal.world 0 SampleLocal.ops)) = 3%nat
  ∧ peek (lw_memory (lp_world (fst (submit SampleLocal.world 0 SampleLocal.ops)))) 8226 = 12.
Proof.
  destruct (local_transfer_delivers 2 SampleLocal.fr SampleLocal.fm SampleLocal.segs
    SubOpKind.kWrite 5 SampleLocal.lane SampleLocal.built SampleLocal.ops SampleLocal.world 0)
    as (_ & A & _ & D & _).
  - lia.
  - repeat constructor; unfold uw; cbn; lia.
  - intros i r H. unfold SampleLocal.fm in H. destruct (i =? 9); [|done]. injection H as <-.
    split_and!; cbn; try lia. intros key [= <-]. reflexivity.
  - intros x y z. rewrite !SampleLocal.moves_spec. lia.
  - intros x y z. rewrite !SampleLocal.moves_spec. lia.
  - vm_compute. reflexivity.
  - vm_compute. reflexivity.
  - split; [rewrite A; vm_compute; reflexivity|].
    rewrite (D 8226 4098) by (rewrite SampleLocal.moves_spec; lia). vm_compute. reflexivity.
Defined.

Lemma local_key_never_reused_witness :
  sr_accepted (snd (submit (fst (deregister_region SampleLocal.world 1)) 0
    [mkSubOp false 0 SubOpKind.kWrite 5 0 4096 7 8192 1 4])) = 0%nat.
Proof.
  refine (proj1 (local_key_never_reused SampleLocal.world 1 _
    (fst (deregister_region SampleLocal.world 1)) 0 _ [] _ _ _ (rtc_refl _ _) _ _)).
  - vm_compute. reflexivity.
  - intros key. vm_compute (lr_next _). vm_compute (nd_local_keys _).
    intros [x Hx]. destruct (decide (key = 1)) as [->|Hne]; [lia|].
    exfalso. change (({[1 := 8192]} : gmap Z Z) !! key = Some x) in Hx.
    rewrite lookup_singleton_ne in Hx by congruence. done.
  - vm_compute. reflexivity.
  - reflexivity.
  - reflexivity.
Defined.
