(* ===== verification/MockPath.v ===== *)
(** * The provider without hardware ([src/transport/mock/]).

    Every knob of [MockConfig] that changes what the provider does is a field
    here ([control_poll_us] only makes the caller wait).  The order
    [std::shuffle] gives is the library's choice, so it is a parameter with the
    one promise it makes: a permutation.  [mk_withheld] is a history variable,
    the completions a [never_complete] provider never hands over. *)

From stdpp Require Import base list gmap strings numbers.
From S2P Require Import Prelude Float64 Types Provider ByteMemory.

Record MockConfig : Type := mkMockConfig {
  mc_name : string;
  mc_relative_capacity : f64;
  mc_qp_count : Z;
  mc_accept_limit : Z;
  mc_submit_status_on_partial : Status.t;
  mc_shuffle_completions : bool;
  mc_fail_subops : bool;
  mc_fail_control : bool;
  mc_swallow_control : bool;
  mc_no_broadcast : bool;
  mc_subop_error : Status.t;
  mc_move_data : bool;
  mc_budget_bytes : Z;
  mc_never_complete : bool;
  mc_reject_all : bool;
  mc_poll_status : Status.t;
  mc_max_segment_bytes : Z
}.

Definition mock_default : MockConfig :=
  mkMockConfig "mock"%string f64_1 1 0 Status.kResourceExhausted false false false false false
    Status.kTransportError true 0 false false Status.kOk 0.

Record MockProvider : Type := mkMock {
  mk_cfg : MockConfig;
  mk_live : bool;
  mk_shuffles : nat;
  mk_regions : gmap Z (Z * Z);
  mk_pending : list CompletionEvent;
  mk_arrivals : list PeerArrival;
  mk_control : list ControlMessage;
  mk_next_key : Z;
  mk_submitted : Z;
  mk_inflight_bytes : Z;
  mk_total_registrations : Z;
  mk_stats : ProviderStats;
  mk_memory : ByteMem;
  mk_next_conn : Z;
  mk_withheld : list CompletionEvent
}.

Definition new_mock (cfg : MockConfig) : MockProvider :=
  mkMock cfg true 0 ∅ [] [] [] 1 0 0 0 no_provider_stats ∅ 0 [].

Definition kRemoteKeyOffset : Z := 16777216.

Definition retire_connections (p : MockProvider) : MockProvider :=
  mkMock (mk_cfg p) false (mk_shuffles p) (mk_regions p) (mk_pending p) (mk_arrivals p)
    (mk_control p) (mk_next_key p) (mk_submitted p) (mk_inflight_bytes p)
    (mk_total_registrations p) (mk_stats p) (mk_memory p) (mk_next_conn p) (mk_withheld p).

Definition mock_register_region (p : MockProvider) (addr length : Z)
    : MockProvider * (Status.t * Z * Z) :=
  let key := mk_next_key p in
  (mkMock (mk_cfg p) (mk_live p) (mk_shuffles p) (<[key := (addr, length)]> (mk_regions p))
     (mk_pending p) (mk_arrivals p) (mk_control p) (wrap64 (key + 1)) (mk_submitted p)
     (mk_inflight_bytes p) (wrap64 (mk_total_registrations p + 1)) (mk_stats p) (mk_memory p)
     (mk_next_conn p) (mk_withheld p),
   (Status.kOk, key, wrap64 (key + kRemoteKeyOffset))).

Definition mock_deregister_region (p : MockProvider) (key : Z) : MockProvider * Status.t :=
  (mkMock (mk_cfg p) (mk_live p) (mk_shuffles p) (delete key (mk_regions p)) (mk_pending p)
     (mk_arrivals p) (mk_control p) (mk_next_key p) (mk_submitted p) (mk_inflight_bytes p)
     (mk_total_registrations p) (mk_stats p) (mk_memory p) (mk_next_conn p) (mk_withheld p),
   if mk_regions p !! key is Some _ then Status.kOk else Status.kNotFound).

Definition mock_connect (p : MockProvider) : MockProvider * (Status.t * ConnId) :=
  (mkMock (mk_cfg p) (mk_live p) (mk_shuffles p) (mk_regions p) (mk_pending p) (mk_arrivals p)
     (mk_control p) (mk_next_key p) (mk_submitted p) (mk_inflight_bytes p)
     (mk_total_registrations p) (mk_stats p) (mk_memory p) (mk_next_conn p + 1) (mk_withheld p),
   (Status.kOk, mk_next_conn p)).

(** ** Submitting *)

Definition mock_event (cfg : MockConfig) (op : SubOp) : CompletionEvent :=
  mkCompletionEvent (op_request op) (op_sub_id op) (op_length op)
    (if mc_fail_subops cfg then mc_subop_error cfg else Status.kOk) 0
    (mc_fail_subops cfg && bool_decide (op_kind op = SubOpKind.kWrite)).

Definition mock_copy (cfg : MockConfig) (m : ByteMem) (op : SubOp) : ByteMem :=
  if mc_move_data cfg then
    if bool_decide (op_kind op = SubOpKind.kRead)
    then memcpy m (op_local_addr op) (op_remote_addr op) (op_length op)
    else memcpy m (op_remote_addr op) (op_local_addr op) (op_length op)
  else m.

Definition over_budget (p : MockProvider) (op : SubOp) : bool :=
  negb (mc_budget_bytes (mk_cfg p) =? 0)
  && (mc_budget_bytes (mk_cfg p) <? wrap64 (mk_inflight_bytes p + op_length op)).

Definition take_op (op : SubOp) (p : MockProvider) : MockProvider :=
  let cfg := mk_cfg p in
  let ev := mock_event cfg op in
  mkMock cfg (mk_live p) (mk_shuffles p) (mk_regions p)
    (if mc_never_complete cfg then mk_pending p else mk_pending p ++ [ev])
    (if op_signal_peer op then mk_arrivals p ++ [mkPeerArrival (op_peer_token op) 0]
     else mk_arrivals p)
    (mk_control p) (mk_next_key p) (wrap64 (mk_submitted p + 1))
    (wrap64 (mk_inflight_bytes p + op_length op)) (mk_total_registrations p)
    (count_posted (mk_stats p) (op_length op) (if mc_move_data cfg then op_length op else 0))
    (mock_copy cfg (mk_memory p) op) (mk_next_conn p)
    (if mc_never_complete cfg then mk_withheld p ++ [ev] else mk_withheld p).

(** The loop over the first [limit] operations: how many were taken, and whether
    the budget stopped it. *)

Fixpoint take_loop (ops : list SubOp) (taken : nat) (p : MockProvider)
    : MockProvider * nat * bool :=
  match ops with
  | [] => (p, taken, false)
  | op :: ops =>
      if over_budget p op then (p, taken, true) else take_loop ops (S taken) (take_op op p)
  end.

Definition accept_count (cfg : MockConfig) (ops : list SubOp) : nat :=
  let size := wrap32 (Z.of_nat (length ops)) in
  Z.to_nat (if mc_accept_limit cfg =? 0 then size else Z.min (mc_accept_limit cfg) size).

Section Mock.
Context (shuffle : nat → list CompletionEvent → list CompletionEvent).

Definition shuffle_pending (p : MockProvider) : MockProvider :=
  if mc_shuffle_completions (mk_cfg p) && bool_decide (1 < length (mk_pending p))%nat then
    mkMock (mk_cfg p) (mk_live p) (S (mk_shuffles p)) (mk_regions p)
      (shuffle (mk_shuffles p) (mk_pending p)) (mk_arrivals p) (mk_control p) (mk_next_key p)
      (mk_submitted p) (mk_inflight_bytes p) (mk_total_registrations p) (mk_stats p)
      (mk_memory p) (mk_next_conn p) (mk_withheld p)
  else p.

Definition mock_submit (p : MockProvider) (ops : list SubOp) : MockProvider * SubmitResult :=
  let cfg := mk_cfg p in
  if mc_reject_all cfg then (p, mkSubmitResult 0 (mc_submit_status_on_partial cfg) 0)
  else
    let '(p, taken, blocked) := take_loop (take (accept_count cfg ops) ops) 0 p in
    let s := if blocked then Status.kWouldBlock else Status.kOk in
    let s := if bool_decide (taken < length ops)%nat && Status.ok s
             then mc_submit_status_on_partial cfg else s in
    (shuffle_pending p, mkSubmitResult taken s 0).

(** ** Polling *)

Definition retire_event (p : ProviderStats * Z) (ev : CompletionEvent) : ProviderStats * Z :=
  let '(s, inflight) := p in
  (if Status.ok (ev_status ev) then count_completed s else count_failed s,
   inflight - (if ev_bytes ev <? inflight then ev_bytes ev else inflight)).

Definition mock_poll (p : MockProvider) (max : Z)
    : MockProvider * (Status.t * list CompletionEvent) :=
  let out := take (Z.to_nat max) (mk_pending p) in
  let '(s, inflight) := foldl retire_event (mk_stats p, mk_inflight_bytes p) out in
  (mkMock (mk_cfg p) (mk_live p) (mk_shuffles p) (mk_regions p)
     (drop (Z.to_nat max) (mk_pending p)) (mk_arrivals p) (mk_control p) (mk_next_key p)
     (mk_submitted p) inflight (mk_total_registrations p) s (mk_memory p) (mk_next_conn p)
     (mk_withheld p),
   (mc_poll_status (mk_cfg p), out)).

(** ** Control *)

Definition with_control (p : MockProvider) (c : list ControlMessage) (a : list PeerArrival)
    : MockProvider :=
  mkMock (mk_cfg p) (mk_live p) (mk_shuffles p) (mk_regions p) (mk_pending p) a c
    (mk_next_key p) (mk_submitted p) (mk_inflight_bytes p) (mk_total_registrations p)
    (mk_stats p) (mk_memory p) (mk_next_conn p) (mk_withheld p).

Definition mock_send_control (p : MockProvider) (conn : option ConnId) (type : Z)
    (payload : list Z) : MockProvider * Status.t :=
  if mc_fail_control (mk_cfg p) then (p, Status.kTransportError)
  else if mc_swallow_control (mk_cfg p) then (p, Status.kOk)
  else (with_control p (mk_control p ++ [mkControlMessage 0 type payload conn]) (mk_arrivals p),
        Status.kOk).

Definition mock_broadcast_control (p : MockProvider) (type : Z) (payload : list Z)
    : MockProvider * (Status.t * Z * Z) :=
  if mc_no_broadcast (mk_cfg p) then (p, (Status.kUnsupported, 0, 0))
  else
    let '(p, s) := mock_send_control p None type payload in
    (p, (Status.kOk, if Status.ok s then 1 else 0, if Status.ok s then 0 else 1)).

Definition mock_poll_control (p : MockProvider) (max : Z)
    : MockProvider * (Status.t * list ControlMessage) :=
  (with_control p (drop (Z.to_nat max) (mk_control p)) (mk_arrivals p),
   (Status.kOk, take (Z.to_nat max) (mk_control p))).

Definition mock_poll_peer_arrivals (p : MockProvider) (max : Z)
    : MockProvider * (Status.t * list PeerArrival) :=
  (with_control p (mk_control p) (drop (Z.to_nat max) (mk_arrivals p)),
   (Status.kOk, take (Z.to_nat max) (mk_arrivals p))).

Definition mock_provider : TransportProvider MockProvider := {|
  caps p := mkProviderCaps (mc_name (mk_cfg p)) (mc_relative_capacity (mk_cfg p))
              (mc_max_segment_bytes (mk_cfg p));
  stats := mk_stats;
  register_region p a l _ _ := mock_register_region p a l;
  deregister_region := mock_deregister_region;
  connect p _ := mock_connect p;
  disconnect p _ := (p, Status.kOk);
  local_metadata _ := (Status.kOk, bytes_of_string "mock");
  submit p _ ops := mock_submit p ops;
  poll := mock_poll;
  send_control := mock_send_control;
  broadcast_control := mock_broadcast_control;
  poll_control := mock_poll_control;
  poll_peer_arrivals := mock_poll_peer_arrivals;
  alive p _ := mk_live p;
  qp_count p _ := mc_qp_count (mk_cfg p)
|}.

(** ** Lemmas *)

Lemma take_loop_spec ops taken p p' k blocked :
  take_loop ops taken p = (p', k, blocked) →
  ∃ n, k = (taken + n)%nat ∧ (n <= length ops)%nat ∧ mk_cfg p' = mk_cfg p
    ∧ (if mc_never_complete (mk_cfg p)
       then mk_pending p' = mk_pending p
         ∧ mk_withheld p' = mk_withheld p ++ map (mock_event (mk_cfg p)) (take n ops)
       else mk_pending p' = mk_pending p ++ map (mock_event (mk_cfg p)) (take n ops)
         ∧ mk_withheld p' = mk_withheld p)
    ∧ (if blocked then (n < length ops)%nat else n = length ops).
Proof.
  revert taken p. induction ops as [|op ops IH]; intros taken p H; cbn in H.
  - injection H as <- <- <-. exists 0%nat. cbn. rewrite !app_nil_r.
    split_and!; try done; by case_match.
  - destruct (over_budget p op).
    + injection H as <- <- <-. exists 0%nat. cbn. rewrite !app_nil_r.
      split_and!; try done; try lia; try (cbn; lia); by case_match.
    + destruct (IH _ _ H) as (n & -> & Hn & C & E & B). exists (S n). cbn in C, E |- *.
      split_and!; try done; try lia.
      * destruct (mc_never_complete (mk_cfg p)); by rewrite <- app_assoc in E.
      * destruct blocked; lia.
Qed.

Lemma accept_count_length cfg ops : (accept_count cfg ops <= length ops)%nat.
Proof.
  unfold accept_count. assert (wrap32 (Z.of_nat (length ops)) <= Z.of_nat (length ops)).
  { unfold wrapw. apply Z.mod_le; lia. }
  destruct (_ =? _); lia.
Qed.

Context (shuffle_perm : ∀ k l, shuffle k l ≡ₚ l).

Lemma shuffle_pending_perm p : mk_pending (shuffle_pending p) ≡ₚ mk_pending p.
Proof. unfold shuffle_pending. destruct (_ && _); [apply shuffle_perm|done]. Qed.

Lemma shuffle_pending_same p :
  mk_withheld (shuffle_pending p) = mk_withheld p ∧ mk_cfg (shuffle_pending p) = mk_cfg p
  ∧ mk_inflight_bytes (shuffle_pending p) = mk_inflight_bytes p.
Proof. unfold shuffle_pending. by destruct (_ && _). Qed.

Lemma count_req_perm {A} (f : A → Z) i l k : l ≡ₚ k → count_req f i l = count_req f i k.
Proof. intros H. unfold count_req. by rewrite H. Qed.

Lemma mock_submit_spec p ops :
  let n := sr_accepted (snd (mock_submit p ops)) in
  let p' := fst (mock_submit p ops) in
  (n <= length ops)%nat
  ∧ (if mc_never_complete (mk_cfg p)
     then mk_pending p' ≡ₚ mk_pending p
       ∧ mk_withheld p' = mk_withheld p ++ map (mock_event (mk_cfg p)) (take n ops)
     else mk_pending p' ≡ₚ mk_pending p ++ map (mock_event (mk_cfg p)) (take n ops)
       ∧ mk_withheld p' = mk_withheld p).
Proof.
  unfold mock_submit. destruct (mc_reject_all (mk_cfg p)).
  { cbn. rewrite !app_nil_r. split; [lia|by case_match]. }
  destruct (take_loop _ 0 p) as [[p' k] blocked] eqn:E. cbn [fst snd sr_accepted].
  destruct (take_loop_spec _ _ _ _ _ _ E) as (n & -> & Hn & _ & H & _). cbn [Nat.add].
  rewrite length_take in Hn. rewrite take_take, Nat.min_l in H by lia.
  destruct (shuffle_pending_same p') as (-> & _). split; [lia|].
  case_match; destruct H as [H1 ->]; split; rewrite ?shuffle_pending_perm, ?H1; done.
Qed.

Definition mock_outstanding (p : MockProvider) (i : Z) : nat :=
  (count_req ev_request i (mk_pending p) + count_req ev_request i (mk_withheld p))%nat.

Lemma mock_poll_outstanding p n i :
  mock_outstanding p i =
  (mock_outstanding (fst (mock_poll p n)) i
   + count_req ev_request i (snd (snd (mock_poll p n))))%nat.
Proof.
  unfold mock_outstanding, mock_poll. destruct (foldl _ _ _) as [s b]. cbn [fst snd mk_pending mk_withheld].
  rewrite <- (take_drop (Z.to_nat n) (mk_pending p)) at 1. rewrite count_req_app. lia.
Qed.

(** The mock keeps the contract. *)

Definition mock_laws : @ProviderLaws MockProvider mock_provider.
Proof.
  refine (@Build_ProviderLaws _ mock_provider mock_outstanding _ _ _ _ _ _ _ _ _ _ _);
    intros p *; try exact (mock_poll_outstanding p _ _); try done.
  - apply mock_submit_spec.
  - destruct (mock_submit_spec p ops) as [_ H].
    change (submit p c ops) with (mock_submit p ops). unfold mock_outstanding.
    case_match; destruct H as [H ->]; rewrite (count_req_perm _ _ _ _ H), ?count_req_app, ?count_req_map;
      unfold count_req; cbn; lia.
  - cbn. unfold mock_send_control.
    by destruct (mc_fail_control (mk_cfg p)), (mc_swallow_control (mk_cfg p)).
  - cbn. unfold mock_broadcast_control, mock_send_control.
    by destruct (mc_no_broadcast (mk_cfg p)), (mc_fail_control (mk_cfg p)),
      (mc_swallow_control (mk_cfg p)).
Defined.

Lemma take_loop_budget ops taken p :
  mc_budget_bytes (mk_cfg p) ≠ 0 →
  Forall (fun op => 0 <= op_length op) ops →
  Forall (fun op => mc_budget_bytes (mk_cfg p) + op_length op < 2 ^ 64) ops →
  0 <= mk_inflight_bytes p <= mc_budget_bytes (mk_cfg p) →
  let '(p', k, _) := take_loop ops taken p in
  0 <= mk_inflight_bytes p' <= mc_budget_bytes (mk_cfg p)
  ∧ mk_inflight_bytes p' =
      mk_inflight_bytes p + foldr Z.add 0 (map op_length (take (k - taken) ops)).
Proof.
  intros Hb. revert taken p Hb. induction ops as [|op ops IH]; intros taken p Hb F1 F2 Hi; cbn [take_loop].
  - rewrite take_nil. cbn. lia.
  - inversion F1 as [|? ? L1 F1']; subst. inversion F2 as [|? ? L2 F2']; subst.
    destruct (over_budget p op) eqn:Eo.
    + rewrite Nat.sub_diag. cbn. lia.
    + unfold over_budget in Eo. rewrite (wrapw_id 64) in Eo by (unfold uw; lia).
      pose proof (IH (S taken) (take_op op p) Hb F1' F2') as H. cbn in H.
      rewrite (wrapw_id 64) in H by (unfold uw; lia). specialize (H ltac:(b2p; lia)).
      destruct (take_loop ops (S taken) (take_op op p)) as [[p' k] bl] eqn:E.
      destruct (take_loop_spec _ _ _ _ _ _ E) as (n & -> & _). destruct H as [H1 H2].
      split; [done|]. rewrite H2. replace (S taken + n - taken)%nat with (S n) by lia.
      replace (S taken + n - S taken)%nat with n by lia. cbn. lia.
Qed.

(** A byte budget is never exceeded. Whatever a submit is offered, the bytes
    in flight afterwards are within the budget, and they grew by exactly the
    lengths of the operations taken; a submit the budget cut short says
    kWouldBlock, so what was not taken is offered again. *)
Theorem mock_budget_respected p ops :
  let cfg := mk_cfg p in
  let r := snd (mock_submit p ops) in
  let p' := fst (mock_submit p ops) in
  mc_budget_bytes cfg ≠ 0 → mc_reject_all cfg = false → mc_accept_limit cfg = 0 →
  Z.of_nat (length ops) < 2 ^ 32 →
  Forall (fun op => 0 <= op_length op) ops →
  Forall (fun op => mc_budget_bytes cfg + op_length op < 2 ^ 64) ops →
  0 <= mk_inflight_bytes p <= mc_budget_bytes cfg →
  0 <= mk_inflight_bytes p' <= mc_budget_bytes cfg
  ∧ mk_inflight_bytes p' =
      mk_inflight_bytes p + foldr Z.add 0 (map op_length (take (sr_accepted r) ops))
  ∧ sr_status r = (if bool_decide (sr_accepted r = length ops) then Status.kOk else Status.kWouldBlock).
Proof.
  cbn zeta. intros Hb Hr Ha Hn F1 F2 Hi. unfold mock_submit. rewrite Hr.
  assert (accept_count (mk_cfg p) ops = length ops) as ->.
  { unfold accept_count. rewrite Ha, wrapw_id by (unfold uw; lia). cbn. lia. }
  rewrite firstn_all. pose proof (take_loop_budget ops 0 p Hb F1 F2 Hi) as H.
  destruct (take_loop ops 0 p) as [[p' k] bl] eqn:E. rewrite Nat.sub_0_r in H.
  cbn [fst snd sr_accepted sr_status].
  destruct (shuffle_pending_same p') as (_ & _ & ->). split_and!; try apply H.
  destruct (take_loop_spec _ _ _ _ _ _ E) as (n & Hk & Hle & _ & _ & B). cbn in Hk. subst k.
  destruct bl; cbn.
  - rewrite andb_false_r. rewrite bool_decide_eq_false_2; [done|lia].
  - rewrite B. rewrite bool_decide_eq_false_2 by lia. by rewrite bool_decide_eq_true_2.
Qed.

End Mock.


(** ** Samples *)

Module SampleMock.

Definition cfg : MockConfig :=
  mkMockConfig "mock"%string f64_1 1 0 Status.kResourceExhausted true false false false false
    Status.kTransportError true 10 false false Status.kOk 0.

Definition op (id len : Z) : SubOp := mkSubOp false 0 SubOpKind.kWrite 5 id 4096 1 8192 2 len.

(** A shuffle: the newest completion first. *)

Definition newest_first (_ : nat) (l : list CompletionEvent) : list CompletionEvent := reverse l.

Lemma newest_first_perm k l : newest_first k l ≡ₚ l.
Proof. apply reverse_Permutation. Qed.

End SampleMock.

Lemma mock_budget_respected_witness :
  sr_status (snd (mock_submit SampleMock.newest_first (new_mock SampleMock.cfg)
    [SampleMock.op 0 4; SampleMock.op 1 6; SampleMock.op 2 1])) = Status.kWouldBlock.
Proof.
  destruct (mock_budget_respected SampleMock.newest_first (new_mock SampleMock.cfg)
    [SampleMock.op 0 4; SampleMock.op 1 6; SampleMock.op 2 1]) as (_ & _ & E);
    [done|done|done|cbn; lia|repeat constructor; cbn; lia|repeat constructor; cbn; lia|cbn; lia|].
  exact E.
Defined.
