(* ===== verification/EngineSample.v ===== *)
(** * A run of the engine over the local path.

    Two engines of one process: this one registers memory, learns of the other,
    imports a region the other published, writes to it and polls.  Every state
    of the run is computed by the definitions of the other files; the theorems
    about all runs are applied to it here. *)

From stdpp Require Import base list gmap strings numbers.
From S2P Require Import Prelude Float64 Types Wire Region Metadata Provider Request SubOps.
From S2P Require Import EngineCore EngineInv EngineMemory EnginePeers Engine EngineSafe.
From S2P Require Import ByteMemory LocalPath.

(** A device whose events have all completed. *)

#[export] Instance no_device : DeviceWorld unit := {
  event_recorded _ _ := true;
  event_query d _ := (d, (Status.kOk, true))
}.

Module Sample.

Definition cfg : EngineConfig := {|
  cfg_device := SampleLocal.host;
  cfg_progress := ProgressMode.kExplicit;
  cfg_qp_per_peer := 1;
  cfg_chunk_bytes := 2;
  cfg_wr_batch := 16;
  cfg_cq_batch := 16;
  cfg_max_inflight_requests := 4096;
  cfg_scheduler_quantum_bytes := 4;
  cfg_registration_cache_entries := 64;
  cfg_cc := CongestionControl.kOff;
  cfg_cc_window_bytes := 4194304;
  cfg_notify_queue_depth := 1024;
  cfg_notify_max_payload := 4096;
  cfg_completion_queue_depth := 16384;
  cfg_ready_queue_depth := 16384;
  cfg_preferred_provider := EmptyString
|}.

Definition mine : Identity := mkIdentity 1 2 3.
Definition theirs : Identity := mkIdentity 1 2 4.
Definition device : option DeviceBackend := None.

Definition W : Type := World LocalProvider unit.
Abbreviation step := (world_step (P := LocalProvider) (D := unit) cfg mine device).

Definition metadata : list Z :=
  encode_envelope theirs 0 [("local"%string, bytes_of_string "local")].

Definition descriptor : list Z :=
  encode_descriptor (mkRegionDescriptor 2 0 theirs 9 1 8192 64 1
    [mkProviderKey "local"%string 1] DeviceKind.kHost 0 15).

Definition opts : TransferOptions := mkTransferOptions [] false false 0.

Definition local_view : RegionView := mkRegionView 1 (mkSpan 0 5).
Definition remote_view : RegionView := mkRegionView 9 (mkSpan 32 5).

Definition call_ (e : Engine LocalProvider unit) (w : W) : W :=
  mkWorld e (w_prepared w) (w_parts w).

Definition w0 : W := init_world [SampleLocal.world] tt.
Definition w1 : W :=
  call_ (with_cm (w_e w0)
    (fst (register_memory cfg device mine 4096 16 15 (e_core (w_e w0), e_mem (w_e w0))))) w0.
Definition w2 : W :=
  call_ (with_ct (w_e w1) (fst (add_peer mine 0 metadata (e_core (w_e w1), e_peers (w_e w1))))) w1.
Definition w3 : W :=
  call_ (set_peers (fst (import_region (c_providers (e_core (w_e w2))) 1 descriptor
    (e_peers (w_e w2)))) (w_e w2)) w2.

(** The submission: prepared, admitted, posted. *)

Definition prep : Engine LocalProvider unit * (Status.t + Prepared) :=
  submit_prepare cfg device 1 [local_view] [remote_view] opts SubOpKind.kWrite (w_e w3).

Definition pr : Prepared :=
  match snd prep with
  | inr pr => pr
  | inl _ => mkPrepared (new_request 0 SubOpKind.kRead 0 0) [] [] []
  end.

Definition w4 : W := mkWorld (fst prep) (pr :: w_prepared w3) (w_parts w3).

Definition adm : Engine LocalProvider unit * (Status.t + list PendingSubmit) :=
  submit_admit pr (w_e w4).
Definition parts : list PendingSubmit := match snd adm with inr l => l | inl _ => [] end.
Definition w5 : W := mkWorld (fst adm) ([] ++ []) (parts ++ w_parts w4).

Definition part : PendingSubmit :=
  match parts with p :: _ => p | [] => mkPending 0 [] 0 0 None [] end.
Definition w6 : W := mkWorld (post_part cfg part (w_e w5)) (w_prepared w5) ([] ++ []).

(** Progress ends it, then the region is deregistered. *)

Definition w7 : W := call_ (fst (progress cfg device (w_e w6))) w6.
Definition dereg : (Core LocalProvider unit * Memory) * Status.t :=
  deregister_memory (peers_to_tell (e_peers (w_e w7))) 1 (e_core (w_e w7), e_mem (w_e w7)).
Definition w8 : W := call_ (with_cm (w_e w7) (fst dereg)) w7.

Definition req_of (w : W) : RequestImpl :=
  default (new_request 0 SubOpKind.kRead 0 0) (c_reqs (e_core (w_e w)) !! 1).

(** After the post two of the three pieces are with the transport and one waits
    its turn; one progress turn later it has all arrived. *)

Example run_states :
  (state_ (req_of w6), state_ (req_of w7)) = (RequestState.kInflight, RequestState.kSucceeded)
  ∧ (fun p => length (pd_ops p)) <$> c_pending (e_core (w_e w6)) = [1%nat]
  ∧ (fun p => load (lw_memory (lp_world p)) 8224 5) <$> c_providers (e_core (w_e w7))
    = [[10; 11; 12; 13; 14]]
  ∧ snd dereg = Status.kOk.
Proof. vm_compute. repeat split. Qed.

Lemma step1 : step w0 w1.
Proof. apply (ws_call cfg mine device w0), call_register; unfold uw; lia. Qed.

Lemma step2 : step w1 w2.
Proof. apply (ws_call cfg mine device w1), call_add_peer. Qed.

Lemma step3 : step w2 w3.
Proof. apply (ws_call cfg mine device w2), call_import. Qed.

Lemma step4 : step w3 w4.
Proof.
  apply (ws_prepare cfg mine device w3 1 [local_view] [remote_view] opts SubOpKind.kWrite).
  - vm_compute. reflexivity.
  - repeat constructor; unfold uw; cbn; lia.
  - vm_compute. reflexivity.
Qed.

Lemma step5 : step w4 w5.
Proof. refine (ws_admit cfg mine device w4 [] pr [] _ _ _ _); vm_compute; reflexivity. Qed.

Lemma step6 : step w5 w6.
Proof. refine (ws_post cfg mine device w5 [] part [] _). vm_compute. reflexivity. Qed.

Lemma step7 : step w6 w7.
Proof. apply (ws_call cfg mine device w6), call_progress. Qed.

Lemma start_idle : ∀ j, total_out [SampleLocal.world] j = 0%nat.
Proof. done. Qed.

Lemma reach5 : reachable cfg mine device w5.
Proof.
  exists [SampleLocal.world], tt. split; [exact start_idle|].
  eauto 10 using rtc_l, rtc_refl, step1, step2, step3, step4, step5.
Qed.

Lemma reachable_step w w' : reachable cfg mine device w → step w w' → reachable cfg mine device w'.
Proof. intros (ps & d & O & H) S. exists ps, d. split; [done|]. by eapply rtc_r. Qed.

Lemma reach6 : reachable cfg mine device w6.
Proof. eapply reachable_step; [apply reach5|apply step6]. Qed.

Lemma reach7 : reachable cfg mine device w7.
Proof. eapply reachable_step; [apply reach6|apply step7]. Qed.

Lemma req7 : c_reqs (e_core (w_e w7)) !! 1 = Some (req_of w7).
Proof. vm_compute. reflexivity. Qed.

(** Its registration cached once more. *)

Definition cached : Memory :=
  snd (cache_registration cfg 1 (e_core (w_e w1), e_mem (w_e w1))).

End Sample.

(** ** The theorems about all runs, at this one *)


Lemma ended_transfers_idle_witness :
  Forall (fun p => outstanding p 1 = 0%nat) (c_providers (e_core (w_e Sample.w7))).
Proof.
  apply list.Forall_forall.
  refine (proj1 (ended_transfers_idle Sample.cfg Sample.mine Sample.device Sample.w7 1
    (Sample.req_of Sample.w7) _ Sample.reach7 Sample.req7 _ _ _)).
  - vm_compute. congruence.
  - vm_compute. reflexivity.
  - vm_compute. reflexivity.
  - change (e_reaped (w_e Sample.w7)) with (∅ : gset Z). apply not_elem_of_empty.
Defined.

Lemma inflight_can_end_witness :
  (∃ p, p ∈ c_providers (e_core (w_e Sample.w6)) ∧ (0 < outstanding p 1)%nat)
  ∨ (∃ p, p ∈ c_pending (e_core (w_e Sample.w6)) ++ w_parts Sample.w6 ∧ pd_req p = 1).
Proof.
  refine (inflight_can_end Sample.cfg Sample.mine Sample.device Sample.w6 1 _ Sample.reach6 _).
  - vm_compute. congruence.
  - apply (bool_decide_unpack _). vm_compute. exact I.
Defined.


Lemma deregistered_region_unused_witness :
  snd Sample.dereg = Status.kOk
  ∧ ∀ j r, j ∈ c_inflight (e_core (w_e Sample.w8)) →
      c_reqs (e_core (w_e Sample.w8)) !! j = Some r → 1 ∉ held_regions (att_ r).
Proof.
  assert (Hk : snd Sample.dereg = Status.kOk) by (vm_compute; reflexivity). split; [exact Hk|]. intros j r.
  refine (deregistered_region_unused Sample.cfg Sample.mine Sample.device Sample.w7 1
    (fst Sample.dereg) Sample.w8 j r _ Sample.reach7 _ (rtc_refl _ _)).
  - vm_compute. congruence.
  - rewrite <- Hk. exact (surjective_pairing Sample.dereg).
Defined.

Lemma registrations_live_while_held_witness :
  Forall (fun g => is_Some (m_regs (e_mem (w_e Sample.w1)) !! g)) (m_cache (e_mem (w_e Sample.w1))).
Proof.
  apply list.Forall_forall.
  refine (proj1 (proj2 (registrations_live_while_held Sample.cfg Sample.device Sample.mine
    (e_core (w_e Sample.w0))
    (fst (register_memory Sample.cfg Sample.device Sample.mine 4096 16 15
       (e_core (w_e Sample.w0), e_mem (w_e Sample.w0)))) _))).
  apply rtc_once, ms_register; unfold uw; lia.
Defined.

Lemma cache_bound_witness :
  Z.of_nat (length (m_cache Sample.cached)) <= 64
  ∨ ∀ x, x ∈ m_cache Sample.cached → x = 1 ∨ handles_of Sample.cached x ≠ [].
Proof.
  refine (cache_bound Sample.cfg 1 (e_core (w_e Sample.w1)) (e_mem (w_e Sample.w1)) _).
  vm_compute. congruence.
Defined.
