(* ===== verification/EngineHandoff.v ===== *)
(** * The bytes a write's ready handoffs name ([EngineImpl::submit_vector] and
    [RequestImpl::add_remote_target]). *)

From stdpp Require Import base list gmap strings numbers.
From S2P Require Import Prelude Float64 Types Wire Region Provider Request SubOps.
From S2P Require Import EngineCore EngineMemory EnginePeers Engine EngineSafe.
From S2P Require Import ByteMemory LocalPath EngineSample.

(** The segments whose region is known, with its generation. *)

Definition known_segments (t : Peers) (peer : Z) (remote : list RegionView) : list (Z * Z * Span) :=
  omap (fun v => rr ← find_remote t peer (v_region v); Some (v_region v, d_generation (rr_d rr), v_span v)) remote.

Lemma targets_for_known t peer remote : targets_for t peer remote = targets_of (known_segments t peer remote).
Proof.
  unfold targets_for, targets_of, known_segments. generalize (@nil RemoteTarget).
  induction remote as [|v remote IH]; intros ts; [done|]. cbn.
  destruct (find_remote t peer (v_region v)) as [rr|]; cbn; rewrite IH; by destruct (sp_length _ =? 0).
Qed.

Lemma known_segments_spec t peer remote reg gen sp :
  (reg, gen, sp) ∈ known_segments t peer remote ↔
  ∃ rr, mkRegionView reg sp ∈ remote ∧ find_remote t peer reg = Some rr ∧ d_generation (rr_d rr) = gen.
Proof.
  unfold known_segments. rewrite list_elem_of_omap. split.
  - intros ([r s] & Hv & E). cbn in E. destruct (find_remote t peer r) as [rr|] eqn:F; [|done].
    cbn in E. simplify_eq. eauto.
  - intros (rr & Hv & F & <-). eexists. split; [exact Hv|]. cbn. by rewrite F.
Qed.

Section Handoff.
Context {P D : Type} `{!TransportProvider P} `{!DeviceWorld D}.
Context (cfg : EngineConfig) (device : option DeviceBackend).

Lemma prepared_targets i local remote opts kind (e e' : Engine P D) pr :
  submit_prepare cfg device i local remote opts kind e = (e', inr pr) →
  ∃ p, t_objs (e_peers e) !! i = Some p ∧
    remote_targets (att_ (pr_req pr)) =
      if bool_decide (kind = SubOpKind.kWrite) && opt_ready_handoff opts
      then targets_for (e_peers e) (p_id p) remote else [].
Proof.
  unfold submit_prepare. destruct (t_objs _ !! i) as [p|]; [|done]. intros E. exists p. split; [done|]. revert E.
  repeat (case_match; try done); intros; simplify_eq; done.
Qed.

(** C16: The ready handoffs of a submission are of the bytes it writes and no others: whatever the order,
    adjacency or regions of its segments, a byte of a region, at a generation, is covered by the merged
    ranges exactly when the submission is a write that asks for a handoff and the byte lies in one of its
    segments, of a region imported from that peer at that generation. *)
Theorem handoff_names_written i local remote opts kind (e e' : Engine P D) pr reg gen b :
  submit_prepare cfg device i local remote opts kind e = (e', inr pr) →
  Forall (fun v => span_fits (v_span v)) remote →
  covers (remote_targets (att_ (pr_req pr))) reg gen b ↔
  kind = SubOpKind.kWrite ∧ opt_ready_handoff opts = true ∧
  ∃ p sp rr, t_objs (e_peers e) !! i = Some p ∧ mkRegionView reg sp ∈ remote ∧
    find_remote (e_peers e) (p_id p) reg = Some rr ∧ d_generation (rr_d rr) = gen ∧ in_span sp b.
Proof.
  intros E Hf. apply prepared_targets in E as (p & Hp & ->).
  destruct (bool_decide _ && _) eqn:K.
  - rewrite targets_for_known, handoff_ranges_exact.
    + apply andb_true_iff in K as [K%bool_decide_eq_true Ko]. split.
      * intros (sp & Hs & Hb). apply known_segments_spec in Hs as (rr & Hv & Hr & Hg).
        split_and!; [done..|]. by exists p, sp, rr.
      * intros (_ & _ & q & sp & rr & Hq & Hv & Hr & Hg & Hb). simplify_eq. exists sp. split; [|done].
        apply known_segments_spec. eauto.
    + apply list.Forall_forall. intros [[r g] sp] Hx.
      apply known_segments_spec in Hx as (rr & Hv & _). rewrite list.Forall_forall in Hf. exact (Hf _ Hv).
  - apply andb_false_iff in K. rewrite bool_decide_eq_false in K. pose proof (covers_nil reg gen b).
    split; [done|]. intros (Hk & Ho & _). by destruct K; [|congruence].
Qed.

End Handoff.

(** The write of the sample run, asking for a handoff: byte 33 of region 9 is named. *)
Lemma handoff_names_written_witness :
  ∃ pr, snd (submit_prepare Sample.cfg Sample.device 1 [Sample.local_view] [Sample.remote_view]
               (mkTransferOptions [] false true 0) SubOpKind.kWrite (w_e Sample.w3)) = inr pr
  ∧ covers (remote_targets (att_ (pr_req pr))) 9 1 33.
Proof.
  destruct (submit_prepare Sample.cfg Sample.device 1 [Sample.local_view] [Sample.remote_view]
    (mkTransferOptions [] false true 0) SubOpKind.kWrite (w_e Sample.w3)) as [e' r] eqn:E.
  destruct r as [s|pr]; [vm_compute in E; discriminate|]. exists pr. split; [done|].
  eapply (proj2 (handoff_names_written Sample.cfg Sample.device 1 _ _ _ _ _ _ pr 9 1 33 E
    ltac:(repeat constructor; cbn; lia))).
  split_and!; [done..|]. do 3 eexists. split_and!; [vm_compute; reflexivity|by left|vm_compute; reflexivity|done|].
  unfold in_span; cbn; lia.
Defined.
