(* ===== verification/EngineLoop.v ===== *)
(** * Making an engine, and its progress thread ([make_engine], [Engine::create],
    [EngineImpl::EngineImpl], [progress_loop]).

    The thread shares the engine with every caller.  A [Tick] is one turn of the loop as
    the outside sees it: what other threads do to the engine between the points where the
    loop looks at it, and what the clock says. *)

From stdpp Require Import base list gmap strings numbers sorting.
From S2P Require Import Prelude Float64 Types Wire Region Provider Request SubOps.
From S2P Require Import EngineCore EngineInv EngineMemory EnginePeers Engine EngineSafe EngineSample.
From S2P Require Import ByteMemory LocalPath.

Section Making.
Context {P D : Type} `{!TransportProvider P} `{!DeviceWorld D}.

(** Without a provider there is no engine: the provider is injected. *)

Definition engine_create (cfg : EngineConfig) : Status.t :=
  let s := fst (validate cfg) in
  if negb (bool_decide (s = Status.kOk)) then s else Status.kInvalidArgument.

(** A provider may be a null pointer. *)

Definition make_engine (cfg : EngineConfig) (providers : list (option P)) (d : D) : Status.t + Engine P D :=
  if bool_decide (providers = []) then inl Status.kInvalidArgument
  else
    match mapM id providers with
    | None => inl Status.kInvalidArgument
    | Some ps =>
        let s := fst (validate cfg) in
        if negb (bool_decide (s = Status.kOk)) then inl s else inr (init_engine ps d)
    end.

Definition make_engine_one (cfg : EngineConfig) (provider : option P) (d : D) : Status.t + Engine P D :=
  match provider with
  | None => inl Status.kInvalidArgument
  | Some p =>
      let s := fst (validate cfg) in
      if negb (bool_decide (s = Status.kOk)) then inl s else inr (init_engine [p] d)
  end.

(** An engine is made exactly of a sound configuration and some providers, none of them missing, and it
    starts with them, in order, and nothing else: no memory, peers or requests.  One provider on its own
    is a list of one. *)
Theorem make_engine_exact cfg providers d :
  config_typed cfg →
  (∀ e, make_engine cfg providers d = inr e ↔
    ∃ ps, providers = Some <$> ps ∧ ps ≠ [] ∧ config_valid cfg ∧ e = init_engine ps d)
  ∧ (∀ p, make_engine_one cfg p d = make_engine cfg [p] d)
  ∧ engine_create cfg ≠ Status.kOk.
Proof.
  intros Ht. pose proof (validate_ok_iff cfg Ht) as Hv. split_and!.
  - intros e. unfold make_engine. case_bool_decide as E0.
    { split; [done|]. intros (ps & -> & Hne & _). by destruct ps. }
    destruct (mapM id providers) as [ps|] eqn:Em.
    + apply mapM_Some_1 in Em. assert (Ep : providers = Some <$> ps).
      { clear -Em. induction Em as [|x y l k Hxy _ IH]; [done|]. cbn in *. unfold id in Hxy. by rewrite Hxy, IH. }
      case_bool_decide as Es; cbn [negb].
      * split.
        -- intros [= <-]. exists ps. split_and!; [done|by destruct ps; subst|by apply Hv|done].
        -- intros (ps' & Ep' & _ & _ & ->). rewrite Ep in Ep'. apply (inj _) in Ep' as ->. done.
      * split; [done|]. intros (_ & _ & _ & Hc & _). by apply Hv in Hc.
    + split; [done|]. intros (ps & -> & _). exfalso. clear -Em. induction ps as [|p ps IH]; [done|]. cbn in Em.
      destruct (mapM id (Some <$> ps)); [done|]. by apply IH.
  - intros [p|]; [|done]. unfold make_engine_one, make_engine. done.
  - unfold engine_create. by case_bool_decide.
Qed.

End Making.

(** ** The progress thread *)

(** Nanoseconds. *)

Definition kLinger : Z := 2000000.
Definition kSleep : Z := 50000.

Section Loop.
Context {P D : Type} `{!TransportProvider P} `{!DeviceWorld D}.
Context (cfg : EngineConfig) (mine : Identity) (device : option DeviceBackend).

Record Tick : Type := mkTick {
  tk_before : Engine P D → Engine P D;
  tk_progressed : Engine P D → Engine P D;
  tk_counted : Engine P D → Engine P D;
  tk_now : Z
}.

Record LoopState : Type := mkLoop { lp_seen : Z; lp_last_active : Z }.

Inductive Rest : Type := Busy | Yield | Sleep.

#[global] Instance Rest_eq_dec : EqDecision Rest.
Proof. solve_decision. Defined.

(** One turn: when, the events counted, whether anything was outstanding, and how the
    thread rested. *)

Record Turn : Type := mkTurn { tn_now : Z; tn_events : Z; tn_outstanding : bool; tn_rest : Rest }.

(** [None]: told to stop. *)

Definition loop_turn (tk : Tick) (s : LoopState) (e : Engine P D) : option (LoopState * Engine P D * Turn) :=
  let e := tk_before tk e in
  if e_stopping e then None
  else
    let e := tk_progressed tk (fst (progress cfg device e)) in
    let now_events := e_progress_events e in
    let e := tk_counted tk e in
    let busy := negb (now_events =? lp_seen s) || has_outstanding e in
    let turn := mkTurn (tk_now tk) now_events (has_outstanding e) in
    if busy then Some (mkLoop now_events (tk_now tk), e, turn Busy)
    else if tk_now tk - lp_last_active s <? kLinger then Some (s, e, turn Yield)
    else Some (s, e, turn Sleep).

Fixpoint turns (ticks : list Tick) (s : LoopState) (e : Engine P D) : Engine P D * list Turn :=
  match ticks with
  | [] => (e, [])
  | tk :: ticks =>
      match loop_turn tk s e with
      | None => (tk_before tk e, [])
      | Some (s, e, t) => let '(e, ts) := turns ticks s e in (e, t :: ts)
      end
  end.

Definition progress_loop (start : Z) (ticks : list Tick) (e : Engine P D) : Engine P D * list Turn :=
  turns ticks (mkLoop (e_progress_events e) start) e.

(** Time passes. *)

Definition clock_runs (ticks : list Tick) : Prop := StronglySorted Z.le (tk_now <$> ticks).

Lemma turns_now ticks s e t : t ∈ snd (turns ticks s e) → ∃ tk, tk ∈ ticks ∧ tn_now t = tk_now tk.
Proof.
  revert s e. induction ticks as [|tk ticks IH]; intros s e; cbn [turns]; [by intros ?%not_elem_of_nil|].
  destruct (loop_turn tk s e) as [[[s' e'] t']|] eqn:E; [|by intros ?%not_elem_of_nil].
  destruct (turns ticks s' e') as [e2 ts] eqn:Et. cbn. intros [->|Ht]%elem_of_cons.
  - exists tk. split; [by left|]. unfold loop_turn in E. repeat case_match; by simplify_eq.
  - specialize (IH s' e'). rewrite Et in IH. destruct (IH Ht) as (k & Hk & ?). exists k. split; [by right|done].
Qed.

(** What a turn does to the loop's memory. *)

Lemma loop_turn_spec tk s e s' e' t :
  loop_turn tk s e = Some (s', e', t) →
  tn_now t = tk_now tk
  ∧ if tn_rest t is Busy then s' = mkLoop (tn_events t) (tn_now t)
    else s' = s ∧ tn_events t = lp_seen s ∧ tn_outstanding t = false
         ∧ (if tn_rest t is Sleep then kLinger <= tn_now t - lp_last_active s else True).
Proof.
  unfold loop_turn. destruct (e_stopping _); [done|]. destruct (negb _ || _) eqn:Eb; [intros; by simplify_eq|].
  apply orb_false_iff in Eb as [E1%negb_false_iff%Z.eqb_eq E2].
  destruct (Z.ltb_spec (tk_now tk - lp_last_active s) kLinger); intros; simplify_eq; by cbn.
Qed.

Definition idle (t : Turn) : Prop := tn_outstanding t = false ∧ tn_rest t ≠ Busy.

(** Up to a sleep: what was seen while it is recent, and what the loop started with if no
    turn was busy. *)

Lemma sleep_after ticks s e tr1 t tr2 :
  clock_runs ticks → snd (turns ticks s e) = tr1 ++ t :: tr2 → tn_rest t = Sleep →
  tn_outstanding t = false
  ∧ (∀ u, u ∈ tr1 → tn_now t - tn_now u < kLinger → idle u ∧ tn_events u = tn_events t)
  ∧ (Forall (fun u => tn_rest u ≠ Busy) tr1 → tn_events t = lp_seen s ∧ kLinger <= tn_now t - lp_last_active s).
Proof.
  intros Hc. revert s e tr1. induction ticks as [|tk ticks IH]; intros s e tr1; cbn [turns].
  { cbn. intros E. by destruct tr1. }
  apply StronglySorted_inv in Hc as [Hc Hge].
  change (Forall (Z.le (tk_now tk)) (tk_now <$> ticks)) in Hge.
  destruct (loop_turn tk s e) as [[[s' e'] u]|] eqn:E; [|cbn; intros E'; by destruct tr1].
  apply loop_turn_spec in E as [En Es]. destruct (turns ticks s' e') as [e2 ts] eqn:Et. cbn [snd].
  destruct tr1 as [|u' tr1]; cbn [app]; intros E' Hs; simplify_eq.
  { rewrite Hs in Es. destruct Es as (_ & E1 & E2 & E3). split_and!; [done| |done]. by intros ? ?%not_elem_of_nil. }
  specialize (IH Hc s' e' tr1). rewrite Et in IH. destruct (IH eq_refl Hs) as (Ho & Hrec & Hno). split; [done|].
  assert (Hlate : ∀ v, v ∈ tr1 → tn_now u' <= tn_now v).
  { intros v Hv. destruct (turns_now ticks s' e' v) as (k & Hk & ->).
    { rewrite Et. cbn. apply elem_of_app. by left. }
    rewrite En. rewrite list.Forall_forall in Hge. apply Hge, list_elem_of_fmap. eauto. }
  assert (Hb : tn_now t - tn_now u' < kLinger → Forall (fun v => tn_rest v ≠ Busy) tr1).
  { intros Hr. apply list.Forall_forall. intros v Hv. pose proof (Hlate v Hv). apply (Hrec v Hv). lia. }
  split.
  - intros v [->|Hv]%elem_of_cons Hr; [|by apply Hrec]. destruct (Hno (Hb Hr)) as [He Hl].
    destruct (tn_rest u') eqn:Er; [subst s'; cbn in *; lia|..]; destruct Es as (-> & E1 & E2 & _);
      (split; [split; [done|by rewrite Er]|congruence]).
  - intros [Hu Ht]%list.Forall_cons. destruct (Hno Ht) as [He Hl].
    by destruct (tn_rest u') eqn:Er; [|destruct Es as (-> & _)..].
Qed.

(** C20: The progress thread sleeps only when there is nothing to do and has been nothing for a while: when a
    turn ends in a sleep nothing is outstanding, the loop has run for two milliseconds at least, and in
    every turn of the last two milliseconds nothing was outstanding and not one event was counted, by the
    thread or by anyone else, whatever other threads did meanwhile. *)
Theorem thread_sleeps_idle start ticks e tr1 t tr2 :
  clock_runs ticks → Forall (fun tk => start <= tk_now tk) ticks →
  snd (progress_loop start ticks e) = tr1 ++ t :: tr2 → tn_rest t = Sleep →
  tn_outstanding t = false
  ∧ kLinger <= tn_now t - start
  ∧ ∀ u, u ∈ tr1 → tn_now t - tn_now u < kLinger →
      tn_outstanding u = false ∧ tn_rest u ≠ Busy ∧ tn_events u = tn_events t.
Proof.
  intros Hc Hs Et Hr. destruct (sleep_after _ _ _ _ _ _ Hc Et Hr) as (Ho & Hrec & Hno). split_and!; [done| |].
  - destruct (decide (Forall (fun u => tn_rest u ≠ Busy) tr1)) as [Hb|Hb]; [by apply Hno|].
    apply not_Forall_Exists, Exists_exists in Hb as (u & Hu & Hbu); [|apply _].
    destruct (Z.lt_ge_cases (tn_now t - tn_now u) kLinger) as [Hlt|Hge]; [by destruct Hbu; apply (Hrec u Hu Hlt)|].
    destruct (turns_now ticks (mkLoop (e_progress_events e) start) e u) as (k & Hk & En).
    { unfold progress_loop in Et. rewrite Et. apply elem_of_app. by left. }
    rewrite list.Forall_forall in Hs. specialize (Hs k Hk). cbn in Hs. lia.
  - intros u Hu Hlt. destruct (Hrec u Hu Hlt) as [[? ?] ?]. done.
Qed.

End Loop.

(** ** The sample engine's thread *)

Module SampleLoop.

Definition quiet (now : Z) : Tick (P := LocalProvider) (D := unit) := mkTick id id id now.

(** Three turns of an idle engine, the last past the two milliseconds. *)

Definition ticks : list (Tick (P := LocalProvider) (D := unit)) := quiet <$> [500000; 1500000; 2500000].

Lemma ran :
  snd (progress_loop Sample.cfg Sample.device 0 ticks (w_e Sample.w3))
  = [mkTurn 500000 0 false Yield; mkTurn 1500000 0 false Yield] ++ mkTurn 2500000 0 false Sleep :: [].
Proof. vm_compute. reflexivity. Qed.

End SampleLoop.

Lemma thread_sleeps_idle_witness : kLinger <= 2500000 - 0.
Proof.
  refine (proj1 (proj2 (thread_sleeps_idle Sample.cfg Sample.device 0 SampleLoop.ticks (w_e Sample.w3)
    [mkTurn 500000 0 false Yield; mkTurn 1500000 0 false Yield] (mkTurn 2500000 0 false Sleep) [] _ _ SampleLoop.ran
    eq_refl))).
  - repeat constructor; cbn; lia.
  - repeat constructor; cbn; lia.
Defined.

Lemma make_engine_exact_witness :
  make_engine default_config [Some SampleLocal.world] tt = inr (init_engine [SampleLocal.world] tt).
Proof.
  apply (make_engine_exact default_config [Some SampleLocal.world] tt).
  - unfold config_typed, uw. vm_compute. intuition congruence.
  - exists [SampleLocal.world]. split_and!; [done|done| |done]. unfold config_valid, uw. cbn. split_and!; lia || done.
Defined.
