(* ===== verification/Congestion.v ===== *)
(** * Congestion control ([src/transport/cc/]).

    The interface is a type class, with one instance per controller: none, a
    fixed byte window, and the delay-gradient controller (TIMELY), whose rate is
    in [double] arithmetic.  Times are nanoseconds of the steady clock and an
    argument of the calls, as in the source. *)

From stdpp Require Import base list numbers strings relations.
From Stdlib Require Import SpecFloat.
From S2P Require Import Prelude Float64.

Module CcDirection.

Inductive t : Type := kWrite | kRead.

#[global] Instance eq_dec : EqDecision t.
Proof. solve_decision. Defined.

End CcDirection.

Module CcVerdict.

Inductive t : Type := kAllowed | kOverBudget | kPaced.

#[global] Instance eq_dec : EqDecision t.
Proof. solve_decision. Defined.

End CcVerdict.

(** [next_send_time] and [rate_bytes_per_sec] are for reports; the transports
    use the rest.  A controller without pacing answers "now". *)

Class CongestionController (C : Type) : Type := {
  cc_name : C → string;
  allow : C → CcDirection.t → Z → Z → CcVerdict.t;
  on_post : C → CcDirection.t → Z → Z → C;
  on_feedback : C → CcDirection.t → Z → Z → Z → C;
  on_error : C → CcDirection.t → Z → Z → C;
  next_send_time : C → CcDirection.t → Z → Z;
  inflight_bytes : C → CcDirection.t → Z;
  window_bytes : C → CcDirection.t → Z;
  rate_bytes_per_sec : C → CcDirection.t → f64
}.

(** What every controller keeps twice. *)

Record PerDir (A : Type) : Type := mkPerDir { of_write : A; of_read : A }.
Arguments mkPerDir {A} _ _.
Arguments of_write {A} _.
Arguments of_read {A} _.

Definition dir {A} (d : CcDirection.t) (x : PerDir A) : A :=
  match d with CcDirection.kWrite => of_write x | CcDirection.kRead => of_read x end.

Definition set_dir {A} (d : CcDirection.t) (v : A) (x : PerDir A) : PerDir A :=
  match d with
  | CcDirection.kWrite => mkPerDir v (of_read x)
  | CcDirection.kRead => mkPerDir (of_write x) v
  end.

(** Clamped: a release larger than what is outstanding does not wrap. *)

Definition release_bytes (used bytes : Z) : Z := used - (if bytes <? used then bytes else used).

(** ** Off *)

Record OffController : Type := mkOff { off_inflight : PerDir Z }.

Definition off_release (c : OffController) (d : CcDirection.t) (bytes : Z) : OffController :=
  mkOff (set_dir d (release_bytes (dir d (off_inflight c)) bytes) (off_inflight c)).

#[export] Instance off_controller : CongestionController OffController := {
  cc_name _ := "off"%string;
  allow _ _ _ _ := CcVerdict.kAllowed;
  on_post c d bytes _ :=
    mkOff (set_dir d (wrap64 (dir d (off_inflight c) + bytes)) (off_inflight c));
  on_feedback c d bytes _ _ := off_release c d bytes;
  on_error c d bytes _ := off_release c d bytes;
  next_send_time _ _ now := now;
  inflight_bytes c d := dir d (off_inflight c);
  window_bytes _ _ := 0;
  rate_bytes_per_sec _ _ := f64_zero
}.

(** ** A fixed window *)

Record FixedWindowController : Type := mkFixedWindow {
  fw_window : Z;
  fw_inflight : PerDir Z;
  fw_samples : PerDir Z;
  fw_last_rtt : PerDir Z
}.

Definition make_cc_fixed_window (window : Z) : FixedWindowController :=
  mkFixedWindow window (mkPerDir 0 0) (mkPerDir 0 0) (mkPerDir 0 0).

Definition window_verdict (used bytes window : Z) : CcVerdict.t :=
  if wrap64 (used + bytes) <=? window then CcVerdict.kAllowed
  else if (window <? bytes) && (used =? 0) then CcVerdict.kAllowed
  else CcVerdict.kOverBudget.

Definition fw_with_inflight (c : FixedWindowController) (d : CcDirection.t) (v : Z)
    : FixedWindowController :=
  mkFixedWindow (fw_window c) (set_dir d v (fw_inflight c)) (fw_samples c) (fw_last_rtt c).

Definition fw_release_locked (c : FixedWindowController) (d : CcDirection.t) (bytes : Z)
    : FixedWindowController :=
  fw_with_inflight c d (release_bytes (dir d (fw_inflight c)) bytes).

#[export] Instance fixed_window_controller : CongestionController FixedWindowController := {
  cc_name _ := "fixed_window"%string;
  allow c d bytes _ := window_verdict (dir d (fw_inflight c)) bytes (fw_window c);
  on_post c d bytes _ := fw_with_inflight c d (wrap64 (dir d (fw_inflight c) + bytes));
  on_feedback c d bytes rtt _ :=
    let c := fw_release_locked c d bytes in
    mkFixedWindow (fw_window c) (fw_inflight c)
      (set_dir d (wrap64 (dir d (fw_samples c) + 1)) (fw_samples c))
      (set_dir d rtt (fw_last_rtt c));
  on_error c d bytes _ := fw_release_locked c d bytes;
  next_send_time _ _ now := now;
  inflight_bytes c d := dir d (fw_inflight c);
  window_bytes c _ := fw_window c;
  rate_bytes_per_sec _ _ := f64_zero
}.

(** ** TIMELY *)

Record TimelyParams : Type := mkTimelyParams {
  tp_t_low : Z;
  tp_t_high : Z;
  tp_beta : f64;
  tp_additive_increase_Bps : f64;
  tp_ewma_alpha : f64;
  tp_min_rate_Bps : f64;
  tp_max_rate_Bps : f64
}.

Definition default_timely : TimelyParams :=
  mkTimelyParams 50 500 f64_0_008 (f64_of_Z 10000000) f64_0_3 f64_1e6 (f64_of_Z 12500000000).

(** [std::chrono::nanoseconds::max()]. *)

Definition nanoseconds_max : Z := 2 ^ 63 - 1.

Record Dir : Type := mkDir {
  di_inflight : Z;
  di_rate_Bps : f64;
  di_min_delay : Z;
  di_prev_delay : Z;
  di_avg_delay_diff_us : f64;
  di_have_prev : bool;
  di_next_send : Z;
  di_last_update : Z;
  di_have_last_update : bool
}.

Record TimelyController : Type := mkTimely { tm_p : TimelyParams; tm_dir : PerDir Dir }.

(** [now] is the clock at construction. *)

Definition new_dir (p : TimelyParams) (now : Z) : Dir :=
  mkDir 0 (f64_mul (tp_additive_increase_Bps p) (f64_of_Z 10)) nanoseconds_max 0 f64_zero false
    now 0 false.

Definition make_cc_timely (p : TimelyParams) (now : Z) : TimelyController :=
  mkTimely p (mkPerDir (new_dir p now) (new_dir p now)).

Definition base_ns (d : Dir) : f64 :=
  if di_min_delay d =? nanoseconds_max then f64_1e6 else f64_of_Z (di_min_delay d).

Definition window_locked (d : Dir) : Z :=
  let w := f64_trunc (f64_div (f64_mul (di_rate_Bps d) (base_ns d)) f64_1e9) in
  if w <? Z.shiftl 1 16 then Z.shiftl 1 16 else w.

Definition rounds_since_locked (d : Dir) (now : Z) : f64 :=
  if negb (di_have_last_update d) then f64_1
  else if f64_leb (base_ns d) f64_zero then f64_1
  else
    let dt_ns := f64_of_Z (now - di_last_update d) in
    if f64_leb dt_ns f64_zero then f64_zero
    else
      let rounds := f64_div dt_ns (base_ns d) in
      if f64_ltb f64_64 rounds then f64_64 else rounds.

Definition with_release (d : Dir) (bytes : Z) : Dir :=
  mkDir (release_bytes (di_inflight d) bytes) (di_rate_Bps d) (di_min_delay d) (di_prev_delay d)
    (di_avg_delay_diff_us d) (di_have_prev d) (di_next_send d) (di_last_update d)
    (di_have_last_update d).

(** The new rate before it is clamped: [d] has the new average already. *)

Definition adjusted_rate (p : TimelyParams) (d : Dir) (rtt : Z) (rounds : f64) : f64 :=
  let sample_us := f64_div (f64_of_Z rtt) f64_1000 in
  let t_low_us := f64_of_Z (tp_t_low p) in
  let t_high_us := f64_of_Z (tp_t_high p) in
  let rate := di_rate_Bps d in
  let faster := f64_add rate (f64_mul (tp_additive_increase_Bps p) rounds) in
  if f64_ltb sample_us t_low_us then faster
  else if f64_ltb t_high_us sample_us
  then f64_mul rate
         (f64_sub f64_1 (f64_mul (tp_beta p) (f64_sub f64_1 (f64_div t_high_us sample_us))))
  else
    let min_us := f64_div (f64_of_Z (di_min_delay d)) f64_1000 in
    let norm_grad :=
      f64_div (di_avg_delay_diff_us d) (if f64_ltb f64_zero min_us then min_us else f64_1) in
    if f64_leb norm_grad f64_zero then faster
    else f64_mul rate (f64_sub f64_1 (f64_mul (tp_beta p) norm_grad)).

Definition clamp_rate (p : TimelyParams) (r : f64) : f64 :=
  let r := if f64_ltb r (tp_min_rate_Bps p) then tp_min_rate_Bps p else r in
  if f64_ltb (tp_max_rate_Bps p) r then tp_max_rate_Bps p else r.

Definition ewma (p : TimelyParams) (avg diff : f64) : f64 :=
  f64_add (f64_mul (f64_sub f64_1 (tp_ewma_alpha p)) avg) (f64_mul (tp_ewma_alpha p) diff).

Definition update_rate_locked (p : TimelyParams) (d : Dir) (rtt now : Z) : Dir :=
  if rtt <=? 0 then d
  else
    let d := mkDir (di_inflight d) (di_rate_Bps d)
      (if rtt <? di_min_delay d then rtt else di_min_delay d) (di_prev_delay d)
      (di_avg_delay_diff_us d) (di_have_prev d) (di_next_send d) (di_last_update d)
      (di_have_last_update d) in
    let rounds := rounds_since_locked d now in
    if negb (di_have_prev d)
    then mkDir (di_inflight d) (di_rate_Bps d) (di_min_delay d) rtt (di_avg_delay_diff_us d) true
           (di_next_send d) now true
    else
      let diff_us := f64_div (f64_of_Z (rtt - di_prev_delay d)) f64_1000 in
      let avg := ewma p (di_avg_delay_diff_us d) diff_us in
      let d := mkDir (di_inflight d) (di_rate_Bps d) (di_min_delay d) rtt avg true
        (di_next_send d) now true in
      mkDir (di_inflight d) (clamp_rate p (adjusted_rate p d rtt rounds)) (di_min_delay d)
        (di_prev_delay d) (di_avg_delay_diff_us d) true (di_next_send d) now true.

(** How long [bytes] take at the rate, in whole nanoseconds. *)

Definition send_gap (d : Dir) (bytes : Z) : Z :=
  f64_trunc (f64_mul (f64_div (f64_of_Z bytes) (di_rate_Bps d)) f64_1e9).

Definition post_dir (d : Dir) (bytes now : Z) : Dir :=
  mkDir (wrap64 (di_inflight d + bytes)) (di_rate_Bps d) (di_min_delay d) (di_prev_delay d)
    (di_avg_delay_diff_us d) (di_have_prev d)
    ((if di_next_send d <? now then now else di_next_send d) + send_gap d bytes)
    (di_last_update d) (di_have_last_update d).

Definition tm_set (c : TimelyController) (k : CcDirection.t) (d : Dir) : TimelyController :=
  mkTimely (tm_p c) (set_dir k d (tm_dir c)).

#[export] Instance timely_controller : CongestionController TimelyController := {
  cc_name _ := "timely"%string;
  allow c k bytes now :=
    let d := dir k (tm_dir c) in
    if now <? di_next_send d then CcVerdict.kPaced
    else window_verdict (di_inflight d) bytes (window_locked d);
  on_post c k bytes now := tm_set c k (post_dir (dir k (tm_dir c)) bytes now);
  on_feedback c k bytes rtt now :=
    tm_set c k (update_rate_locked (tm_p c) (with_release (dir k (tm_dir c)) bytes) rtt now);
  on_error c k bytes _ := tm_set c k (with_release (dir k (tm_dir c)) bytes);
  next_send_time c k _ := di_next_send (dir k (tm_dir c));
  inflight_bytes c k := di_inflight (dir k (tm_dir c));
  window_bytes c k := window_locked (dir k (tm_dir c));
  rate_bytes_per_sec c k := di_rate_Bps (dir k (tm_dir c))
}.

(** ** Accounting, for every controller *)

(** What a controller promises about the bytes it counts. *)

Class CcAccounting (C : Type) `{CongestionController C} : Prop := {
  post_counts c d b now : inflight_bytes (on_post c d b now) d = wrap64 (inflight_bytes c d + b);
  post_other c d e b now : e ≠ d → inflight_bytes (on_post c d b now) e = inflight_bytes c e;
  feedback_counts c d b rtt now :
    inflight_bytes (on_feedback c d b rtt now) d = release_bytes (inflight_bytes c d) b;
  feedback_other c d e b rtt now :
    e ≠ d → inflight_bytes (on_feedback c d b rtt now) e = inflight_bytes c e;
  error_counts c d b now :
    inflight_bytes (on_error c d b now) d = release_bytes (inflight_bytes c d) b;
  error_other c d e b now : e ≠ d → inflight_bytes (on_error c d b now) e = inflight_bytes c e
}.

Lemma dir_set_same {A} d (v : A) x : dir d (set_dir d v x) = v.
Proof. by destruct d. Qed.

Lemma dir_set_other {A} d e (v : A) x : e ≠ d → dir e (set_dir d v x) = dir e x.
Proof. by destruct d, e. Qed.

#[export] Instance off_accounting : CcAccounting OffController.
Proof.
  split; intros; cbn; rewrite ?dir_set_same, ?dir_set_other by done; done.
Qed.

#[export] Instance fixed_window_accounting : CcAccounting FixedWindowController.
Proof.
  split; intros; cbn; rewrite ?dir_set_same, ?dir_set_other by done; done.
Qed.

Lemma update_rate_inflight p d rtt now : di_inflight (update_rate_locked p d rtt now) = di_inflight d.
Proof. unfold update_rate_locked. destruct (rtt <=? 0); [done|]. cbn. by destruct (di_have_prev d). Qed.

#[export] Instance timely_accounting : CcAccounting TimelyController.
Proof.
  split; intros; cbn; rewrite ?dir_set_same, ?dir_set_other by done;
    rewrite ?update_rate_inflight; done.
Qed.

(** A transport asks before each post, and reports each posted operation's end
    once.  [o] is the lengths of what it has posted and not heard of, in each
    direction; an operation is shorter than 2^63 bytes. *)

Section Runs.
Context {C : Type} `{CcAccounting C}.

Definition Outstanding : Type := PerDir (list Z).

Inductive cc_step : C * Outstanding → C * Outstanding → Prop :=
| cc_post c o d b now :
    allow c d b now = CcVerdict.kAllowed → 0 < b < 2 ^ 63 →
    foldr Z.add 0 (dir d o) < 2 ^ 63 →
    cc_step (c, o) (on_post c d b now, set_dir d (b :: dir d o) o)
| cc_feedback c o d b rtt now l1 l2 :
    dir d o = l1 ++ b :: l2 →
    cc_step (c, o) (on_feedback c d b rtt now, set_dir d (l1 ++ l2) o)
| cc_failed c o d b now l1 l2 :
    dir d o = l1 ++ b :: l2 →
    cc_step (c, o) (on_error c d b now, set_dir d (l1 ++ l2) o).

Definition counted (c : C) (o : Outstanding) : Prop :=
  ∀ d, Forall (fun b => 0 < b) (dir d o) ∧ foldr Z.add 0 (dir d o) < 2 ^ 64
    ∧ inflight_bytes c d = foldr Z.add 0 (dir d o).

Lemma sum_app l1 l2 : foldr Z.add 0 (l1 ++ l2) = foldr Z.add 0 l1 + foldr Z.add 0 l2.
Proof. induction l1; cbn; lia. Qed.

Lemma sum_nonneg l : Forall (fun b => 0 < b) l → 0 <= foldr Z.add 0 l.
Proof. induction 1; cbn; lia. Qed.

Lemma release_exact l1 b l2 :
  Forall (fun x => 0 < x) (l1 ++ b :: l2) →
  release_bytes (foldr Z.add 0 (l1 ++ b :: l2)) b = foldr Z.add 0 (l1 ++ l2).
Proof.
  intros F. apply Forall_app in F as [F1 F2]. inversion F2; subst.
  pose proof (sum_nonneg _ F1). pose proof (sum_nonneg l2 ltac:(done)).
  unfold release_bytes. rewrite !sum_app. cbn. destruct (_ <? _) eqn:E; b2p; lia.
Qed.

Lemma counted_step s s' : cc_step s s' → counted (fst s) (snd s) → counted (fst s') (snd s').
Proof.
  intros St I e. destruct (I e) as (I1 & I2 & I3). destruct St as [c o d b now _ Hb Hs
    |c o d b rtt now l1 l2 Hd|c o d b now l1 l2 Hd]; cbn [fst snd] in *;
    destruct (decide (e = d)) as [->|Hne]; rewrite ?dir_set_same, ?dir_set_other by done.
  - rewrite post_counts, I3. pose proof (sum_nonneg _ I1). cbn.
    rewrite wrapw_id by (unfold uw; lia). split_and!; [constructor; auto; lia|lia|lia].
  - by rewrite post_other.
  - rewrite feedback_counts, I3. rewrite Hd in *. rewrite release_exact by done.
    apply Forall_app in I1 as [F1 F2]. inversion F2; subst. rewrite sum_app in *. cbn in I2.
    split_and!; [by apply Forall_app|lia|done].
  - by rewrite feedback_other.
  - rewrite error_counts, I3. rewrite Hd in *. rewrite release_exact by done.
    apply Forall_app in I1 as [F1 F2]. inversion F2; subst. rewrite sum_app in *. cbn in I2.
    split_and!; [by apply Forall_app|lia|done].
  - by rewrite error_other.
Qed.

Lemma counted_steps s s' : rtc cc_step s s' → counted (fst s) (snd s) → counted (fst s') (snd s').
Proof. induction 1; eauto using counted_step. Qed.

End Runs.

Definition nothing_outstanding : Outstanding := mkPerDir [] [].

(** *** The window holds *)

Definition fits (w : Z) (l : list Z) : Prop :=
  foldr Z.add 0 l <= w ∨ ∃ b, l = [b] ∧ w < b.

Definition fw_inv (w : Z) (s : FixedWindowController * Outstanding) : Prop :=
  counted (fst s) (snd s) ∧ fw_window (fst s) = w ∧ ∀ d, fits w (dir d (snd s)).

Lemma fits_less w l1 b l2 :
  0 <= w → Forall (fun x => 0 < x) (l1 ++ b :: l2) → fits w (l1 ++ b :: l2) → fits w (l1 ++ l2).
Proof.
  intros Hw F [Hs|(x & Hx & Hlt)]; left.
  - apply Forall_app in F as [_ F2]. inversion F2; subst. rewrite sum_app in *. cbn in Hs. lia.
  - destruct l1 as [|y l1]; cbn in Hx; [by injection Hx as <- ->|].
    injection Hx as _ Hx. by destruct l1.
Qed.

Lemma window_verdict_fits w used b :
  0 <= used → 0 < b < 2 ^ 63 → used < 2 ^ 63 → window_verdict used b w = CcVerdict.kAllowed →
  used + b <= w ∨ used = 0 ∧ w < b.
Proof.
  intros H0 Hb Hu. unfold window_verdict. rewrite wrapw_id by (unfold uw; lia).
  destruct (used + b <=? w) eqn:E; [b2p; auto|]. destruct (_ && _) eqn:E2; [|done]. b2p. lia.
Qed.

Lemma fw_inv_step w s s' : 0 <= w → cc_step s s' → fw_inv w s → fw_inv w s'.
Proof.
  intros Hw St (I & Ew & Hf). split_and!.
  - by eapply counted_step.
  - destruct St; cbn in *; done.
  - intros e. destruct (I e) as (F & _ & _). specialize (Hf e). destruct St as [c o d b now Ha Hb Hs
      |c o d b rtt now l1 l2 Hd|c o d b now l1 l2 Hd]; cbn [fst snd] in *;
      destruct (decide (e = d)) as [->|Hne]; rewrite ?dir_set_same, ?dir_set_other by done; auto;
      try (rewrite Hd in *; by eapply fits_less).
    destruct (I d) as (_ & _ & Ei). cbn in Ha, Ei. rewrite Ew, Ei in Ha.
    pose proof (sum_nonneg _ F).
    destruct (window_verdict_fits w _ b ltac:(done) Hb Hs Ha) as [?|[Hz Hlt]]; [left; cbn; lia|].
    right. exists b. split; [|done]. f_equal. destruct (dir d o) as [|x l]; [done|].
    inversion F; subst. pose proof (sum_nonneg l ltac:(done)). cbn in Hz. lia.
Qed.

(** ** TIMELY: the rate *)

(** What the tunables have to satisfy; the defaults do. *)

Record params_ok (p : TimelyParams) : Prop := mkParamsOk {
  po_min : f64_finite (tp_min_rate_Bps p) = true;
  po_min_pos : f64_ltb f64_zero (tp_min_rate_Bps p) = true;
  po_max : f64_finite (tp_max_rate_Bps p) = true;
  po_order : f64_leb (tp_min_rate_Bps p) (tp_max_rate_Bps p) = true;
  po_increase : f64_finite (tp_additive_increase_Bps p) = true;
  po_beta : f64_finite (tp_beta p) = true;
  po_beta_nonzero : f64_nonzero (tp_beta p) = true;
  po_t_high : 0 <= tp_t_high p < 2 ^ 63
}.

Lemma default_timely_ok : params_ok default_timely.
Proof. split; try (vm_compute; reflexivity). cbn. lia. Qed.

Definition in_range (p : TimelyParams) (r : f64) : Prop :=
  f64_leb (tp_min_rate_Bps p) r = true ∧ f64_leb r (tp_max_rate_Bps p) = true.

Lemma f64_finite_number x : f64_finite x = true → f64_is_nan x = false.
Proof. by destruct x. Qed.

Lemma clamp_in_range p r : params_ok p → f64_is_nan r = false → in_range p (clamp_rate p r).
Proof.
  intros [M1 _ M2 Ord _ _ _ _] Hr. unfold clamp_rate, in_range.
  apply f64_finite_number in M1, M2.
  destruct (f64_ltb r (tp_min_rate_Bps p)) eqn:E1.
  - destruct (f64_ltb (tp_max_rate_Bps p) (tp_min_rate_Bps p)) eqn:E2.
    + auto using f64_leb_refl.
    + auto using f64_leb_refl.
  - destruct (f64_ltb (tp_max_rate_Bps p) r) eqn:E2.
    + auto using f64_leb_refl.
    + split; apply f64_leb_of_ltb; done.
Qed.

(** A rate in range is a positive finite number. *)

Lemma in_range_finite p r :
  params_ok p → in_range p r → f64_finite r = true ∧ f64_nonzero r = true.
Proof.
  intros [M1 M3 M2 _ _ _ _ _] [H1 H2].
  destruct (tp_min_rate_Bps p) as [s1|s1| |s1 m1 e1], (tp_max_rate_Bps p) as [s2|s2| |s2 m2 e2];
    try discriminate; destruct s1; try discriminate;
    destruct r as [s|s| |s m e]; try done; destruct s; done.
Qed.

(** Greater than a number that is not negative: positive. *)

Lemma ltb_positive x y :
  f64_no_sign x = true → f64_is_nan x = false → f64_ltb x y = true → 
  f64_is_nan y = false ∧ f64_nonzero y = true ∧ f64_no_sign y = true.
Proof.
  unfold f64_ltb, SFltb. destruct x as [sx|sx| |sx mx ex], y as [sy|sy| |sy my ey]; cbn; try done;
    destruct sx, sy; done.
Qed.

Lemma not_leb_zero x : f64_is_nan x = false → f64_leb x f64_zero = false →
  f64_nonzero x = true ∧ f64_no_sign x = true.
Proof. unfold f64_leb, SFleb. destruct x as [s|s| |s m e]; cbn; try done; by destruct s. Qed.

Lemma div_positive_finite x y :
  f64_finite x = true → f64_no_sign x = true → f64_nonzero x = true →
  f64_nonzero y = true → f64_no_sign y = true →
  f64_ltb f64_64 (f64_div x y) = false → f64_finite (f64_div x y) = true.
Proof.
  intros F1 S1 N1 N2 S2 H. destruct x as [sx|sx| |sx mx ex], y as [sy|sy| |sy my ey]; try done.
  destruct sx, sy; try done. pose proof (div_shape false mx ex false my ey) as S.
  destruct (f64_div _ _); try done. subst. vm_compute in H. done.
Qed.

Lemma of_Z_number n : f64_is_nan (f64_of_Z n) = false.
Proof. apply normalize_number. Qed.

Lemma of_Z_no_sign n : 0 <= n → f64_no_sign (f64_of_Z n) = true.
Proof.
  intros Hn. unfold f64_of_Z, binary_normalize. destruct n as [|t|t]; [done| |lia].
  unfold binary_round. destruct (shl_align _ _ _) as [mz ez].
  pose proof (round_aux_shape false (Zpos mz) ez loc_Exact ltac:(lia)) as S.
  destruct (binary_round_aux _ _ _ _ _ _); cbn; by subst.
Qed.

Lemma base_ns_number d : f64_is_nan (base_ns d) = false.
Proof. unfold base_ns. destruct (_ =? _); apply of_Z_number. Qed.

Lemma rounds_finite d now :
  - 2 ^ 64 < now - di_last_update d < 2 ^ 64 → f64_finite (rounds_since_locked d now) = true.
Proof.
  intros Ht. unfold rounds_since_locked. destruct (negb _); [done|].
  destruct (f64_leb (base_ns d) f64_zero) eqn:E1; [done|].
  destruct (not_leb_zero _ (base_ns_number d) E1) as [B1 B2].
  destruct (f64_leb (f64_of_Z _) f64_zero) eqn:E2; [done|].
  destruct (not_leb_zero _ (of_Z_number _) E2) as [D1 D2].
  destruct (f64_ltb f64_64 _) eqn:E3; [done|].
  apply div_positive_finite; auto using f64_of_Z_finite.
Qed.

(** An adjusted rate is a number. *)

Lemma adjusted_rate_number p d rtt rounds :
  params_ok p → f64_finite (di_rate_Bps d) = true → f64_nonzero (di_rate_Bps d) = true →
  f64_finite (di_avg_delay_diff_us d) = true → f64_finite rounds = true →
  f64_is_nan (adjusted_rate p d rtt rounds) = false.
Proof.
  intros [_ _ _ _ PI PB PN PT] R1 R2 Av Ro.
  assert (Fa : f64_is_nan (f64_add (di_rate_Bps d) (f64_mul (tp_additive_increase_Bps p) rounds)) = false).
  { apply f64_add_number; [done|]. apply f64_mul_number; auto using f64_finite_number. }
  assert (Sl : ∀ x, f64_is_nan x = false →
    f64_is_nan (f64_mul (di_rate_Bps d) (f64_sub f64_1 (f64_mul (tp_beta p) x))) = false).
  { intros x Hx. apply f64_mul_number; auto. apply f64_sub_number; [done|].
    apply f64_mul_number; auto. }
  assert (TH : f64_finite (f64_of_Z (tp_t_high p)) = true) by (apply f64_of_Z_finite; lia).
  unfold adjusted_rate. destruct (f64_ltb _ (f64_of_Z (tp_t_low p))); [done|].
  destruct (f64_ltb (f64_of_Z (tp_t_high p)) _) eqn:E.
  - apply Sl, f64_sub_number; [done|].
    apply ltb_positive in E as (E1 & E2 & _); [by apply f64_div_number| |apply of_Z_number].
    apply of_Z_no_sign. lia.
  - cbn zeta. match goal with |- context [f64_div (di_avg_delay_diff_us d) ?y] => set (m := y) end.
    assert (Hm : f64_is_nan m = false ∧ f64_nonzero m = true).
    { unfold m. destruct (f64_ltb f64_zero _) eqn:E2; [|done].
      destruct (ltb_positive f64_zero _ eq_refl eq_refl E2) as (? & ? & _). by split. }
    destruct (f64_leb _ f64_zero); [done|]. apply Sl. apply f64_div_number; [done|apply Hm|apply Hm].
Qed.

Lemma update_rate_in_range p d rtt now :
  params_ok p → in_range p (di_rate_Bps d) → - 2 ^ 64 < now - di_last_update d < 2 ^ 64 →
  f64_finite (di_avg_delay_diff_us (update_rate_locked p d rtt now)) = true →
  in_range p (di_rate_Bps (update_rate_locked p d rtt now)).
Proof.
  intros Hp Hr Ht. unfold update_rate_locked. destruct (rtt <=? 0); [done|]. cbn zeta.
  cbn [di_have_prev]. destruct (negb (di_have_prev d)); [done|]. cbn [di_avg_delay_diff_us di_rate_Bps].
  intros Ha. apply clamp_in_range; [done|]. destruct (in_range_finite _ _ Hp Hr).
  apply adjusted_rate_number; try done. by apply rounds_finite.
Qed.

(** ** TIMELY: pacing *)

Lemma trunc_nonneg x : f64_no_sign x = true → 0 <= f64_trunc x.
Proof.
  destruct x as [s|s| |s m e]; try done. destruct s; [done|]. intros _. cbn.
  destruct (0 <=? e) eqn:E; b2p.
  - apply Z.mul_nonneg_nonneg; [lia|]. apply Z.pow_nonneg. lia.
  - apply Z.div_pos; [lia|]. apply Z.pow_pos_nonneg; lia.
Qed.

Lemma div_no_sign x y :
  f64_no_sign x = true → f64_no_sign y = true → f64_nonzero y = true →
  f64_no_sign (f64_div x y) = true.
Proof.
  destruct x as [sx|sx| |sx mx ex], y as [sy|sy| |sy my ey]; cbn; try done.
  - by destruct sx, sy.
  - intros H1 H2 _. pose proof (div_shape sx mx ex sy my ey) as S.
    change (f64_no_sign (f64_div (S754_finite sx mx ex) (S754_finite sy my ey)) = true).
    destruct (f64_div _ _); cbn; subst; by destruct sx, sy.
Qed.

Lemma mul_no_sign x y :
  f64_no_sign x = true → f64_no_sign y = true → f64_no_sign (f64_mul x y) = true.
Proof.
  destruct x as [sx|sx| |sx mx ex], y as [sy|sy| |sy my ey]; cbn; try done;
    try (by destruct sx, sy).
  intros H1 H2. pose proof (mul_shape sx mx ex sy my ey) as S.
  change (f64_no_sign (f64_mul (S754_finite sx mx ex) (S754_finite sy my ey)) = true).
  destruct (f64_mul _ _); cbn; subst; by destruct sx, sy.
Qed.

Lemma send_gap_nonneg d bytes :
  0 <= bytes → f64_ltb f64_zero (di_rate_Bps d) = true → 0 <= send_gap d bytes.
Proof.
  intros Hb Hr. apply ltb_positive in Hr as (_ & R1 & R2); [|done|done].
  apply trunc_nonneg, mul_no_sign; [|done]. by apply div_no_sign; [apply of_Z_no_sign| |].
Qed.

(** ** Properties *)

(** C23: A fixed window is never exceeded and never stalls. Along any run in which
    each post was allowed first and each posted operation's end, good or bad,
    is reported once: the bytes counted in flight in each direction are exactly
    the bytes of the operations outstanding; they are within the window, unless
    a single operation longer than the whole window is out alone; and when
    nothing is outstanding in a direction an operation of any length is
    allowed. *)
Theorem fixed_window_bounded w c o d :
  0 <= w → rtc cc_step (make_cc_fixed_window w, nothing_outstanding) (c, o) →
  inflight_bytes c d = foldr Z.add 0 (dir d o)
  ∧ (inflight_bytes c d <= w ∨ ∃ b, dir d o = [b] ∧ w < b)
  ∧ (dir d o = [] → ∀ b now, 0 < b < 2 ^ 63 → allow c d b now = CcVerdict.kAllowed).
Proof.
  intros Hw H.
  assert (I : fw_inv w (c, o)).
  { assert (G : ∀ s s', rtc cc_step s s' → fw_inv w s → fw_inv w s')
      by (induction 1; eauto using fw_inv_step).
    apply (G _ _ H). split_and!; [|done|].
    - intros []; cbn; split_and!; auto; lia.
    - intros []; left; cbn; lia. }
  destruct I as (I & Ew & Hf). destruct (I d) as (_ & _ & Ei). cbn [fst snd] in *.
  split_and!; [done|rewrite Ei; apply Hf|]. intros Ho b now Hb. cbn in Ei |- *.
  rewrite Ei, Ho, Ew. cbn. unfold window_verdict. rewrite wrapw_id by (unfold uw; lia).
  destruct (_ <=? w) eqn:E1; [done|]. destruct (_ && _) eqn:E2; [done|]. b2p.
  rewrite (proj2 (Z.ltb_lt w b)) in E2 by lia. done.
Qed.


(** Posts are paced. After a post at time [now] the next one in that direction
    is refused as paced until the send time the post set, which is neither
    before [now] nor before the send time that stood, so it only moves forward;
    the other direction keeps its own. *)
Theorem timely_paces c k bytes now :
  0 <= bytes → f64_ltb f64_zero (rate_bytes_per_sec c k) = true →
  let c' := on_post c k bytes now in
  now <= next_send_time c' k now ∧ next_send_time c k now <= next_send_time c' k now
  ∧ (∀ b t, t < next_send_time c' k now → allow c' k b t = CcVerdict.kPaced)
  ∧ (∀ e t, e ≠ k → next_send_time c' e t = next_send_time c e t).
Proof.
  cbn. intros Hb Hr. rewrite !dir_set_same. pose proof (send_gap_nonneg _ _ Hb Hr) as G. cbn.
  set (n := di_next_send (dir k (tm_dir c))) in *.
  split_and!.
  - destruct (n <? now) eqn:E; b2p; lia.
  - destruct (n <? now) eqn:E; b2p; lia.
  - intros b t Ht. by rewrite (proj2 (Z.ltb_lt _ _) Ht).
  - intros e t Hne. by rewrite dir_set_other.
Qed.

(** ** Samples *)

Module SampleCc.

(** Two writes outstanding in a window of 100. *)

Definition posted : FixedWindowController * Outstanding :=
  (on_post (on_post (make_cc_fixed_window 100) CcDirection.kWrite 60 0) CcDirection.kWrite 40 0,
   mkPerDir [40; 60] []).

Lemma posted_run : rtc cc_step (make_cc_fixed_window 100, nothing_outstanding) posted.
Proof.
  eapply rtc_l.
  - exact (cc_post (make_cc_fixed_window 100) nothing_outstanding CcDirection.kWrite 60 0
      eq_refl ltac:(lia) ltac:(cbn; lia)).
  - apply rtc_once.
    exact (cc_post (on_post (make_cc_fixed_window 100) CcDirection.kWrite 60 0) (mkPerDir [60] [])
      CcDirection.kWrite 40 0 eq_refl ltac:(lia) ltac:(cbn; lia)).
Qed.

(** Two delay samples, the second at 200 us. *)

Definition timely : TimelyController :=
  on_feedback (make_cc_timely default_timely 0) CcDirection.kWrite 0 100000 1000000.

End SampleCc.

Lemma fixed_window_bounded_witness :
  inflight_bytes (fst SampleCc.posted) CcDirection.kWrite = 100.
Proof.
  destruct (fixed_window_bounded 100 (fst SampleCc.posted) (snd SampleCc.posted)
    CcDirection.kWrite ltac:(lia) SampleCc.posted_run) as (E & _).
  rewrite E. reflexivity.
Defined.


Lemma timely_paces_witness :
  allow (on_post SampleCc.timely CcDirection.kWrite 1000000 5000000) CcDirection.kWrite 1 14999999
  = CcVerdict.kPaced.
Proof.
  destruct (timely_paces SampleCc.timely CcDirection.kWrite 1000000 5000000 ltac:(lia)
    ltac:(vm_compute; reflexivity)) as (_ & _ & H & _).
  apply H. vm_compute. reflexivity.
Defined.
