(* ===== verification/SocketIo.v ===== *)
(** * Conversations over a stream socket.

    The handshakes of the RDMA and IPC transports are sequences of "write all
    of this" and "read exactly so many bytes", each of which can fail.  [Io] is
    such a sequence; [send_all] and [recv_all] are the loops that carry a write
    and a read out, over a socket whose answers are an argument, and [io_run]
    relates a conversation to what it wrote, what it read and how it ended. *)

From stdpp Require Import base list.
From S2P Require Import Prelude.

Inductive Io (R : Type) : Type :=
| Ret (r : R)
| SendAll (bytes : list Z) (k : bool → Io R)
| RecvAll (n : nat) (k : option (list Z) → Io R).

Arguments Ret {R} r.
Arguments SendAll {R} bytes k.
Arguments RecvAll {R} n k.

(** ** The loops *)

(** What one blocking [::send] did: it took [k] bytes (at most those offered),
    was interrupted, found no room until after the wait for it ([poll] said
    writable), or failed, running out of time included. *)

Inductive HsSend : Type :=
| HsTook (k : nat)
| HsInterrupted
| HsWaited
| HsFailed.

(** The script is the socket's answers; one that has no more is a socket that
    ran out of time.  Returns whether all was written, and what was. *)

Fixpoint send_all (s : list HsSend) (msg : list Z) : bool * list Z * list HsSend :=
  match msg with
  | [] => (true, [], s)
  | _ =>
      match s with
      | [] => (false, [], [])
      | HsTook k :: s' =>
          let k := Nat.min k (length msg) in
          if bool_decide (0 < k)%nat then
            let '(ok, sent, s'') := send_all s' (drop k msg) in
            (ok, take k msg ++ sent, s'')
          else (false, [], s')
      | HsInterrupted :: s' => send_all s' msg
      | HsWaited :: s' => send_all s' msg
      | HsFailed :: s' => (false, [], s')
      end
  end.

(** What one blocking [::recv] of at most [n] bytes did: it returned some (none
    is end of file), was interrupted, or failed. *)

Inductive HsRecv : Type :=
| HsGot (b : list Z)
| HsRecvInterrupted
| HsRecvFailed.

(** [retry] is whether an interrupted read is tried again. *)

Fixpoint recv_all (retry : bool) (s : list HsRecv) (n : nat)
    : option (list Z) * list Z * list HsRecv :=
  if bool_decide (n = 0)%nat then (Some [], [], s)
  else
    match s with
    | [] => (None, [], [])
    | HsGot b :: s' =>
        let b := take n b in
        if bool_decide (b = []) then (None, [], s')
        else
          let '(r, got, s'') := recv_all retry s' (n - length b) in
          ((b ++.) <$> r, b ++ got, s'')
    | HsRecvInterrupted :: s' => if retry then recv_all retry s' n else (None, [], s')
    | HsRecvFailed :: s' => (None, [], s')
    end.

(** ** Conversations *)

(** [io_run io sent got r]: [io] may end with [r] having written [sent] and read
    [got].  A failed write may have written any prefix, a failed read may have
    taken fewer bytes than asked. *)

Inductive io_run {R} : Io R → list Z → list Z → R → Prop :=
| run_ret r : io_run (Ret r) [] [] r
| run_send b k s g r : io_run (k true) s g r → io_run (SendAll b k) (b ++ s) g r
| run_send_fail b b' k s g r :
    b' `prefix_of` b → io_run (k false) s g r → io_run (SendAll b k) (b' ++ s) g r
| run_recv n b k s g r :
    length b = n → io_run (k (Some b)) s g r → io_run (RecvAll n k) s (b ++ g) r
| run_recv_fail n b k s g r :
    (length b < n)%nat → io_run (k None) s g r → io_run (RecvAll n k) s (b ++ g) r.

(** A conversation carried out over a socket. *)

Fixpoint io_exec {R} (retry : bool) (io : Io R) (ss : list HsSend) (rs : list HsRecv)
    : R * list Z * list Z * (list HsSend * list HsRecv) :=
  match io with
  | Ret r => (r, [], [], (ss, rs))
  | SendAll b k =>
      let '(ok, sent, ss') := send_all ss b in
      let '(r, s, g, rest) := io_exec retry (k ok) ss' rs in
      (r, sent ++ s, g, rest)
  | RecvAll n k =>
      let '(o, got, rs') := recv_all retry rs n in
      let '(r, s, g, rest) := io_exec retry (k o) ss rs' in
      (r, s, got ++ g, rest)
  end.

(** ** The loops do what a conversation needs *)

Lemma send_all_spec s msg ok sent s' :
  send_all s msg = (ok, sent, s') → if ok then sent = msg else sent `prefix_of` msg.
Proof.
  revert msg ok sent s'. induction s as [|e s IH]; intros msg ok sent s' H.
  - destruct msg; injection H as <- <- <-; [done|apply prefix_nil].
  - destruct msg as [|x msg]; [injection H as <- <- <-; done|].
    cbn [send_all] in H. destruct e as [k| | |]; try by eapply IH.
    + set (k' := Nat.min k (length (x :: msg))) in *.
      case_bool_decide as Hk; [|injection H as <- <- <-; apply prefix_nil].
      destruct (send_all s (drop k' (x :: msg))) as [[ok2 sent2] s2] eqn:E.
      injection H as <- <- <-. apply IH in E.
      destruct ok2.
      * by rewrite E, take_drop.
      * rewrite <- (take_drop k' (x :: msg)) at 2. by apply prefix_app.
    + injection H as <- <- <-. apply prefix_nil.
Qed.

Lemma recv_all_spec retry s n r got s' :
  recv_all retry s n = (r, got, s') →
  match r with Some b => b = got ∧ length b = n | None => (length got < n)%nat end.
Proof.
  revert n r got s'. induction s as [|e s IH]; intros n r got s' H; cbn [recv_all] in H;
    case_bool_decide as Hn; try (injection H as <- <- <-; cbn; lia).
  - injection H as <- <- <-. by subst.
  - injection H as <- <- <-. by subst.
  - destruct e as [b| |]; [|destruct retry; [by eapply IH|]|];
      try (injection H as <- <- <-; cbn; lia).
    case_bool_decide as Hb; [injection H as <- <- <-; cbn; lia|].
    destruct (recv_all retry s _) as [[r2 got2] s2] eqn:E. injection H as <- <- <-.
    apply IH in E. pose proof (length_take b n) as Ht.
    assert (0 < length (take n b))%nat by (destruct (take n b); [done|cbn; lia]).
    destruct r2 as [b2|]; cbn.
    + destruct E as [-> E]. split; [done|]. rewrite length_app. lia.
    + rewrite length_app. lia.
Qed.

Lemma io_exec_run {R} retry (io : Io R) ss rs r s g rest :
  io_exec retry io ss rs = (r, s, g, rest) → io_run io s g r.
Proof.
  revert ss rs r s g rest. induction io as [r0|b k IH|n k IH]; intros ss rs r s g rest H;
    cbn [io_exec] in H.
  - injection H as <- <- <- <-. constructor.
  - destruct (send_all ss b) as [[ok sent] ss'] eqn:E.
    destruct (io_exec retry (k ok) ss' rs) as [[[r2 s2] g2] rest2] eqn:E2.
    injection H as <- <- <- <-. apply send_all_spec in E. apply IH in E2.
    destruct ok; [subst; by constructor|by constructor].
  - destruct (recv_all retry rs n) as [[o got] rs'] eqn:E.
    destruct (io_exec retry (k o) ss rs') as [[[r2 s2] g2] rest2] eqn:E2.
    injection H as <- <- <- <-. apply recv_all_spec in E. apply IH in E2.
    destruct o as [b|]; [destruct E as [-> E]; by constructor|by constructor].
Qed.

(** ** Taking a conversation apart *)

Lemma io_ret_inv {R} (r r' : R) s g : io_run (Ret r) s g r' → s = [] ∧ g = [] ∧ r = r'.
Proof. intros H. by inversion H. Qed.

Lemma io_send_inv {R} b (k : bool → Io R) s g r :
  io_run (SendAll b k) s g r →
  ∃ ok b' s', s = b' ++ s' ∧ b' `prefix_of` b ∧ (ok = true → b' = b) ∧ io_run (k ok) s' g r.
Proof.
  intros H. inversion H; subst.
  - eexists true, b, _. by split_and!.
  - eexists false, _, _. by split_and!.
Qed.

Lemma io_recv_inv {R} n (k : option (list Z) → Io R) s g r :
  io_run (RecvAll n k) s g r →
  ∃ b g', g = b ++ g'
    ∧ ((length b = n ∧ io_run (k (Some b)) s g' r) ∨ io_run (k None) s g' r).
Proof. intros H. inversion H; subst; eexists _, _; eauto. Qed.
