(* ===== verification/RdmaWire.v ===== *)
(** * What the RDMA transport puts on the wire, and what it decides from it
    ([src/transport/rdma/rdma_provider.{h,cpp}]).

    Endpoints, the handshake's messages and the decision both ends take from
    them, the metadata a peer dials, work request ids, and the translation of
    completion statuses and access flags.  Numeric values of the [IBV_]
    constants are those of the verbs interface. *)

From stdpp Require Import base list gmap strings.
From S2P Require Import Prelude Types Wire SocketIo.

(** ** Endpoints *)

Definition kWireMajor : Z := 2.
Definition kWireMinor : Z := 1.
Definition kFeatureOooRw : Z := Z.shiftl 1 0.

Record RdmaEndpointInfo : Type := mkEp {
  ep_major : Z;
  ep_minor : Z;
  ep_qp_num : Z;
  ep_lid : Z;
  ep_gid : list Z;
  ep_psn : Z;
  ep_mtu : Z
}.

Definition ep_wf (e : RdmaEndpointInfo) : Prop :=
  u16 (ep_major e) ∧ u16 (ep_minor e) ∧ u32 (ep_qp_num e) ∧ u16 (ep_lid e)
  ∧ length (ep_gid e) = 16%nat ∧ u32 (ep_psn e) ∧ u32 (ep_mtu e).

Definition kEpInfoBytes : nat := (2 + 2 + 4 + 2 + 16 + 4 + 4)%nat.

Definition encode_ep (e : RdmaEndpointInfo) : list Z :=
  let b := le_bytes 2 (ep_major e) in
  let b := b ++ le_bytes 2 (ep_minor e) in
  let b := b ++ le_bytes 4 (ep_qp_num e) in
  let b := b ++ le_bytes 2 (ep_lid e) in
  let b := b ++ take 16 (ep_gid e) in
  let b := b ++ le_bytes 4 (ep_psn e) in
  b ++ le_bytes 4 (ep_mtu e).

(** [std::memcpy(dst, buf + off, n)]. *)

Definition get_bytes (buf : list Z) (off n : nat) : rd (list Z) :=
  if bool_decide (off + n <= length buf)%nat then Done (take n (drop off buf)) else Oob.

Definition decode_ep (buf : list Z) (p : nat) : rd RdmaEndpointInfo :=
  major <~ get_u16 buf p;;
  minor <~ get_u16 buf (p + 2);;
  qp_num <~ get_u32 buf (p + 4);;
  lid <~ get_u16 buf (p + 8);;
  gid <~ get_bytes buf (p + 10) 16;;
  psn <~ get_u32 buf (p + 26);;
  mtu <~ get_u32 buf (p + 30);;
  Done (mkEp major minor qp_num lid gid psn mtu).

Definition check_wire_version (peer_major peer_minor : Z) : Status.t :=
  if negb (peer_major =? kWireMajor) then Status.kUnsupported else Status.kOk.

(** ** Metadata: where a peer dials *)

Definition rdma_local_metadata (listen_port gid_index : Z) (advertise_ip : string) : list Z :=
  le_bytes 2 listen_port ++ le_bytes 2 gid_index
  ++ le_bytes 2 (Z.of_nat (String.length advertise_ip)) ++ bytes_of_string advertise_ip.

(** The port and the address [connect] dials. *)

Definition parse_rdma_metadata (md : list Z) : rd (Z * string) :=
  if bool_decide (length md < 6)%nat then Fail Status.kInvalidArgument
  else
    port <~ get_u16 md 0;;
    ip_len <~ get_u16 md 4;;
    if negb (Z.of_nat (length md) =? 6 + ip_len) then Fail Status.kInvalidArgument
    else
      ip <~ get_bytes md 6 (Z.to_nat ip_len);;
      Done (port, string_of_bytes ip).

(** ** Completion statuses and access flags *)

Definition IBV_WC_SUCCESS : Z := 0.
Definition IBV_WC_LOC_LEN_ERR : Z := 1.
Definition IBV_WC_LOC_PROT_ERR : Z := 4.
Definition IBV_WC_WR_FLUSH_ERR : Z := 5.
Definition IBV_WC_REM_INV_REQ_ERR : Z := 9.
Definition IBV_WC_REM_ACCESS_ERR : Z := 10.
Definition IBV_WC_REM_OP_ERR : Z := 11.
Definition IBV_WC_RETRY_EXC_ERR : Z := 12.
Definition IBV_WC_RNR_RETRY_EXC_ERR : Z := 13.

(** The status, and whether the remote side may have been written. *)

Definition status_from_wc (s : Z) : Status.t * bool :=
  if s =? IBV_WC_SUCCESS then (Status.kOk, false)
  else if (s =? IBV_WC_RETRY_EXC_ERR) || (s =? IBV_WC_RNR_RETRY_EXC_ERR)
  then (Status.kPeerDisconnected, false)
  else if (s =? IBV_WC_REM_ACCESS_ERR) || (s =? IBV_WC_REM_OP_ERR)
          || (s =? IBV_WC_REM_INV_REQ_ERR)
  then (Status.kTransportError, true)
  else if s =? IBV_WC_WR_FLUSH_ERR then (Status.kCancelled, false)
  else if (s =? IBV_WC_LOC_PROT_ERR) || (s =? IBV_WC_LOC_LEN_ERR)
  then (Status.kInvalidArgument, false)
  else (Status.kTransportError, true).

Definition IBV_ACCESS_LOCAL_WRITE : Z := 1.
Definition IBV_ACCESS_REMOTE_WRITE : Z := 2.
Definition IBV_ACCESS_REMOTE_READ : Z := 4.

Definition ib_access_flags (a : AccessFlags) : Z :=
  let f := IBV_ACCESS_LOCAL_WRITE in
  let f := if has_flag a kRemoteRead then Z.lor f IBV_ACCESS_REMOTE_READ else f in
  if has_flag a kRemoteWrite then Z.lor f IBV_ACCESS_REMOTE_WRITE else f.

(** ** Work request ids *)

Definition kRecvWrId : Z := Z.shiftl 1 63.
Definition kVerifyWrId : Z := Z.shiftl 1 62.
Definition kQpShift : Z := 48.

Definition make_wr_id (qp_index seq : Z) : Z :=
  Z.lor (wrap64 (Z.shiftl qp_index kQpShift)) (Z.land seq (Z.shiftl 1 kQpShift - 1)).

Definition wr_qp_index (id : Z) : Z := Z.land (Z.shiftr id kQpShift) 32767.

Definition wr_seq (id : Z) : Z := Z.land id (Z.shiftl 1 kQpShift - 1).

Definition is_recv_id (id : Z) : bool := negb (Z.land id kRecvWrId =? 0).

(** ** The handshake *)

(** What one end brings to it: the numbers of the queue pairs it made, its
    port's attributes, and whether it offers out-of-order placement. *)

Record LocalEnd : Type := mkLocalEnd {
  le_qp_nums : list Z;
  le_lid : Z;
  le_gid : list Z;
  le_active_mtu : Z;
  le_ooo_rw : bool
}.

Definition le_n (l : LocalEnd) : Z := Z.of_nat (length (le_qp_nums l)).

Definition my_endpoint (l : LocalEnd) (qp_num : Z) : RdmaEndpointInfo :=
  mkEp kWireMajor kWireMinor qp_num (le_lid l) (le_gid l) 0 (le_active_mtu l).

Definition hello (l : LocalEnd) : list Z :=
  le_bytes 4 (le_n l) ++ concat (encode_ep ∘ my_endpoint l <$> le_qp_nums l).

Definition features (l : LocalEnd) : list Z :=
  le_bytes 4 (if le_ooo_rw l then kFeatureOooRw else 0).

(** [decode_ep] over [n] slots. *)

Fixpoint decode_eps (n : nat) (buf : list Z) (i : nat) : rd (list RdmaEndpointInfo) :=
  match n with
  | O => Done []
  | S n' =>
      e <~ decode_ep buf (i * kEpInfoBytes);;
      rest <~ decode_eps n' buf (S i);;
      Done (e :: rest)
  end.

(** What the two ends settled: the peer's endpoints, and the placement. *)

Record Settled : Type := mkSettled {
  st_peers : list RdmaEndpointInfo;
  st_ooo : bool
}.

(** A read past the end of a received buffer would be a defect here, not an
    answer; [handshake] keeps it apart. *)

Definition HsResult : Type := res Status.t Settled.

Definition settle (l : LocalEnd) (peers : list RdmaEndpointInfo) (peer_features : Z) : Settled :=
  mkSettled peers (le_ooo_rw l && negb (Z.land peer_features kFeatureOooRw =? 0)).

Definition after_hello (l : LocalEnd) (peers : list RdmaEndpointInfo) : Io HsResult :=
  match peers with
  | [] => Ret Oob
  | p0 :: _ =>
      let vs := check_wire_version (ep_major p0) (ep_minor p0) in
      if negb (bool_decide (vs = Status.kOk)) then Ret (Fail vs)
      else if 1 <=? ep_minor p0 then
        SendAll (features l) (fun ok =>
          if negb ok then Ret (Fail Status.kPeerDisconnected)
          else RecvAll 4 (fun theirs =>
            match theirs with
            | None => Ret (Fail Status.kPeerDisconnected)
            | Some b => Ret (f <~ get_u32 b 0;; Done (settle l peers f))
            end))
      else Ret (Done (settle l peers 0))
  end.

Definition handshake (l : LocalEnd) : Io HsResult :=
  SendAll (hello l) (fun ok =>
    if negb ok then Ret (Fail Status.kPeerDisconnected)
    else RecvAll 4 (fun count_buf =>
      match count_buf with
      | None => Ret (Fail Status.kPeerDisconnected)
      | Some cb =>
          match get_u32 cb 0 with
          | Done peer_n =>
              if negb (peer_n =? le_n l) then Ret (Fail Status.kInvalidArgument)
              else RecvAll (length (le_qp_nums l) * kEpInfoBytes) (fun rx =>
                match rx with
                | None => Ret (Fail Status.kPeerDisconnected)
                | Some rx =>
                    match decode_eps (length (le_qp_nums l)) rx 0 with
                    | Done peers => after_hello l peers
                    | Fail e => Ret (Fail e)
                    | Oob => Ret Oob
                    end
                end)
          | Fail e => Ret (Fail e)
          | Oob => Ret Oob
          end
      end)).

(** ** Lemmas *)

Lemma get_bytes_skip k l post off n :
  (length l = k)%nat → (k <= off)%nat → get_bytes (l ++ post) off n = get_bytes post (off - k) n.
Proof.
  intros Hl Hk. unfold get_bytes. rewrite length_app, drop_app_ge by lia.
  replace (off - length l)%nat with (off - k)%nat by lia.
  repeat case_bool_decide; try done; lia.
Qed.

Lemma get_bytes_here n l post : length l = n → get_bytes (l ++ post) 0 n = Done l.
Proof.
  intros <-. unfold get_bytes. rewrite bool_decide_true by (rewrite length_app; lia).
  by rewrite drop_0, take_app_length.
Qed.

Lemma encode_ep_app e post : length (ep_gid e) = 16%nat →
  encode_ep e ++ post =
  le_bytes 2 (ep_major e) ++ le_bytes 2 (ep_minor e) ++ le_bytes 4 (ep_qp_num e)
  ++ le_bytes 2 (ep_lid e) ++ ep_gid e ++ le_bytes 4 (ep_psn e) ++ le_bytes 4 (ep_mtu e) ++ post.
Proof. intros H. unfold encode_ep. rewrite <- !app_assoc. by rewrite take_ge by lia. Qed.

Lemma length_encode_ep e : length (ep_gid e) = 16%nat → length (encode_ep e) = kEpInfoBytes.
Proof.
  intros H. unfold encode_ep. rewrite !length_app, !length_le_bytes, length_take, H. done.
Qed.

Lemma decode_ep_app pre e post p :
  ep_wf e → p = length pre → decode_ep (pre ++ encode_ep e ++ post) p = Done e.
Proof.
  intros (H1 & H2 & H3 & H4 & H5 & H6 & H7) ->. unfold decode_ep, get_u16, get_u32.
  rewrite !(get_le_drop pre) by lia. rewrite (get_bytes_skip (length pre)) by lia.
  rewrite Nat.sub_diag, !Nat.add_sub_swap, Nat.sub_diag by lia. cbn [Nat.add].
  rewrite encode_ep_app by done. rd_fields.
  rewrite (get_bytes_skip 2), (get_bytes_skip 2), (get_bytes_skip 4), (get_bytes_skip 2)
    by (rewrite ?length_le_bytes; lia). cbn [Nat.sub].
  rewrite get_bytes_here by done. cbn [res_bind].
  rewrite !(get_le_drop (ep_gid e)) by lia. rewrite H5. cbn [Nat.sub]. rd_fields. by destruct e.
Qed.

Lemma get_bytes_in_bounds buf off n : (off + n <= length buf)%nat → in_bounds (get_bytes buf off n).
Proof. intros H. unfold get_bytes. by rewrite bool_decide_true. Qed.

#[export] Hint Resolve get_bytes_in_bounds : hux.

Lemma decode_ep_in_bounds buf p : (p + kEpInfoBytes <= length buf)%nat → in_bounds (decode_ep buf p).
Proof.
  unfold kEpInfoBytes. intros H. unfold decode_ep, get_u16, get_u32.
  bounds; apply get_bytes_in_bounds; lia.
Qed.

Definition end_wf (l : LocalEnd) : Prop :=
  (0 < length (le_qp_nums l))%nat ∧ u32 (le_n l) ∧ Forall u32 (le_qp_nums l) ∧ u16 (le_lid l)
  ∧ length (le_gid l) = 16%nat ∧ u32 (le_active_mtu l).

Lemma my_endpoint_wf l q : end_wf l → u32 q → ep_wf (my_endpoint l q).
Proof.
  intros (_ & _ & _ & H1 & H2 & H3) Hq. unfold ep_wf; cbn. split_and!; auto;
    unfold uw, kWireMajor, kWireMinor; lia.
Qed.

Lemma decode_eps_app es pre i :
  Forall ep_wf es → length pre = (i * kEpInfoBytes)%nat →
  decode_eps (length es) (pre ++ concat (encode_ep <$> es)) i = Done es.
Proof.
  intros F. revert pre i. induction F as [|e es He F IH]; intros pre i Hp; [done|].
  cbn [length decode_eps fmap list_fmap concat]. rewrite decode_ep_app by done. cbn [res_bind].
  rewrite app_assoc, IH; [done|].
  rewrite length_app, length_encode_ep by apply He. lia.
Qed.

Lemma decode_eps_in_bounds n buf i :
  ((i + n) * kEpInfoBytes <= length buf)%nat → in_bounds (decode_eps n buf i).
Proof.
  revert i. induction n as [|n IH]; intros i H; [done|]. cbn [decode_eps].
  apply in_bounds_bind; [apply decode_ep_in_bounds; lia|]. intros e _.
  apply in_bounds_bind; [apply IH; lia|done].
Qed.

(** How a conversation that settled went. *)

Lemma after_hello_inv l p0 peers s g x :
  io_run (after_hello l (p0 :: peers)) s g (Done x) →
  ep_major p0 = kWireMajor
  ∧ (1 <= ep_minor p0 → s = features l ∧ length g = 4%nat
       ∧ ∃ f, get_u32 g 0 = Done f ∧ x = settle l (p0 :: peers) f).
Proof.
  unfold after_hello, check_wire_version. destruct (ep_major p0 =? kWireMajor) eqn:Em;
    [|intros H; by apply io_ret_inv in H as (_ & _ & ?)].
  b2p. cbn [negb]. rewrite bool_decide_true by done. cbn [negb].
  destruct (1 <=? ep_minor p0) eqn:E1; b2p; intros H; (split; [done|]); [|lia].
  intros _. apply io_send_inv in H as ([] & b & s' & -> & _ & Hb & H);
    [|by apply io_ret_inv in H as (_ & _ & ?)].
  rewrite Hb by done. cbn [negb] in H.
  apply io_recv_inv in H as (w & g' & -> & [[Hw H]|H]);
    apply io_ret_inv in H as (-> & -> & H); [|done].
  rewrite !app_nil_r. split_and!; [done|done|].
  destruct (get_u32 w 0) as [f| |]; try done. exists f. cbn [res_bind] in H.
  by injection H as <-.
Qed.

Lemma handshake_inv l s g x :
  io_run (handshake l) s g (Done x) →
  ∃ cb rx s' g' peers,
    s = hello l ++ s' ∧ g = cb ++ rx ++ g' ∧ length cb = 4%nat
    ∧ length rx = (length (le_qp_nums l) * kEpInfoBytes)%nat
    ∧ get_u32 cb 0 = Done (le_n l) ∧ decode_eps (length (le_qp_nums l)) rx 0 = Done peers
    ∧ io_run (after_hello l peers) s' g' (Done x).
Proof.
  intros H. apply io_send_inv in H as ([] & b & s' & -> & _ & Hb & H);
    [|by apply io_ret_inv in H as (_ & _ & ?)].
  rewrite Hb by done. cbn [negb] in H.
  apply io_recv_inv in H as (cb & g1 & -> & [[Hcb H]|H]); [|by apply io_ret_inv in H as (_ & _ & ?)].
  destruct (get_u32 cb 0) as [n| |] eqn:En; try by apply io_ret_inv in H as (_ & _ & ?).
  destruct (n =? le_n l) eqn:Enl; b2p; cbn [negb] in H; [|by apply io_ret_inv in H as (_ & _ & ?)]. subst.
  apply io_recv_inv in H as (rx & g2 & -> & [[Hrx H]|H]); [|by apply io_ret_inv in H as (_ & _ & ?)].
  destruct (decode_eps _ rx 0) as [peers| |] eqn:Ed; try by apply io_ret_inv in H as (_ & _ & ?).
  exists cb, rx, s', g2, peers. by split_and!.
Qed.

(** Reading what the other end says. *)

Lemma hello_read a b cb rx rest tl :
  end_wf a → end_wf b → length cb = 4%nat →
  length rx = (length (le_qp_nums a) * kEpInfoBytes)%nat → get_u32 cb 0 = Done (le_n a) →
  cb ++ rx ++ rest = hello b ++ tl →
  length (le_qp_nums a) = length (le_qp_nums b)
  ∧ rx = concat (encode_ep <$> (my_endpoint b <$> le_qp_nums b)) ∧ rest = tl.
Proof.
  intros (_ & Wa & _) Wb Hcb Hrx Hn E. unfold hello in E. rewrite <- app_assoc in E.
  apply app_inj_1 in E as [-> E]; [|by rewrite length_le_bytes].
  unfold get_u32 in Hn. rewrite get_le_end in Hn by apply Wb.
  assert (En : length (le_qp_nums a) = length (le_qp_nums b))
    by (injection Hn as Hn; unfold le_n in Hn; lia).
  rewrite list_fmap_compose in E. apply app_inj_1 in E as [-> ->]; [done|].
  rewrite Hrx, En. destruct Wb as (_ & _ & _ & _ & Wg & _). clear -Wg.
  induction (le_qp_nums b) as [|q l IH]; [done|]. cbn [fmap list_fmap concat length].
  rewrite length_app, length_encode_ep, <- IH by done. lia.
Qed.

(** What an end settles from a stream that starts with the other's [hello] and
    [features]. *)

Lemma settled_from a b s g x tl :
  end_wf a → end_wf b → io_run (handshake a) s g (Done x) → g ++ tl = hello b ++ features b →
  length (le_qp_nums a) = length (le_qp_nums b) ∧ s = hello a ++ features a
  ∧ x = mkSettled (my_endpoint b <$> le_qp_nums b) (le_ooo_rw a && le_ooo_rw b).
Proof.
  intros Wa Wb H E. apply handshake_inv in H as (cb & rx & s' & g' & peers & -> & -> & Hcb & Hrx
    & Hn & Hd & Hr). rewrite <- !app_assoc in E.
  destruct (hello_read a b cb rx (g' ++ tl) (features b)) as (En & -> & Eg); auto.
  rewrite En, <- (length_fmap (my_endpoint b) (le_qp_nums b)) in Hd.
  assert (Fe : Forall ep_wf (my_endpoint b <$> le_qp_nums b)).
  { apply list.Forall_fmap. eapply Forall_impl; [apply Wb|intros; by apply my_endpoint_wf]. }
  pose proof (decode_eps_app _ [] 0 Fe eq_refl) as D. cbn [app] in D. rewrite D in Hd.
  injection Hd as <-. split; [done|].
  destruct (le_qp_nums b) as [|q qs] eqn:Eq; [destruct Wb as [W0 _]; rewrite Eq in W0; cbn in W0; lia|].
  cbn [fmap list_fmap] in Hr |- *. apply after_hello_inv in Hr as (_ & Hr).
  destruct Hr as (-> & Hl & f & Hf & ->); [cbn; unfold kWireMinor; lia|].
  split; [done|]. unfold settle. f_equal.
  assert (Eg' : g' = features b).
  { rewrite <- (app_nil_r (features b)) in Eg. apply app_inj_1 in Eg as [-> _]; [done|].
    by rewrite Hl. }
  subst g'. unfold features, get_u32 in Hf. rewrite get_le_end in Hf by (destruct (le_ooo_rw b); uw_side).
  injection Hf as <-. by destruct (le_ooo_rw b).
Qed.

(** What an end that settled wrote begins with is its [hello] and [features],
    when the other end is of this version. *)

Lemma handshake_sent l s g r :
  io_run (handshake l) s g r → s `prefix_of` hello l ++ features l.
Proof.
  intros H. apply io_send_inv in H as (ok & b & s' & -> & Hp & Hb & H). destruct ok; cbn [negb] in H.
  2:{ apply io_ret_inv in H as (-> & _ & _). rewrite app_nil_r. by apply prefix_app_r. }
  rewrite Hb by done. apply prefix_app. clear Hp Hb.
  apply io_recv_inv in H as (cb & g1 & -> & [[Hcb H]|H]); [|apply io_ret_inv in H as (-> & _ & _);
    apply prefix_nil].
  destruct (get_u32 cb 0) as [n| |] eqn:En;
    [destruct (negb (n =? le_n l))|..]; try (apply io_ret_inv in H as (-> & _ & _); apply prefix_nil).
  apply io_recv_inv in H as (rx & g2 & -> & [[Hrx H]|H]);
    [|apply io_ret_inv in H as (-> & _ & _); apply prefix_nil].
  destruct (decode_eps _ rx 0) as [peers| |] eqn:Ed;
    try (apply io_ret_inv in H as (-> & _ & _); apply prefix_nil).
  unfold after_hello in H. destruct peers as [|p0 peers];
    [|destruct (negb _); [|destruct (1 <=? _)]];
    try (apply io_ret_inv in H as (-> & _ & _); apply prefix_nil).
  apply io_send_inv in H as (ok & f & s2 & -> & Hf & _ & H). 
  assert (s2 = []) as ->; [|by rewrite app_nil_r].
  destruct ok; cbn [negb] in H; [|by apply io_ret_inv in H as (? & _ & _)].
  by apply io_recv_inv in H as (w & g3 & -> & [[_ H]|H]); apply io_ret_inv in H as (? & _ & _).
Qed.

(** Whatever the other end sends, nothing is read past what arrived. *)

Lemma handshake_in_bounds l s g r :
  end_wf l → io_run (handshake l) s g r → in_bounds r.
Proof.
  intros Wl H. apply io_send_inv in H as ([] & b & s' & -> & _ & Hb & H); cbn [negb] in H;
    [|by apply io_ret_inv in H as (_ & _ & <-)].
  apply io_recv_inv in H as (cb & g1 & -> & [[Hcb H]|H]); [|by apply io_ret_inv in H as (_ & _ & <-)].
  unfold get_u32 in H. rewrite get_le_spec in H by lia.
  destruct (_ =? _); cbn [negb] in H; [|by apply io_ret_inv in H as (_ & _ & <-)].
  apply io_recv_inv in H as (rx & g2 & -> & [[Hrx H]|H]); [|by apply io_ret_inv in H as (_ & _ & <-)].
  destruct (decode_eps _ rx 0) as [peers| |] eqn:Ed; [|by apply io_ret_inv in H as (_ & _ & <-)|
    by destruct (decode_eps_in_bounds (length (le_qp_nums l)) rx 0 ltac:(lia))].
  destruct peers as [|p0 peers].
  { destruct (length (le_qp_nums l)) eqn:El; [destruct Wl; lia|]. cbn in Ed.
    destruct (decode_ep rx 0); cbn in Ed; try done. by destruct (decode_eps n rx 1). }
  unfold after_hello in H. destruct (negb _); [by apply io_ret_inv in H as (_ & _ & <-)|].
  destruct (1 <=? _); [|by apply io_ret_inv in H as (_ & _ & <-)].
  apply io_send_inv in H as ([] & f & s2 & -> & _ & _ & H); cbn [negb] in H;
    [|by apply io_ret_inv in H as (_ & _ & <-)].
  apply io_recv_inv in H as (w & g3 & -> & [[Hw H]|H]); apply io_ret_inv in H as (_ & _ & <-); [|done].
  unfold get_u32. by rewrite get_le_spec by lia.
Qed.

(** Against an end of this version that asked for as many queue pairs, an
    undisturbed conversation settles. *)

Lemma handshake_settles a b :
  end_wf a → end_wf b → length (le_qp_nums a) = length (le_qp_nums b) →
  io_run (handshake a) (hello a ++ features a) (hello b ++ features b)
    (Done (mkSettled (my_endpoint b <$> le_qp_nums b) (le_ooo_rw a && le_ooo_rw b))).
Proof.
  intros Wa Wb En. unfold handshake. apply run_send. cbn [negb]. unfold hello. rewrite <- app_assoc.
  apply run_recv; [by rewrite length_le_bytes|]. unfold get_u32.
  rewrite get_le_end by apply Wb. unfold le_n. rewrite En, Z.eqb_refl. cbn [negb].
  assert (Fe : Forall ep_wf (my_endpoint b <$> le_qp_nums b)).
  { apply list.Forall_fmap. eapply Forall_impl; [apply Wb|intros; by apply my_endpoint_wf]. }
  apply run_recv.
  - destruct Wb as (_ & _ & _ & _ & Wg & _). clear -Wg.
    induction (le_qp_nums b) as [|q l IH]; [done|]. cbn [fmap list_fmap concat length].
    rewrite length_app, IH. unfold compose. rewrite length_encode_ep by done. lia.
  - rewrite list_fmap_compose, <- (length_fmap (my_endpoint b) (le_qp_nums b)).
    pose proof (decode_eps_app _ [] 0 Fe eq_refl) as D. cbn [app] in D. rewrite D.
    destruct (le_qp_nums b) as [|q qs] eqn:Eq;
      [destruct Wb as [W0 _]; rewrite Eq in W0; cbn in W0; lia|].
    cbn [fmap list_fmap after_hello my_endpoint ep_major ep_minor].
    rewrite bool_decide_true by done. cbn [negb]. rewrite (proj2 (Z.leb_le _ _)) by done.
    rewrite <- (app_nil_r (features a)), <- (app_nil_r (features b)).
    apply run_send. cbn [negb]. apply run_recv; [apply length_le_bytes|].
    unfold features, get_u32.
    rewrite get_le_end by (destruct (le_ooo_rw b); uw_side). cbn [res_bind].
    replace (settle a _ _) with
      (mkSettled (my_endpoint b <$> q :: qs) (le_ooo_rw a && le_ooo_rw b)); [constructor|].
    unfold settle. by destruct (le_ooo_rw b).
Qed.

(** ** Ids *)

Lemma wr_id_fields qp seq : 0 <= qp < 2 ^ 15 → 0 <= seq < 2 ^ 48 →
  make_wr_id qp seq = qp * 2 ^ 48 + seq.
Proof.
  intros Hq Hs. unfold make_wr_id, kQpShift.
  rewrite wrapw_id by (rewrite Z.shiftl_mul_pow2 by lia; unfold uw; lia).
  change (Z.shiftl 1 48 - 1) with (Z.ones 48). rewrite Z.land_ones by lia.
  rewrite (Z.mod_small seq) by lia. rewrite Z.lor_comm.
  rewrite lor_shiftl_add by (unfold uw; lia). lia.
Qed.

Lemma wr_seq_make qp seq : 0 <= qp < 2 ^ 15 → 0 <= seq < 2 ^ 48 → wr_seq (make_wr_id qp seq) = seq.
Proof.
  intros Hq Hs. rewrite wr_id_fields by done. unfold wr_seq, kQpShift.
  change (Z.shiftl 1 48 - 1) with (Z.ones 48). rewrite Z.land_ones by lia.
  rewrite Z.add_comm, Z.mod_add by lia. apply Z.mod_small. lia.
Qed.

Lemma wr_qp_index_make qp seq :
  0 <= qp < 2 ^ 15 → 0 <= seq < 2 ^ 48 → wr_qp_index (make_wr_id qp seq) = qp.
Proof.
  intros Hq Hs. rewrite wr_id_fields by done. unfold wr_qp_index, kQpShift.
  rewrite Z.shiftr_div_pow2, Z.div_add_l, (Z.div_small seq) by lia.
  change 32767 with (Z.ones 15). rewrite Z.land_ones by lia. rewrite Z.mod_small; lia.
Qed.

(** Data ids are neither receives nor verifications. *)

Lemma data_id qp seq :
  0 <= qp < 2 ^ 14 → 0 <= seq < 2 ^ 48 →
  is_recv_id (make_wr_id qp seq) = false ∧ (make_wr_id qp seq =? kVerifyWrId) = false.
Proof.
  intros Hq Hs. rewrite wr_id_fields by lia. split.
  - unfold is_recv_id, kRecvWrId. apply negb_false_iff, Z.eqb_eq, Z.bits_inj'. intros i Hi.
    rewrite Z.land_spec, Z.bits_0, (Z.shiftl_spec _ _ _ Hi).
    destruct (decide (i = 63)) as [->|Hne].
    + rewrite (bits_high 63 (qp * 2 ^ 48 + seq) 63); [done|unfold uw; lia|lia].
    + rewrite <- (Z.shiftl_spec 1 63 i Hi), Z.shiftl_1_l, Z.pow2_bits_false by lia.
      apply andb_false_r.
  - apply Z.eqb_neq. unfold kVerifyWrId. rewrite Z.shiftl_mul_pow2 by lia. lia.
Qed.

(** ** Properties *)

(** C40: Both ends of a handshake settle the same connection.  Whatever each socket
    did, if both ends came out settled and what each read is what the other
    wrote (as far as it got), then they have as many queue pairs, each end holds
    the other's endpoints, in order, and both decided alike whether reads and
    writes may be placed out of order: exactly when both offer it.  An end that
    does not settle never reads past what it received. *)
Theorem handshake_agrees a b sa ga sb gb ra rb :
  end_wf a → end_wf b → io_run (handshake a) sa ga ra → io_run (handshake b) sb gb rb →
  ga `prefix_of` sb → gb `prefix_of` sa →
  (∀ x y, ra = Done x → rb = Done y →
     st_peers x = my_endpoint b <$> le_qp_nums b ∧ st_peers y = my_endpoint a <$> le_qp_nums a
     ∧ length (st_peers x) = length (st_peers y)
     ∧ st_ooo x = st_ooo y ∧ st_ooo x = le_ooo_rw a && le_ooo_rw b)
  ∧ in_bounds ra ∧ in_bounds rb.
Proof.
  intros Wa Wb Ha Hb Pa Pb. split;
    [|split; [exact (handshake_in_bounds _ _ _ _ Wa Ha)|exact (handshake_in_bounds _ _ _ _ Wb Hb)]].
  intros x y -> ->.
  destruct (transitivity Pa (handshake_sent _ _ _ _ Hb)) as [ta Ea].
  destruct (transitivity Pb (handshake_sent _ _ _ _ Ha)) as [tb Eb].
  destruct (settled_from a b sa ga x ta Wa Wb Ha (eq_sym Ea)) as (En & _ & ->).
  destruct (settled_from b a sb gb y tb Wb Wa Hb (eq_sym Eb)) as (_ & _ & ->). cbn.
  rewrite !length_fmap. split_and!; [done|done|done|apply andb_comm|done].
Qed.

(** A peer dials the address this end advertised: what [connect] reads from
    the metadata is the port and address [local_metadata] wrote, and on any
    other bytes it reads nothing outside them. *)
Theorem rdma_metadata_roundtrip port gid ip md :
  u16 port → u16 gid → u16 (Z.of_nat (String.length ip)) →
  parse_rdma_metadata (rdma_local_metadata port gid ip) = Done (port, ip)
  ∧ in_bounds (parse_rdma_metadata md).
Proof.
  intros Hp Hg Hi. split.
  - assert (Hl : length (bytes_of_string ip) = String.length ip).
    { unfold bytes_of_string. rewrite length_map. clear. induction ip; cbn; [done|by rewrite IHip]. }
    unfold parse_rdma_metadata, rdma_local_metadata, get_u16.
    rewrite bool_decide_false by (rewrite !length_app, !length_le_bytes; lia). rd_fields.
    rewrite !length_app, !length_le_bytes, Hl.
    rewrite (proj2 (Z.eqb_eq _ _)) by lia. cbn [negb].
    rewrite (get_bytes_skip 2), (get_bytes_skip 2), (get_bytes_skip 2)
      by (rewrite ?length_le_bytes; lia). cbn [Nat.sub].
    rewrite <- (app_nil_r (bytes_of_string ip)), get_bytes_here by lia. cbn [res_bind].
    by rewrite string_of_bytes_of_string.
  - unfold parse_rdma_metadata, get_u16. case_bool_decide; [done|].
    apply in_bounds_bind; [apply get_le_in_bounds; lia|]. intros p _.
    apply in_bounds_bind; [apply get_le_in_bounds; lia|]. intros n _.
    destruct (negb _) eqn:E; [done|]. b2p. apply in_bounds_bind; [apply get_bytes_in_bounds; lia|done].
Qed.

(** ** Samples *)

Module SampleWire.

(** Two ends with two queue pairs each; only the first offers out-of-order
    placement. *)

Definition end_a : LocalEnd := mkLocalEnd [17; 18] 0 (replicate 16 1) 5 true.
Definition end_b : LocalEnd := mkLocalEnd [400; 401] 0 (replicate 16 2) 3 false.

Lemma end_a_wf : end_wf end_a.
Proof. split_and!; cbn; try (unfold uw, le_n; cbn; lia). repeat constructor; unfold uw; lia. Qed.

Lemma end_b_wf : end_wf end_b.
Proof. split_and!; cbn; try (unfold uw, le_n; cbn; lia). repeat constructor; unfold uw; lia. Qed.

End SampleWire.

Lemma handshake_agrees_witness :
  Forall (fun x => st_ooo x = false)
    [mkSettled (my_endpoint SampleWire.end_b <$> [400; 401]) (true && false)].
Proof.
  destruct (handshake_agrees SampleWire.end_a SampleWire.end_b _ _ _ _ _ _ SampleWire.end_a_wf
    SampleWire.end_b_wf
    (handshake_settles _ _ SampleWire.end_a_wf SampleWire.end_b_wf eq_refl)
    (handshake_settles _ _ SampleWire.end_b_wf SampleWire.end_a_wf eq_refl)
    ltac:(done) ltac:(done)) as (H & _).
  destruct (H _ _ eq_refl eq_refl) as (_ & _ & _ & _ & E). constructor; [exact E|constructor].
Defined.

Lemma rdma_metadata_roundtrip_witness :
  parse_rdma_metadata (rdma_local_metadata 7471 3 "10.0.0.2"%string) = Done (7471, "10.0.0.2"%string).
Proof.
  refine (proj1 (rdma_metadata_roundtrip 7471 3 "10.0.0.2"%string [] _ _ _)); unfold uw; cbn; lia.
Defined.
