(* ===== verification/RdmaVerbs.v ===== *)
(** * The adapter and the sockets under the RDMA transport.

    libibverbs, the adapter's commands and the kernel's sockets are not this
    program's code: [Verbs W] and [Sockets W] are the calls the transport makes
    of them, on a world [W] that is theirs.  What the transport relies on of
    them is stated where it is used. *)

From stdpp Require Import base list gmap strings.
From S2P Require Import Prelude Types SocketIo Outbox.

(** ** Data of the verbs interface *)

(** A memory region: what names it to the adapter, here and from afar. *)

Record Mr : Type := mkMr { mr_id : Z; mr_lkey : Z; mr_rkey : Z }.

(** A send work request with its one scatter element. *)

Record SendWr : Type := mkSendWr {
  swr_id : Z;
  swr_addr : Z;
  swr_length : Z;
  swr_lkey : Z;
  swr_opcode : Z;
  swr_signaled : bool;
  swr_remote_addr : Z;
  swr_rkey : Z
}.

Definition IBV_WR_RDMA_WRITE : Z := 0.
Definition IBV_WR_SEND : Z := 2.
Definition IBV_WR_RDMA_READ : Z := 4.

(** A work completion. *)

Record Wc : Type := mkWc {
  wc_wr_id : Z;
  wc_status : Z;
  wc_opcode : Z;
  wc_qp_num : Z;
  wc_imm_data : Z
}.

Definition IBV_WC_RECV : Z := 128.
Definition IBV_WC_RECV_RDMA_WITH_IMM : Z := 129.

Definition ENOMEM : Z := 12.

(** What a queue pair is moved to. *)

Record AddressPath : Type := mkAddressPath {
  ap_global : bool;
  ap_dgid : list Z;
  ap_sgid_index : Z;
  ap_hop_limit : Z;
  ap_dlid : Z
}.

Inductive QpAttr : Type :=
| QpInit (port access_flags : Z)
| QpRtr (path_mtu dest_qp_num rq_psn max_dest_rd_atomic min_rnr_timer port : Z) (av : AddressPath)
| QpRts (timeout retry_cnt rnr_retry sq_psn max_rd_atomic : Z)
| QpErr.

(** What the out-of-order transitions are asked for. *)

Record Mlx5Connect : Type := mkMlx5Connect {
  mc_remote_qpn : Z;
  mc_path_mtu : Z;
  mc_port : Z;
  mc_sgid_index : Z;
  mc_hop_limit : Z;
  mc_dgid : list Z;
  mc_max_dest_rd_atomic : Z;
  mc_max_rd_atomic : Z;
  mc_min_rnr_timer : Z;
  mc_timeout : Z;
  mc_retry_cnt : Z;
  mc_rnr_retry : Z;
  mc_log_max_msg : Z
}.

(** ** The calls *)

(** Queue pairs are named by their number.  A call's zero result is success, as
    in verbs; [poll_cq] gives at most what it is asked for, or nothing for a
    negative result; [clock] is the steady clock in nanoseconds; [alloc_buffer] is
    where a vector's bytes are put. *)

Class Verbs (W : Type) : Type := {
  clock : W → W * Z;
  sleep_for : W → Z → W;
  create_qp : W → Z → Z → Z → W * option Z;
  destroy_qp : W → Z → W;
  modify_qp : W → Z → QpAttr → W * Z;
  connect_ooo_rw : W → Z → Mlx5Connect → W * Status.t;
  post_send : W → Z → SendWr → W * Z;
  post_recv : W → Z → W * Z;
  poll_cq : W → Z → W * option (list Wc);
  alloc_buffer : W → Z → W * Z;
  reg_mr : W → Z → Z → Z → W * (Mr + Z);
  dereg_mr : W → Mr → W * Z
}.

(** What one non-blocking [::recv] of the control channel gave. *)

Inductive CtrlRecv : Type :=
| CtrlGot (b : list Z)
| CtrlEof
| CtrlEintr
| CtrlEagain
| CtrlEother.

(** A socket's coming answers are a script per direction; [wrote] and [read_on]
    are the socket after a conversation took part of them, and [wrote] says what
    was written.  [dial] is [::socket], [::inet_pton] and [::connect]. *)

Class Sockets (W : Type) : Type := {
  dial : W → string → Z → W * (Status.t + Z);
  close_fd : W → Z → W;
  hs_answers : W → Z → list HsSend * list HsRecv;
  hs_after : W → Z → list Z → list HsSend * list HsRecv → W;
  send_answers : W → Z → list SendResult;
  wrote : W → Z → list Z → list SendResult → W;
  recv_answers : W → Z → list CtrlRecv;
  read_on : W → Z → list CtrlRecv → W
}.
