(* ===== verification/RdmaControl.v ===== *)
(** * Control messages over the RDMA transport's socket
    ([send_control] and [poll_control] of [src/transport/rdma/rdma_provider.cpp]).

    The sender makes one buffer of header and payload and posts it to its
    outbox; the reader collects whatever the socket has and takes whole messages
    off the front.  Proved here: however the stream is cut up, the messages come
    out as they went in. *)

From stdpp Require Import base list gmap strings numbers.
From S2P Require Import Prelude Types Wire Outbox Provider RdmaVerbs.

(** What [send_control] posts: a header of this version and the payload. *)

Definition control_frame (type : Z) (payload : list Z) : list Z :=
  encode_control_header
    (mkControlHeader kControlMajor kControlMinor type 0 (wrap32 (Z.of_nat (length payload))))
    (replicate kControlHeaderBytes 0 ++ payload).

(** The receive loop of [poll_control]: what is available, and whether the peer
    is found gone. *)

Definition kReadBytes : nat := 4096.

Fixpoint read_loop (s : list CtrlRecv) (rx : list Z) : list Z * bool * list CtrlRecv :=
  match s with
  | [] => (rx, false, [])
  | CtrlGot b :: s' =>
      let b := take kReadBytes b in
      if bool_decide (b = []) then (rx, true, s')
      else if bool_decide (length b < kReadBytes)%nat then (rx ++ b, false, s')
      else read_loop s' (rx ++ b)
  | CtrlEof :: s' => (rx, true, s')
  | CtrlEintr :: s' => read_loop s' rx
  | CtrlEagain :: s' => (rx, false, s')
  | CtrlEother :: s' => (rx, true, s')
  end.

(** The parse loop, for at most [room] messages.  Each turn takes at least a
    header off [rx], so [length rx] turns are enough; a read outside [rx] would
    be [Oob]. *)

Fixpoint parse_loop (fuel : nat) (id : ConnId) (room : nat) (rx : list Z)
    : rd (list ControlMessage * list Z) :=
  match fuel with
  | O => Done ([], rx)
  | S fuel =>
      if bool_decide (kControlHeaderBytes <= length rx)%nat && bool_decide (0 < room)%nat then
        match decode_control_header rx with
        | Fail _ => Done ([], [])
        | Oob => Oob
        | Done h =>
            let total := (kControlHeaderBytes + Z.to_nat (ch_payload_len h))%nat in
            if bool_decide (length rx < total)%nat then Done ([], rx)
            else
              let m := mkControlMessage 0 (ch_type h)
                (take (Z.to_nat (ch_payload_len h)) (drop kControlHeaderBytes rx)) (Some id) in
              r <~ parse_loop fuel id (room - 1) (drop total rx);;
              Done (m :: fst r, snd r)
        end
      else Done ([], rx)
  end.

Definition parse_messages (id : ConnId) (room : nat) (rx : list Z)
    : rd (list ControlMessage * list Z) :=
  parse_loop (S (length rx)) id room rx.

(** ** Frames *)

(** A message as its sender passed it to [send_control]. *)

Definition sendable (m : Z * list Z) : Prop :=
  u16 (fst m) ∧ Z.of_nat (length (snd m)) <= kControlMaxPayload.

Definition frame (m : Z * list Z) : list Z := control_frame (fst m) (snd m).

Definition received (id : ConnId) (m : Z * list Z) : ControlMessage :=
  mkControlMessage 0 (fst m) (snd m) (Some id).

Lemma frame_app m :
  frame m = le_bytes 2 kControlMajor ++ le_bytes 2 kControlMinor ++ le_bytes 2 (fst m)
    ++ le_bytes 2 0 ++ le_bytes 4 (wrap32 (Z.of_nat (length (snd m)))) ++ snd m.
Proof. unfold frame, control_frame. rewrite encode_control_header_app. reflexivity. Qed.

Lemma length_frame m : length (frame m) = (kControlHeaderBytes + length (snd m))%nat.
Proof. rewrite frame_app, !length_app, !length_le_bytes. done. Qed.

Lemma payload_u32 m : sendable m → u32 (Z.of_nat (length (snd m))).
Proof. intros [_ H]. unfold uw. change kControlMaxPayload with 65536 in H. lia. Qed.

Lemma decode_frame m rest : sendable m →
  decode_control_header (frame m ++ rest)
  = Done (mkControlHeader kControlMajor kControlMinor (fst m) 0 (Z.of_nat (length (snd m)))).
Proof.
  intros Hm. rewrite frame_app, wrapw_id by (by apply payload_u32). destruct Hm as [H1 H2].
  unfold decode_control_header, get_u16, get_u32. rewrite <- !app_assoc.
  assert (u32 (Z.of_nat (length (snd m)))) by (apply payload_u32; by split).
  rd_fields. rewrite Z.eqb_refl. cbn [negb]. rewrite (proj2 (Z.ltb_ge _ _)) by done. done.
Qed.

(** A buffer shorter than the next frame but holding its header: the header is
    read, and the message is waited for. *)

Lemma decode_header_prefix rx rx' :
  (kControlHeaderBytes <= length rx)%nat →
  decode_control_header (rx ++ rx') = decode_control_header rx.
Proof.
  intros H. unfold kControlHeaderBytes in H.
  assert (G : ∀ off n, (off + n <= 12)%nat →
    get_le (E := Status.t) (rx ++ rx') off n = get_le rx off n).
  { intros off n Hn. rewrite !get_le_spec by (rewrite ?length_app; lia).
    rewrite drop_app_le, take_app_le by (rewrite ?length_drop; lia). done. }
  unfold decode_control_header, get_u16, get_u32. rewrite !G by lia. done.
Qed.

Lemma parse_loop_spec fuel id room rx future msgs :
  Forall sendable msgs → rx ++ future = concat (frame <$> msgs) → (length rx < fuel)%nat →
  ∃ k rx', parse_loop fuel id room rx = Done (received id <$> take k msgs, rx')
    ∧ rx' ++ future = concat (frame <$> drop k msgs) ∧ (k <= length msgs)%nat
    ∧ (k = room ∨ (k < room)%nat ∧ ∀ m, head (drop k msgs) = Some m →
         (length rx' < length (frame m))%nat).
Proof.
  intros F. revert room rx fuel. induction F as [|m msgs Hm F IH]; intros room rx fuel E Hf;
    (destruct fuel as [|fuel]; [lia|]); cbn [parse_loop].
  - destruct rx; [|done]. exists 0%nat, []. cbn. split_and!; auto.
    destruct (decide (room = 0)%nat); [by left|right; split; [lia|done]].
  - cbn [fmap list_fmap concat] in E.
    destruct (bool_decide (0 < room)%nat) eqn:Er.
    2:{ apply bool_decide_eq_false in Er. rewrite andb_false_r. exists 0%nat, rx. cbn.
        split_and!; [done|done|lia|left; lia]. }
    apply bool_decide_eq_true in Er. rewrite andb_true_r.
    assert (Stop : (length rx < length (frame m))%nat →
      ∃ k rx', Done (E := Status.t) (@nil ControlMessage, rx)
          = Done (received id <$> take k (m :: msgs), rx')
        ∧ rx' ++ future = concat (frame <$> drop k (m :: msgs)) ∧ (k <= length (m :: msgs))%nat
        ∧ (k = room ∨ (k < room)%nat ∧ ∀ m', head (drop k (m :: msgs)) = Some m' →
             (length rx' < length (frame m'))%nat)).
    { intros Hs. exists 0%nat, rx. cbn. split_and!; auto; [lia|].
      right. split; [done|]. by intros ? [= <-]. }
    case_bool_decide as Hh; [|apply Stop; rewrite length_frame; lia].
    rewrite <- (decode_header_prefix rx future) by done. rewrite E, decode_frame by done.
    cbn [ch_payload_len]. rewrite Nat2Z.id.
    case_bool_decide as Ht; [apply Stop; by rewrite length_frame|].
    assert (Hrx : ∃ rest, rx = frame m ++ rest ∧ rest ++ future = concat (frame <$> msgs)).
    { assert (Hl : (length (frame m) <= length rx)%nat) by (rewrite length_frame; lia).
      exists (drop (length (frame m)) rx). rewrite <- (take_drop (length (frame m)) rx) in E at 1.
      rewrite <- app_assoc in E. apply app_inj_1 in E as [E1 E2]; [|rewrite length_take; lia].
      split; [|done]. by rewrite <- E1 at 1; rewrite take_drop. }
    destruct Hrx as (rest & -> & E2). rewrite length_app, length_frame in Hf, Ht.
    assert (D1 : drop (kControlHeaderBytes + length (snd m)) (frame m ++ rest) = rest).
    { rewrite <- length_frame. apply drop_app_length. }
    assert (D2 : take (length (snd m)) (drop kControlHeaderBytes (frame m ++ rest)) = snd m).
    { rewrite frame_app, <- !app_assoc. cbn [drop kControlHeaderBytes le_bytes app].
      apply take_app_length. }
    rewrite D1, D2. destruct (IH (room - 1)%nat rest fuel E2) as (k & rx' & Ek & E3 & Hk & Hstop).
    { unfold kControlHeaderBytes in Hf. lia. }
    rewrite Ek. cbn [res_bind fst snd]. exists (S k), rx'. cbn. split_and!; auto; [lia|].
    destruct Hstop as [->|[Hlt Hs]]; [left; lia|right; split; [lia|done]].
Qed.

(** ** A reader *)

Definition read_bytes (s : list CtrlRecv) : list Z := fst (fst (read_loop s [])).

Lemma read_loop_app s rx : fst (fst (read_loop s rx)) = rx ++ read_bytes s.
Proof.
  unfold read_bytes. revert rx. induction s as [|e s IH]; intros rx; cbn; [by rewrite app_nil_r|].
  destruct e as [b| | | |]; cbn; try (by rewrite app_nil_r); [|apply IH].
  case_bool_decide; [cbn; by rewrite app_nil_r|]. case_bool_decide; [done|].
  rewrite (IH (rx ++ _)), (IH (take _ _)). by rewrite app_assoc.
Qed.

(** Successive polls of one connection: what the socket answered each time, and
    how many messages the caller had room for. *)

Fixpoint reader_run (id : ConnId) (polls : list (list CtrlRecv * nat)) (rx : list Z)
    : rd (list ControlMessage * list Z) :=
  match polls with
  | [] => Done ([], rx)
  | (s, room) :: polls =>
      r <~ parse_messages id room (fst (fst (read_loop s rx)));;
      r' <~ reader_run id polls (snd r);;
      Done (fst r ++ fst r', snd r')
  end.

Definition arrived (polls : list (list CtrlRecv * nat)) : list Z :=
  concat ((fun q => read_bytes (fst q)) <$> polls).

Lemma reader_run_spec id polls rx future msgs :
  Forall sendable msgs → rx ++ arrived polls ++ future = concat (frame <$> msgs) →
  ∃ k rx', reader_run id polls rx = Done (received id <$> take k msgs, rx')
    ∧ rx' ++ future = concat (frame <$> drop k msgs) ∧ (k <= length msgs)%nat
    ∧ (∀ pre s room, polls = pre ++ [(s, room)] → future = [] → (length msgs <= room)%nat →
         k = length msgs ∧ rx' = []).
Proof.
  revert rx msgs. induction polls as [|[s room] polls IH]; intros rx msgs F E; cbn [reader_run].
  - exists 0%nat, rx. rewrite drop_0. split_and!; [done|done|lia|by intros []].
  - rewrite read_loop_app. unfold parse_messages.
    unfold arrived in E. cbn [fmap list_fmap concat fst] in E. fold (arrived polls) in E.
    rewrite <- app_assoc, app_assoc in E.
    destruct (parse_loop_spec (S (length (rx ++ read_bytes s))) id room (rx ++ read_bytes s)
      (arrived polls ++ future) msgs F E ltac:(lia)) as (k & rx1 & -> & E1 & Hk & Hstop).
    cbn [res_bind fst snd].
    destruct (IH rx1 (drop k msgs) ltac:(by apply Forall_drop) E1) as (k2 & rx2 & -> & E2 & Hk2 & Hl).
    cbn [res_bind fst snd]. rewrite drop_drop in E2. rewrite length_drop in Hk2, Hl.
    exists (k + k2)%nat, rx2. split_and!; [|done|lia|].
    + do 2 f_equal. rewrite <- fmap_app. f_equal.
      rewrite <- (take_take_drop msgs k k2). done.
    + intros pre s' room' HL -> Hroom. destruct pre as [|q pre].
      * cbn in HL. injection HL as <- <- ->. cbn [arrived fmap list_fmap concat app] in E1.
        rewrite app_nil_r in E1.
        assert (k = length msgs).
        { destruct Hstop as [->|[Hlt Hs]]; [lia|]. destruct (drop k msgs) as [|m rest] eqn:Ed.
          - apply (f_equal length) in Ed. rewrite length_drop in Ed. cbn in Ed. lia.
          - specialize (Hs m eq_refl). cbn [fmap list_fmap concat] in E1.
            rewrite E1, length_app in Hs. lia. }
        subst k. assert (k2 = 0%nat) as -> by lia. rewrite Nat.add_0_r in *. split; [done|].
        rewrite drop_all in E2. cbn in E2. by apply app_nil in E2 as [-> _].
      * cbn in HL. injection HL as <- ->.
        destruct (Hl pre s' room' eq_refl eq_refl ltac:(lia)) as [-> ->].
        split; [lia|done].
Qed.

(** ** Properties *)

(** C28: Control messages arrive whole, in order and once, end to end.  A sender
    posts messages to its outbox in any sequence, over a socket that takes what
    it likes when it likes; the reader is given the bytes in any pieces, over any
    number of polls with any room for messages.  What the reader has delivered is
    the accepted messages, as sent, up to some point; it never reads outside its
    buffer; and once every byte has been sent and read, a poll with room for them
    has delivered all of them and holds nothing back. *)
Theorem control_stream_intact fd lim ops msgs id polls :
  0 <= fd → Forall sendable msgs →
  run_accepted (outbox_run ops (fresh_run fd lim)) = frame <$> msgs →
  broken (run_box (outbox_run ops (fresh_run fd lim))) = false →
  arrived polls `prefix_of` run_wire (outbox_run ops (fresh_run fd lim)) →
  ∃ k rx, reader_run id polls [] = Done (received id <$> take k msgs, rx)
    ∧ (∀ pre s room, polls = pre ++ [(s, room)] →
         owed (run_box (outbox_run ops (fresh_run fd lim))) = [] →
         arrived polls = run_wire (outbox_run ops (fresh_run fd lim)) →
         (length msgs <= room)%nat → k = length msgs ∧ rx = []).
Proof.
  intros Hfd F Ea Hb [unread Ew].
  destruct (any_run_inv fd lim ops Hfd) as (m & _ & _ & _ & _ & S & _). specialize (S Hb).
  rewrite Ea, Ew, <- app_assoc in S.
  destruct (reader_run_spec id polls [] _ msgs F S) as (k & rx & Er & _ & _ & Hall).
  exists k, rx. split; [done|]. intros pre s room Hp Ho Har Hroom. eapply Hall; [done| |done].
  rewrite Ho, app_nil_r. rewrite <- Har in Ew. 
  rewrite <- (app_nil_r (arrived polls)) in Ew at 1. by apply app_inv_head in Ew.
Qed.

(** ** Samples *)

Module SampleControl.

Definition msgs : list (Z * list Z) := [(2, [10; 11; 12]); (1, []); (3, [7])].

(** The socket takes five bytes, then one, then the rest. *)

Definition ops : list OutboxOp :=
  [OpPost (frame (2, [10; 11; 12])) [Room 5; Eagain]; OpPost (frame (1, [])) [Room 1; Eagain];
   OpPost (frame (3, [7])) [Eintr; Eagain]; OpFlush [Room 100; Room 100; Room 100]].

(** The reader gets the first twenty bytes, then the rest. *)

Definition wire : list Z := concat (frame <$> msgs).

Definition polls : list (list CtrlRecv * nat) :=
  [([CtrlGot (take 20 wire)], 8%nat); ([CtrlEintr; CtrlGot (drop 20 wire)], 8%nat)].

End SampleControl.

Lemma control_stream_intact_witness :
  reader_run 4 SampleControl.polls [] = Done (received 4 <$> SampleControl.msgs, []).
Proof.
  destruct (control_stream_intact 9 1024 SampleControl.ops SampleControl.msgs 4
    SampleControl.polls) as (k & rx & E & H).
  - lia.
  - repeat constructor; cbn; unfold uw; try lia; vm_compute; discriminate.
  - vm_compute. reflexivity.
  - vm_compute. reflexivity.
  - exists []. vm_compute. reflexivity.
  - destruct (H [([CtrlGot (take 20 SampleControl.wire)], 8%nat)] _ 8%nat eq_refl
      ltac:(vm_compute; reflexivity) ltac:(vm_compute; reflexivity) ltac:(cbn; lia)) as [-> ->].
    exact E.
Defined.
