(* ===== verification/RdmaProvider.v ===== *)
(** * The RDMA transport ([src/transport/rdma/rdma_provider.{h,cpp}]).

    The provider's own state is a record; the adapter and the sockets are the
    world [W] of [RdmaVerbs], the congestion controller any [C] with the
    interface of [Congestion].  A connection is an object other components hold,
    so it is named by a [ConnId] and kept in [rp_conns]; a [weak_ptr] to one that
    is gone is an id no longer there. *)

From stdpp Require Import base list gmap strings numbers pretty.
From S2P Require Import Prelude Float64 Types Wire SocketIo Outbox Provider Congestion RdmaWire.
From S2P Require Import RdmaVerbs RdmaControl.

(** The fields the operations below read. *)

Record RdmaConfig : Type := mkRdmaConfig {
  rg_ib_port : Z;
  rg_qp_per_conn : Z;
  rg_signal_period : Z;
  rg_cq_depth : Z;
  rg_sq_depth : Z;
  rg_rq_depth : Z;
  rg_max_sge : Z;
  rg_advertise_ip : string;
  rg_verify_timeout_ms : Z;
  rg_nic_ordinal : Z;
  rg_relative_capacity : f64
}.

(** What opening the device found. *)

Record PortInfo : Type := mkPortInfo {
  pi_lid : Z;
  pi_active_mtu : Z;
  pi_max_msg_sz : Z;
  pi_ethernet : bool;
  pi_local_gid : list Z;
  pi_gid_index : Z;
  pi_ooo_rw : bool;
  pi_log_max_msg : Z;
  pi_ooo_hop_limit : Z;
  pi_listen_port : Z
}.

Record InflightKey : Type := mkInflightKey {
  ik_request : Z;
  ik_sub_id : Z;
  ik_is_write : bool;
  ik_bytes : Z;
  ik_posted_at : Z
}.

(** Sequence numbers are [uint64_t]; [qp_unsignalled] is the deque, oldest first. *)

Record QueuePair : Type := mkQp {
  qp_num : Z;
  qp_posted : Z;
  qp_reclaimed : Z;
  qp_since_signal : Z;
  qp_unsignalled : list (Z * InflightKey)
}.

Record RdmaConnection : Type := mkRdmaConn {
  rc_qps : list QueuePair;
  rc_remote : list RdmaEndpointInfo;
  rc_next_qp : nat;
  rc_failed : bool;
  rc_recv_mr : option Mr;
  rc_peer_closed : bool;
  rc_ctrl_fd : Z;
  rc_ooo_rw : bool;
  rc_outbox : ControlOutbox;
  rc_rx : list Z
}.

Definition with_qps (x : list QueuePair) (c : RdmaConnection) : RdmaConnection :=
  mkRdmaConn x (rc_remote c) (rc_next_qp c) (rc_failed c) (rc_recv_mr c) (rc_peer_closed c)
    (rc_ctrl_fd c) (rc_ooo_rw c) (rc_outbox c) (rc_rx c).

Definition with_next_qp (x : nat) (c : RdmaConnection) : RdmaConnection :=
  mkRdmaConn (rc_qps c) (rc_remote c) x (rc_failed c) (rc_recv_mr c) (rc_peer_closed c)
    (rc_ctrl_fd c) (rc_ooo_rw c) (rc_outbox c) (rc_rx c).

Definition with_failed (x : bool) (c : RdmaConnection) : RdmaConnection :=
  mkRdmaConn (rc_qps c) (rc_remote c) (rc_next_qp c) x (rc_recv_mr c) (rc_peer_closed c)
    (rc_ctrl_fd c) (rc_ooo_rw c) (rc_outbox c) (rc_rx c).

Definition with_recv_mr (x : option Mr) (c : RdmaConnection) : RdmaConnection :=
  mkRdmaConn (rc_qps c) (rc_remote c) (rc_next_qp c) (rc_failed c) x (rc_peer_closed c)
    (rc_ctrl_fd c) (rc_ooo_rw c) (rc_outbox c) (rc_rx c).

Definition with_peer_closed (x : bool) (c : RdmaConnection) : RdmaConnection :=
  mkRdmaConn (rc_qps c) (rc_remote c) (rc_next_qp c) (rc_failed c) (rc_recv_mr c) x (rc_ctrl_fd
    c) (rc_ooo_rw c) (rc_outbox c) (rc_rx c).

Definition with_outbox (x : ControlOutbox) (c : RdmaConnection) : RdmaConnection :=
  mkRdmaConn (rc_qps c) (rc_remote c) (rc_next_qp c) (rc_failed c) (rc_recv_mr c)
    (rc_peer_closed c) (rc_ctrl_fd c) (rc_ooo_rw c) x (rc_rx c).

Definition with_rx (x : list Z) (c : RdmaConnection) : RdmaConnection :=
  mkRdmaConn (rc_qps c) (rc_remote c) (rc_next_qp c) (rc_failed c) (rc_recv_mr c)
    (rc_peer_closed c) (rc_ctrl_fd c) (rc_ooo_rw c) (rc_outbox c) x.

Section Rdma.
Context {W C : Type} `{Verbs W} `{Sockets W} `{CongestionController C}.

Record RdmaProvider : Type := mkRdma {
  rp_cfg : RdmaConfig;
  rp_port : PortInfo;
  rp_cc : C;
  rp_world : W;
  rp_regions : gmap Z Mr;
  rp_next_key : Z;
  rp_stats : ProviderStats;
  rp_stashed : list Wc;
  rp_verify_done : gmap Z Z;
  rp_arrivals : list PeerArrival;
  rp_conn_by_qp : gmap Z ConnId;
  rp_ctrl_conns : list ConnId;
  rp_conns : gmap ConnId RdmaConnection
}.

Definition with_cc (x : C) (p : RdmaProvider) : RdmaProvider :=
  mkRdma (rp_cfg p) (rp_port p) x (rp_world p) (rp_regions p) (rp_next_key p) (rp_stats p)
    (rp_stashed p) (rp_verify_done p) (rp_arrivals p) (rp_conn_by_qp p) (rp_ctrl_conns p)
    (rp_conns p).

Definition with_world (x : W) (p : RdmaProvider) : RdmaProvider :=
  mkRdma (rp_cfg p) (rp_port p) (rp_cc p) x (rp_regions p) (rp_next_key p) (rp_stats p)
    (rp_stashed p) (rp_verify_done p) (rp_arrivals p) (rp_conn_by_qp p) (rp_ctrl_conns p)
    (rp_conns p).

Definition with_rregions (x : gmap Z Mr) (p : RdmaProvider) : RdmaProvider :=
  mkRdma (rp_cfg p) (rp_port p) (rp_cc p) (rp_world p) x (rp_next_key p) (rp_stats p)
    (rp_stashed p) (rp_verify_done p) (rp_arrivals p) (rp_conn_by_qp p) (rp_ctrl_conns p)
    (rp_conns p).

Definition with_rnext_key (x : Z) (p : RdmaProvider) : RdmaProvider :=
  mkRdma (rp_cfg p) (rp_port p) (rp_cc p) (rp_world p) (rp_regions p) x (rp_stats p) (rp_stashed
    p) (rp_verify_done p) (rp_arrivals p) (rp_conn_by_qp p) (rp_ctrl_conns p) (rp_conns p).

Definition with_rstats (x : ProviderStats) (p : RdmaProvider) : RdmaProvider :=
  mkRdma (rp_cfg p) (rp_port p) (rp_cc p) (rp_world p) (rp_regions p) (rp_next_key p) x
    (rp_stashed p) (rp_verify_done p) (rp_arrivals p) (rp_conn_by_qp p) (rp_ctrl_conns p)
    (rp_conns p).

Definition with_stashed (x : list Wc) (p : RdmaProvider) : RdmaProvider :=
  mkRdma (rp_cfg p) (rp_port p) (rp_cc p) (rp_world p) (rp_regions p) (rp_next_key p) (rp_stats
    p) x (rp_verify_done p) (rp_arrivals p) (rp_conn_by_qp p) (rp_ctrl_conns p) (rp_conns p).

Definition with_verify_done (x : gmap Z Z) (p : RdmaProvider) : RdmaProvider :=
  mkRdma (rp_cfg p) (rp_port p) (rp_cc p) (rp_world p) (rp_regions p) (rp_next_key p) (rp_stats
    p) (rp_stashed p) x (rp_arrivals p) (rp_conn_by_qp p) (rp_ctrl_conns p) (rp_conns p).

Definition with_rarrivals (x : list PeerArrival) (p : RdmaProvider) : RdmaProvider :=
  mkRdma (rp_cfg p) (rp_port p) (rp_cc p) (rp_world p) (rp_regions p) (rp_next_key p) (rp_stats
    p) (rp_stashed p) (rp_verify_done p) x (rp_conn_by_qp p) (rp_ctrl_conns p) (rp_conns p).

Definition with_conn_by_qp (x : gmap Z ConnId) (p : RdmaProvider) : RdmaProvider :=
  mkRdma (rp_cfg p) (rp_port p) (rp_cc p) (rp_world p) (rp_regions p) (rp_next_key p) (rp_stats
    p) (rp_stashed p) (rp_verify_done p) (rp_arrivals p) x (rp_ctrl_conns p) (rp_conns p).

Definition with_ctrl_conns (x : list ConnId) (p : RdmaProvider) : RdmaProvider :=
  mkRdma (rp_cfg p) (rp_port p) (rp_cc p) (rp_world p) (rp_regions p) (rp_next_key p) (rp_stats
    p) (rp_stashed p) (rp_verify_done p) (rp_arrivals p) (rp_conn_by_qp p) x (rp_conns p).

Definition with_conns (x : gmap ConnId RdmaConnection) (p : RdmaProvider) : RdmaProvider :=
  mkRdma (rp_cfg p) (rp_port p) (rp_cc p) (rp_world p) (rp_regions p) (rp_next_key p) (rp_stats
    p) (rp_stashed p) (rp_verify_done p) (rp_arrivals p) (rp_conn_by_qp p) (rp_ctrl_conns p) x.

Definition in_conn (id : ConnId) (f : RdmaConnection → RdmaConnection) (p : RdmaProvider)
    : RdmaProvider :=
  with_conns (alter f id (rp_conns p)) p.

Definition mark_failed : RdmaConnection → RdmaConnection := with_failed true.
Definition mark_peer_closed : RdmaConnection → RdmaConnection := with_peer_closed true.

(** ** Queue pairs *)

Definition qp_used (q : QueuePair) : Z := wrap64 (qp_posted q - qp_reclaimed q).

Definition qp_room (depth : Z) (q : QueuePair) : Z :=
  if depth <=? qp_used q then 0 else depth - qp_used q.

Definition submit_capacity (depth : Z) (c : RdmaConnection) : Z :=
  wrap32 (foldl (fun room q => wrap64 (room + qp_room depth q)) 0 (rc_qps c)).

(** [idxs] are the queue pairs in the order they are looked at. *)

Fixpoint pick_loop (depth : Z) (qps : list QueuePair) (idxs : list nat) (best : option nat)
    (best_room : Z) : option nat :=
  match idxs with
  | [] => best
  | i :: idxs =>
      match qps !! i with
      | None => pick_loop depth qps idxs best best_room
      | Some q =>
          if best_room <? qp_room depth q
          then pick_loop depth qps idxs (Some i) (qp_room depth q)
          else pick_loop depth qps idxs best best_room
      end
  end.

Definition rotation (n start : nat) : list nat := (fun i => (start + i) mod n)%nat <$> seq 0 n.

Definition pick_queue_pair_locked (depth : Z) (c : RdmaConnection) : RdmaConnection * option nat :=
  let n := length (rc_qps c) in
  (with_next_qp ((rc_next_qp c + 1) mod n)%nat c,
   pick_loop depth (rc_qps c) (rotation n (rc_next_qp c)) None 0).

(** ** Submitting *)

Definition op_dir (op : SubOp) : CcDirection.t :=
  if bool_decide (op_kind op = SubOpKind.kWrite) then CcDirection.kWrite else CcDirection.kRead.

Record Planned : Type := mkPlanned {
  pl_qp_index : nat;
  pl_op : SubOp;
  pl_signal : bool;
  pl_mr : Mr
}.

(** The planning loop's variables: the world, the controller, the connection
    (whose rotation moves), and the vectors [next_seq], [since], [last_on_qp]
    and [plan]. *)

Record Planning : Type := mkPlanning {
  pn_world : W;
  pn_cc : C;
  pn_conn : RdmaConnection;
  pn_next_seq : list Z;
  pn_since : list Z;
  pn_last : list (option nat);
  pn_plan : list Planned
}.

Definition start_planning (w : W) (cc : C) (c : RdmaConnection) : Planning :=
  mkPlanning w cc c (qp_posted <$> rc_qps c) (qp_since_signal <$> rc_qps c)
    (replicate (length (rc_qps c)) None) [].

Definition with_picked (w : W) (c : RdmaConnection) (s : Planning) : Planning :=
  mkPlanning w (pn_cc s) c (pn_next_seq s) (pn_since s) (pn_last s) (pn_plan s).

Definition at0 (l : list Z) (i : nat) : Z := default 0 (l !! i).

(** The operation takes its place on queue pair [qi], of which [used] entries
    are taken. *)

Definition plan_push (cfg : RdmaConfig) (cc : C) (qi : nat) (used : Z) (op : SubOp) (mr : Mr)
    (s : Planning) : Planning :=
  let depth := rg_sq_depth cfg in
  let signal := (rg_signal_period cfg <=? wrap32 (at0 (pn_since s) qi + 1))
                || (depth - depth / 4 <=? wrap64 (used + 1)) in
  mkPlanning (pn_world s) cc (pn_conn s)
    (<[qi := wrap64 (at0 (pn_next_seq s) qi + 1)]> (pn_next_seq s))
    (<[qi := if signal then 0 else wrap32 (at0 (pn_since s) qi + 1)]> (pn_since s))
    (<[qi := Some (length (pn_plan s))]> (pn_last s))
    (pn_plan s ++ [mkPlanned qi op signal mr]).

(** [kOk]: planned; any other status ends the planning. *)

Definition plan_one (cfg : RdmaConfig) (regions : gmap Z Mr) (op : SubOp) (s : Planning)
    : Planning * Status.t :=
  match regions !! op_local_key op with
  | None => (s, Status.kNotFound)
  | Some mr =>
      let depth := rg_sq_depth cfg in
      let '(c, picked) := pick_queue_pair_locked depth (pn_conn s) in
      let s := with_picked (pn_world s) c s in
      match picked with
      | None => (s, Status.kWouldBlock)
      | Some qi =>
          match rc_qps c !! qi with
          | None => (s, Status.kWouldBlock)
          | Some q =>
              let used := wrap64 (at0 (pn_next_seq s) qi - qp_reclaimed q) in
              if depth <=? used then (s, Status.kWouldBlock)
              else
                let '(w, now) := clock (pn_world s) in
                let s := with_picked w c s in
                if negb (bool_decide
                     (allow (pn_cc s) (op_dir op) (op_length op) now = CcVerdict.kAllowed))
                then (s, Status.kWouldBlock)
                else
                  let cc := on_post (pn_cc s) (op_dir op) (op_length op) now in
                  (plan_push cfg cc qi used op mr s, Status.kOk)
          end
      end
  end.

Fixpoint plan_loop (cfg : RdmaConfig) (regions : gmap Z Mr) (ops : list SubOp) (s : Planning)
    : Planning * Status.t :=
  match ops with
  | [] => (s, Status.kOk)
  | op :: ops =>
      let '(s, st) := plan_one cfg regions op s in
      if bool_decide (st = Status.kOk) then plan_loop cfg regions ops s else (s, st)
  end.

Definition set_signal (p : Planned) : Planned :=
  mkPlanned (pl_qp_index p) (pl_op p) true (pl_mr p).

(** Every queue pair the batch touched ends with a signalled operation. *)

Definition mark_anchors (last : list (option nat)) (plan : list Planned) : list Planned :=
  foldl (fun plan o => if o is Some k then alter set_signal k plan else plan) plan last.

Definition make_wr (p : Planned) (seq : Z) : SendWr :=
  mkSendWr (make_wr_id (Z.of_nat (pl_qp_index p)) seq) (op_local_addr (pl_op p))
    (wrap32 (op_length (pl_op p))) (mr_lkey (pl_mr p))
    (if bool_decide (op_kind (pl_op p) = SubOpKind.kWrite) then IBV_WR_RDMA_WRITE
     else IBV_WR_RDMA_READ)
    (pl_signal p) (op_remote_addr (pl_op p)) (wrap32 (op_remote_key (pl_op p))).

Definition op_key (op : SubOp) (posted_at : Z) : InflightKey :=
  mkInflightKey (op_request op) (op_sub_id op) (bool_decide (op_kind op = SubOpKind.kWrite))
    (op_length op) posted_at.

Definition posted_qp (p : Planned) (posted_at : Z) (q : QueuePair) : QueuePair :=
  mkQp (qp_num q) (wrap64 (qp_posted q + 1)) (qp_reclaimed q)
    (if pl_signal p then 0 else wrap32 (qp_since_signal q + 1))
    (qp_unsignalled q ++ [(qp_posted q, op_key (pl_op p) posted_at)]).

(** How many were posted, and what the refused post answered. *)

Fixpoint rpost_loop (plan : list Planned) (w : W) (qps : list QueuePair) (st : ProviderStats)
    (done : nat) : W * list QueuePair * ProviderStats * nat * option Z :=
  match plan with
  | [] => (w, qps, st, done, None)
  | p :: plan =>
      match qps !! pl_qp_index p with
      | None => (w, qps, st, done, None)
      | Some q =>
          let '(w, rc) := post_send w (qp_num q) (make_wr p (qp_posted q)) in
          if negb (rc =? 0) then (w, qps, st, done, Some rc)
          else
            let '(w, posted_at) := clock w in
            rpost_loop plan w (<[pl_qp_index p := posted_qp p posted_at q]> qps)
              (count_posted st (op_length (pl_op p)) 0) (S done)
      end
  end.

(** Budget of what was planned and not posted. *)

Fixpoint release_unposted (plan : list Planned) (w : W) (cc : C) : W * C :=
  match plan with
  | [] => (w, cc)
  | p :: plan =>
      let '(w, now) := clock w in
      release_unposted plan w (on_error cc (op_dir (pl_op p)) (op_length (pl_op p)) now)
  end.

Definition post_status (rc : Z) : Status.t :=
  if rc =? ENOMEM then Status.kWouldBlock else Status.kTransportError.

Definition rdma_submit (p : RdmaProvider) (id : ConnId) (ops : list SubOp)
    : RdmaProvider * SubmitResult :=
  match rp_conns p !! id with
  | None => (p, mkSubmitResult 0 Status.kInvalidArgument 0)
  | Some c =>
      if rc_failed c then (p, mkSubmitResult 0 Status.kPeerDisconnected 0)
      else if bool_decide (ops = []) then (p, mkSubmitResult 0 Status.kOk 0)
      else if submit_capacity (rg_sq_depth (rp_cfg p)) c =? 0
      then (p, mkSubmitResult 0 Status.kWouldBlock 0)
      else
        let '(s, st) := plan_loop (rp_cfg p) (rp_regions p) ops
          (start_planning (rp_world p) (rp_cc p) c) in
        let plan := mark_anchors (pn_last s) (pn_plan s) in
        let '(w, qps, stats, done, rc) :=
          rpost_loop plan (pn_world s) (rc_qps (pn_conn s)) (rp_stats p) 0 in
        let '(w, cc) := release_unposted (drop done plan) w (pn_cc s) in
        let p := with_world w (with_cc cc (with_rstats stats p)) in
        (with_conns (<[id := with_qps qps (pn_conn s)]> (rp_conns p)) p,
         match rc with
         | None => mkSubmitResult done st 0
         | Some rc => mkSubmitResult done (post_status rc) rc
         end)
  end.

(** ** Completions *)

Definition stash_completion (wc : Wc) (p : RdmaProvider) : RdmaProvider :=
  with_stashed (rp_stashed p ++ [wc]) p.

(** [None]: a negative answer. *)

Definition drain_cq (max : Z) (p : RdmaProvider) : RdmaProvider * option (list Wc) :=
  if max <=? 0 then (p, Some [])
  else let '(w, r) := poll_cq (rp_world p) max in (with_world w p, r).

Definition ntohl (x : Z) : Z := le_val (rev (le_bytes 4 x)).

Definition repost_receive (p : RdmaProvider) (c : RdmaConnection) : RdmaProvider * Status.t :=
  match rc_recv_mr c, rc_qps c with
  | Some _, q :: _ =>
      let '(w, rc) := post_recv (rp_world p) (qp_num q) in
      (with_world w p, if rc =? 0 then Status.kOk else Status.kTransportError)
  | _, _ => (p, Status.kUnsupported)
  end.

Definition absorb_receive (wc : Wc) (p : RdmaProvider) : RdmaProvider :=
  let p :=
    if (wc_status wc =? IBV_WC_SUCCESS) && (wc_opcode wc =? IBV_WC_RECV_RDMA_WITH_IMM)
    then with_rarrivals (rp_arrivals p ++ [mkPeerArrival (ntohl (wc_imm_data wc)) 0]) p
    else p in
  if negb (wc_status wc =? IBV_WC_SUCCESS) then p
  else
    match rp_conn_by_qp p !! wc_qp_num wc ≫= (rp_conns p !!.) with
    | None => p
    | Some c => fst (repost_receive p c)
    end.

Definition note_verified (qp_num st : Z) (p : RdmaProvider) : RdmaProvider :=
  with_verify_done (<[qp_num := st]> (rp_verify_done p)) p.

Definition take_verified (qp_num : Z) (p : RdmaProvider) : RdmaProvider * option Z :=
  match rp_verify_done p !! qp_num with
  | None => (p, None)
  | Some st => (with_verify_done (delete qp_num (rp_verify_done p)) p, Some st)
  end.

Definition key_dir (k : InflightKey) : CcDirection.t :=
  if ik_is_write k then CcDirection.kWrite else CcDirection.kRead.

Definition retired_event (wcs : Z) (k : InflightKey) : CompletionEvent :=
  let '(st, modified) := status_from_wc wcs in
  mkCompletionEvent (ik_request k) (ik_sub_id k) (ik_bytes k) st (to_i32 (wrap32 wcs))
    (modified && ik_is_write k).

Definition retire_cc (st : Status.t) (now : Z) (k : InflightKey) (cc : C) : C :=
  if bool_decide (st = Status.kOk)
  then on_feedback cc (key_dir k) (ik_bytes k) (now - ik_posted_at k) now
  else on_error cc (key_dir k) (ik_bytes k) now.

(** What is left on the queue pair, and what was retired: everything up to
    [seq], with one status. *)

Fixpoint retire (wcs seq now : Z) (us : list (Z * InflightKey)) (cc : C) (stats : ProviderStats)
    : list (Z * InflightKey) * C * ProviderStats * list CompletionEvent :=
  match us with
  | (s, k) :: rest =>
      if s <=? seq then
        let ev := retired_event wcs k in
        let stats := if bool_decide (ev_status ev = Status.kOk) then count_completed stats
                     else count_failed stats in
        let '(us', cc', stats', evs) :=
          retire wcs seq now rest (retire_cc (ev_status ev) now k cc) stats in
        (us', cc', stats', ev :: evs)
      else (us, cc, stats, [])
  | [] => ([], cc, stats, [])
  end.

Definition retired_qp (us : list (Z * InflightKey)) (seq : Z) (q : QueuePair) : QueuePair :=
  mkQp (qp_num q) (qp_posted q) (wrap64 (seq + 1)) (qp_since_signal q) us.

Definition data_completion (wc : Wc) (p : RdmaProvider) : RdmaProvider * list CompletionEvent :=
  match rp_conn_by_qp p !! wc_qp_num wc with
  | None => (p, [])
  | Some id =>
      let p := if negb (wc_status wc =? IBV_WC_SUCCESS) then in_conn id mark_failed p else p in
      match rp_conns p !! id with
      | None => (p, [])
      | Some c =>
          let i := Z.to_nat (wr_qp_index (wc_wr_id wc)) in
          let seq := wr_seq (wc_wr_id wc) in
          match rc_qps c !! i with
          | None => (p, [])
          | Some q =>
              let '(w, now) := clock (rp_world p) in
              let '(us, cc, stats, evs) :=
                retire (wc_status wc) seq now (qp_unsignalled q) (rp_cc p) (rp_stats p) in
              let p := with_world w (with_cc cc (with_rstats stats p)) in
              (in_conn id (with_qps (<[i := retired_qp us seq q]> (rc_qps c))) p, evs)
          end
      end
  end.

Definition take_wc (wc : Wc) (p : RdmaProvider) : RdmaProvider * list CompletionEvent :=
  if wc_wr_id wc =? kVerifyWrId then (note_verified (wc_qp_num wc) (wc_status wc) p, [])
  else if is_recv_id (wc_wr_id wc) then (absorb_receive wc p, [])
  else data_completion wc p.

Fixpoint take_wcs (wcs : list Wc) (p : RdmaProvider) : RdmaProvider * list CompletionEvent :=
  match wcs with
  | [] => (p, [])
  | wc :: wcs =>
      let '(p, evs) := take_wc wc p in
      let '(p, evs') := take_wcs wcs p in
      (p, evs ++ evs')
  end.

Definition rdma_poll (p : RdmaProvider) (max_events : Z)
    : RdmaProvider * (Status.t * list CompletionEvent) :=
  if max_events =? 0 then (p, (Status.kOk, []))
  else
    let max := to_i32 max_events in
    let n := Z.to_nat max in
    let stashed := take n (rp_stashed p) in
    let p := with_stashed (drop n (rp_stashed p)) p in
    let '(p, drawn) := drain_cq (max - Z.of_nat (length stashed)) p in
    let '(polled, wcs) :=
      match drawn with
      | None => (Status.kTransportError, stashed)
      | Some l => (Status.kOk, stashed ++ l)
      end in
    let '(p, evs) := take_wcs wcs p in
    (p, (polled, evs)).

Definition rdma_poll_peer_arrivals (p : RdmaProvider) (max_items : Z)
    : RdmaProvider * (Status.t * list PeerArrival) :=
  let n := Z.to_nat max_items in
  (with_rarrivals (drop n (rp_arrivals p)) p, (Status.kOk, take n (rp_arrivals p))).

(** The caller waits until nothing posted on the connection is outstanding.
    [turns] is how many times round the loop the clock allows; [None] is a wait
    still going on, which only a negative timeout makes possible. *)

Definition conn_outstanding (c : RdmaConnection) : nat :=
  foldr (fun q n => length (qp_unsignalled q) + n)%nat 0%nat (rc_qps c).

Fixpoint drain_loop (turns : nat) (id : ConnId) (bounded : bool) (deadline : Z) (p : RdmaProvider)
    : RdmaProvider * option Status.t :=
  match turns with
  | O => (p, None)
  | S turns =>
      match rp_conns p !! id with
      | None => (p, Some Status.kInvalidArgument)
      | Some c =>
          if bool_decide (conn_outstanding c = 0)%nat then (p, Some Status.kOk)
          else
            let '(p, _) := rdma_poll p (rg_cq_depth (rp_cfg p)) in
            let '(w, now) := clock (rp_world p) in
            if bounded && (deadline <=? now) then (with_world w p, Some Status.kTimeout)
            else drain_loop turns id bounded deadline (with_world (sleep_for w 100000) p)
      end
  end.

Definition rdma_drain (turns : nat) (p : RdmaProvider) (id : ConnId) (timeout_ms : Z)
    : RdmaProvider * option Status.t :=
  let '(w, now) := clock (rp_world p) in
  drain_loop turns id (0 <=? timeout_ms)
    (now + (if timeout_ms <? 0 then 0 else timeout_ms) * 1000000) (with_world w p).

(** ** Memory *)

Definition rdma_register_region (p : RdmaProvider) (addr length : Z) (access : AccessFlags)
    : RdmaProvider * (Status.t * Z * Z) :=
  if (addr =? 0) || (length =? 0) then (p, (Status.kInvalidArgument, 0, 0))
  else
    let '(w, r) := reg_mr (rp_world p) addr length (ib_access_flags access) in
    let p := with_world w p in
    match r with
    | inr e =>
        (p, (if e =? ENOMEM then Status.kResourceExhausted else Status.kDeviceError, 0, 0))
    | inl mr =>
        let key := rp_next_key p in
        (with_rregions (<[key := mr]> (rp_regions p)) (with_rnext_key (wrap64 (key + 1)) p),
         (Status.kOk, key, mr_rkey mr))
    end.

Definition rdma_deregister_region (p : RdmaProvider) (key : Z) : RdmaProvider * Status.t :=
  match rp_regions p !! key with
  | None => (p, Status.kNotFound)
  | Some mr =>
      let p := with_rregions (delete key (rp_regions p)) p in
      let '(w, rc) := dereg_mr (rp_world p) mr in
      (with_world w p, if rc =? 0 then Status.kOk else Status.kDeviceError)
  end.

(** ** Control messages *)

Definition conn_send (c : RdmaConnection) (type : Z) (payload : list Z) (w : W)
    : RdmaConnection * Status.t * W :=
  if rc_ctrl_fd c <? 0 then (c, Status.kPeerDisconnected, w)
  else
    let '(o, st, sent, rest) :=
      post (send_answers w (rc_ctrl_fd c)) (control_frame type payload) (rc_outbox c) in
    let c := with_outbox o c in
    (if bool_decide (st = Status.kPeerDisconnected) then mark_peer_closed c else c, st,
     wrote w (rc_ctrl_fd c) sent rest).

Definition rdma_send_control (p : RdmaProvider) (id : option ConnId) (type : Z) (payload : list Z)
    : RdmaProvider * Status.t :=
  match id ≫= (rp_conns p !!.), id with
  | Some c, Some id =>
      if kControlMaxPayload <? Z.of_nat (length payload) then (p, Status.kInvalidArgument)
      else
        let '(c, st, w) := conn_send c type payload (rp_world p) in
        (with_conns (<[id := c]> (rp_conns p)) (with_world w p), st)
  | _, _ => (p, Status.kInvalidArgument)
  end.

(** Those of the weak references that still lead to a connection. *)

Definition live_conns (p : RdmaProvider) : list ConnId :=
  filter (fun id => is_Some (rp_conns p !! id)) (rp_ctrl_conns p).

Definition conn_alive (p : RdmaProvider) (id : ConnId) : bool :=
  match rp_conns p !! id with Some c => negb (rc_peer_closed c) | None => false end.

Fixpoint broadcast_loop (ids : list ConnId) (type : Z) (payload : list Z) (p : RdmaProvider)
    (ok no : Z) : RdmaProvider * Z * Z :=
  match ids with
  | [] => (p, ok, no)
  | id :: ids =>
      if negb (conn_alive p id) then broadcast_loop ids type payload p ok no
      else
        let '(p, st) := rdma_send_control p (Some id) type payload in
        if bool_decide (st = Status.kOk)
        then broadcast_loop ids type payload p (wrap32 (ok + 1)) no
        else broadcast_loop ids type payload p ok (wrap32 (no + 1))
  end.

Definition rdma_broadcast_control (p : RdmaProvider) (type : Z) (payload : list Z)
    : RdmaProvider * (Status.t * Z * Z) :=
  let '(p, ok, no) := broadcast_loop (live_conns p) type payload p 0 0 in
  (p, (Status.kOk, ok, no)).

(** One connection of [poll_control]: flush, read, take whole messages. *)

Definition conn_poll_control (id : ConnId) (room : nat) (c : RdmaConnection) (w : W)
    : RdmaConnection * W * list ControlMessage :=
  if rc_ctrl_fd c <? 0 then (c, w, [])
  else
    let fd := rc_ctrl_fd c in
    let '(o, st, sent, rest) := flush (send_answers w fd) (rc_outbox c) in
    let w := wrote w fd sent rest in
    let c := with_outbox o c in
    let c := if bool_decide (st = Status.kPeerDisconnected) then mark_peer_closed c else c in
    let '(rx, closed, rest) := read_loop (recv_answers w fd) (rc_rx c) in
    let w := read_on w fd rest in
    let c := if closed : bool then mark_peer_closed c else c in
    match parse_messages id room rx with
    | Done (ms, rx) => (with_rx rx c, w, ms)
    | _ => (with_rx rx c, w, [])
    end.

Fixpoint poll_control_loop (ids : list ConnId) (room : nat) (p : RdmaProvider)
    : RdmaProvider * list ControlMessage :=
  match ids with
  | [] => (p, [])
  | id :: ids =>
      match rp_conns p !! id with
      | None => poll_control_loop ids room p
      | Some c =>
          let '(c, w, ms) := conn_poll_control id room c (rp_world p) in
          let p := with_conns (<[id := c]> (rp_conns p)) (with_world w p) in
          let '(p, ms') := poll_control_loop ids (room - length ms)%nat p in
          (p, ms ++ ms')
      end
  end.

Definition rdma_poll_control (p : RdmaProvider) (max_items : Z)
    : RdmaProvider * (Status.t * list ControlMessage) :=
  let ids := live_conns p in
  let '(p, ms) := poll_control_loop ids (Z.to_nat max_items) (with_ctrl_conns ids p) in
  (p, (Status.kOk, ms)).

Definition queued_control_messages (p : RdmaProvider) : nat :=
  foldr (fun id n => match rp_conns p !! id with
                     | Some c => (backlog_messages (rc_outbox c) + n)%nat
                     | None => n
                     end) 0%nat (rp_ctrl_conns p).

(** ** Connections *)

Definition register_conn (id : ConnId) (qp_num : Z) (p : RdmaProvider) : RdmaProvider :=
  with_conn_by_qp (<[qp_num := id]> (rp_conn_by_qp p)) p.

Definition forget_conn (qp_num : Z) (p : RdmaProvider) : RdmaProvider :=
  with_conn_by_qp (delete qp_num (rp_conn_by_qp p)) p.

Definition forget_conn_of (id : ConnId) (p : RdmaProvider) : RdmaProvider :=
  with_ctrl_conns (filter (fun i => i ≠ id) (live_conns p))
    (with_conn_by_qp (filter (fun kv => kv.2 ≠ id) (rp_conn_by_qp p)) p).

(** The destructor, when the last owner lets go. *)

Definition destroy_conn (id : ConnId) (p : RdmaProvider) : RdmaProvider :=
  match rp_conns p !! id with
  | None => p
  | Some c =>
      let w := if 0 <=? rc_ctrl_fd c then close_fd (rp_world p) (rc_ctrl_fd c) else rp_world p in
      let p := foldl (fun p q => with_world (destroy_qp (rp_world p) (qp_num q))
                 (forget_conn (qp_num q) p)) (with_world w p) (rc_qps c) in
      let p := match rc_recv_mr c with
               | Some mr => with_world (fst (dereg_mr (rp_world p) mr)) p
               | None => p
               end in
      with_conns (delete id (rp_conns p)) p
  end.

Fixpoint repost_loop (count : nat) (id : ConnId) (p : RdmaProvider) : RdmaProvider * Status.t :=
  match count with
  | O => (p, Status.kOk)
  | S count =>
      match rp_conns p !! id with
      | None => (p, Status.kUnsupported)
      | Some c =>
          let '(p, s) := repost_receive p c in
          if bool_decide (s = Status.kOk) then repost_loop count id p else (p, s)
      end
  end.

(** [recv_addr] is where the vector of [count * 16] bytes was allocated. *)

Definition arm_receives (id : ConnId) (recv_addr count : Z) (p : RdmaProvider)
    : RdmaProvider * Status.t :=
  let '(w, r) := reg_mr (rp_world p) recv_addr (count * 16) IBV_ACCESS_LOCAL_WRITE in
  let p := with_world w p in
  match r with
  | inr _ => (p, Status.kDeviceError)
  | inl mr => repost_loop (Z.to_nat count) id (in_conn id (with_recv_mr (Some mr)) p)
  end.

(** One batch drawn while proving queue pair [mine]: its own completion's status
    if it was there, everything else handed to its owner. *)

Fixpoint sort_batch (mine : Z) (wcs : list Wc) (p : RdmaProvider) (seen : option Z)
    : RdmaProvider * option Z :=
  match wcs with
  | [] => (p, seen)
  | wc :: wcs =>
      if wc_wr_id wc =? kVerifyWrId then
        if wc_qp_num wc =? mine then sort_batch mine wcs p (Some (wc_status wc))
        else sort_batch mine wcs (note_verified (wc_qp_num wc) (wc_status wc) p) seen
      else if is_recv_id (wc_wr_id wc) then sort_batch mine wcs (absorb_receive wc p) seen
      else sort_batch mine wcs (stash_completion wc p) seen
  end.

Definition proved_status (st : Z) : Status.t :=
  if st =? IBV_WC_SUCCESS then Status.kOk else Status.kTransportError.

(** Each turn sleeps 200 microseconds, so the deadline passes within
    [5 * timeout_ms + 1] turns. *)

Fixpoint verify_loop (turns : nat) (mine deadline : Z) (p : RdmaProvider)
    : RdmaProvider * Status.t :=
  match turns with
  | O => (p, Status.kTimeout)
  | S turns =>
      let '(w, now) := clock (rp_world p) in
      let p := with_world w p in
      if deadline <=? now then (p, Status.kTimeout)
      else
        let '(p, noted) := take_verified mine p in
        match noted with
        | Some st => (p, proved_status st)
        | None =>
            let '(p, drawn) := drain_cq 8 p in
            match drawn with
            | None => (p, Status.kTransportError)
            | Some wcs =>
                let '(p, seen) := sort_batch mine wcs p None in
                match seen with
                | Some st => (p, proved_status st)
                | None =>
                    verify_loop turns mine deadline
                      (with_world (sleep_for (rp_world p) 200000) p)
                end
            end
        end
  end.

Definition verify_path (id : ConnId) (recv_addr timeout_ms : Z) (p : RdmaProvider)
    : RdmaProvider * Status.t :=
  match rp_conns p !! id ≫= (fun c => mr ← rc_recv_mr c; q ← head (rc_qps c); Some (mr, q)) with
  | None => (p, Status.kUnsupported)
  | Some (mr, q) =>
      let wr := mkSendWr kVerifyWrId recv_addr 8 (mr_lkey mr) IBV_WR_SEND true 0 0 in
      let '(w, rc) := post_send (rp_world p) (qp_num q) wr in
      let p := with_world w p in
      if negb (rc =? 0) then (p, Status.kTransportError)
      else
        let '(w, now) := clock (rp_world p) in
        verify_loop (Z.to_nat (5 * timeout_ms + 1)) (qp_num q) (now + timeout_ms * 1000000)
          (with_world w p)
  end.

(** ** Bringing a connection up *)

Definition kRdAtomic : Z := 16.
Definition kMinRnrTimer : Z := 12.
Definition kAckTimeout : Z := 14.
Definition kRetryCount : Z := 7.
Definition kRnrRetry : Z := 7.

Definition destroy_all (qps : list Z) (w : W) : W := foldl destroy_qp w qps.

(** [None]: one could not be made, and those made before it are gone. *)

Fixpoint create_qps (n : nat) (first : bool) (cfg : RdmaConfig) (made : list Z) (w : W)
    : W * option (list Z) :=
  match n with
  | O => (w, Some made)
  | S n =>
      let '(w, r) :=
        create_qp w (rg_sq_depth cfg) (if first then rg_rq_depth cfg else 1) (rg_max_sge cfg) in
      match r with
      | None => (destroy_all made w, None)
      | Some q => create_qps n false cfg (made ++ [q]) w
      end
  end.

Definition local_end (port : PortInfo) (qps : list Z) : LocalEnd :=
  mkLocalEnd qps (pi_lid port) (pi_local_gid port) (pi_active_mtu port) (pi_ooo_rw port).

Definition path_to (port : PortInfo) (peer : RdmaEndpointInfo) : AddressPath :=
  if pi_ethernet port
  then mkAddressPath true (ep_gid peer) (Z.land (pi_gid_index port) 255) 255 0
  else mkAddressPath false [] 0 0 (ep_lid peer).

Definition ooo_path (cfg : RdmaConfig) (port : PortInfo) (peer : RdmaEndpointInfo)
    : Mlx5Connect :=
  mkMlx5Connect (ep_qp_num peer) (Z.min (pi_active_mtu port) (ep_mtu peer)) (rg_ib_port cfg)
    (Z.land (pi_gid_index port) 255) (pi_ooo_hop_limit port) (ep_gid peer) kRdAtomic kRdAtomic
    kMinRnrTimer kAckTimeout kRetryCount kRnrRetry (pi_log_max_msg port).

(** RESET to INIT to RTR to RTS, each checked. *)

Definition bring_up (cfg : RdmaConfig) (port : PortInfo) (ooo : bool) (qp : Z)
    (peer : RdmaEndpointInfo) (w : W) : W * Status.t :=
  let '(w, rc) := modify_qp w qp
    (QpInit (rg_ib_port cfg)
       (Z.lor (Z.lor IBV_ACCESS_LOCAL_WRITE IBV_ACCESS_REMOTE_READ) IBV_ACCESS_REMOTE_WRITE)) in
  if negb (rc =? 0) then (w, Status.kDeviceError)
  else if ooo then connect_ooo_rw w qp (ooo_path cfg port peer)
  else
    let '(w, rc) := modify_qp w qp
      (QpRtr (Z.min (pi_active_mtu port) (ep_mtu peer)) (ep_qp_num peer) 0 kRdAtomic kMinRnrTimer
         (rg_ib_port cfg) (path_to port peer)) in
    if negb (rc =? 0) then (w, Status.kDeviceError)
    else
      let '(w, rc) := modify_qp w qp (QpRts kAckTimeout kRetryCount kRnrRetry 0 kRdAtomic) in
      (w, if rc =? 0 then Status.kOk else Status.kDeviceError).

Fixpoint bring_up_all (cfg : RdmaConfig) (port : PortInfo) (ooo : bool) (qps : list Z)
    (peers : list RdmaEndpointInfo) (w : W) : W * Status.t :=
  match qps, peers with
  | q :: qps, e :: peers =>
      let '(w, s) := bring_up cfg port ooo q e w in
      if bool_decide (s = Status.kOk) then bring_up_all cfg port ooo qps peers w else (w, s)
  | _, _ => (w, Status.kOk)
  end.

(** A new object is none of those a reference names. *)

Definition new_conn_id (p : RdmaProvider) : ConnId :=
  1 + foldr Z.max 0 ((map_to_list (rp_conns p)).*1 ++ rp_ctrl_conns p
                     ++ (map_to_list (rp_conn_by_qp p)).*2).

Definition fresh_qp (n : Z) : QueuePair := mkQp n 0 0 0 [].

Definition new_conn (sock : Z) (qps : list Z) (s : Settled) : RdmaConnection :=
  mkRdmaConn (fresh_qp <$> qps) (st_peers s) 0 false None false sock (st_ooo s)
    (reset sock kDefaultLimit outbox_init) [].

(** The connection in the provider's tables. *)

Definition install_conn (id : ConnId) (c : RdmaConnection) (p : RdmaProvider) : RdmaProvider :=
  let p := with_conns (<[id := c]> (rp_conns p)) p in
  let p := foldl (fun p q => register_conn id (qp_num q) p) p (rc_qps c) in
  with_ctrl_conns (rp_ctrl_conns p ++ [id]) p.

(** Armed, then proved; a failure leaves with the connection destroyed. *)

Definition prove_conn (id : ConnId) (p : RdmaProvider) : RdmaProvider * Status.t :=
  let '(w, recv_addr) := alloc_buffer (rp_world p) (rg_rq_depth (rp_cfg p) * 16) in
  let '(p, rs) := arm_receives id recv_addr (rg_rq_depth (rp_cfg p)) (with_world w p) in
  if negb (bool_decide (rs = Status.kOk)) then (destroy_conn id p, rs)
  else
    let '(p, proved) := verify_path id recv_addr (rg_verify_timeout_ms (rp_cfg p)) p in
    if negb (bool_decide (proved = Status.kOk)) then (destroy_conn id (forget_conn_of id p), proved)
    else (p, Status.kOk).

Definition build_connection (sock : Z) (p : RdmaProvider) : RdmaProvider * (Status.t * ConnId) :=
  let cfg := rp_cfg p in
  let n := if rg_qp_per_conn cfg =? 0 then 1 else rg_qp_per_conn cfg in
  let '(w, made) := create_qps (Z.to_nat n) true cfg [] (rp_world p) in
  match made with
  | None => (with_world w p, (Status.kDeviceError, 0))
  | Some qps =>
      let '(r, sent, got, rest) :=
        io_exec false (handshake (local_end (rp_port p) qps))
          (fst (hs_answers w sock)) (snd (hs_answers w sock)) in
      let w := hs_after w sock sent rest in
      match r with
      | Fail e => (with_world (destroy_all qps w) p, (e, 0))
      | Oob => (with_world (destroy_all qps w) p, (Status.kInternal, 0))
      | Done s =>
          let '(w, bs) := bring_up_all cfg (rp_port p) (st_ooo s) qps (st_peers s) w in
          if negb (bool_decide (bs = Status.kOk))
          then (with_world (destroy_all qps w) p, (bs, 0))
          else
            let p := with_world w p in
            let id := new_conn_id p in
            let '(p, st) := prove_conn id (install_conn id (new_conn sock qps s) p) in
            (p, (st, id))
      end
  end.

(** A socket handed to [build_connection] is closed again when it fails. *)

Definition connect_on (sock : Z) (p : RdmaProvider) : RdmaProvider * (Status.t * ConnId) :=
  let '(p, (s, id)) := build_connection sock p in
  (if bool_decide (s = Status.kOk) then p else with_world (close_fd (rp_world p) sock) p, (s, id)).

Definition rdma_connect (p : RdmaProvider) (peer_metadata : list Z)
    : RdmaProvider * (Status.t * ConnId) :=
  match parse_rdma_metadata peer_metadata with
  | Done (port, ip) =>
      let '(w, r) := dial (rp_world p) ip port in
      let p := with_world w p in
      match r with
      | inl e => (p, (e, 0))
      | inr sock => connect_on sock p
      end
  | Fail e => (p, (e, 0))
  | Oob => (p, (Status.kInternal, 0))
  end.

(** A turn of [accept]: the listener was ready or not, and then [accept] gave a socket or
    failed; whether the deadline has passed.  A turn with nothing ready changes nothing, and
    an accept that failed is tried again whatever the time.  [None] when the turns end
    first. *)

Record AcceptTurn : Type := mkAcceptTurn { at_dialled : option (option Z); at_expired : bool }.

Fixpoint rdma_accept (timeout_ms : Z) (waits : list AcceptTurn) (p : RdmaProvider)
    : option (RdmaProvider * (Status.t * ConnId)) :=
  match waits with
  | [] => None
  | t :: waits =>
      match at_dialled t with
      | Some (Some sock) => Some (connect_on sock p)
      | Some None => rdma_accept timeout_ms waits p
      | None =>
          if (0 <=? timeout_ms) && at_expired t then Some (p, (Status.kTimeout, 0))
          else rdma_accept timeout_ms waits p
      end
  end.

(** Every queue pair to error. *)

Fixpoint fail_qps (qps : list QueuePair) (w : W) (first : Status.t) : W * Status.t :=
  match qps with
  | [] => (w, first)
  | q :: qps =>
      let '(w, rc) := modify_qp w (qp_num q) QpErr in
      fail_qps qps w
        (if negb (rc =? 0) && bool_decide (first = Status.kOk) then Status.kTransportError
         else first)
  end.

Definition rdma_disconnect (p : RdmaProvider) (id : ConnId) : RdmaProvider * Status.t :=
  match rp_conns p !! id with
  | None => (p, Status.kInvalidArgument)
  | Some c =>
      let p := in_conn id mark_failed p in
      let '(w, first) := fail_qps (rc_qps c) (rp_world p) Status.kOk in
      (with_world w p, first)
  end.

Definition rdma_caps (p : RdmaProvider) : ProviderCaps :=
  mkProviderCaps
    (if rg_nic_ordinal (rp_cfg p) =? 0 then "rdma"%string
     else ("rdma#" ++ pretty.pretty (rg_nic_ordinal (rp_cfg p)))%string)
    (rg_relative_capacity (rp_cfg p)) (pi_max_msg_sz (rp_port p)).

Definition rdma_metadata (p : RdmaProvider) : Status.t * list Z :=
  (Status.kOk, rdma_local_metadata (pi_listen_port (rp_port p)) (wrap16 (pi_gid_index (rp_port p)))
     (rg_advertise_ip (rp_cfg p))).

End Rdma.
