(* ===== verification/RdmaLaws.v ===== *)
(** * The RDMA transport keeps the provider contract.

    Whatever the adapter and the sockets answer, a submit accepts a prefix of
    what it was offered and every operation accepted is handed over by [poll]
    once, so the engine's theorems hold over this transport too. *)

From stdpp Require Import base list gmap strings numbers.
From S2P Require Import Prelude Float64 Types Wire SocketIo Outbox Provider Congestion RdmaWire.
From S2P Require Import RdmaVerbs RdmaControl RdmaProvider.

Section Laws.
Context {W C : Type} `{Verbs W} `{Sockets W} `{CongestionController C}.
Implicit Types p : RdmaProvider (W := W) (C := C).

(** ** Work outstanding *)

(** What each queue pair of each connection has posted and not retired. *)

Abbreviation WorkMap := (gmap ConnId (list (list (Z * InflightKey)))).

Definition conn_work (c : RdmaConnection) : list (list (Z * InflightKey)) :=
  qp_unsignalled <$> rc_qps c.

Definition work p : WorkMap := conn_work <$> rp_conns p.

(** A weight of operations, added up: over keys, a queue pair's entries, a
    connection's queue pairs, all connections. *)

Fixpoint keys_sum (g : InflightKey → nat) (ks : list InflightKey) : nat :=
  match ks with
  | [] => 0%nat
  | k :: ks => (g k + keys_sum g ks)%nat
  end.

Definition us_sum (g : InflightKey → nat) (us : list (Z * InflightKey)) : nat := keys_sum g us.*2.

Fixpoint qs_sum (g : InflightKey → nat) (qs : list (list (Z * InflightKey))) : nat :=
  match qs with
  | [] => 0%nat
  | us :: qs => (us_sum g us + qs_sum g qs)%nat
  end.

Definition work_sum (g : InflightKey → nat) (m : WorkMap) : nat :=
  map_fold (fun _ qs n => (qs_sum g qs + n)%nat) 0%nat m.

Lemma work_sum_insert g id qs m :
  m !! id = None → work_sum g (<[id := qs]> m) = (qs_sum g qs + work_sum g m)%nat.
Proof.
  intros Hm. unfold work_sum.
  rewrite (map_fold_insert_L (fun _ qs n => (qs_sum g qs + n)%nat)); [done|intros; lia|done].
Qed.

Lemma work_sum_split g id qs m :
  m !! id = Some qs → work_sum g m = (qs_sum g qs + work_sum g (delete id m))%nat.
Proof.
  intros Hm. rewrite <- (insert_delete_id m id qs Hm) at 1.
  apply work_sum_insert, lookup_delete_eq.
Qed.

Lemma work_sum_replace g id qs qs' m :
  m !! id = Some qs →
  (work_sum g (<[id := qs']> m) + qs_sum g qs = work_sum g m + qs_sum g qs')%nat.
Proof.
  intros Hm. rewrite (work_sum_split g id qs m Hm), <- (insert_delete_eq m id qs').
  rewrite work_sum_insert by apply lookup_delete_eq. lia.
Qed.

Lemma qs_sum_insert g qs k us us' :
  qs !! k = Some us →
  (qs_sum g (<[k := us']> qs) + us_sum g us = qs_sum g qs + us_sum g us')%nat.
Proof.
  revert k. induction qs as [|x qs IH]; intros [|k] Hk; try done.
  - injection Hk as ->. cbn [qs_sum insert list_insert]. cbn. lia.
  - specialize (IH k Hk). change (<[S k := us']> (x :: qs)) with (x :: <[k := us']> qs).
    cbn [qs_sum]. lia.
Qed.

Lemma qs_sum_nil g n : qs_sum g (replicate n []) = 0%nat.
Proof. by induction n. Qed.

Lemma keys_sum_app g ks ks' : keys_sum g (ks ++ ks') = (keys_sum g ks + keys_sum g ks')%nat.
Proof. induction ks as [|k ks IH]; [done|]. cbn. lia. Qed.

Lemma us_sum_app g us us' : us_sum g (us ++ us') = (us_sum g us + us_sum g us')%nat.
Proof. unfold us_sum. by rewrite fmap_app, keys_sum_app. Qed.

(** Those of request [i]. *)

Definition of_request (i : Z) (k : InflightKey) : nat :=
  if decide (ik_request k = i) then 1%nat else 0%nat.

(** A weight that does not look at the time, and the weight of operations not
    yet posted. *)

Definition timeless (g : InflightKey → nat) : Prop := ∀ op t, g (op_key op t) = g (op_key op 0).

Definition ops_sum (g : InflightKey → nat) (ops : list SubOp) : nat :=
  keys_sum g ((fun op => op_key op 0) <$> ops).

Lemma of_request_ops i ops : ops_sum (of_request i) ops = count_req op_request i ops.
Proof.
  unfold ops_sum. induction ops as [|op ops IH]; [done|].
  cbn [fmap list_fmap keys_sum]. rewrite count_req_cons. by rewrite <- IH.
Qed.

(** A change of a connection that leaves its work leaves the map. *)

Lemma work_same_conn p id c c' :
  rp_conns p !! id = Some c → conn_work c' = conn_work c →
  conn_work <$> <[id := c']> (rp_conns p) = work p.
Proof.
  intros Hc E. unfold work. rewrite fmap_insert, E. apply insert_id. by rewrite lookup_fmap, Hc.
Qed.

Lemma work_in_conn p id f :
  (∀ c, conn_work (f c) = conn_work c) → work (in_conn id f p) = work p.
Proof.
  intros E. unfold work, in_conn. cbn. apply map_eq. intros j. rewrite !lookup_fmap.
  destruct (decide (j = id)) as [->|Hne].
  - rewrite lookup_alter_eq. destruct (rp_conns p !! id); cbn; [by rewrite E|done].
  - by rewrite lookup_alter_ne.
Qed.

(** ** Submitting *)

Lemma plan_one_spec cfg regions op (s : Planning (W := W) (C := C)) s' st :
  plan_one cfg regions op s = (s', st) →
  rc_qps (pn_conn s') = rc_qps (pn_conn s)
  ∧ with_qps [] (with_next_qp 0 (pn_conn s')) = with_qps [] (with_next_qp 0 (pn_conn s))
  ∧ pl_op <$> pn_plan s'
    = (pl_op <$> pn_plan s) ++ (if bool_decide (st = Status.kOk) then [op] else []).
Proof.
  unfold plan_one. destruct (regions !! _) as [mr|]; [|intros [= <- <-]; cbn; by rewrite app_nil_r].
  cbn. destruct (pick_loop _ _ _ _ _) as [qi|]; [|intros [= <- <-]; cbn; by rewrite app_nil_r].
  destruct (rc_qps _ !! qi) as [q|]; [|intros [= <- <-]; cbn; by rewrite app_nil_r].
  destruct (_ <=? _); [intros [= <- <-]; cbn; by rewrite app_nil_r|].
  destruct (clock _) as [w now]. destruct (negb _); intros [= <- <-]; cbn.
  - by rewrite app_nil_r.
  - by rewrite fmap_app.
Qed.

Lemma plan_loop_spec cfg regions ops (s : Planning (W := W) (C := C)) s' st :
  plan_loop cfg regions ops s = (s', st) →
  rc_qps (pn_conn s') = rc_qps (pn_conn s)
  ∧ with_qps [] (with_next_qp 0 (pn_conn s')) = with_qps [] (with_next_qp 0 (pn_conn s))
  ∧ ∃ k, pl_op <$> pn_plan s' = (pl_op <$> pn_plan s) ++ take k ops ∧ (k <= length ops)%nat.
Proof.
  revert s. induction ops as [|op ops IH]; intros s; cbn.
  - intros [= <- <-]. split_and!; auto. exists 0%nat. by rewrite app_nil_r.
  - destruct (plan_one cfg regions op s) as [s1 st1] eqn:E1. apply plan_one_spec in E1 as (Q1 & C1 & P1).
    case_bool_decide as Hst.
    + intros E2. apply IH in E2 as (Q2 & C2 & k & P2 & Hk). split_and!; try congruence.
      exists (S k). rewrite P2, P1, <- app_assoc. split; [done|cbn; lia].
    + intros [= <- <-]. split_and!; auto. exists 0%nat. split; [done|lia].
Qed.

Lemma mark_anchors_ops last plan : pl_op <$> mark_anchors last plan = pl_op <$> plan.
Proof.
  unfold mark_anchors. revert plan. induction last as [|[k|] last IH]; intros plan; cbn; auto.
  rewrite IH. apply list_eq. intros j. rewrite !list_lookup_fmap.
  destruct (decide (j = k)) as [->|Hne].
  - rewrite list_lookup_alter_eq. by destruct (plan !! k).
  - by rewrite list_lookup_alter_ne.
Qed.

Lemma rpost_loop_spec plan (w : W) qps st done w' qps' st' done' rc :
  rpost_loop plan w qps st done = (w', qps', st', done', rc) →
  ∃ k, done' = (done + k)%nat ∧ (k <= length plan)%nat
    ∧ ∀ g, timeless g → qs_sum g (qp_unsignalled <$> qps')
        = (qs_sum g (qp_unsignalled <$> qps) + ops_sum g (take k (pl_op <$> plan)))%nat.
Proof.
  revert w qps st done. induction plan as [|pl plan IH]; intros w qps st done; cbn [rpost_loop].
  - intros [= <- <- <- <- <-]. exists 0%nat. split_and!; [lia|lia|]. intros g _. unfold ops_sum. cbn. lia.
  - destruct (qps !! pl_qp_index pl) as [q|] eqn:Eq.
    2:{ intros [= <- <- <- <- <-]. exists 0%nat. split_and!; [lia|lia|]. intros g _.
        unfold ops_sum. cbn. lia. }
    destruct (post_send _ _ _) as [w1 r1]. destruct (negb _).
    { intros [= <- <- <- <- <-]. exists 0%nat. split_and!; [lia|lia|]. intros g _.
      unfold ops_sum. cbn. lia. }
    destruct (clock w1) as [w2 t]. intros E. apply IH in E as (k & -> & Hk & Hc).
    exists (S k). split_and!; [lia|cbn; lia|]. intros g Hg. rewrite Hc by done.
    rewrite list_fmap_insert. cbn [posted_qp qp_unsignalled].
    pose proof (qs_sum_insert g (qp_unsignalled <$> qps) (pl_qp_index pl) (qp_unsignalled q)
      (qp_unsignalled q ++ [(qp_posted q, op_key (pl_op pl) t)])
      ltac:(by rewrite list_lookup_fmap, Eq)) as Hi.
    rewrite us_sum_app in Hi.
    assert (E1 : us_sum g [(qp_posted q, op_key (pl_op pl) t)] = g (op_key (pl_op pl) 0))
      by (unfold us_sum; cbn [fmap list_fmap keys_sum snd]; rewrite Hg; lia).
    assert (E2 : ops_sum g (take (S k) (pl_op <$> pl :: plan))
      = (g (op_key (pl_op pl) 0) + ops_sum g (take k (pl_op <$> plan)))%nat) by done.
    rewrite E2. lia.
Qed.

Lemma refused_sum p ops st e :
  (sr_accepted (mkSubmitResult 0 st e) <= length ops)%nat
  ∧ ∀ g, timeless g → work_sum g (work p)
      = (work_sum g (work p) + ops_sum g (take (sr_accepted (mkSubmitResult 0 st e)) ops))%nat.
Proof. cbn [sr_accepted]. split; [lia|]. intros g _. rewrite take_0. unfold ops_sum. cbn [fmap list_fmap keys_sum]. lia. Qed.

Lemma submit_sum p id ops p' r :
  rdma_submit p id ops = (p', r) →
  (sr_accepted r <= length ops)%nat
  ∧ ∀ g, timeless g → work_sum g (work p')
      = (work_sum g (work p) + ops_sum g (take (sr_accepted r) ops))%nat.
Proof.
  unfold rdma_submit. destruct (rp_conns p !! id) as [c|] eqn:Ec;
    [|intros [= <- <-]; by apply refused_sum].
  destruct (rc_failed c); [intros [= <- <-]; by apply refused_sum|].
  case_bool_decide; [intros [= <- <-]; by apply refused_sum|].
  destruct (_ =? 0); [intros [= <- <-]; by apply refused_sum|].
  destruct (plan_loop _ _ _ _) as [s st] eqn:Ep.
  apply plan_loop_spec in Ep as (Q & _ & k & P & Hk). cbn in Q, P.
  destruct (rpost_loop _ _ _ _ _) as [[[[w qps] stats] done] rc] eqn:Er.
  apply rpost_loop_spec in Er as (k2 & -> & Hk2 & Hc).
  destruct (release_unposted _ _ _) as [w2 cc2]. intros [= <- <-].
  match goal with |- context [sr_accepted ?x] =>
    assert (Hacc : sr_accepted x = k2) by (by destruct rc) end.
  rewrite Hacc. rewrite <- (length_fmap pl_op), mark_anchors_ops, P, length_take in Hk2.
  split; [lia|]. intros g Hg. specialize (Hc g Hg). rewrite mark_anchors_ops, P, take_take, Q in Hc.
  replace (Nat.min k2 k) with k2 in Hc by lia.
  pose proof (work_sum_replace g id (conn_work c) (qp_unsignalled <$> qps) (work p)
    ltac:(by unfold work; rewrite lookup_fmap, Ec)) as Hr.
  match goal with |- work_sum g ?m = _ =>
    replace m with (<[id := qp_unsignalled <$> qps]> (work p))
      by (unfold work; cbn; by rewrite fmap_insert) end.
  unfold conn_work in Hr. lia.
Qed.

(** ** Completions *)

(** What is retired: the front of the queue, each with its event and its budget
    given back. *)

Lemma retire_spec wcs seq now us (cc : C) st us' cc' st' evs :
  retire wcs seq now us cc st = (us', cc', st', evs) →
  ∃ taken, us = taken ++ us' ∧ evs = retired_event wcs <$> taken.*2
    ∧ cc' = foldl (fun cc k => retire_cc (fst (status_from_wc wcs)) now k cc) cc taken.*2.
Proof.
  revert cc st us' cc' st' evs. induction us as [|[s k] us IH]; intros cc st us' cc' st' evs;
    cbn [retire].
  - intros [= <- <- <- <-]. by exists [].
  - destruct (s <=? seq); [|intros [= <- <- <- <-]; by exists []].
    destruct (retire _ _ _ _ _ _) as [[[us1 cc1] st1] evs1] eqn:E. intros [= <- <- <- <-].
    destruct (IH _ _ _ _ _ _ E) as (taken & -> & -> & ->). exists ((s, k) :: taken).
    split_and!; [done|done|]. cbn [fmap list_fmap foldl snd]. do 2 f_equal.
    unfold retired_event. by destruct (status_from_wc wcs).
Qed.

Lemma retired_events_count wcs i ks :
  count_req ev_request i (retired_event wcs <$> ks) = keys_sum (of_request i) ks.
Proof.
  induction ks as [|k ks IH]; [done|]. cbn [fmap list_fmap keys_sum]. rewrite count_req_cons, IH.
  unfold of_request at 2, retired_event. by destruct (status_from_wc wcs).
Qed.

Lemma repost_receive_work p c : work (fst (repost_receive p c)) = work p.
Proof.
  unfold repost_receive. destruct (rc_recv_mr c), (rc_qps c); try done.
  by destruct (post_recv _ _).
Qed.

Lemma absorb_receive_work wc p : work (absorb_receive wc p) = work p.
Proof.
  unfold absorb_receive. set (p1 := if _ && _ then _ else _).
  assert (E : work p1 = work p) by (unfold p1; by destruct (_ && _)).
  destruct (negb _); [done|]. destruct (_ ≫= _); [|done]. by rewrite repost_receive_work.
Qed.

(** What handling a completion does, to the events, the controller and the work:
    the operations retired are given. *)

Definition retires p p' (evs : list CompletionEvent) : Prop :=
  ∃ (ks : list (InflightKey * (Z * Z))),
    evs = (fun kt => retired_event (fst (snd kt)) (fst kt)) <$> ks
    ∧ rp_cc p' = foldl (fun cc kt => retire_cc (fst (status_from_wc (fst (snd kt)))) (snd (snd kt))
                                       (fst kt) cc) (rp_cc p) ks
    ∧ ∀ g, work_sum g (work p) = (work_sum g (work p') + keys_sum g ks.*1)%nat.

Lemma retires_none p p' : work p' = work p → rp_cc p' = rp_cc p → retires p p' [].
Proof. intros E1 E2. exists []. rewrite E1, E2. split_and!; auto. Qed.

Lemma retires_trans p p1 p2 e1 e2 : retires p p1 e1 → retires p1 p2 e2 → retires p p2 (e1 ++ e2).
Proof.
  intros (k1 & -> & C1 & S1) (k2 & -> & C2 & S2). exists (k1 ++ k2).
  rewrite fmap_app, foldl_app, C2, C1. split_and!; auto. intros g.
  rewrite S1, S2, fmap_app, keys_sum_app. lia.
Qed.

Lemma data_completion_spec wc p p' evs : data_completion wc p = (p', evs) → retires p p' evs.
Proof.
  unfold data_completion. destruct (rp_conn_by_qp p !! _) as [id|];
    [|intros [= <- <-]; by apply retires_none].
  set (p1 := if negb _ then _ else _).
  assert (E1 : work p1 = work p) by (unfold p1; destruct (negb _); [by apply work_in_conn|done]).
  assert (E2 : rp_cc p1 = rp_cc p) by (unfold p1; by destruct (negb _)).
  clearbody p1.
  destruct (rp_conns p1 !! id) as [c|] eqn:Ec; [|intros [= <- <-]; by apply retires_none].
  destruct (rc_qps c !! _) as [q|] eqn:Eq; [|intros [= <- <-]; by apply retires_none].
  destruct (clock _) as [w now]. destruct (retire _ _ _ _ _ _) as [[[us cc] st] es] eqn:Er.
  intros E. apply pair_equal_spec in E as [<- <-].
  apply retire_spec in Er as (taken & Eu & -> & ->).
  set (k := Z.to_nat (wr_qp_index (wc_wr_id wc))) in *.
  assert (Ek : ((fun k => (k, (wc_status wc, now))) <$> taken.*2).*1 = taken.*2)
    by (clear; induction taken as [|x taken IH]; [done|cbn [fmap list_fmap fst]; by f_equal]).
  exists ((fun k => (k, (wc_status wc, now))) <$> taken.*2). rewrite Ek.
  split_and!.
  - clear. induction taken as [|[s0 k0] taken IH]; [done|]. cbn [fmap list_fmap fst snd]. by f_equal.
  - cbn. rewrite E2. clear. generalize (rp_cc p). induction taken as [|[s0 k0] taken IH]; intros cc; [done|].
    apply IH.
  - intros g.
    pose proof (work_sum_replace g id (conn_work c) (<[k := us]> (conn_work c)) (work p1)
      ltac:(by unfold work; rewrite lookup_fmap, Ec)) as Hr.
    pose proof (qs_sum_insert g (conn_work c) k (qp_unsignalled q) us
      ltac:(by unfold conn_work; rewrite list_lookup_fmap, Eq)) as Hq.
    rewrite Eu, us_sum_app in Hq.
    match goal with |- _ = (work_sum g (work ?p2) + _)%nat =>
      assert (Ew : work p2 = <[id := <[k := us]> (conn_work c)]> (work p1)) end.
    { unfold work, in_conn. cbn. apply map_eq. intros j.
      destruct (decide (j = id)) as [->|Hne].
      - rewrite lookup_fmap, lookup_alter_eq, Ec, lookup_insert_eq. cbn. unfold conn_work at 1. cbn.
        by rewrite list_fmap_insert.
      - by rewrite lookup_fmap, lookup_alter_ne, lookup_insert_ne, lookup_fmap by done. }
    rewrite Ew, <- E1. fold (us_sum g taken). lia.
Qed.

Lemma absorb_receive_cc wc p : rp_cc (absorb_receive wc p) = rp_cc p.
Proof.
  unfold absorb_receive. set (p1 := if _ && _ then _ else _).
  assert (E : rp_cc p1 = rp_cc p) by (unfold p1; by destruct (_ && _)).
  destruct (negb _); [done|]. destruct (_ ≫= _) as [c|]; [|done]. unfold repost_receive.
  destruct (rc_recv_mr c), (rc_qps c); try done. by destruct (post_recv _ _).
Qed.

Lemma take_wcs_spec wcs p p' evs : take_wcs wcs p = (p', evs) → retires p p' evs.
Proof.
  revert p p' evs. induction wcs as [|wc wcs IH]; intros p p' evs; cbn [take_wcs].
  - intros [= <- <-]. by apply retires_none.
  - destruct (take_wc wc p) as [p1 e1] eqn:E1. destruct (take_wcs wcs p1) as [p2 e2] eqn:E2.
    intros [= <- <-]. apply (retires_trans _ p1); [|by apply IH].
    unfold take_wc in E1. destruct (_ =? kVerifyWrId).
    { apply pair_equal_spec in E1 as [<- <-]. by apply retires_none. }
    destruct (is_recv_id _); [|by apply (data_completion_spec wc)].
    apply pair_equal_spec in E1 as [<- <-].
    apply retires_none; [apply absorb_receive_work|apply absorb_receive_cc].
Qed.

Lemma drain_cq_work max p p' r : drain_cq max p = (p', r) → work p' = work p ∧ rp_cc p' = rp_cc p.
Proof.
  unfold drain_cq. destruct (_ <=? _); [by intros [= <- <-]|].
  destruct (poll_cq _ _). by intros [= <- <-].
Qed.

Lemma poll_retires p n :
  retires p (fst (rdma_poll p n)) (snd (snd (rdma_poll p n))).
Proof.
  unfold rdma_poll. destruct (n =? 0); [by apply retires_none|].
  destruct (drain_cq _ _) as [p1 drawn] eqn:E1. apply drain_cq_work in E1 as [E1 E1'].
  destruct (match drawn with Some _ => _ | None => _ end) as [polled wcs].
  destruct (take_wcs wcs p1) as [p2 evs] eqn:E2. cbn [fst snd].
  apply (retires_trans _ p1 _ []); [by apply retires_none|by apply (take_wcs_spec wcs)].
Qed.

Lemma retires_count p p' evs i :
  retires p p' evs →
  work_sum (of_request i) (work p)
  = (work_sum (of_request i) (work p') + count_req ev_request i evs)%nat.
Proof.
  intros (ks & -> & _ & S). rewrite S. f_equal. clear. induction ks as [|[k [a b]] ks IH]; [done|].
  cbn [fmap list_fmap keys_sum fst snd]. rewrite count_req_cons, <- IH.
  unfold of_request at 1, retired_event. by destruct (status_from_wc a).
Qed.

(** ** Everything else leaves the work alone *)

Lemma register_work p a l f : work (fst (rdma_register_region p a l f)) = work p.
Proof.
  unfold rdma_register_region. destruct (_ || _); [done|]. destruct (reg_mr _ _ _ _) as [w r].
  by destruct r.
Qed.

Lemma deregister_work p k : work (fst (rdma_deregister_region p k)) = work p.
Proof.
  unfold rdma_deregister_region. destruct (rp_regions p !! k) as [mr|]; [|done]. cbn.
  by destruct (dereg_mr _ _).
Qed.

Lemma disconnect_work p id : work (fst (rdma_disconnect p id)) = work p.
Proof.
  unfold rdma_disconnect. destruct (rp_conns p !! id) as [c|]; [|done].
  destruct (fail_qps _ _ _) as [w first].
  change (work (in_conn id mark_failed p) = work p). by apply work_in_conn.
Qed.

Lemma conn_send_work c t b (w : W) : conn_work (fst (fst (conn_send c t b w))) = conn_work c.
Proof.
  unfold conn_send. destruct (_ <? 0); [done|].
  destruct (post _ _ _) as [[[o st] sent] rest]. cbn. by case_bool_decide.
Qed.

Lemma send_control_work p id t b : work (fst (rdma_send_control p id t b)) = work p.
Proof.
  unfold rdma_send_control. destruct id as [id|]; [|done]. cbn.
  destruct (rp_conns p !! id) as [c|] eqn:Ec; [|done]. destruct (_ <? _); [done|].
  pose proof (conn_send_work c t b (rp_world p)) as E. destruct (conn_send _ _ _ _) as [[c' st] w].
  cbn in *. by apply (work_same_conn p id c).
Qed.

Lemma broadcast_loop_work ids t b p ok no :
  work (fst (fst (broadcast_loop ids t b p ok no))) = work p.
Proof.
  revert p ok no. induction ids as [|id ids IH]; intros p ok no; cbn [broadcast_loop]; [done|].
  destruct (negb _); [apply IH|]. pose proof (send_control_work p (Some id) t b) as E.
  destruct (rdma_send_control _ _ _ _) as [p1 st]. cbn in E. case_bool_decide; by rewrite IH.
Qed.

Lemma broadcast_work p t b : work (fst (rdma_broadcast_control p t b)) = work p.
Proof.
  unfold rdma_broadcast_control. pose proof (broadcast_loop_work (live_conns p) t b p 0 0) as E.
  by destruct (broadcast_loop _ _ _ _ _ _) as [[p1 ok] no].
Qed.

Lemma conn_poll_control_work id room c (w : W) :
  conn_work (fst (fst (conn_poll_control id room c w))) = conn_work c.
Proof.
  unfold conn_poll_control. destruct (_ <? 0); [done|].
  destruct (flush _ _) as [[[o st] sent] rest]. destruct (read_loop _ _) as [[rx closed] rest'].
  case_bool_decide; destruct closed; destruct (parse_messages _ _ _) as [[ms rx']| |]; done.
Qed.

Lemma poll_control_loop_work ids room p : work (fst (poll_control_loop ids room p)) = work p.
Proof.
  revert room p. induction ids as [|id ids IH]; intros room p; cbn [poll_control_loop]; [done|].
  destruct (rp_conns p !! id) as [c|] eqn:Ec; [|apply IH].
  pose proof (conn_poll_control_work id room c (rp_world p)) as E.
  destruct (conn_poll_control _ _ _ _) as [[c' w] ms]. cbn [fst] in E.
  set (p1 := with_conns _ _). pose proof (IH (room - length ms)%nat p1) as E2.
  destruct (poll_control_loop ids _ p1) as [p2 ms']. cbn [fst] in *. rewrite E2.
  by apply (work_same_conn p id c).
Qed.

Lemma poll_control_work p n : work (fst (rdma_poll_control p n)) = work p.
Proof.
  unfold rdma_poll_control.
  pose proof (poll_control_loop_work (live_conns p) (Z.to_nat n) (with_ctrl_conns (live_conns p) p)) as E.
  by destruct (poll_control_loop _ _ _) as [p1 ms].
Qed.

(** ** Connecting *)

Lemma sort_batch_work mine wcs p seen : work (fst (sort_batch mine wcs p seen)) = work p.
Proof.
  revert p seen. induction wcs as [|wc wcs IH]; intros p seen; cbn [sort_batch]; [done|].
  destruct (_ =? kVerifyWrId); [destruct (_ =? mine); by rewrite IH|].
  destruct (is_recv_id _); rewrite IH; [apply absorb_receive_work|done].
Qed.

Lemma verify_loop_work turns mine deadline p : work (fst (verify_loop turns mine deadline p)) = work p.
Proof.
  revert p. induction turns as [|turns IH]; intros p; cbn [verify_loop]; [done|].
  destruct (clock _) as [w now]. destruct (_ <=? _); [done|].
  unfold take_verified. destruct (rp_verify_done _ !! mine); [done|].
  destruct (drain_cq _ _) as [p1 drawn] eqn:E1. apply drain_cq_work in E1 as [E1 _].
  destruct drawn as [wcs|]; [|done].
  pose proof (sort_batch_work mine wcs p1 None) as E2.
  destruct (sort_batch _ _ _ _) as [p2 seen]. cbn [fst] in E2.
  destruct seen; [cbn [fst]; by rewrite E2|]. rewrite IH. change (work p2 = work p). by rewrite E2.
Qed.

Lemma verify_path_work id a t p : work (fst (verify_path id a t p)) = work p.
Proof.
  unfold verify_path. destruct (_ ≫= _) as [[mr q]|]; [|done].
  destruct (post_send _ _ _) as [w rc]. destruct (negb _); [done|].
  destruct (clock _) as [w2 now]. by rewrite verify_loop_work.
Qed.

Lemma repost_loop_work n id p : work (fst (repost_loop n id p)) = work p.
Proof.
  revert p. induction n as [|n IH]; intros p; cbn [repost_loop]; [done|].
  destruct (rp_conns p !! id) as [c|]; [|done].
  pose proof (repost_receive_work p c) as E. destruct (repost_receive p c) as [p1 s]. cbn in E.
  case_bool_decide; [by rewrite IH|done].
Qed.

Lemma arm_receives_work id a n p : work (fst (arm_receives id a n p)) = work p.
Proof.
  unfold arm_receives. destruct (reg_mr _ _ _ _) as [w [mr|e]]; [|done].
  rewrite repost_loop_work. change (work (in_conn id (with_recv_mr (Some mr)) (with_world w p)) = work p).
  by rewrite work_in_conn.
Qed.

Lemma destroy_conn_work id p : work (destroy_conn id p) = delete id (work p).
Proof.
  unfold destroy_conn. destruct (rp_conns p !! id) as [c|] eqn:Ec.
  2:{ symmetry. apply delete_id. unfold work. by rewrite lookup_fmap, Ec. }
  set (w := if _ <=? _ then _ else _). set (p1 := foldl _ _ (rc_qps c)).
  assert (E1 : rp_conns p1 = rp_conns p).
  { unfold p1. change (rp_conns p) with (rp_conns (with_world w p)).
    generalize (with_world w p). clear. induction (rc_qps c) as [|q qs IH]; intros p0; [done|].
    cbn [foldl]. by rewrite IH. }
  destruct (rc_recv_mr c); unfold work; cbn; by rewrite fmap_delete, E1.
Qed.

Lemma new_conn_id_fresh p : rp_conns p !! new_conn_id p = None.
Proof.
  destruct (rp_conns p !! new_conn_id p) as [c|] eqn:E; [|done]. exfalso.
  assert (G : ∀ l x, In x l → x <= foldr Z.max 0 l)
    by (induction l as [|y l IH]; cbn; [done|intros x [->|Hx]; [lia|specialize (IH x Hx); lia]]).
  apply elem_of_map_to_list in E.
  apply (list_elem_of_fmap_2 fst) in E || apply (elem_of_list_fmap_1 fst) in E.
  cbn in E. apply list_elem_of_In in E.
  pose proof (G ((map_to_list (rp_conns p)).*1 ++ rp_ctrl_conns p
    ++ (map_to_list (rp_conn_by_qp p)).*2) (new_conn_id p)) as H'.
  rewrite in_app_iff in H'. specialize (H' (or_introl E)). unfold new_conn_id in H' at 1. lia.
Qed.

Lemma install_conn_work id c p : work (install_conn id c p) = <[id := conn_work c]> (work p).
Proof.
  unfold install_conn, work. cbn.
  assert (E : ∀ qs p0, rp_conns (foldl (fun p q => register_conn (W := W) (C := C) id (qp_num q) p) p0 qs)
    = rp_conns p0).
  { induction qs as [|q qs IH]; intros p0; [done|]. cbn [foldl]. by rewrite IH. }
  rewrite E. cbn. by rewrite fmap_insert.
Qed.

Lemma prove_conn_work id p :
  work (fst (prove_conn id p)) = work p ∨ work (fst (prove_conn id p)) = delete id (work p).
Proof.
  unfold prove_conn. destruct (alloc_buffer _ _) as [w a].
  pose proof (arm_receives_work id a (rg_rq_depth (rp_cfg p)) (with_world w p)) as E1.
  destruct (arm_receives _ _ _ _) as [p1 rs]. cbn [fst] in E1.
  destruct (negb _); [right; cbn [fst]; by rewrite destroy_conn_work, E1|].
  pose proof (verify_path_work id a (rg_verify_timeout_ms (rp_cfg p1)) p1) as E2.
  destruct (verify_path _ _ _ _) as [p2 proved]. cbn [fst] in E2.
  destruct (negb _); cbn [fst]; [right|left; by rewrite E2].
  rewrite destroy_conn_work. change (delete id (work p2) = delete id (work p)). by rewrite E2, E1.
Qed.

Lemma build_connection_sum sock p g :
  work_sum g (work (fst (build_connection sock p))) = work_sum g (work p).
Proof.
  unfold build_connection. destruct (create_qps _ _ _ _ _) as [w made]. destruct made as [qps|]; [|done].
  destruct (io_exec _ _ _ _) as [[[r sent] got] rest]. destruct r as [s|e|]; [|done|done].
  destruct (bring_up_all _ _ _ _ _ _) as [w2 bs]. destruct (negb _); [done|].
  set (p0 := with_world w2 p).
  pose proof (prove_conn_work (new_conn_id p0) (install_conn (new_conn_id p0) (new_conn sock qps s) p0))
    as E.
  destruct (prove_conn _ _) as [p1 st]. cbn [fst] in *. rewrite install_conn_work in E.
  assert (Hf : work p0 !! new_conn_id p0 = None)
    by (unfold work; by rewrite lookup_fmap, new_conn_id_fresh).
  change (work p) with (work p0). destruct E as [->| ->].
  - rewrite work_sum_insert by done. replace (conn_work _) with (replicate (length qps) (@nil (Z * InflightKey))).
    + by rewrite qs_sum_nil.
    + unfold conn_work, new_conn. cbn [rc_qps]. clear. induction qps as [|q qps IH]; [done|].
      cbn [length replicate fmap list_fmap]. by rewrite IH.
  - by rewrite delete_insert_id.
Qed.

Lemma connect_sum p m g : work_sum g (work (fst (rdma_connect p m))) = work_sum g (work p).
Proof.
  unfold rdma_connect. destruct (parse_rdma_metadata m) as [[port ip]|e|]; [|done|done].
  destruct (dial _ _ _) as [w [e|sock]]; [done|]. unfold connect_on.
  pose proof (build_connection_sum sock (with_world w p) g) as E.
  destruct (build_connection _ _) as [p1 [s id]]. cbn [fst] in E.
  case_bool_decide; exact E.
Qed.

(** ** The contract *)

#[export] Instance rdma_provider : TransportProvider RdmaProvider := {
  caps := rdma_caps;
  stats := rp_stats;
  register_region p a l _ f := rdma_register_region p a l f;
  deregister_region := rdma_deregister_region;
  connect := rdma_connect;
  disconnect := rdma_disconnect;
  local_metadata := rdma_metadata;
  submit := rdma_submit;
  poll := rdma_poll;
  send_control := rdma_send_control;
  broadcast_control := rdma_broadcast_control;
  poll_control := rdma_poll_control;
  poll_peer_arrivals := rdma_poll_peer_arrivals;
  alive := conn_alive;
  qp_count p id :=
    match rp_conns p !! id with Some c => Z.of_nat (length (rc_qps c)) | None => 0 end
}.

#[export] Program Instance rdma_laws : ProviderLaws RdmaProvider := {
  outstanding p i := work_sum (of_request i) (work p)
}.
Next Obligation.
  intros p c ops. cbn. destruct (rdma_submit p c ops) as [p' r] eqn:E. by apply submit_sum in E as [? _].
Qed.
Next Obligation.
  intros p c ops i. cbn. destruct (rdma_submit p c ops) as [p' r] eqn:E. apply submit_sum in E as [_ E].
  rewrite E, of_request_ops; done.
Qed.
Next Obligation. intros p n i. apply retires_count, poll_retires. Qed.
Next Obligation. intros. cbn. by rewrite register_work. Qed.
Next Obligation. intros. cbn. by rewrite deregister_work. Qed.
Next Obligation. intros. apply connect_sum. Qed.
Next Obligation. intros. cbn. by rewrite disconnect_work. Qed.
Next Obligation. intros. cbn. by rewrite send_control_work. Qed.
Next Obligation. intros. cbn. by rewrite broadcast_work. Qed.
Next Obligation. intros. cbn. by rewrite poll_control_work. Qed.
Next Obligation. done. Qed.

End Laws.
