(* ===== verification/RdmaBudget.v ===== *)
(** * The RDMA transport's use of its congestion controller.

    The controller counts bytes in flight; the transport claims them while it
    plans, gives back what it did not post, and gives back each operation's when
    it is retired.  Proved against the controller's interface: the count is the
    bytes of the operations outstanding, over all connections. *)

From stdpp Require Import base list gmap strings numbers relations.
From S2P Require Import Prelude Float64 Types Wire SocketIo Outbox Provider Congestion RdmaWire.
From S2P Require Import RdmaVerbs RdmaControl RdmaProvider RdmaLaws.

Section Budget.
Context {W C : Type} `{Verbs W} `{Sockets W} `{CcAccounting C}.
Implicit Types p : RdmaProvider (W := W) (C := C).

(** Bytes in one direction, and how many keys have a negative length (none). *)

Definition bytes_in (d : CcDirection.t) (k : InflightKey) : nat :=
  if decide (key_dir k = d) then Z.to_nat (ik_bytes k) else 0%nat.

Definition negative (k : InflightKey) : nat := if ik_bytes k <? 0 then 1%nat else 0%nat.

Lemma bytes_in_timeless d : timeless (bytes_in d).
Proof. done. Qed.

Lemma negative_timeless : timeless negative.
Proof. done. Qed.

Definition budget p : Prop :=
  (∀ d, inflight_bytes (rp_cc p) d = Z.of_nat (work_sum (bytes_in d) (work p)))
  ∧ work_sum negative (work p) = 0%nat.

(** ** Giving back *)

Lemma release_exactly used b : 0 <= b <= used → release_bytes used b = used - b.
Proof. intros Hb. unfold release_bytes. destruct (b <? used) eqn:E; b2p; lia. Qed.

Lemma retire_cc_bytes st now k (cc : C) d :
  0 <= ik_bytes k → Z.of_nat (bytes_in d k) <= inflight_bytes cc d →
  inflight_bytes (retire_cc st now k cc) d = inflight_bytes cc d - Z.of_nat (bytes_in d k).
Proof.
  intros Hk. unfold bytes_in, retire_cc. case_decide as Hd; intros Hb.
  - rewrite Hd. case_bool_decide; rewrite ?feedback_counts, ?error_counts;
      rewrite release_exactly; lia.
  - case_bool_decide; rewrite ?feedback_other, ?error_other by congruence; lia.
Qed.

Lemma retire_all_bytes (ks : list (InflightKey * (Z * Z))) (cc : C) d :
  keys_sum negative ks.*1 = 0%nat →
  Z.of_nat (keys_sum (bytes_in d) ks.*1) <= inflight_bytes cc d →
  inflight_bytes (foldl (fun cc kt => retire_cc (fst (status_from_wc (fst (snd kt)))) (snd (snd kt))
                                        (fst kt) cc) cc ks) d
  = inflight_bytes cc d - Z.of_nat (keys_sum (bytes_in d) ks.*1).
Proof.
  revert cc. induction ks as [|[k t] ks IH]; intros cc; cbn [fmap list_fmap keys_sum foldl fst snd].
  - intros _ _. lia.
  - intros Hn Hb. assert (Hk : 0 <= ik_bytes k).
    { unfold negative in Hn. destruct (ik_bytes k <? 0) eqn:E; b2p; lia. }
    rewrite IH by (try rewrite retire_cc_bytes by lia; lia).
    rewrite retire_cc_bytes by lia. lia.
Qed.

Lemma retires_budget p p' evs : retires p p' evs → budget p → budget p'.
Proof.
  intros (ks & _ & Ec & S) [B N]. pose proof (S negative) as Sn. split; [|lia].
  intros d. pose proof (S (bytes_in d)) as Sd. rewrite Ec, retire_all_bytes, B by (rewrite ?B; lia). lia.
Qed.

(** ** Claiming *)

Definition plan_bytes (d : CcDirection.t) (plan : list Planned) : nat :=
  ops_sum (bytes_in d) (pl_op <$> plan).

Lemma op_dir_key op t : key_dir (op_key op t) = op_dir op.
Proof. unfold key_dir, op_dir. cbn. by case_bool_decide. Qed.

Lemma ops_sum_app g l k : ops_sum g (l ++ k) = (ops_sum g l + ops_sum g k)%nat.
Proof. unfold ops_sum. by rewrite fmap_app, keys_sum_app. Qed.

Lemma plan_one_cc cfg regions op (s : Planning (W := W) (C := C)) s' st d :
  plan_one cfg regions op s = (s', st) → 0 <= op_length op → 0 <= inflight_bytes (pn_cc s) d →
  inflight_bytes (pn_cc s) d + Z.of_nat (ops_sum (bytes_in d) [op]) < 2 ^ 64 →
  inflight_bytes (pn_cc s') d
  = inflight_bytes (pn_cc s) d
    + Z.of_nat (ops_sum (bytes_in d) (if bool_decide (st = Status.kOk) then [op] else [])).
Proof.
  assert (Same : inflight_bytes (pn_cc s) d
    = inflight_bytes (pn_cc s) d + Z.of_nat (ops_sum (bytes_in d) [])) by (cbn; lia).
  unfold plan_one. destruct (regions !! _) as [mr|]; [|intros [= <- <-]; done].
  cbn [pick_queue_pair_locked]. destruct (pick_loop _ _ _ _ _) as [qi|]; [|intros [= <- <-]; done].
  destruct (rc_qps _ !! qi) as [q|]; [|intros [= <- <-]; done].
  destruct (_ <=? _); [intros [= <- <-]; done|]. destruct (clock _) as [w now].
  destruct (negb _); [intros [= <- <-]; done|]. intros [= <- <-] Hop H0' Hb. cbn [pn_cc plan_push].
  rewrite bool_decide_true by done. cbn [with_picked pn_cc].
  unfold ops_sum in *. cbn [fmap list_fmap keys_sum] in *. rewrite Nat.add_0_r in *.
  unfold bytes_in in *. rewrite op_dir_key in *. cbn [ik_bytes op_key] in *.
  destruct (decide (op_dir op = d)) as [<-|Hne].
  - rewrite post_counts, wrapw_id by (unfold uw; lia). lia.
  - rewrite post_other by congruence. lia.
Qed.

Lemma plan_loop_cc cfg regions ops (s : Planning (W := W) (C := C)) s' st d :
  plan_loop cfg regions ops s = (s', st) → Forall (fun op => 0 <= op_length op) ops →
  0 <= inflight_bytes (pn_cc s) d →
  inflight_bytes (pn_cc s) d + Z.of_nat (ops_sum (bytes_in d) ops) < 2 ^ 64 →
  inflight_bytes (pn_cc s') d + Z.of_nat (plan_bytes d (pn_plan s))
  = inflight_bytes (pn_cc s) d + Z.of_nat (plan_bytes d (pn_plan s')).
Proof.
  revert s. induction ops as [|op ops IH]; intros s; cbn [plan_loop].
  - intros [= <- <-] _ _ _. lia.
  - change (op :: ops) with ([op] ++ ops). rewrite ops_sum_app.
    destruct (plan_one cfg regions op s) as [s1 st1] eqn:E1. intros E F H0' Hb.
    inversion F as [|? ? Fo F']; subst.
    pose proof (plan_one_cc _ _ _ _ _ _ d E1 Fo H0' ltac:(lia)) as Hc.
    apply plan_one_spec in E1 as (_ & _ & P1).
    assert (Ep : plan_bytes d (pn_plan s1) = (plan_bytes d (pn_plan s)
      + ops_sum (bytes_in d) (if bool_decide (st1 = Status.kOk) then [op] else []))%nat)
      by (unfold plan_bytes; by rewrite P1, ops_sum_app).
    case_bool_decide; [|injection E as <- <-; lia].
    specialize (IH s1 E F' ltac:(lia) ltac:(lia)). lia.
Qed.

Lemma release_unposted_bytes plan (w : W) (cc : C) d :
  Forall (fun op => 0 <= op_length op) (pl_op <$> plan) →
  Z.of_nat (plan_bytes d plan) <= inflight_bytes cc d →
  inflight_bytes (snd (release_unposted plan w cc)) d
  = inflight_bytes cc d - Z.of_nat (plan_bytes d plan).
Proof.
  revert w cc. induction plan as [|pl plan IH]; intros w cc F Hb; cbn [release_unposted].
  { cbn. lia. }
  cbn [fmap list_fmap] in F. inversion F as [|? ? Fo F']; subst. destruct (clock w) as [w1 now].
  assert (Ep : plan_bytes d (pl :: plan)
    = (bytes_in d (op_key (pl_op pl) 0) + plan_bytes d plan)%nat) by done.
  rewrite Ep in *. unfold bytes_in in *. rewrite op_dir_key in *. cbn [ik_bytes op_key] in *.
  destruct (decide (op_dir (pl_op pl) = d)) as [<-|Hne].
  - rewrite IH; rewrite ?error_counts, ?release_exactly by lia; auto; lia.
  - rewrite IH; rewrite ?error_other by congruence; auto; lia.
Qed.

Lemma submit_cc p id ops p' r d :
  rdma_submit p id ops = (p', r) → Forall (fun op => 0 <= op_length op) ops →
  0 <= inflight_bytes (rp_cc p) d →
  inflight_bytes (rp_cc p) d + Z.of_nat (ops_sum (bytes_in d) ops) < 2 ^ 64 →
  inflight_bytes (rp_cc p') d
  = inflight_bytes (rp_cc p) d + Z.of_nat (ops_sum (bytes_in d) (take (sr_accepted r) ops)).
Proof.
  assert (Same : inflight_bytes (rp_cc p) d
    = inflight_bytes (rp_cc p) d + Z.of_nat (ops_sum (bytes_in d) (take 0 ops)))
    by (rewrite take_0; unfold ops_sum; cbn [fmap list_fmap keys_sum]; lia).
  unfold rdma_submit. destruct (rp_conns p !! id) as [c|] eqn:Ec; [|intros [= <- <-]; done].
  destruct (rc_failed c); [intros [= <- <-]; done|]. case_bool_decide; [intros [= <- <-]; done|].
  destruct (_ =? 0); [intros [= <- <-]; done|]. intros E F H0' Hb. clear Same.
  destruct (plan_loop _ _ _ _) as [s st] eqn:Ep.
  pose proof (plan_loop_cc _ _ _ _ _ _ d Ep F H0' Hb) as Hc.
  apply plan_loop_spec in Ep as (Q & _ & k & P & Hk). cbn in Q, P, Hc.
  change (plan_bytes d []) with 0%nat in Hc. rewrite Z.add_0_r in Hc.
  set (plan := mark_anchors _ _) in E.
  assert (Po : pl_op <$> plan = take k ops) by (unfold plan; by rewrite mark_anchors_ops).
  assert (Pb : plan_bytes d (pn_plan s) = plan_bytes d plan) by (unfold plan_bytes; by rewrite P, Po).
  destruct (rpost_loop plan _ _ _ _) as [[[[w qps] stats] done] rc] eqn:Er.
  apply rpost_loop_spec in Er as (k2 & -> & Hk2 & _).
  pose proof (release_unposted_bytes (drop (0 + k2) plan) w (pn_cc s) d) as Hr.
  destruct (release_unposted _ _ _) as [w2 cc2]. cbn [snd] in Hr.
  apply pair_equal_spec in E as [<- <-]. cbn [rp_cc with_conns with_world with_cc].
  assert (Hs : plan_bytes d plan
    = (plan_bytes d (take k2 plan) + plan_bytes d (drop (0 + k2) plan))%nat).
  { unfold plan_bytes. rewrite <- ops_sum_app, <- fmap_app. cbn [Nat.add]. by rewrite take_drop. }
  rewrite Hr; [| |lia].
  2:{ rewrite fmap_drop, Po. by apply Forall_drop, Forall_take. }
  assert (Ht : plan_bytes d (take k2 plan) = ops_sum (bytes_in d) (take k2 ops)).
  { unfold plan_bytes. rewrite fmap_take, Po, take_take. f_equal. f_equal.
    rewrite <- (length_fmap pl_op), Po, length_take in Hk2. lia. }
  replace (sr_accepted _) with k2 by (by destruct rc). lia.
Qed.

Lemma negative_ops ops : Forall (fun op => 0 <= op_length op) ops → ops_sum negative ops = 0%nat.
Proof.
  unfold ops_sum. induction 1 as [|op ops Ho F IH]; [done|]. cbn [fmap list_fmap keys_sum].
  rewrite IH. unfold negative. cbn [op_key ik_bytes]. by rewrite (proj2 (Z.ltb_ge _ _)).
Qed.

Lemma submit_budget p id ops p' r :
  rdma_submit p id ops = (p', r) → Forall (fun op => 0 <= op_length op) ops →
  (∀ d, Z.of_nat (work_sum (bytes_in d) (work p) + ops_sum (bytes_in d) ops) < 2 ^ 64) →
  budget p → budget p'.
Proof.
  intros E F Hb [B N]. pose proof (submit_sum _ _ _ _ _ E) as [_ S]. split.
  - intros d. rewrite (S _ (bytes_in_timeless d)). specialize (Hb d).
    rewrite (submit_cc _ _ _ _ _ d E F), B by (rewrite ?B; lia). lia.
  - rewrite (S _ negative_timeless), N, negative_ops; [done|]. by apply Forall_take.
Qed.

(** ** Runs *)

Inductive budget_step :
    RdmaProvider (W := W) (C := C) → RdmaProvider (W := W) (C := C) → Prop :=
| bs_submit p id ops p' r :
    rdma_submit p id ops = (p', r) → Forall (fun op => 0 <= op_length op) ops →
    (∀ d, Z.of_nat (work_sum (bytes_in d) (work p) + ops_sum (bytes_in d) ops) < 2 ^ 64) →
    budget_step p p'
| bs_poll p n : budget_step p (fst (rdma_poll p n))
| bs_other p p' :
    rp_cc p' = rp_cc p → (∀ g, work_sum g (work p') = work_sum g (work p)) → budget_step p p'.

Lemma budget_steps p p' : rtc budget_step p p' → budget p → budget p'.
Proof.
  induction 1 as [|p p1 p2 St _ IH]; [done|]. intros B. apply IH. clear IH.
  destruct St as [p id ops p1 r E F Hb|p n|p p1 Ec Ew].
  - by apply (submit_budget _ _ _ _ _ E).
  - by apply (retires_budget p _ _ (poll_retires p n)).
  - destruct B as [B N]. split; [intros d; by rewrite Ec, Ew|by rewrite Ew].
Qed.

(** ** Properties *)

(** C27: Budget is claimed and given back exactly once.  From a transport with
    nothing outstanding, through any submissions (whole, cut short by the key
    table, the queues, the controller or the adapter) and polls, whatever the
    adapter answers, the bytes the controller counts in flight in each direction
    are the bytes of the operations posted and not reported; when none is
    outstanding the count is zero. *)
Theorem rdma_budget_exact p0 p d :
  (∀ e, inflight_bytes (rp_cc p0) e = 0) → (∀ g, work_sum g (work p0) = 0%nat) →
  rtc budget_step p0 p →
  inflight_bytes (rp_cc p) d = Z.of_nat (work_sum (bytes_in d) (work p))
  ∧ ((∀ g, work_sum g (work p) = 0%nat) → inflight_bytes (rp_cc p) d = 0).
Proof.
  intros Hc Hw R. apply budget_steps in R as [B _]; [|split; intros; rewrite Hw; auto].
  split; [done|]. intros Hz. by rewrite B, Hz.
Qed.

(** A connection destroyed with operations outstanding keeps their budget.
    The destructor retires nothing and later completions of its queue pairs find
    no connection, so the controller goes on counting the bytes of every
    operation the connection still had out, beyond those of the operations that
    remain. *)
Theorem destroyed_conn_keeps_budget p id c d :
  budget p → rp_conns p !! id = Some c →
  inflight_bytes (rp_cc (destroy_conn id p)) d
  = Z.of_nat (work_sum (bytes_in d) (work (destroy_conn id p)))
    + Z.of_nat (qs_sum (bytes_in d) (conn_work c)).
Proof.
  intros [B _] Hc. rewrite destroy_conn_work.
  assert (E : rp_cc (destroy_conn id p) = rp_cc p).
  { unfold destroy_conn. rewrite Hc. set (w := if _ <=? _ then _ else _).
    set (p1 := foldl _ _ (rc_qps c)). assert (E1 : rp_cc p1 = rp_cc p).
    { unfold p1. change (rp_cc p) with (rp_cc (with_world w p)). generalize (with_world w p).
      clear. induction (rc_qps c) as [|q qs IH]; intros p2; [done|]. cbn [foldl]. by rewrite IH. }
    by destruct (rc_recv_mr c). }
  rewrite E, B. rewrite (work_sum_split _ id (conn_work c)) by (unfold work; by rewrite lookup_fmap, Hc).
  lia.
Qed.

End Budget.
