(* ===== verification/RdmaSafe.v ===== *)
(** * The RDMA transport's queue accounting against the adapter.

    One connection is followed from the moment it is handed out, through any
    interleaving of submissions, polls, other connections proving themselves on
    the shared completion queue, and the adapter at work.  [AdapterLaws] is what
    verbs documents of a reliable connection: a posted request joins its queue
    pair's send queue, requests leave it in order, and a completion is queued
    for one that asked for it or failed. *)

From Stdlib Require Import Sorted.
From stdpp Require Import base list gmap strings numbers relations.
From S2P Require Import Prelude Float64 Types Wire SocketIo Outbox Provider Congestion RdmaWire.
From S2P Require Import RdmaVerbs RdmaControl RdmaProvider RdmaLaws.

(** ** The adapter *)

(** [sq w n] is the requests posted on queue pair [n] that the adapter has not
    finished, oldest first, with whether each asked for a completion; [cq w] the
    completions waiting in the queue. *)

Class AdapterLaws (W : Type) `{Verbs W} : Type := {
  sq : W → Z → list (Z * bool);
  cq : W → list Wc;
  clock_quiet w : (∀ n, sq (fst (clock w)) n = sq w n) ∧ cq (fst (clock w)) = cq w;
  post_recv_quiet w m : (∀ n, sq (fst (post_recv w m)) n = sq w n) ∧ cq (fst (post_recv w m)) = cq w;
  post_send_law w m wr :
    cq (fst (post_send w m wr)) = cq w
    ∧ (∀ n, n ≠ m → sq (fst (post_send w m wr)) n = sq w n)
    ∧ sq (fst (post_send w m wr)) m
      = sq w m ++ (if snd (post_send w m wr) =? 0 then [(swr_id wr, swr_signaled wr)] else []);
  poll_cq_law w k :
    (∀ n, sq (fst (poll_cq w k)) n = sq w n)
    ∧ cq w = default [] (snd (poll_cq w k)) ++ cq (fst (poll_cq w k))
}.

(** The adapter finishes the oldest request of a queue pair, or a receive
    completes. *)

Inductive adapter_step {W} `{AdapterLaws W} (w w' : W) : Prop :=
| adapter_done n id sig rest wc :
    sq w n = (id, sig) :: rest → sq w' n = rest → (∀ m, m ≠ n → sq w' m = sq w m) →
    wc_wr_id wc = id → wc_qp_num wc = n →
    cq w' = cq w ++ (if sig || negb (wc_status wc =? IBV_WC_SUCCESS) then [wc] else []) →
    adapter_step w w'
| adapter_recv wc :
    (∀ m, sq w' m = sq w m) → is_recv_id (wc_wr_id wc) = true → cq w' = cq w ++ [wc] →
    adapter_step w w'.

(** ** One queue pair *)

(** The ids of the data completions of queue pair [n], in order. *)

Definition is_data_of (n : Z) (wc : Wc) : Prop :=
  wc_qp_num wc = n ∧ (wc_wr_id wc =? kVerifyWrId) = false ∧ is_recv_id (wc_wr_id wc) = false.

#[global] Instance is_data_of_dec n wc : Decision (is_data_of n wc).
Proof. unfold is_data_of. apply _. Defined.

Definition pend (n : Z) (l : list Wc) : list Z := wc_wr_id <$> filter (is_data_of n) l.

Lemma pend_app n l k : pend n (l ++ k) = pend n l ++ pend n k.
Proof. unfold pend. by rewrite list.filter_app, fmap_app. Qed.

Lemma pend_cons n wc l :
  pend n (wc :: l) = (if decide (is_data_of n wc) then [wc_wr_id wc] else []) ++ pend n l.
Proof. unfold pend. rewrite filter_cons. by case_decide. Qed.

Lemma pend_one n wc : pend n [wc] = if decide (is_data_of n wc) then [wc_wr_id wc] else [].
Proof. rewrite pend_cons. by case_decide. Qed.

(** [n]-step counting of sequence numbers ending at [posted]. *)

Definition seqs_to (posted : Z) (n : nat) : list Z := seqZ (posted - Z.of_nat n) (Z.of_nat n).

(** What holds of queue pair [q], the [i]-th of its connection: its unretired
    entries are numbered up to [posted]; the adapter's unfinished requests are
    the newest of them; the completions on their way are of finished requests,
    in order, none retired yet. *)

Record qp_inv (depth : Z) (i : nat) (q : QueuePair) (s : list (Z * bool)) (ids : list Z) : Prop :=
  mkQpInv {
  qi_range : Z.of_nat (length (qp_unsignalled q)) <= qp_posted q <= 2 ^ 48;
  qi_seqs : (qp_unsignalled q).*1 = seqs_to (qp_posted q) (length (qp_unsignalled q));
  qi_reclaimed : qp_reclaimed q = qp_posted q - Z.of_nat (length (qp_unsignalled q));
  qi_depth : Z.of_nat (length (qp_unsignalled q)) <= depth;
  qi_sq : s.*1 = make_wr_id (Z.of_nat i) <$> seqs_to (qp_posted q) (length s);
  qi_sq_le : (length s <= length (qp_unsignalled q))%nat;
  qi_pend : ∃ seqs, ids = make_wr_id (Z.of_nat i) <$> seqs ∧ StronglySorted Z.lt seqs
    ∧ Forall (fun x => qp_reclaimed q <= x < qp_posted q - Z.of_nat (length s)) seqs
}.

(** Something on its way will retire the newest entry: the newest unfinished
    request asked for a completion, or that completion is on its way. *)

Definition qp_anchor (i : nat) (q : QueuePair) (s : list (Z * bool)) (ids : list Z) : Prop :=
  match list.last s with
  | Some (_, sig) => sig = true
  | None => qp_unsignalled q = [] ∨ list.last ids = Some (make_wr_id (Z.of_nat i) (qp_posted q - 1))
  end.

(** ** Lemmas on one queue pair *)

Lemma seqs_to_length p n : length (seqs_to p n) = n.
Proof. unfold seqs_to. rewrite length_seqZ. lia. Qed.

Lemma seqs_to_snoc p n : seqs_to (p + 1) (S n) = seqs_to p n ++ [p].
Proof.
  unfold seqs_to. replace (p + 1 - Z.of_nat (S n)) with (p - Z.of_nat n) by lia.
  replace (Z.of_nat (S n)) with (Z.of_nat n + 1) by lia. rewrite seqZ_app by lia. f_equal.
  replace (p - Z.of_nat n + Z.of_nat n) with p by lia. done.
Qed.

Lemma seqs_to_cons p n : seqs_to p (S n) = (p - Z.of_nat (S n)) :: seqs_to p n.
Proof.
  unfold seqs_to. rewrite seqZ_cons by lia. f_equal. f_equal; lia.
Qed.

Lemma seqs_to_drop p n k : (k <= n)%nat → drop k (seqs_to p n) = seqs_to p (n - k).
Proof.
  revert k. induction n as [|n IH]; intros [|k] Hk; try done; try lia.
  rewrite seqs_to_cons. cbn [drop Nat.sub]. apply IH. lia.
Qed.

Lemma make_wr_id_inj i x y :
  0 <= i < 2 ^ 15 → 0 <= x < 2 ^ 48 → 0 <= y < 2 ^ 48 → make_wr_id i x = make_wr_id i y → x = y.
Proof. intros Hi Hx Hy E. apply (f_equal wr_seq) in E. by rewrite !wr_seq_make in E. Qed.

Section Queue.
Context {C : Type} `{CongestionController C}.

Lemma retire_rest wcs x now us (cc : C) st a :
  us.*1 = seqZ a (Z.of_nat (length us)) → a <= x →
  fst (fst (fst (retire wcs x now us cc st))) = drop (Z.to_nat (x - a + 1)) us.
Proof.
  revert cc st a. induction us as [|[s k] us IH]; intros cc st a E Ha; cbn [retire].
  - by rewrite drop_nil.
  - cbn [fmap list_fmap length] in E. rewrite seqZ_cons in E by lia. injection E as -> E.
    rewrite (proj2 (Z.leb_le _ _)) by done.
    set (cc' := retire_cc _ _ _ _). set (st' := if bool_decide _ then _ else _).
    replace (Z.to_nat (x - a + 1)) with (S (Z.to_nat (x - a))) by lia. cbn [drop].
    destruct (decide (a = x)) as [->|Hne].
    + rewrite Z.sub_diag. cbn [Z.to_nat drop]. destruct us as [|[s2 k2] us]; [done|].
      cbn [fmap list_fmap length] in E. rewrite seqZ_cons in E by lia. injection E as -> E.
      cbn [retire]. by rewrite (proj2 (Z.leb_gt (Z.succ x) x)) by lia.
    + specialize (IH cc' st' (Z.succ a)). destruct (retire _ _ _ us _ _) as [[[us' cc2] st2] evs].
      cbn [fst] in *. rewrite IH; [f_equal; lia|rewrite E; f_equal; lia|lia].
Qed.

End Queue.

Section Pairs.
Context (depth : Z) (i : nat) (Hi : Z.of_nat i < 2 ^ 14).

Lemma qp_retire_inv q s ids wcs x now {C} `{CongestionController C} (cc : C) st us :
  qp_inv depth i q s (make_wr_id (Z.of_nat i) x :: ids) → 0 <= x < 2 ^ 48 →
  us = fst (fst (fst (retire wcs x now (qp_unsignalled q) cc st))) →
  qp_inv depth i (retired_qp us x q) s ids.
Proof.
  intros [R S Re D Sq Sl (seqs & E & St & F)] Hx ->.
  destruct seqs as [|x' seqs]; [done|]. injection E as Ex ->.
  inversion F as [|? ? Fx F']; subst. inversion St as [|? ? St' Fl]; subst.
  apply make_wr_id_inj in Ex as <-; [|lia..].
  rewrite (retire_rest _ _ _ _ _ _ (qp_reclaimed q)); [|by rewrite S, Re|lia].
  set (k := Z.to_nat (x - qp_reclaimed q + 1)).
  assert (Hk : (k + length s <= length (qp_unsignalled q))%nat) by lia.
  split; cbn; rewrite ?length_drop; try lia.
  - rewrite fmap_drop, S, seqs_to_drop by lia. done.
  - rewrite wrapw_id by (unfold uw; lia). lia.
  - done.
  - exists seqs. split_and!; auto. rewrite wrapw_id by (unfold uw; lia).
    rewrite list.Forall_forall in F', Fl |- *. intros y Hy. specialize (F' y Hy). specialize (Fl y Hy). lia.
Qed.

Lemma qp_retire_anchor q s ids wcs x now {C} `{CongestionController C} (cc : C) st us :
  qp_inv depth i q s (make_wr_id (Z.of_nat i) x :: ids) → 0 <= x < 2 ^ 48 →
  qp_anchor i q s (make_wr_id (Z.of_nat i) x :: ids) →
  us = fst (fst (fst (retire wcs x now (qp_unsignalled q) cc st))) →
  qp_anchor i (retired_qp us x q) s ids.
Proof.
  intros [R S Re D Sq Sl (seqs & E & St & F)] Hx A ->. unfold qp_anchor in *.
  destruct (list.last s) as [[]|] eqn:Es; [done|]. cbn [retired_qp qp_unsignalled qp_posted].
  destruct seqs as [|x' seqs]; [done|]. injection E as Ex ->.
  inversion F as [|? ? Fx F']; subst. apply make_wr_id_inj in Ex as <-; [|lia..].
  destruct A as [A|A]; [rewrite A in *; cbn in *; lia|].
  destruct seqs as [|y seqs]; [left|right; exact A].
  cbn [list.last] in A. injection A as A. apply make_wr_id_inj in A; [|lia..].
  rewrite (retire_rest _ _ _ _ _ _ (qp_reclaimed q)); [|by rewrite S, Re|lia].
  apply drop_ge. lia.
Qed.

Lemma qp_post_inv q s ids pl t :
  qp_inv depth i q s ids → Z.of_nat (length (qp_unsignalled q)) < depth →
  qp_posted q < 2 ^ 48 →
  qp_inv depth i (posted_qp pl t q) (s ++ [(make_wr_id (Z.of_nat i) (qp_posted q), pl_signal pl)]) ids.
Proof.
  intros [R S Re D Sq Sl (seqs & E & St & F)] Hd Hp.
  split; cbn; rewrite ?length_app; cbn [length]; rewrite ?wrapw_id by (unfold uw; lia); try lia.
  - rewrite fmap_app, S, Nat.add_1_r, seqs_to_snoc. done.
  - rewrite fmap_app, Sq, Nat.add_1_r, seqs_to_snoc, fmap_app. done.
  - exists seqs. split_and!; auto. eapply Forall_impl; [exact F|]. cbn. lia.
Qed.

Lemma qp_finish_inv q id sig s ids b :
  qp_inv depth i q ((id, sig) :: s) ids →
  qp_inv depth i q s (ids ++ (if b : bool then [id] else [])).
Proof.
  intros [R S Re D Sq Sl (seqs & E & St & F)]. cbn in Sq, Sl, F.
  rewrite seqs_to_cons in Sq. injection Sq as -> Sq.
  split; auto; [lia|]. destruct b.
  - exists (seqs ++ [qp_posted q - Z.of_nat (Datatypes.S (length s))]). rewrite fmap_app, E.
    split_and!; [done| |].
    + clear -St F. induction seqs as [|y seqs IH]; cbn; [repeat constructor|].
      inversion St; inversion F; subst. constructor; [by apply IH|].
      apply Forall_app. split; [done|]. constructor; [lia|constructor].
    + apply Forall_app. split; [eapply Forall_impl; [exact F|]; cbn; lia|].
      constructor; [lia|constructor].
  - exists seqs. rewrite app_nil_r. split_and!; auto. eapply Forall_impl; [exact F|]. cbn. lia.
Qed.

Lemma qp_finish_anchor q id sig s ids (b : bool) :
  qp_inv depth i q ((id, sig) :: s) ids → (sig = true → b = true) →
  qp_anchor i q ((id, sig) :: s) ids →
  qp_anchor i q s (ids ++ (if b then [id] else [])).
Proof.
  intros [R S Re D Sq Sl _] Hb A. unfold qp_anchor in *. destruct s as [|x s].
  2:{ change (list.last ((id, sig) :: x :: s)) with (list.last (x :: s)) in A.
      destruct (list.last (x :: s)) as [[? ?]|] eqn:El; [done|by apply last_None in El]. }
  cbn in A |- *. rewrite (Hb A). right. rewrite last_snoc. f_equal.
  cbn [length] in Sq. rewrite seqs_to_cons in Sq. by injection Sq as ->.
Qed.

End Pairs.

(** ** A batch: planned, marked, posted *)

Definition cnt (i : nat) (plan : list Planned) : nat :=
  length (filter (fun p => pl_qp_index p = i) plan).

Lemma cnt_app i l k : cnt i (l ++ k) = (cnt i l + cnt i k)%nat.
Proof. unfold cnt. by rewrite list.filter_app, length_app. Qed.

Lemma cnt_cons i p l : cnt i (p :: l) = ((if decide (pl_qp_index p = i) then 1 else 0) + cnt i l)%nat.
Proof. unfold cnt. rewrite filter_cons. by case_decide. Qed.

(** Each operation planned finds room when those before it are posted. *)

Definition planned_ok (depth : Z) (qps : list QueuePair) (plan : list Planned) : Prop :=
  ∀ k p, plan !! k = Some p → ∃ q, qps !! pl_qp_index p = Some q
    ∧ qp_posted q + Z.of_nat (cnt (pl_qp_index p) (take k plan)) - qp_reclaimed q < depth.

(** The last operation on each queue pair asks for a completion. *)

Fixpoint anchored (plan : list Planned) : Prop :=
  match plan with
  | [] => True
  | p :: plan =>
      (Forall (fun p' => pl_qp_index p' ≠ pl_qp_index p) plan → pl_signal p = true) ∧ anchored plan
  end.

(** [last_on_qp] holds where each queue pair was last used. *)

Definition last_ok (last : list (option nat)) (plan : list Planned) : Prop :=
  ∀ k p, plan !! k = Some p → ∃ k' p', last !! pl_qp_index p = Some (Some k') ∧ (k <= k')%nat
    ∧ plan !! k' = Some p' ∧ pl_qp_index p' = pl_qp_index p.

Lemma mark_lookup last plan k :
  mark_anchors last plan !! k
  = (fun p => if decide (Some k ∈ last) then set_signal p else p) <$> plan !! k.
Proof.
  unfold mark_anchors. revert plan. induction last as [|o last IH]; intros plan; cbn [foldl].
  - destruct (plan !! k); cbn; [|done]. by rewrite decide_False by (intros H; inversion H).
  - rewrite IH. destruct o as [k'|].
    + destruct (decide (k = k')) as [->|Hne].
      * rewrite list_lookup_alter_eq. destruct (plan !! k') as [p|]; cbn; [|done]. f_equal.
        rewrite (decide_True (P := Some k' ∈ Some k' :: last)) by set_solver. by case_decide.
      * rewrite list_lookup_alter_ne by done. destruct (plan !! k); cbn; [|done]. f_equal.
        destruct (decide (Some k ∈ last)); [rewrite decide_True by set_solver; done|].
        by rewrite decide_False by set_solver.
    + destruct (plan !! k); cbn; [|done]. f_equal.
      destruct (decide (Some k ∈ last)); [rewrite decide_True by set_solver; done|].
      by rewrite decide_False by set_solver.
Qed.

Lemma mark_anchored last plan : last_ok last plan → anchored (mark_anchors last plan).
Proof.
  intros L.
  assert (G : ∀ l k, drop k (mark_anchors last plan) = l → anchored l).
  { induction l as [|p l IH]; intros k E; [done|]. cbn.
    assert (Ek : mark_anchors last plan !! k = Some p)
      by (rewrite <- (take_drop k (mark_anchors last plan)), E;
          assert (k <= length (mark_anchors last plan))%nat by
            (apply (f_equal length) in E; rewrite length_drop in E; cbn in E; lia);
          rewrite lookup_app_r; rewrite length_take; [|lia];
          replace (k - _)%nat with 0%nat by lia; done).
    split.
    - intros F. rewrite mark_lookup in Ek. destruct (plan !! k) as [p0|] eqn:E0; [|done].
      cbn in Ek. injection Ek as <-.
      destruct (L k p0 E0) as (k' & p' & Hl & Hk & Hp & Hq).
      assert (k' = k) as ->; [|by rewrite decide_True by (by eapply list_elem_of_lookup_2)].
      destruct (decide (k' = k)) as [|Hne]; [done|exfalso].
      assert (El : l !! (k' - S k)%nat = mark_anchors last plan !! k').
      { replace l with (drop (S k) (mark_anchors last plan))
          by (replace (S k) with (k + 1)%nat by lia; rewrite <- drop_drop, E; done).
        rewrite lookup_drop. f_equal. lia. }
      rewrite mark_lookup, Hp in El. cbn in El.
      pose proof (Forall_lookup_1 _ _ _ _ F El) as X. cbn in X.
      destruct (decide (Some k' ∈ last)), (decide (Some k ∈ last)); cbn in X; congruence.
    - apply (IH (S k)). replace (S k) with (k + 1)%nat by lia. rewrite <- drop_drop, E. done. }
  apply (G _ 0%nat). by rewrite drop_0.
Qed.

Lemma mark_planned_ok depth qps last plan :
  planned_ok depth qps plan → planned_ok depth qps (mark_anchors last plan).
Proof.
  intros P k p Hk. rewrite mark_lookup in Hk. destruct (plan !! k) as [p0|] eqn:E0; [|done].
  cbn in Hk. injection Hk as <-. destruct (P k p0 E0) as (q & Hq & Hlt). exists q.
  assert (Ep : pl_qp_index (if decide (Some k ∈ last) then set_signal p0 else p0) = pl_qp_index p0)
    by (by case_decide).
  rewrite Ep. split; [done|].
  replace (cnt (pl_qp_index p0) (take k (mark_anchors last plan)))
    with (cnt (pl_qp_index p0) (take k plan)); [done|].
  assert (G : ∀ i l l', (pl_qp_index <$> l) = (pl_qp_index <$> l') → cnt i l = cnt i l').
  { intros i l. induction l as [|x l IH]; intros [|y l'] E; try done.
    injection E as Ex E. rewrite !cnt_cons, Ex. by rewrite (IH l'). }
  apply G. rewrite !fmap_take. f_equal. apply list_eq. intros j. rewrite !list_lookup_fmap, mark_lookup.
  destruct (plan !! j) as [x|]; [|done]. cbn [fmap option_fmap option_map]. f_equal.
  by destruct (decide (Some j ∈ last)).
Qed.

Section Conn.
Context {W C : Type} `{Verbs W} `{Sockets W} `{!AdapterLaws W} `{CongestionController C}.
Implicit Types p : RdmaProvider (W := W) (C := C).
Context (cfg : RdmaConfig).

#[local] Abbreviation depth := (rg_sq_depth cfg).

(** A connection's queue pairs against the adapter; [ids n] is the completions
    of queue pair [n] on their way. *)

Definition qps_inv (w : W) (ids : Z → list Z) (qps : list QueuePair) : Prop :=
  ∀ i q, qps !! i = Some q → qp_inv depth i q (sq w (qp_num q)) (ids (qp_num q)).

Definition qps_anchored (w : W) (ids : Z → list Z) (qps : list QueuePair) : Prop :=
  ∀ i q, qps !! i = Some q → qp_anchor i q (sq w (qp_num q)) (ids (qp_num q)).

Record plan_inv (qps : list QueuePair) (w0 : W) (s : Planning (W := W) (C := C)) : Prop := {
  pv_seq i q : qps !! i = Some q →
    pn_next_seq s !! i = Some (qp_posted q + Z.of_nat (cnt i (pn_plan s)));
  pv_room : planned_ok depth qps (pn_plan s);
  pv_last_len : length (pn_last s) = length qps;
  pv_last : last_ok (pn_last s) (pn_plan s);
  pv_sq n : sq (pn_world s) n = sq w0 n;
  pv_cq : cq (pn_world s) = cq w0
}.

Lemma plan_push_inv qps w0 cc qi q op mr used s :
  plan_inv qps w0 s → qps !! qi = Some q → u64 (qp_posted q + Z.of_nat (cnt qi (pn_plan s)) + 1) →
  qp_posted q + Z.of_nat (cnt qi (pn_plan s)) - qp_reclaimed q < depth →
  plan_inv qps w0 (plan_push cfg cc qi used op mr s).
Proof.
  intros [S R Ll L Sq Cq] Hq Hu Hlt. pose proof (lookup_lt_Some _ _ _ Hq) as Hlen.
  split; cbn [plan_push pn_next_seq pn_plan pn_last pn_world]; auto.
  - intros i q' Hi. rewrite cnt_app, cnt_cons. cbn [pl_qp_index]. rewrite (S i q' Hi) || idtac.
    destruct (decide (qi = i)) as [->|Hne].
    + rewrite Hq in Hi. injection Hi as <-. pose proof (S i q Hq) as Si.
      rewrite list_lookup_insert_eq by (by eapply lookup_lt_Some). unfold at0. rewrite Si. cbn.
      rewrite wrapw_id by done. f_equal. unfold cnt. cbn. lia.
    + rewrite list_lookup_insert_ne by done. rewrite (S i q' Hi). f_equal. unfold cnt. cbn. lia.
  - intros k p Hk. apply lookup_snoc_Some in Hk as [[Hk Hp]|[-> <-]].
    + destruct (R k p Hp) as (q' & Hq' & Hl). exists q'. split; [done|].
      by rewrite take_app_le by lia.
    + cbn. exists q. split; [done|]. by rewrite take_app_length.
  - by rewrite length_insert.
  - intros k p Hk. apply lookup_snoc_Some in Hk as [[Hk Hp]|[-> <-]].
    + destruct (decide (qi = pl_qp_index p)) as [->|Hne].
      * exists (length (pn_plan s)). eexists. rewrite list_lookup_insert_eq by lia.
        split_and!; [done|lia|apply lookup_snoc_Some; by right|done].
      * destruct (L k p Hp) as (k' & p' & Hl & Hk' & Hp' & Hq'). exists k', p'.
        rewrite list_lookup_insert_ne by done. split_and!; auto. by apply lookup_app_l_Some.
    + cbn. exists (length (pn_plan s)). eexists. rewrite list_lookup_insert_eq by lia.
      split_and!; [done|lia|apply lookup_snoc_Some; by right|done].
Qed.

Lemma plan_one_inv regions op qps w0 s :
  rc_qps (pn_conn s) = qps → 
  (∀ i q, qps !! i = Some q → 0 <= qp_reclaimed q
     ∧ qp_reclaimed q <= qp_posted q ∧ qp_posted q + Z.of_nat (length (pn_plan s)) < 2 ^ 48) →
  plan_inv qps w0 s → plan_inv qps w0 (fst (plan_one cfg regions op s)).
Proof.
  intros Eq B I. unfold plan_one. destruct (regions !! _) as [mr|]; [|done].
  cbn [pick_queue_pair_locked]. set (picked := pick_loop _ _ _ _ _).
  set (c1 := with_next_qp _ _). set (s1 := with_picked (pn_world s) c1 s).
  assert (I1 : plan_inv qps w0 s1) by (destruct I; by split).
  destruct picked as [qi|]; [|done].
  destruct (rc_qps c1 !! qi) as [q|] eqn:Hq; [|done]. cbn in Hq. rewrite Eq in Hq.
  destruct (B qi q Hq) as (B1 & B2 & B3).
  assert (Hc : (cnt qi (pn_plan s) <= length (pn_plan s))%nat) by apply length_filter.
  destruct (_ <=? _) eqn:Hd; [done|]. apply Z.leb_gt in Hd.
  unfold at0 in Hd. change (pn_next_seq s1) with (pn_next_seq s) in Hd.
  rewrite (pv_seq _ _ _ I qi q Hq) in Hd. cbn in Hd. rewrite wrapw_id in Hd by (unfold uw; lia).
  pose proof (clock_quiet (pn_world s1)) as [K1 K2]. destruct (clock (pn_world s1)) as [w now].
  cbn [fst] in K1, K2.
  assert (I2 : plan_inv qps w0 (with_picked w c1 s1)).
  { destruct I1 as [S R Ll L Sq Cq]. split; cbn; auto; [intros n; by rewrite K1|by rewrite K2]. }
  destruct (negb _); cbn [fst]; [done|]. apply (plan_push_inv _ _ _ _ q); auto.
  change (pn_plan (with_picked w c1 s1)) with (pn_plan s). unfold uw. lia.
Qed.

Lemma plan_loop_inv regions ops qps w0 s :
  rc_qps (pn_conn s) = qps →
  (∀ i q, qps !! i = Some q → 0 <= qp_reclaimed q
     ∧ qp_reclaimed q <= qp_posted q
     ∧ qp_posted q + Z.of_nat (length (pn_plan s) + length ops) <= 2 ^ 48) →
  plan_inv qps w0 s → plan_inv qps w0 (fst (plan_loop cfg regions ops s)).
Proof.
  revert s. induction ops as [|op ops IH]; intros s Eq B I; cbn [plan_loop]; [done|].
  assert (I1 : plan_inv qps w0 (fst (plan_one cfg regions op s))).
  { apply plan_one_inv; auto. intros i q Hq. destruct (B i q Hq) as (? & ? & ?). cbn in *. lia. }
  destruct (plan_one cfg regions op s) as [s1 st] eqn:E1. apply plan_one_spec in E1 as (Q & _ & P).
  case_bool_decide; [|done]. apply IH; auto; [congruence|].
  apply (f_equal length) in P. rewrite length_app, !length_fmap in P. cbn in P.
  intros i q Hq. destruct (B i q Hq) as (? & ? & ?). cbn in *. lia.
Qed.

Lemma qp_num_ne (qps : list QueuePair) i j q q' :
  NoDup (qp_num <$> qps) → qps !! i = Some q → qps !! j = Some q' → i ≠ j → qp_num q ≠ qp_num q'.
Proof.
  intros N Hi Hj Hne E. apply Hne.
  apply (NoDup_lookup _ i j (qp_num q) N); rewrite list_lookup_fmap; [by rewrite Hi|by rewrite Hj, E].
Qed.

(** One post that the adapter took. *)

Lemma post_one_inv w qps ids pl q0 t w' :
  NoDup (qp_num <$> qps) → Z.of_nat (length qps) <= 2 ^ 14 → qps_inv w ids qps →
  qps !! pl_qp_index pl = Some q0 → qp_posted q0 < 2 ^ 48 →
  qp_posted q0 - qp_reclaimed q0 < depth →
  (∀ n, n ≠ qp_num q0 → sq w' n = sq w n) →
  sq w' (qp_num q0)
    = sq w (qp_num q0) ++ [(make_wr_id (Z.of_nat (pl_qp_index pl)) (qp_posted q0), pl_signal pl)] →
  qps_inv w' ids (<[pl_qp_index pl := posted_qp pl t q0]> qps).
Proof.
  intros N Hn I Hq Hp Hd Fr Sq i q Hi. pose proof (lookup_lt_Some _ _ _ Hq) as Hlt.
  apply list_lookup_insert_Some in Hi as [(<- & <- & _)|[Hne Hi]].
  - cbn [posted_qp qp_num]. rewrite Sq. pose proof (I _ _ Hq) as Iq.
    apply (qp_post_inv depth (pl_qp_index pl)) with (pl := pl) (t := t) in Iq; [exact Iq| |done].
    destruct (I _ _ Hq) as [_ _ Re _ _ _ _]. lia.
  - rewrite Fr by (by eapply qp_num_ne). by apply I.
Qed.

Lemma rpost_inv ids plan w qps st d w' qps' st' d' rc :
  rpost_loop plan w qps st d = (w', qps', st', d', rc) →
  NoDup (qp_num <$> qps) → Z.of_nat (length qps) <= 2 ^ 14 → planned_ok depth qps plan →
  (∀ i q, qps !! i = Some q → qp_posted q + Z.of_nat (length plan) <= 2 ^ 48) →
  qps_inv w ids qps →
  qps_inv w' ids qps' ∧ qp_num <$> qps' = qp_num <$> qps ∧ cq w' = cq w
  ∧ (∀ n, n ∉ qp_num <$> qps → sq w' n = sq w n)
  ∧ (rc = None → anchored plan →
     (∀ i q, qps !! i = Some q → i ∈ pl_qp_index <$> plan
        ∨ qp_anchor i q (sq w (qp_num q)) (ids (qp_num q))) → qps_anchored w' ids qps').
Proof.
  revert w qps st d. induction plan as [|pl plan IH]; intros w qps st d E N Hn P B I.
  { injection E as <- <- <- <- <-. split_and!; auto. intros _ _ A i q Hq.
    destruct (A i q Hq) as [Hin|Ha]; [by apply not_elem_of_nil in Hin|done]. }
  cbn [rpost_loop] in E. destruct (P 0%nat pl eq_refl) as (q0 & Hq & Hroom). rewrite Hq in E.
  cbn [take] in Hroom. rewrite Z.add_0_r in Hroom.
  set (wr := make_wr pl (qp_posted q0)) in E.
  pose proof (post_send_law w (qp_num q0) wr) as (C1 & F1 & S1).
  destruct (post_send w (qp_num q0) wr) as [w1 rc1]. cbn [fst snd] in C1, F1, S1.
  destruct (rc1 =? 0) eqn:Erc; cbn [negb] in E.
  2:{ rewrite app_nil_r in S1.
      assert (Fs : ∀ n, sq w1 n = sq w n)
        by (intros n; destruct (decide (n = qp_num q0)) as [->|]; auto).
      injection E as <- <- <- <- <-. split_and!; auto; [|done]. intros i q Hi. rewrite Fs. by apply I. }
  pose proof (clock_quiet w1) as [K1 K2]. destruct (clock w1) as [w2 t]. cbn [fst] in K1, K2.
  set (qps1 := <[pl_qp_index pl := posted_qp pl t q0]> qps) in E.
  assert (En : qp_num <$> qps1 = qp_num <$> qps).
  { unfold qps1. rewrite list_fmap_insert. cbn. apply list_insert_id.
    by rewrite list_lookup_fmap, Hq. }
  assert (I1 : qps_inv w2 ids qps1).
  { apply (post_one_inv w); auto.
    - specialize (B _ _ Hq). cbn [length] in B. lia.
    - intros n Hne. rewrite K1. by apply F1.
    - rewrite K1. exact S1. }
  assert (P1 : planned_ok depth qps1 plan).
  { intros k p Hk. destruct (P (S k) p Hk) as (q & Hq' & Hr). cbn [take] in Hr. rewrite cnt_cons in Hr.
    unfold qps1. destruct (decide (pl_qp_index pl = pl_qp_index p)) as [Ee|Hne].
    - rewrite <- Ee in *. rewrite Hq in Hq'. injection Hq' as <-.
      exists (posted_qp pl t q0). split; [apply list_lookup_insert_eq; by eapply lookup_lt_Some|].
      specialize (B _ _ Hq). cbn [length] in B. destruct (I _ _ Hq) as [R0 _ _ _ _ _ _]. cbn.
      rewrite wrapw_id by (unfold uw; lia). lia.
    - exists q. rewrite list_lookup_insert_ne by done. split; [done|lia]. }
  assert (B1 : ∀ i q, qps1 !! i = Some q → qp_posted q + Z.of_nat (length plan) <= 2 ^ 48).
  { intros i q Hi. apply list_lookup_insert_Some in Hi as [(<- & <- & _)|[_ Hi]].
    - specialize (B _ _ Hq). cbn [length] in B. destruct (I _ _ Hq) as [R0 _ _ _ _ _ _]. cbn.
      rewrite wrapw_id by (unfold uw; lia). lia.
    - specialize (B _ _ Hi). cbn [length] in B. lia. }
  destruct (IH _ _ _ _ E) as (I2 & E2 & C2 & F2 & A2); auto.
  { by rewrite En. }
  { unfold qps1. by rewrite length_insert. }
  split_and!; [done|congruence|congruence| |].
  - intros n Hni. rewrite F2 by (by rewrite En). rewrite K1. apply F1. intros ->. apply Hni.
    apply list_elem_of_fmap. exists q0. split; [done|]. by eapply list_elem_of_lookup_2.
  - intros Hrc [An0 An] A. apply A2; [done|done|]. intros i q Hi.
    destruct (decide (i ∈ pl_qp_index <$> plan)) as [Hin|Hnin]; [by left|right].
    apply list_lookup_insert_Some in Hi as [(<- & <- & _)|[Hne Hi]].
    + unfold qp_anchor. cbn [posted_qp qp_num]. rewrite K1, S1, last_snoc. apply An0.
      apply list.Forall_forall. intros p Hp Ep. apply Hnin. apply list_elem_of_fmap. by exists p.
    + destruct (A i q Hi) as [Hin|Ha].
      * cbn in Hin. apply elem_of_cons in Hin as [->|]; done.
      * rewrite K1, F1 by (by eapply qp_num_ne). done.
Qed.

(** ** A connection *)

(** Completions on their way: in the caller's hand, set aside, or queued. *)

Definition coming p (inhand : list Wc) (n : Z) : list Z :=
  pend n (inhand ++ rp_stashed p ++ cq (rp_world p)).

Definition conn_inv (strict : bool) (id : ConnId) p (inhand : list Wc) : Prop :=
  rp_cfg p = cfg ∧ ∃ c, rp_conns p !! id = Some c
    ∧ Z.of_nat (length (rc_qps c)) <= 2 ^ 14 ∧ NoDup (qp_num <$> rc_qps c)
    ∧ (∀ n, rp_conn_by_qp p !! n = Some id ↔ n ∈ qp_num <$> rc_qps c)
    ∧ qps_inv (rp_world p) (coming p inhand) (rc_qps c)
    ∧ (strict = true → qps_anchored (rp_world p) (coming p inhand) (rc_qps c)).

(** A step that does not concern the connection: its queue pairs, their send
    queues and their completions on the way are as they were. *)

Definition unaffected (id : ConnId) p (h : list Wc) p' (h' : list Wc) : Prop :=
  rp_cfg p' = rp_cfg p ∧ ∀ c, rp_conns p !! id = Some c →
    ∃ c', rp_conns p' !! id = Some c' ∧ rc_qps c' = rc_qps c
      ∧ (∀ n, rp_conn_by_qp p' !! n = Some id ↔ rp_conn_by_qp p !! n = Some id)
      ∧ ∀ n, n ∈ qp_num <$> rc_qps c →
          sq (rp_world p') n = sq (rp_world p) n ∧ coming p' h' n = coming p h n.

Lemma unaffected_inv strict id p h p' h' :
  unaffected id p h p' h' → conn_inv strict id p h → conn_inv strict id p' h'.
Proof.
  intros [Ec U] (Hc & c & Hid & Hn & N & T & I & A). split; [congruence|].
  destruct (U c Hid) as (c' & Hid' & Eq & Et & Es). exists c'. rewrite Eq.
  split_and!; auto; [intros n; by rewrite Et| |].
  - intros i q Hq. destruct (Es (qp_num q)) as [-> ->]; [|by apply I].
    apply list_elem_of_fmap. exists q. split; [done|by eapply list_elem_of_lookup_2].
  - intros Hs i q Hq. destruct (Es (qp_num q)) as [-> ->]; [|by apply A].
    apply list_elem_of_fmap. exists q. split; [done|by eapply list_elem_of_lookup_2].
Qed.

Lemma coming_cons p wc h n :
  coming p (wc :: h) n = (if decide (is_data_of n wc) then [wc_wr_id wc] else []) ++ coming p h n.
Proof. apply pend_cons. Qed.

Lemma coming_cons_other p wc h n : ¬ is_data_of n wc → coming p (wc :: h) n = coming p h n.
Proof. intros Hn. rewrite coming_cons. by rewrite decide_False. Qed.

Lemma qp_num_elem (qps : list QueuePair) i q : qps !! i = Some q → qp_num q ∈ qp_num <$> qps.
Proof.
  intros Hq. apply list_elem_of_fmap. exists q. split; [done|by eapply list_elem_of_lookup_2].
Qed.

(** A completion that is not of the connection's data. *)

Lemma absorb_receive_same wc p :
  rp_cfg (absorb_receive wc p) = rp_cfg p ∧ rp_conns (absorb_receive wc p) = rp_conns p
  ∧ rp_conn_by_qp (absorb_receive wc p) = rp_conn_by_qp p
  ∧ rp_stashed (absorb_receive wc p) = rp_stashed p
  ∧ (∀ n, sq (rp_world (absorb_receive wc p)) n = sq (rp_world p) n)
  ∧ cq (rp_world (absorb_receive wc p)) = cq (rp_world p).
Proof.
  unfold absorb_receive. set (p1 := if _ && _ then _ else _).
  assert (E : rp_cfg p1 = rp_cfg p ∧ rp_conns p1 = rp_conns p ∧ rp_conn_by_qp p1 = rp_conn_by_qp p
    ∧ rp_stashed p1 = rp_stashed p ∧ rp_world p1 = rp_world p)
    by (unfold p1; by destruct (_ && _)).
  destruct E as (E1 & E2 & E3 & E4 & E5). rewrite <- E1, <- E2, <- E3, <- E4, <- E5. clearbody p1.
  destruct (negb _); [done|]. destruct (_ ≫= _) as [c|]; [|done].
  unfold repost_receive. destruct (rc_recv_mr c), (rc_qps c) as [|q qs]; try done.
  pose proof (post_recv_quiet (rp_world p1) (qp_num q)) as [K1 K2].
  destruct (post_recv _ _) as [w rc]. done.
Qed.

Lemma absorb_receive_unaffected id wc p h :
  is_recv_id (wc_wr_id wc) = true → unaffected id p (wc :: h) (absorb_receive wc p) h.
Proof.
  intros Hr. destruct (absorb_receive_same wc p) as (E1 & E2 & E3 & E4 & E5 & E6).
  split; [done|]. intros c Hc. exists c. rewrite E2, E3. split_and!; auto.
  intros n _. split; [done|]. rewrite coming_cons_other by (intros (_ & _ & ?); congruence).
  unfold coming. by rewrite E4, E6.
Qed.

Lemma data_other p wc id id' n :
  rp_conn_by_qp p !! wc_qp_num wc = Some id' → id' ≠ id → rp_conn_by_qp p !! n = Some id →
  ¬ is_data_of n wc.
Proof. intros Ha Hne Hb (E & _). congruence. Qed.


(** [data_completion] once its connection is known. *)

Lemma data_completion_world wc p :
  (∀ n, sq (rp_world (fst (data_completion wc p))) n = sq (rp_world p) n)
  ∧ cq (rp_world (fst (data_completion wc p))) = cq (rp_world p)
  ∧ rp_cfg (fst (data_completion wc p)) = rp_cfg p
  ∧ rp_stashed (fst (data_completion wc p)) = rp_stashed p
  ∧ rp_conn_by_qp (fst (data_completion wc p)) = rp_conn_by_qp p.
Proof.
  unfold data_completion. destruct (rp_conn_by_qp p !! _) as [id|]; [|done].
  set (p1 := if negb _ then _ else _).
  assert (E : rp_world p1 = rp_world p ∧ rp_cfg p1 = rp_cfg p ∧ rp_stashed p1 = rp_stashed p
    ∧ rp_conn_by_qp p1 = rp_conn_by_qp p) by (unfold p1; by destruct (negb _)).
  destruct E as (E1 & E2 & E3 & E4). rewrite <- E1, <- E2, <- E3, <- E4. clearbody p1. clear.
  destruct (rp_conns p1 !! id) as [c|]; [|done]. destruct (rc_qps c !! _) as [q|]; [|done].
  pose proof (clock_quiet (rp_world p1)) as [K1 K2]. destruct (clock (rp_world p1)) as [w now].
  destruct (retire _ _ _ _ _ _) as [[[us cc] st] evs]. cbn. done.
Qed.

Lemma data_completion_conns wc p id :
  rp_conn_by_qp p !! wc_qp_num wc ≠ Some id →
  rp_conns (fst (data_completion wc p)) !! id = rp_conns p !! id.
Proof.
  intros Hne. unfold data_completion. destruct (rp_conn_by_qp p !! _) as [id'|]; [|done].
  assert (Hi : id' ≠ id) by congruence. set (p1 := if negb _ then _ else _).
  assert (E : rp_conns p1 !! id = rp_conns p !! id).
  { unfold p1. destruct (negb _); [|done]. cbn. by rewrite lookup_alter_ne. }
  rewrite <- E. clearbody p1. clear E Hne.
  destruct (rp_conns p1 !! id') as [c|]; [|done]. destruct (rc_qps c !! _) as [q|]; [|done].
  destruct (clock _) as [w now]. destruct (retire _ _ _ _ _ _) as [[[us cc] st] evs]. cbn.
  by rewrite lookup_alter_ne.
Qed.

Lemma data_completion_mine wc p id c i q x :
  rp_conn_by_qp p !! wc_qp_num wc = Some id → rp_conns p !! id = Some c → rc_qps c !! i = Some q →
  wc_wr_id wc = make_wr_id (Z.of_nat i) x → Z.of_nat i < 2 ^ 14 → 0 <= x < 2 ^ 48 →
  ∃ c' now us, rp_conns (fst (data_completion wc p)) !! id = Some c'
    ∧ rc_qps c' = <[i := retired_qp us x q]> (rc_qps c)
    ∧ us = fst (fst (fst (retire (wc_status wc) x now (qp_unsignalled q) (rp_cc p) (rp_stats p)))).
Proof.
  intros Hn Hc Hq Ei Hi Hx. unfold data_completion. rewrite Hn. set (p1 := if negb _ then _ else _).
  assert (E : ∃ c1, rp_conns p1 !! id = Some c1 ∧ rc_qps c1 = rc_qps c ∧ rp_cc p1 = rp_cc p
    ∧ rp_stats p1 = rp_stats p).
  { unfold p1. destruct (negb _); [|eauto]. exists (mark_failed c). cbn.
    by rewrite lookup_alter_eq, Hc. }
  destruct E as (c1 & E1 & E2 & <- & <-). clearbody p1. rewrite E1, Ei, wr_qp_index_make by lia.
  rewrite Nat2Z.id, wr_seq_make by lia. rewrite E2, Hq.
  destruct (clock _) as [w now].
  destruct (retire _ _ _ _ _ _) as [[[us cc] st] evs] eqn:Er.
  exists (with_qps (<[i := retired_qp us x q]> (rc_qps c)) c1), now, us. cbn.
  rewrite lookup_alter_eq, E1, Er. done.
Qed.

Lemma data_completion_inv strict id wc p h :
  (wc_wr_id wc =? kVerifyWrId) = false → is_recv_id (wc_wr_id wc) = false →
  conn_inv strict id p (wc :: h) → conn_inv strict id (fst (data_completion wc p)) h.
Proof.
  intros Hv Hr I. destruct (data_completion_world wc p) as (W1 & W2 & W3 & W4 & W5).
  assert (Ec : ∀ n, coming (fst (data_completion wc p)) h n = coming p h n)
    by (intros n; unfold coming; by rewrite W2, W4).
  destruct I as (Hcfg & c & Hid & Hl & N & T & I & A).
  destruct (decide (rp_conn_by_qp p !! wc_qp_num wc = Some id)) as [Hn|Hn].
  2:{ apply (unaffected_inv strict id p (wc :: h)); [|split; [done|]; exists c; by split_and!].
      split; [done|]. intros c' Hc'. exists c'. rewrite W5, data_completion_conns by done.
      split_and!; auto. intros n Hnc. split; [done|]. rewrite Ec. symmetry. apply coming_cons_other.
      intros (E & _). apply Hn. rewrite E. apply T. congruence. }
  pose proof (proj1 (T _) Hn) as Hin. apply list_elem_of_fmap in Hin as (q & Eq & Hin).
  apply list_elem_of_lookup_1 in Hin as [i Hq].
  pose proof (lookup_lt_Some _ _ _ Hq) as Hi. assert (Hi' : Z.of_nat i < 2 ^ 14) by lia.
  assert (Eq' : coming p (wc :: h) (qp_num q) = wc_wr_id wc :: coming p h (qp_num q))
    by (rewrite coming_cons, decide_True by done; done).
  pose proof (I i q Hq) as Iq. rewrite Eq' in Iq.
  assert (Hx : ∃ x, wc_wr_id wc = make_wr_id (Z.of_nat i) x ∧ 0 <= x < 2 ^ 48).
  { destruct Iq as [R S Re D Sq Sl ([|x seqs] & E & _ & F)]; [done|]. injection E as E _.
    inversion F; subst. exists x. split; [done|lia]. }
  destruct Hx as (x & Ex & Hx).
  destruct (data_completion_mine wc p id c i q x Hn Hid Hq Ex Hi' Hx) as (c' & now & us & Hc' & Eqs & Hus).
  rewrite Ex in Iq, Eq'. split; [by rewrite W3|]. exists c'. rewrite W5.
  assert (En : qp_num <$> rc_qps c' = qp_num <$> rc_qps c).
  { rewrite Eqs, list_fmap_insert. cbn. apply list_insert_id. by rewrite list_lookup_fmap, Hq. }
  assert (Ho : ∀ j qj, j ≠ i → rc_qps c !! j = Some qj →
    coming p h (qp_num qj) = coming p (wc :: h) (qp_num qj)).
  { intros j qj Hne Hj. symmetry. apply coming_cons_other. intros (E & _).
    apply (qp_num_ne _ _ _ _ _ N Hj Hq Hne). congruence. }
  split_and!; [done|rewrite Eqs, length_insert; done|by rewrite En|by rewrite En| |].
  - intros j qj Hj. rewrite Eqs in Hj. rewrite W1, Ec.
    apply list_lookup_insert_Some in Hj as [(<- & <- & _)|[Hne Hj]].
    + cbn [retired_qp qp_num]. by eapply qp_retire_inv.
    + rewrite (Ho j qj) by auto. by apply I.
  - intros Hs j qj Hj. rewrite Eqs in Hj. rewrite W1, Ec.
    apply list_lookup_insert_Some in Hj as [(<- & <- & _)|[Hne Hj]].
    + cbn [retired_qp qp_num]. eapply qp_retire_anchor; [exact Hi'|exact Iq|exact Hx| |exact Hus].
      rewrite <- Eq'. by apply A.
    + rewrite (Ho j qj) by auto. by apply A.
Qed.

Lemma take_wcs_inv strict id wcs p h :
  conn_inv strict id p (wcs ++ h) → conn_inv strict id (fst (take_wcs wcs p)) h.
Proof.
  revert p. induction wcs as [|wc wcs IH]; intros p I; [done|]. cbn [take_wcs].
  assert (I1 : conn_inv strict id (fst (take_wc wc p)) (wcs ++ h)).
  { unfold take_wc. destruct (_ =? kVerifyWrId) eqn:Ev.
    - revert I. apply unaffected_inv. split; [done|]. intros c Hc. exists c. split_and!; auto.
      intros n _. split; [done|]. symmetry. cbn [app].
      apply (coming_cons_other p wc (wcs ++ h) n). intros (_ & E & _). congruence.
    - destruct (is_recv_id _) eqn:Er; [|by apply data_completion_inv].
      revert I. apply unaffected_inv. by apply absorb_receive_unaffected. }
  destruct (take_wc wc p) as [p1 e1]. specialize (IH p1 I1). by destruct (take_wcs wcs p1).
Qed.

(** ** The steps *)

Lemma drain_cq_same max p p' r :
  drain_cq max p = (p', r) →
  rp_cfg p' = rp_cfg p ∧ rp_conns p' = rp_conns p ∧ rp_conn_by_qp p' = rp_conn_by_qp p
  ∧ rp_stashed p' = rp_stashed p ∧ (∀ n, sq (rp_world p') n = sq (rp_world p) n)
  ∧ cq (rp_world p) = default [] r ++ cq (rp_world p') ∧ (max <= 0 → r = Some []).
Proof.
  unfold drain_cq. destruct (max <=? 0) eqn:Em; b2p; [by intros [= <- <-]|].
  pose proof (poll_cq_law (rp_world p) max) as [K1 K2]. destruct (poll_cq _ _) as [w r0].
  intros [= <- <-]. cbn. split_and!; auto. lia.
Qed.

Lemma poll_inv strict id p n :
  conn_inv strict id p [] → conn_inv strict id (fst (rdma_poll p n)) [].
Proof.
  intros I. unfold rdma_poll. destruct (n =? 0); [done|]. set (k := Z.to_nat (to_i32 n)).
  set (taken := take k (rp_stashed p)).
  destruct (drain_cq _ _) as [p1 drawn] eqn:E.
  apply drain_cq_same in E as (E1 & E2 & E3 & E4 & E5 & E6 & E7). cbn in E1, E2, E3, E4, E5, E6.
  set (wcs := taken ++ default [] drawn).
  assert (I1 : conn_inv strict id p1 (wcs ++ [])).
  { revert I. apply unaffected_inv. split; [done|]. intros c Hc. exists c. rewrite E2, E3.
    split_and!; auto. intros m _. split; [done|]. unfold coming. rewrite E4, E6. unfold wcs.
    rewrite app_nil_r, app_nil_l. f_equal.
    transitivity ((taken ++ drop k (rp_stashed p)) ++ default [] drawn ++ cq (rp_world p1));
      [|unfold taken; by rewrite take_drop].
    rewrite <- !app_assoc. f_equal.
    destruct (decide (length (rp_stashed p) <= k)%nat) as [Hk|Hk].
    - by rewrite drop_ge by lia.
    - rewrite E7; [done|]. unfold taken. rewrite length_take. lia. }
  apply take_wcs_inv in I1.
  assert (Ew : ∃ st, match drawn with
     | Some l => (Status.kOk, taken ++ l) | None => (Status.kTransportError, taken) end = (st, wcs))
    by (unfold wcs; destruct drawn; cbn; rewrite ?app_nil_r; eauto).
  destruct Ew as [st ->]. by destruct (take_wcs wcs p1).
Qed.

Lemma sort_batch_same mine wcs p seen :
  let p' := fst (sort_batch mine wcs p seen) in
  rp_cfg p' = rp_cfg p ∧ rp_conns p' = rp_conns p ∧ rp_conn_by_qp p' = rp_conn_by_qp p
  ∧ (∀ n, sq (rp_world p') n = sq (rp_world p) n) ∧ cq (rp_world p') = cq (rp_world p)
  ∧ ∀ n, pend n (rp_stashed p') = pend n (rp_stashed p ++ wcs).
Proof.
  revert p seen. induction wcs as [|wc wcs IH]; intros p seen; cbn [sort_batch]; cbn zeta.
  { rewrite app_nil_r. done. }
  assert (Skip : ∀ p1 seen1, rp_cfg p1 = rp_cfg p → rp_conns p1 = rp_conns p →
    rp_conn_by_qp p1 = rp_conn_by_qp p → (∀ n, sq (rp_world p1) n = sq (rp_world p) n) →
    cq (rp_world p1) = cq (rp_world p) →
    (∀ n, pend n (rp_stashed p1 ++ wcs) = pend n (rp_stashed p ++ wc :: wcs)) →
    let p' := fst (sort_batch mine wcs p1 seen1) in
    rp_cfg p' = rp_cfg p ∧ rp_conns p' = rp_conns p ∧ rp_conn_by_qp p' = rp_conn_by_qp p
    ∧ (∀ n, sq (rp_world p') n = sq (rp_world p) n) ∧ cq (rp_world p') = cq (rp_world p)
    ∧ ∀ n, pend n (rp_stashed p') = pend n (rp_stashed p ++ wc :: wcs)).
  { intros p1 seen1 H1' H2' H3' H4' H5' H6'. destruct (IH p1 seen1) as (A1 & A2 & A3 & A4 & A5 & A6).
    split_and!; try congruence; intros n; by rewrite ?A4, ?A6. }
  assert (Np : (wc_wr_id wc =? kVerifyWrId) = true ∨ is_recv_id (wc_wr_id wc) = true →
    ∀ n, pend n (rp_stashed p ++ wcs) = pend n (rp_stashed p ++ wc :: wcs)).
  { intros Hw n. rewrite !pend_app, pend_cons. rewrite decide_False; [done|].
    intros (_ & ? & ?). destruct Hw; congruence. }
  destruct (_ =? kVerifyWrId) eqn:Ev; [destruct (_ =? mine); apply Skip; auto|].
  destruct (is_recv_id _) eqn:Er.
  - destruct (absorb_receive_same wc p) as (E1 & E2 & E3 & E4 & E5 & E6). apply Skip; auto.
    intros n. rewrite E4. auto.
  - apply Skip; auto. intros n. cbn. by rewrite <- app_assoc.
Qed.

(** One batch of a connection being proved. *)

Lemma dial_turn_inv strict id p p1 wcs mine seen :
  drain_cq 8 p = (p1, Some wcs) → conn_inv strict id p [] →
  conn_inv strict id (fst (sort_batch mine wcs p1 seen)) [].
Proof.
  intros E. apply drain_cq_same in E as (E1 & E2 & E3 & E4 & E5 & E6 & _). cbn in E6.
  destruct (sort_batch_same mine wcs p1 seen) as (S1 & S2 & S3 & S4 & S5 & S6).
  apply unaffected_inv. split; [congruence|]. intros c Hc. exists c. rewrite S2, S3, E2, E3.
  split_and!; auto. intros n _. split; [by rewrite S4|]. unfold coming. rewrite !app_nil_l, S5.
  rewrite pend_app, S6, E4, E6, !pend_app. by rewrite <- app_assoc.
Qed.

Lemma adapter_inv strict id p w' h :
  adapter_step (rp_world p) w' → conn_inv strict id p h → conn_inv strict id (with_world w' p) h.
Proof.
  intros St I. destruct St as [n wid sig rest wc Hs Hs' Ho Hid Hqn Hcq|wc Hs Hr Hcq].
  2:{ revert I. apply unaffected_inv. split; [done|]. intros c Hc. exists c. split_and!; auto.
      intros n _. split; [apply Hs|]. unfold coming. cbn. rewrite Hcq, !pend_app, (pend_one n wc).
      rewrite decide_False by (intros (_ & _ & ?); congruence). by rewrite app_nil_r. }
  destruct I as (Hcfg & c & Hid' & Hl & N & T & I & A).
  set (b := sig || negb (wc_status wc =? IBV_WC_SUCCESS)) in Hcq.
  assert (Other : ∀ q, qp_num q ≠ n → coming (with_world w' p) h (qp_num q) = coming p h (qp_num q)).
  { intros q Hne. unfold coming. cbn. rewrite Hcq, !pend_app. f_equal. f_equal.
    destruct b; [|by rewrite app_nil_r]. rewrite pend_one, decide_False; [by rewrite app_nil_r|].
    intros (E & _). congruence. }
  assert (Mine : ∀ i q, rc_qps c !! i = Some q → qp_num q = n →
    coming (with_world w' p) h n = coming p h n ++ (if b then [wid] else [])).
  { intros i q Hq En. pose proof (lookup_lt_Some _ _ _ Hq) as Hi. pose proof (I i q Hq) as Iq.
    rewrite En, Hs in Iq. destruct Iq as [R S Re D Sq Sl _]. cbn in Sq, Sl. rewrite seqs_to_cons in Sq.
    injection Sq as Ew _. unfold coming. cbn. rewrite Hcq, !pend_app, <- !app_assoc. do 2 f_equal.
    destruct b; [|done]. rewrite pend_one, decide_True; [by rewrite Hid|].
    destruct (data_id (Z.of_nat i) (qp_posted q - Z.of_nat (Datatypes.S (length rest)))) as [D1 D2]; [lia..|].
    rewrite <- Ew in D1, D2. split_and!; congruence. }
  split; [done|]. exists c. split_and!; auto.
  - intros i q Hq. pose proof (I i q Hq) as Iq. cbn [rp_world with_world].
    destruct (decide (qp_num q = n)) as [En|Hne]; [|by rewrite Ho, Other].
    rewrite En in *. rewrite (Mine i q Hq En), Hs'. rewrite Hs in Iq. by eapply qp_finish_inv.
  - intros Hst i q Hq. pose proof (A Hst i q Hq) as Aq. pose proof (I i q Hq) as Iq.
    cbn [rp_world with_world]. destruct (decide (qp_num q = n)) as [En|Hne]; [|by rewrite Ho, Other].
    rewrite En in *. rewrite (Mine i q Hq En), Hs'. rewrite Hs in Aq, Iq.
    eapply qp_finish_anchor; [exact Iq| |exact Aq]. unfold b. by intros ->.
Qed.

Lemma budget_release_quiet plan w (cc : C) :
  (∀ n, sq (fst (release_unposted plan w cc)) n = sq w n)
  ∧ cq (fst (release_unposted plan w cc)) = cq w.
Proof.
  revert w cc. induction plan as [|pl plan IH]; intros w cc; cbn [release_unposted]; [done|].
  pose proof (clock_quiet w) as [K1 K2]. destruct (clock w) as [w1 now]. cbn [fst] in K1, K2.
  destruct (IH w1 (on_error cc (op_dir (pl_op pl)) (op_length (pl_op pl)) now)) as [A B].
  split; [intros n; by rewrite A, K1|by rewrite B, K2].
Qed.

Lemma rpost_refused plan (w : W) qps st d w' qps' st' d' rc :
  rpost_loop plan w qps st d = (w', qps', st', d', Some rc) → rc ≠ 0.
Proof.
  revert w qps st d. induction plan as [|pl plan IH]; intros w qps st d; cbn; [done|].
  destruct (qps !! _) as [q|]; [|done]. destruct (post_send _ _ _) as [w1 r1].
  destruct (r1 =? 0) eqn:E; cbn.
  - destruct (clock w1). apply IH.
  - intros [= <- <- <- <- <-]. by apply Z.eqb_neq.
Qed.

Lemma start_plan_inv w cc c : plan_inv (rc_qps c) w (start_planning w cc c).
Proof.
  split; cbn; auto.
  - intros i q Hq. rewrite list_lookup_fmap, Hq. cbn. unfold cnt. cbn. f_equal. lia.
  - by intros k pl Hk.
  - apply length_replicate.
  - by intros k pl Hk.
Qed.

(** A submission on the connection. *)

Lemma submit_inv strict id p ops p' r :
  rdma_submit p id ops = (p', r) → (strict = true → sr_provider_errno r = 0) →
  (∀ c q, rp_conns p !! id = Some c → q ∈ rc_qps c →
     qp_posted q + Z.of_nat (length ops) <= 2 ^ 48) →
  conn_inv strict id p [] → conn_inv strict id p' [].
Proof.
  intros E Hs B I. pose proof I as (Hcfg & c & Hid & Hl & N & T & Iq & A).
  unfold rdma_submit in E. rewrite Hid in E.
  destruct (rc_failed c); [by injection E as <- _|]. case_bool_decide; [by injection E as <- _|].
  destruct (_ =? 0); [by injection E as <- _|].
  destruct (plan_loop _ _ _ _) as [s st] eqn:Ep. rewrite Hcfg in Ep.
  assert (Bq : ∀ i q, rc_qps c !! i = Some q → 0 <= qp_reclaimed q ∧ qp_reclaimed q <= qp_posted q
    ∧ qp_posted q + Z.of_nat (length (@nil Planned) + length ops) <= 2 ^ 48).
  { intros i q Hq. destruct (Iq i q Hq) as [R _ Re _ _ _ _].
    specialize (B c q Hid (list_elem_of_lookup_2 _ _ _ Hq)). cbn. lia. }
  pose proof (plan_loop_inv (rp_regions p) ops (rc_qps c) (rp_world p) (start_planning (rp_world p) (rp_cc p) c) eq_refl Bq
    (start_plan_inv _ _ _)) as PI. rewrite Ep in PI. cbn [fst] in PI.
  apply plan_loop_spec in Ep as (Eq & _ & k & P & Hk). cbn in Eq, P.
  destruct PI as [_ PR _ PL PS PC].
  set (plan := mark_anchors (pn_last s) (pn_plan s)) in E.
  destruct (rpost_loop plan _ _ _ _) as [[[[w qps] stats] done] rc] eqn:Er.
  pose proof (budget_release_quiet (drop done plan) w (pn_cc s)) as [R1 R2].
  destruct (release_unposted _ _ _) as [w2 cc2]. cbn [fst] in R1, R2.
  assert (Hrc : strict = true → rc = None).
  { intros Hst. specialize (Hs Hst). apply (f_equal snd) in E. cbn in E. subst r.
    destruct rc as [rc|]; [|done]. cbn in Hs. by apply rpost_refused in Er. }
  rewrite Eq in Er. 
  apply (rpost_inv (coming p [])) in Er as (I2 & E2 & C2 & F2 & A2); auto.
  2:{ by apply mark_planned_ok. }
  2:{ intros i q Hq. destruct (Bq i q Hq) as (_ & _ & ?). cbn in *.
      assert (length plan <= length ops)%nat; [|lia].
      rewrite <- (length_fmap pl_op). unfold plan. rewrite mark_anchors_ops, P, length_take. lia. }
  2:{ intros i q Hq. rewrite PS. by apply Iq. }
  apply (f_equal fst) in E. cbn [fst] in E. subst p'. split; [done|].
  exists (with_qps qps (pn_conn s)). cbn [rp_conns with_conns with_world with_cc with_rstats
    rp_conn_by_qp rp_world rc_qps with_qps].
  assert (Ec : ∀ n, pend n ([] ++ rp_stashed p ++ cq w2) = coming p [] n).
  { intros n. unfold coming. by rewrite R2, C2, PC. }
  split_and!.
  - apply lookup_insert_eq.
  - rewrite <- (length_fmap qp_num), E2, length_fmap. done.
  - by rewrite E2.
  - intros n. by rewrite E2.
  - intros i q Hq.
    change (qp_inv depth i q (sq w2 (qp_num q)) (pend (qp_num q) ([] ++ rp_stashed p ++ cq w2))).
    rewrite R1, Ec. by apply I2.
  - intros Hst i q Hq.
    change (qp_anchor i q (sq w2 (qp_num q)) (pend (qp_num q) ([] ++ rp_stashed p ++ cq w2))).
    rewrite R1, Ec.
    refine (A2 (Hrc Hst) _ _ i q Hq); [by apply mark_anchored|].
    intros j qj Hj. right. rewrite PS. by apply A.
Qed.

(** ** Runs *)

(** Connection [id] is submitted on; the provider is polled; another connection
    proving itself takes a batch off the shared queue and sets this one's
    completions aside; the adapter works; anything else that happens does not
    concern this connection.  In a [strict] run the adapter refused no post. *)

Inductive rdma_step (strict : bool) (id : ConnId) :
    RdmaProvider (W := W) (C := C) → RdmaProvider (W := W) (C := C) → Prop :=
| rs_submit p ops p' r :
    rdma_submit p id ops = (p', r) → (strict = true → sr_provider_errno r = 0) →
    (∀ c q, rp_conns p !! id = Some c → q ∈ rc_qps c →
       qp_posted q + Z.of_nat (length ops) <= 2 ^ 48) →
    rdma_step strict id p p'
| rs_poll p n : rdma_step strict id p (fst (rdma_poll p n))
| rs_dial p p1 wcs mine seen :
    drain_cq 8 p = (p1, Some wcs) → rdma_step strict id p (fst (sort_batch mine wcs p1 seen))
| rs_adapter p w' : adapter_step (rp_world p) w' → rdma_step strict id p (with_world w' p)
| rs_elsewhere p p' : unaffected id p [] p' [] → rdma_step strict id p p'.

(** A connection as [build_connection] hands it out, nothing posted yet. *)

Definition handed_out (id : ConnId) p : Prop :=
  rp_cfg p = cfg ∧ 0 <= depth ∧ ∃ c, rp_conns p !! id = Some c
    ∧ Z.of_nat (length (rc_qps c)) <= 2 ^ 14 ∧ NoDup (qp_num <$> rc_qps c)
    ∧ (∀ n, rp_conn_by_qp p !! n = Some id ↔ n ∈ qp_num <$> rc_qps c)
    ∧ Forall (fun q => q = fresh_qp (qp_num q) ∧ sq (rp_world p) (qp_num q) = []
                ∧ coming p [] (qp_num q) = []) (rc_qps c).

Lemma handed_out_inv strict id p : handed_out id p → conn_inv strict id p [].
Proof.
  intros (Hc & Hd & c & Hid & Hl & N & T & F). split; [done|]. exists c. split_and!; auto.
  - intros i q Hq. destruct (Forall_lookup_1 _ _ _ _ F Hq) as (E & Es & En). rewrite Es, En, E.
    split; cbn; try lia; try done. exists []. split_and!; constructor.
  - intros _ i q Hq. destruct (Forall_lookup_1 _ _ _ _ F Hq) as (E & Es & En). rewrite Es, E.
    left. done.
Qed.

Lemma rdma_step_inv strict id p p' :
  rdma_step strict id p p' → conn_inv strict id p [] → conn_inv strict id p' [].
Proof.
  intros [? ? ? ? E Hs B|? ?|? ? ? ? ? E|? ? St|? ? U].
  - by apply (submit_inv strict id _ _ _ _ E).
  - apply poll_inv.
  - by apply dial_turn_inv.
  - by apply adapter_inv.
  - by apply unaffected_inv.
Qed.

Lemma rdma_run_inv strict id p0 p :
  handed_out id p0 → rtc (rdma_step strict id) p0 p → conn_inv strict id p [].
Proof.
  intros H0' R. apply (handed_out_inv strict) in H0'. induction R; eauto using rdma_step_inv.
Qed.

(** ** Properties *)

(** C25: Nothing the adapter still works on has been reported, and the send queue
    never overfills.  At every moment of a connection's life, whatever the
    adapter does: the requests the adapter has not finished on a queue pair are
    the newest of the operations the transport has not reported, in order, so
    an operation is reported only after the adapter finished it; and the entries
    counted as used are exactly those not reported, never more than the queue's
    depth. *)
Theorem rdma_reports_only_finished id p0 p c i q :
  handed_out id p0 → rtc (rdma_step false id) p0 p →
  rp_conns p !! id = Some c → rc_qps c !! i = Some q →
  (∃ k, (sq (rp_world p) (qp_num q)).*1
        = (fun u => make_wr_id (Z.of_nat i) (fst u)) <$> drop k (qp_unsignalled q))
  ∧ qp_used q = Z.of_nat (length (qp_unsignalled q)) ∧ qp_used q <= rg_sq_depth cfg.
Proof.
  intros H0' R Hc Hq. destruct (rdma_run_inv _ _ _ _ H0' R) as (_ & c' & Hc' & Hl & _ & _ & I & _).
  rewrite Hc in Hc'. injection Hc' as <-. destruct (I i q Hq) as [Ra S Re D Sq Sl _].
  assert (Eu : qp_used q = Z.of_nat (length (qp_unsignalled q)))
    by (unfold qp_used; rewrite wrapw_id; [lia|unfold uw; lia]).
  split_and!; [|done|lia].
  exists (length (qp_unsignalled q) - length (sq (rp_world p) (qp_num q)))%nat.
  change (fun u => make_wr_id (Z.of_nat i) (fst u))
    with (make_wr_id (Z.of_nat i) ∘ fst (A := Z) (B := InflightKey)).
  rewrite Sq, list_fmap_compose, fmap_drop, S, seqs_to_drop by lia. do 2 f_equal. lia.
Qed.

(** C26: No operation is left waiting.  As long as the adapter refuses no post,
    once it has finished everything posted on a queue pair and every completion
    has been polled, every operation posted there has been reported, including
    all those that asked for no completion of their own. *)
Theorem rdma_none_stranded id p0 p c i q :
  handed_out id p0 → rtc (rdma_step true id) p0 p →
  rp_conns p !! id = Some c → rc_qps c !! i = Some q →
  sq (rp_world p) (qp_num q) = [] → coming p [] (qp_num q) = [] → qp_unsignalled q = [].
Proof.
  intros H0' R Hc Hq Hs Hn. destruct (rdma_run_inv _ _ _ _ H0' R) as (_ & c' & Hc' & _ & _ & _ & _ & A).
  rewrite Hc in Hc'. injection Hc' as <-. specialize (A eq_refl i q Hq). unfold qp_anchor in A.
  rewrite Hs, Hn in A. cbn in A. by destruct A.
Qed.

End Conn.
