(* ===== verification/RdmaSample.v ===== *)
(** * Runs of the RDMA transport over a simulated adapter.

    [Sim] is an adapter and a socket in memory: it takes as many posts as it has
    room for, finishes requests on demand, and remembers which descriptors were
    closed.  It satisfies [AdapterLaws], so the theorems of [RdmaSafe] and
    [RdmaBudget] are applied to runs over it. *)

From stdpp Require Import base list gmap strings numbers relations.
From S2P Require Import Prelude Float64 Types Wire SocketIo Outbox Provider Congestion RdmaWire.
From S2P Require Import RdmaVerbs RdmaControl RdmaProvider RdmaLaws RdmaBudget RdmaSafe.

Record Sim : Type := mkSim {
  sim_sq : gmap Z (list (Z * bool));
  sim_cq : list Wc;
  sim_now : Z;
  sim_room : nat;
  sim_hs : list HsSend * list HsRecv;
  sim_closed : list Z
}.

Definition sim_tick (n : Z) (w : Sim) : Sim :=
  mkSim (sim_sq w) (sim_cq w) (sim_now w + n) (sim_room w) (sim_hs w) (sim_closed w).

Definition sim_post (w : Sim) (n : Z) (wr : SendWr) : Sim * Z :=
  match sim_room w with
  | O => (w, 22)
  | S room =>
      (mkSim (<[n := default [] (sim_sq w !! n) ++ [(swr_id wr, swr_signaled wr)]]> (sim_sq w))
         (sim_cq w) (sim_now w) room (sim_hs w) (sim_closed w), 0)
  end.

Definition sim_poll (w : Sim) (k : Z) : Sim * option (list Wc) :=
  (mkSim (sim_sq w) (drop (Z.to_nat k) (sim_cq w)) (sim_now w) (sim_room w) (sim_hs w) (sim_closed w),
   Some (take (Z.to_nat k) (sim_cq w))).

#[export] Instance sim_verbs : Verbs Sim := {
  clock w := (sim_tick 1 w, sim_now w);
  sleep_for w n := sim_tick n w;
  create_qp w _ _ _ := (w, Some 100);
  destroy_qp w _ := w;
  modify_qp w _ _ := (w, 0);
  connect_ooo_rw w _ _ := (w, Status.kOk);
  post_send := sim_post;
  post_recv w _ := (w, 0);
  poll_cq := sim_poll;
  alloc_buffer w _ := (w, 4096);
  reg_mr w a _ _ := (w, inl (mkMr a 11 12));
  dereg_mr w _ := (w, 0)
}.

#[export] Instance sim_sockets : Sockets Sim := {
  dial w _ _ := (w, inr 5);
  close_fd w fd :=
    mkSim (sim_sq w) (sim_cq w) (sim_now w) (sim_room w) (sim_hs w) (sim_closed w ++ [fd]);
  hs_answers w _ := sim_hs w;
  hs_after w _ _ _ := w;
  send_answers _ _ := [Room 100];
  wrote w _ _ _ := w;
  recv_answers _ _ := [];
  read_on w _ _ := w
}.

#[export] Program Instance sim_laws : AdapterLaws Sim := {
  sq w n := default [] (sim_sq w !! n);
  cq := sim_cq
}.
Next Obligation. done. Qed.
Next Obligation. done. Qed.
Next Obligation.
  intros w m wr. cbn. unfold sim_post. destruct (sim_room w) as [|room]; cbn.
  - split_and!; auto. by rewrite app_nil_r.
  - split_and!; [done| |by rewrite lookup_insert_eq]. intros n Hn. by rewrite lookup_insert_ne.
Qed.
Next Obligation. intros w k. cbn. split; [done|]. by rewrite take_drop. Qed.

(** The adapter finishes the oldest request of queue pair [n], well. *)

Definition sim_finish (n : Z) (w : Sim) : Sim :=
  match default [] (sim_sq w !! n) with
  | [] => w
  | (id, sig) :: rest =>
      mkSim (<[n := rest]> (sim_sq w))
        (sim_cq w ++ (if sig : bool then [mkWc id IBV_WC_SUCCESS 0 n 0] else []))
        (sim_now w) (sim_room w) (sim_hs w) (sim_closed w)
  end.

Lemma sim_finish_step n w : default [] (sim_sq w !! n) ≠ [] → adapter_step w (sim_finish n w).
Proof.
  intros Hne. unfold sim_finish. destruct (default [] (sim_sq w !! n)) as [|[id sig] rest] eqn:E; [done|].
  eapply (adapter_done w _ n id sig rest (mkWc id IBV_WC_SUCCESS 0 n 0)); cbn; auto.
  - by rewrite lookup_insert_eq.
  - intros m Hm. by rewrite lookup_insert_ne.
  - by rewrite orb_false_r.
Qed.

Module SampleRdma.

Definition cfg : RdmaConfig :=
  mkRdmaConfig 1 1 16 64 8 4 1 "10.0.0.1"%string 3000 0 f64_1.

Definition port : PortInfo := mkPortInfo 0 3 1073741824 true (replicate 16 9) 3 false 30 64 7471.

Definition conn : RdmaConnection :=
  mkRdmaConn [fresh_qp 100] [] 0 false (Some (mkMr 1 2 3)) false 5 false
    (reset 5 kDefaultLimit outbox_init) [].

Definition world (room : nat) (hs : list HsSend * list HsRecv) : Sim := mkSim ∅ [] 0 room hs [].

(** One connection, of one queue pair, and a registered region. *)

Definition start (room : nat) : RdmaProvider (W := Sim) (C := OffController) :=
  mkRdma cfg port (mkOff (mkPerDir 0 0)) (world room ([], [])) {[1 := mkMr 1 21 22]} 2
    no_provider_stats [] ∅ [] {[100 := 7]} [7] {[7 := conn]}.

Definition op (i : Z) : SubOp := mkSubOp false 0 SubOpKind.kWrite 40 i (1000 + i) 1 (2000 + i) 33 64.

Lemma start_handed_out room : handed_out cfg 7 (start room).
Proof.
  split; [done|]. split; [cbn; lia|]. exists conn. split_and!; [done|cbn; lia| | |].
  - repeat constructor. by intros ?%not_elem_of_nil.
  - intros n. cbn. destruct (decide (n = 100)) as [->|Hne].
    + rewrite lookup_singleton_eq. split; [|done]. intros _. by apply list_elem_of_singleton.
    + rewrite lookup_singleton_ne by done. split; [done|]. by intros ?%list_elem_of_singleton.
  - repeat constructor.
Qed.

(** Three writes posted, the first finished; then all finished and polled. *)

Definition posted := fst (rdma_submit (start 8) 7 [op 0; op 1; op 2]).
Definition finish (p : RdmaProvider (W := Sim) (C := OffController)) := with_world (sim_finish 100 (rp_world p)) p.
Definition one_done := finish posted.
Definition all_done := finish (finish one_done).
Definition polled := fst (rdma_poll all_done 16).

Lemma submit_step strict room ops :
  (strict = true → sr_provider_errno (snd (rdma_submit (start room) 7 ops)) = 0) →
  Z.of_nat (length ops) <= 2 ^ 48 →
  rdma_step strict 7 (start room) (fst (rdma_submit (start room) 7 ops)).
Proof.
  intros Hs Hl. eapply rs_submit; [by rewrite <- surjective_pairing|done|].
  intros c q Hc Hq. cbn in Hc. rewrite lookup_singleton_eq in Hc. injection Hc as <-.
  apply list_elem_of_singleton in Hq as ->. cbn. lia.
Qed.

Lemma finish_step strict p :
  default [] (sim_sq (rp_world p) !! 100) ≠ [] → rdma_step strict 7 p (finish p).
Proof. intros Hs. apply rs_adapter. by apply sim_finish_step. Qed.

Lemma run_one strict : rtc (rdma_step strict 7) (start 8) one_done.
Proof.
  eapply rtc_l; [apply (submit_step strict 8 [op 0; op 1; op 2]); vm_compute; done|].
  apply rtc_once, finish_step. vm_compute. done.
Qed.

Lemma run_polled : rtc (rdma_step true 7) (start 8) polled.
Proof.
  etrans; [apply run_one|].
  eapply rtc_l; [apply finish_step; vm_compute; done|].
  eapply rtc_l; [apply finish_step; vm_compute; done|]. apply rtc_once, rs_poll.
Qed.

(** The second post of a batch refused. *)

Definition refused := fst (rdma_submit (start 1) 7 [op 0; op 1]).
Definition stranded := fst (rdma_poll (finish refused) 16).

(** A dial whose handshake settles, over an adapter that takes no post: the
    connection cannot be proved. *)

Definition peer : LocalEnd := mkLocalEnd [200] 0 (replicate 16 8) 3 false.

Definition answers : list HsSend * list HsRecv :=
  ([HsTook 64; HsTook 64],
   [HsGot (take 4 (hello peer)); HsGot (drop 4 (hello peer)); HsGot (features peer)]).

Definition idle : RdmaProvider (W := Sim) (C := OffController) :=
  mkRdma cfg port (mkOff (mkPerDir 0 0)) (world 0 answers) ∅ 1 no_provider_stats [] ∅ [] ∅ [] ∅.

Definition dialled := rdma_connect idle (rdma_local_metadata 7471 3 "10.0.0.2"%string).

End SampleRdma.

(** ** Properties of these runs *)

(** A post the adapter refuses can strand those before it.  Two operations
    are planned on one queue pair, the second to carry the completion; the
    adapter takes the first and refuses the second.  Once it has finished the
    first and everything has been polled, the adapter has nothing left, no
    completion is on its way, and the first operation is still unreported. *)
Theorem refused_post_strands :
  rtc (rdma_step false 7) (SampleRdma.start 1) SampleRdma.stranded
  ∧ sr_accepted (snd (rdma_submit (SampleRdma.start 1) 7 [SampleRdma.op 0; SampleRdma.op 1])) = 1%nat
  ∧ sq (rp_world SampleRdma.stranded) 100 = [] ∧ coming SampleRdma.stranded [] 100 = []
  ∧ outstanding SampleRdma.stranded 40 = 1%nat.
Proof.
  split; [|split_and!; vm_compute; reflexivity].
  eapply rtc_l; [apply (SampleRdma.submit_step false 1 [SampleRdma.op 0; SampleRdma.op 1]);
    vm_compute; done|].
  eapply rtc_l; [apply SampleRdma.finish_step; vm_compute; done|]. apply rtc_once, rs_poll.
Qed.

(** A dial that cannot be proved closes its socket twice.  The connection
    owns the socket from the moment it is made; when proving it fails, its
    destructor closes the descriptor, and [connect] closes the same number
    again. *)
Theorem unproved_dial_closes_twice :
  fst (snd SampleRdma.dialled) = Status.kTransportError
  ∧ sim_closed (rp_world (fst SampleRdma.dialled)) = [5; 5].
Proof. split; vm_compute; reflexivity. Qed.

(** ** Witnesses *)

Lemma rdma_reports_only_finished_witness :
  Forall (fun q => ∃ k, (sq (rp_world SampleRdma.one_done) (qp_num q)).*1
      = (fun u => make_wr_id 0 (fst u)) <$> drop k (qp_unsignalled q))
    (default [] (rc_qps <$> rp_conns SampleRdma.one_done !! 7)).
Proof.
  destruct (rp_conns SampleRdma.one_done !! 7) as [c|] eqn:Ec; [|constructor].
  cbn. apply Forall_lookup. intros i q Hq.
  assert (i = 0%nat) as ->.
  { vm_compute in Ec. injection Ec as <-. destruct i as [|i]; [done|]. by destruct i. }
  exact (proj1 (rdma_reports_only_finished SampleRdma.cfg 7 (SampleRdma.start 8) SampleRdma.one_done c 0 q
    (SampleRdma.start_handed_out 8) (SampleRdma.run_one false) Ec Hq)).
Defined.

Lemma rdma_none_stranded_witness :
  Forall (fun q => qp_unsignalled q = []) (default [] (rc_qps <$> rp_conns SampleRdma.polled !! 7)).
Proof.
  destruct (rp_conns SampleRdma.polled !! 7) as [c|] eqn:Ec; [|constructor].
  cbn. apply Forall_lookup. intros i q Hq.
  assert (qp_num q = 100) as Hn.
  { vm_compute in Ec. injection Ec as <-. destruct i as [|i]; [by injection Hq as <-|]. by destruct i. }
  apply (rdma_none_stranded SampleRdma.cfg 7 (SampleRdma.start 8) SampleRdma.polled c i q
    (SampleRdma.start_handed_out 8) SampleRdma.run_polled Ec Hq); rewrite Hn; vm_compute; reflexivity.
Defined.

Lemma rdma_budget_exact_witness :
  inflight_bytes (rp_cc SampleRdma.posted) CcDirection.kWrite = 192.
Proof.
  refine (eq_trans (proj1 (rdma_budget_exact (SampleRdma.start 8) SampleRdma.posted CcDirection.kWrite
    _ _ _)) _).
  - by intros [].
  - intros g. reflexivity.
  - apply rtc_once. eapply (bs_submit _ 7 [SampleRdma.op 0; SampleRdma.op 1; SampleRdma.op 2]).
    + exact (surjective_pairing (rdma_submit (SampleRdma.start 8) 7 _)).
    + repeat constructor; cbn; lia.
    + intros []; vm_compute; done.
  - vm_compute. reflexivity.
Defined.

Lemma destroyed_conn_keeps_budget_witness :
  inflight_bytes (rp_cc (destroy_conn 7 SampleRdma.posted)) CcDirection.kWrite = 0 + 192.
Proof.
  destruct (rp_conns SampleRdma.posted !! 7) as [c|] eqn:Ec; [|vm_compute in Ec; discriminate].
  refine (eq_trans (destroyed_conn_keeps_budget SampleRdma.posted 7 c CcDirection.kWrite _ Ec) _).
  - split; [intros []; vm_compute; reflexivity|vm_compute; reflexivity].
  - vm_compute in Ec. injection Ec as <-. vm_compute. reflexivity.
Defined.
