(* ===== verification/IpcWire.v ===== *)
(** * Frames and handshake of the same-host transport
    ([src/transport/ipc/ipc_provider.cpp]).

    Every frame is a length, a type and a body.  Control messages of the engine
    share the stream with the transport's own: a region published, a region
    withdrawn, and the acknowledgement that the withdrawal was acted on. *)

From stdpp Require Import base list gmap strings numbers.
From S2P Require Import Prelude Types Wire SocketIo.

Definition kFrameControl : Z := 0.
Definition kFramePublish : Z := 1.
Definition kFrameWithdraw : Z := 2.
Definition kFrameWithdrawAck : Z := 3.

Definition kIpcWireMajor : Z := 1.
Definition kIpcWireMinor : Z := 0.

(** An allocation as the device names it to another process. *)

Record IpcHandle : Type := mkIpcHandle {
  ih_bytes : list Z;
  ih_offset : Z;
  ih_allocation_bytes : Z
}.

(** What a frame says.  [FIgnored] is a frame the reader skips: an unknown type,
    or a body too short for its own. *)

Inductive IpcFrame : Type :=
| FControl (type : Z) (payload : list Z)
| FPublish (key addr length : Z) (handle : IpcHandle)
| FWithdraw (key : Z)
| FWithdrawAck (key : Z)
| FIgnored.

(** ** Writing *)

Definition ipc_frame (type : Z) (body : list Z) : list Z :=
  le_bytes 4 (wrap32 (Z.of_nat (length body))) ++ le_bytes 2 type ++ body.

Definition control_body (type : Z) (payload : list Z) : list Z := le_bytes 2 type ++ payload.

Definition publish_body (key addr len : Z) (h : IpcHandle) : list Z :=
  le_bytes 8 key ++ le_bytes 8 addr ++ le_bytes 8 len ++ le_bytes 8 (ih_offset h)
  ++ le_bytes 8 (ih_allocation_bytes h)
  ++ le_bytes 2 (wrap16 (Z.of_nat (length (ih_bytes h)))) ++ ih_bytes h.

Definition key_body (key : Z) : list Z := le_bytes 8 key.

Definition frame_type (f : IpcFrame) : Z :=
  match f with
  | FControl _ _ => kFrameControl
  | FPublish _ _ _ _ => kFramePublish
  | FWithdraw _ => kFrameWithdraw
  | FWithdrawAck _ => kFrameWithdrawAck
  | FIgnored => 4
  end.

Definition frame_body (f : IpcFrame) : list Z :=
  match f with
  | FControl type payload => control_body type payload
  | FPublish key addr len h => publish_body key addr len h
  | FWithdraw key | FWithdrawAck key => key_body key
  | FIgnored => []
  end.

Definition encode_frame (f : IpcFrame) : list Z := ipc_frame (frame_type f) (frame_body f).

(** ** Reading *)

(** The branches of [pump] on a whole frame. *)

Definition decode_body (type : Z) (body : list Z) : rd IpcFrame :=
  let len := Z.of_nat (length body) in
  if (type =? kFrameControl) && (2 <=? len) then
    t <~ get_u16 body 0;; Done (FControl t (drop 2 body))
  else if (type =? kFramePublish) && (42 <=? len) then
    key <~ get_u64 body 0;;
    addr <~ get_u64 body 8;;
    length <~ get_u64 body 16;;
    off <~ get_u64 body 24;;
    alloc <~ get_u64 body 32;;
    hn <~ get_u16 body 40;;
    Done (if 42 + hn <=? len
          then FPublish key addr length (mkIpcHandle (take (Z.to_nat hn) (drop 42 body)) off alloc)
          else FIgnored)
  else if (type =? kFrameWithdraw) && (8 <=? len) then
    key <~ get_u64 body 0;; Done (FWithdraw key)
  else if (type =? kFrameWithdrawAck) && (8 <=? len) then
    key <~ get_u64 body 0;; Done (FWithdrawAck key)
  else Done FIgnored.

(** One turn of the parsing loop: nothing while the frame is not whole, else the
    frame and what follows it.  The test that it is whole is in 32 bits, so a
    length near their end passes it; the body, and the range erased after it,
    then run past the buffer. *)

Definition next_frame (inbox : list Z) : rd (option (IpcFrame * list Z)) :=
  if bool_decide (length inbox < 6)%nat then Done None
  else
    len <~ get_u32 inbox 0;;
    if Z.of_nat (length inbox) <? wrap32 (6 + len) then Done None
    else
      type <~ get_u16 inbox 4;;
      if Z.of_nat (length inbox) <? 6 + len then Oob
      else
        f <~ decode_body type (take (Z.to_nat len) (drop 6 inbox));;
        Done (Some (f, drop (6 + Z.to_nat len) inbox)).

(** ** Metadata *)

Definition ipc_metadata (name : string) : list Z :=
  le_bytes 2 (wrap16 (Z.of_nat (length (bytes_of_string name)))) ++ bytes_of_string name.

Definition parse_ipc_metadata (buf : list Z) : rd string :=
  if bool_decide (length buf < 2)%nat then Fail Status.kInvalidArgument
  else
    n <~ get_u16 buf 0;;
    if negb (Z.of_nat (length buf) =? 2 + n) then Fail Status.kInvalidArgument
    else Done (string_of_bytes (take (Z.to_nat n) (drop 2 buf))).

(** ** The handshake *)

Definition ipc_hello (mine : Identity) : list Z :=
  encode_identity mine (le_bytes 2 kIpcWireMajor ++ le_bytes 2 kIpcWireMinor).

(** What is decided from the peer's hello. *)

Definition ipc_settle (mine : Identity) (theirs : list Z) : rd Identity :=
  major <~ get_u16 theirs 0;;
  if negb (major =? kIpcWireMajor) then Fail Status.kUnsupported
  else
    match decode_identity theirs 4 with
    | Oob => Oob
    | Fail _ => Fail Status.kInvalidArgument
    | Done peer =>
        if bool_decide (locality_of mine peer = Locality.kRemote) then Fail Status.kUnsupported
        else Done peer
    end.

(** [timed_out] is whether [errno] says so after a read that failed. *)

Definition ipc_handshake (mine : Identity) (timed_out : bool) : Io (rd Identity) :=
  SendAll (ipc_hello mine) (fun sent =>
    if negb sent then Ret (Fail Status.kPeerDisconnected)
    else
      RecvAll (4 + kIdentityBytes) (fun got =>
        match got with
        | None => Ret (Fail (if timed_out then Status.kTimeout else Status.kPeerDisconnected))
        | Some theirs => Ret (ipc_settle mine theirs)
        end)).

(** ** Frames round-trip *)

Definition handle_wf (h : IpcHandle) : Prop :=
  u64 (ih_offset h) ∧ u64 (ih_allocation_bytes h) ∧ u16 (Z.of_nat (length (ih_bytes h))).

(** What the writer's callers keep to: fields of their width, and a body whose
    frame can be counted in 32 bits. *)

Definition frame_wf (f : IpcFrame) : Prop :=
  match f with
  | FControl type payload => u16 type ∧ Z.of_nat (length payload) < 2 ^ 32 - 8
  | FPublish key addr len h => u64 key ∧ u64 addr ∧ u64 len ∧ handle_wf h
  | FWithdraw key | FWithdrawAck key => u64 key
  | FIgnored => False
  end.

Lemma body_small f : frame_wf f → Z.of_nat (length (frame_body f)) < 2 ^ 32 - 6.
Proof.
  destruct f as [t pl|k a l h|k|k|]; cbn [frame_wf frame_body].
  - intros [_ H]. unfold control_body. rewrite length_app, length_le_bytes. lia.
  - intros (_ & _ & _ & _ & _ & [_ H]). unfold publish_body.
    rewrite !length_app, !length_le_bytes. lia.
  - intros _. unfold key_body. by rewrite length_le_bytes.
  - intros _. unfold key_body. by rewrite length_le_bytes.
  - done.
Qed.

Lemma length_encode_frame f : length (encode_frame f) = (6 + length (frame_body f))%nat.
Proof. unfold encode_frame, ipc_frame. by rewrite !length_app, !length_le_bytes. Qed.

Lemma decode_frame_body f : frame_wf f → decode_body (frame_type f) (frame_body f) = Done f.
Proof.
  destruct f as [t pl|k a l h|k|k|]; cbn [frame_wf frame_type frame_body]; [| | | |done].
  - intros [Ht Hp]. unfold decode_body, control_body. rewrite Z.eqb_refl.
    rewrite length_app, length_le_bytes. rewrite (proj2 (Z.leb_le _ _)) by lia.
    cbn [andb]. unfold get_u16. rd_fields.
    by rewrite drop_app_length' by (by rewrite length_le_bytes).
  - intros (Hk & Ha & Hl & Ho & Hal & Hb). unfold decode_body, publish_body.
    rewrite !length_app, !length_le_bytes. change (kFramePublish =? kFrameControl) with false. cbn [andb].
    rewrite Z.eqb_refl, (proj2 (Z.leb_le _ _)) by lia. cbn [andb]. unfold get_u64, get_u16.
    rewrite wrapw_id by done. rd_fields. rewrite (proj2 (Z.leb_le _ _)) by lia.
    do 2 f_equal. destruct h as [hb ho ha]. cbn [ih_bytes ih_offset ih_allocation_bytes] in *.
    f_equal. rewrite Nat2Z.id, !app_assoc, drop_app_length' by
      (rewrite !length_app, !length_le_bytes; done). by rewrite take_ge.
  - intros Hk. unfold decode_body, key_body. rewrite length_le_bytes.
    cbn -[get_u64]. unfold get_u64. by rd_fields.
  - intros Hk. unfold decode_body, key_body. rewrite length_le_bytes.
    cbn -[get_u64]. unfold get_u64. by rd_fields.
Qed.

Lemma next_frame_whole f rest :
  frame_wf f → next_frame (encode_frame f ++ rest) = Done (Some (f, rest)).
Proof.
  intros Hf. pose proof (body_small f Hf) as Hs. unfold next_frame.
  rewrite bool_decide_false by (rewrite length_app, length_encode_frame; lia).
  rewrite length_app, length_encode_frame.
  unfold encode_frame, ipc_frame. rewrite <- !app_assoc. unfold get_u32, get_u16.
  rewrite (wrapw_id 32 (Z.of_nat (length (frame_body f)))) by (unfold uw; lia).
  assert (u32 (Z.of_nat (length (frame_body f)))) by (unfold uw; lia).
  assert (u16 (frame_type f)) by (destruct f; uw_side).
  rd_fields. rewrite wrapw_id by (unfold uw; lia).
  rewrite (proj2 (Z.ltb_ge _ _)) by lia. rewrite Nat2Z.id.
  assert (D6 : ∀ tl, drop 6 (le_bytes 4 (Z.of_nat (length (frame_body f)))
    ++ le_bytes 2 (frame_type f) ++ tl) = tl).
  { intros tl. rewrite app_assoc. apply drop_app_length'.
    by rewrite length_app, !length_le_bytes. }
  rewrite D6, take_app_length, decode_frame_body by done. cbn [res_bind].
  rewrite <- drop_drop, D6, drop_app_length. done.
Qed.

(** The header of a frame that is still arriving is not mistaken for more. *)

Lemma next_frame_partial f inbox future tail :
  frame_wf f → inbox ++ future = encode_frame f ++ tail →
  (length inbox < length (encode_frame f))%nat → next_frame inbox = Done None.
Proof.
  intros Hf E Hl. unfold next_frame. case_bool_decide as H6; [done|].
  pose proof (body_small f Hf) as Hs.
  assert (G : get_u32 inbox 0 = Done (Z.of_nat (length (frame_body f)))).
  { transitivity (get_u32 (inbox ++ future) 0).
    - unfold get_u32. rewrite !get_le_spec by (rewrite ?length_app; lia).
      by rewrite !drop_0, take_app_le by lia.
    - rewrite E. unfold encode_frame, ipc_frame, get_u32. rewrite <- !app_assoc.
      rewrite (wrapw_id 32) by (unfold uw; lia). by rewrite get_le_here by (unfold uw; lia). }
  rewrite G. cbn [res_bind]. rewrite wrapw_id by (unfold uw; lia).
  rewrite length_encode_frame in Hl. by rewrite (proj2 (Z.ltb_lt _ _)) by lia.
Qed.

(** Against a stream of frames: the next one, or nothing until more arrives. *)

Lemma next_frame_stream inbox future fs :
  Forall frame_wf fs → inbox ++ future = concat (encode_frame <$> fs) →
  (next_frame inbox = Done None
   ∧ ∀ f, head fs = Some f → (length inbox < length (encode_frame f))%nat)
  ∨ ∃ f fs' rest, fs = f :: fs' ∧ next_frame inbox = Done (Some (f, rest))
      ∧ rest ++ future = concat (encode_frame <$> fs') ∧ (length rest < length inbox)%nat.
Proof.
  intros F E. destruct F as [|f fs Hf F]; cbn [fmap list_fmap concat] in E.
  - apply app_nil in E as [-> ->]. by left.
  - destruct (decide (length inbox < length (encode_frame f))%nat) as [Hl|Hl].
    + left. split; [by eapply next_frame_partial|]. by intros ? [= <-].
    + right. exists f, fs, (drop (length (encode_frame f)) inbox).
      rewrite <- (take_drop (length (encode_frame f)) inbox) in E at 1.
      rewrite <- app_assoc in E. apply app_inj_1 in E as [E1 E2]; [|rewrite length_take; lia].
      split_and!; [done| |done|].
      * rewrite <- (take_drop (length (encode_frame f)) inbox) at 1. rewrite E1.
        by apply next_frame_whole.
      * rewrite length_drop, length_encode_frame in *. lia.
Qed.
