(* ===== verification/IpcProvider.v ===== *)
(** * The same-host transport ([src/transport/ipc/ipc_provider.{h,cpp}]).

    The peer's allocations are mapped into this process and the bytes copied
    across the mapping.  The device runtime ([IpcDevice]) and the host's sockets
    and clock ([Sockets], [IpcHost]) are the world [W]; the frames are those of
    [IpcWire].  One provider has one peer, so there is one socket, one outbox and
    one table of what the peer published.

    Three fields are history and nothing reads them: [ip_trace], the calls made
    of the device; [ip_link], what this connection has sent and received; and
    [ip_undefined], that a frame was read past the end of the buffer, after which
    the state means nothing. *)

From stdpp Require Import base list gmap strings numbers pretty sorting.
From Stdlib Require Import SpecFloat.
From S2P Require Import Prelude Float64 Types Wire SocketIo Outbox Provider RdmaVerbs IpcWire.

(** ** The world *)

(** The vendor half of the transport ([DeviceBackend], [include/hux/device.h]):
    naming an allocation for another process, mapping one, releasing a mapping,
    and copying across it.  A null address is 0. *)

Class IpcDevice (W : Type) : Type := {
  export_ipc : W → Z → Z → W * (Status.t * IpcHandle);
  import_ipc : W → IpcHandle → W * (Status.t * Z);
  close_ipc : W → Z → W * Status.t;
  copy_nowait : W → Z → Z → Z → W * Status.t;
  dev_settle : W → W * Status.t
}.

(** [::bind] and [::listen], [::connect], [::select] and [::accept] on sockets in
    the abstract namespace; the steady clock, in nanoseconds; the count that
    numbers sockets; and whether [errno] says a read timed out.  A socket that could
    not be had is a negative number. *)

Class IpcHost (W : Type) : Type := {
  host_clock : W → W * Z;
  host_sleep : W → Z → W;
  host_sequence : W → W * Z;
  host_bind : W → string → W * Z;
  host_dial : W → string → W * Z;
  host_readable : W → Z → W * bool;
  host_accept : W → Z → W * Z;
  recv_timed_out : W → Z → bool
}.

(** ** State *)

Record Exported : Type := mkExported { ex_addr : Z; ex_length : Z; ex_handle : IpcHandle }.

(** [im_mapped] is 0 until first use. *)

Record Imported : Type := mkImported {
  im_peer_addr : Z;
  im_length : Z;
  im_handle : IpcHandle;
  im_mapped : Z
}.

(** What the device was asked: a region mapped, a mapping released, a copy
    between an address inside a mapping and a local one. *)

Inductive DevCall : Type :=
| DOpen (key base length : Z)
| DClose (key base : Z)
| DCopy (key remote loc bytes : Z).

(** This connection so far: the frames the outbox took or broke on, the bytes the
    socket took, the bytes read from it, and the frames acted on. *)

Record Link : Type := mkLink {
  lk_sent : list IpcFrame;
  lk_wire : list Z;
  lk_got : list Z;
  lk_seen : list IpcFrame
}.

Definition new_link : Link := mkLink [] [] [] [].

Section Ipc.
Context {W : Type} `{Sockets W} `{IpcDevice W} `{IpcHost W}.

Record IpcProvider : Type := mkIpc {
  ip_world : W;
  ip_mine : Identity;
  ip_name : string;
  ip_listen : Z;
  ip_peer : Identity;
  ip_sock : Z;
  ip_inbox : list Z;
  ip_peer_gone : bool;
  ip_stats : ProviderStats;
  ip_completions : list CompletionEvent;
  ip_control : list ControlMessage;
  ip_exported : gmap Z Exported;
  ip_imported : gmap Z Imported;
  ip_acks : gmap Z bool;
  ip_next_key : Z;
  ip_conn : option ConnId;
  ip_conns : Z;
  ip_outbox : ControlOutbox;
  ip_not_released : Z;
  ip_undefined : bool;
  ip_trace : list DevCall;
  ip_link : Link
}.

(** Updates of one field. *)

Definition set_world (x : W) (p : IpcProvider) : IpcProvider :=
  mkIpc x (ip_mine p) (ip_name p) (ip_listen p) (ip_peer p) (ip_sock p) (ip_inbox p)
    (ip_peer_gone p) (ip_stats p) (ip_completions p) (ip_control p) (ip_exported p)
    (ip_imported p) (ip_acks p) (ip_next_key p) (ip_conn p) (ip_conns p) (ip_outbox p)
    (ip_not_released p) (ip_undefined p) (ip_trace p) (ip_link p).

Definition set_peer (x : Identity) (p : IpcProvider) : IpcProvider :=
  mkIpc (ip_world p) (ip_mine p) (ip_name p) (ip_listen p) x (ip_sock p) (ip_inbox p)
    (ip_peer_gone p) (ip_stats p) (ip_completions p) (ip_control p) (ip_exported p)
    (ip_imported p) (ip_acks p) (ip_next_key p) (ip_conn p) (ip_conns p) (ip_outbox p)
    (ip_not_released p) (ip_undefined p) (ip_trace p) (ip_link p).

Definition set_sock (x : Z) (p : IpcProvider) : IpcProvider :=
  mkIpc (ip_world p) (ip_mine p) (ip_name p) (ip_listen p) (ip_peer p) x (ip_inbox p)
    (ip_peer_gone p) (ip_stats p) (ip_completions p) (ip_control p) (ip_exported p)
    (ip_imported p) (ip_acks p) (ip_next_key p) (ip_conn p) (ip_conns p) (ip_outbox p)
    (ip_not_released p) (ip_undefined p) (ip_trace p) (ip_link p).

Definition set_inbox (x : list Z) (p : IpcProvider) : IpcProvider :=
  mkIpc (ip_world p) (ip_mine p) (ip_name p) (ip_listen p) (ip_peer p) (ip_sock p) x
    (ip_peer_gone p) (ip_stats p) (ip_completions p) (ip_control p) (ip_exported p)
    (ip_imported p) (ip_acks p) (ip_next_key p) (ip_conn p) (ip_conns p) (ip_outbox p)
    (ip_not_released p) (ip_undefined p) (ip_trace p) (ip_link p).

Definition set_gone (x : bool) (p : IpcProvider) : IpcProvider :=
  mkIpc (ip_world p) (ip_mine p) (ip_name p) (ip_listen p) (ip_peer p) (ip_sock p)
    (ip_inbox p) x (ip_stats p) (ip_completions p) (ip_control p) (ip_exported p)
    (ip_imported p) (ip_acks p) (ip_next_key p) (ip_conn p) (ip_conns p) (ip_outbox p)
    (ip_not_released p) (ip_undefined p) (ip_trace p) (ip_link p).

Definition set_istats (x : ProviderStats) (p : IpcProvider) : IpcProvider :=
  mkIpc (ip_world p) (ip_mine p) (ip_name p) (ip_listen p) (ip_peer p) (ip_sock p)
    (ip_inbox p) (ip_peer_gone p) x (ip_completions p) (ip_control p) (ip_exported p)
    (ip_imported p) (ip_acks p) (ip_next_key p) (ip_conn p) (ip_conns p) (ip_outbox p)
    (ip_not_released p) (ip_undefined p) (ip_trace p) (ip_link p).

Definition set_completions (x : list CompletionEvent) (p : IpcProvider) : IpcProvider :=
  mkIpc (ip_world p) (ip_mine p) (ip_name p) (ip_listen p) (ip_peer p) (ip_sock p)
    (ip_inbox p) (ip_peer_gone p) (ip_stats p) x (ip_control p) (ip_exported p)
    (ip_imported p) (ip_acks p) (ip_next_key p) (ip_conn p) (ip_conns p) (ip_outbox p)
    (ip_not_released p) (ip_undefined p) (ip_trace p) (ip_link p).

Definition set_control (x : list ControlMessage) (p : IpcProvider) : IpcProvider :=
  mkIpc (ip_world p) (ip_mine p) (ip_name p) (ip_listen p) (ip_peer p) (ip_sock p)
    (ip_inbox p) (ip_peer_gone p) (ip_stats p) (ip_completions p) x (ip_exported p)
    (ip_imported p) (ip_acks p) (ip_next_key p) (ip_conn p) (ip_conns p) (ip_outbox p)
    (ip_not_released p) (ip_undefined p) (ip_trace p) (ip_link p).

Definition set_exported (x : gmap Z Exported) (p : IpcProvider) : IpcProvider :=
  mkIpc (ip_world p) (ip_mine p) (ip_name p) (ip_listen p) (ip_peer p) (ip_sock p)
    (ip_inbox p) (ip_peer_gone p) (ip_stats p) (ip_completions p) (ip_control p) x
    (ip_imported p) (ip_acks p) (ip_next_key p) (ip_conn p) (ip_conns p) (ip_outbox p)
    (ip_not_released p) (ip_undefined p) (ip_trace p) (ip_link p).

Definition set_imported (x : gmap Z Imported) (p : IpcProvider) : IpcProvider :=
  mkIpc (ip_world p) (ip_mine p) (ip_name p) (ip_listen p) (ip_peer p) (ip_sock p)
    (ip_inbox p) (ip_peer_gone p) (ip_stats p) (ip_completions p) (ip_control p)
    (ip_exported p) x (ip_acks p) (ip_next_key p) (ip_conn p) (ip_conns p) (ip_outbox p)
    (ip_not_released p) (ip_undefined p) (ip_trace p) (ip_link p).

Definition set_acks (x : gmap Z bool) (p : IpcProvider) : IpcProvider :=
  mkIpc (ip_world p) (ip_mine p) (ip_name p) (ip_listen p) (ip_peer p) (ip_sock p)
    (ip_inbox p) (ip_peer_gone p) (ip_stats p) (ip_completions p) (ip_control p)
    (ip_exported p) (ip_imported p) x (ip_next_key p) (ip_conn p) (ip_conns p) (ip_outbox p)
    (ip_not_released p) (ip_undefined p) (ip_trace p) (ip_link p).

Definition set_next_key (x : Z) (p : IpcProvider) : IpcProvider :=
  mkIpc (ip_world p) (ip_mine p) (ip_name p) (ip_listen p) (ip_peer p) (ip_sock p)
    (ip_inbox p) (ip_peer_gone p) (ip_stats p) (ip_completions p) (ip_control p)
    (ip_exported p) (ip_imported p) (ip_acks p) x (ip_conn p) (ip_conns p) (ip_outbox p)
    (ip_not_released p) (ip_undefined p) (ip_trace p) (ip_link p).

Definition set_conn (x : option ConnId) (p : IpcProvider) : IpcProvider :=
  mkIpc (ip_world p) (ip_mine p) (ip_name p) (ip_listen p) (ip_peer p) (ip_sock p)
    (ip_inbox p) (ip_peer_gone p) (ip_stats p) (ip_completions p) (ip_control p)
    (ip_exported p) (ip_imported p) (ip_acks p) (ip_next_key p) x (ip_conns p) (ip_outbox p)
    (ip_not_released p) (ip_undefined p) (ip_trace p) (ip_link p).

Definition set_conns (x : Z) (p : IpcProvider) : IpcProvider :=
  mkIpc (ip_world p) (ip_mine p) (ip_name p) (ip_listen p) (ip_peer p) (ip_sock p)
    (ip_inbox p) (ip_peer_gone p) (ip_stats p) (ip_completions p) (ip_control p)
    (ip_exported p) (ip_imported p) (ip_acks p) (ip_next_key p) (ip_conn p) x (ip_outbox p)
    (ip_not_released p) (ip_undefined p) (ip_trace p) (ip_link p).

Definition set_ioutbox (x : ControlOutbox) (p : IpcProvider) : IpcProvider :=
  mkIpc (ip_world p) (ip_mine p) (ip_name p) (ip_listen p) (ip_peer p) (ip_sock p)
    (ip_inbox p) (ip_peer_gone p) (ip_stats p) (ip_completions p) (ip_control p)
    (ip_exported p) (ip_imported p) (ip_acks p) (ip_next_key p) (ip_conn p) (ip_conns p) x
    (ip_not_released p) (ip_undefined p) (ip_trace p) (ip_link p).

Definition set_not_released (x : Z) (p : IpcProvider) : IpcProvider :=
  mkIpc (ip_world p) (ip_mine p) (ip_name p) (ip_listen p) (ip_peer p) (ip_sock p)
    (ip_inbox p) (ip_peer_gone p) (ip_stats p) (ip_completions p) (ip_control p)
    (ip_exported p) (ip_imported p) (ip_acks p) (ip_next_key p) (ip_conn p) (ip_conns p)
    (ip_outbox p) x (ip_undefined p) (ip_trace p) (ip_link p).

Definition set_undefined (x : bool) (p : IpcProvider) : IpcProvider :=
  mkIpc (ip_world p) (ip_mine p) (ip_name p) (ip_listen p) (ip_peer p) (ip_sock p)
    (ip_inbox p) (ip_peer_gone p) (ip_stats p) (ip_completions p) (ip_control p)
    (ip_exported p) (ip_imported p) (ip_acks p) (ip_next_key p) (ip_conn p) (ip_conns p)
    (ip_outbox p) (ip_not_released p) x (ip_trace p) (ip_link p).

Definition set_trace (x : list DevCall) (p : IpcProvider) : IpcProvider :=
  mkIpc (ip_world p) (ip_mine p) (ip_name p) (ip_listen p) (ip_peer p) (ip_sock p)
    (ip_inbox p) (ip_peer_gone p) (ip_stats p) (ip_completions p) (ip_control p)
    (ip_exported p) (ip_imported p) (ip_acks p) (ip_next_key p) (ip_conn p) (ip_conns p)
    (ip_outbox p) (ip_not_released p) (ip_undefined p) x (ip_link p).

Definition set_link (x : Link) (p : IpcProvider) : IpcProvider :=
  mkIpc (ip_world p) (ip_mine p) (ip_name p) (ip_listen p) (ip_peer p) (ip_sock p)
    (ip_inbox p) (ip_peer_gone p) (ip_stats p) (ip_completions p) (ip_control p)
    (ip_exported p) (ip_imported p) (ip_acks p) (ip_next_key p) (ip_conn p) (ip_conns p)
    (ip_outbox p) (ip_not_released p) (ip_undefined p) (ip_trace p) x.

(** ** Losing the peer *)

Fixpoint close_mappings (l : list (Z * Imported)) (w : W) (missed : Z) : W * Z * list DevCall :=
  match l with
  | [] => (w, missed, [])
  | (key, im) :: l =>
      if im_mapped im =? 0 then close_mappings l w missed
      else
        let '(w, st) := close_ipc w (im_mapped im) in
        let '(w, missed, t) :=
          close_mappings l w (if bool_decide (st = Status.kOk) then missed else wrap64 (missed + 1)) in
        (w, missed, DClose key (im_mapped im) :: t)
  end.

Definition drop_mappings (p : IpcProvider) : IpcProvider :=
  let '(w, missed, t) :=
    close_mappings (in_key_order (ip_imported p)) (ip_world p) (ip_not_released p) in
  set_imported ∅ (set_world w (set_not_released missed (set_trace (ip_trace p ++ t) p))).

Definition close_sock (p : IpcProvider) : IpcProvider :=
  if ip_sock p <? 0 then p
  else set_sock (-1) (set_ioutbox (reset (-1) kDefaultLimit (ip_outbox p))
         (set_world (close_fd (ip_world p) (ip_sock p)) p)).

Definition peer_is_gone_locked (p : IpcProvider) : IpcProvider :=
  if ip_peer_gone p then p else close_sock (drop_mappings (set_gone true p)).

Definition peer_alive (p : IpcProvider) : bool := negb (ip_peer_gone p) && (0 <=? ip_sock p).

Definition ipc_disconnect (p : IpcProvider) (c : ConnId) : IpcProvider * Status.t :=
  (set_conn None (close_sock (drop_mappings p)), Status.kOk).

(** ** Sending *)

Definition note_wrote (bytes : list Z) (p : IpcProvider) : IpcProvider :=
  let k := ip_link p in
  set_link (mkLink (lk_sent k) (lk_wire k ++ bytes) (lk_got k) (lk_seen k)) p.

Definition note_sent (f : IpcFrame) (st : Status.t) (p : IpcProvider) : IpcProvider :=
  let k := ip_link p in
  if bool_decide (st = Status.kOk) || broken_ (ip_outbox p)
  then set_link (mkLink (lk_sent k ++ [f]) (lk_wire k) (lk_got k) (lk_seen k)) p
  else p.

Definition send_frame (fd : Z) (f : IpcFrame) (p : IpcProvider) : IpcProvider * Status.t :=
  if fd <? 0 then (p, Status.kPeerDisconnected)
  else if fd =? ip_sock p then
    let '(o, st, sent, rest) :=
      post (send_answers (ip_world p) fd) (encode_frame f) (ip_outbox p) in
    (note_sent f st (note_wrote sent
       (set_world (wrote (ip_world p) fd sent rest) (set_ioutbox o p))), st)
  else
    let '(ss, rs) := hs_answers (ip_world p) fd in
    let '(ok, sent, ss) := send_all ss (encode_frame f) in
    (set_world (hs_after (ip_world p) fd sent (ss, rs)) p,
     if ok : bool then Status.kOk else Status.kPeerDisconnected).

Definition publication (key : Z) (e : Exported) : IpcFrame :=
  FPublish key (ex_addr e) (ex_length e) (ex_handle e).

Fixpoint publish_loop (fd : Z) (l : list (Z * Exported)) (p : IpcProvider) : IpcProvider :=
  match l with
  | [] => p
  | (key, e) :: l =>
      let '(p, st) := send_frame fd (publication key e) p in
      if bool_decide (st = Status.kOk) then publish_loop fd l p else peer_is_gone_locked p
  end.

Definition publish_all (fd : Z) (p : IpcProvider) : IpcProvider :=
  publish_loop fd (in_key_order (ip_exported p)) p.

Definition ipc_send_control (p : IpcProvider) (c : option ConnId) (type : Z) (payload : list Z)
    : IpcProvider * Status.t :=
  match c with
  | None => (p, Status.kInvalidArgument)
  | Some _ =>
      if ip_peer_gone p then (p, Status.kPeerDisconnected)
      else
        let '(p, st) := send_frame (ip_sock p) (FControl type payload) p in
        (if bool_decide (st = Status.kPeerDisconnected) then peer_is_gone_locked p else p, st)
  end.

Definition ipc_broadcast_control (p : IpcProvider) (type : Z) (payload : list Z)
    : IpcProvider * (Status.t * Z * Z) :=
  if (0 <=? ip_sock p) && negb (ip_peer_gone p) then
    let '(p, st) := send_frame (ip_sock p) (FControl type payload) p in
    let p := if bool_decide (st = Status.kPeerDisconnected) then peer_is_gone_locked p else p in
    (p, if bool_decide (st = Status.kOk) then (Status.kOk, 1, 0) else (Status.kOk, 0, 1))
  else (p, (Status.kOk, 0, 0)).

(** ** Receiving *)

(** The read loop of [pump]: everything there is, and whether the peer closed. *)

Definition kPumpBytes : nat := 4096.

Fixpoint pump_reads (s : list CtrlRecv) : list Z * bool * list CtrlRecv :=
  match s with
  | [] => ([], false, [])
  | CtrlGot b :: s' =>
      let b := take kPumpBytes b in
      if bool_decide (b = []) then ([], true, s')
      else let '(got, closed, s'') := pump_reads s' in (b ++ got, closed, s'')
  | CtrlEof :: s' => ([], true, s')
  | CtrlEintr :: s' => pump_reads s'
  | CtrlEagain :: s' => ([], false, s')
  | CtrlEother :: s' => ([], true, s')
  end.

Definition note_seen (f : IpcFrame) (p : IpcProvider) : IpcProvider :=
  let k := ip_link p in
  set_link (mkLink (lk_sent k) (lk_wire k) (lk_got k) (lk_seen k ++ [f])) p.

Definition note_got (bytes : list Z) (p : IpcProvider) : IpcProvider :=
  let k := ip_link p in
  set_link (mkLink (lk_sent k) (lk_wire k) (lk_got k ++ bytes) (lk_seen k)) p.

(** A withdrawn region: its mapping released, the entry dropped. *)

Definition forget_import (key : Z) (p : IpcProvider) : IpcProvider :=
  match ip_imported p !! key with
  | None => p
  | Some im =>
      let p :=
        if im_mapped im =? 0 then p
        else set_trace (ip_trace p ++ [DClose key (im_mapped im)])
               (set_world (fst (close_ipc (ip_world p) (im_mapped im))) p) in
      set_imported (delete key (ip_imported p)) p
  end.

Definition dispatch (fd : Z) (f : IpcFrame) (p : IpcProvider) : IpcProvider :=
  let p := note_seen f p in
  match f with
  | FControl type payload =>
      set_control (ip_control p ++ [mkControlMessage (process (ip_peer p)) type payload (ip_conn p)]) p
  | FPublish key addr len h =>
      set_imported (<[key := mkImported addr len h 0]> (ip_imported p)) p
  | FWithdraw key => fst (send_frame fd (FWithdrawAck key) (forget_import key p))
  | FWithdrawAck key =>
      match ip_acks p !! key with
      | None => p
      | Some _ => set_acks (<[key := true]> (ip_acks p)) p
      end
  | FIgnored => p
  end.

(** Each turn takes a header off the inbox, so its length is enough turns. *)

Fixpoint pump_frames (fuel : nat) (fd : Z) (p : IpcProvider) : IpcProvider :=
  match fuel with
  | O => p
  | S fuel =>
      match next_frame (ip_inbox p) with
      | Done None => p
      | Done (Some (f, rest)) => pump_frames fuel fd (set_inbox rest (dispatch fd f p))
      | _ => set_undefined true p
      end
  end.

Definition pump_flush (p : IpcProvider) : IpcProvider * Status.t :=
  let fd := fd_ (ip_outbox p) in
  let '(o, st, sent, rest) := flush (send_answers (ip_world p) fd) (ip_outbox p) in
  (note_wrote sent (set_world (wrote (ip_world p) fd sent rest) (set_ioutbox o p)), st).

Definition pump_read (fd : Z) (p : IpcProvider) : IpcProvider * bool :=
  let '(got, closed, rest) := pump_reads (recv_answers (ip_world p) fd) in
  (note_got got (set_inbox (ip_inbox p ++ got) (set_world (read_on (ip_world p) fd rest) p)), closed).

Definition pump (fd : Z) (p : IpcProvider) : IpcProvider * Status.t :=
  if fd <? 0 then (p, Status.kPeerDisconnected)
  else
    let '(p, st) := pump_flush p in
    if bool_decide (st = Status.kPeerDisconnected)
    then (peer_is_gone_locked p, Status.kPeerDisconnected)
    else if negb (fd =? ip_sock p) then (p, Status.kPeerDisconnected)
    else
      let '(p, closed) := pump_read fd p in
      let p := pump_frames (S (length (ip_inbox p))) fd p in
      if closed : bool then (peer_is_gone_locked p, Status.kPeerDisconnected) else (p, Status.kOk).

Definition ipc_poll_control (p : IpcProvider) (max_items : Z)
    : IpcProvider * (Status.t * list ControlMessage) :=
  let p := fst (pump (ip_sock p) p) in
  let n := Z.to_nat max_items in
  (set_control (drop n (ip_control p)) p, (Status.kOk, take n (ip_control p))).

(** ** Regions *)

Definition ipc_register_region (p : IpcProvider) (addr len : Z)
    : IpcProvider * (Status.t * Z * Z) :=
  if (addr =? 0) || (len =? 0) then (p, (Status.kInvalidArgument, 0, 0))
  else
    let '(w, (st, handle)) := export_ipc (ip_world p) addr len in
    let p := set_world w p in
    if negb (bool_decide (st = Status.kOk)) then (p, (st, 0, 0))
    else
      let key := ip_next_key p in
      let e := mkExported addr len handle in
      let p := set_exported (<[key := e]> (ip_exported p)) (set_next_key (wrap64 (key + 1)) p) in
      let p :=
        if ip_sock p <? 0 then p
        else
          let '(p, st) := send_frame (ip_sock p) (publication key e) p in
          if bool_decide (st = Status.kOk) then p else peer_is_gone_locked p in
      (p, (Status.kOk, key, key)).

(** [deregister_region] up to its wait for the peer: an answer at once, or none
    yet. *)

Definition withdraw_begin (p : IpcProvider) (key : Z) : IpcProvider * option Status.t :=
  match ip_exported p !! key with
  | None => (p, Some Status.kNotFound)
  | Some _ =>
      let p := set_exported (delete key (ip_exported p)) p in
      if ip_sock p <? 0 then (p, Some Status.kOk)
      else
        let p := set_acks (<[key := false]> (ip_acks p)) p in
        let '(p, st) := send_frame (ip_sock p) (FWithdraw key) p in
        if bool_decide (st = Status.kOk) then (p, None)
        else (set_acks (delete key (ip_acks p)) p, Some Status.kOk)
  end.

(** One turn of the wait, which lets the lock go around the pump. *)

Definition kMillisecond : Z := 1000000.

Definition withdraw_turn (p : IpcProvider) (key : Z) : IpcProvider * option Status.t :=
  let p := fst (pump (ip_sock p) p) in
  let p := set_world (host_sleep (ip_world p) kMillisecond) p in
  match ip_acks p !! key with
  | Some false => (p, None)
  | _ => (set_acks (delete key (ip_acks p)) p, Some Status.kOk)
  end.

Definition withdraw_give_up (p : IpcProvider) (key : Z) : IpcProvider * Status.t :=
  (set_acks (delete key (ip_acks p)) p, Status.kTimeout).

Fixpoint withdraw_wait (turns : nat) (deadline : Z) (p : IpcProvider) (key : Z)
    : IpcProvider * Status.t :=
  match turns with
  | O => withdraw_give_up p key
  | S turns =>
      let '(w, now) := host_clock (ip_world p) in
      let p := set_world w p in
      if deadline <=? now then withdraw_give_up p key
      else
        let '(p, st) := withdraw_turn p key in
        match st with
        | Some st => (p, st)
        | None => withdraw_wait turns deadline p key
        end
  end.

(** Every turn sleeps a millisecond of the two seconds. *)

Definition kWithdrawTurns : nat := 2001.

Definition ipc_deregister_region (p : IpcProvider) (key : Z) : IpcProvider * Status.t :=
  let '(p, st) := withdraw_begin p key in
  match st with
  | Some st => (p, st)
  | None =>
      let '(w, now) := host_clock (ip_world p) in
      withdraw_wait kWithdrawTurns (now + 2000 * kMillisecond) (set_world w p) key
  end.

(** ** Transfers *)

Definition ensure_mapped (key : Z) (p : IpcProvider) : IpcProvider * (Status.t + Imported) :=
  match ip_imported p !! key with
  | None => (p, inl Status.kNotFound)
  | Some im =>
      if negb (im_mapped im =? 0) then (p, inr im)
      else
        let '(w, (st, mapped)) := import_ipc (ip_world p) (im_handle im) in
        let p := set_world w p in
        if negb (bool_decide (st = Status.kOk)) then (p, inl st)
        else
          let im := mkImported (im_peer_addr im) (im_length im) (im_handle im) mapped in
          (set_imported (<[key := im]> (ip_imported p))
             (set_trace (ip_trace p ++ [DOpen key mapped (im_length im)]) p), inr im)
  end.

(** Where an operation falls in a region: the offset, when it is inside. *)

Definition region_offset (op : SubOp) (im : Imported) : option Z :=
  if op_remote_addr op <? im_peer_addr im then None
  else
    let offset := op_remote_addr op - im_peer_addr im in
    if (im_length im <? offset) || (im_length im - offset <? op_length op) then None
    else Some offset.

Definition copy_event (op : SubOp) (st : Status.t) : CompletionEvent :=
  let good := bool_decide (st = Status.kOk) in
  mkCompletionEvent (op_request op) (op_sub_id op) (if good then op_length op else 0) st 0
    (negb good && bool_decide (op_kind op = SubOpKind.kWrite)).

Definition ipc_submit_one (op : SubOp) (p : IpcProvider)
    : IpcProvider * (Status.t + CompletionEvent) :=
  let '(p, r) := ensure_mapped (op_remote_key op) p in
  match r with
  | inl st => (p, inl st)
  | inr im =>
      match region_offset op im with
      | None => (p, inl Status.kInvalidArgument)
      | Some offset =>
          let remote := im_mapped im + offset in
          let is_read := bool_decide (op_kind op = SubOpKind.kRead) in
          let dst := if is_read then op_local_addr op else remote in
          let src := if is_read then remote else op_local_addr op in
          if dst =? src then (p, inl Status.kInternal)
          else
            let '(w, st) := copy_nowait (ip_world p) dst src (op_length op) in
            let t := ip_trace p ++ [DCopy (op_remote_key op) remote (op_local_addr op) (op_length op)] in
            let copied := if bool_decide (st = Status.kOk) then op_length op else 0 in
            (set_trace t (set_world w (set_istats (count_posted (ip_stats p) (op_length op) copied) p)),
             inr (copy_event op st))
      end
  end.

Fixpoint ipc_submit_loop (ops : list SubOp) (p : IpcProvider)
    : IpcProvider * list CompletionEvent * Status.t :=
  match ops with
  | [] => (p, [], Status.kOk)
  | op :: ops =>
      let '(p, r) := ipc_submit_one op p in
      match r with
      | inl st => (p, [], st)
      | inr ev => let '(p, evs, st) := ipc_submit_loop ops p in (p, ev :: evs, st)
      end
  end.

(** A batch that did not settle landed nowhere for certain. *)

Definition unsettle (st : Status.t) (ev : CompletionEvent) : CompletionEvent :=
  if bool_decide (ev_status ev = Status.kOk)
  then mkCompletionEvent (ev_request ev) (ev_sub_id ev) 0 st (ev_provider_errno ev) true
  else ev.

Definition settle_batch (landed : list CompletionEvent) (st : Status.t) (p : IpcProvider)
    : IpcProvider * Status.t :=
  if bool_decide (landed = []) then (p, st)
  else
    let '(w, ss) := dev_settle (ip_world p) in
    let p := set_world w p in
    if bool_decide (ss = Status.kOk)
    then (set_completions (ip_completions p ++ landed) p, st)
    else (set_completions (ip_completions p ++ (unsettle ss <$> landed)) p, ss).

(** The half of [submit] under the lock. *)

Definition submit_locked (ops : list SubOp) (p : IpcProvider) : IpcProvider * SubmitResult :=
  if ip_peer_gone p || (ip_sock p <? 0)
  then (p, mkSubmitResult 0 Status.kPeerDisconnected 0)
  else
    let '(p, landed, st) := ipc_submit_loop ops p in
    let '(p, st) := settle_batch landed st p in
    (p, mkSubmitResult (length landed) st 0).

(** The wait for keys the peer has yet to publish. *)

Fixpoint publication_wait (turns : nat) (deadline fd : Z) (ops : list SubOp) (p : IpcProvider)
    : IpcProvider :=
  match turns with
  | O => p
  | S turns =>
      let p := fst (pump fd p) in
      if ip_peer_gone p || (ip_sock p <? 0) then p
      else if forallb (fun op => bool_decide (is_Some (ip_imported p !! op_remote_key op))) ops
      then p
      else
        let '(w, now) := host_clock (ip_world p) in
        let p := set_world w p in
        if deadline <=? now then p
        else publication_wait turns deadline fd ops
               (set_world (host_sleep (ip_world p) kMillisecond) p)
  end.

Definition kPublicationWaitMs : Z := 250.
Definition kPublicationTurns : nat := 252.

Definition ipc_submit (p : IpcProvider) (c : ConnId) (ops : list SubOp)
    : IpcProvider * SubmitResult :=
  let fd := ip_sock p in
  let '(w, now) := host_clock (ip_world p) in
  submit_locked ops
    (publication_wait kPublicationTurns (now + kPublicationWaitMs * kMillisecond) fd ops
       (set_world w p)).

Definition count_event (s : ProviderStats) (ev : CompletionEvent) : ProviderStats :=
  if bool_decide (ev_status ev = Status.kOk) then count_completed s else count_failed s.

Definition ipc_poll (p : IpcProvider) (max_events : Z)
    : IpcProvider * (Status.t * list CompletionEvent) :=
  let n := Z.to_nat max_events in
  let out := take n (ip_completions p) in
  (set_completions (drop n (ip_completions p)) (set_istats (foldl count_event (ip_stats p) out) p),
   (Status.kOk, out)).

(** ** Connections *)

(** [sizeof(sockaddr_un::sun_path)]; the name follows a NUL. *)

Definition kSunPath : Z := 108.

Definition name_fits (name : string) : bool :=
  Z.of_nat (length (bytes_of_string name)) + 1 <? kSunPath.

Definition bind_abstract (w : W) (name : string) : W * Z :=
  if name_fits name then host_bind w name else (w, -1).

Definition dial_abstract (w : W) (name : string) : W * Z :=
  if name_fits name then host_dial w name else (w, -1).

Definition socket_name (mine : Identity) (seq : Z) : string :=
  "hux-ipc-" +:+ pretty (process mine) +:+ "-" +:+ pretty seq.

Definition ipc_create (mine : Identity) (name : string) (w : W) : W * (Status.t + IpcProvider) :=
  let '(w, name) :=
    if bool_decide (name = ""%string)
    then let '(w, seq) := host_sequence w in (w, socket_name mine seq) else (w, name) in
  let '(w, fd) := bind_abstract w name in
  if fd <? 0 then (w, inl Status.kInternal)
  else
    (w, inr (mkIpc w mine name fd no_identity (-1) [] false no_provider_stats [] [] ∅ ∅ ∅ 1 None 0
       outbox_init 0 false [] new_link)).

(** The destructor. *)

Definition ipc_destroy (p : IpcProvider) : W :=
  let w := fst (fst (close_mappings (in_key_order (ip_imported p)) (ip_world p) 0)) in
  let w := if 0 <=? ip_sock p then close_fd w (ip_sock p) else w in
  if 0 <=? ip_listen p then close_fd w (ip_listen p) else w.

(** [handshake] on a new socket. *)

Definition shake_hands (fd : Z) (p : IpcProvider) : IpcProvider * rd Identity :=
  let '(ss, rs) := hs_answers (ip_world p) fd in
  let '(r, sent, _, rest) :=
    io_exec true (ipc_handshake (ip_mine p) (recv_timed_out (ip_world p) fd)) ss rs in
  (set_world (hs_after (ip_world p) fd sent rest) p, r).

(** What [connect] and [accept] do with a socket whose handshake succeeded. *)

Definition open_session (fd : Z) (peer : Identity) (p : IpcProvider) : IpcProvider :=
  let p := set_sock fd (set_peer peer p) in
  let p := set_link new_link (set_ioutbox (reset fd kDefaultLimit (ip_outbox p)) p) in
  publish_all fd (set_conn (Some (ip_conns p)) (set_conns (ip_conns p + 1) p)).

Definition attach (fd : Z) (p : IpcProvider) : IpcProvider * (Status.t * ConnId) :=
  let '(p, r) := shake_hands fd p in
  match r with
  | Done peer => (open_session fd peer p, (Status.kOk, ip_conns p))
  | Fail st => (set_world (close_fd (ip_world p) fd) p, (st, 0))
  | Oob => (set_undefined true p, (Status.kInternal, 0))
  end.

Definition ipc_connect (p : IpcProvider) (metadata : list Z) : IpcProvider * (Status.t * ConnId) :=
  match parse_ipc_metadata metadata with
  | Fail st => (p, (st, 0))
  | Oob => (set_undefined true p, (Status.kInternal, 0))
  | Done name =>
      let '(w, fd) := dial_abstract (ip_world p) name in
      let p := set_world w p in
      if fd <? 0 then (p, (Status.kPeerDisconnected, 0)) else attach fd p
  end.

Fixpoint accept_loop (turns : nat) (bounded : bool) (deadline : Z) (p : IpcProvider)
    : IpcProvider * (Status.t * ConnId) :=
  match turns with
  | O => (p, (Status.kTimeout, 0))
  | S turns =>
      let '(w, ready) := host_readable (ip_world p) (ip_listen p) in
      if ready : bool then
        let '(w, fd) := host_accept w (ip_listen p) in
        let p := set_world w p in
        if fd <? 0 then accept_loop turns bounded deadline p else attach fd p
      else
        let '(w, now) := host_clock w in
        let p := set_world w p in
        if bounded && (deadline <=? now) then (p, (Status.kTimeout, 0))
        else accept_loop turns bounded deadline p
  end.

Definition ipc_accept (turns : nat) (timeout_ms : Z) (p : IpcProvider)
    : IpcProvider * (Status.t * ConnId) :=
  let '(w, now) := host_clock (ip_world p) in
  accept_loop turns (0 <=? timeout_ms) (now + Z.max 0 timeout_ms * kMillisecond) (set_world w p).

(** ** The provider interface *)

Definition ipc_caps : ProviderCaps := mkProviderCaps "ipc"%string f64_1 0.

#[export] Instance ipc_provider : TransportProvider IpcProvider := {
  caps _ := ipc_caps;
  stats := ip_stats;
  register_region p a l _ _ := ipc_register_region p a l;
  deregister_region := ipc_deregister_region;
  connect := ipc_connect;
  disconnect := ipc_disconnect;
  local_metadata p := (Status.kOk, ipc_metadata (ip_name p));
  submit := ipc_submit;
  poll := ipc_poll;
  send_control := ipc_send_control;
  broadcast_control := ipc_broadcast_control;
  poll_control := ipc_poll_control;
  poll_peer_arrivals p _ := (p, (Status.kOk, []));
  alive p _ := peer_alive p;
  qp_count _ _ := 1
}.

End Ipc.

#[global] Arguments IpcProvider : clear implicits.
