(* ===== verification/IpcLaws.v ===== *)
(** * The same-host transport keeps the provider contract, and its mappings.

    A submit completes at once, so what is outstanding is what [poll] has not
    handed over.  [ipc_step] is one atomic piece of any call, so that a run is
    any interleaving of calls; over all of them the device is only ever asked to
    copy inside a mapping it still holds, and to release one it holds. *)

From stdpp Require Import base list gmap strings numbers sorting relations.
From S2P Require Import Prelude Float64 Types Wire SocketIo Outbox Provider RdmaVerbs IpcWire.
From S2P Require Import IpcProvider.

(** ** What the device calls leave mapped *)

Definition apply_call (m : gmap Z (Z * Z)) (c : DevCall) : gmap Z (Z * Z) :=
  match c with
  | DOpen key base len => <[key := (base, len)]> m
  | DClose key _ => delete key m
  | DCopy _ _ _ _ => m
  end.

Definition opened (m : gmap Z (Z * Z)) (t : list DevCall) : gmap Z (Z * Z) := foldl apply_call m t.

(** A copy falls inside the region as it is mapped, and what is released is what
    is mapped. *)

Definition call_ok (m : gmap Z (Z * Z)) (c : DevCall) : Prop :=
  match c with
  | DOpen _ _ _ => True
  | DClose key base => ∃ len, m !! key = Some (base, len)
  | DCopy key remote _ bytes =>
      ∃ base len, m !! key = Some (base, len) ∧ base <= remote ∧ remote + bytes <= base + len
  end.

Fixpoint calls_ok (m : gmap Z (Z * Z)) (t : list DevCall) : Prop :=
  match t with
  | [] => True
  | c :: t => call_ok m c ∧ calls_ok (apply_call m c) t
  end.

Lemma opened_app m t t' : opened m (t ++ t') = opened (opened m t) t'.
Proof. apply foldl_app. Qed.

Lemma calls_ok_app m t t' : calls_ok m (t ++ t') ↔ calls_ok m t ∧ calls_ok (opened m t) t'.
Proof.
  revert m. induction t as [|c t IH]; intros m; cbn [app calls_ok opened foldl]; [tauto|].
  rewrite IH. unfold opened. tauto.
Qed.

Lemma calls_ok_snoc m t c : calls_ok m t → call_ok (opened m t) c → calls_ok m (t ++ [c]).
Proof. intros Ht Hc. apply calls_ok_app. by repeat split. Qed.

Section Trace.
Context {W : Type} `{Sockets W} `{IpcDevice W} `{IpcHost W}.
Implicit Types p : IpcProvider W.

(** ** Mappings *)

(** What the table says is mapped is what the device has mapped, and a provider
    whose peer is gone has nothing mapped. *)

Definition maps_inv (imported : gmap Z Imported) (dead : bool) (t : list DevCall) : Prop :=
  calls_ok ∅ t
  ∧ (∀ k im, imported !! k = Some im → im_mapped im ≠ 0 →
       opened ∅ t !! k = Some (im_mapped im, im_length im))
  ∧ (dead = true → ∀ k im, imported !! k = Some im → im_mapped im = 0).

Definition tinv p : Prop :=
  maps_inv (ip_imported p) (negb (peer_alive p)) (ip_trace p).

(** Operations that touch none of this. *)

Definition same_maps p p' : Prop :=
  ip_imported p' = ip_imported p ∧ ip_trace p' = ip_trace p
  ∧ ip_peer_gone p' = ip_peer_gone p ∧ ip_sock p' = ip_sock p.

Lemma tinv_same p p' : same_maps p p' → tinv p → tinv p'.
Proof. intros (E1 & E2 & E3 & E4). unfold tinv, peer_alive. by rewrite E1, E2, E3, E4. Qed.

Lemma close_mappings_ok m t l w n w' n' t' :
  close_mappings l w n = (w', n', t') → NoDup l.*1 → calls_ok m t →
  (∀ k im, (k, im) ∈ l → im_mapped im ≠ 0 → opened m t !! k = Some (im_mapped im, im_length im)) →
  calls_ok m (t ++ t').
Proof.
  revert t w n t'. induction l as [|[k im] l IH]; intros t w n t' Hc Hd Ht Ho; cbn [close_mappings] in Hc.
  - injection Hc as <- <- <-. by rewrite app_nil_r.
  - cbn in Hd. apply NoDup_cons in Hd as [Hk Hd].
    destruct (im_mapped im =? 0) eqn:E0; b2p.
    + eapply IH; eauto. intros k' im' Hin. apply Ho. by right.
    + destruct (close_ipc w (im_mapped im)) as [w1 st]. destruct (close_mappings l w1 _) as [[w2 n2] t2] eqn:E.
      injection Hc as <- <- <-.
      change (DClose k (im_mapped im) :: t2) with ([DClose k (im_mapped im)] ++ t2).
      rewrite app_assoc. eapply IH; eauto.
      * apply calls_ok_snoc; [done|]. exists (im_length im). apply Ho; [by left|done].
      * intros k' im' Hin Hm'. rewrite opened_app. cbn. rewrite lookup_delete_ne.
        -- apply Ho; [by right|done].
        -- intros <-. apply Hk. by apply list_elem_of_fmap_2 with (f := fst) in Hin.
Qed.

(** The table emptied, its mappings released. *)

Lemma drop_mappings_maps p :
  tinv p → calls_ok ∅ (ip_trace (drop_mappings p)) ∧ ip_imported (drop_mappings p) = ∅.
Proof.
  intros (Hc & Ho & _). unfold drop_mappings.
  destruct (close_mappings _ _ _) as [[w n] t] eqn:E. cbn. split; [|done].
  eapply close_mappings_ok; [done|apply in_key_order_nodup|done|].
  intros k im Hin. apply Ho. by apply in_key_order_elem.
Qed.

Lemma empty_inv dead t : calls_ok ∅ t → maps_inv ∅ dead t.
Proof.
  intros Ht. split_and!; [done| |].
  - intros k im E. by rewrite lookup_empty in E.
  - intros _ k im E. by rewrite lookup_empty in E.
Qed.

Lemma close_sock_maps p :
  ip_imported (close_sock p) = ip_imported p ∧ ip_trace (close_sock p) = ip_trace p.
Proof. unfold close_sock. by destruct (ip_sock p <? 0). Qed.

Lemma emptied_tinv p : tinv p → tinv (close_sock (drop_mappings p)).
Proof.
  intros Hp. apply drop_mappings_maps in Hp as [Hc He]. unfold tinv.
  destruct (close_sock_maps (drop_mappings p)) as [-> ->]. rewrite He. by apply empty_inv.
Qed.

Lemma peer_is_gone_tinv p : tinv p → tinv (peer_is_gone_locked p).
Proof.
  intros Hp. unfold peer_is_gone_locked. destruct (ip_peer_gone p); [done|].
  assert (E : drop_mappings (set_gone true p) = set_gone true (drop_mappings p)).
  { unfold drop_mappings. cbn. by destruct (close_mappings _ _ _) as [[??]?]. }
  rewrite E. apply drop_mappings_maps in Hp as [Hc He]. unfold tinv.
  destruct (close_sock_maps (set_gone true (drop_mappings p))) as [-> ->]. cbn.
  rewrite He. by apply empty_inv.
Qed.

(** ** Sending and receiving *)

Lemma send_frame_maps fd f p : same_maps p (fst (send_frame fd f p)).
Proof.
  unfold send_frame. destruct (fd <? 0); [done|]. destruct (fd =? ip_sock p).
  - destruct (post _ _ _) as [[[o st] sent] rest]. unfold note_sent. cbn.
    by destruct (_ || _).
  - destruct (hs_answers _ _) as [ss rs]. by destruct (send_all _ _) as [[ok sent] ss'].
Qed.

Lemma send_frame_tinv fd f p p' st : send_frame fd f p = (p', st) → tinv p → tinv p'.
Proof. intros E. pose proof (send_frame_maps fd f p) as S. rewrite E in S. by apply tinv_same. Qed.

Lemma publish_loop_tinv fd l p : tinv p → tinv (publish_loop fd l p).
Proof.
  revert p. induction l as [|[k e] l IH]; intros p Hp; cbn [publish_loop]; [done|].
  destruct (send_frame fd (publication k e) p) as [p' st] eqn:E.
  apply send_frame_tinv in E; [|done]. case_bool_decide; [by apply IH|by apply peer_is_gone_tinv].
Qed.

Lemma forget_import_tinv k p : tinv p → tinv (forget_import k p).
Proof.
  intros (Hc & Ho & Hd). unfold forget_import.
  destruct (ip_imported p !! k) as [im|] eqn:Ek; [|done].
  destruct (im_mapped im =? 0) eqn:E0; b2p; unfold tinv; cbn; split_and!.
  - done.
  - intros k' im' [Hne Hk']%lookup_delete_Some. by apply Ho.
  - intros Hg k' im' [Hne Hk']%lookup_delete_Some. by eapply Hd.
  - apply calls_ok_snoc; [done|]. exists (im_length im). by apply Ho.
  - intros k' im' [Hne Hk']%lookup_delete_Some Hm. rewrite opened_app. cbn.
    rewrite lookup_delete_ne by done. by apply Ho.
  - intros Hg k' im' [Hne Hk']%lookup_delete_Some. by eapply Hd.
Qed.

Lemma dispatch_tinv fd f p : tinv p → tinv (dispatch fd f p).
Proof.
  intros Hp. unfold dispatch. destruct f as [t pl|k a l h|k|k|]; try done.
  - destruct Hp as (Hc & Ho & Hd). unfold tinv; cbn. split_and!; [done| |].
    + intros k' im' Hk' Hm. destruct (decide (k = k')) as [<-|Hne].
      * rewrite lookup_insert_eq in Hk'. by injection Hk' as <-.
      * rewrite lookup_insert_ne in Hk' by done. by apply Ho.
    + intros Hg k' im' Hk'. destruct (decide (k = k')) as [<-|Hne].
      * rewrite lookup_insert_eq in Hk'. by injection Hk' as <-.
      * rewrite lookup_insert_ne in Hk' by done. by eapply Hd.
  - destruct (send_frame fd (FWithdrawAck k) _) as [p' st] eqn:E.
    eapply send_frame_tinv; [exact E|]. by apply forget_import_tinv.
  - cbn. by destruct (ip_acks p !! k).
Qed.

Lemma pump_frames_tinv fuel fd p : tinv p → tinv (pump_frames fuel fd p).
Proof.
  revert p. induction fuel as [|fuel IH]; intros p Hp; cbn [pump_frames]; [done|].
  destruct (next_frame (ip_inbox p)) as [[[f rest]|]| |]; try done.
  apply IH. by apply (dispatch_tinv fd f) in Hp.
Qed.

Lemma pump_tinv fd p : tinv p → tinv (fst (pump fd p)).
Proof.
  intros Hp. unfold pump. destruct (fd <? 0); [done|].
  unfold pump_flush. destruct (flush _ _) as [[[o st] sent] rest].
  case_bool_decide; [by apply peer_is_gone_tinv|]. cbn [note_wrote set_link set_world ip_sock set_ioutbox].
  destruct (negb (fd =? ip_sock p)); [done|]. unfold pump_read.
  destruct (pump_reads _) as [[got closed] rest'].
  destruct closed; cbn [fst]; [apply peer_is_gone_tinv|]; apply pump_frames_tinv;
    (eapply tinv_same; [|exact Hp]; done).
Qed.

(** ** Transfers *)

Lemma ensure_mapped_tinv k p p' r :
  ensure_mapped k p = (p', r) → peer_alive p = true → tinv p →
  tinv p' ∧ peer_alive p' = true
  ∧ ∀ im, r = inr im → opened ∅ (ip_trace p') !! k = Some (im_mapped im, im_length im).
Proof.
  intros E Ha Hp. pose proof Hp as (Hc & Ho & Hd). unfold ensure_mapped in E.
  destruct (ip_imported p !! k) as [im|] eqn:Ek; [|by injection E as <- <-].
  destruct (im_mapped im =? 0) eqn:E0; b2p; cbn [negb] in E.
  2:{ injection E as <- <-. split_and!; [done|done|]. intros ? [= <-]. by apply Ho. }
  destruct (import_ipc _ _) as [w [st mapped]].
  destruct (negb _); injection E as <- <-; [by split_and!|].
  assert (Hlast : opened ∅ (ip_trace p ++ [DOpen k mapped (im_length im)]) !! k
    = Some (mapped, im_length im)) by (rewrite opened_app; apply lookup_insert_eq).
  split_and!; [|done|by intros ? [= <-]].
  unfold tinv, peer_alive in *; cbn in *. rewrite Ha. split_and!; [by apply calls_ok_snoc| |done].
  intros k' im' Hk' Hm. destruct (decide (k = k')) as [<-|Hne].
  - rewrite lookup_insert_eq in Hk'. injection Hk' as <-. done.
  - rewrite lookup_insert_ne in Hk' by done. rewrite opened_app. cbn.
    rewrite lookup_insert_ne by done. by apply Ho.
Qed.

Lemma region_offset_inside op im off :
  region_offset op im = Some off →
  0 <= off ∧ off + op_length op <= im_length im ∧ op_remote_addr op = im_peer_addr im + off.
Proof.
  unfold region_offset. destruct (_ <? _) eqn:E1; [done|]. destruct (_ || _) eqn:E2; [done|].
  intros [= <-]. b2p. lia.
Qed.

Lemma ipc_submit_one_tinv op p p' r :
  ipc_submit_one op p = (p', r) → peer_alive p = true → tinv p → tinv p' ∧ peer_alive p' = true.
Proof.
  unfold ipc_submit_one. destruct (ensure_mapped _ p) as [p1 r1] eqn:E1. intros E Ha Hp.
  apply ensure_mapped_tinv in E1 as (Hp1 & Ha1 & Ho1); [|done..].
  destruct r1 as [st|im]; [by injection E as <- <-|].
  destruct (region_offset op im) as [off|] eqn:Eo; [|by injection E as <- <-].
  destruct (_ =? _); [by injection E as <- <-|].
  destruct (copy_nowait _ _ _ _) as [w st]. injection E as <- <-. split; [|done].
  apply region_offset_inside in Eo. destruct Hp1 as (Hc & Ho & Hd).
  unfold tinv; cbn. split_and!.
  - apply calls_ok_snoc; [done|]. exists (im_mapped im), (im_length im).
    split; [by apply Ho1|]. lia.
  - intros k' im' Hk' Hm. rewrite opened_app. by apply Ho.
  - done.
Qed.

Lemma ipc_submit_loop_tinv ops p p' evs st :
  ipc_submit_loop ops p = (p', evs, st) → peer_alive p = true → tinv p →
  tinv p' ∧ peer_alive p' = true.
Proof.
  revert p p' evs st. induction ops as [|op ops IH]; intros p p' evs st E Ha Hp;
    cbn [ipc_submit_loop] in E; [by injection E as <- <- <-|].
  destruct (ipc_submit_one op p) as [p1 r] eqn:E1.
  apply ipc_submit_one_tinv in E1 as [Hp1 Ha1]; [|done..].
  destruct r as [st1|ev]; [by injection E as <- <- <-|].
  destruct (ipc_submit_loop ops p1) as [[p2 evs2] st2] eqn:E2. injection E as <- <- <-. by eapply IH.
Qed.

Lemma submit_locked_tinv ops p : tinv p → tinv (fst (submit_locked ops p)).
Proof.
  intros Hp. unfold submit_locked. destruct (ip_peer_gone p || (ip_sock p <? 0)) eqn:Eg; [done|].
  assert (Ha : peer_alive p = true).
  { unfold peer_alive. apply orb_false_iff in Eg as [-> Es]. b2p. by apply Z.leb_le. }
  destruct (ipc_submit_loop ops p) as [[p1 evs] st] eqn:E1.
  apply ipc_submit_loop_tinv in E1 as [Hp1 _]; [|done..].
  destruct (settle_batch evs st p1) as [p2 st2] eqn:E2. cbn [fst].
  eapply tinv_same; [|exact Hp1]. unfold settle_batch in E2.
  case_bool_decide; [by injection E2 as <- <-|]. destruct (dev_settle _) as [w ss].
  case_bool_decide; by injection E2 as <- <-.
Qed.

(** ** Regions and connections *)

Lemma register_tinv p a l : tinv p → tinv (fst (ipc_register_region p a l)).
Proof.
  intros Hp. unfold ipc_register_region. destruct (_ || _); [done|].
  destruct (export_ipc _ _ _) as [w [st h]]. destruct (negb _); [done|]. cbn -[send_frame].
  destruct (ip_sock p <? 0); [done|].
  destruct (send_frame _ _ _) as [p' st'] eqn:E. apply send_frame_tinv in E; [|done].
  case_bool_decide; [done|]. by apply peer_is_gone_tinv.
Qed.

Lemma withdraw_begin_tinv p k : tinv p → tinv (fst (withdraw_begin p k)).
Proof.
  intros Hp. unfold withdraw_begin. destruct (ip_exported p !! k); [|done]. cbn -[send_frame].
  destruct (ip_sock p <? 0); [done|]. destruct (send_frame _ _ _) as [p' st'] eqn:E.
  apply send_frame_tinv in E; [|done]. by case_bool_decide.
Qed.

Lemma send_control_tinv p c t b : tinv p → tinv (fst (ipc_send_control p c t b)).
Proof.
  intros Hp. unfold ipc_send_control. destruct c; [|done]. destruct (ip_peer_gone p); [done|].
  destruct (send_frame _ _ _) as [p' st'] eqn:E. apply send_frame_tinv in E; [|done].
  case_bool_decide; [by apply peer_is_gone_tinv|done].
Qed.

Lemma broadcast_tinv p t b : tinv p → tinv (fst (ipc_broadcast_control p t b)).
Proof.
  intros Hp. unfold ipc_broadcast_control. destruct (_ && _); [|done].
  destruct (send_frame _ _ _) as [p' st'] eqn:E. apply send_frame_tinv in E; [|done].
  case_bool_decide; [by apply peer_is_gone_tinv|done].
Qed.

Lemma attach_tinv fd p : 0 <= fd → tinv p → tinv (fst (attach fd p)).
Proof.
  intros Hfd Hp. unfold attach, shake_hands. destruct (hs_answers _ _) as [ss rs].
  destruct (io_exec _ _ _ _) as [[[r sent] got] rest]. destruct r as [peer|st|]; [|done..].
  cbn -[publish_all]. unfold open_session, publish_all. apply publish_loop_tinv.
  destruct Hp as (Hc & Ho & Hd). unfold tinv, peer_alive in *; cbn. split_and!; [done|done|].
  rewrite (proj2 (Z.leb_le 0 fd)), andb_true_r by done. rewrite negb_involutive. intros Hg.
  apply Hd. by rewrite Hg.
Qed.

(** ** Runs *)

(** One atomic piece of a call, or the world moving on by itself. *)

Inductive ipc_step : relation (IpcProvider W) :=
| is_world p w : ipc_step p (set_world w p)
| is_pump fd p : ipc_step p (fst (pump fd p))
| is_register a l p : ipc_step p (fst (ipc_register_region p a l))
| is_withdraw k p : ipc_step p (fst (withdraw_begin p k))
| is_withdrawn k p : ipc_step p (set_acks (delete k (ip_acks p)) p)
| is_submit ops p : ipc_step p (fst (submit_locked ops p))
| is_poll n p : ipc_step p (fst (ipc_poll p n))
| is_control n p : ipc_step p (set_control (drop n (ip_control p)) p)
| is_send c t b p : ipc_step p (fst (ipc_send_control p c t b))
| is_broadcast t b p : ipc_step p (fst (ipc_broadcast_control p t b))
| is_disconnect c p : ipc_step p (fst (ipc_disconnect p c))
| is_attach fd p : 0 <= fd → ipc_step p (fst (attach fd p))
| is_undefined p : ipc_step p (set_undefined true p).

Lemma ipc_step_tinv p p' : ipc_step p p' → tinv p → tinv p'.
Proof.
  destruct 1; intros Hp; try done.
  - by apply pump_tinv.
  - by apply register_tinv.
  - by apply withdraw_begin_tinv.
  - by apply submit_locked_tinv.
  - by apply send_control_tinv.
  - by apply broadcast_tinv.
  - by apply (emptied_tinv p).
  - by apply attach_tinv.
Qed.

Lemma ipc_steps_tinv p p' : rtc ipc_step p p' → tinv p → tinv p'.
Proof. induction 1; eauto using ipc_step_tinv. Qed.

(** Every call of the interface is made of these pieces. *)

Lemma publication_wait_steps turns deadline fd ops p :
  rtc ipc_step p (publication_wait turns deadline fd ops p).
Proof.
  revert p. induction turns as [|turns IH]; intros p; cbn [publication_wait]; [done|].
  eapply rtc_l; [apply (is_pump fd)|]. destruct (_ || _); [done|]. destruct (forallb _ _); [done|].
  destruct (host_clock _) as [w now]. eapply rtc_l; [apply (is_world _ w)|].
  destruct (_ <=? _); [done|]. eapply rtc_l; [apply is_world|]. apply IH.
Qed.

Lemma withdraw_turn_steps p k : rtc ipc_step p (fst (withdraw_turn p k)).
Proof.
  unfold withdraw_turn. eapply rtc_l; [apply (is_pump (ip_sock p))|].
  eapply rtc_l; [apply (is_world _ (host_sleep (ip_world (fst (pump (ip_sock p) p))) kMillisecond))|].
  destruct (_ !! _) as [[]|]; [eapply rtc_once, is_withdrawn|done|eapply rtc_once, is_withdrawn].
Qed.

Lemma withdraw_wait_steps turns deadline p k : rtc ipc_step p (fst (withdraw_wait turns deadline p k)).
Proof.
  revert p. induction turns as [|turns IH]; intros p; cbn [withdraw_wait]; [eapply rtc_once, is_withdrawn|].
  destruct (host_clock _) as [w now]. eapply rtc_l; [apply (is_world _ w)|].
  destruct (_ <=? _); [eapply rtc_once, is_withdrawn|].
  pose proof (withdraw_turn_steps (set_world w p) k) as S.
  destruct (withdraw_turn (set_world w p) k) as [p' [st|]]; [done|]. etrans; [exact S|]. apply IH.
Qed.

Lemma deregister_steps p k : rtc ipc_step p (fst (ipc_deregister_region p k)).
Proof.
  unfold ipc_deregister_region. pose proof (is_withdraw k p) as S.
  destruct (withdraw_begin p k) as [p' [st|]]; [by apply rtc_once|].
  destruct (host_clock _) as [w now]. eapply rtc_l; [exact S|].
  eapply rtc_l; [apply (is_world _ w)|]. apply withdraw_wait_steps.
Qed.

Lemma submit_steps p c ops : rtc ipc_step p (fst (ipc_submit p c ops)).
Proof.
  unfold ipc_submit. destruct (host_clock _) as [w now]. eapply rtc_l; [apply (is_world _ w)|].
  eapply rtc_r; [apply publication_wait_steps|]. apply is_submit.
Qed.

Lemma connect_steps p m : rtc ipc_step p (fst (ipc_connect p m)).
Proof.
  unfold ipc_connect. destruct (parse_ipc_metadata m) as [name|st|]; [|done|apply rtc_once, is_undefined].
  destruct (dial_abstract _ _) as [w fd]. eapply rtc_l; [apply (is_world _ w)|].
  destruct (fd <? 0) eqn:E; b2p; [done|]. by apply rtc_once, is_attach.
Qed.

Lemma accept_steps turns bounded deadline p :
  rtc ipc_step p (fst (accept_loop turns bounded deadline p)).
Proof.
  revert p. induction turns as [|turns IH]; intros p; cbn [accept_loop]; [done|].
  destruct (host_readable _ _) as [w []].
  - destruct (host_accept _ _) as [w' fd]. eapply rtc_l; [apply (is_world _ w')|].
    destruct (fd <? 0) eqn:E; b2p; [apply IH|]. by apply rtc_once, is_attach.
  - destruct (host_clock _) as [w' now]. eapply rtc_l; [apply (is_world _ w')|].
    destruct (_ && _); [done|]. apply IH.
Qed.

Lemma poll_control_steps p n : rtc ipc_step p (fst (ipc_poll_control p n)).
Proof.
  unfold ipc_poll_control. eapply rtc_l; [apply (is_pump (ip_sock p))|]. apply rtc_once, is_control.
Qed.

End Trace.

(** ** The provider contract *)

Section Laws.
Context {W : Type} `{Sockets W} `{IpcDevice W} `{IpcHost W}.
Implicit Types p : IpcProvider W.

(** Only a submit makes completions and only a poll takes them. *)

Lemma drop_mappings_completions p : ip_completions (drop_mappings p) = ip_completions p.
Proof. unfold drop_mappings. by destruct (close_mappings _ _ _) as [[??]?]. Qed.

Lemma close_sock_completions p : ip_completions (close_sock p) = ip_completions p.
Proof. unfold close_sock. by destruct (_ <? _). Qed.

Lemma peer_is_gone_completions p : ip_completions (peer_is_gone_locked p) = ip_completions p.
Proof.
  unfold peer_is_gone_locked. destruct (ip_peer_gone p); [done|].
  by rewrite close_sock_completions, drop_mappings_completions.
Qed.

Lemma send_frame_completions fd f p : ip_completions (fst (send_frame fd f p)) = ip_completions p.
Proof.
  unfold send_frame. destruct (fd <? 0); [done|]. destruct (fd =? ip_sock p).
  - destruct (post _ _ _) as [[[o st] sent] rest]. unfold note_sent. cbn. by destruct (_ || _).
  - destruct (hs_answers _ _) as [ss rs]. by destruct (send_all _ _) as [[ok sent] ss'].
Qed.

(** A frame sent, and whatever is then made of a failure. *)

Lemma send_then_completions fd f p (k : IpcProvider W → Status.t → IpcProvider W) :
  (∀ p' st, ip_completions (k p' st) = ip_completions p') →
  ip_completions (let '(p', st) := send_frame fd f p in k p' st) = ip_completions p.
Proof.
  intros Hk. rewrite <- (send_frame_completions fd f p).
  by destruct (send_frame fd f p) as [p' st].
Qed.

Lemma publish_loop_completions fd l p : ip_completions (publish_loop fd l p) = ip_completions p.
Proof.
  revert p. induction l as [|[k e] l IH]; intros p; cbn [publish_loop]; [done|].
  apply send_then_completions. intros p' st. case_bool_decide; [apply IH|apply peer_is_gone_completions].
Qed.

Lemma dispatch_completions fd f p : ip_completions (dispatch fd f p) = ip_completions p.
Proof.
  unfold dispatch. destruct f as [t pl|k a l h|k|k|]; try done.
  - rewrite send_frame_completions. unfold forget_import. cbn.
    destruct (ip_imported p !! k) as [im|]; [|done]. cbn. by destruct (_ =? 0).
  - cbn. by destruct (ip_acks p !! k).
Qed.

Lemma pump_frames_completions fuel fd p : ip_completions (pump_frames fuel fd p) = ip_completions p.
Proof.
  revert p. induction fuel as [|fuel IH]; intros p; cbn [pump_frames]; [done|].
  destruct (next_frame (ip_inbox p)) as [[[f rest]|]| |]; try done.
  rewrite IH. apply (dispatch_completions fd f p).
Qed.

Lemma pump_completions fd p : ip_completions (fst (pump fd p)) = ip_completions p.
Proof.
  unfold pump. destruct (fd <? 0); [done|].
  unfold pump_flush. destruct (flush _ _) as [[[o st] sent] rest].
  case_bool_decide; [cbn [fst]; by rewrite peer_is_gone_completions|].
  cbn [note_wrote set_link set_world ip_sock set_ioutbox].
  destruct (negb (fd =? ip_sock p)); [done|]. unfold pump_read.
  destruct (pump_reads _) as [[got closed] rest'].
  destruct closed; cbn [fst]; rewrite ?peer_is_gone_completions; by rewrite pump_frames_completions.
Qed.

Lemma attach_completions fd p : ip_completions (fst (attach fd p)) = ip_completions p.
Proof.
  unfold attach, shake_hands. destruct (hs_answers _ _) as [ss rs].
  destruct (io_exec _ _ _ _) as [[[r sent] got] rest]. destruct r as [peer|st|]; [|done..].
  cbn -[publish_all]. unfold open_session, publish_all. by rewrite publish_loop_completions.
Qed.

Lemma quiet_steps_completions p p' :
  (∃ k, p' = fst (withdraw_begin p k)) ∨ (∃ a l, p' = fst (ipc_register_region p a l)) →
  ip_completions p' = ip_completions p.
Proof.
  intros [[k ->]|(a & l & ->)].
  - unfold withdraw_begin. destruct (ip_exported p !! k); [|done]. cbn -[send_frame].
    destruct (ip_sock p <? 0); [done|].
    rewrite <- (send_frame_completions (ip_sock p) (FWithdraw k)
      (set_acks (<[k:=false]> (ip_acks p)) (set_exported (delete k (ip_exported p)) p))).
    destruct (send_frame _ _ _) as [p' st]. by case_bool_decide.
  - unfold ipc_register_region. destruct (_ || _); [done|].
    destruct (export_ipc _ _ _) as [w [st h]]. destruct (negb _); [done|]. cbn -[send_frame].
    destruct (ip_sock p <? 0); [done|].
    rewrite send_then_completions; [done|]. intros p' st'.
    case_bool_decide; [done|apply peer_is_gone_completions].
Qed.

Lemma withdraw_wait_completions turns deadline p k :
  ip_completions (fst (withdraw_wait turns deadline p k)) = ip_completions p.
Proof.
  revert p. induction turns as [|turns IH]; intros p; cbn [withdraw_wait]; [done|].
  destruct (host_clock _) as [w now]. destruct (_ <=? _); [done|].
  assert (Ht : ip_completions (fst (withdraw_turn (set_world w p) k)) = ip_completions p).
  { unfold withdraw_turn. pose proof (pump_completions (ip_sock (set_world w p)) (set_world w p)) as E.
    by destruct (ip_acks _ !! k) as [[]|]. }
  destruct (withdraw_turn _ k) as [p' [st|]]; [done|]. rewrite IH. exact Ht.
Qed.

Lemma deregister_completions p k : ip_completions (fst (ipc_deregister_region p k)) = ip_completions p.
Proof.
  unfold ipc_deregister_region.
  assert (Hb : ip_completions (fst (withdraw_begin p k)) = ip_completions p)
    by (apply quiet_steps_completions; eauto).
  destruct (withdraw_begin p k) as [p' [st|]]; [done|].
  destruct (host_clock _) as [w now]. by rewrite withdraw_wait_completions.
Qed.

Lemma send_control_completions p c t b :
  ip_completions (fst (ipc_send_control p c t b)) = ip_completions p.
Proof.
  unfold ipc_send_control. destruct c; [|done]. destruct (ip_peer_gone p); [done|].
  pose proof (send_frame_completions (ip_sock p) (FControl t b) p) as E.
  destruct (send_frame _ _ _) as [p' st]. cbn in *. by case_bool_decide; rewrite ?peer_is_gone_completions.
Qed.

Lemma broadcast_completions p t b :
  ip_completions (fst (ipc_broadcast_control p t b)) = ip_completions p.
Proof.
  unfold ipc_broadcast_control. destruct (_ && _); [|done].
  pose proof (send_frame_completions (ip_sock p) (FControl t b) p) as E.
  destruct (send_frame _ _ _) as [p' st]. cbn in *. by case_bool_decide; rewrite ?peer_is_gone_completions.
Qed.

(** ** Submitting *)

Lemma ipc_submit_one_completions op p p' r :
  ipc_submit_one op p = (p', r) →
  ip_completions p' = ip_completions p ∧ ∀ ev, r = inr ev → ev_request ev = op_request op.
Proof.
  unfold ipc_submit_one, ensure_mapped. intros E.
  destruct (ip_imported p !! _) as [im|]; [|by injection E as <- <-].
  destruct (negb (im_mapped im =? 0)).
  - destruct (region_offset op im) as [off|]; [|by injection E as <- <-].
    destruct (_ =? _); [by injection E as <- <-|].
    destruct (copy_nowait _ _ _ _) as [w st]. injection E as <- <-. split; [done|]. by intros ? [= <-].
  - destruct (import_ipc _ _) as [w [st mapped]]. destruct (negb _); [by injection E as <- <-|].
    cbn -[copy_nowait] in E.
    destruct (region_offset op _) as [off|]; [|by injection E as <- <-].
    destruct (_ =? _); [by injection E as <- <-|].
    destruct (copy_nowait _ _ _ _) as [w' st']. injection E as <- <-. split; [done|]. by intros ? [= <-].
Qed.

(** What landed is one completion for each operation of a prefix. *)

Lemma ipc_submit_loop_spec ops p p' evs st :
  ipc_submit_loop ops p = (p', evs, st) →
  ip_completions p' = ip_completions p
  ∧ ev_request <$> evs = op_request <$> take (length evs) ops ∧ (length evs <= length ops)%nat.
Proof.
  revert p p' evs st. induction ops as [|op ops IH]; intros p p' evs st E;
    cbn [ipc_submit_loop] in E; [by injection E as <- <- <-|].
  destruct (ipc_submit_one op p) as [p1 r] eqn:E1. apply ipc_submit_one_completions in E1 as [C1 R1].
  destruct r as [st1|ev]; [injection E as <- <- <-; split_and!; [done|done|cbn; lia]|].
  destruct (ipc_submit_loop ops p1) as [[p2 evs2] st2] eqn:E2. injection E as <- <- <-.
  apply IH in E2 as (C2 & R2 & L2). split_and!.
  - by rewrite C2.
  - cbn. by rewrite (R1 ev eq_refl), R2.
  - cbn. lia.
Qed.

Lemma count_req_fmap {A} (f : A → Z) i (l : list A) : count_req f i l = count_req id i (f <$> l).
Proof. symmetry. apply (count_req_map id f i l). Qed.

Lemma unsettle_requests ss (evs : list CompletionEvent) : ev_request <$> (unsettle ss <$> evs) = ev_request <$> evs.
Proof.
  rewrite <- list_fmap_compose. apply list_fmap_ext. intros ? ev _. cbn. unfold unsettle.
  by case_bool_decide.
Qed.

Lemma submit_locked_spec ops p p' r :
  submit_locked ops p = (p', r) →
  (sr_accepted r <= length ops)%nat
  ∧ ∀ i, count_req ev_request i (ip_completions p') =
      (count_req ev_request i (ip_completions p)
       + count_req op_request i (take (sr_accepted r) ops))%nat.
Proof.
  unfold submit_locked. destruct (_ || _).
  { intros [= <- <-]. cbn [sr_accepted]. split; [lia|]. intros i. rewrite take_0, count_req_nil. lia. }
  destruct (ipc_submit_loop ops p) as [[p1 evs] st] eqn:E1.
  apply ipc_submit_loop_spec in E1 as (C1 & R1 & L1).
  destruct (settle_batch evs st p1) as [p2 st2] eqn:E2. intros [= <- <-]. cbn [sr_accepted]. split; [done|].
  intros i. rewrite (count_req_fmap op_request), <- R1, <- count_req_fmap, <- C1.
  unfold settle_batch in E2. case_bool_decide as Hn.
  { injection E2 as <- <-. subst. rewrite count_req_nil. lia. }
  destruct (dev_settle _) as [w ss]. case_bool_decide; injection E2 as <- <-;
    cbn [ip_completions set_completions set_world]; rewrite count_req_app; [done|].
  rewrite (count_req_fmap _ _ (_ <$> _)), unsettle_requests, <- count_req_fmap. done.
Qed.

Lemma publication_wait_completions turns deadline fd ops p :
  ip_completions (publication_wait turns deadline fd ops p) = ip_completions p.
Proof.
  revert p. induction turns as [|turns IH]; intros p; cbn [publication_wait]; [done|].
  destruct (_ || _); [apply pump_completions|]. destruct (forallb _ _); [apply pump_completions|].
  destruct (host_clock _) as [w now]. destruct (_ <=? _); [apply pump_completions|].
  rewrite IH. apply pump_completions.
Qed.

#[export] Program Instance ipc_laws : ProviderLaws (IpcProvider W) := {
  outstanding p i := count_req ev_request i (ip_completions p)
}.
Next Obligation.
  intros p c ops. cbn [submit ipc_provider]. unfold ipc_submit. destruct (host_clock _) as [w now].
  destruct (submit_locked ops _) as [p' r] eqn:E. by apply submit_locked_spec in E as [? _].
Qed.
Next Obligation.
  intros p c ops i. cbn [submit ipc_provider]. unfold ipc_submit. destruct (host_clock _) as [w now].
  destruct (submit_locked ops _) as [p' r] eqn:E. apply submit_locked_spec in E as [_ E].
  cbn [fst snd]. rewrite E, publication_wait_completions. done.
Qed.
Next Obligation.
  intros p n i. cbn [poll ipc_provider ipc_poll fst snd ip_completions set_completions].
  rewrite <- (take_drop (Z.to_nat n) (ip_completions p)) at 1.
  rewrite count_req_app. apply Nat.add_comm.
Qed.
Next Obligation.
  intros p a l d f i. cbn [register_region ipc_provider].
  rewrite (quiet_steps_completions p (fst (ipc_register_region p a l))); [done|]. eauto.
Qed.
Next Obligation.
  intros p k i. cbn [deregister_region ipc_provider]. by rewrite deregister_completions.
Qed.
Next Obligation.
  intros p m i. cbn [connect ipc_provider]. unfold ipc_connect.
  destruct (parse_ipc_metadata m) as [name|st|]; [|done..].
  destruct (dial_abstract _ _) as [w fd]. destruct (fd <? 0); [done|]. by rewrite attach_completions.
Qed.
Next Obligation.
  intros p c i. cbn [disconnect ipc_provider ipc_disconnect fst ip_completions set_conn].
  by rewrite close_sock_completions, drop_mappings_completions.
Qed.
Next Obligation. intros p c t b i. cbn [send_control ipc_provider]. by rewrite send_control_completions. Qed.
Next Obligation. intros p t b i. cbn [broadcast_control ipc_provider]. by rewrite broadcast_completions. Qed.
Next Obligation. 
  intros p n i. cbn [poll_control ipc_provider ipc_poll_control fst ip_completions set_control].
  by rewrite pump_completions.
 Qed.
Next Obligation. done. Qed.

End Laws.
