(* ===== verification/IpcLink.v ===== *)
(** * Two ends of a same-host connection.

    Each end publishes its regions to the other and withdraws them; a withdrawal
    is over when the other end says it has let go.  A session is a provider from
    the moment it is connected, through any interleaving of its calls; two
    sessions are joined by nothing but the bytes their sockets carry, each end
    having read some prefix of what the other wrote. *)

From stdpp Require Import base list gmap strings numbers sorting relations.
From S2P Require Import Prelude Float64 Types Wire SocketIo Outbox Provider RdmaVerbs IpcWire.
From S2P Require Import IpcProvider IpcLaws.

(** ** What a sequence of frames amounts to *)

Definition publish_step (m : gmap Z (Z * Z * IpcHandle)) (f : IpcFrame) : gmap Z (Z * Z * IpcHandle) :=
  match f with
  | FPublish key addr len h => <[key := (addr, len, h)]> m
  | FWithdraw key => delete key m
  | _ => m
  end.

Definition table_of (fs : list IpcFrame) : gmap Z (Z * Z * IpcHandle) := foldl publish_step ∅ fs.

Definition import_entry (im : Imported) : Z * Z * IpcHandle :=
  (im_peer_addr im, im_length im, im_handle im).

Definition export_entry (e : Exported) : Z * Z * IpcHandle := (ex_addr e, ex_length e, ex_handle e).

(** A key withdrawn is not published again. *)

Definition publishes (k : Z) (f : IpcFrame) : Prop :=
  match f with FPublish k' _ _ _ => k' = k | _ => False end.

Definition no_republish (fs : list IpcFrame) : Prop :=
  ∀ pre k post, fs = pre ++ FWithdraw k :: post → ∀ f, f ∈ post → ¬ publishes k f.

Lemma table_of_snoc fs f : table_of (fs ++ [f]) = publish_step (table_of fs) f.
Proof. unfold table_of. by rewrite foldl_app. Qed.

Lemma no_republish_nil : no_republish [].
Proof. intros pre k post E. by destruct pre. Qed.

Lemma no_republish_snoc fs f :
  no_republish fs → (∀ k, publishes k f → FWithdraw k ∉ fs) → no_republish (fs ++ [f]).
Proof.
  intros Hn Hf pre k post E g Hg.
  destruct post as [|x post _] using rev_ind; [by apply not_elem_of_nil in Hg|].
  rewrite app_comm_cons, app_assoc in E. apply app_inj_2 in E as [E [= ->]]; [|done].
  apply elem_of_app in Hg as [Hg| ->%list_elem_of_singleton]; [by eapply Hn|].
  intros Hp. eapply Hf; [done|]. rewrite E. apply elem_of_app. right. by left.
Qed.

Lemma publish_foldl k fs m :
  (∀ f, f ∈ fs → ¬ publishes k f) → m !! k = None → foldl publish_step m fs !! k = None.
Proof.
  revert m. induction fs as [|f fs IH]; intros m Hf Hm; [done|]. cbn. apply IH.
  - intros g Hg. apply Hf. by right.
  - assert (¬ publishes k f) by (apply Hf; by left).
    destruct f as [| k' a l h | k' | |]; cbn in *; try done.
    + by rewrite lookup_insert_ne.
    + rewrite lookup_delete_None. by right.
Qed.

Lemma withdrawn_absent fs k : no_republish fs → FWithdraw k ∈ fs → table_of fs !! k = None.
Proof.
  intros Hn Hk. apply list_elem_of_split in Hk as (pre & post & ->). unfold table_of.
  rewrite foldl_app. cbn. apply publish_foldl; [by apply (Hn pre k post)|]. apply lookup_delete_eq.
Qed.

Lemma no_republish_take n fs : no_republish fs → no_republish (take n fs).
Proof.
  intros Hn pre k post E f Hf. apply (Hn pre k (post ++ drop n fs)).
  - by rewrite <- (take_drop n fs) at 1; rewrite E, <- app_assoc.
  - apply elem_of_app. by left.
Qed.

(** ** Frames taken off a stream *)

Inductive parsed : list Z → list IpcFrame → list Z → Prop :=
| parsed_nil inbox : parsed inbox [] inbox
| parsed_cons bytes f rest fs inbox :
    next_frame bytes = Done (Some (f, rest)) → parsed rest fs inbox → parsed bytes (f :: fs) inbox.

(** A whole frame is the same frame when more follows. *)

Lemma next_frame_inv bytes f rest :
  Forall u8 bytes → next_frame bytes = Done (Some (f, rest)) →
  ∃ len type, (6 + Z.to_nat len <= length bytes)%nat ∧ u32 len
    ∧ get_u32 bytes 0 = Done len ∧ get_u16 bytes 4 = Done type
    ∧ (Z.of_nat (length bytes) <? wrap32 (6 + len)) = false
    ∧ decode_body type (take (Z.to_nat len) (drop 6 bytes)) = Done f
    ∧ rest = drop (6 + Z.to_nat len) bytes.
Proof.
  intros Hb E. unfold next_frame in E. case_bool_decide; [done|].
  destruct (get_u32 bytes 0) as [len| |] eqn:El; try done. cbn [res_bind] in E.
  assert (Hlen : u32 len) by (by apply get_le_split in El as (_ & ? & _); [|done|lia]).
  destruct (_ <? wrap32 _) eqn:Ew; [done|].
  destruct (get_u16 bytes 4) as [type| |] eqn:Et; try done. cbn [res_bind] in E.
  destruct (_ <? 6 + len) eqn:E6; [done|]. b2p.
  destruct (decode_body _ _) as [f'| |] eqn:Ed; try done. injection E as <- <-.
  exists len, type. unfold uw in Hlen. split_and!; try done; [lia|].
  by apply Z.ltb_ge.
Qed.

Lemma next_frame_more bytes f rest more :
  Forall u8 bytes → next_frame bytes = Done (Some (f, rest)) →
  next_frame (bytes ++ more) = Done (Some (f, rest ++ more)).
Proof.
  intros Hb E. apply next_frame_inv in E as (len & type & Hl & Hlen & E1 & E2 & E3 & E4 & ->); [|done].
  unfold uw in Hlen. b2p.
  assert (G : ∀ off n, (0 < n)%nat → (off + n <= 6)%nat →
    get_le (E := Status.t) (bytes ++ more) off n = get_le bytes off n).
  { intros off n Hn Ho. rewrite !get_le_spec by (rewrite ?length_app; lia).
    by rewrite drop_app_le, take_app_le by (rewrite ?length_drop; lia). }
  unfold next_frame, get_u32, get_u16 in *. rewrite !G by lia.
  rewrite bool_decide_false by (rewrite length_app; lia). rewrite E1. cbn [res_bind].
  rewrite (proj2 (Z.ltb_ge _ (wrap32 _))) by (rewrite length_app; lia). rewrite E2. cbn [res_bind].
  rewrite (proj2 (Z.ltb_ge _ _)) by (rewrite length_app; lia).
  rewrite drop_app_le, take_app_le, E4 by (rewrite ?length_drop; lia). cbn [res_bind].
  by rewrite drop_app_le by lia.
Qed.

Lemma next_frame_rest bytes f rest :
  Forall u8 bytes → next_frame bytes = Done (Some (f, rest)) → Forall u8 rest.
Proof.
  intros Hb E. apply next_frame_inv in E as (len & type & _ & _ & _ & _ & _ & _ & ->); [|done].
  by apply Forall_drop.
Qed.

Lemma parsed_more bytes fs inbox more :
  Forall u8 bytes → parsed bytes fs inbox → parsed (bytes ++ more) fs (inbox ++ more).
Proof.
  intros Hb Hp. induction Hp as [|bytes f rest fs inbox E Hp IH]; [constructor|].
  econstructor; [by apply next_frame_more|]. apply IH. by eapply next_frame_rest.
Qed.

Lemma parsed_snoc bytes fs inbox f rest :
  parsed bytes fs inbox → next_frame inbox = Done (Some (f, rest)) → parsed bytes (fs ++ [f]) rest.
Proof.
  intros Hp E. induction Hp as [|bytes g rest' fs inbox E' Hp IH]; cbn.
  - econstructor; [done|constructor].
  - econstructor; [done|]. by apply IH.
Qed.

Lemma parsed_u8 bytes fs inbox : Forall u8 bytes → parsed bytes fs inbox → Forall u8 inbox.
Proof.
  intros Hb Hp. induction Hp as [|bytes f rest fs inbox E Hp IH]; [done|].
  apply IH. by eapply next_frame_rest.
Qed.

(** What comes off a stream of frames is those frames, in order. *)

Lemma parsed_stream got seen inbox future fs :
  Forall frame_wf fs → got ++ future = concat (encode_frame <$> fs) → parsed got seen inbox →
  seen = take (length seen) fs ∧ inbox ++ future = concat (encode_frame <$> drop (length seen) fs).
Proof.
  intros F E Hp. revert fs F E. induction Hp as [|bytes f rest seen inbox En Hp IH]; intros fs F E.
  - cbn. by rewrite drop_0.
  - destruct (next_frame_stream _ _ _ F E) as [[En' _]|(f' & fs' & rest' & -> & En' & E' & _)].
    + by rewrite En' in En.
    + rewrite En' in En. injection En as -> ->. inversion F; subst.
      destruct (IH fs') as [E1 E2]; [done|done|]. cbn. split; [by f_equal|done].
Qed.

(** ** One end *)

(** Sending: the socket has carried a prefix of the frames sent, and while the
    outbox works what it still owes is exactly the rest. *)

Definition out_inv (sock : Z) (o : ControlOutbox) (sent : list IpcFrame) (wire : list Z) : Prop :=
  Forall frame_wf sent ∧ wire `prefix_of` concat (encode_frame <$> sent)
  ∧ if sock <? 0 then fd_ o < 0
    else fd_ o = sock ∧ outbox_inv o
      ∧ (broken_ o = false → wire ++ owed o = concat (encode_frame <$> sent)).

(** Receiving: the frames acted on are those at the front of what was read, the
    inbox is the rest, and the table of the peer's regions is what they say. *)

Definition in_inv (inbox got : list Z) (seen : list IpcFrame) : Prop :=
  Forall u8 got ∧ parsed got seen inbox.

Definition table_inv (sock : Z) (imported : gmap Z Imported) (seen : list IpcFrame) : Prop :=
  if sock <? 0 then imported = ∅ else import_entry <$> imported = table_of seen.

(** Order: keys are new when published and no longer held when withdrawn. *)

Definition order_inv (exported : gmap Z Exported) (next : Z) (sent : list IpcFrame) : Prop :=
  u64 next
  ∧ (∀ k e, exported !! k = Some e → k < next ∧ frame_wf (publication k e))
  ∧ (∀ k, FWithdraw k ∈ sent → k < next ∧ exported !! k = None)
  ∧ no_republish sent.

(** Replies: only what was withdrawn is acknowledged, and only an acknowledgement
    that came sets a mark. *)

Definition reply_inv (acks : gmap Z bool) (sent seen : list IpcFrame) : Prop :=
  (∀ k, FWithdrawAck k ∈ sent → FWithdraw k ∈ seen)
  ∧ (∀ k, acks !! k = Some true → FWithdrawAck k ∈ seen).

(** A frame that may be sent next. *)

Definition may_send (f : IpcFrame) (exported : gmap Z Exported) (next : Z)
    (sent seen : list IpcFrame) : Prop :=
  frame_wf f
  ∧ match f with
    | FPublish k _ _ _ => FWithdraw k ∉ sent
    | FWithdraw k => k < next ∧ exported !! k = None
    | FWithdrawAck k => FWithdraw k ∈ seen
    | _ => True
    end.

Lemma encode_frame_ne f : encode_frame f ≠ [].
Proof. intros E. apply (f_equal length) in E. rewrite length_encode_frame in E. cbn in E. lia. Qed.

Lemma concat_snoc sent f :
  concat (encode_frame <$> sent ++ [f]) = concat (encode_frame <$> sent) ++ encode_frame f.
Proof. rewrite fmap_app, concat_app. cbn. by rewrite app_nil_r. Qed.

Lemma post_out_inv sock o sent wire s f o' st bytes s' :
  out_inv sock o sent wire → 0 <= sock → frame_wf f →
  post s (encode_frame f) o = (o', st, bytes, s') →
  out_inv sock o' (if bool_decide (st = Status.kOk) || broken_ o' then sent ++ [f] else sent)
    (wire ++ bytes).
Proof.
  intros (Fw & Pw & Hs) Hsock Hf E. unfold out_inv. rewrite (proj2 (Z.ltb_ge sock 0)) in * by done.
  destruct Hs as (Hfd & Hi & Hw).
  apply post_spec in E as (I & Ffd & _ & Br & K & N & P & _); [|done].
  assert (Pre : wire ++ bytes `prefix_of` concat (encode_frame <$> sent) ++ encode_frame f).
  { destruct (broken_ o) eqn:Eb.
    - destruct Br as (_ & -> & _); [done|]. rewrite app_nil_r. by apply prefix_app_r.
    - rewrite <- (Hw eq_refl), <- app_assoc. by apply prefix_app. }
  destruct (bool_decide (st = Status.kOk) || broken_ o') eqn:Ek.
  - split_and!; [by apply Forall_app_2; [|constructor]|by rewrite concat_snoc|congruence|done|].
    intros Hb. rewrite Hb, orb_false_r in Ek. apply bool_decide_eq_true in Ek.
    destruct (K Ek) as [_ K']. rewrite concat_snoc.
    destruct (broken_ o) eqn:Eb; [by destruct (Br eq_refl) as (_ & _ & ?)|].
    by rewrite <- (Hw eq_refl), <- !app_assoc, K'.
  - apply orb_false_iff in Ek as [Ek Eb']. apply bool_decide_eq_false in Ek.
    destruct (broken_ o) eqn:Eb; [destruct (Br eq_refl) as (-> & _); congruence|].
    specialize (N Ek Eb'). specialize (Hw eq_refl).
    assert (Hall : (wire ++ bytes) ++ owed o' = concat (encode_frame <$> sent)).
    { by rewrite <- Hw, N, app_assoc. }
    split_and!; [done| |congruence|done|done]. rewrite <- Hall. by apply prefix_app_r.
Qed.

Lemma flush_out_inv sock o sent wire s o' st bytes s' :
  out_inv sock o sent wire → flush s o = (o', st, bytes, s') → out_inv sock o' sent (wire ++ bytes).
Proof.
  intros (Fw & Pw & Hs) E. unfold out_inv. destruct (sock <? 0) eqn:Es.
  - unfold flush, flush_locked in E. rewrite (proj2 (Z.ltb_lt (fd_ o) 0)) in E by done.
    destruct (broken_ o); injection E as <- <- <- <-; by rewrite app_nil_r.
  - destruct Hs as (Hfd & Hi & Hw).
    unfold flush in E. pose proof E as E0. apply flush_spec in E as (I & O & F & _ & _ & B & _); [|done].
    destruct (broken_ o) eqn:Eb.
    + unfold flush_locked in E0. rewrite Eb in E0. injection E0 as <- <- <- <-. rewrite app_nil_r.
      split_and!; try done. by rewrite Eb.
    + specialize (Hw eq_refl).
      assert (Hall : (wire ++ bytes) ++ owed o' = concat (encode_frame <$> sent)).
      { by rewrite <- Hw, O, app_assoc. }
      split_and!; [done| |congruence|done|done]. rewrite <- Hall. by apply prefix_app_r.
Qed.

Lemma closed_out_inv sock o sent wire :
  out_inv sock o sent wire → out_inv (-1) (reset (-1) kDefaultLimit o) sent wire.
Proof. intros (Fw & Pw & _). by split_and!. Qed.

Lemma send_order_inv exported next sent seen f :
  order_inv exported next sent → may_send f exported next sent seen →
  order_inv exported next (sent ++ [f]).
Proof.
  intros (Hn & He & Hwd & Hr) [_ Hf]. split_and!; [done|done| |].
  - intros k [Hk|Hk%list_elem_of_singleton]%elem_of_app; [by apply Hwd|]. by subst f.
  - apply no_republish_snoc; [done|]. intros k Hk. destruct f; try done. cbn in Hk. by subst.
Qed.

Lemma send_reply_inv acks sent seen exported next f :
  reply_inv acks sent seen → may_send f exported next sent seen → reply_inv acks (sent ++ [f]) seen.
Proof.
  intros [Ha Hm] [_ Hf]. split; [|done].
  intros k [Hk|Hk%list_elem_of_singleton]%elem_of_app; [by apply Ha|]. by subst f.
Qed.

(** What the session relies on of the host and the device: sockets deliver bytes,
    and a handle fits the fields it travels in. *)

Class LinkLaws (W : Type) `{Sockets W} `{IpcDevice W} : Prop := {
  recv_bytes (w : W) fd b : CtrlGot b ∈ recv_answers w fd → Forall u8 b;
  export_wf (w : W) a l w' h : export_ipc w a l = (w', (Status.kOk, h)) → handle_wf h
}.

Section Session.
Context {W : Type} `{Sockets W} `{IpcDevice W} `{IpcHost W} `{!LinkLaws W}.
Implicit Types p : IpcProvider W.

Definition sent_of p : list IpcFrame := lk_sent (ip_link p).
Definition seen_of p : list IpcFrame := lk_seen (ip_link p).
Definition wire_of p : list Z := lk_wire (ip_link p).
Definition got_of p : list Z := lk_got (ip_link p).

Definition linv p : Prop :=
  out_inv (ip_sock p) (ip_outbox p) (sent_of p) (wire_of p)
  ∧ in_inv (ip_inbox p) (got_of p) (seen_of p)
  ∧ table_inv (ip_sock p) (ip_imported p) (seen_of p)
  ∧ order_inv (ip_exported p) (ip_next_key p) (sent_of p)
  ∧ reply_inv (ip_acks p) (sent_of p) (seen_of p).

(** Everything a session's properties depend on. *)

Definition same_link p p' : Prop :=
  ip_sock p' = ip_sock p ∧ ip_outbox p' = ip_outbox p ∧ ip_link p' = ip_link p
  ∧ ip_inbox p' = ip_inbox p ∧ import_entry <$> ip_imported p' = import_entry <$> ip_imported p
  ∧ ip_exported p' = ip_exported p ∧ ip_next_key p' = ip_next_key p ∧ ip_acks p' = ip_acks p.

Lemma linv_same p p' : same_link p p' → linv p → linv p'.
Proof.
  unfold linv, sent_of, wire_of, got_of, seen_of.
  intros (E1 & E2 & E3 & E4 & E5 & E6 & E7 & E8) (Ho & Hi & Ht & Hr & Hp).
  rewrite E1, E2, E3, E4, E6, E7, E8. split_and!; try done.
  unfold table_inv in *. destruct (ip_sock p <? 0); [|by rewrite E5].
  rewrite Ht, fmap_empty in E5. by apply fmap_empty_inv in E5.
Qed.

(** ** Sending *)

Lemma send_frame_linv f p p' st :
  send_frame (ip_sock p) f p = (p', st) → linv p →
  may_send f (ip_exported p) (ip_next_key p) (sent_of p) (seen_of p) →
  linv p' ∧ ip_sock p' = ip_sock p
  ∧ sent_of p' = (if (0 <=? ip_sock p) && (bool_decide (st = Status.kOk) || broken_ (ip_outbox p'))
                  then sent_of p ++ [f] else sent_of p)
  ∧ seen_of p' = seen_of p ∧ ip_imported p' = ip_imported p ∧ ip_exported p' = ip_exported p
  ∧ ip_acks p' = ip_acks p ∧ ip_inbox p' = ip_inbox p ∧ got_of p' = got_of p
  ∧ ip_next_key p' = ip_next_key p ∧ ip_peer_gone p' = ip_peer_gone p
  ∧ (ip_sock p < 0 → st = Status.kPeerDisconnected).
Proof.
  intros E (Ho & Hi & Ht & Hr & Hp) Hf. unfold send_frame in E.
  destruct (ip_sock p <? 0) eqn:Es.
  { injection E as <- <-. rewrite (proj2 (Z.leb_gt _ _)) by (b2p; lia). by split_and!. }
  b2p. rewrite Z.eqb_refl in E.
  destruct (post _ _ _) as [[[o st'] bytes] rest] eqn:Ep. apply pair_equal_spec in E as [<- <-].
  pose proof (post_out_inv _ _ _ _ _ _ _ _ _ _ Ho Es (proj1 Hf) Ep) as Ho'.
  rewrite (proj2 (Z.leb_le _ _)) by done. unfold note_sent, note_wrote.
  cbn [ip_outbox set_link set_world set_ioutbox ip_link lk_sent lk_wire lk_got lk_seen andb].
  destruct (_ || broken_ o) eqn:Eb; unfold linv, sent_of, wire_of, got_of, seen_of in *; cbn;
    rewrite ?Eb; split_and!; try done; try lia.
  - by eapply send_order_inv.
  - by eapply send_reply_inv.
Qed.

(** ** Losing the peer *)

Lemma drop_mappings_fields p :
  ip_sock (drop_mappings p) = ip_sock p ∧ ip_outbox (drop_mappings p) = ip_outbox p
  ∧ ip_link (drop_mappings p) = ip_link p ∧ ip_inbox (drop_mappings p) = ip_inbox p
  ∧ ip_imported (drop_mappings p) = ∅ ∧ ip_exported (drop_mappings p) = ip_exported p
  ∧ ip_next_key (drop_mappings p) = ip_next_key p ∧ ip_acks (drop_mappings p) = ip_acks p
  ∧ ip_peer_gone (drop_mappings p) = ip_peer_gone p.
Proof. unfold drop_mappings. by destruct (close_mappings _ _ _) as [[??]?]. Qed.

Lemma emptied_linv p : linv p → linv (close_sock (drop_mappings p)) ∧ ip_sock (close_sock (drop_mappings p)) < 0.
Proof.
  intros (Ho & Hi & Ht & Hr & Hp).
  destruct (drop_mappings_fields p) as (E1 & E2 & E3 & E4 & E5 & E6 & E7 & E8 & _).
  unfold close_sock. destruct (ip_sock (drop_mappings p) <? 0) eqn:Es;
    unfold linv, sent_of, wire_of, got_of, seen_of, table_inv in *; cbn;
    rewrite ?E1, ?E2, ?E3, ?E4, ?E5, ?E6, ?E7, ?E8; rewrite E1 in Es.
  - rewrite Es in *. b2p. by split_and!.
  - split; [|lia]. split_and!; try done. by eapply closed_out_inv.
Qed.

(** Whether the peer is now found gone makes no difference to what was said. *)

Definition same_talk p p' : Prop :=
  ip_link p' = ip_link p ∧ ip_exported p' = ip_exported p ∧ ip_next_key p' = ip_next_key p
  ∧ ip_acks p' = ip_acks p.

Lemma peer_is_gone_linv p :
  linv p → linv (peer_is_gone_locked p) ∧ same_talk p (peer_is_gone_locked p)
    ∧ (ip_peer_gone p = false → ip_sock (peer_is_gone_locked p) < 0)
    ∧ (ip_peer_gone p = true → peer_is_gone_locked p = p).
Proof.
  intros Hp. unfold peer_is_gone_locked. destruct (ip_peer_gone p) eqn:Eg; [by split_and!|].
  destruct (emptied_linv (set_gone true p)) as [Hl Hs]; [by eapply linv_same; [|exact Hp]|].
  split_and!; try done.
  destruct (drop_mappings_fields (set_gone true p)) as (_ & _ & E3 & _ & _ & E6 & E7 & E8 & _).
  unfold same_talk, close_sock. destruct (_ <? 0); cbn; by rewrite E3, E6, E7, E8.
Qed.

(** ** Acting on a frame *)

Lemma withdraw_key_u64 bytes k rest :
  Forall u8 bytes → next_frame bytes = Done (Some (FWithdraw k, rest)) → u64 k.
Proof.
  intros Hb E. apply next_frame_inv in E as (len & type & _ & _ & _ & _ & _ & E & _); [|done].
  assert (Hb' : Forall u8 (take (Z.to_nat len) (drop 6 bytes))) by auto using Forall_take, Forall_drop.
  unfold decode_body in E. generalize dependent (take (Z.to_nat len) (drop 6 bytes)).
  intros body E Hb'. destruct (_ && _).
  { by destruct (get_u16 body 0). }
  destruct (_ && _).
  { destruct (get_u64 body 0), (get_u64 body 8), (get_u64 body 16), (get_u64 body 24),
      (get_u64 body 32), (get_u16 body 40); try done. cbn in E. by destruct (_ <=? _). }
  destruct (_ && _).
  { destruct (get_u64 body 0) as [k'| |] eqn:Ek; try done. cbn in E. injection E as <-.
    by apply get_le_split in Ek as (_ & ? & _); [|done|lia]. }
  destruct (_ && _); [|done]. by destruct (get_u64 body 0).
Qed.

Lemma send_frame_inbox fd f p r :
  send_frame fd f (set_inbox r p) = (set_inbox r (fst (send_frame fd f p)), snd (send_frame fd f p)).
Proof.
  unfold send_frame. destruct (fd <? 0); [done|]. cbn. destruct (fd =? ip_sock p).
  - destruct (post _ _ _) as [[[o st] sent] rest]. cbn. unfold note_sent. cbn.
    by destruct (_ || _).
  - destruct (hs_answers _ _) as [ss rs]. by destruct (send_all _ _) as [[ok sent] ss'].
Qed.

Lemma seen_in_inv inbox got seen f rest :
  in_inv inbox got seen → next_frame inbox = Done (Some (f, rest)) → in_inv rest got (seen ++ [f]).
Proof. intros [Hb Hp] E. split; [done|]. by eapply parsed_snoc. Qed.

Lemma seen_reply_inv acks sent seen f :
  reply_inv acks sent seen → reply_inv acks sent (seen ++ [f]).
Proof. intros [Ha Hm]. split; intros k Hk; apply elem_of_app; left; auto. Qed.

Lemma forget_import_fields k p :
  ip_sock (forget_import k p) = ip_sock p ∧ ip_outbox (forget_import k p) = ip_outbox p
  ∧ ip_link (forget_import k p) = ip_link p ∧ ip_inbox (forget_import k p) = ip_inbox p
  ∧ ip_imported (forget_import k p) = delete k (ip_imported p)
  ∧ ip_exported (forget_import k p) = ip_exported p
  ∧ ip_next_key (forget_import k p) = ip_next_key p ∧ ip_acks (forget_import k p) = ip_acks p
  ∧ ip_peer_gone (forget_import k p) = ip_peer_gone p.
Proof.
  unfold forget_import. destruct (ip_imported p !! k) as [im|] eqn:E.
  - by destruct (im_mapped im =? 0).
  - by rewrite delete_id.
Qed.

(** What [dispatch] leaves alone. *)

Definition dispatched (f : IpcFrame) p p' : Prop :=
  ip_sock p' = ip_sock p ∧ seen_of p' = seen_of p ++ [f] ∧ got_of p' = got_of p
  ∧ ip_exported p' = ip_exported p ∧ ip_next_key p' = ip_next_key p
  ∧ ip_peer_gone p' = ip_peer_gone p
  ∧ table_of (sent_of p') = table_of (sent_of p)
  ∧ (∃ more, sent_of p' = sent_of p ++ more).

Lemma withdraw_linv k rest p :
  next_frame (ip_inbox p) = Done (Some (FWithdraw k, rest)) → 0 <= ip_sock p → linv p →
  linv (set_inbox rest (dispatch (ip_sock p) (FWithdraw k) p))
  ∧ dispatched (FWithdraw k) p (set_inbox rest (dispatch (ip_sock p) (FWithdraw k) p)).
Proof.
  intros En Hs (Ho & Hi & Ht & Hr & Hp). cbn [dispatch].
  set (p1 := set_inbox rest (forget_import k (note_seen (FWithdraw k) p))).
  pose proof (send_frame_inbox (ip_sock p) (FWithdrawAck k) (forget_import k (note_seen (FWithdraw k) p)) rest) as Ei.
  fold p1 in Ei. destruct (send_frame (ip_sock p) (FWithdrawAck k) p1) as [p2 st] eqn:E2.
  apply pair_equal_spec in Ei as [<- _].
  destruct (forget_import_fields k (note_seen (FWithdraw k) p)) as (E1 & Eo & El & _ & Em & Ee & Ex & Ea & Eg).
  assert (Es1 : ip_sock p1 = ip_sock p) by (subst p1; cbn; by rewrite E1).
  assert (Seen1 : seen_of p1 = seen_of p ++ [FWithdraw k]) by (unfold seen_of; subst p1; cbn; by rewrite El).
  assert (Sent1 : sent_of p1 = sent_of p) by (unfold sent_of; subst p1; cbn; by rewrite El).
  assert (Got1 : got_of p1 = got_of p) by (unfold got_of; subst p1; cbn; by rewrite El).
  assert (L1 : linv p1).
  { unfold linv. rewrite Es1, Seen1, Sent1, Got1. unfold wire_of. subst p1; cbn [ip_outbox ip_inbox
      ip_imported ip_exported ip_next_key ip_acks ip_link set_inbox]. rewrite Eo, El, Em, Ee, Ex, Ea.
    split_and!; [done|by eapply seen_in_inv| |done|by apply seen_reply_inv].
    unfold table_inv in *. rewrite (proj2 (Z.ltb_ge _ _)) in * by done. cbn.
    by rewrite fmap_delete, Ht, table_of_snoc. }
  rewrite <- Es1 in E2. apply send_frame_linv in E2 as (L2 & F1 & F2 & F3 & F4 & F5 & F6 & F7 & F8 & F9 & F10 & _);
    [|done|].
  - split; [done|]. unfold dispatched. rewrite F1, F3, F5, F8, F9, F10, Es1, Seen1, Got1.
    assert (Hsent : sent_of p2 = sent_of p ++ [FWithdrawAck k] ∨ sent_of p2 = sent_of p).
    { rewrite F2, Sent1. destruct (_ && _); auto. }
    subst p1; cbn. split_and!; try done; destruct Hsent as [->| ->]; try done.
    + by rewrite table_of_snoc.
    + by exists [FWithdrawAck k].
    + exists []. by rewrite app_nil_r.
  - split; [|rewrite Seen1; apply elem_of_app; right; by left].
    destruct Hi as [Hb Hpr]. apply (parsed_u8 _ _ _ Hb) in Hpr. by eapply withdraw_key_u64.
Qed.

Lemma dispatch_linv f rest p :
  next_frame (ip_inbox p) = Done (Some (f, rest)) → 0 <= ip_sock p → linv p →
  linv (set_inbox rest (dispatch (ip_sock p) f p))
  ∧ dispatched f p (set_inbox rest (dispatch (ip_sock p) f p)).
Proof.
  intros En Hs Hl. destruct f as [t pl|k a l h|k|k|]; [| |by apply withdraw_linv| |].
  all: destruct Hl as (Ho & Hi & Ht & Hr & Hp); cbn [dispatch].
  all: unfold linv, dispatched, sent_of, seen_of, wire_of, got_of, table_inv in *; cbn.
  all: rewrite (proj2 (Z.ltb_ge _ _)) in * by done.
  - split; [|split_and!; try done; exists []; by rewrite app_nil_r].
    split_and!; [done|by eapply seen_in_inv|by rewrite table_of_snoc|done|by apply seen_reply_inv].
  - split; [|split_and!; try done; exists []; by rewrite app_nil_r].
    split_and!; [done|by eapply seen_in_inv| |done|by apply seen_reply_inv].
    by rewrite fmap_insert, Ht, table_of_snoc.
  - assert (Ha : ∀ acks', (∀ k', acks' !! k' = Some true → k' = k ∨ ip_acks p !! k' = Some true) →
      reply_inv acks' (lk_sent (ip_link p)) (lk_seen (ip_link p) ++ [FWithdrawAck k])).
    { intros acks' Hk. destruct Hp as [Ha Hm]. split; intros k' Hk'; apply elem_of_app.
      - left. by apply Ha.
      - destruct (Hk k' Hk') as [->|?]; [right; by left|left; by apply Hm]. }
    destruct (ip_acks p !! k) as [b|] eqn:Ek; cbn;
      rewrite ?(proj2 (Z.ltb_ge _ _)) by done;
      (split; [|split_and!; try done; exists []; by rewrite app_nil_r]);
      (split_and!; [done|by eapply seen_in_inv|by rewrite table_of_snoc|done|apply Ha]).
    + intros k' Hk'. destruct (decide (k' = k)) as [->|Hne]; [by left|]. right.
      by rewrite lookup_insert_ne in Hk'.
    + auto.
  - split; [|split_and!; try done; exists []; by rewrite app_nil_r].
    split_and!; [done|by eapply seen_in_inv|by rewrite table_of_snoc|done|by apply seen_reply_inv].
Qed.

(** ** Whole calls *)

(** While the peer is there, it has been told of every region registered. *)

Definition covers p : Prop :=
  0 <= ip_sock p → ip_peer_gone p = false →
  export_entry <$> ip_exported p ⊆ table_of (sent_of p).

(** A piece of a call keeps the invariant, and what was said stays said. *)

Definition advances p p' : Prop :=
  linv p' ∧ (covers p → covers p') ∧ sent_of p `prefix_of` sent_of p'
  ∧ seen_of p `prefix_of` seen_of p'.

#[export] Instance advances_trans : Transitive advances.
Proof.
  intros p1 p2 p3 (L2 & C2 & S2 & E2) (L3 & C3 & S3 & E3). split_and!; [done|auto|by etrans..].
Qed.

Lemma advances_refl p : linv p → advances p p.
Proof. intros Hl. by split_and!. Qed.

Lemma advances_same p p' :
  same_link p p' → ip_peer_gone p' = ip_peer_gone p → linv p → advances p p'.
Proof.
  intros Hs Hg Hl. pose proof (linv_same _ _ Hs Hl).
  destruct Hs as (E1 & _ & E3 & _ & _ & E6 & _). unfold advances, covers, sent_of, seen_of.
  by rewrite E1, E3, E6, Hg.
Qed.

Lemma gone_advances p : linv p → advances p (peer_is_gone_locked p).
Proof.
  intros Hl. destruct (peer_is_gone_linv p Hl) as (L & (T1 & T2 & _ & _) & G0 & G1).
  split_and!; [done| |by unfold sent_of; rewrite T1|by unfold seen_of; rewrite T1].
  intros Hc. destruct (ip_peer_gone p) eqn:Eg; [by rewrite G1|].
  intros Hs. specialize (G0 eq_refl). lia.
Qed.

Lemma pump_frames_advances fuel p :
  0 <= ip_sock p → linv p →
  advances p (pump_frames fuel (ip_sock p) p) ∧ ip_sock (pump_frames fuel (ip_sock p) p) = ip_sock p.
Proof.
  revert p. induction fuel as [|fuel IH]; intros p Hs Hl; cbn [pump_frames].
  { split; [by apply advances_refl|done]. }
  destruct (next_frame (ip_inbox p)) as [[[f rest]|]| |] eqn:En.
  - destruct (dispatch_linv f rest p En Hs Hl) as [L1 (D1 & D2 & D3 & D4 & D5 & D6 & D7 & more & D8)].
    destruct (IH (set_inbox rest (dispatch (ip_sock p) f p))) as [A2 S2]; [by rewrite D1|done|].
    rewrite D1 in A2, S2. split; [|done]. etrans; [|exact A2].
    split_and!; [done| |rewrite D8; by apply prefix_app_r|rewrite D2; by apply prefix_app_r].
    unfold covers. by rewrite D1, D4, D6, D7.
  - split; [by apply advances_refl|done].
  - split; [|done]. by apply (advances_same p).
  - split; [|done]. by apply (advances_same p).
Qed.

Lemma pump_reads_u8 w fd : Forall u8 (fst (fst (pump_reads (recv_answers w fd)))).
Proof.
  pose proof (recv_bytes w fd) as Hb. revert Hb. induction (recv_answers w fd) as [|r s IH]; intros Hb; [done|].
  assert (Hs : ∀ b, CtrlGot b ∈ s → Forall u8 b) by (intros b Hin; apply Hb; by right).
  specialize (IH Hs). destruct r as [b| | | |]; cbn [pump_reads]; try done.
  case_bool_decide; [done|]. destruct (pump_reads s) as [[got closed] s']. cbn in *.
  apply Forall_app_2; [|done]. apply Forall_take, Hb. by left.
Qed.

Lemma pump_advances fd p : linv p → advances p (fst (pump fd p)).
Proof.
  intros Hl. unfold pump. destruct (fd <? 0) eqn:Efd; [by apply advances_refl|].
  unfold pump_flush. destruct (flush _ _) as [[[o st] sent] rest] eqn:Ef.
  set (p1 := note_wrote _ _).
  assert (A1 : advances p p1).
  { destruct Hl as (Ho & Hi & Ht & Hr & Hp). split_and!; try done.
    split_and!; try done. by eapply flush_out_inv. }
  case_bool_decide.
  { cbn [fst]. etrans; [exact A1|]. apply gone_advances, A1. }
  assert (Es : ip_sock p1 = ip_sock p) by done. rewrite Es.
  destruct (fd =? ip_sock p) eqn:Eq; cbn [negb]; [|done]. b2p. subst fd.
  unfold pump_read. pose proof (pump_reads_u8 (ip_world p1) (ip_sock p)) as Hb.
  destruct (pump_reads _) as [[got closed] rest']. set (p2 := note_got _ _).
  assert (A2 : advances p p2).
  { etrans; [exact A1|]. destruct A1 as ((Ho & [Hu Hi] & Ht & Hr & Hp) & _).
    split_and!; try done. split_and!; try done.
    split; [by apply Forall_app_2|]. by apply parsed_more. }
  destruct (pump_frames_advances (S (length (ip_inbox p2))) p2) as [A3 S3]; [done|apply A2|].
  change (ip_sock p2) with (ip_sock p) in A3.
  destruct closed; cbn [fst]; (etrans; [exact A2|]); [|done].
  etrans; [exact A3|]. apply gone_advances, A3.
Qed.

(** ** Publishing, withdrawing, sending *)

Lemma not_withdrawn p k : linv p → ip_next_key p <= k → FWithdraw k ∉ sent_of p.
Proof. intros (_ & _ & _ & (_ & _ & Hw & _) & _) Hk Hin. apply Hw in Hin as [? _]. lia. Qed.

(** A frame that says nothing of regions. *)

Lemma send_advances f p p' st :
  send_frame (ip_sock p) f p = (p', st) → linv p →
  may_send f (ip_exported p) (ip_next_key p) (sent_of p) (seen_of p) →
  (covers p → export_entry <$> ip_exported p ⊆ publish_step (table_of (sent_of p)) f
    ∨ ip_sock p < 0 ∨ ip_peer_gone p = true) →
  advances p p'.
Proof.
  intros E Hl Hf Hc. apply send_frame_linv in E as (L & F1 & F2 & F3 & _ & F5 & _ & _ & _ & _ & F10 & _);
    [|done..].
  split_and!; [done| |rewrite F2; destruct (_ && _); [by apply prefix_app_r|done]|by rewrite F3].
  intros Hcp. specialize (Hc Hcp). unfold covers in *. rewrite F1, F5, F10, F2. intros Hs Hg.
  specialize (Hcp Hs Hg). destruct Hc as [Hc|[?|?]]; [|lia|congruence].
  destruct (_ && _); [|done]. by rewrite table_of_snoc.
Qed.

Lemma control_advances t b p p' st :
  send_frame (ip_sock p) (FControl t b) p = (p', st) → frame_wf (FControl t b) → linv p → advances p p'.
Proof.
  intros E Hf Hl. eapply send_advances; [done|done|done|]. cbn. intros Hc.
  destruct (decide (0 <= ip_sock p)) as [Hs|]; [|right; left; lia].
  destruct (ip_peer_gone p) eqn:Eg; [by right; right|]. left. by apply Hc.
Qed.

Lemma send_control_advances p c t b :
  frame_wf (FControl t b) → linv p → advances p (fst (ipc_send_control p c t b)).
Proof.
  intros Hf Hl. unfold ipc_send_control. destruct c; [|by apply advances_refl].
  destruct (ip_peer_gone p); [by apply advances_refl|].
  destruct (send_frame _ _ _) as [p' st] eqn:E. apply control_advances in E; [|done..]. cbn [fst].
  case_bool_decide; [|done]. etrans; [exact E|]. apply gone_advances, E.
Qed.

Lemma broadcast_advances p t b :
  frame_wf (FControl t b) → linv p → advances p (fst (ipc_broadcast_control p t b)).
Proof.
  intros Hf Hl. unfold ipc_broadcast_control. destruct (_ && _); [|by apply advances_refl].
  destruct (send_frame _ _ _) as [p' st] eqn:E. apply control_advances in E; [|done..]. cbn [fst].
  case_bool_decide; [|done]. etrans; [exact E|]. apply gone_advances, E.
Qed.

(** Publishing a region: told, or the peer is given up. *)

Lemma publish_advances k e p p' st :
  send_frame (ip_sock p) (publication k e) p = (p', st) → linv p →
  ip_exported p !! k = Some e → FWithdraw k ∉ sent_of p →
  advances p (if bool_decide (st = Status.kOk) then p' else peer_is_gone_locked p')
  ∧ (0 <= ip_sock p → st = Status.kOk → sent_of p' = sent_of p ++ [publication k e]
       ∧ ip_exported p' = ip_exported p ∧ ip_sock p' = ip_sock p ∧ ip_peer_gone p' = ip_peer_gone p).
Proof.
  intros E Hl Hk Hw. pose proof Hl as (_ & _ & _ & (_ & He & _) & _).
  assert (Hf : may_send (publication k e) (ip_exported p) (ip_next_key p) (sent_of p) (seen_of p)).
  { split; [by apply He|done]. }
  assert (A : advances p p').
  { eapply send_advances; [done|done|done|]. intros Hc.
    destruct (decide (0 <= ip_sock p)) as [Hs|]; [|right; left; lia].
    destruct (ip_peer_gone p) eqn:Eg; [by right; right|]. left. specialize (Hc Hs Eg). cbn.
    apply map_subseteq_spec. intros j x Hj. destruct (decide (j = k)) as [->|Hne].
    - rewrite lookup_fmap, Hk in Hj. injection Hj as <-. apply lookup_insert_eq.
    - rewrite lookup_insert_ne by done. by eapply lookup_weaken. }
  split.
  - case_bool_decide; [done|]. etrans; [exact A|]. apply gone_advances, A.
  - intros Hs ->. apply send_frame_linv in E as (_ & F1 & F2 & _ & _ & F5 & _ & _ & _ & _ & F10 & _); [|done..].
    rewrite F2, (proj2 (Z.leb_le _ _)) by done. by split_and!.
Qed.

Lemma register_advances p a l :
  u64 a → u64 l → ip_next_key p + 1 < 2 ^ 64 → linv p → advances p (fst (ipc_register_region p a l)).
Proof.
  intros Ha Hlen Hn Hl. unfold ipc_register_region. destruct (_ || _); [by apply advances_refl|].
  destruct (export_ipc _ _ _) as [w [st h]] eqn:Ee.
  destruct (bool_decide (st = Status.kOk)) eqn:Est; cbn [negb]; [|by apply (advances_same p)].
  apply bool_decide_eq_true in Est as ->. apply export_wf in Ee.
  set (k := ip_next_key (set_world w p)). set (e := mkExported a l h).
  set (p1 := set_exported _ _). cbn [fst].
  assert (Ek : k = ip_next_key p) by done.
  pose proof Hl as (Ho & Hi & Ht & (Hu & He & Hw & Hr) & Hp).
  assert (Hnone : ip_exported p !! k = None).
  { destruct (ip_exported p !! k) eqn:E; [|done]. apply He in E as [? _]. lia. }
  assert (L1 : linv p1).
  { unfold linv. change (ip_next_key p1) with (wrap64 (ip_next_key p + 1)).
    unfold uw in Hu. rewrite wrapw_id by (unfold uw; lia). split_and!; try done.
    split_and!; [unfold uw; lia| | |done].
    - intros j e' Hj. change (ip_exported p1) with (<[k := e]> (ip_exported p)) in Hj.
      destruct (decide (j = k)) as [->|Hne].
      + rewrite lookup_insert_eq in Hj. injection Hj as <-. split; [lia|]. by split_and!.
      + rewrite lookup_insert_ne in Hj by done. apply He in Hj as [? ?]. split; [lia|done].
    - intros j Hj. apply Hw in Hj as [Hj1 Hj2]. split; [lia|].
      change (ip_exported p1) with (<[k := e]> (ip_exported p)).
      by rewrite lookup_insert_ne by lia. }
  assert (Hnw : FWithdraw k ∉ sent_of p1) by (apply (not_withdrawn p); [done|lia]).
  destruct (ip_sock p1 <? 0) eqn:Es.
  { b2p. split_and!; try done. intros _ Hs. lia. }
  destruct (send_frame (ip_sock p1) (publication k e) p1) as [p2 st2] eqn:E2.
  destruct (publish_advances k e p1 p2 st2) as [(L3 & C3 & S3 & E3) K3]; [done|done|apply lookup_insert_eq|done|].
  split_and!; [done| |exact S3|exact E3]. intros Hc. b2p.
  case_bool_decide as Hst.
  - destruct (K3 Es Hst) as (K4 & K5 & K6 & K7). unfold covers. rewrite K4, K5, K6, K7, table_of_snoc.
    intros Hs Hg. specialize (Hc Hs Hg). cbn. rewrite fmap_insert. by apply insert_mono.
  - destruct (send_frame_linv _ _ _ _ E2 L1) as (L2 & _ & _ & _ & _ & _ & _ & _ & _ & _ & Eg & _).
    { split; [by split_and!|done]. }
    destruct (peer_is_gone_linv p2 L2) as (_ & _ & G0 & G1). intros Hs Hg.
    destruct (ip_peer_gone p2) eqn:Eg2; [|specialize (G0 eq_refl); lia].
    rewrite G1 in Hg by done. congruence.
Qed.

Lemma forget_ack_advances k p : linv p → advances p (set_acks (delete k (ip_acks p)) p).
Proof.
  intros (Ho & Hi & Ht & Hr & [Ha Hm]). split_and!; try done. split_and!; try done.
  split; [done|]. intros j Hj. cbn in Hj. apply lookup_delete_Some in Hj as [_ Hj]. by apply Hm.
Qed.

(** The peer's answer is waited for only once the withdrawal is on its way. *)

Lemma withdraw_advances p k p' st :
  withdraw_begin p k = (p', st) → linv p →
  advances p p'
  ∧ (st = None → FWithdraw k ∈ sent_of p' ∧ ip_acks p' !! k = Some false)
  ∧ (∀ j, j ≠ k → ip_acks p' !! j = ip_acks p !! j)
  ∧ (ip_exported p !! k = None → p' = p).
Proof.
  intros E Hl. unfold withdraw_begin in E.
  destruct (ip_exported p !! k) as [e|] eqn:Ek.
  2:{ apply pair_equal_spec in E as [<- <-]. by split_and!. }
  pose proof Hl as (Ho & Hi & Ht & (Hu & He & Hw & Hr) & (Hp1 & Hp2)).
  set (p1 := set_exported (delete k (ip_exported p)) p) in *.
  assert (A1 : advances p p1).
  { split_and!; try done.
    - split_and!; try done. split_and!; try done.
      + intros j e' Hj. change (ip_exported p1) with (delete k (ip_exported p)) in Hj.
        apply lookup_delete_Some in Hj as [_ Hj]. by apply He.
      + intros j Hj. apply Hw in Hj as [? ?]. split; [done|].
        change (ip_exported p1) with (delete k (ip_exported p)). rewrite lookup_delete_None. by right.
    - intros Hc Hs Hg. etrans; [|by apply Hc]. change (ip_exported p1) with (delete k (ip_exported p)).
      apply map_fmap_mono, delete_subseteq. }
  destruct (ip_sock p1 <? 0) eqn:Es.
  { apply pair_equal_spec in E as [<- <-]. by split_and!. }
  set (p2 := set_acks (<[k := false]> (ip_acks p1)) p1) in *.
  assert (L2 : linv p2).
  { destruct A1 as [(? & ? & ? & ? & ?) _]. split_and!; try done. split; [done|].
    intros j Hj. change (ip_acks p2) with (<[k := false]> (ip_acks p)) in Hj.
    destruct (decide (j = k)) as [->|Hne]; [by rewrite lookup_insert_eq in Hj|].
    rewrite lookup_insert_ne in Hj by done. by apply Hp2. }
  assert (A2 : advances p p2).
  { destruct A1 as (_ & C1 & S1 & N1). by split_and!. }
  destruct (send_frame (ip_sock p2) (FWithdraw k) p2) as [p3 st3] eqn:E3.
  assert (Hf : may_send (FWithdraw k) (ip_exported p2) (ip_next_key p2) (sent_of p2) (seen_of p2)).
  { apply He in Ek as [Hk1 (Hk2 & _)]. split; [done|]. split; [done|]. apply lookup_delete_eq. }
  assert (A3 : advances p2 p3).
  { eapply send_advances; [done|done|done|]. intros Hc.
    destruct (decide (0 <= ip_sock p2)) as [Hs|]; [|right; left; lia].
    destruct (ip_peer_gone p2) eqn:Eg; [by right; right|]. left. specialize (Hc Hs Eg). cbn.
    apply map_subseteq_spec. intros j x Hj. rewrite lookup_delete_ne.
    - by eapply lookup_weaken.
    - intros <-. change (ip_exported p2) with (delete k (ip_exported p)) in Hj.
      by rewrite lookup_fmap, lookup_delete_eq in Hj. }
  apply send_frame_linv in E3 as (_ & F1 & F2 & _ & _ & _ & F6 & _); [|done..].
  assert (Hne : ∀ j, j ≠ k → ip_acks p3 !! j = ip_acks p !! j).
  { intros j Hj. rewrite F6. change (ip_acks p2) with (<[k := false]> (ip_acks p)).
    by rewrite lookup_insert_ne. }
  b2p. case_bool_decide as Hst; apply pair_equal_spec in E as [<- <-]; split_and!; try done.
  - by etrans.
  - intros _. rewrite F2, F6, (proj2 (Z.leb_le _ _)) by done. cbn [andb orb].
    split; [apply elem_of_app; right; by left|]. apply lookup_insert_eq.
  - etrans; [exact A2|]. etrans; [exact A3|]. by apply forget_ack_advances, A3.
  - intros j Hj. cbn. rewrite lookup_delete_ne by done. by apply Hne.
Qed.

(** ** Marks *)

(** The mark a withdrawal waits on is only ever set. *)

Lemma send_frame_acks fd f p : ip_acks (fst (send_frame fd f p)) = ip_acks p.
Proof.
  unfold send_frame. destruct (fd <? 0); [done|]. destruct (fd =? ip_sock p).
  - destruct (post _ _ _) as [[[o st] sent] rest]. unfold note_sent. cbn. by destruct (_ || _).
  - destruct (hs_answers _ _) as [ss rs]. by destruct (send_all _ _) as [[ok sent] ss'].
Qed.

Lemma gone_acks p : ip_acks (peer_is_gone_locked p) = ip_acks p.
Proof.
  unfold peer_is_gone_locked. destruct (ip_peer_gone p); [done|].
  destruct (drop_mappings_fields (set_gone true p)) as (_ & _ & _ & _ & _ & _ & _ & E & _).
  unfold close_sock. destruct (_ <? 0); by rewrite E || (cbn; by rewrite E).
Qed.

Lemma dispatch_marks k fd f p : is_Some (ip_acks p !! k) → is_Some (ip_acks (dispatch fd f p) !! k).
Proof.
  intros Hk. unfold dispatch. destruct f as [t pl|j a l h|j|j|]; try done.
  - rewrite send_frame_acks.
    destruct (forget_import_fields j (note_seen (FWithdraw j) p)) as (_ & _ & _ & _ & _ & _ & _ & -> & _). done.
  - cbn. destruct (ip_acks p !! j) eqn:E; [|done]. cbn.
    destruct (decide (k = j)) as [->|Hne]; [by rewrite lookup_insert_eq|by rewrite lookup_insert_ne].
Qed.

Lemma pump_frames_marks k fuel fd p :
  is_Some (ip_acks p !! k) → is_Some (ip_acks (pump_frames fuel fd p) !! k).
Proof.
  revert p. induction fuel as [|fuel IH]; intros p Hk; cbn [pump_frames]; [done|].
  destruct (next_frame (ip_inbox p)) as [[[f rest]|]| |]; try done.
  apply IH. by apply (dispatch_marks k fd f) in Hk.
Qed.

Lemma pump_marks k fd p : is_Some (ip_acks p !! k) → is_Some (ip_acks (fst (pump fd p)) !! k).
Proof.
  intros Hk. unfold pump. destruct (fd <? 0); [done|].
  unfold pump_flush. destruct (flush _ _) as [[[o st] sent] rest].
  case_bool_decide; [cbn [fst]; by rewrite gone_acks|].
  cbn [note_wrote set_link set_world ip_sock set_ioutbox].
  destruct (negb (fd =? ip_sock p)); [done|]. unfold pump_read.
  destruct (pump_reads _) as [[got closed] rest'].
  destruct closed; cbn [fst]; rewrite ?gone_acks; by apply pump_frames_marks.
Qed.

(** ** Transfers touch only mappings *)

Lemma ensure_mapped_link k p p' r :
  ensure_mapped k p = (p', r) → same_link p p' ∧ ip_peer_gone p' = ip_peer_gone p.
Proof.
  unfold ensure_mapped. intros E. destruct (ip_imported p !! k) as [im|] eqn:Ek; [|by injection E as <- <-].
  destruct (negb _); [by injection E as <- <-|]. destruct (import_ipc _ _) as [w [st mapped]].
  destruct (negb _); [by apply pair_equal_spec in E as [<- <-]|].
  apply pair_equal_spec in E as [<- <-]. split; [|done]. split_and!; try done. cbn.
  rewrite fmap_insert. apply insert_id. by rewrite lookup_fmap, Ek.
Qed.

Lemma ipc_submit_one_link op p p' r :
  ipc_submit_one op p = (p', r) → same_link p p' ∧ ip_peer_gone p' = ip_peer_gone p.
Proof.
  unfold ipc_submit_one. destruct (ensure_mapped _ p) as [p1 r1] eqn:E1.
  apply ensure_mapped_link in E1. intros E.
  destruct r1 as [st|im]; [by apply pair_equal_spec in E as [<- <-]|].
  destruct (region_offset op im); [|by apply pair_equal_spec in E as [<- <-]].
  destruct (_ =? _); [by apply pair_equal_spec in E as [<- <-]|].
  destruct (copy_nowait _ _ _ _) as [w st]. by apply pair_equal_spec in E as [<- <-].
Qed.

Lemma submit_advances ops p : linv p → advances p (fst (submit_locked ops p)).
Proof.
  intros Hl. unfold submit_locked. destruct (_ || _); [by apply advances_refl|].
  assert (Hloop : ∀ ops p p' evs st, ipc_submit_loop ops p = (p', evs, st) → linv p → advances p p').
  { clear. intros ops. induction ops as [|op ops IH]; intros p p' evs st E Hl; cbn [ipc_submit_loop] in E.
    - apply pair_equal_spec in E as [E _]. apply pair_equal_spec in E as [<- _]. by apply advances_refl.
    - destruct (ipc_submit_one op p) as [p1 r] eqn:E1. apply ipc_submit_one_link in E1 as [S1 G1].
      pose proof (advances_same _ _ S1 G1 Hl) as A1. destruct r as [st1|ev].
      + apply pair_equal_spec in E as [E _]. by apply pair_equal_spec in E as [<- _].
      + destruct (ipc_submit_loop ops p1) as [[p2 evs2] st2] eqn:E2.
        apply pair_equal_spec in E as [E _]. apply pair_equal_spec in E as [<- _].
        etrans; [exact A1|]. eapply IH; [done|apply A1]. }
  destruct (ipc_submit_loop ops p) as [[p1 evs] st] eqn:E1. apply Hloop in E1; [|done].
  unfold settle_batch. case_bool_decide; [done|]. destruct (dev_settle _) as [w ss].
  case_bool_decide; cbn [fst]; (etrans; [exact E1|]); apply (advances_same p1); done || apply E1.
Qed.
End Session.
