(* ===== verification/IpcSafe.v ===== *)
(** * What the same-host transport promises.

    Over every run: copies stay inside mappings still held.  Over a connection:
    each end's table is what the other published, and a region whose withdrawal
    was answered is held by nobody.  And two ways in which a connection does less
    than it says. *)

From stdpp Require Import base list gmap strings numbers sorting relations.
From S2P Require Import Prelude Float64 Types Wire SocketIo Outbox Provider RdmaVerbs IpcWire.
From S2P Require Import IpcProvider IpcLaws IpcLink.

Section Safe.
Context {W : Type} `{Sockets W} `{IpcDevice W} `{IpcHost W} `{!LinkLaws W}.
Implicit Types p q : IpcProvider W.

(** ** Sessions *)

(** A provider that has not been connected. *)

Definition unconnected p : Prop :=
  ip_inbox p = [] ∧ ip_imported p = ∅ ∧ ip_acks p = ∅ ∧ u64 (ip_next_key p)
  ∧ ∀ k e, ip_exported p !! k = Some e → k < ip_next_key p ∧ frame_wf (publication k e).

(** One atomic piece of a call on a connected provider.  [hold] is a key whose
    withdrawal some thread is waiting on: nobody else erases its mark. *)

Inductive session_step (hold : option Z) : relation (IpcProvider W) :=
| se_world p w : session_step hold p (set_world w p)
| se_pump fd p : session_step hold p (fst (pump fd p))
| se_register a l p : u64 a → u64 l → ip_next_key p + 1 < 2 ^ 64 →
    session_step hold p (fst (ipc_register_region p a l))
| se_withdraw k p : session_step hold p (fst (withdraw_begin p k))
| se_withdrawn k p : hold ≠ Some k → session_step hold p (set_acks (delete k (ip_acks p)) p)
| se_submit ops p : session_step hold p (fst (submit_locked ops p))
| se_poll n p : session_step hold p (fst (ipc_poll p n))
| se_control n p : session_step hold p (set_control (drop n (ip_control p)) p)
| se_send c t b p : frame_wf (FControl t b) → session_step hold p (fst (ipc_send_control p c t b))
| se_broadcast t b p : frame_wf (FControl t b) →
    session_step hold p (fst (ipc_broadcast_control p t b))
| se_disconnect c p : session_step hold p (fst (ipc_disconnect p c)).

Definition session p : Prop :=
  ∃ q fd peer, unconnected q ∧ 0 <= fd ∧ rtc (session_step None) (open_session fd peer q) p.

Lemma publish_loop_spec l p :
  linv p → 0 <= ip_sock p →
  (∀ k e, (k, e) ∈ l → ip_exported p !! k = Some e ∧ FWithdraw k ∉ sent_of p) →
  (∀ k e, ip_exported p !! k = Some e →
     (k, e) ∈ l ∨ table_of (sent_of p) !! k = Some (export_entry e)) →
  linv (publish_loop (ip_sock p) l p) ∧ covers (publish_loop (ip_sock p) l p).
Proof.
  revert p. induction l as [|[k e] l IH]; intros p Hl Hs Hin Hall; cbn [publish_loop].
  - split; [done|]. intros _ _. apply map_subseteq_spec. intros k x Hk.
    rewrite lookup_fmap in Hk. destruct (ip_exported p !! k) as [e|] eqn:Ek; [|done].
    injection Hk as <-. by destruct (Hall k e Ek) as [?%not_elem_of_nil|].
  - destruct (send_frame (ip_sock p) (publication k e) p) as [p' st] eqn:E.
    destruct (Hin k e) as [Hk Hw]; [by left|].
    destruct (publish_advances k e p p' st) as [A K]; [done|done|done|done|].
    case_bool_decide as Hst.
    + destruct (K Hs Hst) as (K1 & K2 & K3 & K4). rewrite <- K3. apply IH.
      * apply A.
      * by rewrite K3.
      * intros k' e' Hin'. rewrite K1, K2. destruct (Hin k' e') as [? ?]; [by right|]. split; [done|].
        intros [?|?%list_elem_of_singleton]%elem_of_app; done.
      * intros k' e'. rewrite K1, K2, table_of_snoc. intros Hk'.
        destruct (Hall k' e' Hk') as [[[= -> ->]|?]%elem_of_cons|Ht]; [|by left|].
        -- right. apply lookup_insert_eq.
        -- right. cbn. destruct (decide (k' = k)) as [->|Hne].
           ++ rewrite Hk in Hk'. injection Hk' as ->. apply lookup_insert_eq.
           ++ by rewrite lookup_insert_ne.
    + split; [apply A|]. intros Hs' Hg'.
      assert (L' : linv p').
      { apply send_frame_linv in E as (? & _); [done|done|]. split; [|done].
        by apply Hl in Hk as [_ ?]. }
      destruct (peer_is_gone_linv p' L') as (_ & _ & G0 & G1).
      destruct (ip_peer_gone p') eqn:Eg; [rewrite G1 in Hg' by done; congruence|].
      specialize (G0 eq_refl). lia.
Qed.

Lemma open_session_ok q fd peer :
  unconnected q → 0 <= fd → linv (open_session fd peer q) ∧ covers (open_session fd peer q).
Proof.
  intros (Ei & Em & Ea & Hn & He) Hfd. unfold open_session, publish_all.
  set (p1 := set_conn _ _). change fd with (ip_sock p1) at 1 2.
  change (ip_exported q) with (ip_exported p1).
  apply publish_loop_spec; [|done|..].
  - unfold linv. change (ip_sock p1) with fd. change (ip_inbox p1) with (ip_inbox q).
    change (ip_imported p1) with (ip_imported q). change (ip_acks p1) with (ip_acks q).
    rewrite Ei, Em, Ea. unfold out_inv, in_inv, table_inv, order_inv, reply_inv.
    rewrite (proj2 (Z.ltb_ge _ _)) by done. split_and!; try done.
    + constructor.
    + by intros k ?%not_elem_of_nil.
    + apply no_republish_nil.
    + by intros k ?%not_elem_of_nil.
  - intros k e Hin. split; [by apply in_key_order_elem|]. apply not_elem_of_nil.
  - intros k e Hk. left. by apply in_key_order_elem.
Qed.

Lemma session_step_advances hold p p' : session_step hold p p' → linv p → advances p p'.
Proof.
  destruct 1 as [p w|fd p|a l p Ha Hl Hn|k p|k p Hk|ops p|n p|n p|c t b p Hf|t b p Hf|c p]; intros Hp.
  - by apply (advances_same p).
  - by apply pump_advances.
  - by apply register_advances.
  - destruct (withdraw_begin p k) as [p' st] eqn:E. by eapply withdraw_advances.
  - by apply forget_ack_advances.
  - by apply submit_advances.
  - by apply (advances_same p).
  - by apply (advances_same p).
  - by apply send_control_advances.
  - by apply broadcast_advances.
  - destruct (emptied_linv p Hp) as [L S]. cbn [ipc_disconnect fst].
    destruct (drop_mappings_fields p) as (_ & _ & E3 & _).
    assert (El : ip_link (close_sock (drop_mappings p)) = ip_link p).
    { unfold close_sock. by destruct (_ <? 0). }
    split_and!; [done| |unfold sent_of; cbn; by rewrite El|unfold seen_of; cbn; by rewrite El].
    intros _ Hs. cbn in Hs. lia.
Qed.

Lemma session_steps_advance hold p p' : rtc (session_step hold) p p' → linv p → advances p p'.
Proof.
  induction 1 as [p|p p1 p2 Hs _ IH]; intros Hp; [by apply advances_refl|].
  apply session_step_advances in Hs; [|done]. etrans; [exact Hs|]. apply IH, Hs.
Qed.

Lemma session_ok p : session p → linv p ∧ covers p.
Proof.
  intros (q & fd & peer & Hq & Hfd & Hr). destruct (open_session_ok q fd peer Hq Hfd) as [L C].
  apply session_steps_advance in Hr as (L' & C' & _); auto.
Qed.

(** ** Two ends *)

(** The frames an end has acted on are the first of those the other sent. *)

Lemma seen_is_sent p q :
  linv p → linv q → got_of q `prefix_of` wire_of p →
  seen_of q = take (length (seen_of q)) (sent_of p)
  ∧ ∃ future, got_of q ++ future = concat (encode_frame <$> sent_of p)
    ∧ ip_inbox q ++ future = concat (encode_frame <$> drop (length (seen_of q)) (sent_of p)).
Proof.
  intros ((Fw & Pw & _) & _) (_ & [_ Hp] & _) Hg. pose proof (transitivity Hg Pw) as [future E].
  destruct (parsed_stream _ _ _ future _ Fw (eq_sym E) Hp) as [E1 E2]. split; [done|].
  exists future. by rewrite E.
Qed.

Lemma table_absent p k : linv p → table_of (seen_of p) !! k = None → ip_imported p !! k = None.
Proof.
  intros (_ & _ & Ht & _) Hk. unfold table_inv in Ht. destruct (ip_sock p <? 0).
  - rewrite Ht. apply lookup_empty.
  - rewrite <- Ht, lookup_fmap in Hk. by apply fmap_None in Hk.
Qed.

(** An acknowledgement that has come means the other end has let go. *)

Lemma acknowledged_absent p q k :
  linv p → linv q → got_of p `prefix_of` wire_of q → got_of q `prefix_of` wire_of p →
  FWithdrawAck k ∈ seen_of p → ip_imported q !! k = None.
Proof.
  intros Lp Lq Hpq Hqp Hk. destruct (seen_is_sent q p Lq Lp Hpq) as [Ep _].
  destruct (seen_is_sent p q Lp Lq Hqp) as [Eq _].
  assert (Hq : FWithdrawAck k ∈ sent_of q).
  { rewrite Ep in Hk. by apply elem_of_take in Hk as (i & Hi & _); eapply list_elem_of_lookup_2. }
  apply Lq in Hq. apply table_absent; [done|]. rewrite Eq. apply withdrawn_absent.
  - apply no_republish_take. apply Lp.
  - by rewrite <- Eq.
Qed.

(** The mark a thread waits on stays until it is answered. *)

Lemma register_acks p a l : ip_acks (fst (ipc_register_region p a l)) = ip_acks p.
Proof.
  unfold ipc_register_region. destruct (_ || _); [done|].
  destruct (export_ipc _ _ _) as [w [st h]]. destruct (negb _); [done|]. cbn -[send_frame].
  destruct (ip_sock p <? 0); [done|]. destruct (send_frame _ _ _) as [p' st'] eqn:E.
  apply (f_equal (fun x => ip_acks (fst x))) in E. rewrite send_frame_acks in E. cbn in E.
  case_bool_decide; by rewrite ?gone_acks, <- E.
Qed.

Lemma send_control_acks p c t b : ip_acks (fst (ipc_send_control p c t b)) = ip_acks p.
Proof.
  unfold ipc_send_control. destruct c; [|done]. destruct (ip_peer_gone p); [done|].
  pose proof (send_frame_acks (ip_sock p) (FControl t b) p) as E.
  destruct (send_frame _ _ _) as [p' st]. cbn in *. by case_bool_decide; rewrite ?gone_acks.
Qed.

Lemma broadcast_acks p t b : ip_acks (fst (ipc_broadcast_control p t b)) = ip_acks p.
Proof.
  unfold ipc_broadcast_control. destruct (_ && _); [|done].
  pose proof (send_frame_acks (ip_sock p) (FControl t b) p) as E.
  destruct (send_frame _ _ _) as [p' st]. cbn in *. by case_bool_decide; rewrite ?gone_acks.
Qed.

Lemma submit_acks ops p : ip_acks (fst (submit_locked ops p)) = ip_acks p.
Proof.
  unfold submit_locked. destruct (_ || _); [done|].
  assert (Hloop : ∀ ops p p' evs st, ipc_submit_loop ops p = (p', evs, st) → ip_acks p' = ip_acks p).
  { clear. intros ops. induction ops as [|op ops IH]; intros p p' evs st E; cbn [ipc_submit_loop] in E.
    - apply pair_equal_spec in E as [E _]. by apply pair_equal_spec in E as [<- _].
    - destruct (ipc_submit_one op p) as [p1 r] eqn:E1.
      apply ipc_submit_one_link in E1 as [(_ & _ & _ & _ & _ & _ & _ & E1) _]. destruct r as [st1|ev].
      + apply pair_equal_spec in E as [E _]. by apply pair_equal_spec in E as [<- _].
      + destruct (ipc_submit_loop ops p1) as [[p2 evs2] st2] eqn:E2.
        apply pair_equal_spec in E as [E _]. apply pair_equal_spec in E as [<- _].
        rewrite <- E1. by eapply IH. }
  destruct (ipc_submit_loop ops p) as [[p1 evs] st] eqn:E1. apply Hloop in E1.
  unfold settle_batch. case_bool_decide; [done|]. destruct (dev_settle _) as [w ss].
  by case_bool_decide.
Qed.

Lemma session_marks k p p' :
  session_step (Some k) p p' → linv p → FWithdraw k ∈ sent_of p →
  is_Some (ip_acks p !! k) → is_Some (ip_acks p' !! k).
Proof.
  destruct 1 as [p w|fd p|a l p Ha Hl Hn|j p|j p Hj|ops p|n p|n p|c t b p Hf|t b p Hf|c p];
    intros Hp Hw Hk; try done.
  - by apply pump_marks.
  - by rewrite register_acks.
  - destruct (withdraw_begin p j) as [p' st] eqn:E.
    apply withdraw_advances in E as (_ & _ & Hother & Hnone); [|done]. cbn [fst].
    destruct (decide (k = j)) as [<-|Hne]; [|by rewrite Hother].
    rewrite Hnone; [done|]. by apply Hp.
  - cbn. rewrite lookup_delete_ne; [done|]. congruence.
  - by rewrite submit_acks.
  - by rewrite send_control_acks.
  - by rewrite broadcast_acks.
  - cbn. destruct (drop_mappings_fields p) as (_ & _ & _ & _ & _ & _ & _ & E & _).
    unfold close_sock. destruct (_ <? 0); cbn; by rewrite E.
Qed.

Lemma session_steps_mark k p p' :
  rtc (session_step (Some k)) p p' → linv p → FWithdraw k ∈ sent_of p →
  is_Some (ip_acks p !! k) → is_Some (ip_acks p' !! k).
Proof.
  induction 1 as [p|p p1 p2 Hs _ IH]; intros Hp Hw Hk; [done|].
  pose proof (session_step_advances _ _ _ Hs Hp) as (L1 & _ & S1 & _).
  apply IH; [done| |by eapply session_marks]. by eapply elem_of_prefix.
Qed.

(** The turn that ends the wait saw the acknowledgement. *)

Lemma answered_turn k p p' st :
  withdraw_turn p k = (p', Some st) → linv p → is_Some (ip_acks p !! k) →
  st = Status.kOk ∧ FWithdrawAck k ∈ seen_of p' ∧ linv p'.
Proof.
  unfold withdraw_turn. intros E Hp Hk. apply (pump_marks k (ip_sock p)) in Hk.
  pose proof (pump_advances (ip_sock p) p Hp) as (L1 & _).
  set (p1 := fst (pump (ip_sock p) p)) in *. cbn [ip_acks set_world] in E.
  destruct Hk as [[] Ek]; rewrite Ek in E; [|done].
  apply pair_equal_spec in E as [<- [= <-]]. split; [done|]. split.
  - by apply L1 in Ek.
  - assert (L2 : linv (set_world (host_sleep (ip_world p1) kMillisecond) p1))
      by (by eapply linv_same; [|exact L1]).
    exact (proj1 (forget_ack_advances k _ L2)).
Qed.

(** [deregister_region] is such a wait. *)

Lemma deregister_waits p k p1 p' :
  withdraw_begin p k = (p1, None) → ipc_deregister_region p k = (p', Status.kOk) →
  ∃ p2, rtc (session_step (Some k)) p1 p2 ∧ withdraw_turn p2 k = (p', Some Status.kOk).
Proof.
  intros Eb. unfold ipc_deregister_region. rewrite Eb. destruct (host_clock _) as [w now].
  assert (Hw : ∀ turns deadline p, withdraw_wait turns deadline p k = (p', Status.kOk) →
    ∃ p2, rtc (session_step (Some k)) p p2 ∧ withdraw_turn p2 k = (p', Some Status.kOk)).
  { clear. intros turns. induction turns as [|turns IH]; intros deadline p E; cbn [withdraw_wait] in E.
    { by apply pair_equal_spec in E as [_ ?]. }
    destruct (host_clock _) as [w now]. destruct (_ <=? _); [by apply pair_equal_spec in E as [_ ?]|].
    destruct (withdraw_turn (set_world w p) k) as [p1 [st|]] eqn:Et.
    - apply pair_equal_spec in E as [-> ->]. exists (set_world w p). split; [|done].
      apply rtc_once. constructor.
    - apply IH in E as (p2 & Hr & E2). exists p2. split; [|done].
      eapply rtc_l; [apply (se_world _ _ w)|].
      unfold withdraw_turn in Et. eapply rtc_l; [apply (se_pump _ (ip_sock p))|].
      set (q := fst (pump (ip_sock (set_world w p)) (set_world w p))) in *.
      eapply rtc_l; [apply (se_world _ _ (host_sleep (ip_world q) kMillisecond))|].
      destruct (_ !! _) as [[]|]; apply pair_equal_spec in Et as [E' ?]; try done. by rewrite <- E' in Hr. }
  intros E. apply Hw in E as (p2 & Hr & E2). exists p2. split; [|done].
  eapply rtc_l; [apply (se_world _ _ w)|]. done.
Qed.

(** ** A peer once lost *)

Lemma dispatch_gone fd f p : ip_peer_gone (dispatch fd f p) = ip_peer_gone p.
Proof.
  unfold dispatch. destruct f as [t pl|k a l h|k|k|]; try done.
  - destruct (send_frame_maps fd (FWithdrawAck k) (forget_import k (note_seen (FWithdraw k) p)))
      as (_ & _ & -> & _).
    destruct (forget_import_fields k (note_seen (FWithdraw k) p)) as (_ & _ & _ & _ & _ & _ & _ & _ & ->).
    done.
  - cbn. by destruct (ip_acks p !! k).
Qed.

Lemma gone_stays_gone p : ip_peer_gone p = true → ip_peer_gone (peer_is_gone_locked p) = true.
Proof. intros Hg. unfold peer_is_gone_locked. by rewrite Hg. Qed.

Lemma pump_gone fd p : ip_peer_gone p = true → ip_peer_gone (fst (pump fd p)) = true.
Proof.
  intros Hg. unfold pump. destruct (fd <? 0); [done|].
  unfold pump_flush. destruct (flush _ _) as [[[o st] sent] rest].
  case_bool_decide; [by apply gone_stays_gone|].
  cbn [note_wrote set_link set_world ip_sock set_ioutbox].
  destruct (negb (fd =? ip_sock p)); [done|]. unfold pump_read.
  destruct (pump_reads _) as [[got closed] rest'].
  assert (Hf : ∀ fuel p, ip_peer_gone p = true → ip_peer_gone (pump_frames fuel fd p) = true).
  { clear. intros fuel. induction fuel as [|fuel IH]; intros p Hg; cbn [pump_frames]; [done|].
    destruct (next_frame (ip_inbox p)) as [[[f rest]|]| |]; try done.
    apply IH. cbn. by rewrite dispatch_gone. }
  destruct closed; cbn [fst]; [apply gone_stays_gone|]; by apply Hf.
Qed.

Lemma publication_wait_gone turns deadline fd ops p :
  ip_peer_gone p = true → ip_peer_gone (publication_wait turns deadline fd ops p) = true.
Proof.
  intros Hg. destruct turns as [|turns]; cbn [publication_wait]; [done|].
  rewrite (pump_gone fd p Hg). cbn [orb]. by apply pump_gone.
Qed.

Lemma publish_loop_gone fd l p :
  ip_peer_gone p = true → ip_peer_gone (publish_loop fd l p) = true.
Proof.
  revert p. induction l as [|[k e] l IH]; intros p Hg; cbn [publish_loop]; [done|].
  destruct (send_frame_maps fd (publication k e) p) as (_ & _ & Eg & _).
  destruct (send_frame fd (publication k e) p) as [p' st]. cbn in Eg.
  case_bool_decide; [apply IH|apply gone_stays_gone]; by rewrite Eg.
Qed.

(** ** Properties *)


(** C30: An end's table of its peer's regions is what the peer published and
    withdrew, as far as it has been read: the same keys, each with the address,
    length and handle it was registered with.  And when all that the peer sent
    has been read, every region the peer has registered is there. *)
Theorem ipc_table_mirrors_peer p q :
  session p → session q → got_of q `prefix_of` wire_of p →
  ∃ n, seen_of q = take n (sent_of p)
  ∧ (0 <= ip_sock q → import_entry <$> ip_imported q = table_of (take n (sent_of p)))
  ∧ (0 <= ip_sock q → peer_alive p = true → got_of q = concat (encode_frame <$> sent_of p) →
     next_frame (ip_inbox q) = Done None →
     ∀ k e, ip_exported p !! k = Some e →
       ∃ im, ip_imported q !! k = Some im ∧ import_entry im = export_entry e).
Proof.
  intros [Lp Cp]%session_ok [Lq _]%session_ok Hg.
  destruct (seen_is_sent p q Lp Lq Hg) as (Es & future & Ef & Ei).
  exists (length (seen_of q)). pose proof Lq as (_ & _ & Ht & _).
  assert (Htab : 0 <= ip_sock q → import_entry <$> ip_imported q = table_of (seen_of q)).
  { intros Hs. unfold table_inv in Ht. by rewrite (proj2 (Z.ltb_ge _ _)) in Ht. }
  split_and!; [done|by rewrite <- Es|].
  intros Hs Ha Hall Hnone k e Hk.
  assert (Hsub : export_entry <$> ip_exported p ⊆ table_of (seen_of q)).
  { assert (Hlen : seen_of q = sent_of p).
    { rewrite Es. apply take_ge. rewrite <- (app_nil_r (concat _)), <- Hall in Ef.
      apply app_inv_head in Ef as ->. rewrite app_nil_r in Ei.
      destruct (next_frame_stream (ip_inbox q) [] (drop (length (seen_of q)) (sent_of p))) as
        [[_ Hh]|(f & fs & rest & _ & E' & _)]; [apply Forall_drop, Lp|by rewrite app_nil_r| |congruence].
      destruct (drop (length (seen_of q)) (sent_of p)) as [|f fs] eqn:Ed.
      - apply (f_equal length) in Ed. rewrite length_drop in Ed. cbn in Ed. lia.
      - specialize (Hh f eq_refl). rewrite Ei in Hh. cbn in Hh. rewrite length_app in Hh. lia. }
    rewrite Hlen. unfold peer_alive in Ha. b2p. by apply Cp. }
  rewrite <- Htab in Hsub by done.
  assert (Hq : (import_entry <$> ip_imported q) !! k = Some (export_entry e)).
  { eapply lookup_weaken; [|exact Hsub]. by rewrite lookup_fmap, Hk. }
  rewrite lookup_fmap in Hq. apply fmap_Some in Hq as (im & Him & E). by exists im.
Qed.


(** C32: A provider that has lost a peer never has another.  Dialling again can
    succeed, handshake and all, and is reported as success; the connection it
    hands out is not alive, and every submit on it is refused. *)
Theorem redial_stays_dead p m p' c :
  ip_peer_gone p = true → ipc_connect p m = (p', (Status.kOk, c)) →
  alive p' c = false
  ∧ ∀ ops, snd (submit p' c ops) = mkSubmitResult 0 Status.kPeerDisconnected 0.
Proof.
  intros Hg E.
  assert (Hg' : ip_peer_gone p' = true).
  { unfold ipc_connect in E. destruct (parse_ipc_metadata m) as [name|st|]; [|by injection E as <- _..].
    destruct (dial_abstract _ _) as [w fd]. destruct (fd <? 0); [by injection E as <- _|].
    unfold attach, shake_hands in E. destruct (hs_answers _ _) as [ss rs].
    destruct (io_exec _ _ _ _) as [[[r sent] got] rest]. destruct r as [peer|st|];
      apply pair_equal_spec in E as [<- _]; [|done..]. by apply publish_loop_gone. }
  split; [cbn; unfold peer_alive; by rewrite Hg'|].
  intros ops. cbn [submit ipc_provider]. unfold ipc_submit. destruct (host_clock _) as [w now].
  unfold submit_locked. by rewrite publication_wait_gone.
Qed.

End Safe.
