(* ===== verification/IpcSample.v ===== *)
(** * Runs of the same-host transport over a simulated host.

    [Host] is a host and a device in memory: what each socket has to read, how
    much it takes, and mappings placed where the handle's offset says.  The
    properties of [IpcSafe] are applied to runs over it, and it shows four cases
    in which the transport does other than it means to. *)

From stdpp Require Import base list gmap strings numbers sorting relations.
From S2P Require Import Prelude Float64 Types Wire SocketIo Outbox Provider RdmaVerbs IpcWire.
From S2P Require Import IpcProvider IpcLaws IpcLink IpcSafe.

Record Host : Type := mkHost {
  h_rx : gmap Z (list Z);
  h_room : nat;
  h_hello : list Z;
  h_next_fd : Z;
  h_now : Z
}.

Definition h_tick (n : Z) (w : Host) : Host :=
  mkHost (h_rx w) (h_room w) (h_hello w) (h_next_fd w) (h_now w + n).

(** [bytes] have arrived on [fd]. *)

Definition deliver (fd : Z) (bytes : list Z) (w : Host) : Host :=
  mkHost (<[fd := bytes]> (h_rx w)) (h_room w) (h_hello w) (h_next_fd w) (h_now w).

Definition with_room (n : nat) (w : Host) : Host :=
  mkHost (h_rx w) n (h_hello w) (h_next_fd w) (h_now w).

Definition as_bytes (l : list Z) : list Z := (fun x => x mod 256) <$> l.

Lemma as_bytes_u8 l : Forall u8 (as_bytes l).
Proof. apply list.Forall_fmap, Forall_true. intros y. apply Z.mod_pos_bound. lia. Qed.

Definition h_read (w : Host) (fd : Z) : list CtrlRecv :=
  match h_rx w !! fd with
  | Some (b :: bytes) => [CtrlGot (as_bytes (b :: bytes)); CtrlEagain]
  | _ => [CtrlEagain]
  end.

#[export] Instance host_sockets : Sockets Host := {
  dial w _ _ := (w, inl Status.kUnsupported);
  close_fd w _ := w;
  hs_answers w _ := ([HsTook 4096], [HsGot (h_hello w)]);
  hs_after w _ _ _ := w;
  send_answers w _ := replicate 8 (match h_room w with O => Eagain | n => Room n end);
  wrote w _ _ _ := w;
  recv_answers := h_read;
  read_on w fd _ := deliver fd [] w
}.

#[export] Instance host_device : IpcDevice Host := {
  export_ipc w a _ := (w, (Status.kOk, mkIpcHandle [7; 7] (a mod 2 ^ 32) 65536));
  import_ipc w h := (w, (Status.kOk, 2 ^ 40 + ih_offset h));
  close_ipc w _ := (w, Status.kOk);
  copy_nowait w _ _ _ := (w, Status.kOk);
  dev_settle w := (w, Status.kOk)
}.

#[export] Instance host_host : IpcHost Host := {
  host_clock w := (h_tick 1 w, h_now w);
  host_sleep w n := h_tick n w;
  host_sequence w := (w, 0);
  host_bind w _ := (w, 3);
  host_dial w _ :=
    (mkHost (h_rx w) (h_room w) (h_hello w) (h_next_fd w + 1) (h_now w), h_next_fd w);
  host_readable w _ := (w, false);
  host_accept w _ := (w, -1);
  recv_timed_out _ _ := false
}.

#[export] Instance host_laws : LinkLaws Host.
Proof.
  split.
  - intros w fd b Hb. cbn in Hb. unfold h_read in Hb. destruct (h_rx w !! fd) as [[|x l]|].
    + by apply list_elem_of_singleton in Hb.
    + apply elem_of_cons in Hb as [Hb|Hb]; [|by apply list_elem_of_singleton in Hb].
      assert (b = as_bytes (x :: l)) as -> by congruence. apply as_bytes_u8.
    + by apply list_elem_of_singleton in Hb.
  - intros w a l w' h E. cbn in E. injection E as <- <-. split_and!; cbn; unfold uw; try lia.
    pose proof (Z.mod_pos_bound a (2 ^ 32)). lia.
Qed.

Module SampleIpc.

Definition here : Identity := mkIdentity 1 10 100.
Definition there : Identity := mkIdentity 1 20 200.

(** A host whose sockets take everything and answer a handshake as [there]. *)

Definition host (room : nat) : Host := mkHost ∅ room (ipc_hello there) 5 0.

Definition fresh (room : nat) (mine : Identity) : IpcProvider Host :=
  match ipc_create mine "a"%string (host room) with
  | (_, inr p) => p
  | (_, inl _) => mkIpc (host room) mine "" 0 no_identity (-1) [] false no_provider_stats [] [] ∅ ∅ ∅ 1
      None 0 outbox_init 0 false [] new_link
  end.

(** An owner registers a region and is connected to a user of it. *)

Definition registered : IpcProvider Host := fst (ipc_register_region (fresh 4096 here) 4096 1000).
Definition owner0 : IpcProvider Host := open_session 5 there registered.
Definition user0 : IpcProvider Host := open_session 6 here (fresh 4096 there).

(** What one end wrote reaches the other, which reads it. *)

Definition hear (bytes : list Z) (p : IpcProvider Host) : IpcProvider Host :=
  fst (pump (ip_sock p) (set_world (deliver (ip_sock p) bytes (ip_world p)) p)).

Definition op : SubOp := mkSubOp false 0 SubOpKind.kWrite 9 0 70000 0 4100 1 16.

Definition user1 : IpcProvider Host := hear (wire_of owner0) user0.
Definition user2 : IpcProvider Host := fst (submit_locked [op] user1).

Example user2_mapped : im_mapped <$> ip_imported user2 !! 1 = Some (2 ^ 40 + 4096).
Proof. vm_compute. reflexivity. Qed.

(** The region is withdrawn, the user lets go and says so. *)

Definition owner1 : IpcProvider Host := fst (withdraw_begin owner0 1).
Definition user3 : IpcProvider Host := hear (drop (length (wire_of owner0)) (wire_of owner1)) user2.
Definition owner2 : IpcProvider Host :=
  set_world (deliver 5 (wire_of user3) (ip_world owner1)) owner1.
Definition owner3 : IpcProvider Host := fst (withdraw_turn owner2 1).

Example owner3_answered : snd (withdraw_turn owner2 1) = Some Status.kOk.
Proof. vm_compute. reflexivity. Qed.

End SampleIpc.

Module SampleIpcFacts.
Import SampleIpc.

Lemma hear_steps bytes p : rtc (session_step None) p (hear bytes p).
Proof.
  eapply rtc_l; [apply (se_world _ p (deliver (ip_sock p) bytes (ip_world p)))|].
  apply rtc_once, se_pump.
Qed.

Lemma fresh_created n mine : ipc_create mine "a" (host n) = (host n, inr (fresh n mine)).
Proof. done. Qed.

Lemma fresh_unconnected n mine : unconnected (fresh n mine).
Proof. split_and!; try done. Qed.

Lemma registered_unconnected : unconnected registered.
Proof.
  assert (E : ip_exported registered = {[1 := mkExported 4096 1000 (mkIpcHandle [7; 7] 4096 65536)]})
    by (vm_compute; reflexivity).
  assert (N : ip_next_key registered = 2) by (vm_compute; reflexivity).
  unfold unconnected. rewrite E, N. split; [reflexivity|]. split; [reflexivity|].
  split; [reflexivity|]. split; [unfold uw; lia|].
  intros k e Hk. apply lookup_singleton_Some in Hk as [<- <-]. split; [lia|].
  cbn [publication frame_wf ex_addr ex_length ex_handle]. unfold handle_wf, uw.
  cbn [ih_offset ih_allocation_bytes ih_bytes length]. lia.
Qed.

Lemma owner0_session : session owner0.
Proof. exists registered, 5, there. split_and!; [apply registered_unconnected|lia|done]. Qed.

Lemma user0_session : session user0.
Proof. exists (fresh 4096 there), 6, here. split_and!; [apply fresh_unconnected|lia|done]. Qed.

Lemma session_rtc (p p' : IpcProvider Host) : session p → rtc (session_step None) p p' → session p'.
Proof. intros (q & fd & peer & Hq & Hfd & Hr) Hs. exists q, fd, peer. split_and!; [done|done|by etrans]. Qed.

Lemma user1_session : session user1.
Proof. eapply session_rtc; [apply user0_session|apply hear_steps]. Qed.

Lemma user3_session : session user3.
Proof.
  apply session_rtc with user1; [apply user1_session|].
  transitivity user2; [apply rtc_once; unfold user2; apply se_submit|].
  unfold user3. apply hear_steps.
Qed.

(** A provider that dials, hears of a region and copies into it. *)

Definition dialled : IpcProvider Host := fst (attach 6 (fresh 4096 here)).
Definition copied : IpcProvider Host := fst (submit_locked [op] (hear (wire_of owner0) dialled)).

Lemma hear_pieces bytes p : rtc ipc_step p (hear bytes p).
Proof.
  eapply rtc_l; [apply (is_world p (deliver (ip_sock p) bytes (ip_world p)))|].
  apply rtc_once, is_pump.
Qed.

Lemma copied_steps : rtc ipc_step (fresh 4096 here) copied.
Proof.
  transitivity dialled; [apply rtc_once; unfold dialled; apply is_attach; lia|].
  transitivity (hear (wire_of owner0) dialled); [apply hear_pieces|].
  apply rtc_once. unfold copied. apply is_submit.
Qed.

End SampleIpcFacts.

Import SampleIpc SampleIpcFacts.


Lemma ipc_table_mirrors_peer_witness :
  ∃ im, ip_imported user1 !! 1 = Some im
    ∧ import_entry im = (4096, 1000, mkIpcHandle [7; 7] 4096 65536).
Proof.
  destruct (ipc_table_mirrors_peer owner0 user1 owner0_session user1_session) as (n & _ & _ & Hall).
  - exists []. vm_compute. reflexivity.
  - apply (Hall ltac:(vm_compute; discriminate) ltac:(vm_compute; reflexivity)
      ltac:(vm_compute; reflexivity) ltac:(vm_compute; reflexivity) 1
      (mkExported 4096 1000 (mkIpcHandle [7; 7] 4096 65536))). vm_compute. reflexivity.
Defined.


(** ** A lost peer *)

Definition lost : IpcProvider Host := peer_is_gone_locked owner0.

Lemma redial_stays_dead_witness :
  snd (ipc_connect lost (ipc_metadata "b")) = (Status.kOk, 1)
  ∧ alive (fst (ipc_connect lost (ipc_metadata "b"))) 1 = false.
Proof.
  split; [vm_compute; reflexivity|].
  apply (redial_stays_dead lost (ipc_metadata "b") (fst (ipc_connect lost (ipc_metadata "b"))) 1);
    vm_compute; reflexivity.
Defined.

(** ** A withdrawal the outbox has no room for *)

(** The socket stops taking bytes while a control message as long as the outbox's
    limit is on its way. *)

Definition clogged : IpcProvider Host :=
  fst (ipc_send_control (set_world (with_room 0 (ip_world owner0)) owner0) (Some 0) 9
         (replicate (Z.to_nat kDefaultLimit) 0)).

(** Deregistering answers success without a withdrawal having been sent or
    queued: the peer, which has read everything written, still holds the region
    mapped, and the memory may be freed under it. *)
Theorem unsent_withdrawal_is_success :
  snd (ipc_deregister_region clogged 1) = Status.kOk
  ∧ bool_decide (wire_of (fst (ipc_deregister_region clogged 1)) = got_of user2) = true
  ∧ length (sent_of (fst (ipc_deregister_region clogged 1))) = 2%nat
  ∧ FWithdraw 1 ∉ sent_of owner0
  ∧ im_mapped <$> ip_imported user2 !! 1 = Some (2 ^ 40 + 4096).
Proof.
  split_and!; [vm_compute; reflexivity..| |vm_compute; reflexivity].
  vm_compute (sent_of owner0). intros [[=]|H%not_elem_of_nil]%elem_of_cons. done.
Qed.

(** ** A length that wraps *)

(** Six bytes from the peer are enough to make the reader leave its buffer. *)
Theorem huge_length_reads_past_end :
  next_frame (le_bytes 4 (2 ^ 32 - 6) ++ le_bytes 2 kFrameControl) = Oob
  ∧ ip_undefined (hear (le_bytes 4 (2 ^ 32 - 6) ++ le_bytes 2 kFrameControl) user0) = true.
Proof. split; vm_compute; reflexivity. Qed.

(** ** A second peer *)

(** Another process, with a region of its own over the same addresses; the user
    dials the first and then the second, and submits on the first connection. *)

Definition other0 : IpcProvider Host :=
  open_session 5 here (fst (ipc_register_region (fresh 4096 there) 4000 2000)).
Definition first : IpcProvider Host := hear (wire_of owner0) dialled.
Definition second : IpcProvider Host := hear (wire_of other0) (fst (attach 7 first)).

(** The keys of two peers share one table and every connection one socket: after
    the second dial a write submitted on the first connection is copied into the
    second peer's memory, and reported as done. *)
Theorem second_peer_takes_over :
  snd (attach 6 (fresh 4096 here)) = (Status.kOk, 0)
  ∧ snd (attach 7 first) = (Status.kOk, 1)
  ∧ im_length <$> ip_imported first !! 1 = Some 1000
  ∧ ip_trace (fst (submit second 0 [op]))
    = [DOpen 1 (2 ^ 40 + 4000) 2000; DCopy 1 (2 ^ 40 + 4100) 70000 16]
  ∧ ev_status <$> ip_completions (fst (submit second 0 [op])) = [Status.kOk].
Proof. split_and!; vm_compute; reflexivity. Qed.
