(* ===== verification/UcxProvider.v ===== *)
(** * The UCX transport ([src/transport/ucx/ucx_provider.{h,cpp}]).

    The UCX library is the world [W], its calls the class [Ucx].  A request that
    does not finish at once lives in memory UCX owns: it is handed out, filled in
    by the transport, marked by a callback while the worker is driven, and given
    back.  UCX prepares that memory only the first time, so [uc_pool] keeps what
    was left in it; a request handed out is nobody else's until it is freed, and
    sits in the in-flight queue with its contents.

    [uc_log] and the serial numbers in it are history and nothing reads them: every
    put, get and flush UCX took with its answer, every callback UCX made, and every
    completion put on the queue. *)

From stdpp Require Import base list gmap strings numbers.
From S2P Require Import Prelude Float64 Types Provider.

(** ** The library *)

Inductive NbxResult : Type :=
| NbxDone
| NbxError (errno : Z)
| NbxPending (req : Z).

(** [ucp_worker_progress] gives the callbacks it made: the request and whether it
    succeeded.  [flush_turns] is how often the worker is driven until a flush is
    called back. *)

Class Ucx (W : Type) : Type := {
  ucp_config_read : W → W * bool;
  ucp_init : W → W * bool;
  ucp_cleanup : W → W;
  ucp_worker_create : W → W * bool;
  ucp_worker_destroy : W → W;
  ucp_worker_address : W → option (list Z);
  ucp_worker_progress : W → W * list (Z * bool);
  ucp_mem_map : W → Z → Z → W * option Z;
  ucp_mem_unmap : W → Z → W * bool;
  ucp_rkey_pack : W → Z → W * option (list Z);
  ucp_ep_create : W → list Z → W * option Z;
  ucp_ep_rkey_unpack : W → Z → list Z → W * option Z;
  ucp_rkey_destroy : W → Z → W;
  ucp_put_nbx : W → Z → Z → Z → Z → Z → W * NbxResult;
  ucp_get_nbx : W → Z → Z → Z → Z → Z → W * NbxResult;
  ucp_ep_flush_nbx : W → Z → W * NbxResult;
  ucp_request_free : W → Z → W;
  flush_turns : W → Z → nat
}.

(** ** State *)

Record UcxRequest : Type := mkUcxRequest {
  uq_request : Z;
  uq_sub_id : Z;
  uq_bytes : Z;
  uq_is_write : bool;
  uq_done : bool;
  uq_status : Status.t;
  uq_conn : ConnId;
  uq_serial : Z
}.

(** A request as its constructor leaves it. *)

Definition blank_request : UcxRequest := mkUcxRequest 0 0 0 false false Status.kOk 0 0.

Record UcxConnection : Type := mkUcxConn { uk_ep : Z; uk_rkeys : gmap Z Z }.

Inductive UcxEvent : Type :=
| UPosted (n : Z) (op : SubOp) (c : ConnId) (answer : NbxResult)
| UFlush (c : ConnId) (answer : NbxResult)
| UCalled (r : Z) (ok : bool)
| UReported (n : Z) (ev : CompletionEvent).

Section Provider.
Context {W : Type} `{Ucx W}.

Record UcxProvider : Type := mkUcx {
  uc_world : W;
  uc_stats : ProviderStats;
  uc_memories : gmap Z Z;
  uc_blobs : gmap Z (list Z);
  uc_next_key : Z;
  uc_completions : list CompletionEvent;
  uc_inflight : list (Z * UcxRequest);
  uc_pool : gmap Z UcxRequest;
  uc_conns : gmap ConnId UcxConnection;
  uc_next_conn : Z;
  uc_log : list UcxEvent;
  uc_serial : Z
}.

(** Updates of one field. *)

Definition ux_world (x : W) (p : UcxProvider) : UcxProvider :=
  mkUcx x (uc_stats p) (uc_memories p) (uc_blobs p) (uc_next_key p) (uc_completions p)
    (uc_inflight p) (uc_pool p) (uc_conns p) (uc_next_conn p) (uc_log p) (uc_serial p).

Definition ux_stats (x : ProviderStats) (p : UcxProvider) : UcxProvider :=
  mkUcx (uc_world p) x (uc_memories p) (uc_blobs p) (uc_next_key p) (uc_completions p)
    (uc_inflight p) (uc_pool p) (uc_conns p) (uc_next_conn p) (uc_log p) (uc_serial p).

Definition ux_memories (x : gmap Z Z) (p : UcxProvider) : UcxProvider :=
  mkUcx (uc_world p) (uc_stats p) x (uc_blobs p) (uc_next_key p) (uc_completions p)
    (uc_inflight p) (uc_pool p) (uc_conns p) (uc_next_conn p) (uc_log p) (uc_serial p).

Definition ux_blobs (x : gmap Z (list Z)) (p : UcxProvider) : UcxProvider :=
  mkUcx (uc_world p) (uc_stats p) (uc_memories p) x (uc_next_key p) (uc_completions p)
    (uc_inflight p) (uc_pool p) (uc_conns p) (uc_next_conn p) (uc_log p) (uc_serial p).

Definition ux_next_key (x : Z) (p : UcxProvider) : UcxProvider :=
  mkUcx (uc_world p) (uc_stats p) (uc_memories p) (uc_blobs p) x (uc_completions p)
    (uc_inflight p) (uc_pool p) (uc_conns p) (uc_next_conn p) (uc_log p) (uc_serial p).

Definition ux_completions (x : list CompletionEvent) (p : UcxProvider) : UcxProvider :=
  mkUcx (uc_world p) (uc_stats p) (uc_memories p) (uc_blobs p) (uc_next_key p) x
    (uc_inflight p) (uc_pool p) (uc_conns p) (uc_next_conn p) (uc_log p) (uc_serial p).

Definition ux_inflight (x : list (Z * UcxRequest)) (p : UcxProvider) : UcxProvider :=
  mkUcx (uc_world p) (uc_stats p) (uc_memories p) (uc_blobs p) (uc_next_key p)
    (uc_completions p) x (uc_pool p) (uc_conns p) (uc_next_conn p) (uc_log p) (uc_serial p).

Definition ux_pool (x : gmap Z UcxRequest) (p : UcxProvider) : UcxProvider :=
  mkUcx (uc_world p) (uc_stats p) (uc_memories p) (uc_blobs p) (uc_next_key p)
    (uc_completions p) (uc_inflight p) x (uc_conns p) (uc_next_conn p) (uc_log p)
    (uc_serial p).

Definition ux_conns (x : gmap ConnId UcxConnection) (p : UcxProvider) : UcxProvider :=
  mkUcx (uc_world p) (uc_stats p) (uc_memories p) (uc_blobs p) (uc_next_key p)
    (uc_completions p) (uc_inflight p) (uc_pool p) x (uc_next_conn p) (uc_log p) (uc_serial p).

Definition ux_next_conn (x : Z) (p : UcxProvider) : UcxProvider :=
  mkUcx (uc_world p) (uc_stats p) (uc_memories p) (uc_blobs p) (uc_next_key p)
    (uc_completions p) (uc_inflight p) (uc_pool p) (uc_conns p) x (uc_log p) (uc_serial p).

Definition ux_log (x : list UcxEvent) (p : UcxProvider) : UcxProvider :=
  mkUcx (uc_world p) (uc_stats p) (uc_memories p) (uc_blobs p) (uc_next_key p)
    (uc_completions p) (uc_inflight p) (uc_pool p) (uc_conns p) (uc_next_conn p) x
    (uc_serial p).

Definition ux_serial (x : Z) (p : UcxProvider) : UcxProvider :=
  mkUcx (uc_world p) (uc_stats p) (uc_memories p) (uc_blobs p) (uc_next_key p)
    (uc_completions p) (uc_inflight p) (uc_pool p) (uc_conns p) (uc_next_conn p) (uc_log p) x.

Definition note (e : UcxEvent) (p : UcxProvider) : UcxProvider := ux_log (uc_log p ++ [e]) p.

(** ** Driving the worker *)

Definition called_back (ok : bool) (u : UcxRequest) : UcxRequest :=
  mkUcxRequest (uq_request u) (uq_sub_id u) (uq_bytes u) (uq_is_write u) true
    (if ok then Status.kOk else Status.kTransportError) (uq_conn u) (uq_serial u).

(** [on_rma_done] and [on_flush_done], on one request. *)

Definition on_done (r : Z) (u : UcxRequest) (cbs : list (Z * bool)) : UcxRequest :=
  foldl (fun u cb => if fst cb =? r then called_back (snd cb) u else u) u cbs.

Definition called (cb : Z * bool) : UcxEvent := UCalled (fst cb) (snd cb).

Definition worker_progress (p : UcxProvider) : UcxProvider * list (Z * bool) :=
  let '(w, cbs) := ucp_worker_progress (uc_world p) in
  (ux_log (uc_log p ++ (called <$> cbs))
     (ux_inflight ((fun ru => (fst ru, on_done (fst ru) (snd ru) cbs)) <$> uc_inflight p)
        (ux_world w p)), cbs).

(** Memory for a request, with whatever is in it. *)

Definition take_request (r : Z) (p : UcxProvider) : UcxProvider * UcxRequest :=
  (ux_pool (delete r (uc_pool p)) p, default blank_request (uc_pool p !! r)).

(** [release]: reset, then freed. *)

Definition ucx_release (r : Z) (p : UcxProvider) : UcxProvider :=
  ux_world (ucp_request_free (uc_world p) r) (ux_pool (<[r := blank_request]> (uc_pool p)) p).

(** The [while (!u->done)] loop; [None] when the turns end before the request. *)

Fixpoint flush_wait (turns : nat) (r : Z) (u : UcxRequest) (p : UcxProvider)
    : UcxProvider * option UcxRequest :=
  if uq_done u then (p, Some u)
  else
    match turns with
    | O => (p, None)
    | S turns =>
        let '(p, cbs) := worker_progress p in flush_wait turns r (on_done r u cbs) p
    end.

(** A connection that is gone is a dangling pointer in the source. *)

Definition ucx_flush_locked (c : ConnId) (p : UcxProvider) : UcxProvider * Status.t :=
  match uc_conns p !! c with
  | None => (p, Status.kInternal)
  | Some k =>
      let '(w, r) := ucp_ep_flush_nbx (uc_world p) (uk_ep k) in
      let p := note (UFlush c r) (ux_world w p) in
      match r with
      | NbxDone => (p, Status.kOk)
      | NbxError _ => (p, Status.kTransportError)
      | NbxPending r =>
          let '(p, u) := take_request r p in
          let '(p, u) := flush_wait (flush_turns (uc_world p) r) r u p in
          match u with
          | Some u => (ucx_release r p, uq_status u)
          | None => (p, Status.kTimeout)
          end
      end
  end.

(** ** Submitting *)

Definition rkey_for (c : ConnId) (key : Z) (blob : list Z) (p : UcxProvider)
    : UcxProvider * option (Z * Z) :=
  match uc_conns p !! c with
  | None => (p, None)
  | Some k =>
      match uk_rkeys k !! key with
      | Some rkey => (p, Some (uk_ep k, rkey))
      | None =>
          let '(w, rkey) := ucp_ep_rkey_unpack (uc_world p) (uk_ep k) blob in
          let p := ux_world w p in
          match rkey with
          | None => (p, None)
          | Some rkey =>
              (ux_conns (<[c := mkUcxConn (uk_ep k) (<[key := rkey]> (uk_rkeys k))]> (uc_conns p)) p,
               Some (uk_ep k, rkey))
          end
      end
  end.

Definition is_put (op : SubOp) : bool := bool_decide (op_kind op = SubOpKind.kWrite).

Definition op_event (op : SubOp) (st : Status.t) (modified : bool) : CompletionEvent :=
  mkCompletionEvent (op_request op) (op_sub_id op) (op_length op) st 0 modified.

(** A completion put on the queue. *)

Definition report (n : Z) (ev : CompletionEvent) (p : UcxProvider) : UcxProvider :=
  note (UReported n ev) (ux_completions (uc_completions p ++ [ev]) p).

Definition nbx (op : SubOp) (w : W) (ep rkey : Z) : W * NbxResult :=
  if is_put op then ucp_put_nbx w ep (op_local_addr op) (op_length op) (op_remote_addr op) rkey
  else ucp_get_nbx w ep (op_local_addr op) (op_length op) (op_remote_addr op) rkey.

(** What the transport writes into a request, and what it leaves. *)

Definition fill_request (op : SubOp) (c : ConnId) (n : Z) (u : UcxRequest) : UcxRequest :=
  mkUcxRequest (op_request op) (op_sub_id op) (op_length op) (is_put op) (uq_done u) (uq_status u) c n.

Definition posted (op : SubOp) (c : ConnId) (answer : NbxResult) (p : UcxProvider) : UcxProvider :=
  ux_serial (uc_serial p + 1)
    (ux_stats (count_posted (uc_stats p) (op_length op) 0)
       (note (UPosted (uc_serial p) op c answer) p)).

(** One operation: refused, or taken.  A put that finished inline is left to the
    caller with its serial. *)

Definition ucx_post (c : ConnId) (op : SubOp) (p : UcxProvider)
    : UcxProvider * (Status.t * Z + list (CompletionEvent * Z)) :=
  match uc_blobs p !! op_remote_key op with
  | None => (p, inl (Status.kNotFound, 0))
  | Some blob =>
      let '(p, k) := rkey_for c (op_remote_key op) blob p in
      match k with
      | None => (p, inl (Status.kTransportError, 0))
      | Some (ep, rkey) =>
          let '(w, r) := nbx op (uc_world p) ep rkey in
          let p := ux_world w p in
          let n := uc_serial p in
          match r with
          | NbxError e => (p, inl (Status.kTransportError, e))
          | NbxDone =>
              let p := posted op c NbxDone p in
              if is_put op then (p, inr [(op_event op Status.kOk false, n)])
              else (report n (op_event op Status.kOk false) p, inr [])
          | NbxPending r =>
              let p := posted op c (NbxPending r) p in
              let '(p, u) := take_request r p in
              (ux_inflight (uc_inflight p ++ [(r, fill_request op c n u)]) p, inr [])
          end
      end
  end.

Fixpoint ucx_post_loop (c : ConnId) (ops : list SubOp) (p : UcxProvider)
    : UcxProvider * list (CompletionEvent * Z) * nat * (Status.t * Z) :=
  match ops with
  | [] => (p, [], 0%nat, (Status.kOk, 0))
  | op :: ops =>
      let '(p, r) := ucx_post c op p in
      match r with
      | inl st => (p, [], 0%nat, st)
      | inr ws =>
          let '(p, ws', n, st) := ucx_post_loop c ops p in (p, ws ++ ws', S n, st)
      end
  end.

Definition flushed_event (st : Status.t) (ev : CompletionEvent) : CompletionEvent :=
  mkCompletionEvent (ev_request ev) (ev_sub_id ev) (ev_bytes ev) st (ev_provider_errno ev)
    (negb (bool_decide (st = Status.kOk))).

Definition report_all (l : list (CompletionEvent * Z)) (p : UcxProvider) : UcxProvider :=
  foldl (fun p en => report (snd en) (fst en) p) p l.

Definition ucx_submit (p : UcxProvider) (c : ConnId) (ops : list SubOp)
    : UcxProvider * SubmitResult :=
  if bool_decide (uc_conns p !! c = None) then (p, mkSubmitResult 0 Status.kInvalidArgument 0)
  else
    let '(p, ws, n, (st, errno)) := ucx_post_loop c ops p in
    let p :=
      if bool_decide (ws = []) then p
      else
        let '(p, fs) := ucx_flush_locked c p in
        report_all ((fun en => (flushed_event fs (fst en), snd en)) <$> ws) p in
    (p, mkSubmitResult n st errno).

(** ** Completions *)

Definition finished (l : list (Z * UcxRequest)) : list (Z * UcxRequest) :=
  filter (fun ru => uq_done (snd ru) = true) l.

Definition unfinished (l : list (Z * UcxRequest)) : list (Z * UcxRequest) :=
  filter (fun ru => uq_done (snd ru) = false) l.

Definition sweep (p : UcxProvider) : UcxProvider * list UcxRequest :=
  let fs := finished (uc_inflight p) in
  (foldl (fun p ru => ucx_release (fst ru) p) (ux_inflight (unfinished (uc_inflight p)) p) fs,
   snd <$> fs).

Definition needs_flush (u : UcxRequest) : bool :=
  uq_is_write u && bool_decide (uq_status u = Status.kOk).

Fixpoint flush_each (fs : list UcxRequest) (done : gmap ConnId Status.t) (p : UcxProvider)
    : UcxProvider * gmap ConnId Status.t :=
  match fs with
  | [] => (p, done)
  | u :: fs =>
      if needs_flush u && bool_decide (done !! uq_conn u = None) then
        let '(p, st) := ucx_flush_locked (uq_conn u) p in
        flush_each fs (<[uq_conn u := st]> done) p
      else flush_each fs done p
  end.

Definition final_status (done : gmap ConnId Status.t) (u : UcxRequest) : Status.t :=
  if needs_flush u then default Status.kOk (done !! uq_conn u) else uq_status u.

Definition final_event (done : gmap ConnId Status.t) (u : UcxRequest) : CompletionEvent * Z :=
  let st := final_status done u in
  (mkCompletionEvent (uq_request u) (uq_sub_id u) (uq_bytes u) st 0
     (negb (bool_decide (st = Status.kOk)) && uq_is_write u), uq_serial u).

Definition ucx_count (s : ProviderStats) (ev : CompletionEvent) : ProviderStats :=
  if bool_decide (ev_status ev = Status.kOk) then count_completed s else count_failed s.

Definition ucx_collect (p : UcxProvider) : UcxProvider :=
  let '(p, _) := worker_progress p in
  let '(p, fs) := sweep p in
  let '(p, done) := flush_each fs ∅ p in
  report_all (final_event done <$> fs) p.

Definition ucx_poll (p : UcxProvider) (max_events : Z)
    : UcxProvider * (Status.t * list CompletionEvent) :=
  let p := ucx_collect p in
  let n := Z.to_nat max_events in
  let out := take n (uc_completions p) in
  (ux_completions (drop n (uc_completions p)) (ux_stats (foldl ucx_count (uc_stats p) out) p),
   (Status.kOk, out)).

Definition ucx_flush (p : UcxProvider) (c : ConnId) : UcxProvider * Status.t := ucx_flush_locked c p.

Definition ucx_drain (p : UcxProvider) (c : ConnId) : UcxProvider * Status.t := ucx_flush p c.

(** ** Regions and connections *)

Definition ucx_register_region (p : UcxProvider) (addr len : Z) : UcxProvider * (Status.t * Z * Z) :=
  if (addr =? 0) || (len =? 0) then (p, (Status.kInvalidArgument, 0, 0))
  else
    let '(w, mem) := ucp_mem_map (uc_world p) addr len in
    match mem with
    | None => (ux_world w p, (Status.kDeviceError, 0, 0))
    | Some mem =>
        let '(w, blob) := ucp_rkey_pack w mem in
        match blob with
        | None => (ux_world (fst (ucp_mem_unmap w mem)) p, (Status.kDeviceError, 0, 0))
        | Some blob =>
            let key := uc_next_key p in
            (ux_next_key (wrap64 (key + 1))
               (ux_memories (<[key := mem]> (uc_memories p))
                  (ux_blobs (<[key := blob]> (uc_blobs p)) (ux_world w p))),
             (Status.kOk, key, key))
        end
    end.

Definition ucx_deregister_region (p : UcxProvider) (key : Z) : UcxProvider * Status.t :=
  match uc_memories p !! key with
  | None => (p, Status.kNotFound)
  | Some mem =>
      let p := ux_memories (delete key (uc_memories p)) (ux_blobs (delete key (uc_blobs p)) p) in
      let '(w, good) := ucp_mem_unmap (uc_world p) mem in
      (ux_world w p, if good : bool then Status.kOk else Status.kDeviceError)
  end.

Definition ucx_connect (p : UcxProvider) (metadata : list Z) : UcxProvider * (Status.t * ConnId) :=
  if bool_decide (metadata = []) then (p, (Status.kInvalidArgument, 0))
  else
    let '(w, ep) := ucp_ep_create (uc_world p) metadata in
    let p := ux_world w p in
    match ep with
    | None => (p, (Status.kPeerDisconnected, 0))
    | Some ep =>
        let c := uc_next_conn p in
        (ux_next_conn (c + 1) (ux_conns (<[c := mkUcxConn ep ∅]> (uc_conns p)) p), (Status.kOk, c))
    end.

Definition ucx_disconnect (p : UcxProvider) (c : ConnId) : UcxProvider * Status.t := (p, Status.kOk).

(** The destructors, of a connection and of the provider. *)

Definition ucx_destroy_conn (c : ConnId) (p : UcxProvider) : UcxProvider :=
  match uc_conns p !! c with
  | None => p
  | Some k =>
      ux_conns (delete c (uc_conns p))
        (ux_world (foldl (fun w kv => ucp_rkey_destroy w (snd kv)) (uc_world p)
                     (in_key_order (uk_rkeys k))) p)
  end.

Definition ucx_destroy (p : UcxProvider) : W :=
  let w := foldl (fun w kv => fst (ucp_mem_unmap w (snd kv))) (uc_world p) (in_key_order (uc_memories p)) in
  ucp_cleanup (ucp_worker_destroy w).

Definition ucx_create (w : W) : W * (Status.t + UcxProvider) :=
  let '(w, read) := ucp_config_read w in
  if negb read then (w, inl Status.kDeviceError)
  else
    let '(w, started) := ucp_init w in
    if negb started then (w, inl Status.kDeviceError)
    else
      let '(w, worker) := ucp_worker_create w in
      if negb worker then (ucp_cleanup w, inl Status.kDeviceError)
      else (w, inr (mkUcx w no_provider_stats ∅ ∅ 1 [] [] ∅ ∅ 0 [] 0)).

Definition ucx_metadata (p : UcxProvider) : Status.t * list Z :=
  match ucp_worker_address (uc_world p) with
  | Some a => (Status.kOk, a)
  | None => (Status.kDeviceError, [])
  end.

Definition ucx_send_control (p : UcxProvider) (c : option ConnId) (type : Z) (payload : list Z)
    : UcxProvider * Status.t := (p, Status.kUnsupported).

Definition ucx_caps : ProviderCaps := mkProviderCaps "ucx"%string f64_1 0.

#[export] Instance ucx_provider : TransportProvider UcxProvider := {
  caps _ := ucx_caps;
  stats := uc_stats;
  register_region p a l _ _ := ucx_register_region p a l;
  deregister_region := ucx_deregister_region;
  connect := ucx_connect;
  disconnect := ucx_disconnect;
  local_metadata := ucx_metadata;
  submit := ucx_submit;
  poll := ucx_poll;
  send_control := ucx_send_control;
  broadcast_control p _ _ := (p, (Status.kUnsupported, 0, 0));
  poll_control p _ := (p, (Status.kOk, []));
  poll_peer_arrivals p _ := (p, (Status.kOk, []));
  alive _ _ := true;
  qp_count _ _ := 1
}.

End Provider.

#[global] Arguments UcxProvider : clear implicits.
