(* ===== verification/UcxLaws.v ===== *)
(** * The UCX transport keeps the provider contract.

    A sub-operation taken is either in the in-flight queue or on the completion
    queue until [poll] hands it over, whatever UCX answers; and a flush that is
    called back within its turns always ends. *)

From stdpp Require Import base list gmap strings numbers.
From S2P Require Import Prelude Float64 Types Provider UcxProvider.

#[local] Arguments count_req : simpl never.

Section Laws.
Context {W : Type} `{Ucx W}.
Implicit Types p : UcxProvider W.

(** ** What is outstanding *)

Definition flight_of (i : Z) (l : list (Z * UcxRequest)) : nat :=
  count_req (fun ru => uq_request (snd ru)) i l.

#[local] Arguments flight_of : simpl never.

Definition ucx_outstanding p (i : Z) : nat :=
  (count_req ev_request i (uc_completions p) + flight_of i (uc_inflight p))%nat.

(** Driving the worker neither makes nor loses a completion. *)

Definition settles_nothing p p' : Prop :=
  uc_completions p' = uc_completions p ∧ ∀ i, flight_of i (uc_inflight p') = flight_of i (uc_inflight p).

Lemma settles_nothing_refl p : settles_nothing p p.
Proof. done. Qed.

Lemma settles_nothing_trans p q r :
  settles_nothing p q → settles_nothing q r → settles_nothing p r.
Proof. intros [E F] [E' F']. split; [congruence|]. intros i. by rewrite F', F. Qed.

Lemma settles_nothing_outstanding p p' i :
  settles_nothing p p' → ucx_outstanding p' i = ucx_outstanding p i.
Proof. intros [E F]. unfold ucx_outstanding. by rewrite E, F. Qed.

Lemma on_done_request r u cbs : uq_request (on_done r u cbs) = uq_request u.
Proof.
  unfold on_done. revert u. induction cbs as [|cb cbs IH]; intros u; [done|]. cbn [foldl].
  rewrite IH. by destruct (fst cb =? r).
Qed.

Lemma worker_progress_settles p : settles_nothing p (fst (worker_progress p)).
Proof.
  unfold worker_progress. destruct (ucp_worker_progress _) as [w cbs]. cbn.
  split; [done|]. intros i. cbn. unfold flight_of.
  etransitivity; [exact (count_req_map _ _ i (uc_inflight p))|].
  unfold count_req. f_equal. apply list_filter_iff. intros [r u]. cbn. by rewrite on_done_request.
Qed.

Lemma flush_wait_settles n r u p : settles_nothing p (fst (flush_wait n r u p)).
Proof.
  revert u p. induction n as [|n IH]; intros u p; cbn [flush_wait]; destruct (uq_done u);
    [apply settles_nothing_refl..|].
  pose proof (worker_progress_settles p) as F. destruct (worker_progress p) as [q cbs].
  exact (settles_nothing_trans _ _ _ F (IH _ _)).
Qed.

Lemma flush_locked_settles c p : settles_nothing p (fst (ucx_flush_locked c p)).
Proof.
  unfold ucx_flush_locked. destruct (uc_conns p !! c) as [k|]; [|apply settles_nothing_refl].
  destruct (ucp_ep_flush_nbx _ _) as [w [| |r]]; [done..|]. cbn [take_request].
  set (q := ux_pool _ _).
  pose proof (flush_wait_settles (flush_turns (uc_world q) r) r
    (default blank_request (uc_pool (note (UFlush c (NbxPending r)) (ux_world w p)) !! r)) q) as F.
  destruct (flush_wait _ _ _ _) as [q' [u|]]; exact F.
Qed.

Lemma flush_each_settles fs done p : settles_nothing p (fst (flush_each fs done p)).
Proof.
  revert done p. induction fs as [|u fs IH]; intros done p; cbn [flush_each];
    [apply settles_nothing_refl|].
  destruct (_ && _); [|apply IH].
  pose proof (flush_locked_settles (uq_conn u) p) as F. destruct (ucx_flush_locked _ _) as [q st].
  exact (settles_nothing_trans _ _ _ F (IH _ _)).
Qed.

(** ** Submitting *)

Lemma rkey_for_settles c key blob p : settles_nothing p (fst (rkey_for c key blob p)).
Proof.
  unfold rkey_for. destruct (uc_conns p !! c) as [k|]; [|done].
  destruct (uk_rkeys k !! key); [done|]. by destruct (ucp_ep_rkey_unpack _ _ _) as [w [rkey|]].
Qed.

Definition held_of (i : Z) (ws : list (CompletionEvent * Z)) : nat :=
  count_req (fun en => ev_request (fst en)) i ws.

Lemma report_all_completions l p :
  uc_completions (report_all l p) = uc_completions p ++ l.*1
  ∧ uc_inflight (report_all l p) = uc_inflight p.
Proof.
  unfold report_all. revert p. induction l as [|[ev n] l IH]; intros p; cbn [foldl].
  - by rewrite app_nil_r.
  - cbn [fst snd]. destruct (IH (report n ev p)) as [-> ->]. cbn. by rewrite <- app_assoc.
Qed.

Lemma report_all_outstanding l p i :
  ucx_outstanding (report_all l p) i = (ucx_outstanding p i + held_of i l)%nat.
Proof.
  unfold ucx_outstanding. destruct (report_all_completions l p) as [-> ->].
  rewrite count_req_app. change (l.*1) with (map fst l). rewrite count_req_map. unfold held_of. lia.
Qed.

Definition one_if (op : SubOp) (i : Z) : nat := if decide (op_request op = i) then 1 else 0.

Lemma ucx_post_outstanding c op p i :
  let '(q, r) := ucx_post c op p in
  (ucx_outstanding q i + match r with inr ws => held_of i ws | inl _ => 0 end
   = ucx_outstanding p i + match r with inr _ => one_if op i | inl _ => 0 end)%nat.
Proof.
  unfold ucx_post. destruct (uc_blobs p !! _) as [blob|]; [|done].
  pose proof (rkey_for_settles c (op_remote_key op) blob p) as F.
  destruct (rkey_for _ _ _ _) as [q k]. cbn [fst] in F.
  rewrite <- (settles_nothing_outstanding _ _ i F). clear F.
  destruct k as [[ep rkey]|]; [|done].
  destruct (nbx _ _ _ _) as [w [|e|r]]; [|done|].
  - destruct (is_put op) eqn:Ep.
    + unfold held_of, one_if. rewrite count_req_cons, count_req_nil. unfold ucx_outstanding. cbn. lia.
    + unfold held_of, one_if, ucx_outstanding. cbn.
      rewrite count_req_app, count_req_cons, !count_req_nil. cbn. lia.
  - cbn [take_request]. unfold ucx_outstanding, flight_of, held_of, one_if. cbn.
    rewrite count_req_app, count_req_cons, !count_req_nil. cbn. lia.
Qed.

Lemma post_loop_outstanding c ops p i :
  let '(q, ws, n, _) := ucx_post_loop c ops p in
  (n <= length ops)%nat
  ∧ (ucx_outstanding q i + held_of i ws
     = ucx_outstanding p i + count_req op_request i (take n ops))%nat.
Proof.
  revert p. induction ops as [|op ops IH]; intros p; cbn [ucx_post_loop].
  - split; [done|]. by rewrite take_nil.
  - pose proof (ucx_post_outstanding c op p i) as F. destruct (ucx_post c op p) as [q [st|ws]].
    + split; [lia|]. exact F.
    + specialize (IH q). destruct (ucx_post_loop c ops q) as [[[q' ws'] n] st]. destruct IH as [IH1 IH2].
      split; [cbn; lia|]. cbn [take]. rewrite count_req_cons.
      unfold held_of in *. rewrite count_req_app. unfold one_if in F. lia.
Qed.

Lemma held_flushed st ws i :
  held_of i ((fun en => (flushed_event st (fst en), snd en)) <$> ws) = held_of i ws.
Proof. unfold held_of. by rewrite (count_req_map _ _ i ws). Qed.

Lemma ucx_submit_outstanding p c ops i :
  (sr_accepted (snd (ucx_submit p c ops)) <= length ops)%nat
  ∧ ucx_outstanding (fst (ucx_submit p c ops)) i =
    (ucx_outstanding p i + count_req op_request i (take (sr_accepted (snd (ucx_submit p c ops))) ops))%nat.
Proof.
  unfold ucx_submit. destruct (bool_decide _); cbn [fst snd sr_accepted]; [rewrite take_0, count_req_nil; split; lia|].
  pose proof (post_loop_outstanding c ops p i) as F.
  destruct (ucx_post_loop c ops p) as [[[q ws] n] [st errno]]. destruct F as [F1 F2].
  cbn [fst snd sr_accepted]. split; [done|]. rewrite <- F2. case_bool_decide as Ew.
  - subst ws. unfold held_of. rewrite count_req_nil. lia.
  - pose proof (settles_nothing_outstanding _ _ i (flush_locked_settles c q)) as G.
    destruct (ucx_flush_locked c q) as [q' fs]. cbn [fst] in G.
    by rewrite report_all_outstanding, held_flushed, G.
Qed.

(** ** Polling *)

Lemma release_all_same (l : list (Z * UcxRequest)) p :
  let q := foldl (fun p ru => ucx_release (fst ru) p) p l in
  uc_completions q = uc_completions p ∧ uc_inflight q = uc_inflight p.
Proof.
  revert p. induction l as [|[r u] l IH]; intros p; [done|]. cbn [foldl].
  exact (IH (ucx_release r p)).
Qed.

Lemma finished_split i l : (flight_of i (unfinished l) + flight_of i (finished l))%nat = flight_of i l.
Proof.
  unfold flight_of. induction l as [|[r u] l IH]; [done|].
  unfold unfinished, finished in *. rewrite !filter_cons. cbn [snd].
  destruct (uq_done u); repeat case_decide; try done; rewrite !count_req_cons; lia.
Qed.

Lemma sweep_outstanding p i :
  ucx_outstanding p i =
  (ucx_outstanding (fst (sweep p)) i + count_req uq_request i (snd (sweep p)))%nat.
Proof.
  unfold sweep, ucx_outstanding. cbn [fst snd].
  destruct (release_all_same (finished (uc_inflight p)) (ux_inflight (unfinished (uc_inflight p)) p))
    as [-> ->].
  cbn. rewrite <- (finished_split i (uc_inflight p)).
  change ((finished (uc_inflight p)).*2) with (map snd (finished (uc_inflight p))).
  rewrite count_req_map. unfold flight_of. lia.
Qed.

Lemma ucx_collect_outstanding p i : ucx_outstanding (ucx_collect p) i = ucx_outstanding p i.
Proof.
  unfold ucx_collect.
  pose proof (settles_nothing_outstanding _ _ i (worker_progress_settles p)) as F1.
  destruct (worker_progress p) as [p1 cbs]. cbn [fst] in F1.
  pose proof (sweep_outstanding p1 i) as F2. destruct (sweep p1) as [p2 fs]. cbn [fst snd] in F2.
  pose proof (settles_nothing_outstanding _ _ i (flush_each_settles fs ∅ p2)) as F3.
  destruct (flush_each fs ∅ p2) as [p3 done]. cbn [fst] in F3.
  rewrite report_all_outstanding. unfold held_of. rewrite (count_req_map _ _ i fs). change (fun a => _ (fst (final_event done a))) with uq_request. lia.
Qed.

Lemma ucx_poll_outstanding p n i :
  ucx_outstanding p i =
  (ucx_outstanding (fst (ucx_poll p n)) i + count_req ev_request i (snd (snd (ucx_poll p n))))%nat.
Proof.
  rewrite <- ucx_collect_outstanding. unfold ucx_poll, ucx_outstanding. cbn.
  rewrite <- (take_drop (Z.to_nat n) (uc_completions (ucx_collect p))) at 1.
  rewrite count_req_app. lia.
Qed.

(** ** Regions and connections *)

Lemma register_settles p a l : settles_nothing p (fst (ucx_register_region p a l)).
Proof.
  unfold ucx_register_region. destruct (_ || _); [done|].
  destruct (ucp_mem_map _ _ _) as [w [m|]]; [|done]. by destruct (ucp_rkey_pack _ _) as [w' [b|]].
Qed.

Lemma deregister_settles p k : settles_nothing p (fst (ucx_deregister_region p k)).
Proof.
  unfold ucx_deregister_region. destruct (uc_memories p !! k); [|done]. by destruct (ucp_mem_unmap _ _).
Qed.

Lemma ucx_connect_settles p m : settles_nothing p (fst (ucx_connect p m)).
Proof.
  unfold ucx_connect. destruct (bool_decide _); [done|]. by destruct (ucp_ep_create _ _) as [w [e|]].
Qed.

Lemma destroy_conn_settles c p : settles_nothing p (ucx_destroy_conn c p).
Proof. unfold ucx_destroy_conn. by destruct (uc_conns p !! c). Qed.

#[export] Instance ucx_laws : ProviderLaws (UcxProvider W).
Proof.
  refine (Build_ProviderLaws _ _ ucx_outstanding _ _ _ _ _ _ _ _ _ _ _); intros; try done.
  - apply (ucx_submit_outstanding p c ops 0).
  - apply ucx_submit_outstanding.
  - apply ucx_poll_outstanding.
  - apply settles_nothing_outstanding, register_settles.
  - apply settles_nothing_outstanding, deregister_settles.
  - apply settles_nothing_outstanding, ucx_connect_settles.
Defined.

(** ** A flush ends *)

(** UCX promises that a flush it took is called back while the worker is driven. *)

Fixpoint called_within (n : nat) (r : Z) (w : W) : Prop :=
  match n with
  | O => False
  | S n =>
      let '(w, cbs) := ucp_worker_progress w in
      r ∈ cbs.*1 ∨ called_within n r w
  end.

Lemma on_done_called r u cbs : r ∈ cbs.*1 ∨ uq_done u = true → uq_done (on_done r u cbs) = true.
Proof.
  unfold on_done. revert u. induction cbs as [|cb cbs IH]; intros u Hr; cbn in *.
  - destruct Hr as [Hr|Hr]; [by apply elem_of_nil in Hr|done].
  - apply IH. destruct (Z.eqb_spec (fst cb) r) as [|Hn]; [by right|].
    destruct Hr as [Hr|Hr]; [|by right]. left. apply elem_of_cons in Hr as [->|Hr]; done.
Qed.

Lemma flush_wait_ends n r u p :
  called_within n r (uc_world p) → is_Some (snd (flush_wait n r u p)).
Proof.
  revert u p. induction n as [|n IH]; intros u p Hc; [done|]. cbn [flush_wait].
  destruct (uq_done u) eqn:Ed; [by eexists|].
  cbn [called_within] in Hc. unfold worker_progress.
  destruct (ucp_worker_progress _) as [w cbs]. destruct Hc as [Hc|Hc].
  - pose proof (on_done_called r u cbs (or_introl Hc)) as E. destruct n; cbn; by rewrite E.
  - apply IH. exact Hc.
Qed.

End Laws.
