(* ===== verification/UcxSafe.v ===== *)
(** * What the UCX transport reports as done is done.

    The history is the trace of the calls UCX took, the callbacks it made and the
    completions queued.  [settled] is what a success has to mean on that trace; the
    invariant [uinv] carries it through every call, the loops of [submit] and
    [poll] included, where some operations are neither in flight nor reported. *)

From stdpp Require Import base list gmap strings numbers.
From S2P Require Import Prelude Float64 Types Provider UcxProvider UcxLaws.

(** ** The specification, on the trace *)

(** A call answered at once, or called back with success in [t]. *)

Definition answered (t : list UcxEvent) (a : NbxResult) : Prop :=
  a = NbxDone ∨ ∃ r, a = NbxPending r ∧ UCalled r true ∈ t.

Definition flushed_in (t : list UcxEvent) (c : ConnId) : Prop :=
  ∃ t1 a t2, t = t1 ++ UFlush c a :: t2 ∧ answered t2 a.

Definition describes (ev : CompletionEvent) (op : SubOp) : Prop :=
  ev_request ev = op_request op ∧ ev_sub_id ev = op_sub_id op ∧ ev_bytes ev = op_length op.

(** [settled t n ev]: operation [n], which [ev] describes, was posted in [t] and
    answered after that, and a write was then flushed on its connection, the
    flush begun after the write was answered and itself answered. *)

Definition settled (t : list UcxEvent) (n : Z) (ev : CompletionEvent) : Prop :=
  ∃ t1 op c a t2, t = t1 ++ UPosted n op c a :: t2 ∧ describes ev op ∧ answered t2 a
    ∧ (is_put op = true → ∃ t3 t4, t2 = t3 ++ t4 ∧ answered t3 a ∧ flushed_in t4 c).

Definition report_of (e : UcxEvent) : option (Z * CompletionEvent) :=
  match e with UReported n ev => Some (n, ev) | _ => None end.

Definition reports (t : list UcxEvent) : list (Z * CompletionEvent) := omap report_of t.

(** ** More history changes none of it *)

Lemma answered_app t t' a : answered t a → answered (t ++ t') a.
Proof. intros [|(r & -> & Hr)]; [by left|]. right. exists r. split; [done|]. apply elem_of_app. by left. Qed.

Lemma flushed_in_app t t' c : flushed_in t c → flushed_in (t ++ t') c.
Proof.
  intros (t1 & a & t2 & -> & Ha). exists t1, a, (t2 ++ t').
  rewrite <- app_assoc. split; [done|]. by apply answered_app.
Qed.

Lemma flushed_in_prefix t' t c : flushed_in t c → flushed_in (t' ++ t) c.
Proof. intros (t1 & a & t2 & -> & Ha). exists (t' ++ t1), a, t2. by rewrite <- app_assoc. Qed.

Lemma settled_app t t' n ev : settled t n ev → settled (t ++ t') n ev.
Proof.
  intros (t1 & op & c & a & t2 & -> & Hd & Ha & Hw). exists t1, op, c, a, (t2 ++ t').
  rewrite <- app_assoc. split_and!; [done..|by apply answered_app|]. intros Hp.
  destruct (Hw Hp) as (t3 & t4 & -> & H3 & H4). exists t3, (t4 ++ t').
  rewrite <- app_assoc. split_and!; [done..|]. by apply flushed_in_app.
Qed.

Lemma reports_app t t' : reports (t ++ t') = reports t ++ reports t'.
Proof. apply omap_app. Qed.

Lemma reports_called cbs : reports (called <$> cbs) = [].
Proof. by induction cbs. Qed.

(** ** Operations not reported yet *)

(** [open_post t n op c a]: posted in [t], and answered when [b]. *)

Definition open_post (t : list UcxEvent) (n : Z) (op : SubOp) (c : ConnId) (a : NbxResult) (b : bool) : Prop :=
  ∃ t1 t2, t = t1 ++ UPosted n op c a :: t2 ∧ (b = true → answered t2 a).

Lemma open_post_app t t' n op c a b : open_post t n op c a b → open_post (t ++ t') n op c a b.
Proof.
  intros (t1 & t2 & -> & Hb). exists t1, (t2 ++ t'). rewrite <- app_assoc.
  split; [done|]. intros E. by apply answered_app, Hb.
Qed.

Lemma open_post_settled t s n op c a ev :
  open_post t n op c a true → describes ev op → (is_put op = true → flushed_in s c) →
  settled (t ++ s) n ev.
Proof.
  intros (t1 & t2 & -> & Ha) Hd Hf. exists t1, op, c, a, (t2 ++ s). rewrite <- app_assoc.
  split_and!; [done..|by apply answered_app, Ha|]. intros Hp. exists t2, s. auto.
Qed.

(** A request in flight: what is in its memory describes what was posted, and it
    says done and good only after UCX said so. *)

Definition good (u : UcxRequest) : bool := uq_done u && bool_decide (uq_status u = Status.kOk).

Definition flight_ok (t : list UcxEvent) (ru : Z * UcxRequest) : Prop :=
  let u := snd ru in
  ∃ op, open_post t (uq_serial u) op (uq_conn u) (NbxPending (fst ru)) (good u)
    ∧ uq_request u = op_request op ∧ uq_sub_id u = op_sub_id op ∧ uq_bytes u = op_length op
    ∧ uq_is_write u = is_put op.

Lemma flight_ok_app t t' ru : flight_ok t ru → flight_ok (t ++ t') ru.
Proof. intros (op & Ho & Hr). exists op. split; [by apply open_post_app|done]. Qed.

(** ** Callbacks *)

Lemma on_done_same r u cbs :
  uq_serial (on_done r u cbs) = uq_serial u ∧ uq_conn (on_done r u cbs) = uq_conn u
  ∧ uq_sub_id (on_done r u cbs) = uq_sub_id u ∧ uq_bytes (on_done r u cbs) = uq_bytes u
  ∧ uq_is_write (on_done r u cbs) = uq_is_write u.
Proof.
  unfold on_done. revert u. induction cbs as [|cb cbs IH]; intros u; [done|]. cbn [foldl].
  destruct (IH (if fst cb =? r then called_back (snd cb) u else u)) as (-> & -> & -> & -> & ->).
  by destruct (fst cb =? r).
Qed.

Lemma on_done_good r u cbs :
  good (on_done r u cbs) = true → good u = true ∨ UCalled r true ∈ called <$> cbs.
Proof.
  unfold on_done. revert u. induction cbs as [|[r' ok] cbs IH]; intros u Hg; [by left|].
  cbn [foldl] in Hg. apply IH in Hg as [Hg|Hg]; [|right; by apply elem_of_cons; right].
  cbn [fst snd] in Hg. destruct (Z.eqb_spec r' r) as [->|]; [|by left].
  destruct ok; [right; by left|]. by unfold good in Hg; cbn in Hg.
Qed.

Lemma on_done_flight t r u cbs :
  flight_ok t (r, u) → flight_ok (t ++ (called <$> cbs)) (r, on_done r u cbs).
Proof.
  intros (op & (t1 & t2 & -> & Ha) & Hr). exists op. cbn [fst snd] in *.
  destruct (on_done_same r u cbs) as (-> & -> & -> & -> & ->). rewrite on_done_request.
  split; [|done]. exists t1, (t2 ++ (called <$> cbs)). rewrite <- app_assoc. split; [done|].
  intros Hg. apply on_done_good in Hg as [Hg|Hg]; [by apply answered_app, Ha|].
  right. exists r. split; [done|]. apply elem_of_app. by right.
Qed.

(** What UCX gets back is reset. *)

Definition blank_pool (m : gmap Z UcxRequest) : Prop := map_Forall (fun _ u => u = blank_request) m.

Section Safe.
Context {W : Type} `{Ucx W}.
Implicit Types p : UcxProvider W.

(** ** The invariant *)

Definition serials (l : list (Z * UcxRequest)) : list Z := (fun ru => uq_serial (snd ru)) <$> l.

(** [held] are the serials of operations posted that are neither in flight nor
    reported, [outs] the completions handed over. *)

Record uinv (outs : list CompletionEvent) (held : list Z) (p : UcxProvider W) : Prop := {
  ui_pool : blank_pool (uc_pool p);
  ui_flight : Forall (flight_ok (uc_log p)) (uc_inflight p);
  ui_once : NoDup (held ++ serials (uc_inflight p) ++ (reports (uc_log p)).*1);
  ui_below : Forall (fun n => n < uc_serial p) (held ++ serials (uc_inflight p) ++ (reports (uc_log p)).*1);
  ui_settled : ∀ t1 n ev t2, uc_log p = t1 ++ UReported n ev :: t2 → ev_status ev = Status.kOk →
    settled t1 n ev;
  ui_out : (reports (uc_log p)).*2 = outs ++ uc_completions p
}.

(** Everything a call does short of posting and reporting: the history grows by
    UCX calls, the requests in flight stay the same ones. *)

Record quiet p (s : list UcxEvent) (p' : UcxProvider W) : Prop := {
  qu_log : uc_log p' = uc_log p ++ s;
  qu_reports : reports s = [];
  qu_pool : blank_pool (uc_pool p) →
    blank_pool (uc_pool p');
  qu_flight : Forall (flight_ok (uc_log p)) (uc_inflight p) →
    Forall (flight_ok (uc_log p')) (uc_inflight p');
  qu_serials : serials (uc_inflight p') = serials (uc_inflight p);
  qu_serial : uc_serial p' = uc_serial p;
  qu_completions : uc_completions p' = uc_completions p
}.

Lemma quiet_trans p s q s' r : quiet p s q → quiet q s' r → quiet p (s ++ s') r.
Proof.
  intros [E1 E2 E3 E4 E5 E6 E7] [F1 F2 F3 F4 F5 F6 F7]. split; try congruence; auto.
  - by rewrite F1, E1, <- app_assoc.
  - by rewrite reports_app, E2, F2.
Qed.

(** A history that grows without a report keeps every report settled. *)

Lemma app_cons_split {A} (l s t1 t2 : list A) x :
  l ++ s = t1 ++ x :: t2 → (∃ t, l = t1 ++ x :: t) ∨ x ∈ s.
Proof.
  revert t1. induction l as [|y l IH]; intros t1 E; cbn in E.
  - right. rewrite E. apply elem_of_app. right. by left.
  - destruct t1 as [|z t1]; cbn in E; injection E as -> E.
    + left. by exists l.
    + apply IH in E as [[t ->]|Hx]; [left; by exists t|by right].
Qed.

Lemma app_cons_last {A} (l t1 t2 : list A) x :
  l ++ [x] = t1 ++ x :: t2 → t1 = l ∨ ∃ t, l = t1 ++ x :: t.
Proof.
  revert t1. induction l as [|y l IH]; intros t1 E; cbn in E.
  - left. destruct t1 as [|z [|]]; cbn in E; [done|congruence..].
  - destruct t1 as [|z t1]; cbn in E; injection E as -> E.
    + right. by exists l.
    + apply IH in E as [->|[t ->]]; [by left|right; by exists t].
Qed.

Lemma reports_elem n ev s : UReported n ev ∈ s → (n, ev) ∈ reports s.
Proof. intros Hin. apply list_elem_of_omap. by exists (UReported n ev). Qed.

Lemma quiet_inv outs held p s p' : quiet p s p' → uinv outs held p → uinv outs held p'.
Proof.
  intros [E1 E2 E3 E4 E5 E6 E7] [I1 I2 I3 I4 I5 I6].
  assert (Er : reports (uc_log p') = reports (uc_log p)) by (by rewrite E1, reports_app, E2, app_nil_r).
  split; auto.
  - by rewrite E5, Er.
  - by rewrite E5, Er, E6.
  - rewrite E1. intros t1 n ev t2 E. apply app_cons_split in E as [[t E]|Hin]; [by eapply I5|].
    apply reports_elem in Hin. rewrite E2 in Hin. by apply elem_of_nil in Hin.
  - by rewrite Er, E7.
Qed.

(** Calls that touch nothing of this. *)

Lemma quiet_same p p' :
  uc_log p' = uc_log p → uc_pool p' = uc_pool p → uc_inflight p' = uc_inflight p →
  uc_serial p' = uc_serial p → uc_completions p' = uc_completions p → quiet p [] p'.
Proof. intros E1 E2 E3 E4 E5. split; rewrite ?E1, ?E2, ?E3, ?app_nil_r; auto. Qed.

Lemma quiet_note e p : report_of e = None → quiet p [e] (note e p).
Proof.
  intros E. split; try done.
  - unfold reports. cbn. by rewrite E.
  - intros Hf. eapply Forall_impl; [|exact Hf]. intros ru. apply flight_ok_app.
Qed.

Lemma worker_progress_quiet p :
  let '(q, cbs) := worker_progress p in quiet p (called <$> cbs) q.
Proof.
  unfold worker_progress. destruct (ucp_worker_progress _) as [w cbs]. split; try done.
  - apply reports_called.
  - intros Hf. cbn. apply list.Forall_fmap. eapply Forall_impl; [|exact Hf]. intros [r u]. apply on_done_flight.
  - unfold serials. cbn. rewrite <- list_fmap_compose. apply list_fmap_ext. intros _ [r u] _. cbn.
    apply on_done_same.
Qed.

(** ** Flushing *)

Lemma take_request_quiet r p : quiet p [] (fst (take_request r p)).
Proof.
  split; cbn; try done; [by rewrite app_nil_r|]. intros Hp. by apply map_Forall_delete.
Qed.

Lemma take_request_blank r p : blank_pool (uc_pool p) → snd (take_request r p) = blank_request.
Proof. intros Hp. cbn. destruct (uc_pool p !! r) as [u|] eqn:E; [exact (Hp r u E)|done]. Qed.

Lemma ucx_release_quiet r p : quiet p [] (ucx_release r p).
Proof.
  split; cbn; try done; [by rewrite app_nil_r|]. intros Hp. by apply map_Forall_insert_2.
Qed.

Lemma flush_wait_good n r u p q u' :
  flush_wait n r u p = (q, u') →
  ∃ s, quiet p s q
    ∧ ∀ v, u' = Some v → good v = bool_decide (uq_status v = Status.kOk)
      ∧ (good v = true → good u = true ∨ UCalled r true ∈ s).
Proof.
  assert (Hnow : ∀ u p, uq_done u = true → ∃ s, quiet p s p ∧ ∀ v, Some u = Some v →
    good v = bool_decide (uq_status v = Status.kOk) ∧ (good v = true → good u = true ∨ UCalled r true ∈ s)).
  { intros u1 p1 Ed. exists []. split; [by apply quiet_same|]. intros v [= <-].
    split; [unfold good; by rewrite Ed|by left]. }
  revert u p. induction n as [|n IH]; intros u p; cbn [flush_wait]; destruct (uq_done u) eqn:Ed;
    try (intros [= <- <-]; by apply Hnow).
  - intros [= <- <-]. exists []. split; [by apply quiet_same|done].
  - pose proof (worker_progress_quiet p) as Q. destruct (worker_progress p) as [p1 cbs].
    intros E. apply IH in E as (s & Q' & Hv). exists ((called <$> cbs) ++ s).
    split; [by eapply quiet_trans|]. intros v Ev. destruct (Hv v Ev) as [Hd Hg]. split; [done|].
    intros Hgv. rewrite elem_of_app. destruct (Hg Hgv) as [Hg'|]; [|auto].
    apply on_done_good in Hg' as [|]; auto.
Qed.

Lemma flush_locked_quiet c p q st :
  ucx_flush_locked c p = (q, st) → blank_pool (uc_pool p) →
  ∃ s, quiet p s q ∧ (st = Status.kOk → flushed_in s c).
Proof.
  unfold ucx_flush_locked. intros E Hb. destruct (uc_conns p !! c) as [k|].
  2: { injection E as <- <-. exists []. split; [by apply quiet_same|done]. }
  destruct (ucp_ep_flush_nbx _ _) as [w a].
  assert (Q : quiet p [UFlush c a] (note (UFlush c a) (ux_world w p))).
  { eapply (quiet_trans p [] (ux_world w p)); [by apply quiet_same|]. by apply (quiet_note _ (ux_world w p)). }
  assert (Hf : ∀ s, answered s a → flushed_in ([UFlush c a] ++ s) c) by (intros s Hs; by exists [], a, s).
  destruct a as [|e|r].
  - injection E as <- <-. eexists. split; [exact Q|]. intros _. apply (Hf []). by left.
  - injection E as <- <-. by eexists.
  - pose proof (take_request_quiet r (note (UFlush c (NbxPending r)) (ux_world w p))) as Q1.
    pose proof (take_request_blank r (note (UFlush c (NbxPending r)) (ux_world w p)) Hb) as Eu.
    destruct (take_request r _) as [p1 u]. cbn [fst snd] in *. subst u.
    destruct (flush_wait _ _ _ _) as [p2 u'] eqn:Ew. apply flush_wait_good in Ew as (s & Q2 & Hv).
    pose proof (quiet_trans _ _ _ _ _ (quiet_trans _ _ _ _ _ Q Q1) Q2) as Q3. rewrite app_nil_r in Q3.
    destruct u' as [v|]; injection E as <- <-; [|by eexists].
    exists ([UFlush c (NbxPending r)] ++ s). split.
    + pose proof (quiet_trans _ _ _ _ _ Q3 (ucx_release_quiet r p2)) as Q4. by rewrite app_nil_r in Q4.
    + intros Es. apply Hf. right. exists r. split; [done|].
      destruct (Hv v eq_refl) as [Hd Hg]. rewrite Es in Hd. by destruct (Hg Hd).
Qed.

Lemma flush_each_quiet fs d p q d' :
  flush_each fs d p = (q, d') → blank_pool (uc_pool p) →
  ∃ s, quiet p s q
    ∧ (∀ c, d' !! c = Some Status.kOk → d !! c = Some Status.kOk ∨ flushed_in s c)
    ∧ (∀ c, is_Some (d !! c) → is_Some (d' !! c))
    ∧ (∀ u, u ∈ fs → needs_flush u = true → is_Some (d' !! uq_conn u)).
Proof.
  revert d p. induction fs as [|u fs IH]; intros d p E Hb; cbn [flush_each] in E.
  - injection E as <- <-. exists []. split_and!; [by apply quiet_same|auto..|].
    intros u Hu. by apply elem_of_nil in Hu.
  - destruct (needs_flush u && _) eqn:En.
    + b2p. destruct (ucx_flush_locked _ _) as [p1 st] eqn:Ef.
      destruct (flush_locked_quiet _ _ _ _ Ef Hb) as (s1 & Q1 & Hs).
      destruct (IH _ _ E (qu_pool _ _ _ Q1 Hb)) as (s2 & Q2 & Hd & Hk & Hn).
      exists (s1 ++ s2). split_and!; [by eapply quiet_trans|..].
      * intros c Ec. destruct (Hd c Ec) as [Ec'|]; [|by right; apply flushed_in_prefix].
        apply lookup_insert_Some in Ec' as [[<- ->]|[_ ?]]; [|by left].
        right. by apply flushed_in_app, Hs.
      * intros c Hc. apply Hk. apply lookup_insert_is_Some. destruct (decide (uq_conn u = c)); auto.
      * intros v Hv Hf. apply elem_of_cons in Hv as [->|Hv]; [|by apply Hn].
        apply Hk. rewrite lookup_insert_eq. by eexists.
    + destruct (IH _ _ E Hb) as (s & Q & Hd & Hk & Hn). exists s. split_and!; [done..|].
      intros v Hv Hf. apply elem_of_cons in Hv as [->|Hv]; [|by apply Hn].
      apply Hk. rewrite Hf in En. cbn in En. destruct (d !! uq_conn u); [by eexists|done].
Qed.

(** ** Posting and reporting *)

Lemma uinv_held outs held held' p : held ≡ₚ held' → uinv outs held p → uinv outs held' p.
Proof.
  intros E [I1 I2 I3 I4 I5 I6]. split; auto.
  - by rewrite <- E.
  - by rewrite <- E.
Qed.

Lemma posted_inv outs held op c a p :
  uinv outs held p → uinv outs (uc_serial p :: held) (posted op c a p).
Proof.
  intros I. pose proof (quiet_inv _ _ _ _ _ (quiet_note (UPosted (uc_serial p) op c a) p eq_refl) I)
    as [I1 I2 I3 I4 I5 I6].
  split; try done; cbn [posted app].
  - apply NoDup_cons_2; [|done]. intros Hin. rewrite list.Forall_forall in I4.
    specialize (I4 _ Hin). cbn in I4. lia.
  - apply list.Forall_cons. split; [cbn; lia|]. eapply Forall_impl; [|exact I4]. cbn. intros n. lia.
Qed.

Lemma posted_open op c a p (b : bool) :
  (b = true → a = NbxDone) → open_post (uc_log (posted op c a p)) (uc_serial p) op c a b.
Proof. intros Hb. exists (uc_log p), []. split; [done|]. intros E. left. auto. Qed.

Lemma report_inv outs held n ev p :
  (ev_status ev = Status.kOk → settled (uc_log p) n ev) →
  uinv outs (n :: held) p → uinv outs held (report n ev p).
Proof.
  intros Hs [I1 I2 I3 I4 I5 I6].
  assert (Er : reports (uc_log (report n ev p)) = reports (uc_log p) ++ [(n, ev)]).
  { change (uc_log (report n ev p)) with (uc_log p ++ [UReported n ev]). by rewrite reports_app. }
  assert (Ep : n :: held ++ serials (uc_inflight p) ++ (reports (uc_log p)).*1
    ≡ₚ held ++ serials (uc_inflight p) ++ (reports (uc_log (report n ev p))).*1).
  { rewrite Er, fmap_app. cbn. rewrite !app_assoc. apply Permutation_cons_append. }
  split; try done; cbn [report note].
  - eapply Forall_impl; [|exact I2]. intros ru. apply flight_ok_app.
  - by rewrite <- Ep.
  - by rewrite <- Ep.
  - cbn. intros t1 m e t2 E Ho. apply app_cons_split in E as E'. destruct E' as [[t E']|Hin]; [by eapply I5|].
    apply list_elem_of_singleton in Hin. injection Hin as -> ->.
    apply app_cons_last in E as [->|[t E]]; [by apply Hs|by eapply I5].
  - rewrite Er, fmap_app, I6. cbn. by rewrite app_assoc.
Qed.

Lemma report_all_inv outs held l p :
  Forall (fun en => ev_status (fst en) = Status.kOk → settled (uc_log p) (snd en) (fst en)) l →
  uinv outs (l.*2 ++ held) p → uinv outs held (report_all l p).
Proof.
  unfold report_all. revert p. induction l as [|[ev n] l IH]; intros p Hs I; [done|].
  apply list.Forall_cons in Hs as [Hn Hs]. cbn [foldl fst snd] in *. apply IH.
  - eapply Forall_impl; [|exact Hs]. intros [e m] He Ho. apply settled_app. by apply He.
  - by apply report_inv.
Qed.

Lemma fly_inv outs held r u p :
  flight_ok (uc_log p) (r, u) → uinv outs (uq_serial u :: held) p →
  uinv outs held (ux_inflight (uc_inflight p ++ [(r, u)]) p).
Proof.
  intros Hf [I1 I2 I3 I4 I5 I6].
  assert (Ep : uq_serial u :: held ++ serials (uc_inflight p) ++ (reports (uc_log p)).*1
    ≡ₚ held ++ serials (uc_inflight p ++ [(r, u)]) ++ (reports (uc_log p)).*1).
  { unfold serials. rewrite fmap_app. cbn. rewrite Permutation_middle. f_equiv.
    rewrite <- app_assoc. cbn. by rewrite Permutation_middle. }
  split; try done; cbn.
  - apply list.Forall_app. by split; [|apply list.Forall_singleton].
  - by rewrite <- Ep.
  - by rewrite <- Ep.
Qed.

(** ** Submitting *)

Lemma rkey_for_quiet c key blob p : quiet p [] (fst (rkey_for c key blob p)).
Proof.
  unfold rkey_for. destruct (uc_conns p !! c) as [k|]; [|by apply quiet_same].
  destruct (uk_rkeys k !! key); [by apply quiet_same|].
  destruct (ucp_ep_rkey_unpack _ _ _) as [w [rkey|]]; by apply quiet_same.
Qed.

(** An inline write kept back until the flush. *)

Definition kept (t : list UcxEvent) (c : ConnId) (en : CompletionEvent * Z) : Prop :=
  ∃ op, open_post t (snd en) op c NbxDone true ∧ describes (fst en) op.

Lemma kept_app t t' c en : kept t c en → kept (t ++ t') c en.
Proof. intros (op & Ho & Hd). exists op. split; [by apply open_post_app|done]. Qed.

Lemma ucx_post_inv outs held c op p :
  uinv outs held p →
  let '(q, r) := ucx_post c op p in
  let ws := match r with inr ws => ws | inl _ => [] end in
  uinv outs (ws.*2 ++ held) q ∧ Forall (kept (uc_log q) c) ws ∧ ∃ s, uc_log q = uc_log p ++ s.
Proof.
  intros I. unfold ucx_post.
  destruct (uc_blobs p !! _) as [blob|].
  2: { split_and!; [done..|]. exists []. by rewrite app_nil_r. }
  pose proof (rkey_for_quiet c (op_remote_key op) blob p) as Q.
  destruct (rkey_for _ _ _ _) as [q k]. cbn [fst] in Q.
  pose proof (quiet_inv _ _ _ _ _ Q I) as J. pose proof (qu_log _ _ _ Q) as El. rewrite app_nil_r in El.
  clear Q I. rewrite <- El. clear El.
  destruct k as [[ep rkey]|].
  2: { split_and!; [done..|]. exists []. by rewrite app_nil_r. }
  destruct (nbx _ _ _ _) as [w a].
  assert (J' : uinv outs held (ux_world w q)) by (eapply quiet_inv; [|exact J]; by apply quiet_same).
  clear J. change (uc_log q) with (uc_log (ux_world w q)). revert J'. generalize (ux_world w q). clear q.
  intros q J. destruct a as [|e|r].
  - pose proof (posted_inv _ _ op c NbxDone _ J) as K.
    destruct (is_put op) eqn:Ep.
    + split_and!; [exact K| |by eexists]. apply list.Forall_singleton. exists op.
      split; [by apply posted_open|done].
    + split_and!; [|done|eexists; cbn; by rewrite <- app_assoc]. apply report_inv; [|exact K].
      intros _. rewrite <- (app_nil_r (uc_log _)).
      apply (open_post_settled _ _ _ op c NbxDone); [by apply posted_open|done|congruence].
  - split_and!; [done..|]. exists []. by rewrite app_nil_r.
  - pose proof (posted_inv _ _ op c (NbxPending r) _ J) as K.
    pose proof (take_request_blank r _ (ui_pool _ _ _ K)) as Eu.
    pose proof (quiet_inv _ _ _ _ _ (take_request_quiet r (posted op c (NbxPending r) q)) K) as K'.
    pose proof (posted_open op c (NbxPending r) q false) as Ho.
    assert (El : uc_log (fst (take_request r (posted op c (NbxPending r) q)))
                 = uc_log (posted op c (NbxPending r) q)) by done.
    destruct (take_request r _) as [q' u]. cbn [fst snd] in *. subst u.
    split_and!; [|done|cbn; rewrite El; by eexists].
    apply (fly_inv _ _ r (fill_request op c (uc_serial q) blank_request)); [|exact K'].
    exists op. rewrite El. split; [by apply Ho|done].
Qed.

Lemma post_loop_inv outs held c ops p :
  uinv outs held p →
  let '(q, ws, _, _) := ucx_post_loop c ops p in
  uinv outs (ws.*2 ++ held) q ∧ Forall (kept (uc_log q) c) ws ∧ ∃ s, uc_log q = uc_log p ++ s.
Proof.
  revert held p. induction ops as [|op ops IH]; intros held p I; cbn [ucx_post_loop].
  { split_and!; [done..|]. exists []. by rewrite app_nil_r. }
  pose proof (ucx_post_inv outs held c op p I) as F.
  destruct (ucx_post c op p) as [q [st|ws]]; [exact F|]. destruct F as (J & Hk & s & El).
  specialize (IH _ _ J). destruct (ucx_post_loop c ops q) as [[[q' ws'] n] st].
  destruct IH as (K & Hk' & s' & El'). split_and!.
  - eapply uinv_held; [|exact K]. rewrite fmap_app. by rewrite <- app_assoc, Permutation_app_swap_app.
  - apply list.Forall_app. split; [|done]. eapply Forall_impl; [|exact Hk]. intros en. rewrite El'. apply kept_app.
  - exists (s ++ s'). by rewrite El', El, app_assoc.
Qed.

Lemma kept_settled t s c fs en :
  kept t c en → (fs = Status.kOk → flushed_in s c) →
  fs = Status.kOk → settled (t ++ s) (snd en) (flushed_event fs (fst en)).
Proof.
  intros (op & Ho & Hd) Hf Ef. apply (open_post_settled _ _ _ op c NbxDone); [done|exact Hd|auto].
Qed.

Lemma ucx_submit_inv outs p c ops : uinv outs [] p → uinv outs [] (fst (ucx_submit p c ops)).
Proof.
  intros I. unfold ucx_submit. destruct (bool_decide _); [done|].
  pose proof (post_loop_inv outs [] c ops p I) as F.
  destruct (ucx_post_loop c ops p) as [[[q ws] n] [st errno]]. destruct F as (J & Hk & _).
  rewrite app_nil_r in J. cbn [fst]. case_bool_decide as Ew; [by subst ws|].
  destruct (ucx_flush_locked c q) as [q' fs] eqn:Ef.
  destruct (flush_locked_quiet _ _ _ _ Ef (ui_pool _ _ _ J)) as (s & Q & Hf).
  apply report_all_inv.
  - apply list.Forall_fmap. eapply Forall_impl; [|exact Hk]. intros en He.
    rewrite (qu_log _ _ _ Q). intros Eo. exact (kept_settled _ _ c fs en He Hf Eo).
  - rewrite app_nil_r, <- list_fmap_compose. by eapply quiet_inv.
Qed.

(** ** Polling *)

Lemma serials_split l : serials l ≡ₚ serials (finished l) ++ serials (unfinished l).
Proof.
  unfold serials, finished, unfinished. induction l as [|[r u] l IH]; [done|].
  rewrite !filter_cons. cbn [snd]. destruct (uq_done u); repeat case_decide; try done; cbn; rewrite IH;
    [done|apply Permutation_middle].
Qed.

Lemma ucx_release_all_quiet (l : list (Z * UcxRequest)) p :
  quiet p [] (foldl (fun p ru => ucx_release (fst ru) p) p l).
Proof.
  revert p. induction l as [|[r u] l IH]; intros p; [by apply quiet_same|].
  exact (quiet_trans _ _ _ _ _ (ucx_release_quiet r p) (IH _)).
Qed.

(** What the sweep takes off the queue. *)

Definition swept (t : list UcxEvent) (u : UcxRequest) : Prop :=
  uq_done u = true ∧ ∃ r, flight_ok t (r, u).

Lemma sweep_inv outs p q fs :
  sweep p = (q, fs) → uinv outs [] p →
  uinv outs (uq_serial <$> fs) q ∧ Forall (swept (uc_log q)) fs.
Proof.
  unfold sweep. intros E [I1 I2 I3 I4 I5 I6]. injection E as <- <-.
  set (l := uc_inflight p) in *.
  pose proof (ucx_release_all_quiet (finished l) (ux_inflight (unfinished l) p)) as Q.
  assert (Es : uq_serial <$> (finished l).*2 = serials (finished l)) by (by rewrite <- list_fmap_compose).
  assert (Ep : serials l ++ (reports (uc_log p)).*1
    ≡ₚ (uq_serial <$> (finished l).*2) ++ serials (unfinished l) ++ (reports (uc_log p)).*1).
  { by rewrite Es, app_assoc, <- serials_split. }
  split.
  - eapply quiet_inv; [exact Q|]. cbn in I3, I4. split; try done; cbn.
    + apply list.Forall_forall. intros ru [_ Hin]%list_elem_of_filter.
      rewrite list.Forall_forall in I2. by apply I2.
    + by rewrite <- Ep.
    + by rewrite <- Ep.
  - rewrite (qu_log _ _ _ Q), app_nil_r. apply list.Forall_fmap, list.Forall_forall.
    intros [r u] [Hd Hin]%list_elem_of_filter. split; [done|]. exists r.
    rewrite list.Forall_forall in I2. by apply I2.
Qed.

Lemma final_settled t s d u :
  swept t u → (∀ c, d !! c = Some Status.kOk → flushed_in s c) →
  (needs_flush u = true → is_Some (d !! uq_conn u)) →
  final_status d u = Status.kOk → settled (t ++ s) (uq_serial u) (fst (final_event d u)).
Proof.
  intros (Hd & r & op & Ho & Er & Es & Eb & Ew) Hf Hs E. cbn [fst snd] in *.
  assert (Eu : uq_status u = Status.kOk).
  { unfold final_status in E. destruct (needs_flush u) eqn:En; [|done].
    by apply andb_true_iff in En as [_ En%bool_decide_eq_true_1]. }
  eapply (open_post_settled _ _ _ op).
  - unfold good in Ho. rewrite Hd, Eu in Ho. exact Ho.
  - done.
  - intros Hp. apply Hf.
    assert (En : needs_flush u = true) by (unfold needs_flush; by rewrite Ew, Hp, Eu).
    unfold final_status in E. rewrite En in E. destruct (Hs En) as [st Ed]. rewrite Ed in *. by cbn in E; subst st.
Qed.

Lemma ucx_collect_inv outs p : uinv outs [] p → uinv outs [] (ucx_collect p).
Proof.
  intros I. unfold ucx_collect.
  pose proof (worker_progress_quiet p) as Q. destruct (worker_progress p) as [p1 cbs].
  apply (quiet_inv _ _ _ _ _ Q) in I. clear Q.
  destruct (sweep p1) as [p2 fs] eqn:E2. destruct (sweep_inv _ _ _ _ E2 I) as [J Hs].
  destruct (flush_each fs ∅ p2) as [p3 d] eqn:E3.
  destruct (flush_each_quiet _ _ _ _ _ E3 (ui_pool _ _ _ J)) as (s & Q & Hd & _ & Hn).
  apply report_all_inv.
  - apply list.Forall_fmap, list.Forall_forall. intros u Hu Eo. cbn in Eo.
    rewrite (qu_log _ _ _ Q). apply final_settled; auto.
    + rewrite list.Forall_forall in Hs. by apply Hs.
    + intros c Ec. destruct (Hd c Ec) as [Ec'|]; [by rewrite lookup_empty in Ec'|done].
  - rewrite app_nil_r, <- list_fmap_compose. eapply quiet_inv; [exact Q|exact J].
Qed.

Lemma ucx_poll_inv outs p n :
  uinv outs [] p → uinv (outs ++ snd (snd (ucx_poll p n))) [] (fst (ucx_poll p n)).
Proof.
  intros I. apply ucx_collect_inv in I as [I1 I2 I3 I4 I5 I6]. unfold ucx_poll.
  split; try done. cbn [fst snd]. etransitivity; [exact I6|]. cbn. by rewrite <- app_assoc, take_drop.
Qed.

(** ** Runs *)

Inductive ucx_steps : UcxProvider W → list CompletionEvent → UcxProvider W → Prop :=
| US_refl p : ucx_steps p [] p
| US_submit p outs q c ops : ucx_steps p outs q → ucx_steps p outs (fst (ucx_submit q c ops))
| US_poll p outs q n : ucx_steps p outs q →
    ucx_steps p (outs ++ snd (snd (ucx_poll q n))) (fst (ucx_poll q n))
| US_flush p outs q c : ucx_steps p outs q → ucx_steps p outs (fst (ucx_flush q c))
| US_register p outs q a l : ucx_steps p outs q → ucx_steps p outs (fst (ucx_register_region q a l))
| US_deregister p outs q k : ucx_steps p outs q → ucx_steps p outs (fst (ucx_deregister_region q k))
| US_connect p outs q m : ucx_steps p outs q → ucx_steps p outs (fst (ucx_connect q m))
| US_drop p outs q c : ucx_steps p outs q → ucx_steps p outs (ucx_destroy_conn c q).

Lemma ucx_flush_inv outs p c : uinv outs [] p → uinv outs [] (fst (ucx_flush p c)).
Proof.
  intros I. unfold ucx_flush. destruct (ucx_flush_locked c p) as [q st] eqn:E.
  destruct (flush_locked_quiet _ _ _ _ E (ui_pool _ _ _ I)) as (s & Q & _). by eapply quiet_inv.
Qed.

Lemma ucx_register_quiet p a l : quiet p [] (fst (ucx_register_region p a l)).
Proof.
  unfold ucx_register_region. destruct (_ || _); [by apply quiet_same|].
  destruct (ucp_mem_map _ _ _) as [w [m|]]; [|by apply quiet_same].
  destruct (ucp_rkey_pack _ _) as [w' [b|]]; by apply quiet_same.
Qed.

Lemma ucx_deregister_quiet p k : quiet p [] (fst (ucx_deregister_region p k)).
Proof.
  unfold ucx_deregister_region. destruct (uc_memories p !! k); [|by apply quiet_same].
  destruct (ucp_mem_unmap _ _); by apply quiet_same.
Qed.

Lemma ucx_connect_quiet p m : quiet p [] (fst (ucx_connect p m)).
Proof.
  unfold ucx_connect. destruct (bool_decide _); [by apply quiet_same|].
  destruct (ucp_ep_create _ _) as [w [e|]]; by apply quiet_same.
Qed.

Lemma ucx_drop_quiet c p : quiet p [] (ucx_destroy_conn c p).
Proof. unfold ucx_destroy_conn. destruct (uc_conns p !! c); by apply quiet_same. Qed.

Lemma ucx_steps_inv p outs q : ucx_steps p outs q → uinv [] [] p → uinv outs [] q.
Proof.
  induction 1; intros I; auto using ucx_submit_inv, ucx_poll_inv, ucx_flush_inv;
    (eapply quiet_inv;
      [|by auto]); auto using ucx_register_quiet, ucx_deregister_quiet, ucx_connect_quiet, ucx_drop_quiet.
Qed.

Lemma ucx_create_inv w p : snd (ucx_create w) = inr p → uinv [] [] p.
Proof.
  unfold ucx_create. destruct (ucp_config_read w) as [w1 [|]]; [|done]. cbn [negb].
  destruct (ucp_init w1) as [w2 [|]]; [|done]. cbn [negb].
  destruct (ucp_worker_create w2) as [w3 [|]]; [|done]. cbn [negb snd]. intros [= <-].
  split; cbn; try done; [constructor|intros [|] ? ? ?; cbn; congruence].
Qed.

Lemma reports_split t n ev : (n, ev) ∈ reports t → ∃ t1 t2, t = t1 ++ UReported n ev :: t2.
Proof.
  intros Hin. apply list_elem_of_omap in Hin as (e & He & Er). destruct e; try done.
  injection Er as -> ->. by apply list_elem_of_split.
Qed.

(** C33: In any run of a provider, a completion handed over as a success is the report of one sub-operation
    that it describes: UCX took it, and answered it or called it back with success, before it was
    reported; for a write, a flush of its connection was begun after that, and that flush was answered
    or called back with success, also before the report.  No sub-operation is reported twice, and the
    completions handed over followed by the ones still queued are the reports in their order. *)
Theorem ucx_reports_after_flush w p outs q :
  snd (ucx_create w) = inr p → ucx_steps p outs q →
  NoDup (reports (uc_log q)).*1
  ∧ (reports (uc_log q)).*2 = outs ++ uc_completions q
  ∧ ∀ ev, ev ∈ outs → ev_status ev = Status.kOk →
      ∃ n t1 t2, uc_log q = t1 ++ UReported n ev :: t2 ∧ settled t1 n ev.
Proof.
  intros Hp Hs. apply ucx_create_inv, (ucx_steps_inv _ _ _ Hs) in Hp as [I1 I2 I3 I4 I5 I6].
  split_and!; [|done|].
  - apply list.NoDup_app in I3 as (_ & _ & I3). by apply list.NoDup_app in I3 as (_ & _ & I3).
  - intros ev Hin Ho. assert (Hr : ev ∈ (reports (uc_log q)).*2) by (rewrite I6; apply elem_of_app; by left).
    apply list_elem_of_fmap in Hr as ([n e] & -> & Hr). apply reports_split in Hr as (t1 & t2 & El).
    exists n, t1, t2. split; [done|]. by eapply I5.
Qed.

End Safe.
