(* ===== verification/UcxSample.v ===== *)
(** * Runs of the UCX transport over a simulated fabric.

    [Fabric] answers short operations at once and calls the others back one per
    turn of the worker, handing the memory of freed requests out again; a packed
    key is the address of the memory it is for, and every put and get is kept with
    the key it went out with. *)

From stdpp Require Import base list gmap strings numbers.
From S2P Require Import Prelude Float64 Types Provider UcxProvider UcxLaws UcxSafe.

Record Fabric : Type := mkFabric {
  fb_pending : list Z;
  fb_free : list Z;
  fb_next : Z;
  fb_sent : list (Z * Z)
}.

Definition no_fabric : Fabric := mkFabric [] [] 100 [].

(** A request's memory: one that was freed if there is one. *)

Definition fb_take (w : Fabric) : Fabric * NbxResult :=
  match fb_free w with
  | r :: free => (mkFabric (fb_pending w ++ [r]) free (fb_next w) (fb_sent w), NbxPending r)
  | [] => (mkFabric (fb_pending w ++ [fb_next w]) [] (fb_next w + 1) (fb_sent w), NbxPending (fb_next w))
  end.

Definition fb_move (w : Fabric) (len raddr rkey : Z) : Fabric * NbxResult :=
  let w := mkFabric (fb_pending w) (fb_free w) (fb_next w) (fb_sent w ++ [(rkey, raddr)]) in
  if len <? 16 then (w, NbxDone) else fb_take w.

#[export] Instance fabric_ucx : Ucx Fabric := {
  ucp_config_read w := (w, true);
  ucp_init w := (w, true);
  ucp_cleanup w := w;
  ucp_worker_create w := (w, true);
  ucp_worker_destroy w := w;
  ucp_worker_address _ := Some [1; 2; 3];
  ucp_worker_progress w :=
    match fb_pending w with
    | [] => (w, [])
    | r :: rs => (mkFabric rs (fb_free w) (fb_next w) (fb_sent w), [(r, true)])
    end;
  ucp_mem_map w a _ := (w, Some a);
  ucp_mem_unmap w _ := (w, true);
  ucp_rkey_pack w m := (w, Some [m]);
  ucp_ep_create w _ := (w, Some 1);
  ucp_ep_rkey_unpack w _ blob := (w, head blob);
  ucp_rkey_destroy w _ := w;
  ucp_put_nbx w _ _ len raddr rkey := fb_move w len raddr rkey;
  ucp_get_nbx w _ _ len raddr rkey := fb_move w len raddr rkey;
  ucp_ep_flush_nbx w _ := fb_take w;
  ucp_request_free w r := mkFabric (fb_pending w) (fb_free w ++ [r]) (fb_next w) (fb_sent w);
  flush_turns w _ := length (fb_pending w)
}.

Definition fabric_start : UcxProvider Fabric := mkUcx no_fabric no_provider_stats ∅ ∅ 1 [] [] ∅ ∅ 0 [] 0.

Lemma fabric_creates : snd (ucx_create no_fabric) = inr fabric_start.
Proof. done. Qed.

(** A write of 4096 bytes, one of 8 and a read of 4096 against key 1. *)

Definition fabric_op (k : SubOpKind.t) (sub len : Z) : SubOp :=
  mkSubOp false 0 k 5 sub 8192 1 16384 1 len.

Definition fabric_ops : list SubOp :=
  [fabric_op SubOpKind.kWrite 0 4096; fabric_op SubOpKind.kWrite 1 8; fabric_op SubOpKind.kRead 2 4096].

Definition with_region : UcxProvider Fabric := fst (ucx_register_region fabric_start 4096 65536).

Definition with_peer : UcxProvider Fabric := fst (ucx_connect with_region [1; 2; 3]).

Definition with_work : UcxProvider Fabric := fst (ucx_submit with_peer 0 fabric_ops).

(** Submitting drives the worker until the flush of the short write is called back,
    and the other two with it.  The first poll flushes again, for the long write, in
    the memory the first flush gave back, and hands all three over; the second has
    nothing left. *)

Definition first_poll : UcxProvider Fabric * (Status.t * list CompletionEvent) := ucx_poll with_work 16.

Definition second_poll : UcxProvider Fabric * (Status.t * list CompletionEvent) := ucx_poll (fst first_poll) 16.

Definition both_polls : list CompletionEvent := ([] ++ snd (snd first_poll)) ++ snd (snd second_poll).

Lemma polls_steps : ucx_steps fabric_start both_polls (fst second_poll).
Proof.
  unfold both_polls, second_poll, first_poll, with_work, with_peer, with_region.
  apply US_poll, US_poll, US_submit, US_connect, US_register, US_refl.
Qed.

Lemma both_polls_are :
  both_polls = (fun i => mkCompletionEvent 5 (fst i) (snd i) Status.kOk 0 false) <$> [(1, 8); (0, 4096); (2, 4096)].
Proof. vm_compute. reflexivity. Qed.

(** The run of two polls, and its three completions. *)
Lemma ucx_reports_after_flush_witness :
  Forall (fun ev => ∃ n t1 t2, uc_log (fst second_poll) = t1 ++ UReported n ev :: t2 ∧ settled t1 n ev)
    both_polls.
Proof.
  apply list.Forall_forall. intros ev Hin. apply (ucx_reports_after_flush no_fabric fabric_start both_polls (fst second_poll)).
  - exact fabric_creates.
  - exact polls_steps.
  - exact Hin.
  - rewrite both_polls_are in Hin. apply list_elem_of_fmap in Hin as (i & -> & _). reflexivity.
Defined.

(** ** Whose key it is *)

(** A peer has registered the memory at [0x900000] and its key, 1, has come over; a
    write to it. *)

Definition peer_side : UcxProvider Fabric * (Status.t * Z * Z) := ucx_register_region fabric_start 9437184 65536.

Definition linked : UcxProvider Fabric := fst (ucx_connect fabric_start [1; 2; 3]).

Definition linked_with_own : UcxProvider Fabric := fst (ucx_register_region linked 4096 65536).

Definition to_peer : list SubOp := [mkSubOp false 0 SubOpKind.kWrite 5 0 8192 1 9437184 (snd (snd peer_side)) 4096].

(** The key a region's peer is given names it in the owner's table, and a write is looked up in the
    writer's: with nothing registered of its own the writer refuses a good key as not found, and once it
    has registered something the write goes out under the key of its own memory. *)
Theorem ucx_remote_key_is_own :
  snd (ucx_submit linked 0 to_peer) = mkSubmitResult 0 Status.kNotFound 0
  ∧ sr_accepted (snd (ucx_submit linked_with_own 0 to_peer)) = 1%nat
  ∧ fb_sent (uc_world (fst (ucx_submit linked_with_own 0 to_peer))) = [(4096, 9437184)].
Proof. vm_compute. repeat split. Qed.
