(* ===== verification/Device.v ===== *)
(** * The device backends ([src/device/{cuda,rocm,kunlun,neuware,musa,host}_backend.*]).

    A vendor runtime, as the calling thread sees it, is the world [W] and its calls
    the class [Runtime]; one class serves all vendors, since the backends use the
    same calls of each under other names.  What differs between the backends is in
    their definitions: which make the device current around their calls, which
    clear the error a failed call leaves behind, how each finds what to export.

    A backend's own state is its device and the table of mappings it shares
    between imports.  The calls of [DeviceBackend] are the [dev_] definitions, which
    dispatch on the vendor. *)

From stdpp Require Import base list gmap strings numbers sorting.
From S2P Require Import Prelude Types Provider IpcWire IpcProvider.

(** ** The runtime *)

Inductive MemType : Type := MemUnregistered | MemHost | MemDevice | MemManaged.

Inductive CopyKind : Type := CopyDefault | HostToHost | HostToDevice | DeviceToHost | DeviceToDevice.

Inductive EventAnswer : Type := EventDone | EventNotReady | EventFailed.

Inductive DeviceAttr : Type := AttrGpuDirect | AttrUnifiedAddressing.

(** [rt_handle_bytes] is the size of the runtime's handle type.  A call that fails
    answers [None] or [false].  [host_memcpy] is [std::memcpy]. *)

Class Runtime (W : Type) : Type := {
  rt_handle_bytes : nat;
  rt_device_count : W → W * option Z;
  rt_get_device : W → W * option Z;
  rt_set_device : W → Z → W * bool;
  rt_clear_error : W → W;
  rt_attribute : W → DeviceAttr → Z → W * option Z;
  rt_pointer : W → Z → W * option (MemType * Z);
  rt_event_create : W → W * option Z;
  rt_event_record : W → Z → Z → W * bool;
  rt_event_destroy : W → Z → W;
  rt_event_query : W → Z → W * EventAnswer;
  rt_stream_wait : W → Z → Z → W * bool;
  rt_memcpy : W → Z → Z → Z → CopyKind → W * bool;
  rt_sync : W → W * bool;
  rt_address_range : W → Z → W * option (Z * Z);
  rt_ipc_get : W → Z → W * option (list Z);
  rt_ipc_open : W → list Z → W * option Z;
  rt_ipc_close : W → Z → W * bool;
  rt_malloc : W → Z → W * option Z;
  rt_free : W → Z → W;
  host_memcpy : W → Z → Z → Z → W
}.

(** ** State *)

Record Import : Type := mkImport { imp_base : Z; imp_bytes : Z; imp_refs : Z }.

(** [bk_ipc_answer] is the ROCm backend's answer asked once. *)

Record Backend : Type := mkBackend {
  bk_device : Z;
  bk_by_handle : gmap (list Z) Import;
  bk_by_base : gmap Z (list Z);
  bk_ipc_answer : option bool
}.

Definition new_backend (index : Z) : Backend := mkBackend index ∅ ∅ None.

Record DeviceCaps : Type := mkDeviceCaps {
  dc_supports_stream : bool;
  dc_supports_graph_capture : bool;
  dc_supports_peer_registration : bool;
  dc_supports_dmabuf_export : bool;
  dc_supports_ipc : bool;
  dc_max_registration_bytes : Z;
  dc_max_total_registration_bytes : Z
}.

Record DeviceStream : Type := mkDeviceStream { st_native : Z; st_device : DeviceId }.

Record DeviceEvent : Type := mkDeviceEvent { de_native : Z; de_device : DeviceId; de_recorded : bool }.

Definition host_device : DeviceId := mkDeviceId DeviceKind.kHost 0.

Section Backends.
Context {W : Type} `{Runtime W}.

(** ** Common steps *)

Definition settled_by (sticky : bool) (good : bool) (w : W) : W * Status.t :=
  if good then (w, Status.kOk)
  else (if sticky then rt_clear_error w else w, Status.kDeviceError).

(** [DeviceGuard], constructed before [body] and destroyed after it. *)

Definition guarded {A} (want : Z) (body : W → W * A) (w : W) : W * A :=
  let '(w, got) := rt_get_device w in
  let '(w, prev) := match got with Some d => (w, d) | None => (rt_clear_error w, -1) end in
  if prev =? want then body w
  else
    let '(w, set) := rt_set_device w want in
    let w := if set : bool then w else rt_clear_error w in
    let '(w, a) := body w in
    (if set && (0 <=? prev) then fst (rt_set_device w prev) else w, a).

Definition scoped {A} (guards : bool) (want : Z) (body : W → W * A) (w : W) : W * A :=
  if guards then guarded want body w else body w.

(** ** Creating *)

(** The caller's device put back. *)

Definition create_guarded (index : Z) (w : W) : W * (Status.t + Backend) :=
  let '(w, count) := rt_device_count w in
  match count with
  | Some n =>
      if n <=? 0 then (rt_clear_error w, inl Status.kDeviceError)
      else if (index <? 0) || (n <=? index) then (w, inl Status.kInvalidArgument)
      else
        let '(w, got) := rt_get_device w in
        let '(w, prev) := match got with Some d => (w, d) | None => (rt_clear_error w, -1) end in
        let '(w, set) := rt_set_device w index in
        if negb set then (rt_clear_error w, inl Status.kDeviceError)
        else
          (if (0 <=? prev) && negb (prev =? index) then fst (rt_set_device w prev) else w,
           inr (new_backend index))
  | None => (rt_clear_error w, inl Status.kDeviceError)
  end.

(** The device left current. *)

Definition create_current (sticky : bool) (index : Z) (w : W) : W * (Status.t + Backend) :=
  let clear := fun w => if sticky then rt_clear_error w else w in
  let '(w, count) := rt_device_count w in
  match count with
  | Some n =>
      if n <=? 0 then (clear w, inl Status.kDeviceError)
      else if (index <? 0) || (n <=? index) then (w, inl Status.kInvalidArgument)
      else
        let '(w, set) := rt_set_device w index in
        if negb set then (clear w, inl Status.kDeviceError) else (w, inr (new_backend index))
  | None => (clear w, inl Status.kDeviceError)
  end.

Definition cuda_create : Z → W → W * (Status.t + Backend) := create_guarded.
Definition kunlun_create : Z → W → W * (Status.t + Backend) := create_guarded.
Definition rocm_create : Z → W → W * (Status.t + Backend) := create_current true.
Definition musa_create : Z → W → W * (Status.t + Backend) := create_current true.
Definition neuware_create : Z → W → W * (Status.t + Backend) := create_current false.

(** ** Capabilities *)

Definition attribute_set (a : DeviceAttr) (b : Backend) (w : W) : W * bool :=
  let '(w, v) := rt_attribute w a (bk_device b) in
  match v with
  | Some v => (w, negb (v =? 0))
  | None => (rt_clear_error w, false)
  end.

Definition cuda_caps (b : Backend) (w : W) : W * DeviceCaps :=
  let '(w, dmabuf) := attribute_set AttrGpuDirect b w in
  let '(w, ipc) := attribute_set AttrUnifiedAddressing b w in
  (w, mkDeviceCaps true false true dmabuf ipc 0 0).

(** [ipc_supported], asked of the driver when the attribute cannot answer. *)

Definition probe_ipc (b : Backend) (w : W) : W * bool :=
  let '(w, v) := rt_attribute w AttrUnifiedAddressing (bk_device b) in
  match v with
  | Some v => (w, negb (v =? 0))
  | None =>
      let w := rt_clear_error w in
      let '(w, probe) := rt_malloc w 4096 in
      match probe with
      | None => (rt_clear_error w, false)
      | Some probe =>
          let '(w, h) := rt_ipc_get w probe in
          let good := if h is Some _ then true else false in
          let w := if good then w else rt_clear_error w in
          (rt_free w probe, good)
      end
  end.

Definition rocm_ipc_supported (b : Backend) (w : W) : Backend * W * bool :=
  match bk_ipc_answer b with
  | Some good => (b, w, good)
  | None =>
      let '(w, good) := probe_ipc b w in
      (mkBackend (bk_device b) (bk_by_handle b) (bk_by_base b) (Some good), w, good)
  end.

Definition rocm_caps (b : Backend) (w : W) : Backend * W * DeviceCaps :=
  let '(b, w, ipc) := rocm_ipc_supported b w in (b, w, mkDeviceCaps true false true false ipc 0 0).

Definition kunlun_caps : DeviceCaps := mkDeviceCaps true false false false true 0 0.
Definition neuware_caps : DeviceCaps :=
  mkDeviceCaps true false true false true (Z.shiftl 256 20) (Z.shiftl 256 20).
Definition musa_caps : DeviceCaps := mkDeviceCaps true false false false false 0 0.
Definition host_caps : DeviceCaps := mkDeviceCaps false false true false false 0 0.

(** ** Whose memory a pointer is *)

Definition probe_with (sticky : bool) (classify : MemType → Z → DeviceId * MemoryKind.t) (ptr : Z) (w : W)
    : W * (Status.t * DeviceId * MemoryKind.t) :=
  if ptr =? 0 then (w, (Status.kInvalidArgument, host_device, MemoryKind.kHostPageable))
  else
    let '(w, attr) := rt_pointer w ptr in
    match attr with
    | None =>
        (if sticky then rt_clear_error w else w, (Status.kOk, host_device, MemoryKind.kHostPageable))
    | Some (t, d) => let '(dev, mem) := classify t d in (w, (Status.kOk, dev, mem))
    end.

Definition cuda_classify (t : MemType) (d : Z) : DeviceId * MemoryKind.t :=
  match t with
  | MemDevice => (mkDeviceId DeviceKind.kCuda d, MemoryKind.kDevice)
  | MemHost => (host_device, MemoryKind.kHostPinned)
  | MemManaged => (mkDeviceId DeviceKind.kCuda d, MemoryKind.kDevice)
  | MemUnregistered => (host_device, MemoryKind.kHostPageable)
  end.

Definition rocm_classify (t : MemType) (d : Z) : DeviceId * MemoryKind.t :=
  match t with
  | MemDevice => (mkDeviceId DeviceKind.kRocm d, MemoryKind.kDevice)
  | MemHost => (host_device, MemoryKind.kHostPinned)
  | _ => (host_device, MemoryKind.kHostPageable)
  end.

Definition kunlun_classify (t : MemType) (d : Z) : DeviceId * MemoryKind.t :=
  match t with
  | MemDevice => (mkDeviceId DeviceKind.kKunlun d, MemoryKind.kDevice)
  | _ => (host_device, MemoryKind.kHostPageable)
  end.

Definition neuware_classify (t : MemType) (d : Z) : DeviceId * MemoryKind.t :=
  match t with
  | MemDevice => (mkDeviceId DeviceKind.kCambricon d, MemoryKind.kDevice)
  | MemHost => (host_device, MemoryKind.kHostPinned)
  | _ => (host_device, MemoryKind.kHostPageable)
  end.

Definition musa_classify (t : MemType) (d : Z) : DeviceId * MemoryKind.t :=
  match t with
  | MemDevice | MemManaged => (mkDeviceId DeviceKind.kMoore d, MemoryKind.kDevice)
  | MemHost => (host_device, MemoryKind.kHostPinned)
  | MemUnregistered => (host_device, MemoryKind.kHostPageable)
  end.

Definition cuda_probe_pointer := probe_with true cuda_classify.
Definition rocm_probe_pointer := probe_with true rocm_classify.
Definition kunlun_probe_pointer := probe_with true kunlun_classify.
Definition neuware_probe_pointer := probe_with false neuware_classify.
Definition musa_probe_pointer := probe_with true musa_classify.

Definition host_probe_pointer (ptr : Z) : Status.t * DeviceId * MemoryKind.t :=
  (if ptr =? 0 then Status.kInvalidArgument else Status.kOk, host_device, MemoryKind.kHostPageable).

(** ** Streams and events *)

Definition import_stream_as (k : DeviceKind.t) (b : Backend) (native : Z) : DeviceStream :=
  mkDeviceStream native (mkDeviceId k (bk_device b)).

Definition cuda_import_stream := import_stream_as DeviceKind.kCuda.
Definition rocm_import_stream := import_stream_as DeviceKind.kRocm.
Definition kunlun_import_stream := import_stream_as DeviceKind.kKunlun.
Definition neuware_import_stream := import_stream_as DeviceKind.kCambricon.
Definition musa_import_stream := import_stream_as DeviceKind.kMoore.

Definition record_with (k : DeviceKind.t) (guards sticky : bool) (s : DeviceStream) (w : W)
    : W * (Status.t + DeviceEvent) :=
  if bool_decide (dev_kind (st_device s) ≠ k) then (w, inl Status.kInvalidArgument)
  else
    scoped guards (dev_index (st_device s)) (fun w =>
      let '(w, ev) := rt_event_create w in
      match ev with
      | None => (if sticky then rt_clear_error w else w, inl Status.kDeviceError)
      | Some ev =>
          let '(w, good) := rt_event_record w ev (st_native s) in
          if good : bool then (w, inr (mkDeviceEvent ev (st_device s) true))
          else
            let w := rt_event_destroy w ev in
            (if sticky then rt_clear_error w else w, inl Status.kDeviceError)
      end) w.

Definition cuda_record_event := record_with DeviceKind.kCuda true true.
Definition rocm_record_event := record_with DeviceKind.kRocm false true.
Definition kunlun_record_event := record_with DeviceKind.kKunlun true true.
Definition neuware_record_event := record_with DeviceKind.kCambricon false false.
Definition musa_record_event := record_with DeviceKind.kMoore false true.

(** [query], of every vendor's event. *)

Definition query_event (e : DeviceEvent) (w : W) : W * (Status.t * bool) :=
  if negb (de_recorded e) then (w, (Status.kInvalidArgument, false))
  else
    let '(w, a) := rt_event_query w (de_native e) in
    match a with
    | EventDone => (w, (Status.kOk, true))
    | EventNotReady => (w, (Status.kOk, false))
    | EventFailed => (w, (Status.kDeviceError, false))
    end.

Definition wait_with (sticky : bool) (s : DeviceStream) (e : DeviceEvent) (w : W) : W * Status.t :=
  if negb (de_recorded e) then (w, Status.kInvalidArgument)
  else let '(w, good) := rt_stream_wait w (st_native s) (de_native e) in settled_by sticky good w.

Definition cuda_stream_wait_event := wait_with true.
Definition rocm_stream_wait_event := wait_with true.
Definition kunlun_stream_wait_event := wait_with true.
Definition neuware_stream_wait_event := wait_with false.
Definition musa_stream_wait_event := wait_with true.

(** [make_visible]: nothing to do once the transport has seen the completion. *)

Definition visible_with (s : option DeviceStream) (addr bytes : Z) : Status.t :=
  if s is None then Status.kInvalidArgument else Status.kOk.

Definition cuda_make_visible := visible_with.
Definition rocm_make_visible := visible_with.
Definition kunlun_make_visible := visible_with.
Definition neuware_make_visible := visible_with.
Definition musa_make_visible := visible_with.

Definition host_make_visible (s : option DeviceStream) (addr bytes : Z) : Status.t := Status.kOk.

(** ** Copies *)

Definition settle_with (guards sticky : bool) (b : Backend) (w : W) : W * Status.t :=
  scoped guards (bk_device b) (fun w => let '(w, good) := rt_sync w in settled_by sticky good w) w.

Definition cuda_settle := settle_with true true.
Definition rocm_settle := settle_with false true.
Definition kunlun_settle := settle_with true true.
Definition neuware_settle := settle_with false false.

(** The direction a copy states: worked out from both addresses, or left to the
    runtime. *)

Definition on_device (ptr : Z) (w : W) : W * bool :=
  let '(w, attr) := rt_pointer w ptr in
  match attr with
  | None => (rt_clear_error w, false)
  | Some (t, _) => (w, match t with MemDevice => true | _ => false end)
  end.

Definition direction (dst src : Z) (w : W) : W * CopyKind :=
  let '(w, d) := on_device dst w in
  let '(w, s) := on_device src w in
  (w, if d && s then DeviceToDevice else if d then HostToDevice else if s then DeviceToHost else HostToHost).

Definition no_direction (dst src : Z) (w : W) : W * CopyKind := (w, CopyDefault).

(** [copy_nowait]; and [copy], which also waits, inside the scope of its guard. *)

Definition copy_with (guards sticky wait : bool) (dir : Z → Z → W → W * CopyKind) (b : Backend)
    (dst src bytes : Z) (w : W) : W * Status.t :=
  if (dst =? 0) || (src =? 0) then (w, Status.kInvalidArgument)
  else if bytes =? 0 then (w, Status.kOk)
  else
    scoped guards (bk_device b) (fun w =>
      let '(w, kind) := dir dst src w in
      let '(w, good) := rt_memcpy w dst src bytes kind in
      if (good : bool) && wait then settle_with guards sticky b w else settled_by sticky good w) w.

Definition cuda_copy := copy_with true true true no_direction.
Definition rocm_copy := copy_with false true true no_direction.
Definition kunlun_copy := copy_with true true true direction.
Definition neuware_copy := copy_with false false true no_direction.

Definition cuda_copy_nowait := copy_with true true false no_direction.
Definition rocm_copy_nowait := copy_with false true false no_direction.
Definition kunlun_copy_nowait := copy_with true true false direction.
Definition neuware_copy_nowait := copy_with false false false no_direction.

Definition host_copy (dst src bytes : Z) (w : W) : W * Status.t :=
  if (dst =? 0) || (src =? 0) then (w, Status.kInvalidArgument)
  else if bytes =? 0 then (w, Status.kOk)
  else (host_memcpy w dst src bytes, Status.kOk).

(** ** Naming memory to another process *)

Definition no_handle : IpcHandle := mkIpcHandle [] 0 0.

(** The allocation looked up, the span checked against it, and the allocation
    exported with the span's offset. *)

Definition export_from_range (guards sticky : bool) (b : Backend) (addr len : Z) (w : W)
    : W * (Status.t * IpcHandle) :=
  if (addr =? 0) || (len =? 0) then (w, (Status.kInvalidArgument, no_handle))
  else
    let '(w, range) := rt_address_range w addr in
    match range with
    | None => (if sticky then rt_clear_error w else w, (Status.kUnsupported, no_handle))
    | Some (base, allocated) =>
        let offset := wrap64 (addr - base) in
        if (allocated <? offset) || (allocated - offset <? len) then (w, (Status.kInvalidArgument, no_handle))
        else
          let '(w, h) := scoped guards (bk_device b) (fun w =>
            let '(w, h) := rt_ipc_get w base in
            (if h is None then rt_clear_error w else w, h)) w in
          match h with
          | None => (w, (Status.kUnsupported, no_handle))
          | Some h => (w, (Status.kOk, mkIpcHandle h offset allocated))
          end
    end.

Definition cuda_export_ipc := export_from_range true false.
Definition rocm_export_ipc := export_from_range false true.

Definition is_allocation_base (p : Z) (w : W) : W * bool :=
  let '(w, here) := rt_ipc_get w p in
  match here with
  | None => (rt_clear_error w, false)
  | Some here =>
      let '(w, before) := rt_ipc_get w (wrap64 (p - 1)) in
      let w := rt_clear_error w in
      match before with
      | None => (w, true)
      | Some before => (w, negb (bool_decide (here = before)))
      end
  end.

Definition kunlun_export_ipc (b : Backend) (addr len : Z) (w : W) : W * (Status.t * IpcHandle) :=
  if (addr =? 0) || (len =? 0) then (w, (Status.kInvalidArgument, no_handle))
  else
    guarded (bk_device b) (fun w =>
      let '(w, base) := is_allocation_base addr w in
      if negb base then (w, (Status.kUnsupported, no_handle))
      else
        let '(w, h) := rt_ipc_get w addr in
        match h with
        | None => (rt_clear_error w, (Status.kUnsupported, no_handle))
        | Some h => (w, (Status.kOk, mkIpcHandle h 0 len))
        end) w.

Definition neuware_export_ipc (addr len : Z) (w : W) : W * (Status.t * IpcHandle) :=
  if (addr =? 0) || (len =? 0) then (w, (Status.kInvalidArgument, no_handle))
  else
    let '(w, h) := rt_ipc_get w addr in
    match h with
    | None => (w, (Status.kUnsupported, no_handle))
    | Some h => (w, (Status.kOk, mkIpcHandle h 0 len))
    end.

(** ** Mapping another process's memory *)

Definition with_tables (by_handle : gmap (list Z) Import) (by_base : gmap Z (list Z)) (b : Backend) : Backend :=
  mkBackend (bk_device b) by_handle by_base (bk_ipc_answer b).

(** One mapping per allocation, shared by what is imported of it. *)

Definition import_shared (guards sticky : bool) (b : Backend) (h : IpcHandle) (w : W)
    : Backend * W * (Status.t * Z) :=
  match bk_by_handle b !! ih_bytes h with
  | Some im =>
      let im := mkImport (imp_base im) (imp_bytes im) (wrap64 (imp_refs im + 1)) in
      (with_tables (<[ih_bytes h := im]> (bk_by_handle b)) (bk_by_base b) b, w,
       (Status.kOk, wrap64 (imp_base im + ih_offset h)))
  | None =>
      let '(w, base) := scoped guards (bk_device b) (fun w =>
        let '(w, base) := rt_ipc_open w (ih_bytes h) in
        (if base is None then (if sticky then rt_clear_error w else w) else w, base)) w in
      match base with
      | None => (b, w, (Status.kDeviceError, 0))
      | Some base =>
          (with_tables (<[ih_bytes h := mkImport base (ih_allocation_bytes h) 1]> (bk_by_handle b))
             (<[base := ih_bytes h]> (bk_by_base b)) b, w,
           (Status.kOk, wrap64 (base + ih_offset h)))
      end
  end.

Definition import_spanning (guards : bool) (b : Backend) (h : IpcHandle) (w : W) : Backend * W * (Status.t * Z) :=
  if negb (bool_decide (length (ih_bytes h) = rt_handle_bytes)) then (b, w, (Status.kInvalidArgument, 0))
  else if ih_allocation_bytes h <? ih_offset h then (b, w, (Status.kInvalidArgument, 0))
  else import_shared guards true b h w.

Definition cuda_import_ipc := import_spanning true.
Definition rocm_import_ipc := import_spanning false.
Definition kunlun_import_ipc := import_spanning true.

Definition neuware_import_ipc (b : Backend) (h : IpcHandle) (w : W) : Backend * W * (Status.t * Z) :=
  if negb (bool_decide (length (ih_bytes h) = rt_handle_bytes)) then (b, w, (Status.kInvalidArgument, 0))
  else if negb (ih_offset h =? 0) then (b, w, (Status.kInvalidArgument, 0))
  else import_shared false false b h w.

(** [upper_bound] and the step back: the greatest base at or below [addr]. *)

Definition base_below (m : gmap Z (list Z)) (addr : Z) : option (Z * list Z) :=
  last (filter (fun kv => fst kv <= addr) (in_key_order m)).

Definition close_with (guards sticky : bool) (b : Backend) (addr : Z) (w : W) : Backend * W * Status.t :=
  if addr =? 0 then (b, w, Status.kInvalidArgument)
  else
    match base_below (bk_by_base b) addr with
    | None => (b, w, Status.kNotFound)
    | Some (first, key) =>
        match bk_by_handle b !! key with
        | None => (b, w, Status.kNotFound)
        | Some im =>
            if imp_bytes im <=? addr - first then (b, w, Status.kNotFound)
            else
              let refs := wrap64 (imp_refs im - 1) in
              if 0 <? refs then
                (with_tables (<[key := mkImport (imp_base im) (imp_bytes im) refs]> (bk_by_handle b))
                   (bk_by_base b) b, w, Status.kOk)
              else
                let b := with_tables (delete key (bk_by_handle b)) (delete first (bk_by_base b)) b in
                let '(w, st) := scoped guards (bk_device b) (fun w =>
                  let '(w, good) := rt_ipc_close w (imp_base im) in settled_by sticky good w) w in
                (b, w, st)
        end
    end.

Definition cuda_close_ipc := close_with true true.
Definition rocm_close_ipc := close_with false true.
Definition kunlun_close_ipc := close_with true true.
Definition neuware_close_ipc := close_with false false.

(** ** [DeviceBackend] *)

Inductive Vendor : Type := Cuda | Rocm | Kunlun | Neuware | Musa | Host.

Definition dev_settle_of (v : Vendor) (b : Backend) (w : W) : W * Status.t :=
  match v with
  | Cuda => cuda_settle b w
  | Rocm => rocm_settle b w
  | Kunlun => kunlun_settle b w
  | Neuware => neuware_settle b w
  | Musa | Host => (w, Status.kOk)
  end.

Definition dev_copy (v : Vendor) (b : Backend) (dst src bytes : Z) (w : W) : W * Status.t :=
  match v with
  | Cuda => cuda_copy b dst src bytes w
  | Rocm => rocm_copy b dst src bytes w
  | Kunlun => kunlun_copy b dst src bytes w
  | Neuware => neuware_copy b dst src bytes w
  | Musa => (w, Status.kUnsupported)
  | Host => host_copy dst src bytes w
  end.

Definition dev_copy_nowait (v : Vendor) (b : Backend) (dst src bytes : Z) (w : W) : W * Status.t :=
  match v with
  | Cuda => cuda_copy_nowait b dst src bytes w
  | Rocm => rocm_copy_nowait b dst src bytes w
  | Kunlun => kunlun_copy_nowait b dst src bytes w
  | Neuware => neuware_copy_nowait b dst src bytes w
  | Musa | Host => dev_copy v b dst src bytes w
  end.

Definition dev_export_ipc (v : Vendor) (b : Backend) (addr len : Z) (w : W) : W * (Status.t * IpcHandle) :=
  match v with
  | Cuda => cuda_export_ipc b addr len w
  | Rocm => rocm_export_ipc b addr len w
  | Kunlun => kunlun_export_ipc b addr len w
  | Neuware => neuware_export_ipc addr len w
  | Musa | Host => (w, (Status.kUnsupported, no_handle))
  end.

Definition dev_import_ipc (v : Vendor) (b : Backend) (h : IpcHandle) (w : W) : Backend * W * (Status.t * Z) :=
  match v with
  | Cuda => cuda_import_ipc b h w
  | Rocm => rocm_import_ipc b h w
  | Kunlun => kunlun_import_ipc b h w
  | Neuware => neuware_import_ipc b h w
  | Musa | Host => (b, w, (Status.kUnsupported, 0))
  end.

Definition dev_close_ipc (v : Vendor) (b : Backend) (addr : Z) (w : W) : Backend * W * Status.t :=
  match v with
  | Cuda => cuda_close_ipc b addr w
  | Rocm => rocm_close_ipc b addr w
  | Kunlun => kunlun_close_ipc b addr w
  | Neuware => neuware_close_ipc b addr w
  | Musa | Host => (b, w, Status.kUnsupported)
  end.

(** What the same-host transport asks of a device. *)

Record Device : Type := mkDevice { dv_vendor : Vendor; dv_backend : Backend; dv_world : W }.

Definition on_world {A} (d : Device) (r : W * A) : Device * A :=
  (mkDevice (dv_vendor d) (dv_backend d) (fst r), snd r).

Definition on_tables {A} (d : Device) (r : Backend * W * A) : Device * A :=
  (mkDevice (dv_vendor d) (fst (fst r)) (snd (fst r)), snd r).

#[export] Instance backend_ipc_device : IpcDevice Device := {
  export_ipc d a n := on_world d (dev_export_ipc (dv_vendor d) (dv_backend d) a n (dv_world d));
  import_ipc d h := on_tables d (dev_import_ipc (dv_vendor d) (dv_backend d) h (dv_world d));
  close_ipc d a := on_tables d (dev_close_ipc (dv_vendor d) (dv_backend d) a (dv_world d));
  copy_nowait d dst src n :=
    on_world d (dev_copy_nowait (dv_vendor d) (dv_backend d) dst src n (dv_world d));
  dev_settle d := on_world d (dev_settle_of (dv_vendor d) (dv_backend d) (dv_world d))
}.

End Backends.

#[global] Arguments Device : clear implicits.
