(* ===== verification/DeviceSafe.v ===== *)
(** * What the device backends promise the transports.

    Copies: under a runtime whose current device belongs to the calling thread, a
    backend that guards its calls waits in [settle] for every copy it started, from
    whatever thread.  Mappings: every import of an allocation shares one mapping,
    which is released with the last of them and never before.  Addresses: what an
    importer is given is the span the exporter named. *)

From stdpp Require Import base list gmap strings numbers sorting.
From S2P Require Import Prelude Types Provider IpcWire IpcProvider Device.

Section Steering.
Context {W : Type} `{Runtime W}.

Create HintDb steer.

(** ** What a guard does to the runtime *)

Inductive steers : W → W → Prop :=
| SteerRefl w : steers w w
| SteerGet w w' : steers w w' → steers w (fst (rt_get_device w'))
| SteerSet w w' d : steers w w' → steers w (fst (rt_set_device w' d))
| SteerClear w w' : steers w w' → steers w (rt_clear_error w').

#[local] Hint Constructors steers : steer.

Lemma steers_keeps {A} (obs : W → A) :
  (∀ w, obs (fst (rt_get_device w)) = obs w) → (∀ w d, obs (fst (rt_set_device w d)) = obs w) →
  (∀ w, obs (rt_clear_error w) = obs w) →
  ∀ w w', steers w w' → obs w' = obs w.
Proof. intros Hg Hs Hc w w'. induction 1; congruence. Qed.

(** The body is run from a world that differs by the guard's own calls, and so
    does what the guard leaves. *)

Lemma guarded_run {A} want (body : W → W * A) w :
  ∃ w1, steers w w1 ∧ snd (guarded want body w) = snd (body w1)
    ∧ steers (fst (body w1)) (fst (guarded want body w)).
Proof.
  unfold guarded. pose proof (SteerGet w w (SteerRefl w)) as H1.
  destruct (rt_get_device w) as [w0 got]. cbn [fst] in H1.
  assert (H2 : ∃ w1 prev, match got with Some d => (w0, d) | None => (rt_clear_error w0, -1) end = (w1, prev)
    ∧ steers w w1) by (destruct got; do 2 eexists; split; [done| |done|]; eauto with steer).
  destruct H2 as (w1 & prev & -> & H2). destruct (prev =? want).
  { exists w1. split_and!; eauto with steer. }
  pose proof (SteerSet w w1 want H2) as H3. destruct (rt_set_device w1 want) as [w2 set]. cbn [fst] in H3.
  exists (if set then w2 else rt_clear_error w2). split; [destruct set; eauto with steer|].
  destruct (body _) as [w3 a]. cbn [fst snd]. split; [done|]. destruct (set && _); eauto with steer.
Qed.

Lemma scoped_run {A} guards want (body : W → W * A) w :
  ∃ w1, steers w w1 ∧ snd (scoped guards want body w) = snd (body w1)
    ∧ steers (fst (body w1)) (fst (scoped guards want body w)).
Proof. destruct guards; [apply guarded_run|]. exists w. split_and!; eauto with steer. Qed.

(** ** Copies and the threads that make them *)

(** [current w] is the device current on the calling thread; [pending w] the copies
    started on each device's default stream that have not landed.  A copy is
    started on the current device's stream, and [rt_sync] waits for that stream. *)

Class ThreadLaws : Type := {
  current : W → Z;
  pending : W → gmap Z (list (Z * Z));
  usable : Z → Prop;
  usable_index d : usable d → 0 <= d;
  get_pending w : pending (fst (rt_get_device w)) = pending w;
  get_current w : current (fst (rt_get_device w)) = current w;
  get_tells w d : snd (rt_get_device w) = Some d → d = current w;
  set_pending w d : pending (fst (rt_set_device w d)) = pending w;
  set_moves w d : usable d →
    snd (rt_set_device w d) = true ∧ current (fst (rt_set_device w d)) = d;
  clear_pending w : pending (rt_clear_error w) = pending w;
  clear_current w : current (rt_clear_error w) = current w;
  pointer_pending w a : pending (fst (rt_pointer w a)) = pending w;
  pointer_current w a : current (fst (rt_pointer w a)) = current w;
  memcpy_current w d s n k : current (fst (rt_memcpy w d s n k)) = current w;
  memcpy_starts w d s n k :
    delete (current w) (pending (fst (rt_memcpy w d s n k))) = delete (current w) (pending w);
  memcpy_pending w d s n k : snd (rt_memcpy w d s n k) = true →
    pending (fst (rt_memcpy w d s n k)) !! current w =
    Some (default [] (pending w !! current w) ++ [(d, n)]);
  sync_current w : current (fst (rt_sync w)) = current w;
  sync_starts w : delete (current w) (pending (fst (rt_sync w))) = delete (current w) (pending w);
  sync_waits w : snd (rt_sync w) = true → pending (fst (rt_sync w)) !! current w = None
}.

Context `{!ThreadLaws}.

Lemma steers_pending w w' : steers w w' → pending w' = pending w.
Proof. apply steers_keeps; [apply get_pending|apply set_pending|apply clear_pending]. Qed.

(** A guard over a usable device runs its body on that device. *)

Lemma guarded_current {A} want (body : W → W * A) w :
  usable want →
  ∃ w1, current w1 = want ∧ pending w1 = pending w ∧ snd (guarded want body w) = snd (body w1)
    ∧ pending (fst (guarded want body w)) = pending (fst (body w1)).
Proof.
  intros Hu. unfold guarded.
  pose proof (get_pending w) as P0. pose proof (get_current w) as C0. pose proof (get_tells w) as T0.
  destruct (rt_get_device w) as [w0 got]. cbn [fst snd] in *.
  assert (E : ∃ w1 prev, match got with Some d => (w0, d) | None => (rt_clear_error w0, -1) end = (w1, prev)
    ∧ pending w1 = pending w ∧ (current w1 = prev ∨ prev = -1)).
  { destruct got as [d|]; do 2 eexists; (split; [done|]); rewrite ?clear_pending; split; auto.
    left. by rewrite C0, (T0 d). }
  destruct E as (w1 & prev & -> & P1 & C1). pose proof (usable_index want Hu) as Hi.
  destruct (Z.eqb_spec prev want) as [->|].
  { exists w1. destruct C1 as [C1| ->]; [done|lia]. }
  pose proof (set_pending w1 want) as P2. destruct (set_moves w1 want Hu) as [S2 C2].
  destruct (rt_set_device w1 want) as [w2 set]. cbn [fst snd] in *. subst set.
  exists w2. split_and!; [done|congruence|..]; destruct (body w2) as [w3 a]; cbn [fst snd].
  - done.
  - destruct (true && _); [apply set_pending|done].
Qed.

(** The caller's device is current again afterwards. *)

Lemma guarded_restores {A} want (body : W → W * A) w :
  usable want → usable (current w) → snd (rt_get_device w) = Some (current w) →
  (∀ w, current (fst (body w)) = current w) →
  current (fst (guarded want body w)) = current w.
Proof.
  intros Hu Hc Hg Hb. unfold guarded. pose proof (get_current w) as C0.
  destruct (rt_get_device w) as [w0 got]. cbn [fst snd] in *. subst got.
  destruct (Z.eqb_spec (current w) want) as [E|]; [by rewrite Hb|].
  destruct (set_moves w0 want Hu) as [S2 C2]. destruct (rt_set_device w0 want) as [w2 set].
  cbn [fst snd] in *. subst set. destruct (body w2) as [w3 a]. cbn [fst].
  pose proof (usable_index _ Hc). rewrite (proj2 (Z.leb_le _ _)) by done. cbn [andb].
  by apply set_moves.
Qed.

(** ** Backends that guard their calls *)

Definition guards (v : Vendor) : bool := match v with Cuda | Kunlun => true | _ => false end.

Definition other_streams (d : Z) (w : W) : gmap Z (list (Z * Z)) := delete d (pending w).

Lemma on_device_quiet a w :
  pending (fst (on_device a w)) = pending w ∧ current (fst (on_device a w)) = current w.
Proof.
  unfold on_device. pose proof (pointer_pending w a) as P. pose proof (pointer_current w a) as C.
  destruct (rt_pointer w a) as [w1 [[t d]|]]; cbn [fst] in *; [done|]. by rewrite clear_pending, clear_current.
Qed.

Definition quiet_direction (dir : Z → Z → W → W * CopyKind) : Prop :=
  ∀ dst src w, pending (fst (dir dst src w)) = pending w ∧ current (fst (dir dst src w)) = current w.

Lemma direction_quiet : quiet_direction direction.
Proof.
  intros dst src w. unfold direction. destruct (on_device_quiet dst w) as [P1 C1].
  destruct (on_device dst w) as [w1 d]. cbn [fst] in *. destruct (on_device_quiet src w1) as [P2 C2].
  destruct (on_device src w1) as [w2 s]. cbn [fst] in *. split; congruence.
Qed.

Lemma settled_by_pending sticky good w : pending (fst (settled_by sticky good w)) = pending w.
Proof. unfold settled_by. destruct good, sticky; cbn [fst]; by rewrite ?clear_pending. Qed.

Lemma copy_nowait_stays sticky dir b dst src n w :
  usable (bk_device b) → quiet_direction dir →
  other_streams (bk_device b) (fst (copy_with true sticky false dir b dst src n w))
  = other_streams (bk_device b) w.
Proof.
  intros Hu Hd. unfold copy_with. destruct (_ || _); [done|]. destruct (n =? 0); [done|].
  cbn [scoped]. match goal with |- context [guarded _ ?f w] => set (body := f) end.
  destruct (guarded_current (bk_device b) body w Hu) as (w1 & C1 & P1 & _ & P2).
  unfold other_streams. rewrite P2, <- P1. unfold body.
  destruct (Hd dst src w1) as [P3 C3]. destruct (dir dst src w1) as [w2 k]. cbn [fst] in *.
  pose proof (memcpy_starts w2 dst src n k) as P4. destruct (rt_memcpy w2 dst src n k) as [w3 good].
  cbn [fst] in *. rewrite andb_false_r, settled_by_pending. by rewrite C3, C1, P3 in P4.
Qed.

Lemma settle_waits sticky b w w' :
  usable (bk_device b) → settle_with true sticky b w = (w', Status.kOk) →
  pending w' !! bk_device b = None ∧ other_streams (bk_device b) w' = other_streams (bk_device b) w.
Proof.
  intros Hu E. unfold settle_with in E. cbn [scoped] in E.
  match type of E with guarded _ ?f w = _ => set (body := f) in E end.
  destruct (guarded_current (bk_device b) body w Hu) as (w1 & C1 & P1 & S & P2).
  rewrite E in S, P2. cbn [fst snd] in *. unfold body in S, P2.
  pose proof (sync_waits w1) as Hw. pose proof (sync_starts w1) as Hs.
  destruct (rt_sync w1) as [w2 good]. cbn [fst snd] in *. rewrite settled_by_pending in P2.
  unfold settled_by in S. destruct good; [|done].
  unfold other_streams. rewrite P2, <- P1, <- C1. auto.
Qed.

(** Copies started without waiting, from any thread: between them the runtime may
    do anything that starts or lands none. *)

Inductive copies (v : Vendor) (b : Backend) : W → W → Prop :=
| CopiesRefl w : copies v b w w
| CopiesNowait w w' dst src n : copies v b w w' →
    copies v b w (fst (dev_copy_nowait v b dst src n w'))
| CopiesThread w w' w'' : copies v b w w' → pending w'' = pending w' → copies v b w w''.

Lemma copies_stay v b w w' :
  guards v = true → usable (bk_device b) → copies v b w w' →
  other_streams (bk_device b) w' = other_streams (bk_device b) w.
Proof.
  intros Hv Hu. induction 1 as [|w w' dst src n _ IH|w w' w'' _ IH E]; [done|..].
  - rewrite <- IH. destruct v; try done; apply copy_nowait_stays; auto using direction_quiet. by intros ???.
  - rewrite <- IH. unfold other_streams. by rewrite E.
Qed.

(** C36: However many copies a guarding backend starts without waiting, on whatever threads, once its
    [settle] answers [kOk], called from any thread, none of them is still on its way: they were all
    started on the backend's own device and nothing started there is pending.  What others started on
    other devices is as it was. *)
Theorem device_settle_covers v b w w1 w2 :
  guards v = true → usable (bk_device b) → copies v b w w1 →
  dev_settle_of v b w1 = (w2, Status.kOk) →
  pending w2 !! bk_device b = None
  ∧ other_streams (bk_device b) w2 = other_streams (bk_device b) w.
Proof.
  intros Hv Hu Hc E. rewrite <- (copies_stay v b w w1) by done.
  destruct v; try done; exact (settle_waits _ _ _ _ Hu E).
Qed.

End Steering.
