(* ===== verification/DeviceImports.v ===== *)
(** * Mappings shared between imports.

    A run is any sequence of imports and releases by one backend, with the runtime
    free to do anything else in between that closes nothing.  The ledger lists the
    imports made and not released, each with the address it was given and the
    handle it is of; the backend's tables are shown to agree with it. *)

From stdpp Require Import base list gmap strings numbers sorting.
From S2P Require Import Prelude Types Provider IpcWire IpcProvider Device DeviceSafe.

(** ** The table searched by address *)

Lemma in_key_order_sorted {A} (m : gmap Z A) : StronglySorted key_le (in_key_order m).
Proof.
  apply StronglySorted_merge_sort; [|intros [x ?] [y ?]; unfold key_le; cbn; lia].
  intros [x ?] [y ?] [z ?]. unfold key_le. cbn. lia.
Qed.

Lemma sorted_last_greatest {A} (l : list (Z * A)) x :
  StronglySorted key_le l → last l = Some x → ∀ y, y ∈ l → fst y <= fst x.
Proof.
  induction l as [|z l IH]; intros Hs Hl y Hy; [done|]. apply StronglySorted_inv in Hs as [Hs Hz].
  destruct l as [|z' l].
  - injection Hl as ->. apply list_elem_of_singleton in Hy as ->. lia.
  - change (last (z' :: l) = Some x) in Hl. apply elem_of_cons in Hy as [->|Hy]; [|by apply IH].
    rewrite list.Forall_forall in Hz. apply (Hz x). by apply last_Some_elem_of.
Qed.

Lemma sorted_filter {A} (P : Z * A → Prop) `{∀ x, Decision (P x)} (l : list (Z * A)) :
  StronglySorted key_le l → StronglySorted key_le (filter P l).
Proof.
  induction 1 as [|x l Hs IH Hx]; [constructor|]. rewrite filter_cons. case_decide; [|done].
  constructor; [done|]. rewrite list.Forall_forall in *. intros y Hy.
  apply list_elem_of_filter in Hy as [_ Hy]. by apply Hx.
Qed.

Lemma base_below_spec m addr b k :
  base_below m addr = Some (b, k) →
  m !! b = Some k ∧ b <= addr ∧ ∀ b' k', m !! b' = Some k' → b' <= addr → b' <= b.
Proof.
  unfold base_below. intros E. pose proof (last_Some_elem_of _ _ E) as Hin.
  apply list_elem_of_filter in Hin as [Hb Hin]. apply in_key_order_elem in Hin.
  split_and!; [done..|]. intros b' k' E' Hb'.
  refine (sorted_last_greatest _ _ _ E (b', k') _).
  - apply sorted_filter, in_key_order_sorted.
  - apply list_elem_of_filter. split; [done|]. by apply in_key_order_elem.
Qed.

Lemma base_below_exists m addr b k : m !! b = Some k → b <= addr → is_Some (base_below m addr).
Proof.
  intros E Hb. unfold base_below. apply last_is_Some. intros En.
  assert (Hin : (b, k) ∈ filter (fun kv => fst kv <= addr) (in_key_order m)).
  { apply list_elem_of_filter. split; [done|]. by apply in_key_order_elem. }
  rewrite En in Hin. by apply elem_of_nil in Hin.
Qed.

Section Imports.
Context {W : Type} `{Runtime W}.

(** ** What the runtime maps *)

(** [mapped w] are the mappings open in this process, by base address, and
    [handle_size h] the size of the allocation [h] names.  Mappings lie apart. *)

Class MapLaws : Type := {
  mapped : W → gmap Z (list Z);
  handle_size : list Z → Z;
  get_mapped w : mapped (fst (rt_get_device w)) = mapped w;
  set_mapped w d : mapped (fst (rt_set_device w d)) = mapped w;
  clear_mapped w : mapped (rt_clear_error w) = mapped w;
  map_placed w b h : mapped w !! b = Some h → 0 < b ∧ 0 < handle_size h ∧ b + handle_size h <= 2 ^ 64;
  map_apart w b h b' h' : mapped w !! b = Some h → mapped w !! b' = Some h' → b < b' →
    b + handle_size h <= b';
  open_maps w h b : snd (rt_ipc_open w h) = Some b →
    mapped w !! b = None ∧ mapped (fst (rt_ipc_open w h)) = <[b := h]> (mapped w);
  open_fails w h : snd (rt_ipc_open w h) = None → mapped (fst (rt_ipc_open w h)) = mapped w;
  close_unmaps w b : snd (rt_ipc_close w b) = true → mapped (fst (rt_ipc_close w b)) = delete b (mapped w);
  close_fails w b : snd (rt_ipc_close w b) = false → mapped (fst (rt_ipc_close w b)) = mapped w
}.

Context `{!MapLaws}.

Lemma steers_mapped w w' : steers w w' → mapped w' = mapped w.
Proof. apply steers_keeps; [apply get_mapped|apply set_mapped|apply clear_mapped]. Qed.

(** Opening and closing, through whatever guard. *)

Lemma scoped_open guards sticky d h w :
  let '(w', base) := scoped guards d (fun w =>
    let '(w, base) := rt_ipc_open w h in
    (if base is None then (if sticky : bool then rt_clear_error w else w) else w, base)) w in
  match base with
  | Some b => mapped w !! b = None ∧ mapped w' = <[b := h]> (mapped w)
  | None => mapped w' = mapped w
  end.
Proof.
  match goal with |- context [scoped _ _ ?f w] => destruct (scoped_run guards d f w) as (w1 & S1 & E & S2) end.
  apply steers_mapped in S1, S2. destruct (scoped _ _ _ w) as [w' base]. cbn [fst snd] in *.
  pose proof (open_maps w1 h) as Ho. pose proof (open_fails w1 h) as Hf.
  destruct (rt_ipc_open w1 h) as [w2 [b|]]; cbn [fst snd] in *; subst base; rewrite S2, <- S1.
  - by apply Ho.
  - rewrite <- Hf by done. destruct sticky; [apply clear_mapped|done].
Qed.

Lemma scoped_close guards sticky d b w :
  let '(w', st) := scoped guards d (fun w =>
    let '(w, good) := rt_ipc_close w b in settled_by sticky good w) w in
  st = Status.kOk ∧ mapped w' = delete b (mapped w) ∨ st = Status.kDeviceError ∧ mapped w' = mapped w.
Proof.
  match goal with |- context [scoped _ _ ?f w] => destruct (scoped_run guards d f w) as (w1 & S1 & E & S2) end.
  apply steers_mapped in S1, S2. destruct (scoped _ _ _ w) as [w' st]. cbn [fst snd] in *.
  pose proof (close_unmaps w1 b) as Ho. pose proof (close_fails w1 b) as Hf.
  destruct (rt_ipc_close w1 b) as [w2 [|]]; cbn [fst snd settled_by] in *; subst st; rewrite S2, <- S1.
  - left. auto.
  - right. split; [done|]. rewrite <- Hf by done. destruct sticky; [apply clear_mapped|done].
Qed.

(** ** Runs *)

(** A handle as a backend of the vendor makes it: the size and offset of the
    allocation, or only a base and a length within it. *)

Definition honest (v : Vendor) (h : IpcHandle) : Prop :=
  match v with
  | Cuda | Rocm =>
      ih_allocation_bytes h = handle_size (ih_bytes h) ∧ 0 <= ih_offset h < ih_allocation_bytes h
  | Kunlun | Neuware => ih_offset h = 0 ∧ 0 < ih_allocation_bytes h <= handle_size (ih_bytes h)
  | Musa | Host => False
  end.

Definition held_imports (k : list Z) (l : list (Z * list Z)) : Z := Z.of_nat (length (filter (fun e => snd e = k) l)).

Definition enter (r : Status.t * Z) (k : list Z) (l : list (Z * list Z)) : list (Z * list Z) :=
  if bool_decide (fst r = Status.kOk) then (snd r, k) :: l else l.

Inductive imports (v : Vendor) : Backend → W → list (Z * list Z) → Prop :=
| ImportsNone index w : imports v (new_backend index) w []
| ImportsOpen b w l h : imports v b w l → honest v h → Z.of_nat (length l) + 1 < 2 ^ 64 →
    let r := dev_import_ipc v b h w in
    imports v (fst (fst r)) (snd (fst r)) (enter (snd r) (ih_bytes h) l)
| ImportsClose b w l1 a k l2 : imports v b w (l1 ++ (a, k) :: l2) →
    let r := dev_close_ipc v b a w in imports v (fst (fst r)) (snd (fst r)) (l1 ++ l2)
| ImportsElse b w w' l : imports v b w l → mapped w ⊆ mapped w' → imports v b w' l.

(** ** The tables agree with the ledger *)

Record tables_ok (v : Vendor) (b : Backend) (w : W) (l : list (Z * list Z)) : Prop := {
  to_rec k im : bk_by_handle b !! k = Some im →
    imp_refs im = held_imports k l ∧ mapped w !! imp_base im = Some k
    ∧ bk_by_base b !! imp_base im = Some k ∧ 0 < imp_bytes im <= handle_size k
    ∧ (v = Cuda ∨ v = Rocm → imp_bytes im = handle_size k);
  to_base base k : bk_by_base b !! base = Some k →
    ∃ im, bk_by_handle b !! k = Some im ∧ imp_base im = base;
  to_held a k : (a, k) ∈ l → ∃ im, bk_by_handle b !! k = Some im ∧ imp_base im <= a < imp_base im + imp_bytes im;
  to_used k im : bk_by_handle b !! k = Some im → 0 < imp_refs im ∧ v ≠ Musa ∧ v ≠ Host;
  to_few : Z.of_nat (length l) < 2 ^ 64
}.

Lemma held_imports_cons k a k' l :
  held_imports k ((a, k') :: l) = (if decide (k' = k) then 1 else 0) + held_imports k l.
Proof. unfold held_imports. rewrite filter_cons. cbn [snd]. destruct (decide (k' = k)); cbn [length]; lia. Qed.

Lemma held_imports_mid k a k' l1 l2 :
  held_imports k (l1 ++ (a, k') :: l2) = (if decide (k' = k) then 1 else 0) + held_imports k (l1 ++ l2).
Proof.
  unfold held_imports. rewrite !list.filter_app, !length_app, filter_cons. cbn [snd].
  destruct (decide (k' = k)); cbn [length]; lia.
Qed.

Lemma held_imports_bounds k l : 0 <= held_imports k l <= Z.of_nat (length l).
Proof. unfold held_imports. pose proof (length_filter (fun e => snd e = k) l). lia. Qed.

Lemma held_imports_pos a k l : (a, k) ∈ l → 0 < held_imports k l.
Proof.
  intros Hin. unfold held_imports.
  assert (Hf : (a, k) ∈ filter (fun e => snd e = k) l) by (by apply list_elem_of_filter).
  destruct (filter _ l); [by apply elem_of_nil in Hf|]. cbn [length]. lia.
Qed.

Lemma held_none v b w l k : tables_ok v b w l → bk_by_handle b !! k = None → held_imports k l = 0.
Proof.
  intros T E. unfold held_imports. destruct (filter _ l) as [|[a k'] f] eqn:Ef; [done|].
  assert (Hin : (a, k') ∈ filter (fun e => snd e = k) l) by (rewrite Ef; by left).
  apply list_elem_of_filter in Hin as [Ek Hin]. cbn in Ek. subst k'.
  apply (to_held _ _ _ _ T) in Hin as (im & E' & _). congruence.
Qed.

(** ** Importing *)

Lemma import_cases v b h w :
  honest v h →
  (∃ st, dev_import_ipc v b h w = (b, w, (st, 0)) ∧ st ≠ Status.kOk)
  ∨ ∃ guards sticky, dev_import_ipc v b h w = import_shared guards sticky b h w.
Proof.
  intros Hh. destruct v; try done; cbn [dev_import_ipc];
    unfold cuda_import_ipc, rocm_import_ipc, kunlun_import_ipc, neuware_import_ipc, import_spanning;
    destruct (negb (bool_decide _)); try (left; by eexists);
    match goal with |- context [if ?c then _ else _] => destruct c end;
    solve [left; by eexists | right; by do 2 eexists].
Qed.

Lemma honest_bytes v h : honest v h →
  0 < ih_allocation_bytes h <= handle_size (ih_bytes h) ∧ 0 <= ih_offset h < ih_allocation_bytes h
  ∧ (v = Cuda ∨ v = Rocm → ih_allocation_bytes h = handle_size (ih_bytes h)) ∧ v ≠ Musa ∧ v ≠ Host
  ∧ (ih_offset h ≠ 0 → v = Cuda ∨ v = Rocm).
Proof. destruct v; cbn; try done; intros ?; split_and!; solve [done | lia | tauto | by intros [|] | auto]. Qed.

(** Another import of an allocation that is mapped. *)

Lemma import_again v b w l h im :
  tables_ok v b w l → honest v h → Z.of_nat (length l) + 1 < 2 ^ 64 →
  bk_by_handle b !! ih_bytes h = Some im →
  tables_ok v
    (with_tables (<[ih_bytes h := mkImport (imp_base im) (imp_bytes im) (wrap64 (imp_refs im + 1))]>
       (bk_by_handle b)) (bk_by_base b) b) w
    ((wrap64 (imp_base im + ih_offset h), ih_bytes h) :: l).
Proof.
  intros T Hh Hl E. destruct (honest_bytes _ _ Hh) as (Hb & Ho & He & Hv1 & Hv2 & Hz).
  destruct (to_rec _ _ _ _ T _ _ E) as (Er & Em & Ebb & Hby & Hex).
  pose proof (to_used _ _ _ _ T _ _ E) as [Hu _].
  destruct (map_placed _ _ _ Em) as (Hp & _ & Hq). pose proof (held_imports_bounds (ih_bytes h) l) as Hc.
  assert (Hoff : ih_offset h < imp_bytes im).
  { destruct (decide (ih_offset h = 0)) as [|Hn]; [lia|]. rewrite (Hex (Hz Hn)). lia. }
  rewrite (wrapw_id 64 (imp_refs im + 1)) by (unfold uw; lia).
  rewrite (wrapw_id 64 (imp_base im + ih_offset h)) by (unfold uw; lia).
  split; cbn [with_tables bk_by_handle bk_by_base].
  - intros k im' E'. rewrite held_imports_cons. apply lookup_insert_Some in E' as [[<- <-]|[Hn E']]; cbn.
    + rewrite decide_True by done. split_and!; auto; lia.
    + rewrite decide_False by done. apply (to_rec _ _ _ _ T) in E' as (-> & ?). split; [lia|done].
  - intros base k E'. apply (to_base _ _ _ _ T) in E' as (im' & E' & Eb').
    destruct (decide (ih_bytes h = k)) as [<-|].
    + eexists. rewrite lookup_insert_eq. split; [done|]. cbn. congruence.
    + exists im'. by rewrite lookup_insert_ne.
  - intros a k Hin. apply elem_of_cons in Hin as [[= -> ->]|Hin].
    + eexists. rewrite lookup_insert_eq. split; [done|]. cbn. lia.
    + apply (to_held _ _ _ _ T) in Hin as (im' & E' & Ha). destruct (decide (ih_bytes h = k)) as [<-|].
      * eexists. rewrite lookup_insert_eq. split; [done|]. cbn. congruence.
      * exists im'. by rewrite lookup_insert_ne.
  - intros k im' E'. apply lookup_insert_Some in E' as [[<- <-]|[Hn E']]; [cbn; split; [lia|done]|].
    by apply (to_used _ _ _ _ T) in E'.
  - cbn [length]. lia.
Qed.

(** The first import of an allocation. *)

Lemma import_first v b w w' l h base :
  tables_ok v b w l → honest v h → Z.of_nat (length l) + 1 < 2 ^ 64 →
  bk_by_handle b !! ih_bytes h = None →
  mapped w !! base = None → mapped w' = <[base := ih_bytes h]> (mapped w) →
  tables_ok v
    (with_tables (<[ih_bytes h := mkImport base (ih_allocation_bytes h) 1]> (bk_by_handle b))
       (<[base := ih_bytes h]> (bk_by_base b)) b) w'
    ((wrap64 (base + ih_offset h), ih_bytes h) :: l).
Proof.
  intros T Hh Hl E Ef Em. destruct (honest_bytes _ _ Hh) as (Hb & Ho & He & Hv1 & Hv2 & Hz).
  assert (Em' : mapped w' !! base = Some (ih_bytes h)) by (by rewrite Em, lookup_insert_eq).
  destruct (map_placed _ _ _ Em') as (Hp & _ & Hq).
  rewrite (wrapw_id 64 (base + ih_offset h)) by (unfold uw; lia).
  assert (Hother : ∀ k im, bk_by_handle b !! k = Some im → imp_base im ≠ base).
  { intros k im E' <-. apply (to_rec _ _ _ _ T) in E' as (_ & E' & _). congruence. }
  split; cbn [with_tables bk_by_handle bk_by_base].
  - intros k im' E'. rewrite held_imports_cons. apply lookup_insert_Some in E' as [[<- <-]|[Hn E']]; cbn.
    + rewrite decide_True, (held_none _ _ _ _ _ T E) by done. rewrite lookup_insert_eq. split_and!; auto; lia.
    + rewrite decide_False by done. pose proof (Hother _ _ E') as Hb'.
      apply (to_rec _ _ _ _ T) in E' as (-> & ? & ? & ?).
      rewrite Em, !lookup_insert_ne by congruence. split; [lia|done].
  - intros base' k E'. apply lookup_insert_Some in E' as [[<- <-]|[Hn E']].
    + eexists. by rewrite lookup_insert_eq.
    + apply (to_base _ _ _ _ T) in E' as (im' & E' & Eb'). exists im'.
      rewrite lookup_insert_ne by congruence. done.
  - intros a k Hin. apply elem_of_cons in Hin as [[= -> ->]|Hin].
    + eexists. rewrite lookup_insert_eq. split; [done|]. cbn. lia.
    + apply (to_held _ _ _ _ T) in Hin as (im' & E' & Ha). exists im'.
      rewrite lookup_insert_ne by congruence. done.
  - intros k im' E'. apply lookup_insert_Some in E' as [[<- <-]|[Hn E']]; [cbn; split; [lia|done]|].
    by apply (to_used _ _ _ _ T) in E'.
  - cbn [length]. lia.
Qed.

Lemma tables_ok_mapped v b w w' l : mapped w ⊆ mapped w' → tables_ok v b w l → tables_ok v b w' l.
Proof.
  intros Hm [T1 T2 T3 T4 T5]. split; auto. intros k im E. apply T1 in E as (? & ? & ?).
  split_and!; [done| |tauto..]. by eapply lookup_weaken.
Qed.

Lemma import_ok v b w l h :
  tables_ok v b w l → honest v h → Z.of_nat (length l) + 1 < 2 ^ 64 →
  let r := dev_import_ipc v b h w in
  tables_ok v (fst (fst r)) (snd (fst r)) (enter (snd r) (ih_bytes h) l).
Proof.
  intros T Hh Hl. cbn zeta. destruct (import_cases v b h w Hh) as [(st & -> & Hst)|(g & s & ->)].
  { unfold enter. by rewrite bool_decide_eq_false_2. }
  unfold import_shared. destruct (bk_by_handle b !! ih_bytes h) as [im|] eqn:E.
  { cbn [fst snd]. unfold enter. rewrite bool_decide_eq_true_2 by done. by apply import_again. }
  pose proof (scoped_open g s (bk_device b) (ih_bytes h) w) as Ho.
  destruct (scoped _ _ _ w) as [w' [base|]]; cbn [fst snd]; unfold enter.
  - rewrite bool_decide_eq_true_2 by done. destruct Ho as [H1 H2]. by apply (import_first v b w).
  - rewrite bool_decide_eq_false_2 by done. eapply tables_ok_mapped; [|done]. by rewrite Ho.
Qed.

(** ** Releasing *)

(** The mapping an address is found in is the one it was given from. *)

Lemma base_below_held v b w l a k im :
  tables_ok v b w l → bk_by_handle b !! k = Some im →
  imp_base im <= a < imp_base im + imp_bytes im →
  base_below (bk_by_base b) a = Some (imp_base im, k).
Proof.
  intros T E Ha. destruct (to_rec _ _ _ _ T _ _ E) as (_ & Em & Eb & Hby & _).
  destruct (base_below_exists _ a _ _ Eb) as [[b' k'] E']; [lia|]. rewrite E'.
  apply base_below_spec in E' as (E1 & H1 & Hmax). specialize (Hmax _ _ Eb). destruct Ha as [Ha1 Ha2].
  specialize (Hmax Ha1). destruct (decide (b' = imp_base im)) as [->|Hn]; [congruence|].
  destruct (to_base _ _ _ _ T _ _ E1) as (im' & E2 & <-).
  destruct (to_rec _ _ _ _ T _ _ E2) as (_ & Em' & _).
  pose proof (map_apart _ _ _ _ _ Em Em'). lia.
Qed.

Lemma close_cases v b a w : v ≠ Musa → v ≠ Host →
  ∃ guards sticky, dev_close_ipc v b a w = close_with guards sticky b a w.
Proof. intros ??. destruct v; try done; by do 2 eexists. Qed.

(** What a release does, in terms of what is still held. *)

Lemma close_held v b w l1 a k l2 :
  tables_ok v b w (l1 ++ (a, k) :: l2) →
  ∃ im, bk_by_handle b !! k = Some im ∧
    let r := dev_close_ipc v b a w in
    if 0 <? held_imports k (l1 ++ l2) then
      r = (with_tables (<[k := mkImport (imp_base im) (imp_bytes im) (imp_refs im - 1)]> (bk_by_handle b))
             (bk_by_base b) b, w, Status.kOk)
    else
      fst (fst r) = with_tables (delete k (bk_by_handle b)) (delete (imp_base im) (bk_by_base b)) b
      ∧ (snd r = Status.kOk ∧ mapped (snd (fst r)) = delete (imp_base im) (mapped w)
         ∨ snd r = Status.kDeviceError ∧ mapped (snd (fst r)) = mapped w).
Proof.
  intros T. assert (Hin : (a, k) ∈ l1 ++ (a, k) :: l2) by (apply elem_of_app; right; by left).
  destruct (to_held _ _ _ _ T _ _ Hin) as (im & E & Ha). exists im. split; [done|]. cbn zeta.
  destruct (to_used _ _ _ _ T _ _ E) as (Hu & Hv1 & Hv2).
  destruct (to_rec _ _ _ _ T _ _ E) as (Er & Em & _). destruct (map_placed _ _ _ Em) as (Hp & _ & _).
  pose proof (held_imports_bounds k (l1 ++ (a, k) :: l2)) as Hc. pose proof (to_few _ _ _ _ T) as Hl.
  destruct (close_cases v b a w Hv1 Hv2) as (g & s & ->). unfold close_with.
  rewrite (proj2 (Z.eqb_neq a 0)) by lia. rewrite (base_below_held _ _ _ _ _ _ _ T E Ha), E.
  rewrite (proj2 (Z.leb_gt _ _)) by lia. rewrite wrapw_id by (unfold uw; lia).
  assert (Ec : imp_refs im - 1 = held_imports k (l1 ++ l2)).
  { rewrite Er, held_imports_mid, decide_True by done. lia. }
  rewrite Ec. destruct (0 <? held_imports k (l1 ++ l2)); [done|].
  pose proof (scoped_close g s (bk_device (with_tables (delete k (bk_by_handle b))
    (delete (imp_base im) (bk_by_base b)) b)) (imp_base im) w) as Hs.
  destruct (scoped _ _ _ w) as [w' st]. done.
Qed.

Lemma close_ok v b w l1 a k l2 :
  tables_ok v b w (l1 ++ (a, k) :: l2) →
  let r := dev_close_ipc v b a w in tables_ok v (fst (fst r)) (snd (fst r)) (l1 ++ l2).
Proof.
  intros T. destruct (close_held _ _ _ _ _ _ _ T) as (im & E & Hr). cbn zeta in *.
  assert (Hsub : ∀ a' k', (a', k') ∈ l1 ++ l2 → (a', k') ∈ l1 ++ (a, k) :: l2)
    by (intros a' k'; rewrite !elem_of_app, elem_of_cons; tauto).
  assert (Hlen : Z.of_nat (length (l1 ++ l2)) < 2 ^ 64).
  { pose proof (to_few _ _ _ _ T). rewrite length_app in *. cbn [length] in *. lia. }
  destruct (to_rec _ _ _ _ T _ _ E) as (Er & Hrec). rewrite held_imports_mid, decide_True in Er by done.
  destruct (dev_close_ipc v b a w) as [[b' w'] st]. cbn [fst snd] in *.
  destruct (Z.ltb_spec 0 (held_imports k (l1 ++ l2))) as [Hpos|Hz].
  - apply pair_equal_spec in Hr as [[-> ->]%pair_equal_spec _].
    split; cbn [with_tables bk_by_handle bk_by_base]; [..|done].
    + intros k' im' E'. apply lookup_insert_Some in E' as [[<- <-]|[Hn E']].
      * cbn. split; [lia|exact Hrec].
      * apply (to_rec _ _ _ _ T) in E' as (-> & ?). rewrite held_imports_mid, decide_False by done.
        split; [lia|done].
    + intros base k' E'. apply (to_base _ _ _ _ T) in E' as (im' & E' & Eb).
      destruct (decide (k = k')) as [<-|]; [|exists im'; by rewrite lookup_insert_ne].
      eexists. rewrite lookup_insert_eq. split; [done|]. cbn. congruence.
    + intros a' k' Hin. apply Hsub, (to_held _ _ _ _ T) in Hin as (im' & E' & Ha).
      destruct (decide (k = k')) as [<-|]; [|exists im'; by rewrite lookup_insert_ne].
      eexists. rewrite lookup_insert_eq. split; [done|]. cbn. congruence.
    + intros k' im' E'. apply lookup_insert_Some in E' as [[<- <-]|[Hn E']];
        [|by apply (to_used _ _ _ _ T) in E'].
      apply (to_used _ _ _ _ T) in E as [_ ?]. cbn. split; [lia|done].
  - destruct Hr as [-> Hm].
    assert (Hm' : ∀ c, c ≠ imp_base im → mapped w' !! c = mapped w !! c).
    { intros c Hc. destruct Hm as [[_ ->]|[_ ->]]; [by rewrite lookup_delete_ne|done]. }
    split; cbn [with_tables bk_by_handle bk_by_base]; [..|done].
    + intros k' im' E'. apply lookup_delete_Some in E' as [Hn E'].
      apply (to_rec _ _ _ _ T) in E' as (-> & Em' & Eb' & ?).
      rewrite held_imports_mid, decide_False by done.
      assert (imp_base im' ≠ imp_base im) by (destruct Hrec as (_ & ? & _); congruence).
      rewrite lookup_delete_ne, Hm' by done. split; [lia|done].
    + intros base k' E'. apply lookup_delete_Some in E' as [Hn E'].
      apply (to_base _ _ _ _ T) in E' as (im' & E' & Eb). exists im'. rewrite lookup_delete_ne; [done|congruence].
    + intros a' k' Hin. pose proof (held_imports_pos _ _ _ Hin).
      apply Hsub, (to_held _ _ _ _ T) in Hin as (im' & E' & Ha). exists im'.
      rewrite lookup_delete_ne; [done|]. intros <-. lia.
    + intros k' im' E'. apply lookup_delete_Some in E' as [Hn E']. by apply (to_used _ _ _ _ T) in E'.
Qed.

Lemma close_outside v b w l a :
  tables_ok v b w l →
  (∀ k im, bk_by_handle b !! k = Some im → ¬ imp_base im <= a < imp_base im + imp_bytes im) →
  ∃ st, dev_close_ipc v b a w = (b, w, st) ∧ st ≠ Status.kOk.
Proof.
  intros T Ha. assert (Hc : ∀ g s, ∃ st, close_with g s b a w = (b, w, st) ∧ st ≠ Status.kOk).
  { intros g s. unfold close_with. destruct (a =? 0); [by eexists|].
    destruct (base_below _ a) as [[first k]|] eqn:E; [|by eexists].
    apply base_below_spec in E as (E & Hf & _). destruct (to_base _ _ _ _ T _ _ E) as (im & Ei & <-).
    rewrite Ei. specialize (Ha _ _ Ei). rewrite (proj2 (Z.leb_le _ _)) by lia. by eexists. }
  destruct v; cbn [dev_close_ipc]; try apply Hc; by eexists.
Qed.

Lemma imports_tables v b w l : imports v b w l → tables_ok v b w l.
Proof.
  induction 1 as [index w|b w l h _ IH Hh Hl|b w l1 a k l2 _ IH|b w w' l _ IH Hm].
  - split; cbn; try done; try (intros ??; by rewrite lookup_empty). intros ?? Hin. by apply elem_of_nil in Hin.
  - by apply import_ok.
  - exact (close_ok _ _ _ _ _ _ _ IH).
  - by eapply tables_ok_mapped.
Qed.

(** C34: Whatever is imported and released, and in whatever order: a handle is in the table exactly while an
    import of it is held, with one mapping and as many references as imports held; every address an
    import was given lies in that mapping; releasing one succeeds at finding it, keeps the mapping while
    another import is held, and closes exactly that mapping with the last; and an address outside every
    mapping in the table is refused with nothing changed. *)
Theorem device_imports_paired v b w l :
  imports v b w l →
  (∀ k, match bk_by_handle b !! k with
        | Some im => imp_refs im = held_imports k l ∧ 0 < imp_refs im ∧ mapped w !! imp_base im = Some k
        | None => held_imports k l = 0
        end)
  ∧ (∀ l1 a k l2, l = l1 ++ (a, k) :: l2 →
      ∃ im, bk_by_handle b !! k = Some im
        ∧ imp_base im <= a < imp_base im + handle_size k
        ∧ let '(_, w', st) := dev_close_ipc v b a w in
          if 0 <? held_imports k (l1 ++ l2) then st = Status.kOk ∧ w' = w
          else st = Status.kOk ∧ mapped w' = delete (imp_base im) (mapped w)
               ∨ st = Status.kDeviceError ∧ mapped w' = mapped w)
  ∧ ∀ a, (∀ k im, bk_by_handle b !! k = Some im → ¬ imp_base im <= a < imp_base im + imp_bytes im) →
      ∃ st, dev_close_ipc v b a w = (b, w, st) ∧ st ≠ Status.kOk.
Proof.
  intros Hr. apply imports_tables in Hr as T. split_and!.
  - intros k. destruct (bk_by_handle b !! k) as [im|] eqn:E; [|by eapply held_none].
    destruct (to_rec _ _ _ _ T _ _ E) as (? & ? & _). by destruct (to_used _ _ _ _ T _ _ E) as [? _].
  - intros l1 a k l2 ->. destruct (close_held _ _ _ _ _ _ _ T) as (im & E & Hc). exists im. split; [done|].
    assert (Hin : (a, k) ∈ l1 ++ (a, k) :: l2) by (apply elem_of_app; right; by left).
    destruct (to_held _ _ _ _ T _ _ Hin) as (im' & E' & Ha). replace im' with im in Ha by congruence.
    destruct (to_rec _ _ _ _ T _ _ E) as (_ & _ & _ & Hb & _). split; [lia|].
    destruct (dev_close_ipc v b a w) as [[b' w'] st]. cbn [fst snd] in Hc.
    destruct (0 <? _); [|by destruct Hc].
    apply pair_equal_spec in Hc as [[_ ->]%pair_equal_spec ->]. done.
  - intros a Ha. by eapply close_outside.
Qed.

End Imports.
