(* ===== verification/DeviceExport.v ===== *)
(** * The address an importer is given.

    One process names a span of its device memory, another maps it: the address
    the second is given is at the same place in the allocation, and the whole span
    is inside the mapping. *)

From stdpp Require Import base list gmap strings numbers sorting.
From S2P Require Import Prelude Types Provider IpcWire IpcProvider Device DeviceSafe DeviceImports.

Section Naming.
Context {W : Type} `{Runtime W} `{!MapLaws}.

(** [allocs w] are this process's allocations: the size and the handle of each, by
    base address. *)

Class AllocLaws : Type := {
  allocs : W → gmap Z (Z * list Z);
  get_allocs w : allocs (fst (rt_get_device w)) = allocs w;
  set_allocs w d : allocs (fst (rt_set_device w d)) = allocs w;
  clear_allocs w : allocs (rt_clear_error w) = allocs w;
  name_allocs w a : allocs (fst (rt_ipc_get w a)) = allocs w;
  range_allocs w a : allocs (fst (rt_address_range w a)) = allocs w;
  alloc_size w b n h : allocs w !! b = Some (n, h) → handle_size h = n ∧ 0 < b ∧ b + n <= 2 ^ 64;
  range_finds w a b n : snd (rt_address_range w a) = Some (b, n) →
    b <= a < b + n ∧ ∃ h, allocs w !! b = Some (n, h);
  name_finds w a h : snd (rt_ipc_get w a) = Some h →
    ∃ b n, allocs w !! b = Some (n, h) ∧ b <= a < b + n;
  alloc_apart w b n h b' n' h' : allocs w !! b = Some (n, h) → allocs w !! b' = Some (n', h') → b < b' →
    b + n <= b';
  alloc_handles w b b' n n' h : allocs w !! b = Some (n, h) → allocs w !! b' = Some (n', h) → b = b'
}.

Context `{!AllocLaws}.

(** What the two backends without a lookup rely on: an interior address has the
    handle of its allocation, or has none. *)

Definition vendor_exports (v : Vendor) : Prop :=
  match v with
  | Kunlun => ∀ w a b n h, allocs w !! b = Some (n, h) → b <= a < b + n → snd (rt_ipc_get w a) = Some h
  | Neuware => ∀ w a h, snd (rt_ipc_get w a) = Some h → ∃ n, allocs w !! a = Some (n, h)
  | _ => True
  end.

Lemma steers_allocs w w' : steers w w' → allocs w' = allocs w.
Proof. apply steers_keeps; [apply get_allocs|apply set_allocs|apply clear_allocs]. Qed.

Lemma alloc_of w a b n h b' n' h' :
  allocs w !! b = Some (n, h) → b <= a < b + n → allocs w !! b' = Some (n', h') → b' <= a < b' + n' →
  b' = b ∧ n' = n ∧ h' = h.
Proof.
  intros E Ha E' Ha'. destruct (Z.lt_trichotomy b b') as [Hl|[<-|Hl]].
  - pose proof (alloc_apart _ _ _ _ _ _ _ E E' Hl). lia.
  - rewrite E in E'. by injection E' as -> ->.
  - pose proof (alloc_apart _ _ _ _ _ _ _ E' E Hl). lia.
Qed.

(** A lookup, and then the allocation's handle. *)

Lemma export_from_range_names guards sticky b addr len w w' h :
  export_from_range guards sticky b addr len w = (w', (Status.kOk, h)) → 0 < len → addr < 2 ^ 64 →
  ∃ base n, allocs w !! base = Some (n, ih_bytes h) ∧ addr = base + ih_offset h
    ∧ 0 <= ih_offset h < n ∧ ih_allocation_bytes h = n ∧ addr + len <= base + n.
Proof.
  unfold export_from_range. intros E Hlen Ha. destruct (_ || _); [congruence|].
  pose proof (range_allocs w addr) as A1. pose proof (range_finds w addr) as Hf.
  destruct (rt_address_range w addr) as [w1 [[base n]|]]; cbn [fst snd] in *; [|congruence].
  destruct (Hf base n eq_refl) as (Hr & k & Ek). clear Hf.
  destruct (alloc_size _ _ _ _ Ek) as (_ & Hb & _). rewrite wrapw_id in E by (unfold uw; lia).
  destruct (_ || _) eqn:Eb; [congruence|]. b2p.
  match type of E with context [scoped guards ?d ?f w1] =>
    destruct (scoped_run guards d f w1) as (w2 & S & E2 & _); destruct (scoped guards d f w1) as [w3 [k'|]] end;
    cbn [fst snd] in *; [|congruence].
  injection E as <- <-. apply steers_allocs in S. pose proof (name_finds w2 base) as Hf.
  destruct (rt_ipc_get w2 base) as [w4 k'']. cbn [fst snd] in *. subst k''.
  destruct (Hf k' eq_refl) as (base' & n' & E' & Hr'). rewrite S, A1 in E'.
  destruct (alloc_of w base base n k base' n' k') as (-> & -> & ->); [done|lia|done|lia|].
  exists base, n. cbn. split_and!; [done|lia..].
Qed.

(** The byte before tells whether an address is a base. *)

Lemma is_allocation_base_true a w :
  vendor_exports Kunlun → snd (is_allocation_base a w) = true → 0 < a < 2 ^ 64 →
  allocs (fst (is_allocation_base a w)) = allocs w ∧ ∃ n h, allocs w !! a = Some (n, h).
Proof.
  intros Hv. unfold is_allocation_base.
  pose proof (name_allocs w a) as A1. pose proof (name_finds w a) as Hf.
  destruct (rt_ipc_get w a) as [w1 [h|]]; cbn [fst snd] in *; [|done].
  destruct (Hf h eq_refl) as (b & n & E & Hr). clear Hf. intros Hb Ha.
  destruct (alloc_size _ _ _ _ E) as (_ & Hb0 & _).
  rewrite wrapw_id in * by (unfold uw; lia).
  pose proof (name_allocs w1 (a - 1)) as A2. pose proof (Hv w1 (a - 1) b n h) as Hi. rewrite A1 in Hi.
  destruct (rt_ipc_get w1 (a - 1)) as [w2 before]. cbn [fst snd] in *.
  split; [destruct before; cbn; by rewrite clear_allocs, A2, A1|].
  destruct (decide (b = a)) as [->|Hn]; [by do 2 eexists|].
  rewrite Hi in Hb by (done || lia). cbn in Hb. by rewrite bool_decide_eq_true_2 in Hb.
Qed.

Lemma kunlun_export_names b addr len w w' h :
  vendor_exports Kunlun → kunlun_export_ipc b addr len w = (w', (Status.kOk, h)) → 0 < addr < 2 ^ 64 →
  ∃ n, allocs w !! addr = Some (n, ih_bytes h) ∧ ih_offset h = 0 ∧ ih_allocation_bytes h = len.
Proof.
  unfold kunlun_export_ipc. intros Hv E Ha. destruct (_ || _); [congruence|].
  match type of E with guarded ?d ?f w = _ => destruct (guarded_run d f w) as (w1 & S & E1 & _) end.
  rewrite E in E1. cbn [snd] in E1. apply steers_allocs in S.
  pose proof (is_allocation_base_true addr w1 Hv) as Hb.
  destruct (is_allocation_base addr w1) as [w2 [|]]; cbn [fst snd negb] in *; [|congruence].
  destruct (Hb eq_refl Ha) as (A2 & n & k & Ek). clear Hb.
  pose proof (name_finds w2 addr) as Hf. destruct (rt_ipc_get w2 addr) as [w3 [k'|]]; cbn [snd] in *; [|congruence].
  injection E1 as ->. destruct (Hf k' eq_refl) as (b' & n' & E' & Hr). rewrite A2 in E'.
  destruct (alloc_size _ _ _ _ Ek) as (? & ? & ?).
  assert (b' = addr) as ->.
  { destruct (Z.lt_trichotomy b' addr) as [Hl|[|]]; [|done|lia].
    pose proof (alloc_apart _ _ _ _ _ _ _ E' Ek Hl). lia. }
  exists n'. cbn. by rewrite <- S.
Qed.

Lemma neuware_export_names addr len w w' h :
  vendor_exports Neuware → neuware_export_ipc addr len w = (w', (Status.kOk, h)) →
  ∃ n, allocs w !! addr = Some (n, ih_bytes h) ∧ ih_offset h = 0 ∧ ih_allocation_bytes h = len.
Proof.
  unfold neuware_export_ipc. intros Hv E. destruct (_ || _); [congruence|].
  pose proof (Hv w addr) as Hf. destruct (rt_ipc_get w addr) as [w1 [k|]]; [|congruence].
  injection E as <- <-. cbn in *. destruct (Hf k eq_refl) as [n En]. by exists n.
Qed.

(** The caller's span lies in one allocation, which the backends that can look it
    up check for themselves. *)

Definition in_allocation (w : W) (addr len : Z) : Prop :=
  ∀ n h, allocs w !! addr = Some (n, h) → len <= n.

Lemma export_names v b addr len w w' h :
  dev_export_ipc v b addr len w = (w', (Status.kOk, h)) → vendor_exports v →
  0 < addr < 2 ^ 64 → 0 < len → in_allocation w addr len →
  honest v h ∧ ∃ base n, allocs w !! base = Some (n, ih_bytes h) ∧ addr = base + ih_offset h
    ∧ addr + len <= base + n.
Proof.
  intros E Hv Ha Hl Hin. destruct v; cbn in E; try congruence.
  1, 2: destruct (export_from_range_names _ _ _ _ _ _ _ _ E Hl) as (base & n & Ek & Eo & Ho & Eb & Hs); [lia|];
    destruct (alloc_size _ _ _ _ Ek) as (Es & _); cbn; rewrite Es; split; [lia|]; by exists base, n.
  - destruct (kunlun_export_names _ _ _ _ _ _ Hv E Ha) as (n & Ek & Eo & Eb).
    destruct (alloc_size _ _ _ _ Ek) as (Es & _). pose proof (Hin _ _ Ek). cbn. rewrite Es, Eo, Eb.
    split; [lia|]. exists addr, n. split_and!; [done|lia..].
  - destruct (neuware_export_names _ _ _ _ _ Hv E) as (n & Ek & Eo & Eb).
    destruct (alloc_size _ _ _ _ Ek) as (Es & _). pose proof (Hin _ _ Ek). cbn. rewrite Es, Eo, Eb.
    split; [lia|]. exists addr, n. split_and!; [done|lia..].
Qed.

(** ** The importer's side *)

Lemma import_address v b w l h b' w' a :
  imports v b w l → honest v h → Z.of_nat (length l) + 1 < 2 ^ 64 →
  dev_import_ipc v b h w = (b', w', (Status.kOk, a)) →
  ∃ m, mapped w' !! m = Some (ih_bytes h) ∧ a = m + ih_offset h.
Proof.
  intros Hr Hh Hl E. pose proof (imports_tables _ _ _ _ (ImportsOpen v b w l h Hr Hh Hl)) as T.
  cbn zeta in T. rewrite E in T. unfold enter in T. cbn [fst snd] in T. rewrite bool_decide_eq_true_2 in T by done.
  assert (Hx : ∃ im, bk_by_handle b' !! ih_bytes h = Some im ∧ a = wrap64 (imp_base im + ih_offset h)).
  { destruct (import_cases v b h w Hh) as [(st & E' & Hst)|(g & s & E')]; rewrite E' in E; [congruence|].
    unfold import_shared in E. destruct (bk_by_handle b !! ih_bytes h) as [im|].
    - injection E as <- <- <-. cbn. eexists. by rewrite lookup_insert_eq.
    - destruct (scoped _ _ _ w) as [w1 [base|]]; [|congruence]. injection E as <- <- <-. cbn.
      eexists. by rewrite lookup_insert_eq. }
  destruct Hx as (im & Ei & ->). destruct (to_rec _ _ _ _ T _ _ Ei) as (_ & Em & _ & Hb & _).
  destruct (map_placed _ _ _ Em) as (? & ? & ?).
  destruct (honest_bytes _ _ Hh) as (? & ? & ? & _). exists (imp_base im). split; [done|].
  apply wrapw_id. unfold uw. lia.
Qed.


End Naming.
