(* ===== verification/DeviceSample.v ===== *)
(** * The device backends over a simulated runtime.

    [Gpu] is a host with two devices, two allocations to export and room for two
    mappings.  The properties of the backends are applied to runs over it, and it
    shows two things the backends do other than they mean to. *)

From stdpp Require Import base list gmap strings numbers sorting.
From S2P Require Import Prelude Types Provider IpcWire IpcProvider Device DeviceSafe DeviceImports DeviceExport.

Record Gpu : Type := mkGpu {
  g_current : Z;
  g_pending : gmap Z (list (Z * Z));
  g_low : option (list Z);
  g_high : option (list Z)
}.

Definition on_thread (d : Z) (w : Gpu) : Gpu := mkGpu d (g_pending w) (g_low w) (g_high w).

Definition with_maps (low high : option (list Z)) (w : Gpu) : Gpu := mkGpu (g_current w) (g_pending w) low high.

(** Two allocations of a page each, side by side. *)

Definition g_allocs : gmap Z (Z * list Z) := <[65536 := (4096, [1])]> {[69632 := (4096, [2])]}.

Definition g_range (a : Z) : option (Z * Z) :=
  if (65536 <=? a) && (a <? 69632) then Some (65536, 4096)
  else if (69632 <=? a) && (a <? 73728) then Some (69632, 4096)
  else None.

Definition g_name (a : Z) : option (list Z) :=
  if (65536 <=? a) && (a <? 69632) then Some [1]
  else if (69632 <=? a) && (a <? 73728) then Some [2]
  else None.

Definition g_open (w : Gpu) (h : list Z) : Gpu * option Z :=
  match g_low w, g_high w with
  | None, hi => (with_maps (Some h) hi w, Some 4096)
  | lo, None => (with_maps lo (Some h) w, Some 8192)
  | _, _ => (w, None)
  end.

Definition g_close (w : Gpu) (a : Z) : Gpu * bool :=
  if (a =? 4096) && bool_decide (is_Some (g_low w)) then (with_maps None (g_high w) w, true)
  else if (a =? 8192) && bool_decide (is_Some (g_high w)) then (with_maps (g_low w) None w, true)
  else (w, false).

#[export] Instance gpu_runtime : Runtime Gpu := {
  rt_handle_bytes := 1%nat;
  rt_device_count w := (w, Some 2);
  rt_get_device w := (w, Some (g_current w));
  rt_set_device w d := if (0 <=? d) && (d <? 2) then (on_thread d w, true) else (w, false);
  rt_clear_error w := w;
  rt_attribute w _ _ := (w, Some 1);
  rt_pointer w _ := (w, Some (MemDevice, 0));
  rt_event_create w := (w, Some 1);
  rt_event_record w _ _ := (w, true);
  rt_event_destroy w _ := w;
  rt_event_query w _ := (w, EventDone);
  rt_stream_wait w _ _ := (w, true);
  rt_memcpy w dst _ n _ :=
    (mkGpu (g_current w)
       (<[g_current w := default [] (g_pending w !! g_current w) ++ [(dst, n)]]> (g_pending w))
       (g_low w) (g_high w), true);
  rt_sync w := (mkGpu (g_current w) (delete (g_current w) (g_pending w)) (g_low w) (g_high w), true);
  rt_address_range w a := (w, g_range a);
  rt_ipc_get w a := (w, g_name a);
  rt_ipc_open := g_open;
  rt_ipc_close := g_close;
  rt_malloc w _ := (w, Some 65536);
  rt_free w _ := w;
  host_memcpy w _ _ _ := w
}.

#[export] Instance gpu_threads : ThreadLaws (W := Gpu).
Proof.
  refine (@Build_ThreadLaws _ _ g_current g_pending (fun d => 0 <= d < 2)
    _ _ _ _ _ _ _ _ _ _ _ _ _ _ _ _); cbn; try done.
  - intros d. lia.
  - intros w d. congruence.
  - intros w d. by destruct (_ && _).
  - intros w d Hd. destruct (_ && _) eqn:E; [done|]. apply andb_false_iff in E as [E|E]; b2p; lia.
  - intros w d _ n _. by rewrite delete_insert_eq.
  - intros w d _ n _ _. by rewrite lookup_insert_eq.
  - intros w. by rewrite delete_delete_eq.
  - intros w _. by rewrite lookup_delete_eq.
Defined.

Definition g_mapped (w : Gpu) : gmap Z (list Z) :=
  partial_alter (fun _ => g_low w) 4096 (partial_alter (fun _ => g_high w) 8192 ∅).

Lemma g_mapped_lookup w a h :
  g_mapped w !! a = Some h → a = 4096 ∧ g_low w = Some h ∨ a = 8192 ∧ g_high w = Some h.
Proof.
  unfold g_mapped. intros E. apply lookup_partial_alter_Some in E as [[<- E]|[_ E]]; [by left|].
  apply lookup_partial_alter_Some in E as [[<- E]|[_ E]]; [by right|]. by rewrite lookup_empty in E.
Qed.

#[export] Instance gpu_maps : MapLaws (W := Gpu).
Proof.
  refine (@Build_MapLaws _ _ g_mapped (fun _ => 4096) _ _ _ _ _ _ _ _ _); cbn; try done.
  - intros w d. by destruct (_ && _).
  - intros w b h E. apply g_mapped_lookup in E as [[-> _]|[-> _]]; lia.
  - intros w b h b' h' E E'. apply g_mapped_lookup in E as [[-> _]|[-> _]], E' as [[-> _]|[-> _]]; lia.
  - intros [c p [lo|] [hi|]] h b [= <-]; done.
  - intros [c p [lo|] [hi|]] h; done.
  - intros [c p lo hi] b. unfold g_close. cbn. destruct (b =? 4096) eqn:E1, (b =? 8192) eqn:E2; b2p; subst; try done;
      destruct lo, hi; done.
  - intros [c p lo hi] b. unfold g_close. cbn. destruct (_ && _); [done|]. by destruct (_ && _).
Defined.

#[export] Instance gpu_allocs : AllocLaws (W := Gpu).
Proof.
  assert (Ha : ∀ b n h, g_allocs !! b = Some (n, h) → b = 65536 ∧ n = 4096 ∧ h = [1] ∨ b = 69632 ∧ n = 4096 ∧ h = [2]).
  { intros b n h E. unfold g_allocs in E. apply lookup_insert_Some in E as [[<- [= <- <-]]|[_ E]]; [by left|].
    apply lookup_singleton_Some in E as [<- [= <- <-]]. by right. }
  refine (@Build_AllocLaws _ _ _ (fun _ => g_allocs) _ _ _ _ _ _ _ _ _ _); cbn; try done.
  - intros _ b n h E. apply Ha in E. lia.
  - intros _ a b n. unfold g_range. destruct ((65536 <=? a) && _) eqn:E1;
      [|destruct ((69632 <=? a) && _) eqn:E2; [|congruence]]; intros [= <- <-]; (split; [b2p; lia|by eexists]).
  - intros _ a h. unfold g_name. destruct ((65536 <=? a) && _) eqn:E1;
      [|destruct ((69632 <=? a) && _) eqn:E2; [|congruence]]; intros [= <-];
      [exists 65536, 4096|exists 69632, 4096]; (split; [reflexivity|b2p; lia]).
  - intros _ b n h b' n' h' E E'. apply Ha in E, E'. lia.
  - intros _ b b' n n' h E E'. apply Ha in E as [(-> & _ & ->)|(-> & _ & ->)], E' as [(-> & _ & ?)|(-> & _ & ?)];
      congruence.
Defined.

(** ** Copies *)

Definition idle_gpu (d : Z) : Gpu := mkGpu d ∅ None None.

(** A backend of device 1: a copy on a thread where device 1 is current, another on
    a thread where device 0 is, and then [settle] on that thread. *)

Definition one_copy (v : Vendor) : Gpu := fst (dev_copy_nowait v (new_backend 1) 256 512 64 (idle_gpu 1)).

Definition two_copies (v : Vendor) : Gpu :=
  fst (dev_copy_nowait v (new_backend 1) 1024 512 64 (on_thread 0 (one_copy v))).

Definition after_settle (v : Vendor) : Gpu * Status.t := dev_settle_of v (new_backend 1) (two_copies v).

(** The CUDA backend, from both threads. *)
Lemma device_settle_covers_witness :
  pending (two_copies Cuda) !! 1 = Some [(256, 64); (1024, 64)]
  ∧ pending (fst (after_settle Cuda)) !! 1 = None.
Proof.
  split; [vm_compute; reflexivity|].
  apply (device_settle_covers Cuda (new_backend 1) (idle_gpu 1) (two_copies Cuda) (fst (after_settle Cuda))).
  - reflexivity.
  - cbn. lia.
  - unfold two_copies. apply CopiesNowait. apply CopiesThread with (one_copy Cuda); [|reflexivity].
    unfold one_copy. apply CopiesNowait, CopiesRefl.
  - vm_compute. reflexivity.
Defined.

(** The ROCm backend makes its calls on whatever device the calling thread has current: a copy started
    where its own device was current is still pending after [settle] has answered success on a thread
    where another is. *)
Theorem rocm_settle_misses_copy :
  snd (after_settle Rocm) = Status.kOk
  ∧ pending (fst (after_settle Rocm)) !! 1 = Some [(256, 64)].
Proof. vm_compute. repeat split. Qed.

(** ** Mappings *)

Definition handle_one (offset : Z) : IpcHandle := mkIpcHandle [1] offset 4096.

Definition handle_two : IpcHandle := mkIpcHandle [2] 0 4096.

Definition import_into (r : Backend * Gpu * (Status.t * Z)) (h : IpcHandle) : Backend * Gpu * (Status.t * Z) :=
  dev_import_ipc Cuda (fst (fst r)) h (snd (fst r)).

Definition no_imports : Backend * Gpu * (Status.t * Z) := (new_backend 0, idle_gpu 0, (Status.kOk, 0)).

(** Two spans of one allocation, and one of another. *)

Definition three_imports : Backend * Gpu * (Status.t * Z) :=
  import_into (import_into (import_into no_imports (handle_one 16)) handle_two) (handle_one 256).

Definition one_import : Backend * Gpu * (Status.t * Z) := import_into no_imports (handle_one 16).

Definition two_imports : Backend * Gpu * (Status.t * Z) := import_into one_import handle_two.

Lemma one_import_run : imports Cuda (fst (fst one_import)) (snd (fst one_import)) [(4112, [1])].
Proof. refine (ImportsOpen Cuda _ _ [] (handle_one 16) (ImportsNone Cuda 0 (idle_gpu 0)) _ _); cbn; lia. Qed.

Lemma two_imports_run : imports Cuda (fst (fst two_imports)) (snd (fst two_imports)) [(8192, [2]); (4112, [1])].
Proof. refine (ImportsOpen Cuda _ _ _ handle_two one_import_run _ _); cbn; lia. Qed.

Lemma three_imports_run :
  imports Cuda (fst (fst three_imports)) (snd (fst three_imports)) [(4352, [1]); (8192, [2]); (4112, [1])].
Proof. refine (ImportsOpen Cuda _ _ _ (handle_one 256) two_imports_run _ _); cbn; lia. Qed.

(** The first of the three released: its mapping stays, for the third. *)
Lemma device_imports_paired_witness :
  ∃ im, bk_by_handle (fst (fst three_imports)) !! [1] = Some im
    ∧ imp_base im <= 4112 < imp_base im + 4096
    ∧ snd (dev_close_ipc Cuda (fst (fst three_imports)) 4112 (snd (fst three_imports))) = Status.kOk.
Proof.
  destruct (device_imports_paired Cuda (fst (fst three_imports)) (snd (fst three_imports))
    [(4352, [1]); (8192, [2]); (4112, [1])] three_imports_run) as (_ & Hc & _).
  destruct (Hc [(4352, [1]); (8192, [2])] 4112 [1] [] eq_refl) as (im & E & Hr & Hs).
  exists im. split; [exact E|]. split; [exact Hr|].
  destruct (dev_close_ipc _ _ _ _) as [[b' w'] st]. exact (proj1 Hs).
Defined.

(** An import whose offset is the whole allocation, which the check lets through, is given the address
    where the next mapping begins: releasing it closes the neighbour's mapping, under an import still
    held, and keeps its own. *)
Theorem end_offset_releases_neighbour :
  let r := import_into (import_into no_imports (handle_one 4096)) handle_two in
  snd (import_into no_imports (handle_one 4096)) = (Status.kOk, 8192)
  ∧ snd r = (Status.kOk, 8192)
  ∧ snd (dev_close_ipc Cuda (fst (fst r)) 8192 (snd (fst r))) = Status.kOk
  ∧ mapped (snd (fst (dev_close_ipc Cuda (fst (fst r)) 8192 (snd (fst r))))) = {[4096 := [1]]}.
Proof. vm_compute. repeat split. Qed.

(** ** From exporter to importer *)

Definition exported : Gpu * (Status.t * IpcHandle) := dev_export_ipc Cuda (new_backend 0) 65792 1024 (idle_gpu 0).

Definition imported : Backend * Gpu * (Status.t * Z) := import_into no_imports (handle_one 256).

