(* ===== verification/Topology.v ===== *)
(** * Which adapter belongs with which device ([src/device/topology.{h,cpp}]).

    Text is a list of character codes, as C reads and prints it; the system's files
    are the world [W], read through the class [Sysfs].  [atoi] and the [%x] conversion
    are the C library's, with its treatment of spaces, signs, prefixes and values
    that do not fit. *)

From stdpp Require Import base list gmap strings numbers pretty.
From S2P Require Import Prelude Types.

(** ** Text *)

Definition is_space (c : Z) : bool := (c =? 32) || ((9 <=? c) && (c <=? 13)).

Fixpoint skip_spaces (l : list Z) : list Z :=
  match l with
  | c :: l' => if is_space c then skip_spaces l' else l
  | [] => []
  end.

(** A sign, if there is one: whether it is a minus. *)

Definition take_sign (l : list Z) : bool * list Z :=
  match l with
  | c :: l' => if c =? 45 then (true, l') else if c =? 43 then (false, l') else (false, l)
  | [] => (false, [])
  end.

Fixpoint dec_digits (l : list Z) (acc : Z) : Z :=
  match l with
  | c :: l' => if (48 <=? c) && (c <=? 57) then dec_digits l' (10 * acc + (c - 48)) else acc
  | [] => acc
  end.

(** [strtol], cut to an [int]. *)

Definition atoi (l : list Z) : Z :=
  let '(neg, l) := take_sign (skip_spaces l) in
  let v := dec_digits l 0 in
  let v := if neg then Z.max (- 2 ^ 63) (- v) else Z.min (2 ^ 63 - 1) v in
  to_i32 (wrap32 v).

Definition hex_value (c : Z) : option Z :=
  if (48 <=? c) && (c <=? 57) then Some (c - 48)
  else if (97 <=? c) && (c <=? 102) then Some (c - 87)
  else if (65 <=? c) && (c <=? 70) then Some (c - 55)
  else None.

Fixpoint hex_digits (l : list Z) (acc : Z) : Z * list Z :=
  match l with
  | c :: l' =>
      match hex_value c with
      | Some d => hex_digits l' (16 * acc + d)
      | None => (acc, l)
      end
  | [] => (acc, [])
  end.

(** The prefix of a number, which counts as a digit read. *)

Definition take_prefix (l : list Z) : bool * list Z :=
  match l with
  | c :: c' :: l' => if (c =? 48) && ((c' =? 120) || (c' =? 88)) then (true, l') else (false, l)
  | _ => (false, l)
  end.

Definition starts_hex (l : list Z) : bool :=
  match l with
  | c :: _ => if hex_value c is Some _ then true else false
  | [] => false
  end.

(** [%lx]: the value and what is left, or a failure to match. *)

Definition scan_hex64 (l : list Z) : option (Z * list Z) :=
  let '(neg, l) := take_sign (skip_spaces l) in
  let '(zero, l) := take_prefix l in
  if zero || starts_hex l then
    let '(v, rest) := hex_digits l 0 in
    let v := if 2 ^ 64 <=? v then 2 ^ 64 - 1 else if neg then wrap64 (- v) else v in
    Some (v, rest)
  else None.

(** [%x] *)

Definition scan_hex (l : list Z) : option (Z * list Z) :=
  '(v, rest) ← scan_hex64 l; Some (wrap32 v, rest).

Definition expect (c : Z) (l : list Z) : option (list Z) :=
  match l with
  | c' :: l' => if c' =? c then Some l' else None
  | [] => None
  end.

Definition hex_char (d : Z) : Z := if d <? 10 then 48 + d else 87 + d.

Fixpoint hex_loop (fuel : nat) (n : Z) (acc : list Z) : list Z :=
  match fuel with
  | O => acc
  | S fuel =>
      let acc := hex_char (n mod 16) :: acc in
      if n <? 16 then acc else hex_loop fuel (n / 16) acc
  end.

Definition print_digits (most w : nat) (n : Z) : list Z :=
  let d := hex_loop most n [] in replicate (w - length d) 48 ++ d.

(** [%0<w>x] of an [unsigned]: eight digits are enough. *)

Definition print_hex (w : nat) (n : Z) : list Z := print_digits 8 w n.

(** ** PCI addresses *)

Record PciAddress : Type := mkPci {
  pci_domain : Z;
  pci_bus : Z;
  pci_device : Z;
  pci_function : Z
}.

Definition no_pci : PciAddress := mkPci 0 0 0 0.

Definition pci_valid (a : PciAddress) : bool :=
  negb ((pci_domain a =? 0) && (pci_bus a =? 0) && (pci_device a =? 0)).

(** [snprintf] into 16 bytes, the last of them the terminator. *)

Definition pci_text (a : PciAddress) : list Z :=
  print_hex 4 (pci_domain a) ++ 58 :: print_hex 2 (pci_bus a) ++ 58 :: print_hex 2 (pci_device a)
  ++ 46 :: print_hex 0 (pci_function a).

Definition pci_to_string (a : PciAddress) : list Z := take 15 (pci_text a).

(** Up to the terminator. *)

Fixpoint c_str (l : list Z) : list Z :=
  match l with
  | c :: l' => if c =? 0 then [] else c :: c_str l'
  | [] => []
  end.

Definition scan_pci (l : list Z) : option (Z * Z * Z * Z) :=
  '(domain, l) ← scan_hex l; l ← expect 58 l;
  '(bus, l) ← scan_hex l; l ← expect 58 l;
  '(dev, l) ← scan_hex l; l ← expect 46 l;
  '(fn, _) ← scan_hex l;
  Some (domain, bus, dev, fn).

Definition parse_pci_address (text : list Z) : Status.t * option PciAddress :=
  match scan_pci (c_str text) with
  | Some (domain, bus, dev, fn) =>
      (Status.kOk, Some (mkPci domain (wrapw 8 bus) (wrapw 8 dev) (wrapw 8 fn)))
  | None => (Status.kInvalidArgument, None)
  end.

(** ** How close *)

Module Proximity.

Inductive t : Type := kSameDevice | kSameBus | kSameNuma | kCrossNuma | kUnknown.

#[global] Instance eq_dec : EqDecision t.
Proof. solve_decision. Defined.

Definition rank (p : t) : Z :=
  match p with kSameDevice => 0 | kSameBus => 1 | kSameNuma => 2 | kCrossNuma => 3 | kUnknown => 4 end.

Definition to_string (p : t) : string :=
  match p with
  | kSameDevice => "same_device"
  | kSameBus => "same_bus"
  | kSameNuma => "same_numa"
  | kCrossNuma => "cross_numa"
  | kUnknown => "unknown"
  end.

End Proximity.

Definition proximity (a : PciAddress) (a_numa : Z) (b : PciAddress) (b_numa : Z) : Proximity.t :=
  let bus := (pci_domain a =? pci_domain b) && (pci_bus a =? pci_bus b) in
  if pci_valid a && pci_valid b && bus then
    if pci_device a =? pci_device b then Proximity.kSameDevice else Proximity.kSameBus
  else if (a_numa <? 0) || (b_numa <? 0) then Proximity.kUnknown
  else if a_numa =? b_numa then Proximity.kSameNuma else Proximity.kCrossNuma.

Record NicInfo : Type := mkNic {
  nic_name : string;
  nic_pci : PciAddress;
  nic_numa : Z;
  nic_active : bool;
  nic_link_layer : list Z
}.

Record DeviceLocation : Type := mkLocation { loc_device : DeviceId; loc_pci : PciAddress; loc_numa : Z }.

Definition nic_proximity (d : DeviceLocation) (n : NicInfo) : Proximity.t :=
  proximity (loc_pci d) (loc_numa d) (nic_pci n) (nic_numa n).

Fixpoint best_loop (d : DeviceLocation) (nics : list NicInfo) (best : option (NicInfo * Proximity.t))
    : option (NicInfo * Proximity.t) :=
  match nics with
  | [] => best
  | n :: nics =>
      if negb (nic_active n) then best_loop d nics best
      else
        let p := nic_proximity d n in
        if bool_decide (p = Proximity.kUnknown) then best_loop d nics best
        else
          match best with
          | None => best_loop d nics (Some (n, p))
          | Some (_, bp) =>
              if Proximity.rank p <? Proximity.rank bp then best_loop d nics (Some (n, p))
              else best_loop d nics best
          end
  end.

Definition best_nic_for (d : DeviceLocation) (nics : list NicInfo) : option (NicInfo * Proximity.t) :=
  best_loop d nics None.

(** ** The system *)

(** The entries of a directory, the target of a link and the contents of a file. *)

Class Sysfs (W : Type) : Type := {
  sys_dir : W → string → option (list string);
  sys_link : W → string → option (list Z);
  sys_file : W → string → option (list Z)
}.

Fixpoint first_line (l : list Z) : list Z :=
  match l with
  | c :: l' => if c =? 10 then [] else c :: first_line l'
  | [] => []
  end.

Definition trim_end (l : list Z) : list Z :=
  reverse ((fix go l := match l with c :: l' => if (c =? 10) || (c =? 32) then go l' else l | [] => [] end)
             (reverse l)).

Fixpoint after_slash (l : list Z) (leaf : list Z) : list Z :=
  match l with
  | [] => leaf
  | c :: l' => after_slash l' (if c =? 47 then l' else leaf)
  end.

Definition contains (needle hay : list Z) : bool :=
  existsb (fun i => bool_decide (take (length needle) (drop i hay) = needle)) (seq 0 (S (length hay))).

Section Sysfs.
Context {W : Type} `{Sysfs W}.

Definition read_sysfs (w : W) (path : string) : list Z :=
  match sys_file w path with
  | None => []
  | Some l => trim_end (first_line l)
  end.

Definition read_numa (w : W) (dir : string) : Z :=
  let v := read_sysfs w (dir +:+ "/numa_node") in
  if bool_decide (v = []) then -1 else atoi (c_str v).

Definition pci_numa_node (w : W) (a : PciAddress) : Z :=
  if negb (pci_valid a) then -1
  else read_numa w ("/sys/bus/pci/devices/" +:+ string_of_bytes (pci_to_string a)).

Definition kRoot : string := "/sys/class/infiniband".

(** The link, cut to the buffer it is read into; what does not parse leaves the
    address as it was. *)

Definition nic_address (w : W) (dev : string) : PciAddress :=
  match sys_link w dev with
  | None | Some [] => no_pci
  | Some target =>
      let target := c_str (take 511 target) in
      default no_pci (snd (parse_pci_address (after_slash target target)))
  end.

Definition read_nic (w : W) (name : string) : NicInfo :=
  let base := kRoot +:+ "/" +:+ name in
  let dev := base +:+ "/device" in
  let port := base +:+ "/ports/1" in
  let ll := read_sysfs w (port +:+ "/link_layer") in
  mkNic name (nic_address w dev) (read_numa w dev)
    (contains (bytes_of_string "ACTIVE") (read_sysfs w (port +:+ "/state")))
    (if bool_decide (ll = []) then bytes_of_string "unknown" else ll).

Definition hidden (name : string) : bool :=
  match name with String c _ => bool_decide (c = Ascii.ascii_of_N 46) | EmptyString => false end.

Definition discover_nics (w : W) : list NicInfo :=
  match sys_dir w kRoot with
  | None => []
  | Some names => read_nic w <$> filter (fun n => hidden n = false) names
  end.

End Sysfs.

(** ** Printing and reading back *)

Definition printed (c : Z) : Prop := 48 <= c <= 57 ∨ 97 <= c <= 102.

Lemma hex_char_printed d : 0 <= d < 16 → printed (hex_char d) ∧ hex_value (hex_char d) = Some d.
Proof.
  intros Hd. unfold hex_char, hex_value, printed. destruct (Z.ltb_spec d 10).
  - rewrite (proj2 (Z.leb_le 48 _)), (proj2 (Z.leb_le _ 57)) by lia. cbn. split; [lia|]. f_equal. lia.
  - rewrite (proj2 (Z.leb_gt _ 57)), andb_false_r by lia.
    rewrite (proj2 (Z.leb_le 97 _)), (proj2 (Z.leb_le _ 102)) by lia. cbn. split; [lia|]. f_equal. lia.
Qed.

Lemma hex_loop_printed fuel n acc : 0 <= n → Forall printed acc → Forall printed (hex_loop fuel n acc).
Proof.
  revert n acc. induction fuel as [|fuel IH]; intros n acc Hn Ha; cbn [hex_loop]; [done|].
  assert (Hc : Forall printed (hex_char (n mod 16) :: acc)).
  { constructor; [|done]. apply hex_char_printed. apply Z.mod_pos_bound. lia. }
  destruct (n <? 16); [done|]. apply IH; [|done]. apply Z.div_pos; lia.
Qed.

Lemma hex_loop_read fuel n acc :
  0 <= n < 16 ^ Z.of_nat fuel → (0 < fuel)%nat → hex_digits (hex_loop fuel n acc) 0 = hex_digits acc n.
Proof.
  revert n acc. induction fuel as [|fuel IH]; intros n acc Hn Hf; [lia|]. cbn [hex_loop].
  pose proof (Z.mod_pos_bound n 16) as Hm. pose proof (Z.div_mod n 16) as Hd.
  destruct (hex_char_printed (n mod 16)) as [_ Hv]; [lia|]. destruct (Z.ltb_spec n 16).
  - cbn [hex_digits]. rewrite Hv. f_equal. rewrite Z.mod_small; lia.
  - rewrite IH.
    + cbn [hex_digits]. rewrite Hv. f_equal. lia.
    + rewrite Nat2Z.inj_succ, Z.pow_succ_r in Hn by lia. split; [apply Z.div_pos; lia|].
      apply Z.div_lt_upper_bound; lia.
    + destruct fuel; [|lia]. cbn in Hn. lia.
Qed.

Lemma hex_loop_app fuel n acc : hex_loop fuel n acc = hex_loop fuel n [] ++ acc.
Proof.
  revert n acc. induction fuel as [|fuel IH]; intros n acc; cbn [hex_loop]; [done|].
  destruct (n <? 16); [done|]. rewrite IH, (IH _ [_]). by rewrite <- app_assoc.
Qed.

Lemma hex_loop_some fuel n acc : hex_loop (S fuel) n acc ≠ [].
Proof.
  cbn [hex_loop]. destruct (n <? 16); [done|]. rewrite hex_loop_app. intros E. by apply app_eq_nil in E as [_ E].
Qed.

Lemma hex_loop_length fuel n acc k :
  0 <= n < 16 ^ Z.of_nat k → (0 < k)%nat → (length (hex_loop fuel n acc) <= k + length acc)%nat.
Proof.
  revert n acc k. induction fuel as [|fuel IH]; intros n acc k Hn Hk; cbn [hex_loop]; [lia|].
  destruct (Z.ltb_spec n 16); [cbn; lia|]. destruct k as [|[|k]]; [lia|cbn in Hn; lia|].
  etransitivity; [apply (IH _ _ (S k)); [|lia]|cbn; lia].
  rewrite (Nat2Z.inj_succ (S k)), Z.pow_succ_r in Hn by lia. split; [apply Z.div_pos; lia|].
  apply Z.div_lt_upper_bound; lia.
Qed.

Lemma zeros_read k l : hex_digits (replicate k 48 ++ l) 0 = hex_digits l 0.
Proof. induction k as [|k IH]; [done|exact IH]. Qed.

(** A printed number followed by a character that is no part of one. *)

Definition ends (c : Z) : Prop := hex_value c = None ∧ c ≠ 120 ∧ c ≠ 88.

Lemma print_digits_read most w n rest :
  0 <= n < 16 ^ Z.of_nat most → (0 < most)%nat → hex_digits (print_digits most w n ++ rest) 0 = hex_digits rest n.
Proof.
  intros Hn Hm. unfold print_digits. rewrite <- app_assoc, zeros_read, <- hex_loop_app. apply hex_loop_read; lia.
Qed.

Lemma print_digits_printed most w n :
  0 <= n → (0 < most)%nat → Forall printed (print_digits most w n) ∧ print_digits most w n ≠ [].
Proof.
  intros Hn Hm. destruct most as [|most]; [lia|]. unfold print_digits. split.
  - apply list.Forall_app. split; [apply Forall_replicate; unfold printed; lia|by apply hex_loop_printed].
  - intros E. apply app_eq_nil in E as [_ E]. by apply hex_loop_some in E.
Qed.

Lemma scan_hex64_start l :
  match l with
  | c :: l' => printed c ∧ match l' with c' :: _ => printed c' ∨ ends c' | [] => True end
  | [] => False
  end →
  scan_hex64 l = let '(v, rest) := hex_digits l 0 in Some (if 2 ^ 64 <=? v then 2 ^ 64 - 1 else v, rest).
Proof.
  destruct l as [|c l]; [done|]. intros [Hc Hl]. unfold scan_hex64.
  assert (Es : is_space c = false) by (unfold is_space, printed in *; destruct (c =? 32) eqn:?, (9 <=? c) eqn:?,
    (c <=? 13) eqn:?; b2p; cbn; lia || done).
  cbn [skip_spaces]. rewrite Es. cbn [take_sign].
  rewrite (proj2 (Z.eqb_neq c 45)), (proj2 (Z.eqb_neq c 43)) by (unfold printed in Hc; lia).
  assert (Ep : take_prefix (c :: l) = (false, c :: l)).
  { destruct l as [|c' l]; [done|]. cbn [take_prefix].
    rewrite (proj2 (Z.eqb_neq c' 120)), (proj2 (Z.eqb_neq c' 88)), andb_false_r by (unfold printed, ends in Hl; lia).
    done. }
  rewrite Ep. assert (Ev : starts_hex (c :: l) = true).
  { cbn. unfold hex_value. unfold printed in Hc. destruct Hc as [Hc|Hc].
    - by rewrite (proj2 (Z.leb_le 48 _)), (proj2 (Z.leb_le _ 57)) by lia.
    - rewrite (proj2 (Z.leb_gt _ 57)), andb_false_r by lia.
      by rewrite (proj2 (Z.leb_le 97 _)), (proj2 (Z.leb_le _ 102)) by lia. }
  rewrite Ev. cbn [orb]. by destruct (hex_digits (c :: l) 0) as [v rest].
Qed.

Lemma scan_digits most w n rest :
  0 <= n < 16 ^ Z.of_nat most → (0 < most <= 16)%nat → (match rest with c :: _ => ends c | [] => True end) →
  scan_hex64 (print_digits most w n ++ rest) = Some (n, rest).
Proof.
  intros Hn Hm Hr. destruct (print_digits_printed most w n) as [Hp Hne]; [lia..|].
  rewrite scan_hex64_start.
  - rewrite print_digits_read by lia.
    assert (E : hex_digits rest n = (n, rest)) by (destruct rest as [|c rest]; [done|]; cbn; by rewrite (proj1 Hr)).
    assert (16 ^ Z.of_nat most <= 16 ^ 16) by (apply Z.pow_le_mono_r; lia).
    rewrite E. by rewrite (proj2 (Z.leb_gt _ _)) by lia.
  - destruct (print_digits most w n) as [|c l]; [done|]. apply list.Forall_cons in Hp as [Hc Hl]. cbn [app].
    split; [done|]. destruct l as [|c' l]; cbn [app].
    + destruct rest; [done|by right].
    + left. by apply list.Forall_cons in Hl as [? _].
Qed.

Lemma scan_print w n rest :
  0 <= n < 2 ^ 32 → (match rest with c :: _ => ends c | [] => True end) →
  scan_hex (print_hex w n ++ rest) = Some (n, rest).
Proof.
  intros Hn Hr. unfold scan_hex, print_hex. rewrite scan_digits by (cbn; lia || done).
  cbn. by rewrite wrapw_id by (unfold uw; lia).
Qed.

Ltac scan_field :=
  rewrite scan_print by (done || lia); cbn [mbind option_bind expect]; rewrite ?Z.eqb_refl;
  cbn [mbind option_bind].

Lemma c_str_id l : Forall (fun c => c ≠ 0) l → c_str l = l.
Proof. induction 1 as [|c l Hc _ IH]; cbn; [done|]. rewrite (proj2 (Z.eqb_neq c 0)) by done. by rewrite IH. Qed.

Lemma print_hex_length w n k :
  0 <= n < 16 ^ Z.of_nat k → (0 < k)%nat → (w <= k)%nat → (length (print_hex w n) <= k)%nat.
Proof.
  intros Hn Hk Hw. unfold print_hex, print_digits. rewrite length_app, length_replicate.
  pose proof (hex_loop_length 8 n [] k Hn Hk) as Hl. cbn [length] in Hl. lia.
Qed.

(** An address printed as sysfs writes it reads back as the same address, whatever the bus, device and
    function, for every domain of up to seven digits, which is what the buffer has room for. *)
Theorem pci_roundtrip a :
  0 <= pci_domain a < 16 ^ 7 → u8 (pci_bus a) → u8 (pci_device a) → 0 <= pci_function a < 16 →
  parse_pci_address (pci_to_string a) = (Status.kOk, Some a).
Proof.
  destruct a as [d b v f]. unfold pci_to_string, pci_text, uw.
  cbn [pci_domain pci_bus pci_device pci_function]. intros Hd Hb Hv Hf.
  assert (L1 : (length (print_hex 4 d) <= 7)%nat) by (apply print_hex_length; cbn; lia).
  assert (L2 : (length (print_hex 2 b) <= 2)%nat) by (apply print_hex_length; cbn; lia).
  assert (L3 : (length (print_hex 2 v) <= 2)%nat) by (apply print_hex_length; cbn; lia).
  assert (L4 : (length (print_hex 0 f) <= 1)%nat) by (apply print_hex_length; cbn; lia).
  rewrite take_ge by (repeat (rewrite length_app; cbn [length]); lia).
  unfold parse_pci_address. rewrite c_str_id.
  2: { assert (Hz : ∀ w n, 0 <= n → Forall (fun c => c ≠ 0) (print_hex w n)).
       { intros w n Hn. eapply Forall_impl; [exact (proj1 (print_digits_printed 8 w n Hn ltac:(lia)))|]. unfold printed. cbn. lia. }
       repeat (apply list.Forall_app; split; [apply Hz; lia|constructor; [done|]]). apply Hz. lia. }
  unfold scan_pci. do 3 scan_field. rewrite <- (app_nil_r (print_hex 0 f)). scan_field.
  by rewrite !wrapw_id by (unfold uw; lia).
Qed.

(** The first address the buffer has no room for. *)
Lemma pci_domain_cut :
  parse_pci_address (pci_to_string (mkPci (16 ^ 7) 1 0 0)) = (Status.kInvalidArgument, None).
Proof. vm_compute. reflexivity. Qed.

Lemma pci_roundtrip_witness :
  parse_pci_address (pci_to_string (mkPci 0x10000 0xe3 0x1f 7)) = (Status.kOk, Some (mkPci 0x10000 0xe3 0x1f 7)).
Proof. apply (pci_roundtrip (mkPci 0x10000 0xe3 0x1f 7)); cbn; unfold uw; lia. Defined.

(** ** The nearest adapter *)

Lemma proximity_sym a na b nb : proximity a na b nb = proximity b nb a na.
Proof.
  unfold proximity. rewrite (andb_comm (pci_valid a)), (orb_comm (na <? 0)), (Z.eqb_sym na).
  by rewrite (Z.eqb_sym (pci_domain a)), (Z.eqb_sym (pci_bus a)), (Z.eqb_sym (pci_device a)).
Qed.

(** An adapter that could be paired: up, and at a known distance. *)

Definition candidate (d : DeviceLocation) (n : NicInfo) : Prop :=
  nic_active n = true ∧ nic_proximity d n ≠ Proximity.kUnknown.

Definition distance (d : DeviceLocation) (n : NicInfo) : Z := Proximity.rank (nic_proximity d n).

(** [n] is the first of the nearest candidates of [nics]. *)

Definition first_nearest (d : DeviceLocation) (nics : list NicInfo) (n : NicInfo) : Prop :=
  ∃ l1 l2, nics = l1 ++ n :: l2 ∧ candidate d n
    ∧ (∀ m, m ∈ l1 → candidate d m → distance d n < distance d m)
    ∧ (∀ m, m ∈ l2 → candidate d m → distance d n <= distance d m).

Lemma first_nearest_snoc_skip d l n m :
  first_nearest d l n → (candidate d m → distance d n <= distance d m) → first_nearest d (l ++ [m]) n.
Proof.
  intros (l1 & l2 & -> & Hn & H1 & H2) Hm. exists l1, (l2 ++ [m]). rewrite <- app_assoc.
  split_and!; [done..|]. intros x Hx. apply elem_of_app in Hx as [Hx|Hx]; [by apply H2|].
  by apply list_elem_of_singleton in Hx as ->.
Qed.

Lemma first_nearest_snoc_take d l n :
  candidate d n → (∀ m, m ∈ l → candidate d m → distance d n < distance d m) → first_nearest d (l ++ [n]) n.
Proof. intros Hn Hl. exists l, []. split_and!; [done..|]. intros m Hm. by apply elem_of_nil in Hm. Qed.

Definition best_of (d : DeviceLocation) (nics : list NicInfo) (best : option (NicInfo * Proximity.t)) : Prop :=
  match best with
  | Some (n, p) => p = nic_proximity d n ∧ first_nearest d nics n
  | None => ∀ m, m ∈ nics → ¬ candidate d m
  end.

Lemma first_nearest_least d l n m : first_nearest d l n → m ∈ l → candidate d m → distance d n <= distance d m.
Proof.
  intros (l1 & l2 & -> & Hn & H1 & H2) Hm Hc. apply elem_of_app in Hm as [Hm|Hm].
  - specialize (H1 m Hm Hc). lia.
  - apply elem_of_cons in Hm as [->|Hm]; [lia|by apply H2].
Qed.

Lemma best_loop_spec d nics seen best :
  best_of d seen best → best_of d (seen ++ nics) (best_loop d nics best).
Proof.
  revert seen best. induction nics as [|n nics IH]; intros seen best Hb; [by rewrite app_nil_r|].
  change (n :: nics) with ([n] ++ nics). rewrite app_assoc.
  assert (Hskip : ¬ candidate d n → best_of d (seen ++ [n]) best).
  { intros Hn. destruct best as [[m p]|]; cbn in *.
    - destruct Hb as [-> Hf]. split; [done|]. by apply first_nearest_snoc_skip.
    - intros x Hx. apply elem_of_app in Hx as [Hx|Hx]; [by apply Hb|]. by apply list_elem_of_singleton in Hx as ->. }
  cbn [app best_loop]. destruct (nic_active n) eqn:Ea; cbn [negb].
  2: { apply IH, Hskip. intros [? _]. congruence. }
  case_bool_decide as Ep; [apply IH, Hskip; intros [_ ?]; congruence|].
  assert (Hn : candidate d n) by done. destruct best as [[m p]|].
  - destruct Hb as [-> Hf]. destruct (Z.ltb_spec (Proximity.rank (nic_proximity d n)) (Proximity.rank (nic_proximity d m)))
      as [Hl|Hl]; apply IH; cbn; split; try done.
    + apply first_nearest_snoc_take; [done|]. intros x Hx Hc.
      pose proof (first_nearest_least _ _ _ _ Hf Hx Hc). unfold distance in *. lia.
    + by apply first_nearest_snoc_skip.
  - apply IH. cbn. split; [done|]. apply first_nearest_snoc_take; [done|]. intros x Hx Hc. by destruct (Hb x Hx).
Qed.

(** C39: The adapter a device is paired with is up, its distance is known and reported as it is, and no other
    such adapter is nearer, nor as near and earlier in the list; and none is named exactly when there is
    no such adapter. *)
Theorem best_nic_nearest d nics :
  match best_nic_for d nics with
  | Some (n, p) => p = nic_proximity d n ∧ first_nearest d nics n
  | None => ∀ m, m ∈ nics → ¬ candidate d m
  end.
Proof. apply (best_loop_spec d nics [] None). intros m Hm. by apply elem_of_nil in Hm. Qed.
