(* ===== verification/Mlx5.v ===== *)
(** * The mlx5 commands ([src/transport/rdma/mlx5_prm.h, mlx5_ordering.{h,cpp}]).

    Buffers are lists of bytes and a pointer into one is a byte offset.  The
    device's commands, its address handles and the system files it consults are
    the world [W], their calls the class [Mlx5]; the library the source calls is the
    one behind [HUX_HAVE_MLX5DV].  The commands are built by straight-line code, so
    each is the list of writes made to a zeroed buffer, in their order. *)

From stdpp Require Import base list gmap strings numbers pretty.
From S2P Require Import Prelude Types RdmaVerbs Topology.

(** ** Fields *)

Record Field : Type := mkField { f_off : Z; f_bits : Z }.

Definition byte_of (buf : list Z) (i : nat) : Z := default 0 (buf !! i).

Definition word_at (buf : list Z) (i : nat) : Z :=
  Z.lor (Z.lor (Z.lor (Z.shiftl (byte_of buf i) 24) (Z.shiftl (byte_of buf (i + 1)) 16))
           (Z.shiftl (byte_of buf (i + 2)) 8)) (byte_of buf (i + 3)).

Definition store_word (buf : list Z) (i : nat) (w : Z) : list Z :=
  <[(i + 3)%nat := wrapw 8 w]> (<[(i + 2)%nat := wrapw 8 (Z.shiftr w 8)]>
    (<[(i + 1)%nat := wrapw 8 (Z.shiftr w 16)]> (<[i := wrapw 8 (Z.shiftr w 24)]> buf))).

(** The word a field is in, for a pointer [at_] into the buffer. *)

Definition word_index (at_ : nat) (f : Field) : nat := at_ + Z.to_nat (f_off f / 32) * 4.

Definition field_shift (f : Field) : Z := 32 - f_off f mod 32 - f_bits f.

Definition field_mask (f : Field) : Z :=
  if f_bits f =? 32 then 4294967295 else wrap32 (Z.shiftl 1 (f_bits f) - 1).

Definition prm_set (buf : list Z) (at_ : nat) (f : Field) (v : Z) : list Z :=
  let shift := field_shift f in
  let mask := wrap32 (Z.shiftl (field_mask f) shift) in
  let w := word_at buf (word_index at_ f) in
  store_word buf (word_index at_ f)
    (Z.lor (Z.land w (wrap32 (Z.lnot mask))) (Z.land (wrap32 (Z.shiftl v shift)) mask)).

Definition prm_get (buf : list Z) (at_ : nat) (f : Field) : Z :=
  Z.land (Z.shiftr (word_at buf (word_index at_ f)) (field_shift f)) (field_mask f).

(** The UDP source port the kernel gives a queue pair. *)

Definition roce_udp_sport (local_qpn remote_qpn : Z) : Z :=
  let v := wrap64 (local_qpn * remote_qpn) in
  let v := Z.lxor v (Z.shiftr v 20) in
  let v := Z.lxor v (Z.shiftr v 40) in
  let label := Z.land v 0xfffff in
  let low := Z.land label 0x3fff in
  let low := Z.lxor low (Z.shiftr (Z.land label 0xfc000) 14) in
  wrap16 (Z.lor low 0xc000).

(** ** The layout *)

Definition kQueryHcaCap : Z := 0x100.
Definition kInit2RtrQp : Z := 0x503.
Definition kRtr2RtsQp : Z := 0x504.
Definition kQueryQp : Z := 0x50b.

Definition kCapGeneral : Z := Z.lor (Z.shiftl 0 1) 1.

Definition kQueryHcaCapInBytes : nat := 16.
Definition kQueryHcaCapOutBytes : nat := Z.to_nat 4112.
Definition kModifyQpInBytes : nat := 272.
Definition kModifyQpOutBytes : nat := 16.
Definition kQueryQpInBytes : nat := 16.
Definition kQueryQpOutBytes : nat := 272.

Definition kOpcode : Field := mkField 0x00 16.
Definition kOpMod : Field := mkField 0x30 16.
Definition kStatus : Field := mkField 0x00 8.
Definition kSyndrome : Field := mkField 0x20 32.
Definition kQpn : Field := mkField 0x48 24.
Definition kOptParamMask : Field := mkField 0x80 32.

Definition kCapByteOffset : nat := 16.
Definition kQpcByteOffset : nat := 24.

Definition kCapLogMaxMsg : Field := mkField 0x1c3 5.
Definition kCapOooRwRc : Field := mkField 0x1ca 1.

Definition kOptRre : Z := 2.
Definition kOptRae : Z := 4.
Definition kOptRwe : Z := 8.

Definition kQpcState : Field := mkField 0x00 4.
Definition kQpcSt : Field := mkField 0x08 8.
Definition kQpcPmState : Field := mkField 0x13 2.
Definition kQpcDpOrdering0 : Field := mkField 0x26 1.
Definition kQpcDpOrderingForce : Field := mkField 0x27 1.
Definition kQpcPd : Field := mkField 0x28 24.
Definition kQpcMtu : Field := mkField 0x40 3.
Definition kQpcLogMsgMax : Field := mkField 0x43 5.
Definition kQpcRemoteQpn : Field := mkField 0xa8 24.
Definition kQpcLogAckReqFreq : Field := mkField 0x380 4.
Definition kQpcLogSraMax : Field := mkField 0x388 3.
Definition kQpcRetryCount : Field := mkField 0x38d 3.
Definition kQpcRnrRetry : Field := mkField 0x390 3.
Definition kQpcNextSendPsn : Field := mkField 0x3c8 24.
Definition kQpcCqnSnd : Field := mkField 0x3e8 24.
Definition kQpcLogRraMax : Field := mkField 0x488 3.
Definition kQpcRre : Field := mkField 0x490 1.
Definition kQpcRwe : Field := mkField 0x491 1.
Definition kQpcRae : Field := mkField 0x492 1.
Definition kQpcDpOrdering1 : Field := mkField 0x49c 1.
Definition kQpcMinRnrNak : Field := mkField 0x4a3 5.
Definition kQpcNextRcvPsn : Field := mkField 0x4a8 24.
Definition kQpcCqnRcv : Field := mkField 0x4e8 24.
Definition kAdsByteOffset : nat := 24.

Definition kAdsPkeyIndex : Field := mkField 0x10 16.
Definition kAdsAckTimeout : Field := mkField 0x40 5.
Definition kAdsSrcAddrIndex : Field := mkField 0x48 8.
Definition kAdsHopLimit : Field := mkField 0x58 8.
Definition kAdsRgidByteOffset : nat := 16.
Definition kAdsDscp : Field := mkField 0x10a 6.
Definition kAdsUdpSport : Field := mkField 0x110 16.
Definition kAdsEthPrio : Field := mkField 0x121 3.
Definition kAdsVhcaPortNum : Field := mkField 0x128 8.
Definition kAdsRmacByteOffset : nat := 38.

Definition kStateRts : Z := 3.
Definition kServiceRc : Z := 0.
Definition kPathMigrated : Z := 3.
Definition kAckReqFreq : Z := 8.

(** ** Commands *)

(** [set] of a field and [std::memcpy] of [n] bytes, each at an offset. *)

Inductive Write : Type :=
| WSet (at_ : nat) (f : Field) (v : Z)
| WCopy (at_ : nat) (n : nat) (bs : list Z).

Definition write (buf : list Z) (w : Write) : list Z :=
  match w with
  | WSet at_ f v => prm_set buf at_ f v
  | WCopy at_ n bs => list_inserts at_ (take n bs) buf
  end.

Definition build (n : nat) (ws : list Write) : list Z := foldl write (replicate n 0) ws.

(** [fls(n - 1)]; 32 turns reach every width the shift has. *)

Fixpoint log2_loop (turns : nat) (n l : Z) : Z :=
  match turns with
  | O => l
  | S turns => if (1 <? n) && (Z.shiftl 1 l <? n) then log2_loop turns n (l + 1) else l
  end.

Definition log2_up (n : Z) : Z := log2_loop 32 n 0.

Definition query_qp_in (qpn : Z) : list Write := [WSet 0 kOpcode kQueryQp; WSet 0 kQpn qpn].

(** [qpc] is the context being written, [current] the one read, each its buffer
    past the command's header. *)

Definition common_fields (now : list Z) : list Write :=
  let cur := fun f => prm_get now kQpcByteOffset f in
  [WSet kQpcByteOffset kQpcSt kServiceRc; WSet kQpcByteOffset kQpcPmState kPathMigrated;
   WSet kQpcByteOffset kQpcPd (cur kQpcPd); WSet kQpcByteOffset kQpcCqnSnd (cur kQpcCqnSnd);
   WSet kQpcByteOffset kQpcCqnRcv (cur kQpcCqnRcv); WSet kQpcByteOffset kQpcLogAckReqFreq kAckReqFreq].

Definition rtr_writes (qpn : Z) (now mac : list Z) (c : Mlx5Connect) : list Write :=
  let qpc := kQpcByteOffset in
  let ads := (kQpcByteOffset + kAdsByteOffset)%nat in
  [WSet 0 kOpcode kInit2RtrQp; WSet 0 kQpn qpn;
   WSet 0 kOptParamMask (Z.lor (Z.lor kOptRre kOptRae) kOptRwe)]
  ++ common_fields now ++
  [WSet qpc kQpcMtu (mc_path_mtu c); WSet qpc kQpcLogMsgMax (mc_log_max_msg c);
   WSet qpc kQpcRemoteQpn (mc_remote_qpn c); WSet qpc kQpcDpOrdering0 1;
   WSet qpc kQpcLogRraMax (log2_up (mc_max_dest_rd_atomic c));
   WSet qpc kQpcRre 1; WSet qpc kQpcRwe 1; WSet qpc kQpcRae 0;
   WSet qpc kQpcMinRnrNak (mc_min_rnr_timer c); WSet qpc kQpcNextRcvPsn 0;
   WSet ads kAdsPkeyIndex 0; WCopy (ads + kAdsRgidByteOffset) 16 (mc_dgid c);
   WSet ads kAdsSrcAddrIndex (mc_sgid_index c); WSet ads kAdsHopLimit (mc_hop_limit c);
   WCopy (ads + kAdsRmacByteOffset) 6 mac;
   WSet ads kAdsUdpSport (roce_udp_sport qpn (mc_remote_qpn c));
   WSet ads kAdsDscp 0; WSet ads kAdsEthPrio 0; WSet ads kAdsVhcaPortNum (mc_port c)].

Definition rts_writes (qpn : Z) (now : list Z) (c : Mlx5Connect) : list Write :=
  let qpc := kQpcByteOffset in
  [WSet 0 kOpcode kRtr2RtsQp; WSet 0 kQpn qpn]
  ++ common_fields now ++
  [WSet qpc kQpcLogSraMax (log2_up (mc_max_rd_atomic c)); WSet qpc kQpcRetryCount (mc_retry_cnt c);
   WSet qpc kQpcRnrRetry (mc_rnr_retry c); WSet qpc kQpcNextSendPsn 0;
   WSet (qpc + kAdsByteOffset) kAdsAckTimeout (mc_timeout c)].

(** ** The library and the system *)

(** A context is a number, 0 for none.  [mlx5dv_lag_ports] is what
    [mlx5dv_query_device] says of bonding, [Some None] when it says nothing;
    [file] is a file's contents. *)

Class Mlx5 (W : Type) : Type := {
  devx_qp_query : W → Z → list Z → W * option (list Z);
  devx_qp_modify : W → Z → list Z → W * bool;
  devx_general_cmd : W → Z → list Z → W * option (list Z);
  set_qp_rts : W → Z → W;
  create_ah : W → Z → Mlx5Connect → W * option Z;
  ah_rmac : W → Z → option (list Z);
  destroy_ah : W → Z → W;
  mlx5dv_is_supported : W → Z → bool;
  mlx5dv_open_device : W → Z → W * Z;
  ibv_open_device : W → Z → W * Z;
  mlx5dv_lag_ports : W → Z → option (option Z);
  file : W → string → option (list Z)
}.

Section Calls.
Context {W : Type} `{Mlx5 W}.

Definition query_qp (w : W) (qp : Z) : W * option (list Z) :=
  devx_qp_query w qp (build kQueryQpInBytes (query_qp_in qp)).

Definition resolve_dmac (w : W) (qp : Z) (c : Mlx5Connect) : W * option (list Z) :=
  let '(w, ah) := create_ah w qp c in
  match ah with
  | None => (w, None)
  | Some ah => (destroy_ah w ah, ah_rmac w ah)
  end.

Definition placed_out_of_order (now : list Z) : bool :=
  (prm_get now kQpcByteOffset kQpcState =? kStateRts)
  && (prm_get now kQpcByteOffset kQpcDpOrdering0 =? 1)
  && (prm_get now kQpcByteOffset kQpcDpOrdering1 =? 0).

Definition mlx5_connect_ooo_rw (w : W) (qp : Z) (c : Mlx5Connect) : W * Status.t :=
  let '(w, now) := query_qp w qp in
  match now with
  | None => (w, Status.kDeviceError)
  | Some now =>
      let '(w, mac) := resolve_dmac w qp c in
      match mac with
      | None => (w, Status.kDeviceError)
      | Some mac =>
          let '(w, rtr) := devx_qp_modify w qp (build kModifyQpInBytes (rtr_writes qp now mac c)) in
          if negb rtr then (w, Status.kDeviceError)
          else
            let '(w, rts) := devx_qp_modify w qp (build kModifyQpInBytes (rts_writes qp now c)) in
            if negb rts then (w, Status.kDeviceError)
            else
              let '(w, now) := query_qp (set_qp_rts w qp) qp in
              match now with
              | None => (w, Status.kDeviceError)
              | Some now => (w, if placed_out_of_order now then Status.kOk else Status.kDeviceError)
              end
      end
  end.

Definition mlx5_open_device (w : W) (device : Z) : W * (Z * bool * string) :=
  if negb (mlx5dv_is_supported w device) then
    let '(w, ctx) := ibv_open_device w device in (w, (ctx, false, "not an mlx5 adapter"%string))
  else
    let '(w, ctx) := mlx5dv_open_device w device in
    if ctx =? 0 then
      let '(w, ctx) := ibv_open_device w device in (w, (ctx, false, "device commands refused"%string))
    else (w, (ctx, true, ""%string)).

(** The longest message, or why not. *)

Definition mlx5_ooo_rw_supported (w : W) (ctx : Z) : W * (string + Z) :=
  match mlx5dv_lag_ports w ctx with
  | None => (w, inl "adapter query failed"%string)
  | Some lag =>
      if match lag with Some n => 1 <? n | None => false end then (w, inl "bonded adapter"%string)
      else
        let '(w, out) := devx_general_cmd w ctx
          (build kQueryHcaCapInBytes [WSet 0 kOpcode kQueryHcaCap; WSet 0 kOpMod kCapGeneral]) in
        match out with
        | None => (w, inl "capability query refused"%string)
        | Some out =>
            if prm_get out kCapByteOffset kCapOooRwRc =? 0 then (w, inl "adapter cannot"%string)
            else (w, inr (prm_get out kCapByteOffset kCapLogMaxMsg))
        end
  end.

(** A file without the space around its contents. *)

Definition is_blank (c : Z) : bool := (c =? 32) || (c =? 9) || (c =? 13) || (c =? 10).

Fixpoint skip_blanks (l : list Z) : list Z :=
  match l with
  | c :: l' => if is_blank c then skip_blanks l' else l
  | [] => []
  end.

Definition read_file (w : W) (path : string) : list Z :=
  match file w path with
  | None => []
  | Some l => reverse (skip_blanks (reverse (skip_blanks l)))
  end.

(** The hop limit, or why the kernel's path cannot be reproduced. *)

Definition mlx5_kernel_path (w : W) (device : string) (port : Z) : string + Z :=
  let base := "/sys/class/infiniband/" +:+ device in
  let p := pretty port in
  if negb (bool_decide (read_file w (base +:+ "/tc/" +:+ p +:+ "/traffic_class") = [])) then
    inl "traffic class override"%string
  else
    let ttl := atoi (c_str (read_file w (base +:+ "/ttl/" +:+ p +:+ "/ttl"))) in
    if (0 <? ttl) && (ttl <=? 255) then inr ttl
    else
      let def := atoi (c_str (read_file w "/proc/sys/net/ipv4/ip_default_ttl")) in
      inr (if (2 <=? def) && (def <=? 255) then def else 64).

End Calls.
