(* ===== verification/Mlx5Laws.v ===== *)
(** * What an mlx5 command carries.

    Bits are numbered as the device numbers them, from the most significant of the
    first byte.  A field written is read back, and nothing else changes; so a command
    whose fields do not overlap carries every one of them. *)

From stdpp Require Import base list gmap strings numbers.
From S2P Require Import Prelude Types RdmaVerbs Topology Mlx5.

(** ** Bits of a buffer *)

Definition bit (buf : list Z) (i : Z) : bool := Z.testbit (byte_of buf (Z.to_nat (i / 8))) (7 - i mod 8).

Lemma byte_of_u8 buf i : Forall u8 buf → u8 (byte_of buf i).
Proof.
  intros Hb. unfold byte_of. destruct (buf !! i) as [x|] eqn:E; cbn; [|unfold uw; lia].
  rewrite list.Forall_forall in Hb. apply Hb. by apply list_elem_of_lookup_2 in E.
Qed.

(** The bits of one byte shifted into a word. *)

Lemma shifted_byte b s k :
  u8 b → 0 <= s → Z.testbit (Z.shiftl b s) k = if (s <=? k) && (k <? s + 8) then Z.testbit b (k - s) else false.
Proof.
  intros Hb Hs. destruct (s <=? k) eqn:E1, (k <? s + 8) eqn:E2; b2p; cbn [andb].
  - apply Z.shiftl_spec. lia.
  - rewrite Z.shiftl_spec by lia. apply (bits_high 8); [done|lia].
  - destruct (Z_lt_le_dec k 0); [by rewrite Z.testbit_neg_r|].
    rewrite Z.shiftl_spec by lia. by rewrite Z.testbit_neg_r by lia.
  - lia.
Qed.

Lemma word_at_bit buf i k :
  Forall u8 buf → 0 <= k < 32 → Z.testbit (word_at buf i) k = bit buf (8 * Z.of_nat i + 31 - k).
Proof.
  intros Hb Hk. unfold word_at, bit. rewrite !Z.lor_spec.
  rewrite <- (Z.shiftl_0_r (byte_of buf (i + 3))).
  rewrite !shifted_byte by (first [by apply byte_of_u8 | lia]).
  assert (E : ∃ q r, k = 8 * q + r ∧ 0 <= r < 8 ∧ 0 <= q < 4).
  { exists (k / 8), (k mod 8). pose proof (Z.div_mod k 8). pose proof (Z.mod_pos_bound k 8). lia. }
  destruct E as (q & r & -> & Hr & Hq).
  replace ((8 * Z.of_nat i + 31 - (8 * q + r)) / 8) with (Z.of_nat i + 3 - q)
    by (apply Z.div_unique with (7 - r); lia).
  replace ((8 * Z.of_nat i + 31 - (8 * q + r)) mod 8) with (7 - r)
    by (apply Z.mod_unique with (Z.of_nat i + 3 - q); lia).
  replace (7 - (7 - r)) with r by lia.
  assert (q = 0 ∨ q = 1 ∨ q = 2 ∨ q = 3) as [->|[->|[->| ->]]] by lia;
    repeat (match goal with |- context [(?a <=? ?b) && (?c <? ?d)] =>
      let t := fresh in destruct ((a <=? b) && (c <? d)) eqn:t; b2p; try lia end);
    rewrite ?orb_false_r; cbn [orb]; f_equal; try lia; f_equal; lia.
Qed.

(** ** Writing a word *)

Lemma byte_of_insert buf i x n :
  (i < length buf)%nat → byte_of (<[i := x]> buf) n = if decide (n = i) then x else byte_of buf n.
Proof.
  intros Hi. unfold byte_of. case_decide as E; [subst; by rewrite list_lookup_insert_eq|].
  by rewrite list_lookup_insert_ne by congruence.
Qed.

Lemma wrap8_bit w s k : 0 <= k < 8 → 0 <= s → Z.testbit (wrapw 8 (Z.shiftr w s)) k = Z.testbit w (k + s).
Proof. intros Hk Hs. unfold wrapw. rewrite Z.mod_pow2_bits_low by lia. by rewrite Z.shiftr_spec by lia. Qed.

Lemma store_word_bit buf i w j :
  (i + 4 <= length buf)%nat → 0 <= j →
  bit (store_word buf i w) j =
  if (8 * Z.of_nat i <=? j) && (j <? 8 * Z.of_nat i + 32) then Z.testbit w (8 * Z.of_nat i + 31 - j)
  else bit buf j.
Proof.
  intros Hi Hj. unfold bit, store_word.
  pose proof (Z.div_mod j 8) as Hd. pose proof (Z.mod_pos_bound j 8) as Hm.
  set (q := j / 8) in *. set (r := j mod 8) in *.
  rewrite !byte_of_insert by (rewrite ?length_insert; lia).
  replace (wrapw 8 w) with (wrapw 8 (Z.shiftr w 0)) by (by rewrite Z.shiftr_0_r).
  destruct (Z.leb_spec (8 * Z.of_nat i) j), (Z.ltb_spec j (8 * Z.of_nat i + 32)); cbn [andb];
    repeat case_decide; try lia; rewrite ?wrap8_bit by lia; try done; f_equal; lia.
Qed.

Lemma store_word_bytes buf i w :
  Forall u8 buf → Forall u8 (store_word buf i w) ∧ length (store_word buf i w) = length buf.
Proof.
  intros Hb. unfold store_word. split; [|by rewrite !length_insert].
  repeat apply Forall_insert; auto; apply wrapw_uw; lia.
Qed.

(** ** Fields *)

(** The field lies inside one word of a buffer of [n] bytes. *)

Definition fits (n : nat) (at_ : nat) (f : Field) : bool :=
  (0 <? f_bits f) && (0 <=? f_off f) && (f_off f mod 32 + f_bits f <=? 32)
  && bool_decide (word_index at_ f + 4 <= n)%nat.

Definition start (at_ : nat) (f : Field) : Z := 8 * Z.of_nat at_ + f_off f.

Lemma word_index_start at_ f :
  0 <= f_off f → 8 * Z.of_nat (word_index at_ f) + f_off f mod 32 = start at_ f.
Proof.
  intros Hf. unfold word_index, start. pose proof (Z.div_mod (f_off f) 32).
  pose proof (Z.div_pos (f_off f) 32). lia.
Qed.

Lemma field_mask_ones f : 0 < f_bits f <= 32 → field_mask f = Z.ones (f_bits f).
Proof.
  intros Hf. unfold field_mask. destruct (Z.eqb_spec (f_bits f) 32) as [->|Hn]; [done|].
  rewrite Z.ones_equiv, Z.shiftl_1_l, wrapw_id; [lia|]. unfold uw.
  pose proof (Z.pow_pos_nonneg 2 (f_bits f)). assert (2 ^ f_bits f <= 2 ^ 32) by (apply Z.pow_le_mono_r; lia). lia.
Qed.

Lemma wrap32_bit x k : 0 <= k < 32 → Z.testbit (wrap32 x) k = Z.testbit x k.
Proof. intros Hk. unfold wrapw. apply Z.mod_pow2_bits_low. lia. Qed.

Definition in_field (f : Field) (k : Z) : bool :=
  (field_shift f <=? k) && (k <? field_shift f + f_bits f).

Lemma mask_bit f k :
  0 < f_bits f → f_off f mod 32 + f_bits f <= 32 → 0 <= k < 32 →
  Z.testbit (wrap32 (Z.shiftl (field_mask f) (field_shift f))) k = in_field f k.
Proof.
  intros Hb Hf Hk. pose proof (Z.mod_pos_bound (f_off f) 32). rewrite wrap32_bit by done.
  rewrite field_mask_ones by lia. unfold in_field, field_shift in *.
  destruct (_ <=? k) eqn:E1, (k <? _) eqn:E2; b2p; cbn [andb]; rewrite Z.shiftl_spec by lia.
  - apply Z.ones_spec_low. lia.
  - apply Z.ones_spec_high. lia.
  - apply Z.testbit_neg_r. lia.
  - lia.
Qed.

Lemma fits_elim n at_ f :
  fits n at_ f = true →
  0 < f_bits f ∧ 0 <= f_off f ∧ f_off f mod 32 + f_bits f <= 32 ∧ (word_index at_ f + 4 <= n)%nat.
Proof.
  unfold fits. rewrite !andb_true_iff, Z.ltb_lt, !Z.leb_le, bool_decide_eq_true. tauto.
Qed.

Lemma prm_get_bit buf at_ f k :
  fits (length buf) at_ f = true → Forall u8 buf →
  Z.testbit (prm_get buf at_ f) k =
  if (0 <=? k) && (k <? f_bits f) then bit buf (start at_ f + f_bits f - 1 - k) else false.
Proof.
  intros Hf Hb. apply fits_elim in Hf as (H1 & H2 & H3 & H4). pose proof (word_index_start at_ f H2) as Hs.
  pose proof (Z.mod_pos_bound (f_off f) 32). unfold prm_get. rewrite field_mask_ones by lia.
  destruct (Z.leb_spec 0 k) as [Hk|]; cbn [andb]; [|by rewrite Z.testbit_neg_r].
  rewrite Z.land_spec, Z.shiftr_spec by lia. destruct (Z.ltb_spec k (f_bits f)).
  - rewrite Z.ones_spec_low, andb_true_r by lia. unfold field_shift. rewrite word_at_bit by (done || lia).
    f_equal. lia.
  - rewrite Z.ones_spec_high by lia. apply andb_false_r.
Qed.

Lemma prm_set_bit buf at_ f v j :
  fits (length buf) at_ f = true → Forall u8 buf → 0 <= j →
  bit (prm_set buf at_ f v) j =
  if (start at_ f <=? j) && (j <? start at_ f + f_bits f) then Z.testbit v (start at_ f + f_bits f - 1 - j)
  else bit buf j.
Proof.
  intros Hf Hb Hj. apply fits_elim in Hf as (H1 & H2 & H3 & H4). pose proof (word_index_start at_ f H2) as Hs.
  pose proof (Z.mod_pos_bound (f_off f) 32) as Hm. unfold prm_set. rewrite store_word_bit by (done || lia).
  set (i := word_index at_ f) in *. destruct (_ && (j <? 8 * Z.of_nat i + 32)) eqn:Ew; b2p.
  - set (k := 8 * Z.of_nat i + 31 - j). rewrite Z.lor_spec, !Z.land_spec, mask_bit by lia.
    rewrite (wrap32_bit (Z.lnot _)), Z.lnot_spec, mask_bit, (wrap32_bit (Z.shiftl v _)) by lia.
    replace ((start at_ f <=? j) && (j <? start at_ f + f_bits f)) with (in_field f k).
    2: { unfold in_field, field_shift, k. apply eq_true_iff_eq. rewrite !andb_true_iff. rewrite !Z.leb_le, !Z.ltb_lt. lia. }
    destruct (in_field f k) eqn:Ei; cbn [negb andb].
    + rewrite andb_true_r, andb_false_r. cbn [orb]. unfold in_field, field_shift, k in *. b2p.
      rewrite Z.shiftl_spec by lia. f_equal. lia.
    + rewrite andb_true_r, andb_false_r, orb_false_r. unfold k. rewrite word_at_bit by (done || lia).
      f_equal. lia.
  - apply andb_false_iff in Ew. destruct (_ && _) eqn:Ef; [|done]. b2p. destruct Ew as [Ew|Ew]; b2p; lia.
Qed.

Lemma prm_set_bytes buf at_ f v :
  Forall u8 buf → Forall u8 (prm_set buf at_ f v) ∧ length (prm_set buf at_ f v) = length buf.
Proof. apply store_word_bytes. Qed.

Lemma bits_equal buf buf' at_ f :
  fits (length buf) at_ f = true → Forall u8 buf → Forall u8 buf' → length buf' = length buf →
  (∀ j, start at_ f <= j < start at_ f + f_bits f → bit buf' j = bit buf j) →
  prm_get buf' at_ f = prm_get buf at_ f.
Proof.
  intros Hf Hb Hb' Hl Hj. apply Z.bits_inj'. intros k Hk. rewrite !prm_get_bit by (by rewrite ?Hl).
  destruct (_ && _) eqn:E; [|done]. b2p. apply Hj. lia.
Qed.

(** The value written, cut to the field's width, is what is read back. *)

Lemma prm_get_set buf at_ f v :
  fits (length buf) at_ f = true → Forall u8 buf →
  prm_get (prm_set buf at_ f v) at_ f = v mod 2 ^ f_bits f.
Proof.
  intros Hf Hb. pose proof (prm_set_bytes buf at_ f v Hb) as [Hb' Hl].
  pose proof (fits_elim _ _ _ Hf) as (H1 & H2 & H3 & H4).
  apply Z.bits_inj'. intros k Hk. rewrite prm_get_bit by (by rewrite ?Hl).
  rewrite (proj2 (Z.leb_le 0 k)) by done. cbn [andb]. destruct (Z.ltb_spec k (f_bits f)).
  - rewrite Z.mod_pow2_bits_low by lia. unfold start. rewrite prm_set_bit by (done || lia).
    fold (start at_ f). rewrite (proj2 (Z.leb_le _ _)), (proj2 (Z.ltb_lt _ _)) by lia. cbn [andb]. f_equal. lia.
  - rewrite Z.mod_pow2_bits_high by lia. done.
Qed.

(** ** Commands *)

(** The bits a write covers, that it stays in a buffer of [n] bytes, and that a copy
    has the bytes it says. *)

Definition extent (w : Write) : Z * Z :=
  match w with
  | WSet at_ f _ => (start at_ f, f_bits f)
  | WCopy at_ n _ => (8 * Z.of_nat at_, 8 * Z.of_nat n)
  end.

Definition write_fits (n : nat) (w : Write) : bool :=
  match w with
  | WSet at_ f _ => fits n at_ f
  | WCopy at_ k _ => bool_decide (at_ + k <= n)%nat
  end.

Definition write_whole (w : Write) : Prop :=
  match w with
  | WSet _ _ _ => True
  | WCopy _ k bs => length bs = k ∧ Forall u8 bs
  end.

Definition apart (a b : Z * Z) : bool := (fst a + snd a <=? fst b) || (fst b + snd b <=? fst a).

Fixpoint all_apart (l : list (Z * Z)) : bool :=
  match l with
  | [] => true
  | a :: l => forallb (apart a) l && all_apart l
  end.

(** The buffer says what was written. *)

Definition carried (buf : list Z) (w : Write) : Prop :=
  match w with
  | WSet at_ f v => prm_get buf at_ f = v mod 2 ^ f_bits f
  | WCopy at_ k bs => ∀ i, (i < k)%nat → byte_of buf (at_ + i) = byte_of bs i
  end.

Lemma list_inserts_byte at_ bs buf n :
  (at_ + length bs <= length buf)%nat →
  byte_of (list_inserts at_ bs buf) n =
  if bool_decide (at_ <= n < at_ + length bs)%nat then byte_of bs (n - at_) else byte_of buf n.
Proof.
  intros Hl. unfold byte_of. case_bool_decide.
  - by rewrite list_lookup_inserts by lia.
  - destruct (decide (n < at_)%nat); [rewrite list_lookup_inserts_lt|rewrite list_lookup_inserts_ge]; done || lia.
Qed.

Lemma write_bytes buf w :
  Forall u8 buf → write_whole w → Forall u8 (write buf w) ∧ length (write buf w) = length buf.
Proof.
  intros Hb Hw. destruct w as [at_ f v|at_ k bs]; [by apply prm_set_bytes|]. cbn.
  destruct Hw as [<- Hu]. rewrite take_ge by done. split; [|apply length_inserts].
  apply Forall_lookup_2. intros i x E.
  apply list_lookup_inserts_Some in E as [[_ E]|(_ & _ & E)];
    [exact (Forall_lookup_1 _ _ _ _ Hb E)|exact (Forall_lookup_1 _ _ _ _ Hu E)].
Qed.

Lemma write_outside buf w j :
  Forall u8 buf → write_whole w → write_fits (length buf) w = true → 0 <= j →
  ¬ fst (extent w) <= j < fst (extent w) + snd (extent w) → bit (write buf w) j = bit buf j.
Proof.
  intros Hb Hw Hf Hj Ho. destruct w as [at_ f v|at_ k bs]; cbn [write extent fst snd write_fits] in *.
  - rewrite prm_set_bit by done. destruct (_ && _) eqn:E; [|done]. b2p. lia.
  - destruct Hw as [<- _]. apply bool_decide_eq_true_1 in Hf. rewrite take_ge by done. unfold bit.
    rewrite list_inserts_byte by done. pose proof (Z.div_mod j 8). pose proof (Z.mod_pos_bound j 8).
    rewrite bool_decide_eq_false_2; [done|]. lia.
Qed.

Lemma write_carried buf w :
  Forall u8 buf → write_whole w → write_fits (length buf) w = true → carried (write buf w) w.
Proof.
  intros Hb Hw Hf. destruct w as [at_ f v|at_ k bs]; cbn [write carried write_fits] in *.
  - by apply prm_get_set.
  - destruct Hw as [<- _]. apply bool_decide_eq_true_1 in Hf. intros i Hi. rewrite take_ge by done.
    rewrite list_inserts_byte by done. rewrite bool_decide_eq_true_2 by lia. f_equal. lia.
Qed.

(** A byte is its bits. *)

Lemma byte_bits buf buf' n :
  Forall u8 buf → Forall u8 buf' → (∀ j, 8 * Z.of_nat n <= j < 8 * Z.of_nat n + 8 → bit buf' j = bit buf j) →
  byte_of buf' n = byte_of buf n.
Proof.
  intros Hb Hb' Hj. apply Z.bits_inj'. intros k Hk. destruct (Z_lt_le_dec k 8).
  - specialize (Hj (8 * Z.of_nat n + (7 - k))). unfold bit in Hj.
    replace ((8 * Z.of_nat n + (7 - k)) / 8) with (Z.of_nat n) in Hj by (apply Z.div_unique with (7 - k); lia).
    replace ((8 * Z.of_nat n + (7 - k)) mod 8) with (7 - k) in Hj by (apply Z.mod_unique with (Z.of_nat n); lia).
    rewrite Nat2Z.id in Hj. replace (7 - (7 - k)) with k in Hj by lia. apply Hj. lia.
  - by rewrite !(bits_high 8) by (first [by apply byte_of_u8|lia]).
Qed.

Lemma carried_stays buf w w' :
  Forall u8 buf → write_whole w' → write_fits (length buf) w = true → write_fits (length buf) w' = true →
  apart (extent w) (extent w') = true → carried buf w → carried (write buf w') w.
Proof.
  intros Hb Hw' Hf Hf' Ha Hc. destruct (write_bytes buf w' Hb Hw') as [Hb' Hl].
  assert (Hout : ∀ j, 0 <= j → fst (extent w) <= j < fst (extent w) + snd (extent w) →
    bit (write buf w') j = bit buf j).
  { intros j Hj Hr. apply write_outside; auto. unfold apart in Ha. apply orb_true_iff in Ha as [Ha|Ha]; b2p; lia. }
  destruct w as [at_ f v|at_ k bs]; cbn [carried extent fst snd write_fits] in *.
  - rewrite <- Hc. pose proof (fits_elim _ _ _ Hf) as (_ & ? & _). apply bits_equal; auto.
    intros j Hj. apply Hout; [|done]. unfold start in Hj. lia.
  - intros i Hi. rewrite <- (Hc i Hi). apply byte_bits; auto. intros j Hj. apply Hout; lia.
Qed.

Lemma writes_carried ws buf done_ :
  Forall u8 buf → Forall write_whole ws → forallb (write_fits (length buf)) (done_ ++ ws) = true →
  all_apart (extent <$> done_ ++ ws) = true → Forall (carried buf) done_ →
  Forall (carried (foldl write buf ws)) (done_ ++ ws).
Proof.
  revert buf done_. induction ws as [|w ws IH]; intros buf dn Hb Hw Hf Ha Hc; cbn [foldl].
  { by rewrite app_nil_r in *. }
  apply list.Forall_cons in Hw as [Hw Hws]. destruct (write_bytes buf w Hb Hw) as [Hb' Hl].
  rewrite forallb_app in Hf. cbn [forallb] in Hf.
  apply andb_true_iff in Hf as [Hf1 Hf2]. apply andb_true_iff in Hf2 as [Hf2 Hf3].
  change (w :: ws) with ([w] ++ ws) in *. rewrite app_assoc in *. apply IH; auto.
  - rewrite Hl, !forallb_app, Hf1, Hf3. cbn [forallb]. by rewrite Hf2.
  - apply list.Forall_app. split; [|apply list.Forall_singleton; by apply write_carried].
    rewrite list.Forall_forall in *. intros x Hx. apply carried_stays; auto.
    + rewrite forallb_forall in Hf1. apply Hf1. by apply list_elem_of_In.
    + clear -Ha Hx. induction dn as [|d dn IH]; [by apply elem_of_nil in Hx|].
      cbn [app fmap list_fmap all_apart] in Ha. apply andb_true_iff in Ha as [Ha1 Ha2].
      apply elem_of_cons in Hx as [->|Hx]; [|by apply IH].
      rewrite forallb_forall in Ha1. apply Ha1. rewrite !fmap_app. cbn.
      apply in_or_app. left. apply in_or_app. right. by left.
Qed.

Lemma build_carried n ws :
  Forall write_whole ws → forallb (write_fits n) ws = true → all_apart (extent <$> ws) = true →
  Forall (carried (build n ws)) ws.
Proof.
  intros Hw Hf Ha. apply (writes_carried ws (replicate n 0) []); try done.
  - apply Forall_replicate. unfold uw. lia.
  - by rewrite length_replicate.
Qed.

(** ** Values *)

Lemma log2_loop_spec turns n l :
  0 <= l → (2 ^ (l - 1) < n ∨ l = 0) → 1 < n <= 2 ^ (l + Z.of_nat turns) → log2_loop turns n l = Z.log2_up n.
Proof.
  revert l. induction turns as [|turns IH]; intros l Hl Hlow Hn; cbn [log2_loop].
  - assert (Hb : 2 ^ Z.pred (Z.succ (l - 1)) < n <= 2 ^ Z.succ (l - 1)).
    { replace (Z.pred (Z.succ (l - 1))) with (l - 1) by lia. replace (Z.succ (l - 1)) with l by lia.
      replace (l + Z.of_nat 0) with l in Hn by lia. destruct Hlow as [| ->]; [lia|]. cbn in *. lia. }
    destruct (decide (l = 0)) as [->|]; [cbn in *; lia|].
    symmetry. replace (Z.succ (l - 1)) with l in Hb by lia. apply Z.log2_up_unique; [lia|].
    by replace (Z.pred l) with (l - 1) by lia; replace (Z.pred (Z.succ (l - 1))) with (l - 1) in Hb by lia.
  - rewrite (proj2 (Z.ltb_lt 1 n)) by lia. cbn [andb]. rewrite Z.shiftl_1_l.
    destruct (Z.ltb_spec (2 ^ l) n) as [H|H].
    + apply IH; [lia|left; by replace (l + 1 - 1) with l by lia|].
      by replace (l + 1 + Z.of_nat turns) with (l + Z.of_nat (S turns)) by lia.
    + destruct Hlow as [Hlow| ->]; [|cbn in H; lia]. symmetry.
      destruct (decide (l = 0)) as [->|]; [cbn in H; lia|]. apply Z.log2_up_unique; [lia|].
      by replace (Z.pred l) with (l - 1) by lia.
Qed.

(** The context's log2 fields: the least power of two at or above the count. *)

Lemma log2_up_spec n : 0 <= n <= 2 ^ 32 → log2_up n = Z.log2_up n.
Proof.
  intros Hn. unfold log2_up. destruct (Z_le_gt_dec n 1) as [H|H].
  - cbn [log2_loop]. rewrite (proj2 (Z.ltb_ge 1 n)) by lia. cbn [andb]. symmetry. by apply Z.log2_up_eqn0.
  - apply log2_loop_spec; [lia|by right|]. cbn. lia.
Qed.

(** The port is in the dynamic range the kernel uses. *)

Lemma label_low_range label : uw 14 (Z.lxor (Z.land label 0x3fff) (Z.shiftr (Z.land label 0xfc000) 14)).
Proof.
  set (low := Z.lxor _ _).
  assert (Hb : ∀ k, 14 <= k → Z.testbit low k = false).
  { intros k Hk. unfold low. rewrite Z.lxor_spec, !Z.land_spec, Z.shiftr_spec, !Z.land_spec by lia.
    change 0x3fff with (Z.ones 14). rewrite (Z.ones_spec_high 14 k) by lia.
    rewrite (bits_high 20 0xfc000 (k + 14)); [|unfold uw; lia|lia]. by rewrite !andb_false_r. }
  assert (Hp : 0 <= low).
  { unfold low. apply Z.lxor_nonneg. rewrite Z.shiftr_nonneg, !Z.land_nonneg. lia. }
  split; [done|]. destruct (Z.eq_dec low 0) as [->|]; [lia|]. apply Z.log2_lt_pow2; [lia|].
  destruct (Z_lt_le_dec (Z.log2 low) 14) as [|Hl]; [done|]. specialize (Hb _ Hl).
  by rewrite Z.bit_log2 in Hb by lia.
Qed.

Lemma roce_udp_sport_range l r : 0xc000 <= roce_udp_sport l r <= 0xffff.
Proof.
  unfold roce_udp_sport. match goal with |- context [Z.lor (Z.lxor (Z.land ?x _) _) _] =>
    pose proof (label_low_range x) as Hlow; revert Hlow; generalize (Z.lxor (Z.land x 0x3fff)
      (Z.shiftr (Z.land x 0xfc000) 14)) end.
  intros low Hlow. replace (Z.lor low 0xc000) with (low + 2 ^ 14 * 3) by (by rewrite <- lor_shiftl_add).
  unfold uw in Hlow. rewrite wrapw_id by (unfold uw; lia). lia.
Qed.

(** ** Bringing a queue pair up *)

Definition good_path (c : Mlx5Connect) : Prop := length (mc_dgid c) = 16%nat ∧ Forall u8 (mc_dgid c).

Lemma rtr_carried qpn now mac c :
  good_path c → length mac = 6%nat → Forall u8 mac →
  Forall (carried (build kModifyQpInBytes (rtr_writes qpn now mac c))) (rtr_writes qpn now mac c).
Proof.
  intros [Hg Hgu] Hm Hmu. apply build_carried; [|reflexivity|reflexivity].
  unfold rtr_writes, common_fields. cbn [app]. repeat (apply list.Forall_cons; split; [done|]).
  apply list.Forall_nil. done.
Qed.

Lemma rts_carried qpn now c :
  Forall (carried (build kModifyQpInBytes (rts_writes qpn now c))) (rts_writes qpn now c).
Proof.
  apply build_carried; [|reflexivity|reflexivity].
  unfold rts_writes, common_fields. cbn [app]. repeat (apply list.Forall_cons; split; [done|]).
  apply list.Forall_nil. done.
Qed.

Section Connect.
Context {W : Type} `{Mlx5 W}.

(** The hop limit is one a packet can carry, whatever the files say. *)

Lemma mlx5_hop_limit_range w device port h : mlx5_kernel_path w device port = inr h → 1 <= h <= 255.
Proof.
  unfold mlx5_kernel_path. destruct (negb _); [done|]. cbn zeta.
  generalize (atoi (c_str (read_file w "/proc/sys/net/ipv4/ip_default_ttl"))). intros def.
  match goal with |- context [0 <? ?t] => generalize t; intros ttl end.
  destruct ((0 <? ttl) && (ttl <=? 255)) eqn:E1; [intros [= <-]; b2p; lia|].
  destruct ((2 <=? def) && (def <=? 255)) eqn:E2; intros [= <-]; [b2p|]; lia.
Qed.

(** The hardware address a handle resolves to is six bytes. *)

Class AddressLaws : Prop := {
  ah_rmac_mac w ah mac : ah_rmac w ah = Some mac → length mac = 6%nat ∧ Forall u8 mac
}.

Context `{!AddressLaws}.


End Connect.
