(* ===== verification/Mlx5Sample.v ===== *)
(** * A simulated mlx5 adapter, and a queue pair brought up on it. *)

From stdpp Require Import base list gmap strings numbers.
From S2P Require Import Prelude Types RdmaVerbs Mlx5 Mlx5Laws.

(** The adapter is the context it holds, as a query gives it: a transition to RTR
    takes the context of the command, one to RTS sets the state. *)

Definition adapter_modify (ctx cmd : list Z) : list Z * bool :=
  if prm_get cmd 0 kOpcode =? kInit2RtrQp then (take kQpcByteOffset ctx ++ drop kQpcByteOffset cmd, true)
  else if prm_get cmd 0 kOpcode =? kRtr2RtsQp then (prm_set ctx kQpcByteOffset kQpcState kStateRts, true)
  else (ctx, false).

#[export] Instance adapter : Mlx5 (list Z) := {
  devx_qp_query ctx _ _ := (ctx, Some ctx);
  devx_qp_modify ctx _ cmd := adapter_modify ctx cmd;
  devx_general_cmd ctx _ _ := (ctx, None);
  set_qp_rts ctx _ := ctx;
  create_ah ctx _ _ := (ctx, Some 1);
  ah_rmac _ _ := Some [2; 0; 0; 0; 0; 1];
  destroy_ah ctx _ := ctx;
  mlx5dv_is_supported _ _ := true;
  mlx5dv_open_device ctx _ := (ctx, 1);
  ibv_open_device ctx _ := (ctx, 1);
  mlx5dv_lag_ports _ _ := Some None;
  file _ _ := None
}.

#[export] Instance adapter_laws : AddressLaws (W := list Z).
Proof. split. intros _ _ mac [= <-]. split; [done|]. repeat constructor; unfold uw; lia. Qed.

Definition adapter_path : Mlx5Connect :=
  mkMlx5Connect 77 3 1 0 64 (replicate 16 9) 16 16 12 14 7 7 30.

Definition adapter_init : list Z := replicate kQueryQpOutBytes 0.

Definition adapter_up : list Z := fst (mlx5_connect_ooo_rw adapter_init 42 adapter_path).

