(* ===== verification/RdmaOpen.v ===== *)
(** * Opening an adapter ([RdmaProvider::create, open_device, start_listener] and the
    destructor, [src/transport/rdma/rdma_provider.cpp]).

    The adapters, the system's files and the listening socket are the world [W].
    Opening acquires things that have to be given back: the trace records each
    acquisition and release, and nothing reads it. *)

From stdpp Require Import base list gmap strings numbers pretty.
From S2P Require Import Prelude Float64 Types RdmaVerbs RdmaProvider Topology Mlx5.

(** ** Addresses *)

(** [inet_pton] of an IPv4 address, digit by digit. *)

Fixpoint pton_loop (l : list Z) (saw : bool) (octets : nat) (cur : Z) (acc : list Z) : option (list Z) :=
  match l with
  | [] => if bool_decide (octets < 4)%nat then None else Some (acc ++ [cur])
  | c :: l =>
      if (48 <=? c) && (c <=? 57) then
        let new := cur * 10 + (c - 48) in
        if saw && (cur =? 0) then None
        else if 255 <? new then None
        else if saw then pton_loop l true octets new acc
        else if bool_decide (4 < S octets)%nat then None
        else pton_loop l true (S octets) new acc
      else if (c =? 46) && saw then
        if bool_decide (octets = 4%nat) then None else pton_loop l false octets 0 (acc ++ [cur])
      else None
  end.

Definition inet_pton (ip : string) : option (list Z) := pton_loop (c_str (bytes_of_string ip)) false 0 0 [].

(** [inet_ntop] *)

Definition inet_ntop (a : list Z) : string :=
  match a with
  | [x; y; z; u] => pretty x +:+ "." +:+ pretty y +:+ "." +:+ pretty z +:+ "." +:+ pretty u
  | _ => ""
  end.

Definition gid_ipv4 (g : list Z) : option string :=
  if bool_decide (take 10 g = replicate 10 0) && bool_decide (take 2 (drop 10 g) = [255; 255])
  then Some (inet_ntop (take 4 (drop 12 g))) else None.

Definition routable_ipv4 (ip : string) : bool :=
  if bool_decide (ip = ""%string) then false
  else
    match inet_pton ip with
    | Some a => negb (bool_decide (a = [0; 0; 0; 0])) && negb (default 0 (head a) =? 127)
    | None => false
    end.

(** ** The world *)

Record PortAttr : Type := mkPortAttr {
  pt_active : bool;
  pt_gid_tbl_len : Z;
  pt_ethernet : bool;
  pt_lid : Z;
  pt_active_mtu : Z;
  pt_max_msg_sz : Z
}.

(** A device has a handle and a name; contexts, protection domains and completion
    queues are numbers, 0 for none, and a socket is negative when there is none. *)

Class Adapters (W : Type) : Type := {
  get_device_list : W → option (list (Z * string));
  close_device : W → Z → W;
  query_port : W → Z → Z → option PortAttr;
  query_gid : W → Z → Z → Z → option (list Z);
  alloc_pd : W → Z → W * Z;
  dealloc_pd : W → Z → W;
  create_cq : W → Z → Z → W * Z;
  destroy_cq : W → Z → W;
  socket_tcp : W → W * Z;
  bind_listen : W → Z → Z → W * bool;
  socket_port : W → Z → option Z;
  close_socket : W → Z → W
}.

(** What the provider's configuration says of opening. *)

Record OpenConfig : Type := mkOpenConfig {
  oc_device_name : string;
  oc_affinity : option DeviceLocation;
  oc_gid_index : Z;
  oc_listen_port : Z;
  oc_out_of_order : bool;
  oc_rdma : RdmaConfig
}.

Inductive Resource : Type :=
| RList
| RContext (c : Z)
| RDomain (p : Z)
| RQueue (q : Z)
| RSocket (fd : Z).

#[global] Instance Resource_eq_dec : EqDecision Resource.
Proof. solve_decision. Defined.

Inductive OpenEvent : Type := EAcquire (r : Resource) | ERelease (r : Resource).

(** The provider's own members while it opens. *)

Record Members : Type := mkMembers { mb_ctx : Z; mb_pd : Z; mb_cq : Z; mb_listen : Z }.

Definition no_members : Members := mkMembers 0 0 0 (-1).

Section Open.
Context {W : Type} `{Adapters W} `{Mlx5 W} `{Sysfs W}.

Record Opening : Type := mkOpening { op_world : W; op_trace : list OpenEvent }.

Definition acquired (r : Resource) (w : W) (s : Opening) : Opening :=
  mkOpening w (op_trace s ++ [EAcquire r]).

Definition released (r : Resource) (w : W) (s : Opening) : Opening :=
  mkOpening w (op_trace s ++ [ERelease r]).

(** ** The GID table *)

Definition gid_is_roce_v2 (w : W) (device : string) (port index : Z) : bool :=
  let path := "/sys/class/infiniband/" +:+ device +:+ "/ports/" +:+ pretty port +:+ "/gid_attrs/types/"
    +:+ pretty index in
  match sys_file w path with
  | None | Some [] => false
  | Some l => contains (bytes_of_string "v2") (c_str (take 63 l))
  end.

(** The address of a usable entry. *)

Definition routable_entry (w : W) (c : Z) (device : string) (port i : Z) : option string :=
  g ← query_gid w c port i; a ← gid_ipv4 g; if gid_is_roce_v2 w device port i then Some a else None.

Fixpoint gid_loop (n : nat) (i : Z) (w : W) (c : Z) (device : string) (port : Z) (ip : string) : Z :=
  match n with
  | O => -1
  | S n =>
      match routable_entry w c device port i with
      | Some a =>
          if bool_decide (ip = ""%string) || bool_decide (a = ip) then i
          else gid_loop n (i + 1) w c device port ip
      | None => gid_loop n (i + 1) w c device port ip
      end
  end.

Definition find_roce_v2_gid (w : W) (c : Z) (device : string) (port len : Z) (ip : string) : Z :=
  gid_loop (Z.to_nat len) 0 w c device port ip.

(** ** Choosing a device *)

Definition open_ctx (d : Z) (s : Opening) : Opening * Z :=
  let '(w, c) := ibv_open_device (op_world s) d in
  (if c =? 0 then mkOpening w (op_trace s) else acquired (RContext c) w s, c).

Definition close_ctx (c : Z) (s : Opening) : Opening := released (RContext c) (close_device (op_world s) c) s.

(** The first device whose port carries the address, and where in its table. *)

Fixpoint carrying (cfg : RdmaConfig) (devs : list (Z * string)) (s : Opening)
    : Opening * option (string * Z) :=
  match devs with
  | [] => (s, None)
  | (d, name) :: devs =>
      let '(s, c) := open_ctx d s in
      if c =? 0 then carrying cfg devs s
      else
        let w := op_world s in
        let g :=
          match query_port w c (rg_ib_port cfg) with
          | Some pa =>
              if pt_active pa then
                find_roce_v2_gid w c name (rg_ib_port cfg) (pt_gid_tbl_len pa) (rg_advertise_ip cfg)
              else -1
          | None => -1
          end in
        let s := close_ctx c s in
        if 0 <=? g then (s, Some (name, g)) else carrying cfg devs s
  end.

(** The first device whose port is up. *)

Fixpoint first_up (cfg : RdmaConfig) (devs : list (Z * string)) (s : Opening)
    : Opening * option (Z * string) :=
  match devs with
  | [] => (s, None)
  | (d, name) :: devs =>
      let '(s, c) := open_ctx d s in
      if c =? 0 then first_up cfg devs s
      else
        let up :=
          match query_port (op_world s) c (rg_ib_port cfg) with Some pa => pt_active pa | None => false end in
        let s := close_ctx c s in
        if up then (s, Some (d, name)) else first_up cfg devs s
  end.

Definition named (wanted : string) (devs : list (Z * string)) : option (Z * string) :=
  head (filter (fun d => snd d = wanted) devs).

(** The name wanted, with the GID index that goes with an address and how close an
    adapter picked by distance is. *)

Definition wanted_name (oc : OpenConfig) (devs : list (Z * string)) (s : Opening)
    : Opening * (string * Z * Proximity.t) :=
  let cfg := oc_rdma oc in
  let '(s, by_ip) :=
    if bool_decide (oc_device_name oc = ""%string) && routable_ipv4 (rg_advertise_ip cfg)
    then carrying cfg devs s else (s, None) in
  let '(wanted, gid) := default (oc_device_name oc, -1) by_ip in
  match oc_affinity oc with
  | Some loc =>
      if bool_decide (wanted = ""%string) then
        match best_nic_for loc (discover_nics (op_world s)) with
        | Some (nic, how) => (s, (nic_name nic, gid, how))
        | None => (s, (wanted, gid, Proximity.kUnknown))
        end
      else (s, (wanted, gid, Proximity.kUnknown))
  | None => (s, (wanted, gid, Proximity.kUnknown))
  end.

Definition choose (oc : OpenConfig) (devs : list (Z * string)) (s : Opening)
    : Opening * (option (Z * string) * Z * Proximity.t) :=
  let '(s, (wanted, gid, how)) := wanted_name oc devs s in
  if bool_decide (wanted = ""%string) then
    let '(s, d) := first_up (oc_rdma oc) devs s in (s, (d, gid, how))
  else (s, (named wanted devs, gid, how)).

(** ** The port *)

Definition gid_index_of (oc : OpenConfig) (w : W) (ctx : Z) (name : string) (pa : PortAttr) (ip_gid : Z) : Z :=
  let port := rg_ib_port (oc_rdma oc) in
  let g := oc_gid_index oc in
  let g := if g <? 0 then ip_gid else g in
  let g :=
    if (g <? 0) && pt_ethernet pa then find_roce_v2_gid w ctx name port (pt_gid_tbl_len pa) "" else g in
  if g <? 0 then (if pt_ethernet pa then 3 else 0) else g.

(** Whether out-of-order placement is offered or why not, with the longest message
    and the hop limit, which keep their defaults until they are found out. *)

Record Ooo : Type := mkOoo { oo_why : option string; oo_log_max : Z; oo_hop : Z }.

Definition offer_ooo (oc : OpenConfig) (commands : bool) (no_commands : string) (w : W) (ctx : Z) (name : string)
    (pa : PortAttr) (gid_index : Z) (gid : list Z) : W * Ooo :=
  let port := rg_ib_port (oc_rdma oc) in
  if negb (oc_out_of_order oc) then (w, mkOoo (Some "off"%string) 30 64)
  else if negb commands then (w, mkOoo (Some no_commands) 30 64)
  else if negb (pt_ethernet pa) || negb (gid_is_roce_v2 w name port gid_index)
            || negb (bool_decide (is_Some (gid_ipv4 gid)))
  then (w, mkOoo (Some "not RoCE v2 over IPv4"%string) 30 64)
  else
    let '(w, r) := mlx5_ooo_rw_supported w ctx in
    match r with
    | inl why => (w, mkOoo (Some why) 30 64)
    | inr log_max =>
        match mlx5_kernel_path w name port with
        | inl why => (w, mkOoo (Some why) log_max 64)
        | inr hop => (w, mkOoo None log_max hop)
        end
    end.

(** ** [open_device] and [start_listener] *)

Definition port_info (pa : PortAttr) (gid : list Z) (index : Z) (ooo : Ooo) (listen : Z) : PortInfo :=
  mkPortInfo (pt_lid pa) (pt_active_mtu pa) (pt_max_msg_sz pa) (pt_ethernet pa) gid index
    (if oo_why ooo is None then true else false) (oo_log_max ooo) (oo_hop ooo) listen.

Definition open_queues (cfg : RdmaConfig) (ctx : Z) (s : Opening) : Opening * Members * Status.t :=
  let '(w, pd) := alloc_pd (op_world s) ctx in
  if pd =? 0 then (mkOpening w (op_trace s), mkMembers ctx 0 0 (-1), Status.kDeviceError)
  else
    let s := acquired (RDomain pd) w s in
    let '(w, cq) := create_cq (op_world s) ctx (rg_cq_depth cfg) in
    if cq =? 0 then (mkOpening w (op_trace s), mkMembers ctx pd 0 (-1), Status.kDeviceError)
    else (acquired (RQueue cq) w s, mkMembers ctx pd cq (-1), Status.kOk).

Definition set_up_port (oc : OpenConfig) (ctx : Z) (commands : bool) (why : string) (name : string) (ip_gid : Z)
    (s : Opening) : Opening * Members * (Status.t + (Z → PortInfo)) :=
  let port := rg_ib_port (oc_rdma oc) in
  let failed := fun s => (s, mkMembers ctx 0 0 (-1), inl Status.kDeviceError) in
  match query_port (op_world s) ctx port with
  | None => failed s
  | Some pa =>
      let index := gid_index_of oc (op_world s) ctx name pa ip_gid in
      match query_gid (op_world s) ctx port index with
      | None => failed s
      | Some gid =>
          let '(w, ooo) := offer_ooo oc commands why (op_world s) ctx name pa index gid in
          let '(s, mb, st) := open_queues (oc_rdma oc) ctx (mkOpening w (op_trace s)) in
          (s, mb, if bool_decide (st = Status.kOk) then inr (port_info pa gid index ooo) else inl st)
      end
  end.

Definition open_device (oc : OpenConfig) (w : W) : Opening * Members * (Status.t + (Z → PortInfo)) :=
  let s := mkOpening w [] in
  match get_device_list w with
  | None => (s, no_members, inl Status.kDeviceError)
  | Some devs =>
      let s := acquired RList w s in
      if bool_decide (devs = []) then (s, no_members, inl Status.kDeviceError)
      else
        let '(s, (chosen, ip_gid, how)) := choose oc devs s in
        match chosen with
        | None => (released RList (op_world s) s, no_members, inl Status.kDeviceError)
        | Some (d, name) =>
            let '(w, (ctx, commands, why)) := mlx5_open_device (op_world s) d in
            let s := if ctx =? 0 then mkOpening w (op_trace s) else acquired (RContext ctx) w s in
            let s := released RList (op_world s) s in
            if ctx =? 0 then (s, no_members, inl Status.kDeviceError)
            else set_up_port oc ctx commands why name ip_gid s
        end
  end.

Definition start_listener (port : Z) (mb : Members) (s : Opening) : Opening * Members * (Status.t + Z) :=
  let '(w, fd) := socket_tcp (op_world s) in
  if fd <? 0 then (mkOpening w (op_trace s), mb, inl Status.kInternal)
  else
    let s := acquired (RSocket fd) w s in
    let mb := mkMembers (mb_ctx mb) (mb_pd mb) (mb_cq mb) fd in
    let '(w, good) := bind_listen (op_world s) fd port in
    let s := mkOpening w (op_trace s) in
    if negb good then (s, mb, inl Status.kInternal)
    else
      match socket_port (op_world s) fd with
      | None => (s, mb, inl Status.kInternal)
      | Some p => (s, mb, inr p)
      end.

(** The destructor of a provider with no region registered. *)

Definition release_members (mb : Members) (s : Opening) : Opening :=
  let s := if 0 <=? mb_listen mb
           then released (RSocket (mb_listen mb)) (close_socket (op_world s) (mb_listen mb)) s else s in
  let s := if mb_cq mb =? 0 then s else released (RQueue (mb_cq mb)) (destroy_cq (op_world s) (mb_cq mb)) s in
  let s := if mb_pd mb =? 0 then s else released (RDomain (mb_pd mb)) (dealloc_pd (op_world s) (mb_pd mb)) s in
  if mb_ctx mb =? 0 then s else released (RContext (mb_ctx mb)) (close_device (op_world s) (mb_ctx mb)) s.

Definition rdma_create (oc : OpenConfig) (w : W) : Opening * (Status.t + PortInfo * Members) :=
  let '(s, mb, r) := open_device oc w in
  match r with
  | inl st => (release_members mb s, inl st)
  | inr info =>
      let '(s, mb, l) := start_listener (oc_listen_port oc) mb s in
      match l with
      | inl st => (release_members mb s, inl st)
      | inr port => (s, inr (info port, mb))
      end
  end.

(** ** What is held *)

Definition is_acquire (x : Resource) (e : OpenEvent) : bool :=
  match e with EAcquire r => bool_decide (r = x) | ERelease _ => false end.

Definition is_release (x : Resource) (e : OpenEvent) : bool :=
  match e with ERelease r => bool_decide (r = x) | EAcquire _ => false end.

(** How often [x] was acquired and not released. *)

Definition balance (x : Resource) (t : list OpenEvent) : Z :=
  Z.of_nat (length (filter (fun e => is_acquire x e = true) t))
  - Z.of_nat (length (filter (fun e => is_release x e = true) t)).

Definition held (x : Resource) (mb : Members) : Z :=
  match x with
  | RList => 0
  | RContext c => if (c =? mb_ctx mb) && negb (mb_ctx mb =? 0) then 1 else 0
  | RDomain p => if (p =? mb_pd mb) && negb (mb_pd mb =? 0) then 1 else 0
  | RQueue q => if (q =? mb_cq mb) && negb (mb_cq mb =? 0) then 1 else 0
  | RSocket fd => if (fd =? mb_listen mb) && (0 <=? mb_listen mb) then 1 else 0
  end.

Lemma balance_app x t t' : balance x (t ++ t') = balance x t + balance x t'.
Proof. unfold balance. rewrite !list.filter_app, !length_app. lia. Qed.

Lemma balance_acquired x r w s :
  balance x (op_trace (acquired r w s)) = balance x (op_trace s) + (if bool_decide (r = x) then 1 else 0).
Proof.
  unfold acquired. cbn [op_trace]. rewrite balance_app. f_equal. unfold balance. cbn. by case_bool_decide.
Qed.

Lemma balance_released x r w s :
  balance x (op_trace (released r w s)) = balance x (op_trace s) - (if bool_decide (r = x) then 1 else 0).
Proof.
  unfold released. cbn [op_trace]. rewrite balance_app, <- Z.add_opp_r. f_equal. unfold balance. cbn.
  by case_bool_decide.
Qed.

(** Compares what is counted with what is held, one resource at a time. *)

Ltac tally :=
  unfold held, no_members; cbn [mb_ctx mb_pd mb_cq mb_listen];
  repeat case_bool_decide; simplify_eq;
  repeat match goal with |- context [?a =? ?b] => destruct (Z.eqb_spec a b) end;
  repeat match goal with |- context [?a <=? ?b] => destruct (Z.leb_spec a b) end;
  cbn; try lia; congruence.

(** Looking for a device holds on to nothing. *)

Definition even (s s' : Opening) : Prop := ∀ x, balance x (op_trace s') = balance x (op_trace s).

Lemma probe_even d s c s1 : open_ctx d s = (s1, c) → if c =? 0 then even s s1 else even s (close_ctx c s1).
Proof.
  unfold open_ctx. destruct (ibv_open_device _ d) as [w c']. destruct (c' =? 0) eqn:E; intros [= <- <-]; rewrite E.
  - done.
  - intros x. unfold close_ctx. rewrite balance_released, balance_acquired. lia.
Qed.

Lemma carrying_even cfg devs s : even s (fst (carrying cfg devs s)).
Proof.
  revert s. induction devs as [|[d name] devs IH]; intros s; [done|]. cbn [carrying].
  destruct (open_ctx d s) as [s1 c] eqn:E. apply probe_even in E. destruct (c =? 0).
  - intros x. by rewrite IH, E.
  - destruct (0 <=? _); [exact E|]. intros x. by rewrite IH, E.
Qed.

Lemma first_up_even cfg devs s : even s (fst (first_up cfg devs s)).
Proof.
  revert s. induction devs as [|[d name] devs IH]; intros s; [done|]. cbn [first_up].
  destruct (open_ctx d s) as [s1 c] eqn:E. apply probe_even in E. destruct (c =? 0).
  - intros x. by rewrite IH, E.
  - match goal with |- context [if ?u then (close_ctx c s1, _) else _] => destruct u end; [exact E|]. intros x. by rewrite IH, E.
Qed.

Lemma wanted_even oc devs s : even s (fst (wanted_name oc devs s)).
Proof.
  unfold wanted_name. pose proof (carrying_even (oc_rdma oc) devs s) as E.
  set (r := if _ && routable_ipv4 _ then _ else _). assert (Er : even s (fst r)) by (unfold r; by destruct (_ && _)).
  clearbody r. destruct r as [s1 by_ip]. destruct (default _ by_ip) as [wanted gid].
  destruct (oc_affinity oc); [|done]. case_bool_decide; [|done]. by destruct (best_nic_for _ _) as [[??]|].
Qed.

Lemma choose_even oc devs s : even s (fst (choose oc devs s)).
Proof.
  unfold choose. pose proof (wanted_even oc devs s) as E. destruct (wanted_name oc devs s) as [s1 [[wanted gid] how]].
  case_bool_decide; [|exact E]. pose proof (first_up_even (oc_rdma oc) devs s1) as E'.
  destruct (first_up _ _ _) as [s2 d]. intros x. cbn in *. by rewrite E', E.
Qed.

(** What the members say is held is what is held. *)

Definition holds (mb : Members) (s : Opening) : Prop := ∀ x, balance x (op_trace s) = held x mb.

Lemma set_up_port_holds oc ctx cmds why name g s :
  ctx ≠ 0 → holds (mkMembers ctx 0 0 (-1)) s →
  let '(s', mb, r) := set_up_port oc ctx cmds why name g s in
  holds mb s' ∧ mb_listen mb = -1 ∧ (if r is inr _ then mb_ctx mb ≠ 0 ∧ mb_pd mb ≠ 0 ∧ mb_cq mb ≠ 0 else True).
Proof.
  intros Hc Hs. unfold set_up_port. destruct (query_port _ _ _) as [pa|]; [|done].
  destruct (query_gid _ _ _ _) as [gid|]; [|done]. destruct (offer_ooo _ _ _ _ _ _ _ _ _) as [w ooo].
  unfold open_queues. cbn [op_world op_trace]. destruct (alloc_pd w ctx) as [w1 pd].
  destruct (Z.eqb_spec pd 0) as [|Hpd]; [done|].
  assert (Hs1 : holds (mkMembers ctx pd 0 (-1)) (acquired (RDomain pd) w1 (mkOpening w (op_trace s)))).
  { intros x. rewrite balance_acquired. cbn [op_trace]. rewrite (Hs x). destruct x; tally. }
  destruct (create_cq _ _ _) as [w2 cq]. destruct (Z.eqb_spec cq 0) as [|Hcq]; [done|].
  rewrite bool_decide_eq_true_2 by done. split; [|done].
  intros x. rewrite balance_acquired, (Hs1 x). destruct x; tally.
Qed.

Lemma open_device_holds oc w :
  get_device_list w ≠ Some [] →
  let '(s, mb, r) := open_device oc w in
  holds mb s ∧ mb_listen mb = -1 ∧ (if r is inr _ then mb_ctx mb ≠ 0 ∧ mb_pd mb ≠ 0 ∧ mb_cq mb ≠ 0 else True).
Proof.
  intros Hl. unfold open_device. destruct (get_device_list w) as [devs|] eqn:Ed.
  2: { split_and!; [|done..]. intros x. change (balance x (op_trace (mkOpening w []))) with 0. destruct x; tally. }
  case_bool_decide as En; [by subst|].
  pose proof (choose_even oc devs (acquired RList w (mkOpening w []))) as E.
  destruct (choose _ _ _) as [s1 [[chosen g] how]]. cbn [fst] in E.
  assert (E1 : ∀ x, balance x (op_trace s1) = if bool_decide (RList = x) then 1 else 0).
  { intros x. rewrite (E x), balance_acquired. cbn [op_trace]. by case_bool_decide. }
  destruct chosen as [[d name]|].
  2: { split_and!; [|done..]. intros x. rewrite balance_released, E1. destruct x; tally. }
  destruct (mlx5_open_device _ d) as [w1 [[ctx cmds] why]]. destruct (Z.eqb_spec ctx 0) as [|Hc].
  { split_and!; [|done..]. intros x. rewrite balance_released. cbn [op_trace]. rewrite E1. destruct x; tally. }
  apply set_up_port_holds; [done|]. intros x. rewrite balance_released, balance_acquired, E1.
  destruct x; tally.
Qed.

Lemma start_listener_holds port mb s :
  holds mb s → mb_listen mb = -1 →
  let '(s', mb', r) := start_listener port mb s in
  holds mb' s' ∧ mb_ctx mb' = mb_ctx mb ∧ mb_pd mb' = mb_pd mb ∧ mb_cq mb' = mb_cq mb
  ∧ (if r is inr _ then 0 <= mb_listen mb' else True).
Proof.
  intros Hs Hm. unfold start_listener. destruct (socket_tcp _) as [w fd]. destruct (Z.ltb_spec fd 0) as [|Hf]; [done|].
  assert (Hs1 : holds (mkMembers (mb_ctx mb) (mb_pd mb) (mb_cq mb) fd) (acquired (RSocket fd) w s)).
  { intros x. rewrite balance_acquired, (Hs x). destruct x; unfold held; rewrite ?Hm; tally. }
  destruct (bind_listen _ _ _) as [w1 [|]]; cbn [negb]; [|done]. by destruct (socket_port _ _).
Qed.

Lemma release_members_holds mb s : holds mb s → ∀ x, balance x (op_trace (release_members mb s)) = 0.
Proof.
  intros Hs x. unfold release_members.
  repeat (match goal with |- context [op_trace (if ?b then _ else _)] => destruct b eqn:? end;
    rewrite ?balance_released); rewrite (Hs x); b2p; destruct x; tally.
Qed.


End Open.
