(* ===== verification/RdmaOpenSample.v ===== *)
(** * Opening an adapter on a simulated host. *)

From stdpp Require Import base list gmap strings numbers pretty.
From S2P Require Import Prelude Float64 Types RdmaVerbs RdmaProvider Topology Mlx5 RdmaOpen.

(** A host with two adapters, the second of which is up and carries 10.0.0.7 at entry
    5 of its table; [rk_pds] is how many protection domains there are to give. *)

Record Rack : Type := mkRack { rk_next : Z; rk_devices : list (Z * string); rk_pds : Z }.

Definition rack_handle (w : Rack) : Rack * Z := (mkRack (rk_next w + 1) (rk_devices w) (rk_pds w), rk_next w).

Definition rack_gid : list Z := replicate 10 0 ++ [255; 255; 10; 0; 0; 7].

Definition v2_path : string := "/sys/class/infiniband/mlx5_1/ports/1/gid_attrs/types/5".

#[export] Instance rack_sysfs : Sysfs Rack := {
  sys_dir _ _ := None;
  sys_link _ _ := None;
  sys_file _ p := if bool_decide (p = v2_path) then Some (bytes_of_string "RoCE v2") else None
}.

#[export] Instance rack_mlx5 : Mlx5 Rack := {
  devx_qp_query w _ _ := (w, None);
  devx_qp_modify w _ _ := (w, false);
  devx_general_cmd w _ _ := (w, None);
  set_qp_rts w _ := w;
  create_ah w _ _ := (w, None);
  ah_rmac _ _ := None;
  destroy_ah w _ := w;
  mlx5dv_is_supported _ _ := true;
  mlx5dv_open_device w _ := (w, 0);
  ibv_open_device w _ := rack_handle w;
  mlx5dv_lag_ports _ _ := None;
  file _ _ := None
}.

(** Contexts are numbered from 1 as they are opened, so the second one probed is
    the second device's. *)

#[export] Instance rack_adapters : Adapters Rack := {
  get_device_list w := Some (rk_devices w);
  close_device w _ := w;
  query_port _ c _ := Some (mkPortAttr (1 <? c) 8 true 0 3 (2 ^ 30));
  query_gid _ _ _ i := Some (if i =? 5 then rack_gid else replicate 16 0);
  alloc_pd w _ := if rk_pds w =? 0 then (w, 0) else rack_handle w;
  dealloc_pd w _ := w;
  create_cq w _ _ := rack_handle w;
  destroy_cq w _ := w;
  socket_tcp w := rack_handle w;
  bind_listen w _ _ := (w, true);
  socket_port _ _ := Some 4791;
  close_socket w _ := w
}.

Definition rack (pds : Z) : Rack := mkRack 1 [(10, "mlx5_0"%string); (11, "mlx5_1"%string)] pds.

Definition rack_config : OpenConfig :=
  mkOpenConfig "" None (-1) 0 true (mkRdmaConfig 1 1 16 4096 1024 64 1 "10.0.0.7" 3000 0 f64_1).

(** Both adapters probed, the one with the address taken, and what it costs to keep. *)
Lemma rack_opens :
  rdma_create rack_config (rack 1) =
  (mkOpening (mkRack 7 (rk_devices (rack 1)) 1)
     [EAcquire RList; EAcquire (RContext 1); ERelease (RContext 1); EAcquire (RContext 2); ERelease (RContext 2);
      EAcquire (RContext 3); ERelease RList; EAcquire (RDomain 4); EAcquire (RQueue 5); EAcquire (RSocket 6)],
   inr (mkPortInfo 0 3 (2 ^ 30) true rack_gid 5 false 30 64 4791, mkMembers 3 4 5 6)).
Proof. vm_compute. reflexivity. Qed.


(** On a host with no adapter the list that says so is never given back. *)
Lemma empty_list_kept :
  balance RList (op_trace (fst (rdma_create rack_config (mkRack 1 [] 1)))) = 1.
Proof. vm_compute. reflexivity. Qed.
