(* ===== verification/Text.v ===== *)
(** * Numbers as text.

    What [operator<<] and [std::to_string] print for an integer, as character codes,
    and reading the digits back. *)

From stdpp Require Import base list strings numbers pretty.
From S2P Require Import Prelude.

Definition text (s : string) : list Z := bytes_of_string s.

(** An integer as a stream prints it. *)

Definition dec (n : Z) : list Z := text (pretty n).

Definition is_digit (c : Z) : bool := (48 <=? c) && (c <=? 57).

(** The digits at the front, as a number, and what follows them. *)

Fixpoint read_digits (l : list Z) (acc : Z) : Z * list Z :=
  match l with
  | c :: l' => if is_digit c then read_digits l' (10 * acc + (c - 48)) else (acc, l)
  | [] => (acc, [])
  end.

(** Nothing that would make a number before it longer. *)

Definition no_digit (l : list Z) : Prop := match l with c :: _ => is_digit c = false | [] => True end.

Lemma text_app s t : text (s +:+ t) = text s ++ text t.
Proof.
  induction s as [|a s IH]; [done|]. change (byte_of_ascii a :: text (s +:+ t) = byte_of_ascii a :: text s ++ text t).
  by rewrite IH.
Qed.

Lemma pretty_char_digit (x : N) :
  (x < 10)%N → byte_of_ascii (pretty_N_char x) = 48 + Z.of_N x ∧ is_digit (byte_of_ascii (pretty_N_char x)) = true.
Proof.
  intros Hx. assert (x = 0 ∨ x = 1 ∨ x = 2 ∨ x = 3 ∨ x = 4 ∨ x = 5 ∨ x = 6 ∨ x = 7 ∨ x = 8 ∨ x = 9)%N as E by lia.
  by repeat (destruct E as [->|E]; [done|]); subst.
Qed.

Lemma pretty_go_app x s : pretty_N_go x s = pretty_N_go x "" +:+ s.
Proof.
  revert s. induction (N.lt_wf_0 x) as [x _ IH]; intros s.
  destruct (decide (x = 0)%N) as [->|Hx]; [done|]. assert (H0 : (0 < x)%N) by lia.
  rewrite (pretty_N_go_step x s), (pretty_N_go_step x "") by done.
  rewrite IH, (IH _ (N.div_lt x 10 H0 eq_refl) (String _ "")) by (by apply N.div_lt).
  generalize (pretty_N_go (x `div` 10) ""). intros t. induction t as [|a t IHt]; [done|]. exact (f_equal (String a) IHt).
Qed.

Lemma read_pretty x s rest :
  read_digits (text (pretty_N_go x s) ++ rest) 0 = read_digits (text s ++ rest) (Z.of_N x).
Proof.
  revert s. induction (N.lt_wf_0 x) as [x _ IH]; intros s.
  destruct (decide (x = 0)%N) as [->|Hx]; [done|]. assert (H0 : (0 < x)%N) by lia.
  rewrite pretty_N_go_step by done. rewrite IH by (by apply N.div_lt).
  destruct (pretty_char_digit (x `mod` 10)) as [Ev Ed]; [by apply N.mod_lt|].
  change (text (String ?c s)) with (byte_of_ascii c :: text s). cbn [app read_digits].
  rewrite Ed, Ev. f_equal. rewrite N2Z.inj_div, N2Z.inj_mod. pose proof (Z.div_mod (Z.of_N x) 10). lia.
Qed.

Lemma pretty_go_digits x s :
  Forall (fun c => is_digit c = true) (text s) → Forall (fun c => is_digit c = true) (text (pretty_N_go x s)).
Proof.
  revert s. induction (N.lt_wf_0 x) as [x _ IH]; intros s Hs.
  destruct (decide (x = 0)%N) as [->|Hx]; [done|]. assert (H0 : (0 < x)%N) by lia.
  rewrite pretty_N_go_step by done. apply IH; [by apply N.div_lt|].
  constructor; [|done]. apply pretty_char_digit. by apply N.mod_lt.
Qed.

(** A positive number starts with a digit other than zero. *)

Lemma pretty_go_head x s :
  (0 < x)%N → ∃ c l, text (pretty_N_go x s) = c :: l ∧ 49 <= c <= 57.
Proof.
  revert s. induction (N.lt_wf_0 x) as [x _ IH]; intros s H0.
  rewrite pretty_N_go_step by done. destruct (decide (x < 10)%N) as [Hx|Hx].
  - rewrite N.div_small, N.mod_small by done. rewrite pretty_N_go_0.
    exists (byte_of_ascii (pretty_N_char x)), (text s). split; [done|].
    destruct (pretty_char_digit x Hx) as [-> _]. lia.
  - apply IH; [by apply N.div_lt|]. apply N.div_str_pos. lia.
Qed.

Lemma dec_nonneg n : 0 <= n → dec n = if decide (n = 0) then [48] else text (pretty_N_go (Z.to_N n) "").
Proof.
  intros Hn. destruct n as [|p|p]; [done| |lia]. by destruct (decide (Zpos p = 0)).
Qed.

Lemma dec_neg n : n < 0 → dec n = 45 :: dec (- n).
Proof. destruct n as [|p|p]; [lia..|]. intros _. unfold dec. change (- Zneg p) with (Zpos p). exact (text_app "-" _). Qed.

Lemma dec_digits n : 0 <= n → Forall (fun c => is_digit c = true) (dec n).
Proof.
  intros Hn. rewrite dec_nonneg by done. destruct (decide (n = 0)); [by repeat constructor|].
  apply pretty_go_digits. constructor.
Qed.

(** Zero is one digit, and no other number begins with it. *)

Lemma dec_head n : 0 <= n → dec n = [48] ∨ ∃ c l, dec n = c :: l ∧ 49 <= c <= 57.
Proof.
  intros Hn. rewrite dec_nonneg by done. destruct (decide (n = 0)); [by left|]. right. apply pretty_go_head. lia.
Qed.

Lemma dec_some n : dec n ≠ [].
Proof.
  destruct (Z.lt_ge_cases n 0); [by rewrite dec_neg|]. destruct (dec_head n) as [->|(c & l & -> & _)]; done.
Qed.

Lemma read_dec n rest : 0 <= n → no_digit rest → read_digits (dec n ++ rest) 0 = (n, rest).
Proof.
  intros Hn Hr. assert (E : ∀ v, read_digits rest v = (v, rest)).
  { intros v. destruct rest as [|c rest]; [done|]. cbn. cbn in Hr. by rewrite Hr. }
  rewrite dec_nonneg by done. destruct (decide (n = 0)) as [->|]; [exact (E 0)|].
  rewrite read_pretty. cbn [app]. rewrite E. f_equal. lia.
Qed.
