(* ===== verification/HostMemory.v ===== *)
(** * Host memory on large pages ([src/core/host_memory.cpp]).

    The address space and [/proc/self/smaps] are the world [W]; [PageLaws] is what the
    system calls are documented to do.  Addresses and lengths are 64-bit and wrap. *)

From stdpp Require Import base list strings numbers pretty.
From S2P Require Import Prelude Types Topology Text.

Definition kHugePage : Z := 2 ^ 21.

(** The page the kernel counts in. *)

Definition kPage : Z := 4096.

Record HostAllocation : Type := mkHostAllocation { ha_ptr : Z; ha_bytes : Z; ha_huge_bytes : Z }.

Class Pages (W : Type) : Type := {
  mmap : W → Z → W * option Z;
  munmap : W → Z → Z → W;
  madvise_huge : W → Z → Z → W;
  memset_zero : W → Z → Z → W;
  smaps : W → option (list Z)
}.

(** ** What the kernel says of a mapping *)

(** [fgets]: at most [n] characters, and none past a newline. *)

Fixpoint fgets (n : nat) (l : list Z) : list Z * list Z :=
  match n, l with
  | S n, c :: l => if c =? 10 then ([c], l) else let '(line, rest) := fgets n l in (c :: line, rest)
  | _, _ => ([], l)
  end.

(** The two conversions of ["%lx-%lx "]. *)

Definition scan_range (l : list Z) : option (Z * Z) :=
  '(lo, l) ← scan_hex64 l; l ← expect 45 l; '(hi, _) ← scan_hex64 l; Some (lo, hi).

Fixpoint strip (p l : list Z) : option (list Z) :=
  match p, l with
  | [], _ => Some l
  | c :: p, c' :: l => if c =? c' then strip p l else None
  | _, [] => None
  end.

(** [%lu] *)

Definition scan_dec64 (l : list Z) : option Z :=
  let '(neg, l) := take_sign (skip_spaces l) in
  match l with
  | c :: _ =>
      if is_digit c then
        let '(v, _) := read_digits l 0 in
        Some (if 2 ^ 64 <=? v then 2 ^ 64 - 1 else if neg then wrap64 (- v) else v)
      else None
  | [] => None
  end.

Definition kHugeField : list Z := text "AnonHugePages:".

Definition scan_huge (l : list Z) : option Z := l ← strip kHugeField l; scan_dec64 l.

(** The length of the text is fuel enough: a line is at least a character. *)

Fixpoint smaps_loop (fuel : nat) (want : Z) (inside : bool) (l : list Z) : Z :=
  match fuel, l with
  | S fuel, _ :: _ =>
      let '(line, rest) := fgets 511 l in
      let line := c_str line in
      match scan_range line with
      | Some (lo, _) => if inside then 0 else smaps_loop fuel want (lo =? want) rest
      | None =>
          if inside then
            match scan_huge line with Some kib => kib | None => smaps_loop fuel want inside rest end
          else smaps_loop fuel want inside rest
      end
  | _, _ => 0
  end.

Section Host.
Context {W : Type} `{Pages W}.

Definition huge_bytes_of (w : W) (base : Z) : Z :=
  match smaps w with
  | None => 0
  | Some l => wrap64 (Z.shiftl (smaps_loop (length l) base false l) 10)
  end.

(** ** Allocating *)

Definition round_up (n : Z) : Z := wrap64 (wrap64 (n + kHugePage - 1) / kHugePage * kHugePage).

Definition alloc_host (bytes : Z) (w : W) : W * (Status.t + HostAllocation) :=
  if bytes =? 0 then (w, inl Status.kInvalidArgument)
  else
    let len := round_up bytes in
    let '(w, raw) := mmap w (wrap64 (len + kHugePage)) in
    match raw with
    | None => (w, inl Status.kResourceExhausted)
    | Some r =>
        let base := round_up r in
        let w := if r <? base then munmap w r (base - r) else w in
        let stop := wrap64 (base + len) in
        let top := wrap64 (r + len + kHugePage) in
        let w := if stop <? top then munmap w stop (top - stop) else w in
        let w := memset_zero (madvise_huge w base len) base len in
        (w, inr (mkHostAllocation base len (huge_bytes_of w base)))
    end.

Definition free_host (a : HostAllocation) (w : W) : W :=
  if negb (ha_ptr a =? 0) && (0 <? ha_bytes a) then munmap w (ha_ptr a) (ha_bytes a) else w.

(** ** The system calls *)

Definition within_range (a n x : Z) : bool := (a <=? x) && (x <? a + n).

Class PageLaws : Type := {
  mapped : W → Z → bool;
  byte : W → Z → Z;
  (** A mapping is of whole pages, is new, and is below the top of the address space. *)
  mmap_granted w n w' r : n mod kPage = 0 → mmap w n = (w', Some r) →
    0 < n ∧ 0 < r ∧ r mod kPage = 0 ∧ r + n < 2 ^ 64
    ∧ (∀ x, within_range r n x = true → mapped w x = false)
    ∧ (∀ x, mapped w' x = within_range r n x || mapped w x)
    ∧ (∀ x, within_range r n x = false → byte w' x = byte w x);
  mmap_refused w n w' : mmap w n = (w', None) → (∀ x, mapped w' x = mapped w x) ∧ (∀ x, byte w' x = byte w x);
  munmap_pages w a n : 0 < n → a mod kPage = 0 → n mod kPage = 0 →
    (∀ x, mapped (munmap w a n) x = negb (within_range a n x) && mapped w x)
    ∧ (∀ x, within_range a n x = false → byte (munmap w a n) x = byte w x);
  madvise_keeps w a n :
    (∀ x, mapped (madvise_huge w a n) x = mapped w x) ∧ (∀ x, byte (madvise_huge w a n) x = byte w x);
  (** Writing is defined only where there is memory. *)
  memset_writes w a n : (∀ x, within_range a n x = true → mapped w x = true) →
    (∀ x, mapped (memset_zero w a n) x = mapped w x)
    ∧ (∀ x, byte (memset_zero w a n) x = if within_range a n x then 0 else byte w x)
}.

Context {PL : PageLaws}.

Lemma within_range_spec a n x : within_range a n x = true ↔ a <= x < a + n.
Proof. unfold within_range. rewrite andb_true_iff, Z.leb_le, Z.ltb_lt. done. Qed.

Lemma within_range_false a n x : within_range a n x = false ↔ ¬ a <= x < a + n.
Proof. rewrite <- within_range_spec. by destruct (within_range a n x). Qed.

Lemma round_up_spec n :
  0 <= n → n + kHugePage - 1 < 2 ^ 64 →
  n <= round_up n < n + kHugePage ∧ round_up n mod kHugePage = 0 ∧ round_up n mod kPage = 0.
Proof.
  intros Hn Hw. unfold round_up, kHugePage, kPage in *.
  change (2 ^ 21) with 2097152 in *. rewrite (wrapw_id 64 (n + 2097152 - 1)) by (unfold uw; lia).
  pose proof (Z.div_mod (n + 2097152 - 1) 2097152 ltac:(lia)) as Hd. pose proof (Z.mod_pos_bound (n + 2097152 - 1) 2097152 ltac:(lia)) as Hm.
  rewrite wrapw_id by (unfold uw; lia). split_and!; [lia|lia|apply Z.mod_mul; lia|].
  change 2097152 with (512 * 4096) at 3. rewrite Z.mul_assoc. apply Z.mod_mul. lia.
Qed.

Lemma whole_pages a b : a mod kPage = 0 → b mod kPage = 0 → (a + b) mod kPage = 0 ∧ (a - b) mod kPage = 0.
Proof. unfold kPage. Z.to_euclidean_division_equations. lia. Qed.

(** A part of what was mapped is given back, if there is any. *)

Definition trim (a n : Z) (w : W) : W := if 0 <? n then munmap w a n else w.

Lemma trim_spec a n w :
  a mod kPage = 0 → n mod kPage = 0 →
  (∀ x, mapped (trim a n w) x = negb (within_range a n x) && mapped w x)
  ∧ (∀ x, within_range a n x = false → byte (trim a n w) x = byte w x).
Proof.
  intros Ha Hn. unfold trim. destruct (Z.ltb_spec 0 n) as [H0|H0].
  - by apply munmap_pages.
  - split; [|done]. intros x. by rewrite (proj2 (within_range_false a n x)) by lia.
Qed.

(** The calls of a successful allocation: one mapping, cut at both ends, then zeroed. *)

Lemma alloc_host_inv bytes w w' a :
  0 <= bytes → bytes + kHugePage - 1 < 2 ^ 64 → alloc_host bytes w = (w', inr a) →
  ∃ w1 r, let len := round_up bytes in let base := round_up r in
    0 < bytes ∧ mmap w (len + kHugePage) = (w1, Some r) ∧ ha_ptr a = base ∧ ha_bytes a = len
    ∧ r <= base ∧ base + len <= r + (len + kHugePage)
    ∧ w' = memset_zero (madvise_huge (trim (base + len) (r + kHugePage - base)
                                        (trim r (base - r) w1)) base len) base len.
Proof.
  intros H0 Hw. unfold alloc_host. destruct (Z.eqb_spec bytes 0); [done|].
  destruct (round_up_spec bytes H0 Hw) as (Hl & Hlh & Hlp). set (len := round_up bytes) in *.
  destruct (mmap w (wrap64 (len + kHugePage))) as [w1 [r|]] eqn:Em; [|done].
  intros [= <- <-]. exists w1, r. cbn [ha_ptr ha_bytes].
  assert (Hpg : wrap64 (len + kHugePage) mod kPage = 0).
  { unfold wrapw, kPage in *. rewrite (Z.mod_eq _ (2 ^ 64)) by lia. generalize ((len + kHugePage) / 2 ^ 64). intros q.
    replace (len + kHugePage - 2 ^ 64 * q) with (len + (512 - 2 ^ 52 * q) * 4096) by (unfold kHugePage; lia).
    by rewrite Z.mod_add by lia. }
  destruct (mmap_granted _ _ _ _ Hpg Em) as (Hn & Hr & Hrp & Ht & _).
  assert (Hlw : wrap64 (len + kHugePage) = len + kHugePage).
  { apply wrapw_id. pose proof (wrapw_uw 64 (len + kHugePage)) as Hu. unfold uw, wrapw, kHugePage in *.
    destruct (Z.lt_ge_cases (len + 2 ^ 21) (2 ^ 64)) as [|Hg]; [lia|].
    pose proof (Z.div_mod len (2 ^ 21) ltac:(lia)). clearbody len.
    assert (El : len + 2 ^ 21 = 2 ^ 64) by lia. by rewrite El in Hn. }
  rewrite Hlw in *. destruct (round_up_spec r ltac:(lia) ltac:(unfold kHugePage in *; lia)) as (Hb & _).
  split_and!; [lia|done..|lia|lia|].
  assert (E1 : wrap64 (round_up r + len) = round_up r + len) by (apply wrapw_id; unfold uw; lia).
  assert (E2 : wrap64 (r + len + kHugePage) = r + len + kHugePage) by (apply wrapw_id; unfold uw, kHugePage in *; lia).
  rewrite E1, E2. unfold trim.
  replace (r + len + kHugePage - (round_up r + len)) with (r + kHugePage - round_up r) by lia.
  destruct (Z.ltb_spec r (round_up r)), (Z.ltb_spec 0 (round_up r - r)); try lia;
    destruct (Z.ltb_spec (round_up r + len) (r + len + kHugePage)), (Z.ltb_spec 0 (r + kHugePage - round_up r));
    lia || done.
Qed.

Lemma free_host_trim a w : ha_ptr a ≠ 0 → free_host a w = trim (ha_ptr a) (ha_bytes a) w.
Proof. intros Hp. unfold free_host, trim. by rewrite (proj2 (Z.eqb_neq _ _) Hp). Qed.


End Host.

(** ** The kernel's text and what is read of it *)

(** A mapping as [smaps] shows it: its bounds, the rest of its header, and its fields, of
    which one is the memory on large pages, padded with [mp_pad] spaces. *)

Record Mapping : Type := mkMapping {
  mp_lo : Z;
  mp_hi : Z;
  mp_header : list Z;
  mp_before : list (list Z * list Z);
  mp_pad : nat;
  mp_kib : Z;
  mp_after : list (list Z * list Z)
}.

Definition field_line (f : list Z * list Z) : list Z := fst f ++ 58 :: snd f.

Definition huge_line (m : Mapping) : list Z :=
  field_line (text "AnonHugePages", replicate (mp_pad m) 32 ++ dec (mp_kib m) ++ text " kB").

Definition header_line (m : Mapping) : list Z :=
  print_digits 16 8 (mp_lo m) ++ 45 :: print_digits 16 8 (mp_hi m) ++ 32 :: mp_header m.

Definition mapping_lines (m : Mapping) : list (list Z) :=
  header_line m :: (field_line <$> mp_before m) ++ huge_line m :: (field_line <$> mp_after m).

Definition lines_text (ls : list (list Z)) : list Z := concat ((fun l => l ++ [10]) <$> ls).

Definition smaps_text (ms : list Mapping) : list Z := lines_text (concat (mapping_lines <$> ms)).

(** Field names are words, and every line fits the buffer. *)

Definition letter (c : Z) : Prop := 65 <= c <= 90 ∨ 97 <= c <= 122 ∨ c = 95.

Definition field_ok (f : list Z * list Z) : Prop := Forall letter (fst f) ∧ fst f ≠ [].

Definition line_ok (l : list Z) : Prop := Forall (fun c => c ≠ 10 ∧ c ≠ 0) l ∧ (length l <= 510)%nat.

Definition mapping_ok (m : Mapping) : Prop :=
  0 <= mp_lo m < 2 ^ 64 ∧ 0 <= mp_hi m < 2 ^ 64 ∧ 0 <= mp_kib m < 2 ^ 64
  ∧ Forall field_ok (mp_before m) ∧ Forall field_ok (mp_after m)
  ∧ Forall (fun f => fst f ≠ text "AnonHugePages") (mp_before m)
  ∧ Forall line_ok (mapping_lines m).

#[global] Instance letter_dec c : Decision (letter c).
Proof. unfold letter. apply _. Defined.

#[global] Instance field_ok_dec f : Decision (field_ok f).
Proof. unfold field_ok. apply _. Defined.

#[global] Instance line_ok_dec l : Decision (line_ok l).
Proof. unfold line_ok. apply _. Defined.

#[global] Instance mapping_ok_dec m : Decision (mapping_ok m).
Proof. unfold mapping_ok. apply _. Defined.

Lemma fgets_line n l rest :
  Forall (fun c => c ≠ 10 ∧ c ≠ 0) l → (length l < n)%nat → fgets n (l ++ 10 :: rest) = (l ++ [10], rest).
Proof.
  intros Hl. revert n. induction Hl as [|c l [Hc _] _ IH]; intros [|n] Hn; cbn in Hn; try lia; [done|].
  cbn [fgets app]. rewrite (proj2 (Z.eqb_neq c 10)) by done. by rewrite IH by lia.
Qed.

(** The loop over lines already cut. *)

Fixpoint lines_loop (want : Z) (inside : bool) (ls : list (list Z)) : Z :=
  match ls with
  | [] => 0
  | l :: ls =>
      match scan_range (l ++ [10]) with
      | Some (lo, _) => if inside then 0 else lines_loop want (lo =? want) ls
      | None =>
          if inside then
            match scan_huge (l ++ [10]) with Some kib => kib | None => lines_loop want inside ls end
          else lines_loop want inside ls
      end
  end.

Lemma smaps_loop_lines fuel want inside ls :
  Forall line_ok ls → (length (lines_text ls) <= fuel)%nat →
  smaps_loop fuel want inside (lines_text ls) = lines_loop want inside ls.
Proof.
  intros Hl. revert fuel inside. induction Hl as [|l ls [Hc Hn] _ IH]; intros fuel inside Hf.
  { by destruct fuel. }
  change (lines_text (l :: ls)) with ((l ++ [10]) ++ lines_text ls) in *.
  rewrite !length_app in Hf. cbn [length] in Hf. destruct fuel as [|fuel]; [lia|].
  rewrite <- app_assoc. cbn [app].
  assert (E : ∃ c t, l ++ 10 :: lines_text ls = c :: t) by (destruct l; cbn; eauto).
  destruct E as (c & t & E). cbn [smaps_loop]. rewrite E, <- E.
  rewrite fgets_line by (done || lia). rewrite c_str_id.
  2: { apply list.Forall_app. split; [|by repeat constructor]. eapply Forall_impl; [exact Hc|]. by intros ? []. }
  cbn [lines_loop]. destruct (scan_range _) as [[lo hi]|]; [destruct inside; [done|]; apply IH; lia|].
  destruct inside; [destruct (scan_huge _); [done|]|]; apply IH; lia.
Qed.

Lemma word_hex name t a :
  Forall letter name → ∃ v c r, hex_digits (name ++ 58 :: t) a = (v, c :: r) ∧ c ≠ 45.
Proof.
  intros Hn. revert a. induction Hn as [|c name Hc Hn IH]; intros a.
  - exists a, 58, t. done.
  - cbn [app hex_digits]. destruct (hex_value c) as [d|]; [apply IH|].
    exists a, c, (name ++ 58 :: t). split; [done|]. unfold letter in Hc. lia.
Qed.

(** A field is not a range of addresses. *)

Lemma scan_range_field f rest : field_ok f → scan_range (field_line f ++ rest) = None.
Proof.
  destruct f as [[|c name] v]; intros [Hn Hne]; [done|]. cbn [fst] in *. unfold field_line. cbn [fst snd].
  rewrite <- app_assoc. cbn [app]. pose proof (word_hex (c :: name) (v ++ rest) 0 Hn) as (x & c' & r & Eh & Hc').
  apply list.Forall_cons in Hn as [Hc _]. unfold letter in Hc.
  unfold scan_range, scan_hex64. cbn [skip_spaces]. unfold is_space.
  assert ((c =? 32) = false) as -> by lia. assert ((9 <=? c) && (c <=? 13) = false) as -> by lia. cbn [orb take_sign].
  assert ((c =? 45) = false) as -> by lia. assert ((c =? 43) = false) as -> by lia.
  assert (Ep : take_prefix (c :: name ++ 58 :: v ++ rest) = (false, c :: name ++ 58 :: v ++ rest)).
  { cbn [take_prefix]. destruct (name ++ 58 :: v ++ rest); [done|]. by assert ((c =? 48) = false) as -> by lia. }
  rewrite Ep. destruct (starts_hex _); cbn [orb]; [|done]. cbn [app] in Eh. rewrite Eh. cbn.
  by rewrite (proj2 (Z.eqb_neq c' 45)).
Qed.

Lemma strip_word p name v r :
  Forall letter p → Forall letter name → strip (p ++ [58]) (name ++ 58 :: v) = Some r → name = p.
Proof.
  intros Hp. revert name. induction Hp as [|c p Hc _ IH]; intros [|c' name] Hn; cbn [strip app]; [done| | |].
  - apply list.Forall_cons in Hn as [Hc' _]. unfold letter in Hc'. by assert ((58 =? c') = false) as -> by lia.
  - unfold letter in Hc. by assert ((c =? 58) = false) as -> by lia.
  - destruct (Z.eqb_spec c c'); [|done]. apply list.Forall_cons in Hn as [_ Hn]. intros E. f_equal; [done|]. by apply IH.
Qed.

Lemma huge_name_letters : Forall letter (text "AnonHugePages").
Proof.
  change (text "AnonHugePages") with [65; 110; 111; 110; 72; 117; 103; 101; 80; 97; 103; 101; 115].
  repeat (apply list.Forall_cons; split; [unfold letter; lia|]). constructor.
Qed.

Lemma scan_huge_other f rest :
  field_ok f → fst f ≠ text "AnonHugePages" → scan_huge (field_line f ++ rest) = None.
Proof.
  intros [Hl _] Hn. unfold scan_huge, field_line. rewrite <- app_assoc. cbn [app].
  destruct (strip kHugeField _) as [r|] eqn:E; [|done]. exfalso. apply Hn.
  exact (strip_word _ _ _ _ huge_name_letters Hl E).
Qed.

Lemma skip_pad k l : skip_spaces (replicate k 32 ++ l) = skip_spaces l.
Proof. induction k as [|k IH]; [done|exact IH]. Qed.

Lemma scan_huge_line m rest :
  0 <= mp_kib m < 2 ^ 64 → scan_huge (huge_line m ++ rest) = Some (mp_kib m).
Proof.
  intros Hk. unfold scan_huge, huge_line, field_line. cbn [fst snd]. rewrite <- app_assoc. cbn [app].
  change (strip kHugeField (text "AnonHugePages" ++ 58 :: ?l)) with (Some l). cbn [mbind option_bind].
  unfold scan_dec64. rewrite <- app_assoc, skip_pad, <- app_assoc.
  pose proof (read_dec (mp_kib m) (text " kB" ++ rest) ltac:(lia) eq_refl) as Hr.
  assert (Hd : ∃ c t, dec (mp_kib m) ++ text " kB" ++ rest = c :: t ∧ is_digit c = true).
  { pose proof (dec_digits (mp_kib m) ltac:(lia)) as Hd. pose proof (dec_some (mp_kib m)).
    destruct (dec (mp_kib m)) as [|c t]; [done|]. apply list.Forall_cons in Hd as [Hc _]. by exists c, (t ++ text " kB" ++ rest). }
  destruct Hd as (c & t & E & Hc). rewrite E in *. unfold is_digit in Hc. cbn [skip_spaces].
  unfold is_space. assert ((c =? 32) || ((9 <=? c) && (c <=? 13)) = false) as -> by lia. cbn [take_sign].
  assert ((c =? 45) = false) as -> by lia. assert ((c =? 43) = false) as -> by lia.
  unfold is_digit. rewrite Hc, Hr. by rewrite (proj2 (Z.leb_gt _ _)) by lia.
Qed.

Lemma scan_range_header m rest :
  0 <= mp_lo m < 2 ^ 64 → 0 <= mp_hi m < 2 ^ 64 → scan_range (header_line m ++ rest) = Some (mp_lo m, mp_hi m).
Proof.
  intros Hl Hh. unfold scan_range, header_line. rewrite <- app_assoc. cbn [app].
  rewrite scan_digits by (lia || done). cbn [mbind option_bind expect]. rewrite Z.eqb_refl. cbn [mbind option_bind].
  rewrite <- app_assoc. cbn [app]. by rewrite scan_digits by (lia || done).
Qed.

Lemma lines_loop_fields want fs ls :
  Forall field_ok fs → lines_loop want false ((field_line <$> fs) ++ ls) = lines_loop want false ls.
Proof. induction 1 as [|f fs Hf _ IH]; [done|]. cbn [fmap list_fmap app lines_loop]. by rewrite scan_range_field. Qed.

Lemma huge_line_ok m : field_ok (text "AnonHugePages", replicate (mp_pad m) 32 ++ dec (mp_kib m) ++ text " kB").
Proof. split; [exact huge_name_letters|done]. Qed.

Lemma lines_loop_skip want m ls :
  mapping_ok m → mp_lo m ≠ want →
  lines_loop want false (mapping_lines m ++ ls) = lines_loop want false ls.
Proof.
  intros (Hl & Hh & _ & Hb & Ha & _) Hw. unfold mapping_lines. cbn [app lines_loop]. rewrite scan_range_header by done.
  rewrite (proj2 (Z.eqb_neq _ _) Hw), <- app_assoc, lines_loop_fields by done. cbn [app lines_loop].
  unfold huge_line at 1. rewrite scan_range_field by apply huge_line_ok. by apply lines_loop_fields.
Qed.

Lemma lines_loop_own m ls : mapping_ok m → lines_loop (mp_lo m) false (mapping_lines m ++ ls) = mp_kib m.
Proof.
  intros (Hl & Hh & Hk & Hb & _ & Hne & _). unfold mapping_lines. cbn [app lines_loop]. rewrite scan_range_header, Z.eqb_refl, <- app_assoc by done.
  induction Hb as [|f fs Hf _ IH]; cbn [fmap list_fmap app lines_loop].
  - unfold huge_line at 1. rewrite scan_range_field by apply huge_line_ok. by rewrite scan_huge_line.
  - apply list.Forall_cons in Hne as [Hfn Hne]. rewrite scan_range_field, scan_huge_other by done. by apply IH.
Qed.

(** The figure reported for a mapping is the kernel's own for the mapping that starts there, whatever
    mappings come before and after it in the list and whatever their other fields. *)
Theorem huge_bytes_of_reads {W} `{Pages W} (w : W) ms1 m ms2 :
  smaps w = Some (smaps_text (ms1 ++ m :: ms2)) → Forall mapping_ok (ms1 ++ m :: ms2) →
  Forall (fun m' => mp_lo m' ≠ mp_lo m) ms1 →
  huge_bytes_of w (mp_lo m) = wrap64 (mp_kib m * 1024).
Proof.
  intros Ew Hok Hne. unfold huge_bytes_of. rewrite Ew. unfold smaps_text. rewrite smaps_loop_lines; [|..|done].
  2: { clear -Hok. induction Hok as [|m' ms Hm _ IH]; [constructor|]. apply list.Forall_app. split; [|exact IH]. apply Hm. }
  rewrite Z.shiftl_mul_pow2 by lia. do 2 f_equal. clear Ew.
  induction Hne as [|m' ms1 Hm' _ IH]; cbn [app fmap list_fmap concat].
  - apply list.Forall_cons in Hok as [Hm _]. by apply lines_loop_own.
  - apply list.Forall_cons in Hok as [Hm Hok]. rewrite lines_loop_skip by done. by apply IH.
Qed.
