(* ===== verification/HostMemorySample.v ===== *)
(** * Large pages on a simulated address space. *)

From stdpp Require Import base list strings numbers pretty.
From S2P Require Import Prelude Types Topology Text HostMemory.

(** The calls made, the last first: a range was mapped or given back, or zeroed.  A new
    mapping goes above all of them. *)

Inductive SpaceCall : Type := Mapped (a n : Z) | Unmapped (a n : Z) | Zeroed (a n : Z).

Record Space : Type := mkSpace { sp_calls : list SpaceCall; sp_maps : list Mapping }.

Fixpoint is_mapped (l : list SpaceCall) (x : Z) : bool :=
  match l with
  | [] => false
  | Mapped a n :: l => within_range a n x || is_mapped l x
  | Unmapped a n :: l => negb (within_range a n x) && is_mapped l x
  | Zeroed _ _ :: l => is_mapped l x
  end.

Fixpoint stored (l : list SpaceCall) (x : Z) : Z :=
  match l with
  | [] => 7
  | Zeroed a n :: l => if within_range a n x then 0 else stored l x
  | _ :: l => stored l x
  end.

Fixpoint highest (l : list SpaceCall) : Z :=
  match l with
  | [] => 0
  | Mapped a n :: l => Z.max (a + n) (highest l)
  | _ :: l => highest l
  end.

Definition push (c : SpaceCall) (s : Space) : Space := mkSpace (c :: sp_calls s) (sp_maps s).

#[export] Instance space_pages : Pages Space := {
  mmap s n :=
    let r := (highest (sp_calls s) / kPage + 1) * kPage in
    if (0 <? n) && (r + n <? 2 ^ 64) then (push (Mapped r n) s, Some r) else (s, None);
  munmap s a n := push (Unmapped a n) s;
  madvise_huge s _ _ := s;
  memset_zero s a n := push (Zeroed a n) s;
  smaps s := Some (smaps_text (sp_maps s))
}.

Lemma above_highest l x : highest l <= x → is_mapped l x = false.
Proof.
  induction l as [|[a n|a n|a n] l IH]; cbn; intros Hx; [done|..].
  - rewrite IH by lia. rewrite (proj2 (within_range_false a n x)) by lia. done.
  - by rewrite IH, andb_false_r.
  - by apply IH.
Qed.

Lemma highest_nonneg l : 0 <= highest l.
Proof. induction l as [|[] l IH]; cbn; lia. Qed.

#[export] Instance space_laws : @PageLaws Space _.
Proof.
  refine {| mapped s := is_mapped (sp_calls s); byte s := stored (sp_calls s) |}.
  - intros w n w' r _ E. cbn in E. destruct (_ && _) eqn:C; [|done]. simplify_eq.
    apply andb_true_iff in C as [C1%Z.ltb_lt C2%Z.ltb_lt].
    pose proof (highest_nonneg (sp_calls w)) as H0. pose proof (Z.mul_succ_div_gt (highest (sp_calls w)) kPage eq_refl) as Hd.
    assert (Hp : 0 <= highest (sp_calls w) / kPage) by (apply Z.div_pos; unfold kPage; lia).
    split_and!; [done|unfold kPage in *; lia|by apply Z.mod_mul|done| |done|done].
    intros x [Hx _]%within_range_spec. apply above_highest. unfold kPage in *. lia.
  - intros w n w' E. cbn in E. destruct (_ && _); by simplify_eq.
  - intros w a n _ _ _. split; [done|]. intros x Hx. done.
  - done.
  - done.
Defined.

(** A process with one library mapped before the memory it asks for. *)

Definition plain_field (name : string) : list Z * list Z := (text name, text "               4 kB").

Definition library : Mapping :=
  mkMapping 4096 8192 (text "r-xp 00000000 08:02 173521 /usr/lib/libhux.so") [plain_field "Rss"] 9 0 [].

Definition buffer : Mapping :=
  mkMapping (2 ^ 21) (2 ^ 21 + 3 * 2 ^ 21) (text "rw-p 00000000 00:00 0") [plain_field "Size"; plain_field "Anonymous"]
    5 4096 [plain_field "Locked"].

Definition process : Space := mkSpace [Mapped 4096 4096] [library; buffer].

Definition asked : Space * (Status.t + HostAllocation) := alloc_host 5000000 process.


Lemma huge_bytes_of_reads_witness : huge_bytes_of process (2 ^ 21) = 4096 * 1024.
Proof.
  apply (huge_bytes_of_reads process [library] buffer []).
  - reflexivity.
  - apply (bool_decide_unpack _). vm_compute. exact I.
  - repeat constructor. discriminate.
Defined.

(** The largest request wraps around: it is granted, of no bytes, at an address nothing is mapped at. *)
Lemma huge_request_granted :
  let '(w, r) := alloc_host (2 ^ 64 - 1) process in
  r = inr (mkHostAllocation (2 ^ 21) 0 (4096 * 1024)) ∧ mapped w (2 ^ 21) = false.
Proof. vm_compute. done. Qed.
