(* ===== verification/Json.v ===== *)
(** * JSON (RFC 8259), for the reports.

    A value, the compact text of one, and a parser of the grammar.  Text is a list of
    character codes; the parser does not check that codes above 127 are UTF-8.
    Numbers are kept as they are written. *)

From stdpp Require Import base list strings numbers pretty.
From S2P Require Import Prelude Text.

Unset Elimination Schemes.

Inductive json : Type :=
| JNull
| JBool (b : bool)
| JNum (t : list Z)
| JStr (s : list Z)
| JArr (l : list json)
| JObj (l : list (list Z * json)).

Set Elimination Schemes.

Section json_ind.
Context (P : json → Prop).
Context (Hnull : P JNull) (Hbool : ∀ b, P (JBool b)) (Hnum : ∀ t, P (JNum t)) (Hstr : ∀ s, P (JStr s)).
Context (Harr : ∀ l, Forall P l → P (JArr l)) (Hobj : ∀ l, Forall (fun kv => P (snd kv)) l → P (JObj l)).

Fixpoint json_ind (j : json) : P j :=
  match j with
  | JNull => Hnull
  | JBool b => Hbool b
  | JNum t => Hnum t
  | JStr s => Hstr s
  | JArr l =>
      Harr l ((fix items l : Forall P l :=
        match l with [] => Forall_nil_2 P | v :: l => Forall_cons_2 P v l (json_ind v) (items l) end) l)
  | JObj l =>
      Hobj l ((fix members l : Forall (fun kv => P (snd kv)) l :=
        match l with
        | [] => Forall_nil_2 _
        | kv :: l => Forall_cons_2 (fun kv => P (snd kv)) kv l (json_ind (snd kv)) (members l)
        end) l)
  end.
End json_ind.

(** An integer, and a text. *)

Definition jint (n : Z) : json := JNum (dec n).
Definition jstr (s : string) : json := JStr (text s).

(** ** Writing *)

Definition kQuote : Z := 34.

Definition quoted (s : list Z) : list Z := kQuote :: s ++ [kQuote].

Fixpoint separated (ls : list (list Z)) : list Z :=
  match ls with
  | [] => []
  | [l] => l
  | l :: ls => l ++ 44 :: separated ls
  end.

Fixpoint print (j : json) : list Z :=
  match j with
  | JNull => text "null"
  | JBool true => text "true"
  | JBool false => text "false"
  | JNum t => t
  | JStr s => quoted s
  | JArr l => 91 :: separated (print <$> l) ++ [93]
  | JObj l => 123 :: separated ((fun kv => quoted (fst kv) ++ 58 :: print (snd kv)) <$> l) ++ [125]
  end.

(** ** Reading *)

Definition is_ws (c : Z) : bool := (c =? 32) || (c =? 9) || (c =? 10) || (c =? 13).

Fixpoint ws (l : list Z) : list Z :=
  match l with
  | c :: l' => if is_ws c then ws l' else l
  | [] => []
  end.

Definition is_hex (c : Z) : bool :=
  is_digit c || ((97 <=? c) && (c <=? 102)) || ((65 <=? c) && (c <=? 70)).

(** What follows an opening quote, to the closing one; escapes are kept as written. *)

Fixpoint pstring (l : list Z) : option (list Z * list Z) :=
  match l with
  | [] => None
  | c :: l =>
      if c =? kQuote then Some ([], l)
      else if c <? 32 then None
      else if c =? 92 then
        match l with
        | e :: l =>
            if bool_decide (e ∈ text "/\bfnrt") || (e =? kQuote) then
              '(s, l) ← pstring l; Some (92 :: e :: s, l)
            else if e =? 117 then
              match l with
              | a :: b :: c :: d :: l =>
                  if is_hex a && is_hex b && is_hex c && is_hex d
                  then '(s, l) ← pstring l; Some (92 :: 117 :: a :: b :: c :: d :: s, l) else None
              | _ => None
              end
            else None
        | [] => None
        end
      else '(s, l) ← pstring l; Some (c :: s, l)
  end.

Fixpoint digits (l : list Z) : list Z * list Z :=
  match l with
  | c :: l' => if is_digit c then let '(ds, r) := digits l' in (c :: ds, r) else ([], l)
  | [] => ([], [])
  end.

(** At least one digit. *)

Definition some_digits (l : list Z) : option (list Z * list Z) :=
  let '(ds, r) := digits l in if bool_decide (ds = []) then None else Some (ds, r).

Definition pminus (l : list Z) : list Z * list Z :=
  match l with c :: l' => if c =? 45 then ([45], l') else ([], l) | [] => ([], []) end.

Definition pint (l : list Z) : option (list Z * list Z) :=
  match l with
  | c :: l' => if c =? 48 then Some ([48], l') else some_digits l
  | [] => None
  end.

Definition pfrac (l : list Z) : option (list Z * list Z) :=
  match l with
  | c :: l' => if c =? 46 then '(ds, r) ← some_digits l'; Some (46 :: ds, r) else Some ([], l)
  | [] => Some ([], [])
  end.

Definition psign (l : list Z) : list Z * list Z :=
  match l with c :: l' => if (c =? 45) || (c =? 43) then ([c], l') else ([], l) | [] => ([], []) end.

Definition pexp (l : list Z) : option (list Z * list Z) :=
  match l with
  | c :: l' =>
      if (c =? 101) || (c =? 69) then
        let '(s, l') := psign l' in '(ds, r) ← some_digits l'; Some (c :: s ++ ds, r)
      else Some ([], l)
  | [] => Some ([], [])
  end.

Definition pnumber (l : list Z) : option (list Z * list Z) :=
  let '(m, l) := pminus l in
  '(i, l) ← pint l; '(f, l) ← pfrac l; '(e, l) ← pexp l; Some (m ++ i ++ f ++ e, l).

Fixpoint strip_text (p l : list Z) : option (list Z) :=
  match p, l with
  | [], _ => Some l
  | c :: p, c' :: l => if c =? c' then strip_text p l else None
  | _, [] => None
  end.

Definition pword (l : list Z) : option (json * list Z) :=
  match strip_text (text "null") l with
  | Some l => Some (JNull, l)
  | None =>
      match strip_text (text "true") l with
      | Some l => Some (JBool true, l)
      | None =>
          match strip_text (text "false") l with
          | Some l => Some (JBool false, l)
          | None => '(t, l) ← pnumber l; Some (JNum t, l)
          end
      end
  end.

(** Every call but the first is past a character at least, so the length of the text is
    fuel enough. *)

Fixpoint pvalue (n : nat) (l : list Z) : option (json * list Z) :=
  match n with
  | O => None
  | S n =>
      match ws l with
      | 123 :: l =>
          match ws l with
          | 125 :: l => Some (JObj [], l)
          | l => '(ms, l) ← pmembers n l; Some (JObj ms, l)
          end
      | 91 :: l =>
          match ws l with
          | 93 :: l => Some (JArr [], l)
          | l => '(vs, l) ← pitems n l; Some (JArr vs, l)
          end
      | 34 :: l => '(s, l) ← pstring l; Some (JStr s, l)
      | l => pword l
      end
  end
with pmembers (n : nat) (l : list Z) : option (list (list Z * json) * list Z) :=
  match n with
  | O => None
  | S n =>
      match ws l with
      | 34 :: l =>
          '(k, l) ← pstring l;
          match ws l with
          | 58 :: l =>
              '(v, l) ← pvalue n l;
              match ws l with
              | 44 :: l => '(ms, l) ← pmembers n l; Some ((k, v) :: ms, l)
              | 125 :: l => Some ([(k, v)], l)
              | _ => None
              end
          | _ => None
          end
      | _ => None
      end
  end
with pitems (n : nat) (l : list Z) : option (list json * list Z) :=
  match n with
  | O => None
  | S n =>
      '(v, l) ← pvalue n l;
      match ws l with
      | 44 :: l => '(vs, l) ← pitems n l; Some (v :: vs, l)
      | 93 :: l => Some ([v], l)
      | _ => None
      end
  end.

Definition parse_json (l : list Z) : option json :=
  '(j, rest) ← pvalue (S (length l)) l; if bool_decide (ws rest = []) then Some j else None.

(** ** What is written is read back *)

(** A text that needs no escapes, and a text that is a number and nothing more. *)

Definition plain (s : list Z) : Prop := Forall (fun c => 32 <= c ∧ c ≠ kQuote ∧ c ≠ 92) s.

Definition number (t : list Z) : Prop := pnumber t = Some (t, []).

#[global] Instance plain_dec s : Decision (plain s).
Proof. unfold plain. apply _. Defined.

Fixpoint wf (j : json) : Prop :=
  match j with
  | JNull | JBool _ => True
  | JNum t => number t
  | JStr s => plain s
  | JArr l => foldr (fun v p => wf v ∧ p) True l
  | JObj l => foldr (fun kv p => plain (fst kv) ∧ wf (snd kv) ∧ p) True l
  end.

Fixpoint jsize (j : json) : nat :=
  match j with
  | JArr l => S (foldr (fun v n => S (jsize v) + n)%nat 0%nat l)
  | JObj l => S (foldr (fun kv n => S (jsize (snd kv)) + n)%nat 0%nat l)
  | _ => 1
  end.

(** The end of a value: nothing, a comma or a bracket. *)

Definition stops (l : list Z) : Prop :=
  match l with c :: _ => c = 44 ∨ c = 125 ∨ c = 93 | [] => True end.

Lemma digits_app l rest :
  no_digit rest → digits (l ++ rest) = let '(ds, r) := digits l in (ds, r ++ rest).
Proof.
  intros Hr. induction l as [|c l IH]; cbn [digits app].
  - destruct rest as [|c rest]; [done|]. cbn in *. by rewrite Hr.
  - destruct (is_digit c); [|done]. rewrite IH. by destruct (digits l).
Qed.

Lemma some_digits_app l rest p :
  no_digit rest → some_digits l = Some p → some_digits (l ++ rest) = Some (fst p, snd p ++ rest).
Proof.
  intros Hr. unfold some_digits. rewrite digits_app by done. destruct (digits l) as [ds r].
  case_bool_decide; [done|]. by intros [= <-].
Qed.

(** A number ends where a value can end. *)

Lemma pnumber_app t rest t' r :
  stops rest → pnumber t = Some (t', r) → pnumber (t ++ rest) = Some (t', r ++ rest).
Proof.
  intros Hs. assert (Hd : no_digit rest) by (destruct rest as [|c ?]; [done|]; cbn in *; by destruct Hs as [->|[->| ->]]).
  assert (Hf : pfrac rest = Some ([], rest)) by (destruct rest as [|c ?]; [done|]; cbn in *; by destruct Hs as [->|[->| ->]]).
  assert (He : pexp rest = Some ([], rest)) by (destruct rest as [|c ?]; [done|]; cbn in *; by destruct Hs as [->|[->| ->]]).
  assert (Hi : ∀ l p, pint l = Some p → pint (l ++ rest) = Some (fst p, snd p ++ rest)).
  { intros [|c l] p; cbn [pint app]; [done|]. destruct (c =? 48); [by intros [= <-]|]. apply (some_digits_app (c :: l)). done. }
  assert (Hfa : ∀ l p, pfrac l = Some p → pfrac (l ++ rest) = Some (fst p, snd p ++ rest)).
  { intros [|c l] p; cbn [pfrac app]; [intros [= <-]; exact Hf|]. destruct (c =? 46); [|by intros [= <-]].
    destruct (some_digits l) as [[ds q]|] eqn:E; [|done]. intros [= <-]. by rewrite (some_digits_app l rest _ Hd E). }
  assert (Hea : ∀ l p, pexp l = Some p → pexp (l ++ rest) = Some (fst p, snd p ++ rest)).
  { intros [|c l] p; cbn [pexp app]; [intros [= <-]; exact He|]. destruct (_ || _); [|by intros [= <-]].
    assert (Ep : l ≠ [] → psign (l ++ rest) = (fst (psign l), snd (psign l) ++ rest)).
    { destruct l as [|c' l]; [done|]. intros _. cbn. by destruct (_ || _). }
    destruct l as [|c' l]; [done|]. rewrite Ep by done. destruct (psign (c' :: l)) as [s l'].
    cbn [fst snd]. destruct (some_digits l') as [[ds q]|] eqn:E; [|done]. intros [= <-].
    by rewrite (some_digits_app l' rest _ Hd E). }
  unfold pnumber. destruct t as [|c t]; [done|].
  assert (Em : pminus ((c :: t) ++ rest) = (fst (pminus (c :: t)), snd (pminus (c :: t)) ++ rest)).
  { cbn. by destruct (c =? 45). }
  rewrite Em. destruct (pminus (c :: t)) as [m l]. cbn [fst snd].
  destruct (pint l) as [[i l1]|] eqn:E1; [|done]. rewrite (Hi _ _ E1). cbn [mbind option_bind fst snd].
  destruct (pfrac l1) as [[f l2]|] eqn:E2; [|done]. rewrite (Hfa _ _ E2). cbn [mbind option_bind fst snd].
  destruct (pexp l2) as [[e l3]|] eqn:E3; [|done]. rewrite (Hea _ _ E3). cbn [mbind option_bind fst snd].
  by intros [= <- <-].
Qed.

Lemma pstring_plain s rest : plain s → pstring (s ++ kQuote :: rest) = Some (s, rest).
Proof.
  induction 1 as [|c s (H1 & H2 & H3) _ IH]; [done|]. cbn [app pstring].
  rewrite (proj2 (Z.eqb_neq c kQuote)), (proj2 (Z.ltb_ge c 32)), (proj2 (Z.eqb_neq c 92)) by done.
  by rewrite IH.
Qed.

(** How a number can begin. *)

Lemma number_head t : number t → ∃ c t', t = c :: t' ∧ (c = 45 ∨ 48 <= c <= 57).
Proof.
  unfold number, pnumber. destruct t as [|c t]; [done|]. intros E. exists c, t. split; [done|].
  cbn [pminus] in E. destruct (Z.eqb_spec c 45); [by left|]. right. cbn [pint] in E.
  destruct (Z.eqb_spec c 48); [lia|]. unfold some_digits in E. cbn [digits] in E.
  destruct (is_digit c) eqn:Ed; [|done]. unfold is_digit in Ed. lia.
Qed.

Lemma pvalue_number n t rest :
  number t → stops rest → pvalue (S n) (t ++ rest) = Some (JNum t, rest).
Proof.
  intros Ht Hs. destruct (number_head t Ht) as (c & t' & -> & Hc).
  pose proof (pnumber_app _ rest _ _ Hs Ht) as E. cbn [app] in *.
  assert (c = 45 ∨ c = 48 ∨ c = 49 ∨ c = 50 ∨ c = 51 ∨ c = 52 ∨ c = 53 ∨ c = 54 ∨ c = 55 ∨ c = 56 ∨ c = 57) as Hc' by lia.
  clear Hc Ht. cbn [pvalue].
  repeat (destruct Hc' as [->|Hc']); [..|subst c];
    cbn [ws is_ws Z.eqb Pos.eqb orb]; unfold pword; cbn [strip_text text bytes_of_string]; cbn -[pnumber]; by rewrite E.
Qed.

(** A printed value begins with something other than a space or the end of a list. *)

Definition starts (l : list Z) : Prop :=
  match l with c :: _ => is_ws c = false ∧ c ≠ 93 ∧ c ≠ 125 | [] => False end.

Lemma print_starts j rest : wf j → starts (print j ++ rest).
Proof.
  destruct j as [|[]|t|s|l|l]; cbn [wf]; intros Hj; try (by cbn; split_and!).
  destruct (number_head t Hj) as (c & t' & -> & Hc). cbn. unfold is_ws. lia.
Qed.

Lemma ws_starts l : starts l → ws l = l.
Proof. destruct l as [|c l]; [done|]. intros [E _]. cbn. by rewrite E. Qed.

Lemma ws_stops l : stops l → ws l = l.
Proof. destruct l as [|c l]; [done|]. intros [->|[->| ->]]; done. Qed.

Definition reads (v : json) : Prop :=
  wf v → ∀ n rest, (jsize v <= n)%nat → stops rest → pvalue n (print v ++ rest) = Some (v, rest).

Lemma pitems_separated v l n rest :
  Forall reads (v :: l) → wf (JArr (v :: l)) → (jsize (JArr (v :: l)) <= S n)%nat →
  pitems n (separated (print <$> v :: l) ++ 93 :: rest) = Some (v :: l, rest).
Proof.
  revert v n. induction l as [|v' l IH]; intros v n Hr Hw Hn; apply list.Forall_cons in Hr as [Hv Hr];
    cbn [wf foldr] in Hw; destruct Hw as [Wv Wl]; cbn [jsize foldr] in Hn; (destruct n as [|n]; [lia|]).
  - cbn [fmap list_fmap separated pitems]. rewrite (Hv Wv) by (lia || (cbn; auto)). done.
  - change (separated (print <$> v :: v' :: l)) with (print v ++ 44 :: separated (print <$> v' :: l)).
    cbn [pitems]. rewrite <- app_assoc. rewrite (Hv Wv) by (lia || (cbn; auto)). cbn [mbind option_bind ws app].
    change (is_ws 44) with false. cbn iota.
    rewrite IH; [done|done|done|]. cbn [jsize foldr]. lia.
Qed.

Lemma pmembers_separated k v l n rest :
  Forall (fun kv => reads (snd kv)) ((k, v) :: l) → wf (JObj ((k, v) :: l)) →
  (jsize (JObj ((k, v) :: l)) <= S n)%nat →
  pmembers n (separated ((fun kv => quoted (fst kv) ++ 58 :: print (snd kv)) <$> (k, v) :: l) ++ 125 :: rest)
  = Some ((k, v) :: l, rest).
Proof.
  revert k v n. induction l as [|[k' v'] l IH]; intros k v n Hr Hw Hn; apply list.Forall_cons in Hr as [Hv Hr];
    cbn [snd wf foldr fst] in *; destruct Hw as (Pk & Wv & Wl); cbn [jsize foldr snd] in Hn; (destruct n as [|n]; [lia|]).
  - cbn [fmap list_fmap separated fst snd]. unfold quoted. rewrite <- !app_assoc. cbn [app pmembers ws].
    change (is_ws kQuote) with false. cbn iota. unfold kQuote at 1. rewrite <- app_assoc. cbn [app].
    rewrite pstring_plain by done. cbn [mbind option_bind ws]. change (is_ws 58) with false. cbn iota.
    rewrite (Hv Wv) by (lia || (cbn; auto)). done.
  - set (f := fun kv => quoted (fst kv) ++ 58 :: print (snd kv)) in *.
    change (separated (f <$> (k, v) :: (k', v') :: l)) with (f (k, v) ++ 44 :: separated (f <$> (k', v') :: l)).
    unfold f at 1, quoted. cbn [fst snd]. rewrite <- !app_assoc. cbn [app pmembers ws].
    change (is_ws kQuote) with false. cbn iota. unfold kQuote at 1. rewrite <- !app_assoc. cbn [app].
    rewrite pstring_plain by done. cbn [mbind option_bind ws]. change (is_ws 58) with false. cbn iota.
    rewrite (Hv Wv) by (lia || (cbn; auto)). cbn [mbind option_bind ws]. change (is_ws 44) with false. cbn iota.
    rewrite IH; [done|done|done|]. cbn [jsize foldr snd] in *. lia.
Qed.

Lemma print_reads j : reads j.
Proof.
  induction j as [|b|t|s|l IH|l IH] using json_ind; intros Hw n rest Hn Hs; (destruct n as [|n]; [cbn in Hn; lia|]).
  - done.
  - by destruct b.
  - by apply pvalue_number.
  - cbn [print pvalue]. unfold quoted. cbn [app ws]. change (is_ws kQuote) with false. cbn iota.
    unfold kQuote at 1. rewrite <- app_assoc. cbn [app]. by rewrite pstring_plain.
  - destruct l as [|v l]; [done|]. cbn [print]. cbn [app pvalue ws]. change (is_ws 91) with false. cbn iota.
    rewrite <- app_assoc. cbn [app].
    assert (St : starts (separated (print <$> v :: l) ++ 93 :: rest)).
    { cbn [wf foldr] in Hw. destruct l; cbn [fmap list_fmap separated]; rewrite <- ?app_assoc; apply print_starts, Hw. }
    pose proof (pitems_separated v l n rest IH Hw Hn) as E. rewrite ws_starts by done.
    destruct (separated _ ++ _) as [|c t]; [done|]. destruct St as (_ & Hc & _).
    destruct c as [|p|p]; try (by rewrite E). by repeat (destruct p as [p|p|]; try (by rewrite E)).
  - destruct l as [|[k v] l]; [done|]. cbn [print]. cbn [app pvalue ws]. change (is_ws 123) with false. cbn iota.
    rewrite <- app_assoc. cbn [app]. rewrite ws_starts; [|by destruct l; cbn; split_and!].
    pose proof (pmembers_separated k v l n rest IH Hw Hn) as E. destruct l; cbn [fmap list_fmap separated fst snd] in *;
      unfold quoted, kQuote in *; cbn [app] in *; by rewrite E.
Qed.

Lemma separated_length (ls : list (list Z)) :
  (foldr (fun l n => S (length l) + n) 0 ls <= S (length (separated ls)))%nat.
Proof.
  induction ls as [|l [|l' ls] IH]; [cbn; lia..|].
  change (separated (l :: l' :: ls)) with (l ++ 44 :: separated (l' :: ls)).
  rewrite length_app. cbn [foldr length] in *. lia.
Qed.

Lemma jsize_length j : wf j → (jsize j <= length (print j))%nat.
Proof.
  induction j as [|b|t|s|l IH|l IH] using json_ind; intros Hw.
  - cbn. lia.
  - destruct b; cbn; lia.
  - destruct (number_head t Hw) as (c & t' & -> & _). cbn. lia.
  - cbn. lia.
  - cbn [print length jsize]. rewrite length_app. cbn [length].
    pose proof (separated_length (print <$> l)) as Hl.
    assert (Hs : (foldr (fun v n => S (jsize v) + n) 0 l <= foldr (fun l n => S (length l) + n) 0 (print <$> l))%nat).
    { clear Hl. induction IH as [|v l Hv _ IHl]; [done|]. cbn [wf foldr fmap list_fmap] in *.
      destruct Hw as [Wv Wl]. specialize (Hv Wv). specialize (IHl Wl). lia. }
    lia.
  - cbn [print length jsize]. rewrite length_app. cbn [length].
    set (f := fun kv => quoted (fst kv) ++ 58 :: print (snd kv)). pose proof (separated_length (f <$> l)) as Hl.
    assert (Hs : (foldr (fun kv n => S (jsize (snd kv)) + n) 0 l <= foldr (fun l n => S (length l) + n) 0 (f <$> l))%nat).
    { clear Hl. induction IH as [|[k v] l Hv _ IHl]; [done|]. cbn [wf foldr fmap list_fmap fst snd] in *.
      destruct Hw as (_ & Wv & Wl). specialize (Hv Wv). specialize (IHl Wl). unfold f at 1. cbn [fst snd].
      rewrite length_app. cbn [length]. lia. }
    lia.
Qed.

(** A value written is the value read. *)

Lemma parse_print j : wf j → parse_json (print j) = Some j.
Proof.
  intros Hw. unfold parse_json. rewrite <- (app_nil_r (print j)) at 2.
  rewrite (print_reads j Hw) by (done || (pose proof (jsize_length j Hw); lia)). done.
Qed.

(** Integers are numbers. *)

Lemma digits_all ds : Forall (fun c => is_digit c = true) ds → digits ds = (ds, []).
Proof. induction 1 as [|c ds Hc _ IH]; [done|]. cbn. by rewrite Hc, IH. Qed.

Lemma pint_dec n : 0 <= n → pint (dec n) = Some (dec n, []).
Proof.
  intros Hn. pose proof (dec_digits n Hn) as Hd. destruct (dec_head n Hn) as [->|(c & l & E & Hc)]; [done|].
  rewrite E in *. cbn [pint]. rewrite (proj2 (Z.eqb_neq c 48)) by lia.
  unfold some_digits. by rewrite digits_all.
Qed.

Lemma jint_wf n : wf (jint n).
Proof.
  cbn. unfold number, pnumber. destruct (Z.lt_ge_cases n 0) as [Hn|Hn].
  - rewrite dec_neg by done. change (pminus (45 :: ?l)) with ([45], l). cbn iota beta. rewrite pint_dec by lia.
    cbn [mbind option_bind pfrac pexp app]. by rewrite app_nil_r.
  - assert (E : pminus (dec n) = ([], dec n)).
    { destruct (dec_head n Hn) as [->|(c & l & -> & Hc)]; [done|]. cbn. by rewrite (proj2 (Z.eqb_neq c 45)) by lia. }
    rewrite E. cbn iota beta. rewrite pint_dec by done. cbn [mbind option_bind pfrac pexp app]. by rewrite app_nil_r.
Qed.

#[export] Hint Resolve jint_wf : hux.
