(* ===== verification/FloatText.v ===== *)
(** * A [double] as a stream prints it.

    [operator<<] with its defaults is [%g] at six significant digits: the exact value is
    rounded to the nearest such decimal, ties to even, written plainly when its exponent
    is from -4 to 5 and with an exponent otherwise, without trailing zeros. *)

From Stdlib Require Import SpecFloat.
From stdpp Require Import base list strings numbers pretty.
From S2P Require Import Prelude Float64 Text Json.

Definition round_div (n d : Z) : Z :=
  let q := n / d in
  let r := n mod d in
  if 2 * r <? d then q else if d <? 2 * r then q + 1 else if Z.even q then q else q + 1.

(** The exponent of the first significant digit of a fraction below one; the least
    [double] has it at -324. *)

Fixpoint below_one (fuel : nat) (k num den : Z) : Z :=
  match fuel with
  | O => k
  | S fuel => if den <=? num then k else below_one fuel (k - 1) (10 * num) den
  end.

Definition exponent10 (num den : Z) : Z :=
  if den <=? num then Z.of_nat (length (dec (num / den))) - 1 else below_one 400 (-1) (10 * num) den.

(** [num / den] with its first digit moved to 10^5. *)

Definition six_digits (num den x : Z) : Z :=
  if x <=? 5 then round_div (num * 10 ^ (5 - x)) den else round_div num (den * 10 ^ (x - 5)).

Definition pad (w : nat) (n : Z) : list Z := let d := dec n in replicate (w - length d) 48 ++ d.

Fixpoint drop_zeros (l : list Z) : list Z :=
  match l with
  | c :: l' => if c =? 48 then drop_zeros l' else l
  | [] => []
  end.

(** A fraction without its trailing zeros, and without its point if nothing is left. *)

Definition fraction (l : list Z) : list Z :=
  let l := reverse (drop_zeros (reverse l)) in if bool_decide (l = []) then [] else 46 :: l.

Definition print_exp (d x : Z) : list Z :=
  let ds := pad 6 d in
  take 1 ds ++ fraction (drop 1 ds) ++ 101 :: (if x <? 0 then 45 else 43) :: pad 2 (Z.abs x).

Definition print_plain (d x : Z) : list Z :=
  if 0 <=? x then dec (d / 10 ^ (5 - x)) ++ fraction (pad (Z.to_nat (5 - x)) (d mod 10 ^ (5 - x)))
  else 48 :: fraction (replicate (Z.to_nat (- x - 1)) 48 ++ pad 6 d).

Definition minus (s : bool) : list Z := if s then [45] else [].

Definition print_g (v : f64) : list Z :=
  match v with
  | S754_zero s => minus s ++ text "0"
  | S754_infinity s => minus s ++ text "inf"
  | S754_nan => text "nan"
  | S754_finite s m e =>
      let num := if 0 <=? e then Zpos m * 2 ^ e else Zpos m in
      let den := if 0 <=? e then 1 else 2 ^ (- e) in
      let x := exponent10 num den in
      let d := six_digits num den x in
      let '(d, x) := if d =? 10 ^ 6 then (10 ^ 5, x + 1) else (d, x) in
      minus s ++ if (x <? -4) || (6 <=? x) then print_exp d x else print_plain d x
  end.

(** Against the C library: whole, tied, small and large values. *)

Lemma print_g_samples :
  print_g (f64_of_Z 0) = text "0"
  ∧ print_g (f64_of_Z 100000) = text "100000"
  ∧ print_g (f64_of_Z 12500000000) = text "1.25e+10"
  ∧ print_g f64_0_008 = text "0.008"
  ∧ print_g f64_1e_9 = text "1e-09"
  ∧ print_g (f64_div (f64_of_Z 2) (f64_of_Z 3)) = text "0.666667"
  ∧ print_g (f64_of_Z 1234565) = text "1.23456e+06"
  ∧ print_g (f64_of_Z 9999996) = text "1e+07"
  ∧ print_g (f64_div (f64_of_Z (-5)) (f64_of_Z 2)) = text "-2.5"
  ∧ print_g (S754_finite false 1 (-1074)) = text "4.94066e-324".
Proof. vm_compute. repeat split. Qed.

(** ** It is a JSON number *)

Definition all_digits (l : list Z) : Prop := Forall (fun c => is_digit c = true) l.

Definition int_text (l : list Z) : Prop :=
  l = [48] ∨ ∃ c t, l = c :: t ∧ 49 <= c <= 57 ∧ all_digits t.

Definition frac_text (l : list Z) : Prop := l = [] ∨ ∃ t, l = 46 :: t ∧ t ≠ [] ∧ all_digits t.

Definition exp_text (l : list Z) : Prop :=
  l = [] ∨ ∃ s t, l = 101 :: s :: t ∧ (s = 45 ∨ s = 43) ∧ t ≠ [] ∧ all_digits t.

Lemma some_digits_all l rest :
  all_digits l → l ≠ [] → no_digit rest → some_digits (l ++ rest) = Some (l, rest).
Proof.
  intros Hl Hne Hr. unfold some_digits. rewrite digits_app, digits_all by done.
  by rewrite bool_decide_eq_false_2.
Qed.

Lemma number_parts s i f e :
  int_text i → frac_text f → exp_text e → number (minus s ++ i ++ f ++ e).
Proof.
  intros Hi Hf He. unfold number, pnumber.
  assert (Ne : no_digit (f ++ e)).
  { destruct Hf as [->|(t & -> & _)]; [|done]. by destruct He as [->|(x & t & -> & _)]. }
  assert (Ni : no_digit e) by (by destruct He as [->|(x & t & -> & _)]).
  assert (Em : pminus (minus s ++ i ++ f ++ e) = (minus s, i ++ f ++ e)).
  { destruct s; [done|]. cbn [minus app]. destruct Hi as [->|(c & t & -> & Hc & _)]; [done|].
    cbn. by rewrite (proj2 (Z.eqb_neq c 45)) by lia. }
  rewrite Em. cbn iota beta.
  assert (Ei : pint (i ++ f ++ e) = Some (i, f ++ e)).
  { destruct Hi as [->|(c & t & -> & Hc & Ht)]; [done|]. cbn [app pint]. rewrite (proj2 (Z.eqb_neq c 48)) by lia.
    apply (some_digits_all (c :: t)); [|done..]. constructor; [unfold is_digit; lia|done]. }
  rewrite Ei. cbn [mbind option_bind].
  assert (Ef : pfrac (f ++ e) = Some (f, e)).
  { destruct Hf as [->|(t & -> & Hne & Ht)].
    - cbn [app]. by destruct He as [->|(x & t & -> & _)].
    - cbn [app pfrac Z.eqb Pos.eqb]. by rewrite some_digits_all. }
  rewrite Ef. cbn [mbind option_bind].
  assert (Ee : pexp e = Some (e, [])).
  { destruct He as [->|(x & t & -> & Hx & Hne & Ht)]; [done|]. cbn [pexp Z.eqb Pos.eqb orb psign].
    replace ((x =? 45) || (x =? 43)) with true by (destruct Hx as [->| ->]; done). cbn iota beta.
    rewrite <- (app_nil_r t) at 1. by rewrite some_digits_all. }
  by rewrite Ee.
Qed.

Lemma pad_digits w n : 0 <= n → all_digits (pad w n) ∧ pad w n ≠ [].
Proof.
  intros Hn. unfold pad. split.
  - apply list.Forall_app. split; [by apply Forall_replicate|by apply dec_digits].
  - intros E. apply app_eq_nil in E as [_ E]. by apply dec_some in E.
Qed.

Lemma drop_zeros_digits l : all_digits l → all_digits (drop_zeros l).
Proof. induction 1 as [|c l Hc Hl IH]; cbn; [constructor|]. destruct (c =? 48); [done|]. by constructor. Qed.

Lemma fraction_text l : all_digits l → frac_text (fraction l).
Proof.
  intros Hl. unfold fraction. case_bool_decide as E; [by left|]. right. eexists. split_and!; [done|exact E|].
  apply Forall_reverse, drop_zeros_digits, Forall_reverse, Hl.
Qed.

Lemma dec_int_text n : 0 <= n → int_text (dec n).
Proof.
  intros Hn. pose proof (dec_digits n Hn) as Hd. destruct (dec_head n Hn) as [->|(c & t & E & Hc)]; [by left|].
  right. rewrite E in *. apply list.Forall_cons in Hd as [_ Ht]. by exists c, t.
Qed.

Lemma digit_int_text c : is_digit c = true → int_text [c].
Proof.
  unfold is_digit. intros Hc. destruct (decide (c = 48)) as [->|]; [by left|]. right. exists c, [].
  split_and!; [done|lia|lia|constructor].
Qed.

Lemma print_exp_parts d x : 0 <= d → ∃ i f e, print_exp d x = i ++ f ++ e ∧ int_text i ∧ frac_text f ∧ exp_text e.
Proof.
  intros Hd. unfold print_exp. destruct (pad_digits 6 d Hd) as [Hp Hne].
  destruct (pad 6 d) as [|c l]; [done|]. apply list.Forall_cons in Hp as [Hc Hl]. cbn [take drop].
  do 3 eexists. split; [reflexivity|]. split_and!; [by apply digit_int_text|by apply fraction_text|].
  destruct (pad_digits 2 (Z.abs x) ltac:(lia)). right. do 2 eexists. split; [reflexivity|].
  split_and!; [destruct (x <? 0); auto|done|done].
Qed.

Lemma print_plain_parts d x : 0 <= d → ∃ i f, print_plain d x = i ++ f ∧ int_text i ∧ frac_text f.
Proof.
  intros Hd. unfold print_plain. destruct (Z.leb_spec 0 x).
  - do 2 eexists. split; [reflexivity|]. split.
    + apply dec_int_text. destruct (decide (10 ^ (5 - x) = 0)) as [->|]; [by rewrite Z.div_0_r|].
      apply Z.div_pos; lia.
    + apply fraction_text, pad_digits. destruct (decide (10 ^ (5 - x) = 0)) as [->|]; [by rewrite Z.mod_0_r|].
      apply Z.mod_pos_bound. lia.
  - exists [48]. eexists. split; [reflexivity|]. split; [by left|]. apply fraction_text, list.Forall_app.
    split; [by apply Forall_replicate|by apply pad_digits].
Qed.

Lemma round_div_nonneg n d : 0 <= n → 0 < d → 0 <= round_div n d.
Proof.
  intros Hn Hd. unfold round_div. pose proof (Z.div_pos n d Hn Hd).
  destruct (2 * (n mod d) <? d), (d <? 2 * (n mod d)), (Z.even (n / d)); lia.
Qed.

Lemma six_digits_nonneg num den x : 0 <= num → 0 < den → 0 <= six_digits num den x.
Proof.
  intros Hn Hd. unfold six_digits. destruct (Z.leb_spec x 5); apply round_div_nonneg; try lia.
Qed.

(** Every finite value is written as a number. *)

Lemma print_g_number v : f64_finite v = true → number (print_g v).
Proof.
  destruct v as [s|s| |s m e]; cbn [f64_finite]; intros Hf; try done; [by destruct s|]. clear Hf. unfold print_g.
  set (num := if 0 <=? e then _ else _). set (den := if 0 <=? e then _ else _).
  assert (0 < num ∧ 0 < den) as [Hn Hd].
  { unfold num, den. destruct (Z.leb_spec 0 e); split; try lia. }
  pose proof (six_digits_nonneg num den (exponent10 num den) ltac:(lia) Hd) as H6.
  set (p := if six_digits num den _ =? _ then _ else _). assert (Hp : 0 <= fst p) by (unfold p; destruct (_ =? _); cbn; lia).
  clearbody p. destruct p as [d x]. cbn [fst] in Hp. destruct (_ || _).
  - destruct (print_exp_parts d x Hp) as (i & f & ex & -> & Hi & Hf & He). by apply number_parts.
  - destruct (print_plain_parts d x Hp) as (i & f & -> & Hi & Hf). rewrite <- (app_nil_r f).
    apply number_parts; [done..|by left].
Qed.
