(* ===== verification/Reports.v ===== *)
(** * The reports ([describe_config], [Engine::describe], each provider's [describe] and
    [describe_topology]).

    Every report is built as the sources build it, piece by piece, and is then shown to
    be the text of a JSON value with the fields its reader expects.  Nothing is escaped,
    so what the sources insert has to be plain text; [lit] writes a literal of the
    sources with an apostrophe where they have an escaped quote. *)

From stdpp Require Import base list gmap strings numbers pretty.
From S2P Require Import Prelude Float64 Types Wire Region Outbox Provider Request SubOps.
From S2P Require Import EngineCore EngineMemory EnginePeers Engine LocalPath MockPath Congestion.
From S2P Require Import RdmaVerbs RdmaProvider IpcProvider UcxProvider Topology Text Json FloatText.

Definition lit (s : string) : list Z := (fun c => if c =? 39 then kQuote else c) <$> text s.

(** ** The configuration ([src/core/strings.cpp]) *)

Definition progress_name (m : ProgressMode.t) : string :=
  match m with ProgressMode.kThread => "thread" | ProgressMode.kExplicit => "explicit" end.

Definition config_cc_name (c : CongestionControl.t) : string :=
  match c with
  | CongestionControl.kOff => "off"
  | CongestionControl.kFixedWindow => "fixed_window"
  | CongestionControl.kAdaptive => "adaptive"
  end.

Definition device_name (k : DeviceKind.t) : string :=
  match k with
  | DeviceKind.kHost => "host"
  | DeviceKind.kCuda => "cuda"
  | DeviceKind.kRocm => "rocm"
  | DeviceKind.kCambricon => "cambricon"
  | DeviceKind.kMoore => "moore"
  | DeviceKind.kKunlun => "kunlun"
  | DeviceKind.raw _ => "unknown"
  end.

Definition describe_config (cfg : EngineConfig) : list Z :=
  lit "{" ++ lit "'device':'" ++ text (device_name (dev_kind (cfg_device cfg))) ++ lit ":"
  ++ dec (dev_index (cfg_device cfg)) ++ lit "',"
  ++ lit "'progress':'" ++ text (progress_name (cfg_progress cfg)) ++ lit "',"
  ++ lit "'qp_per_peer':" ++ dec (cfg_qp_per_peer cfg) ++ lit ","
  ++ lit "'chunk_bytes':" ++ dec (cfg_chunk_bytes cfg) ++ lit ","
  ++ lit "'wr_batch':" ++ dec (cfg_wr_batch cfg) ++ lit ","
  ++ lit "'cq_batch':" ++ dec (cfg_cq_batch cfg) ++ lit ","
  ++ lit "'max_inflight_requests':" ++ dec (cfg_max_inflight_requests cfg) ++ lit ","
  ++ lit "'scheduler_quantum_bytes':" ++ dec (cfg_scheduler_quantum_bytes cfg) ++ lit ","
  ++ lit "'registration_cache_entries':" ++ dec (cfg_registration_cache_entries cfg) ++ lit ","
  ++ lit "'cc':'" ++ text (config_cc_name (cfg_cc cfg)) ++ lit "',"
  ++ lit "'cc_window_bytes':" ++ dec (cfg_cc_window_bytes cfg) ++ lit ","
  ++ lit "'notify_queue_depth':" ++ dec (cfg_notify_queue_depth cfg) ++ lit ","
  ++ lit "'completion_queue_depth':" ++ dec (cfg_completion_queue_depth cfg) ++ lit ","
  ++ lit "'ready_queue_depth':" ++ dec (cfg_ready_queue_depth cfg) ++ lit ","
  ++ lit "'notify_max_payload':" ++ dec (cfg_notify_max_payload cfg) ++ lit ","
  ++ lit "'preferred_provider':'" ++ text (cfg_preferred_provider cfg) ++ lit "'"
  ++ lit "}".

Definition field (k : string) (v : json) : list Z * json := (text k, v).

Definition config_json (cfg : EngineConfig) : json :=
  JObj [field "device" (JStr (text (device_name (dev_kind (cfg_device cfg))) ++ 58 :: dec (dev_index (cfg_device cfg))));
        field "progress" (jstr (progress_name (cfg_progress cfg)));
        field "qp_per_peer" (jint (cfg_qp_per_peer cfg));
        field "chunk_bytes" (jint (cfg_chunk_bytes cfg));
        field "wr_batch" (jint (cfg_wr_batch cfg));
        field "cq_batch" (jint (cfg_cq_batch cfg));
        field "max_inflight_requests" (jint (cfg_max_inflight_requests cfg));
        field "scheduler_quantum_bytes" (jint (cfg_scheduler_quantum_bytes cfg));
        field "registration_cache_entries" (jint (cfg_registration_cache_entries cfg));
        field "cc" (jstr (config_cc_name (cfg_cc cfg)));
        field "cc_window_bytes" (jint (cfg_cc_window_bytes cfg));
        field "notify_queue_depth" (jint (cfg_notify_queue_depth cfg));
        field "completion_queue_depth" (jint (cfg_completion_queue_depth cfg));
        field "ready_queue_depth" (jint (cfg_ready_queue_depth cfg));
        field "notify_max_payload" (jint (cfg_notify_max_payload cfg));
        field "preferred_provider" (jstr (cfg_preferred_provider cfg))].

(** Compares a report with the text of its value, piece by piece. *)

Ltac same_text :=
  unfold field, jint, jstr; cbn [print fmap list_fmap separated fst snd]; unfold quoted, kQuote, lit;
  repeat match goal with |- context [(fun c => if c =? 39 then kQuote else c) <$> text ?s] =>
    let v := eval vm_compute in ((fun c => if c =? 39 then kQuote else c) <$> text s) in
    change ((fun c => if c =? 39 then kQuote else c) <$> text s) with v end;
  repeat (rewrite <- app_assoc || cbn [app]); reflexivity.

Lemma describe_config_text cfg : describe_config cfg = print (config_json cfg).
Proof.
  unfold describe_config, config_json. same_text.
Qed.

(** ** Plain text *)

Lemma plain_app s t : plain s → plain t → plain (s ++ t).
Proof. intros Hs Ht. by apply list.Forall_app. Qed.

Lemma dec_plain n : plain (dec n).
Proof.
  assert (Hd : ∀ n, 0 <= n → plain (dec n)).
  { intros m Hm. eapply Forall_impl; [exact (dec_digits m Hm)|]. intros c. unfold is_digit, kQuote. lia. }
  destruct (Z.lt_ge_cases n 0) as [Hn|Hn]; [|by apply Hd]. rewrite dec_neg by done.
  constructor; [unfold kQuote; lia|]. apply Hd. lia.
Qed.

Lemma jstr_wf s : plain (text s) → wf (jstr s).
Proof. done. Qed.

#[export] Hint Resolve plain_app dec_plain jstr_wf : hux.

Ltac plain_constant := apply (bool_decide_unpack _); vm_compute; exact I.

Lemma device_name_plain k : plain (text (device_name k)).
Proof. destruct k; plain_constant. Qed.

Lemma progress_name_plain m : plain (text (progress_name m)).
Proof. destruct m; plain_constant. Qed.

Lemma config_cc_name_plain c : plain (text (config_cc_name c)).
Proof. destruct c; plain_constant. Qed.

Lemma proximity_plain p : plain (text (Proximity.to_string p)).
Proof. destruct p; plain_constant. Qed.

#[export] Hint Resolve device_name_plain progress_name_plain config_cc_name_plain proximity_plain : hux.

(** A value whose fields are named by constants: what is left is not constant. *)

Ltac wf_fields :=
  unfold field; cbn [wf foldr fst snd]; split_and!;
  lazymatch goal with
  | |- True => exact I
  | |- wf (jint _) => apply jint_wf
  | |- plain (text (String _ _)) => plain_constant
  | |- wf (jstr (String _ _)) => plain_constant
  | |- wf (jstr _) => try (apply jstr_wf; first [assumption | solve [auto with hux]])
  | |- _ => idtac
  end.

Lemma config_json_wf cfg : plain (text (cfg_preferred_provider cfg)) → wf (config_json cfg).
Proof.
  intros Hp. unfold config_json. wf_fields. apply plain_app; [auto with hux|].
  constructor; [unfold kQuote; lia|apply dec_plain].
Qed.

(** ** What a provider says of itself *)

Class Described (P : Type) : Type := {
  describe : P → list Z;
  reported : P → json;
  can_report : P → Prop;
  described p : can_report p → wf (reported p) ∧ describe p = print (reported p)
}.

(** *** Local ([src/transport/local/]) and mock ([src/transport/mock/]) *)

Definition local_describe (_ : LocalProvider) : list Z := lit "{'provider':'local','path':'same_process'}".

#[export] Instance local_described : Described LocalProvider.
Proof.
  refine {| describe := local_describe;
            reported _ := JObj [field "provider" (jstr "local"); field "path" (jstr "same_process")];
            can_report _ := True |}.
  intros p _. split; [wf_fields|vm_compute; reflexivity].
Defined.

Definition mock_describe (p : MockProvider) : list Z :=
  lit "{'provider':'mock','qp_count':" ++ dec (mc_qp_count (mk_cfg p))
  ++ lit ",'budget_bytes':" ++ dec (mc_budget_bytes (mk_cfg p))
  ++ lit ",'move_data':" ++ (if mc_move_data (mk_cfg p) then text "true" else text "false") ++ lit "}".

#[export] Instance mock_described : Described MockProvider.
Proof.
  refine {| describe := mock_describe;
            reported p := JObj [field "provider" (jstr "mock"); field "qp_count" (jint (mc_qp_count (mk_cfg p)));
                                field "budget_bytes" (jint (mc_budget_bytes (mk_cfg p)));
                                field "move_data" (JBool (mc_move_data (mk_cfg p)))];
            can_report _ := True |}.
  intros p _. split; [wf_fields|]. unfold mock_describe. destruct (mc_move_data _); same_text.
Defined.

(** *** UCX ([src/transport/ucx/]) *)

Section UcxReport.
Context {W : Type}.
Context (advertise_ip : string).

Definition ucx_describe (_ : UcxProvider W) : list Z :=
  lit "{'provider':'ucx','needs_explicit_flush':true" ++ lit ",'advertise_ip':'" ++ text advertise_ip ++ lit "'}".

Definition ucx_described : Described (UcxProvider W).
Proof.
  refine {| describe := ucx_describe;
            reported _ := JObj [field "provider" (jstr "ucx"); field "needs_explicit_flush" (JBool true);
                                field "advertise_ip" (jstr advertise_ip)];
            can_report _ := plain (text advertise_ip) |}.
  intros p Hp. split; [wf_fields|]. unfold ucx_describe. same_text.
Defined.

End UcxReport.

(** *** RDMA ([src/transport/rdma/]) *)

Section RdmaReport.
Context {W C : Type} `{CongestionController C}.

(** What opening the device left beside the port: the device's name, how near it is,
    and why it does not offer out-of-order placement. *)

Context (device : option string) (how : Proximity.t) (ooo_why : string).

Definition out_of_order_connections (p : RdmaProvider (W := W) (C := C)) : Z :=
  foldr (fun id n => match rp_conns p !! id with
                     | Some c => if rc_ooo_rw c then n + 1 else n
                     | None => n
                     end) 0 (rp_ctrl_conns p).

Definition rdma_describe (p : RdmaProvider (W := W) (C := C)) : list Z :=
  let cfg := rp_cfg p in
  let port := rp_port p in
  lit "{" ++ lit "'provider':'rdma',"
  ++ lit "'advertise_ip':'" ++ text (rg_advertise_ip cfg) ++ lit "',"
  ++ lit "'device':'" ++ text (default "none"%string device) ++ lit "',"
  ++ lit "'ib_port':" ++ dec (rg_ib_port cfg) ++ lit ","
  ++ lit "'nic_proximity':'" ++ text (Proximity.to_string how) ++ lit "',"
  ++ lit "'gid_index':" ++ dec (pi_gid_index port) ++ lit ","
  ++ lit "'link_layer':'" ++ text (if pi_ethernet port then "ethernet" else "infiniband") ++ lit "',"
  ++ lit "'active_mtu':" ++ dec (pi_active_mtu port) ++ lit ","
  ++ lit "'qp_per_conn':" ++ dec (rg_qp_per_conn cfg) ++ lit ","
  ++ lit "'sq_depth':" ++ dec (rg_sq_depth cfg) ++ lit ","
  ++ lit "'rq_depth':" ++ dec (rg_rq_depth cfg) ++ lit ","
  ++ lit "'cq_depth':" ++ dec (rg_cq_depth cfg) ++ lit ","
  ++ lit "'signal_period':" ++ dec (rg_signal_period cfg) ++ lit ","
  ++ lit "'out_of_order':'" ++ text (if pi_ooo_rw port then "offered" else ooo_why) ++ lit "',"
  ++ lit "'out_of_order_connections':" ++ dec (out_of_order_connections p) ++ lit ","
  ++ lit "'ctrl_queued':" ++ dec (Z.of_nat (queued_control_messages p)) ++ lit ","
  ++ lit "'cc':'" ++ text (cc_name (rp_cc p)) ++ lit "',"
  ++ lit "'cc_window_bytes':" ++ dec (window_bytes (rp_cc p) CcDirection.kWrite) ++ lit ","
  ++ lit "'cc_rate_bps':" ++ print_g (rate_bytes_per_sec (rp_cc p) CcDirection.kWrite)
  ++ lit "}".

Definition rdma_json (p : RdmaProvider (W := W) (C := C)) : json :=
  let cfg := rp_cfg p in
  let port := rp_port p in
  JObj [field "provider" (jstr "rdma");
        field "advertise_ip" (jstr (rg_advertise_ip cfg));
        field "device" (jstr (default "none"%string device));
        field "ib_port" (jint (rg_ib_port cfg));
        field "nic_proximity" (jstr (Proximity.to_string how));
        field "gid_index" (jint (pi_gid_index port));
        field "link_layer" (jstr (if pi_ethernet port then "ethernet" else "infiniband"));
        field "active_mtu" (jint (pi_active_mtu port));
        field "qp_per_conn" (jint (rg_qp_per_conn cfg));
        field "sq_depth" (jint (rg_sq_depth cfg));
        field "rq_depth" (jint (rg_rq_depth cfg));
        field "cq_depth" (jint (rg_cq_depth cfg));
        field "signal_period" (jint (rg_signal_period cfg));
        field "out_of_order" (jstr (if pi_ooo_rw port then "offered" else ooo_why));
        field "out_of_order_connections" (jint (out_of_order_connections p));
        field "ctrl_queued" (jint (Z.of_nat (queued_control_messages p)));
        field "cc" (jstr (cc_name (rp_cc p)));
        field "cc_window_bytes" (jint (window_bytes (rp_cc p) CcDirection.kWrite));
        field "cc_rate_bps" (JNum (print_g (rate_bytes_per_sec (rp_cc p) CcDirection.kWrite)))].

Definition rdma_described : Described (RdmaProvider (W := W) (C := C)).
Proof.
  refine {| describe := rdma_describe; reported := rdma_json;
            can_report p :=
              plain (text (rg_advertise_ip (rp_cfg p))) ∧ plain (text (default "none"%string device))
              ∧ plain (text ooo_why) ∧ plain (text (cc_name (rp_cc p)))
              ∧ f64_finite (rate_bytes_per_sec (rp_cc p) CcDirection.kWrite) = true |}.
  intros p (Hip & Hd & Hw & Hc & Hr). split; [|unfold rdma_describe, rdma_json; same_text].
  unfold rdma_json. wf_fields.
  - destruct (pi_ethernet _); plain_constant.
  - destruct (pi_ooo_rw _); [plain_constant|done].
  - by apply print_g_number.
Defined.

End RdmaReport.

(** *** IPC ([src/transport/ipc/]) *)

Fixpoint comma_separated {A} (f : A → list Z) (first : bool) (l : list A) : list Z :=
  match l with
  | [] => []
  | x :: l => (if first then [] else lit ",") ++ f x ++ comma_separated f false l
  end.

Definition one_or_zero (b : bool) : Z := if b then 1 else 0.

Section IpcReport.
Context {W : Type}.

Definition mappings_held (p : IpcProvider W) : Z :=
  foldr (fun kv n => if im_mapped (snd kv) =? 0 then n else n + 1) 0 (in_key_order (ip_imported p)).

Definition exported_text (kv : Z * Exported) : list Z :=
  lit "{'key':" ++ dec (fst kv) ++ lit ",'addr':" ++ dec (ex_addr (snd kv))
  ++ lit ",'length':" ++ dec (ex_length (snd kv)) ++ lit "}".

Definition imported_text (kv : Z * Imported) : list Z :=
  lit "{'key':" ++ dec (fst kv) ++ lit ",'peer_addr':" ++ dec (im_peer_addr (snd kv))
  ++ lit ",'mapped':" ++ dec (im_mapped (snd kv)) ++ lit ",'length':" ++ dec (im_length (snd kv)) ++ lit "}".

Definition ipc_describe (p : IpcProvider W) : list Z :=
  lit "{" ++ lit "'provider':'ipc'," ++ lit "'socket':'" ++ text (ip_name p) ++ lit "',"
  ++ lit "'connected':" ++ dec (one_or_zero ((0 <=? ip_sock p) && negb (ip_peer_gone p))) ++ lit ","
  ++ lit "'peer_gone':" ++ dec (one_or_zero (ip_peer_gone p)) ++ lit ","
  ++ lit "'peer_process':" ++ dec (process (ip_peer p)) ++ lit ","
  ++ lit "'exported_regions':" ++ dec (Z.of_nat (size (ip_exported p))) ++ lit ","
  ++ lit "'imported_regions':" ++ dec (Z.of_nat (size (ip_imported p))) ++ lit ","
  ++ lit "'mappings_held':" ++ dec (mappings_held p) ++ lit ","
  ++ lit "'mappings_not_released':" ++ dec (ip_not_released p) ++ lit ","
  ++ lit "'exported':[" ++ comma_separated exported_text true (in_key_order (ip_exported p))
  ++ lit "],'imported':[" ++ comma_separated imported_text true (in_key_order (ip_imported p))
  ++ lit "]}".

Definition exported_json (kv : Z * Exported) : json :=
  JObj [field "key" (jint (fst kv)); field "addr" (jint (ex_addr (snd kv)));
        field "length" (jint (ex_length (snd kv)))].

Definition imported_json (kv : Z * Imported) : json :=
  JObj [field "key" (jint (fst kv)); field "peer_addr" (jint (im_peer_addr (snd kv)));
        field "mapped" (jint (im_mapped (snd kv))); field "length" (jint (im_length (snd kv)))].

Definition ipc_json (p : IpcProvider W) : json :=
  JObj [field "provider" (jstr "ipc"); field "socket" (jstr (ip_name p));
        field "connected" (jint (one_or_zero ((0 <=? ip_sock p) && negb (ip_peer_gone p))));
        field "peer_gone" (jint (one_or_zero (ip_peer_gone p)));
        field "peer_process" (jint (process (ip_peer p)));
        field "exported_regions" (jint (Z.of_nat (size (ip_exported p))));
        field "imported_regions" (jint (Z.of_nat (size (ip_imported p))));
        field "mappings_held" (jint (mappings_held p));
        field "mappings_not_released" (jint (ip_not_released p));
        field "exported" (JArr (exported_json <$> in_key_order (ip_exported p)));
        field "imported" (JArr (imported_json <$> in_key_order (ip_imported p)))].

End IpcReport.

(** The loop that puts a comma before every element but the first. *)

Lemma comma_separated_print {A} (f : A → list Z) (j : A → json) l :
  (∀ x, f x = print (j x)) → comma_separated f true l = separated (print <$> (j <$> l)).
Proof.
  intros Hf. assert (Hn : ∀ x l, comma_separated f true (x :: l) = f x ++ comma_separated f false l) by done.
  induction l as [|x l IH]; [done|]. rewrite Hn, Hf. destruct l as [|y l]; cbn [fmap list_fmap separated].
  - by rewrite app_nil_r.
  - f_equal. change (comma_separated f false (y :: l)) with (44 :: comma_separated f true (y :: l)). by rewrite IH.
Qed.

Lemma jarr_wf {A} (j : A → json) l : (∀ x, x ∈ l → wf (j x)) → wf (JArr (j <$> l)).
Proof.
  induction l as [|x l IH]; intros Hj; [done|]. cbn. split; [apply Hj; by left|]. apply IH. intros y Hy. apply Hj. by right.
Qed.

#[export] Instance ipc_described {W} : Described (IpcProvider W).
Proof.
  refine {| describe := ipc_describe; reported := ipc_json; can_report p := plain (text (ip_name p)) |}.
  intros p Hp. split.
  - unfold ipc_json. wf_fields; apply jarr_wf; intros x _; unfold exported_json, imported_json; wf_fields.
  - unfold ipc_describe, ipc_json.
    rewrite (comma_separated_print exported_text exported_json), (comma_separated_print imported_text imported_json)
      by (intros x; unfold exported_text, imported_text, exported_json, imported_json; same_text).
    generalize (exported_json <$> in_key_order (ip_exported p)), (imported_json <$> in_key_order (ip_imported p)).
    intros exs ims. same_text.
Defined.

(** ** The engine ([src/core/engine_impl.cpp]) *)

Section EngineReport.
Context {P D : Type} `{Described P}.

(** An engine has a provider; [make_engine] refuses none. *)

Definition engine_describe (cfg : EngineConfig) (e : Engine P D) : list Z :=
  let ps := c_providers (e_core e) in
  lit "{'engine':" ++ describe_config cfg
  ++ lit ",'provider':" ++ match ps with p :: _ => describe p | [] => [] end
  ++ lit ",'providers':[" ++ comma_separated describe true ps ++ lit "]}".

Definition engine_json (cfg : EngineConfig) (e : Engine P D) : json :=
  let ps := c_providers (e_core e) in
  JObj [field "engine" (config_json cfg); field "provider" match ps with p :: _ => reported p | [] => JNull end;
        field "providers" (JArr (reported <$> ps))].

Lemma describe_all (ps : list P) :
  Forall can_report ps → comma_separated describe true ps = separated (print <$> (reported <$> ps)).
Proof.
  intros Hp. assert (Hn : ∀ x l, comma_separated describe true (x :: l) = describe x ++ comma_separated describe false l) by done.
  induction Hp as [|p ps Hp Hps IH]; [done|]. rewrite Hn, (proj2 (described p Hp)).
  destruct ps as [|q ps]; cbn [fmap list_fmap separated].
  - by rewrite app_nil_r.
  - f_equal. change (comma_separated describe false (q :: ps)) with (44 :: comma_separated describe true (q :: ps)).
    by rewrite IH.
Qed.

(** C22: The engine's report is well formed and says what it is meant to: read as JSON it is an object with the
    configuration, field for field, the first transport's report, and every transport's in order, as long
    as no text the caller supplied needs escaping. *)
Theorem engine_report_parses cfg (e : Engine P D) :
  c_providers (e_core e) ≠ [] → plain (text (cfg_preferred_provider cfg)) →
  Forall can_report (c_providers (e_core e)) →
  parse_json (engine_describe cfg e) = Some (engine_json cfg e).
Proof.
  intros Hne Hc Hp. rewrite <- parse_print.
  - f_equal. unfold engine_describe, engine_json. rewrite describe_all by done.
    destruct (c_providers (e_core e)) as [|p ps]; [done|]. apply list.Forall_cons in Hp as [Hp _].
    rewrite (proj2 (described p Hp)), describe_config_text. generalize (config_json cfg), (reported p), (reported <$> p :: ps).
    intros c r rs. same_text.
  - unfold engine_json. destruct (c_providers (e_core e)) as [|p ps]; [done|].
    pose proof Hp as Hall. apply list.Forall_cons in Hp as [Hp _].
    pose proof (config_json_wf cfg Hc) as Wc. generalize dependent (config_json cfg). intros c Wc. wf_fields.
    + exact Wc.
    + apply described, Hp.
    + apply jarr_wf. intros x Hx. rewrite list.Forall_forall in Hall. apply described, Hall, Hx.
Qed.

End EngineReport.

(** ** The topology ([src/device/topology.cpp]) *)

Section TopologyReport.
Context {W : Type} `{Sysfs W}.

Definition nic_text (n : NicInfo) : list Z :=
  lit "{'name':'" ++ text (nic_name n) ++ lit "','pci':'" ++ pci_to_string (nic_pci n)
  ++ lit "','numa':" ++ dec (nic_numa n) ++ lit ",'active':" ++ (if nic_active n then text "true" else text "false")
  ++ lit ",'link_layer':'" ++ nic_link_layer n ++ lit "'}".

Definition device_text (nics : list NicInfo) (d : DeviceLocation) : list Z :=
  lit "{'pci':'" ++ pci_to_string (loc_pci d) ++ lit "','numa':" ++ dec (loc_numa d) ++ lit ",'nearest_nic':"
  ++ match best_nic_for d nics with
     | Some (n, how) =>
         lit "'" ++ text (nic_name n) ++ lit "','proximity':'" ++ text (Proximity.to_string how) ++ lit "'"
     | None => lit "null,'proximity':'unknown'"
     end
  ++ lit "}".

Definition describe_topology (w : W) (devices : list DeviceLocation) : list Z :=
  let nics := discover_nics w in
  lit "{'nics':[" ++ comma_separated nic_text true nics
  ++ lit "],'devices':[" ++ comma_separated (device_text nics) true devices ++ lit "]}".

Definition nic_json (n : NicInfo) : json :=
  JObj [field "name" (jstr (nic_name n)); field "pci" (JStr (pci_to_string (nic_pci n)));
        field "numa" (jint (nic_numa n)); field "active" (JBool (nic_active n));
        field "link_layer" (JStr (nic_link_layer n))].

Definition device_json (nics : list NicInfo) (d : DeviceLocation) : json :=
  let best := best_nic_for d nics in
  JObj [field "pci" (JStr (pci_to_string (loc_pci d))); field "numa" (jint (loc_numa d));
        field "nearest_nic" match best with Some (n, _) => jstr (nic_name n) | None => JNull end;
        field "proximity" (jstr match best with Some (_, how) => Proximity.to_string how | None => "unknown" end)].

Definition topology_json (w : W) (devices : list DeviceLocation) : json :=
  let nics := discover_nics w in
  JObj [field "nics" (JArr (nic_json <$> nics)); field "devices" (JArr (device_json nics <$> devices))].

(** The fields of an address are unsigned. *)

Definition pci_unsigned (a : PciAddress) : Prop :=
  0 <= pci_domain a ∧ 0 <= pci_bus a ∧ 0 <= pci_device a ∧ 0 <= pci_function a.

Lemma pci_plain a : pci_unsigned a → plain (pci_to_string a).
Proof.
  intros (H1 & H2 & H3 & H4). apply Forall_take.
  assert (Hh : ∀ w n, 0 <= n → plain (print_hex w n)).
  { intros w n Hn. eapply Forall_impl; [exact (proj1 (print_digits_printed 8 w n Hn ltac:(lia)))|].
    unfold printed, kQuote. intros c Hc. lia. }
  unfold pci_text. repeat (apply plain_app; [by apply Hh|]; constructor; [unfold kQuote; lia|]). by apply Hh.
Qed.

Definition nic_plain (n : NicInfo) : Prop :=
  plain (text (nic_name n)) ∧ plain (nic_link_layer n) ∧ pci_unsigned (nic_pci n).

Lemma nic_report n : nic_plain n → wf (nic_json n).
Proof.
  intros (Hn & Hl & Hp). unfold nic_json. wf_fields; [by apply pci_plain|done].
Qed.

Lemma nic_text_print n : nic_text n = print (nic_json n).
Proof. unfold nic_text, nic_json. destruct (nic_active n); same_text. Qed.

Lemma best_loop_elem d nics best n p :
  best_loop d nics best = Some (n, p) → n ∈ nics ∨ best = Some (n, p).
Proof.
  revert best. induction nics as [|m nics IH]; intros best; cbn [best_loop]; [by right|].
  assert (Hk : ∀ b, best_loop d nics b = Some (n, p) → b = best ∨ (∃ q, b = Some (m, q)) → n ∈ m :: nics ∨ best = Some (n, p)).
  { intros b E Hb. apply IH in E as [E|E]; [left; by right|]. destruct Hb as [->|[q ->]]; [by right|].
    simplify_eq. left. by left. }
  repeat case_match; intros E; apply (Hk _ E); eauto.
Qed.

Lemma device_text_print nics d : device_text nics d = print (device_json nics d).
Proof. unfold device_text, device_json. destruct (best_nic_for d nics) as [[n how]|]; same_text. Qed.

Lemma device_report nics d : Forall nic_plain nics → pci_unsigned (loc_pci d) → wf (device_json nics d).
Proof.
  intros Hn Hp. unfold device_json. destruct (best_nic_for d nics) as [[n how]|] eqn:E; wf_fields; try by apply pci_plain.
  - apply best_loop_elem in E as [E|?]; [|done]. rewrite list.Forall_forall in Hn. apply jstr_wf, (Hn n E).
Qed.

(** The topology report is JSON too: the adapters found, and each device with the name of the adapter
    nearest to it and how near that is, or null. *)
Theorem topology_report_parses w devices :
  Forall nic_plain (discover_nics w) → Forall (fun d => pci_unsigned (loc_pci d)) devices →
  parse_json (describe_topology w devices) = Some (topology_json w devices).
Proof.
  intros Hn Hd. rewrite <- parse_print.
  - f_equal. unfold describe_topology, topology_json.
    rewrite (comma_separated_print nic_text nic_json) by apply nic_text_print.
    rewrite (comma_separated_print (device_text _) (device_json (discover_nics w))) by apply device_text_print.
    generalize (nic_json <$> discover_nics w), (device_json (discover_nics w) <$> devices). intros ns ds. same_text.
  - unfold topology_json. wf_fields; apply jarr_wf; intros x Hx.
    + rewrite list.Forall_forall in Hn. by apply nic_report, Hn.
    + rewrite list.Forall_forall in Hd. by apply device_report, Hd.
Qed.

End TopologyReport.
