(* ===== verification/ReportsSample.v ===== *)
(** * Reports of the sample runs. *)

From stdpp Require Import base list gmap strings numbers pretty.
From S2P Require Import Prelude Float64 Types Wire Region Provider Request SubOps.
From S2P Require Import EngineCore EngineMemory EnginePeers Engine EngineSafe ByteMemory LocalPath EngineSample.
From S2P Require Import RdmaVerbs RdmaProvider Topology Mlx5 RdmaOpen RdmaOpenSample Text Json Reports.

(** The engine of the sample run, over its one local provider. *)
Lemma engine_report_parses_witness :
  parse_json (engine_describe Sample.cfg (w_e Sample.w3)) = Some (engine_json Sample.cfg (w_e Sample.w3)).
Proof.
  apply (engine_report_parses Sample.cfg (w_e Sample.w3)).
  - vm_compute. discriminate.
  - plain_constant.
  - apply list.Forall_forall. intros p _. exact I.
Defined.

(** A host whose sysfs lists no adapter, and a device on it. *)
Lemma topology_report_parses_witness :
  parse_json (describe_topology (rack 1) [mkLocation (mkDeviceId DeviceKind.kCuda 0) (mkPci 0 1 0 0) 0])
  = Some (JObj [field "nics" (JArr []);
                field "devices" (JArr [JObj [field "pci" (jstr "0000:01:00.0"); field "numa" (jint 0);
                                             field "nearest_nic" JNull; field "proximity" (jstr "unknown")]])]).
Proof.
  rewrite (topology_report_parses (rack 1) [mkLocation (mkDeviceId DeviceKind.kCuda 0) (mkPci 0 1 0 0) 0]).
  - vm_compute. reflexivity.
  - apply Forall_nil_2.
  - repeat constructor; cbn; lia.
Defined.

(** Nothing is escaped: one quote in a text the caller supplies and the report is no longer JSON. *)

Definition quoted_config : EngineConfig :=
  mkEngineConfig (cfg_device Sample.cfg) (cfg_progress Sample.cfg) 1 1048576 16 16 4096 1048576 64
    (cfg_cc Sample.cfg) 4194304 1024 4096 16384 16384 (String (Ascii.ascii_of_nat 34) "rdma"%string).

Lemma unescaped_report :
  validate quoted_config = validate Sample.cfg ∧ parse_json (describe_config quoted_config) = None.
Proof. split; vm_compute; reflexivity. Qed.
