(* ===== verification/PyBinding.v ===== *)
(** * The Python binding ([python/hux_py.cpp]).

    [PyRegion] keeps a buffer exported by a Python object while it lives; [PyEngine]
    checks what Python passes, calls the engine and turns a status into an exception.
    Python's buffer protocol is the class [Python]; exceptions are values.  The trace of
    views taken and released is for the theorems: nothing reads it. *)

From stdpp Require Import base list gmap strings numbers pretty.
From S2P Require Import Prelude Float64 Types Wire Region Metadata Provider Request SubOps.
From S2P Require Import EngineCore EngineMemory EnginePeers Engine EngineSafe EngineLoop Topology Text Congestion HostMemory.

(** ** Exceptions *)

Inductive PyError : Type :=
| StatusError (what : string) (s : Status.t)
| RuntimeError (what : string)
| ValueError (what : string).

Definition raise_on_error {A} (s : Status.t) (what : string) (v : A) : PyError + A :=
  if bool_decide (s = Status.kOk) then inr v else inl (StatusError what s).

(** ** The buffer protocol *)

(** [PyObject_GetBuffer] of an object, asking for a writable buffer or not, and
    [PyBuffer_Release]; a view is told from every other by [vw_id]. *)

Record PyView : Type := mkView { vw_id : Z; vw_buf : Z; vw_len : Z; vw_readonly : bool }.

#[global] Instance PyView_eq_dec : EqDecision PyView.
Proof. solve_decision. Defined.

Class Python (W : Type) : Type := {
  get_buffer : W → Z → bool → W * option PyView;
  release_buffer : W → PyView → W;
  interpreter_up : W → bool
}.

Inductive BufferEvent : Type := Taken (v : PyView) | Released (v : PyView).

(** [PyRegion]: the handle until it is given up, and the view. *)

Record PyRegion : Type := mkPyRegion { rgn_handle : option Z; rgn_view : PyView }.

(** ** Access *)

Definition access_of (read_only remote_read remote_write : bool) : AccessFlags :=
  let access := kLocalRead in
  let access := if negb read_only then Z.lor access kLocalWrite else access in
  let access := if remote_read then Z.lor access kRemoteRead else access in
  if remote_write && negb read_only then Z.lor access kRemoteWrite else access.

Definition access_for (v : PyView) (remote_read remote_write : bool) : AccessFlags :=
  access_of (vw_readonly v) remote_read remote_write.

Definition batch_access (vs : list PyView) (remote_read remote_write : bool) : AccessFlags :=
  access_of (existsb vw_readonly vs) remote_read remote_write.

(** ** [PyRequest] *)

Definition stage_named (s : string) : option Stage.t :=
  if bool_decide (s = "accepted"%string) then Some Stage.kAccepted
  else if bool_decide (s = "source_reusable"%string) then Some Stage.kSourceReusable
  else if bool_decide (s = "transfer_complete"%string) then Some Stage.kTransferComplete
  else if bool_decide (s = "target_ready"%string) then Some Stage.kTargetReady
  else if bool_decide (s = "failed_safe"%string) then Some Stage.kFailedSafe
  else if bool_decide (s = "cancelled_safe"%string) then Some Stage.kCancelledSafe
  else None.

Definition py_reached (s : string) (r : RequestImpl) : PyError + bool :=
  match stage_named s with
  | Some st => inr (reached st r)
  | None => inl (ValueError ("unknown stage: " +:+ s))
  end.

Definition py_error (r : RequestImpl) : option string :=
  if err_ok (error_ r) then None else Some (Status.to_string (err_status (error_ r))).

Definition py_state (r : RequestImpl) : string := RequestState.to_string (state_ r).

Definition py_done (r : RequestImpl) : bool := snd (test r).

(** [later] is what the request has come to when the wait is over. *)

Definition py_wait (later r : RequestImpl) : string := Status.to_string (wait later r).

Definition py_may_have_modified_target (r : RequestImpl) : bool := may_have_modified_target (error_ r).

(** ** [PyPeer] *)

Inductive PyValue : Type := PyText (s : string) | PyInt (n : Z).

Definition py_caps (p : PeerImpl) : list (string * PyValue) :=
  let c := p_caps p in
  [("path", PyText (PathKind.to_string (pc_path c))); ("place", PyText (PeerPlace.to_string (pc_place c)));
   ("provider", PyText (pc_provider c)); ("qp_count", PyInt (pc_qp_count c));
   ("remote_max_registration_bytes", PyInt (pc_remote_max_registration_bytes c))]%string.

(** ** Host memory *)

Definition alloc_host_py {M} `{!Pages M} (nbytes : Z) (w : M) : M * (PyError + HostAllocation) :=
  let '(w, a) := alloc_host nbytes w in
  (w, match a with inl s => inl (StatusError "alloc_host" s) | inr a => inr a end).

(** A view of it: [PyBuffer_FillInfo] with its address and size, writable. *)

Definition host_buffer_getbuffer (a : HostAllocation) (id : Z) : PyView :=
  mkView id (ha_ptr a) (ha_bytes a) false.

(** ** The controller an RDMA engine is made with *)

Inductive CcSpec : Type := SpecTimely | SpecFixed (window : Z) | SpecOff.

(** [strtoull] in base ten. *)

Definition strtoull (l : list Z) : Z :=
  let '(neg, l) := take_sign (skip_spaces l) in
  let '(v, _) := read_digits l 0 in
  if 2 ^ 64 <=? v then 2 ^ 64 - 1 else if neg then wrap64 (- v) else v.

Definition cc_spec (s : string) : CcSpec :=
  if bool_decide (s = "timely"%string) then SpecTimely
  else if bool_decide (take 6 (text s) = text "fixed:") then SpecFixed (strtoull (drop 6 (text s)))
  else SpecOff.

(** The configuration of an engine made for Python. *)

Definition py_config (chunk_bytes : Z) : EngineConfig :=
  let d := default_config in
  mkEngineConfig (cfg_device d) ProgressMode.kExplicit (cfg_qp_per_peer d)
    (if 0 <? chunk_bytes then chunk_bytes else cfg_chunk_bytes d) (cfg_wr_batch d) (cfg_cq_batch d)
    (cfg_max_inflight_requests d) (cfg_scheduler_quantum_bytes d) (cfg_registration_cache_entries d)
    (cfg_cc d) (cfg_cc_window_bytes d) (cfg_notify_queue_depth d) (cfg_notify_max_payload d)
    (cfg_completion_queue_depth d) (cfg_ready_queue_depth d) (cfg_preferred_provider d).

(** [device] is what making a backend of device [gpu] answers. *)

Definition py_make_engine {P D : Type} (chunk_bytes gpu : Z) (device : Status.t) (provider : P) (d : D)
    : PyError + Engine P D :=
  match (if 0 <=? gpu then raise_on_error device "device" tt else inr tt) with
  | inl x => inl x
  | inr _ =>
      match make_engine_one (py_config chunk_bytes) (Some provider) d with
      | inl s => inl (StatusError "make_engine" s)
      | inr e => inr e
      end
  end.

(** [accept]: what the RDMA provider answers, if the engine has one; the connections kept. *)

Definition py_accept {C : Type} (rdma : option (Status.t * C)) (accepted : list C) : list C * (PyError + bool) :=
  match rdma with
  | None => (accepted, inl (RuntimeError "accept is only for an RDMA engine"))
  | Some (s, conn) =>
      if bool_decide (s = Status.kTimeout) then (accepted, inr false)
      else
        match raise_on_error s "accept" true with
        | inl x => (accepted, inl x)
        | inr b => (accepted ++ [conn], inr b)
        end
  end.

(** Streams and events: [answer] is the backend's, if the engine has one. *)

Definition on_backend {A} (answer : option (Status.t * A)) (what : string) : PyError + A :=
  match answer with
  | None => inl (RuntimeError "no device backend in this build")
  | Some (s, a) => raise_on_error s what a
  end.

Definition py_import_stream {A} (answer : option (Status.t * A)) : PyError + A := on_backend answer "import_stream".

Definition py_record_event {A} (answer : option (Status.t * A)) : PyError + A := on_backend answer "record_event".

Definition py_stream_wait_event (answer : option (Status.t * unit)) : PyError + unit :=
  on_backend answer "stream_wait_event".

Section Binding.
Context {W P D : Type} `{!Python W} `{!TransportProvider P} `{!DeviceWorld D}.
Context (cfg : EngineConfig) (mine : Identity) (device : option DeviceBackend).

Record Py : Type := mkPy {
  py_world : W;
  py_engine : Engine P D;
  py_regions : gmap Z PyRegion;
  py_next : Z;
  py_trace : list BufferEvent
}.

Definition set_engine (e : Engine P D) (s : Py) : Py :=
  mkPy (py_world s) e (py_regions s) (py_next s) (py_trace s).

Definition set_regions (rs : gmap Z PyRegion) (s : Py) : Py :=
  mkPy (py_world s) (py_engine s) rs (py_next s) (py_trace s).

(** ** Buffers *)

Definition get_view (obj : Z) (writable : bool) (s : Py) : Py * option PyView :=
  let '(w, v) := get_buffer (py_world s) obj writable in
  (mkPy w (py_engine s) (py_regions s) (py_next s)
     (py_trace s ++ if v is Some v then [Taken v] else []), v).

(** Writable if the object allows it, else read-only. *)

Definition take_view (obj : Z) (s : Py) : Py * option PyView :=
  let '(s, v) := get_view obj true s in
  match v with Some _ => (s, v) | None => get_view obj false s end.

Definition release_view (v : PyView) (s : Py) : Py :=
  mkPy (release_buffer (py_world s) v) (py_engine s) (py_regions s) (py_next s) (py_trace s ++ [Released v]).

Definition release_views (vs : list PyView) (s : Py) : Py := foldl (fun s v => release_view v s) s vs.

Definition new_region (i : option Z) (v : PyView) (s : Py) : Py * Z :=
  (mkPy (py_world s) (py_engine s) (<[py_next s := mkPyRegion i v]> (py_regions s)) (py_next s + 1)
     (py_trace s), py_next s).

(** ** Registering *)

Definition py_register_memory (obj : Z) (remote_read remote_write : bool) (s : Py) : Py * (PyError + Z) :=
  let '(s, v) := take_view obj s in
  match v with
  | None => (s, inl (ValueError "object does not support the buffer protocol"))
  | Some v =>
      let e := py_engine s in
      let '(cm, (st, i)) := register_memory cfg device mine (vw_buf v) (wrap64 (vw_len v))
        (access_for v remote_read remote_write) (e_core e, e_mem e) in
      let s := set_engine (with_cm e cm) s in
      if bool_decide (st = Status.kOk) then let '(s, k) := new_region i v s in (s, inr k)
      else (release_view v s, inl (StatusError "register_memory" st))
  end.

(** The views of a batch; an object without one gives the others back. *)

Fixpoint take_views (objs : list Z) (held : list PyView) (s : Py) : Py * option (list PyView) :=
  match objs with
  | [] => (s, Some held)
  | o :: objs =>
      let '(s, v) := take_view o s in
      match v with
      | Some v => take_views objs (held ++ [v]) s
      | None => (release_views held s, None)
      end
  end.

Fixpoint keep_results (results : list (Status.t * option Z)) (vs : list PyView) (s : Py)
    : Py * list (option Z) :=
  match results, vs with
  | (st, i) :: results, v :: vs =>
      let '(s, k) :=
        if negb (bool_decide (st = Status.kOk)) || bool_decide (i = None) then (release_view v s, None)
        else let '(s, k) := new_region i v s in (s, Some k) in
      let '(s, ks) := keep_results results vs s in (s, k :: ks)
  | _, _ => (s, [])
  end.

Definition py_register_memory_batch (objs : list Z) (remote_read remote_write : bool) (s : Py)
    : Py * (PyError + list (option Z)) :=
  let '(s, vs) := take_views objs [] s in
  match vs with
  | None => (s, inl (ValueError "an object does not support the buffer protocol"))
  | Some vs =>
      let e := py_engine s in
      let '(cm, (st, results)) := register_memory_batch cfg device mine (vw_buf <$> vs)
        ((fun v => wrap64 (vw_len v)) <$> vs) (batch_access vs remote_read remote_write) (e_core e, e_mem e) in
      let s := set_engine (with_cm e cm) s in
      if negb (bool_decide (st = Status.kOk)) || negb (bool_decide (length results = length vs))
      then (release_views vs s,
            inl (StatusError "register_memory_batch" (if bool_decide (st = Status.kOk) then Status.kInternal else st)))
      else let '(s, ks) := keep_results results vs s in (s, inr ks)
  end.

(** ** Letting go *)

(** The last reference to a handle outside the engine. *)

Definition drop_handle (i : Z) (s : Py) : Py :=
  let e := py_engine s in set_engine (with_cm e (forget_region i (e_core e, e_mem e))) s.

(** The engine's answer is not looked at. *)

Definition py_deregister_memory (k : Z) (s : Py) : Py :=
  match py_regions s !! k with
  | Some (mkPyRegion (Some i) v) =>
      let s := set_regions (<[k := mkPyRegion None v]> (py_regions s)) s in
      let e := py_engine s in
      let '(cm, _) := deregister_memory (peers_to_tell (e_peers e)) i (e_core e, e_mem e) in
      drop_handle i (set_engine (with_cm e cm) s)
  | _ => s
  end.

(** [~PyRegion]: Python has let go of the object. *)

Definition drop_region (k : Z) (s : Py) : Py :=
  match py_regions s !! k with
  | Some r =>
      let s := set_regions (delete k (py_regions s)) s in
      let s := if interpreter_up (py_world s) then release_view (rgn_view r) s else s in
      match rgn_handle r with Some i => drop_handle i s | None => s end
  | None => s
  end.

Definition py_release_cached (s : Py) : Py * Z :=
  let e := py_engine s in
  let '(cm, n) := release_cached_registrations (e_core e, e_mem e) in (set_engine (with_cm e cm) s, n).

(** ** Transfers *)

Definition usable_for (r : PyRegion) (is_write : bool) : PyError + Z :=
  match rgn_handle r with
  | None => inl (RuntimeError "region has been deregistered")
  | Some i =>
      if negb is_write && vw_readonly (rgn_view r)
      then inl (ValueError "the destination of a read must be writable; this buffer is read-only")
      else inr i
  end.

Definition options_from (after : list (option Z)) (ready_handoff : bool) : TransferOptions :=
  mkTransferOptions (filter (fun e => is_Some e) after) false ready_handoff 0.

Definition default_length (n local_offset length : Z) : Z :=
  if length =? 0 then if local_offset <? n then n - local_offset else 0 else length.

Definition checked_view {A} (what : string) (v : rd A) : PyError + A :=
  match v with
  | Done a => inr a
  | Fail s => inl (StatusError what s)
  | Oob => inl (StatusError what Status.kInternal)
  end.

(** The views of one segment, or the first that is refused. *)

Definition segment_views (lr : MemoryRegionImpl) (rr : RemoteRegionImpl) (seg : Z * Z * Z)
    : PyError + RegionView * RegionView :=
  let '(lo, ro, len) := seg in
  match checked_view "local view" (memory_view lr lo len) with
  | inl x => inl x
  | inr lv =>
      match checked_view "remote view" (remote_view rr ro len) with
      | inl x => inl x
      | inr rv => inr (lv, rv)
      end
  end.

Fixpoint all_views (lr : MemoryRegionImpl) (rr : RemoteRegionImpl) (segs : list (Z * Z * Z))
    : PyError + list (RegionView * RegionView) :=
  match segs with
  | [] => inr []
  | seg :: segs =>
      match segment_views lr rr seg with
      | inl x => inl x
      | inr v => match all_views lr rr segs with inl x => inl x | inr vs => inr (v :: vs) end
      end
  end.

Definition kind_of (is_write : bool) : SubOpKind.t := if is_write then SubOpKind.kWrite else SubOpKind.kRead.

(** The engine is called; [peer] is a peer's handle. *)

Definition py_transfer (peer : Z) (vs : list (RegionView * RegionView)) (is_write : bool) (what : string)
    (opts : TransferOptions) (s : Py) : Py * (PyError + Z) :=
  let '(e, (st, req)) := submit_vector cfg device peer (fst <$> vs) (snd <$> vs) opts (kind_of is_write) (py_engine s) in
  (set_engine e s, match raise_on_error st what req with
                   | inl x => inl x
                   | inr (Some r) => inr r
                   | inr None => inl (StatusError what Status.kInternal)
                   end).

(** [k] is a [Region], [h] a [RemoteRegion]; an object that is not there is a dangling
    pointer no caller can pass. *)

Definition py_submit (peer k h local_offset remote_offset length : Z) (is_write : bool)
    (after : list (option Z)) (ready_handoff : bool) (s : Py) : Py * (PyError + Z) :=
  match py_regions s !! k, t_robjs (e_peers (py_engine s)) !! h with
  | Some r, Some rr =>
      match usable_for r is_write with
      | inl x => (s, inl x)
      | inr i =>
          match m_objs (e_mem (py_engine s)) !! i with
          | None => (s, inl (RuntimeError "no such region"))
          | Some lr =>
              let length := default_length (mr_length lr) local_offset length in
              match segment_views lr rr (local_offset, remote_offset, length) with
              | inl x => (s, inl x)
              | inr v => py_transfer peer [v] is_write (if is_write then "write" else "read")
                           (options_from after ready_handoff) s
              end
          end
      end
  | _, _ => (s, inl (RuntimeError "no such object"))
  end.

Definition py_submitv (peer k h : Z) (lo ro len : list Z) (is_write : bool)
    (after : list (option Z)) (ready_handoff : bool) (s : Py) : Py * (PyError + Z) :=
  if negb (bool_decide (length lo = length ro)) || negb (bool_decide (length lo = length len))
  then (s, inl (ValueError "local_offsets, remote_offsets and lengths must have equal length"))
  else
    match py_regions s !! k, t_robjs (e_peers (py_engine s)) !! h with
    | Some r, Some rr =>
        match usable_for r is_write with
        | inl x => (s, inl x)
        | inr i =>
            match m_objs (e_mem (py_engine s)) !! i with
            | None => (s, inl (RuntimeError "no such region"))
            | Some lr =>
                match all_views lr rr (zip (zip lo ro) len) with
                | inl x => (s, inl x)
                | inr vs => py_transfer peer vs is_write (if is_write then "writev" else "readv")
                              (options_from after ready_handoff) s
                end
            end
        end
    | _, _ => (s, inl (RuntimeError "no such object"))
    end.

Definition py_read (peer k h lo ro len : Z) (after : list (option Z)) : Py → Py * (PyError + Z) :=
  py_submit peer k h lo ro len false after true.

Definition py_write (peer k h lo ro len : Z) (after : list (option Z)) (ready_handoff : bool) : Py → Py * (PyError + Z) :=
  py_submit peer k h lo ro len true after ready_handoff.

Definition py_readv (peer k h : Z) (lo ro len : list Z) (after : list (option Z)) : Py → Py * (PyError + Z) :=
  py_submitv peer k h lo ro len false after true.

Definition py_writev (peer k h : Z) (lo ro len : list Z) (after : list (option Z)) (ready_handoff : bool)
    : Py → Py * (PyError + Z) :=
  py_submitv peer k h lo ro len true after ready_handoff.

(** ** Everything else *)

Definition py_add_peer (max_reg : Z) (meta : list Z) (s : Py) : Py * (PyError + option Z) :=
  let e := py_engine s in
  let '(ct, (st, i)) := add_peer mine max_reg meta (e_core e, e_peers e) in
  (set_engine (with_ct e ct) s, raise_on_error st "add_peer" i).

Definition py_import_region (peer : Z) (desc : list Z) (s : Py) : Py * (PyError + option Z) :=
  let e := py_engine s in
  let '(t, (st, h)) := import_region (c_providers (e_core e)) peer desc (e_peers e) in
  (set_engine (set_peers t e) s, raise_on_error st "import_region" h).

Definition py_remove_peer (peer : option Z) (s : Py) : Py :=
  match peer with
  | None => s
  | Some i =>
      let e := py_engine s in
      set_engine (with_ct e (fst (remove_peer cfg i (e_core e, e_peers e)))) s
  end.

Definition py_progress (s : Py) : Py := set_engine (fst (progress cfg device (py_engine s))) s.

Definition py_poll (max : Z) (s : Py) : Py * nat :=
  let '(e, (_, done_)) := poll_completions cfg device max (py_engine s) in (set_engine e s, length done_).

Definition py_notify (peer : Z) (payload : list Z) (s : Py) : Py * (PyError + option Z) :=
  let '(e, (st, req)) := notify cfg peer payload (py_engine s) in (set_engine e s, raise_on_error st "notify" req).

Definition py_poll_notifications (max : Z) (s : Py) : Py * list Notification :=
  let '(e, (_, notes)) := poll_notifications cfg device max (py_engine s) in (set_engine e s, notes).

Definition py_poll_ready_events (max : Z) (s : Py) : Py * list ReadyEvent :=
  let '(e, (_, evs)) := poll_ready_events cfg device max (py_engine s) in (set_engine e s, evs).

Definition py_cancel (j : Z) (s : Py) : Py * string :=
  let '(e, st) := cancel_request j (py_engine s) in (set_engine e s, Status.to_string st).

Definition py_close (fuel : nat) (expired : nat → bool) (s : Py) : option (Py * string) :=
  '(e, st) ← close cfg device fuel expired (py_engine s); Some (set_engine e s, Status.to_string st).

Definition py_descriptor (k : Z) (s : Py) : option (PyError + list Z) :=
  r ← py_regions s !! k;
  match rgn_handle r with
  | None => Some (inl (RuntimeError "region has been deregistered"))
  | Some i => lr ← m_objs (e_mem (py_engine s)) !! i; Some (inr (export_descriptor lr))
  end.

Definition py_length (k : Z) (s : Py) : option Z :=
  r ← py_regions s !! k;
  match rgn_handle r with
  | None => Some 0
  | Some i => lr ← m_objs (e_mem (py_engine s)) !! i; Some (mr_length lr)
  end.

(** The providers that say how to reach them. *)

Definition engine_offers (ps : list P) : list Offer :=
  omap (fun p => let '(s, m) := local_metadata p in if Status.ok s then Some (cap_name (caps p), m) else None) ps.

Definition py_local_metadata (e : Engine P D) : PyError + list Z :=
  let '(s, m) := encode_metadata mine (engine_offers (c_providers (e_core e))) in raise_on_error s "local_metadata" m.

Definition py_stats (e : Engine P D) : list (string * Z) :=
  let v := engine_stats e in
  let s := sv_stats v in
  let p := sv_provider v in
  [("requests_accepted", s requests_accepted); ("requests_succeeded", s requests_succeeded);
   ("requests_failed", s requests_failed); ("requests_cancelled", s requests_cancelled);
   ("requests_would_block", s requests_would_block); ("submit_deferred", s submit_deferred);
   ("requests_waiting_on_dependency", sv_waiting_on_dependency v);
   ("subops_posted", ps_subops_posted p); ("subops_completed", ps_subops_completed p);
   ("subops_failed", ps_subops_failed p); ("payload_bytes", ps_payload_bytes p);
   ("payload_bytes_copied", ps_payload_bytes_copied p);
   ("registrations_created", s registrations_created); ("registrations_reused", s registrations_reused);
   ("registration_cache_size", sv_cache_size v); ("peak_inflight_requests", s peak_inflight_requests);
   ("completions_dropped", sv_completions_dropped v); ("ready_events_dropped", sv_ready_events_dropped v);
   ("notifications_sent", s notifications_sent); ("notifications_received", s notifications_received);
   ("notifications_dropped", s notifications_dropped); ("notification_acks_failed", s notification_acks_failed);
   ("ready_handoffs_sent", s ready_handoffs_sent); ("ready_handoffs_failed", s ready_handoffs_failed);
   ("ready_handoffs_received", s ready_handoffs_received);
   ("region_invalidates_sent", s region_invalidates_sent);
   ("region_invalidates_failed", s region_invalidates_failed)]%string.

End Binding.

Arguments Py W P D : clear implicits.
