(* ===== verification/PySafe.v ===== *)
(** * What the Python binding keeps true.

    A run is any sequence of the binding's calls, of Python letting go of regions and of
    the engine letting go of objects nothing refers to.  Every call is a run of the
    engine's own steps, so what is proved of the engine holds of one driven from Python;
    and the binding adds promises of its own about buffers. *)

From stdpp Require Import base list gmap strings numbers pretty.
From S2P Require Import Prelude Float64 Types Wire Region Metadata Provider Request SubOps.
From S2P Require Import EngineCore EngineInv EngineMemory EnginePeers Engine EngineSafe PyBinding.

(** ** Regions in the table stay what they are *)

Definition tabled (m : Memory) (i : Z) (lr : MemoryRegionImpl) : Prop :=
  m_objs m !! i = Some lr ∧ i ∈ m_table m ∧ i < m_next_region m.

Definition calm (m m' : Memory) : Prop :=
  (∀ i lr, tabled m i lr → tabled m' i lr) ∧ m_next_region m <= m_next_region m'.

#[global] Instance calm_preorder : PreOrder calm.
Proof.
  split; [split; [done|lia]|]. intros m1 m2 m3 [A1 A2] [B1 B2]. split; [naive_solver|lia].
Qed.

Lemma calm_same m m' : same_regions m m' → calm m m'.
Proof. intros (E1 & E2 & E3). split; [|lia]. unfold tabled. by rewrite E1, E2, E3. Qed.

(** What registering [addr, addr+len) leaves in the table. *)

Definition covers (m : Memory) (addr len : Z) (access : AccessFlags) (i : Z) : Prop :=
  ∃ lr, tabled m i lr ∧ mr_base lr = addr ∧ mr_length lr = len ∧ mr_access lr = access.

Definition registered (m m' : Memory) (addr len : Z) (access : AccessFlags) (r : Status.t * option Z) : Prop :=
  match snd r with
  | None => fst r ≠ Status.kOk
  | Some i => fst r = Status.kOk ∧ m_next_region m <= i < m_next_region m' ∧ covers m' addr len access i
  end.

Lemma covers_calm m m' addr len access i : calm m m' → covers m addr len access i → covers m' addr len access i.
Proof. intros [C _] (lr & T & H). exists lr. auto. Qed.

Lemma calm_back m1 m2 m' : same_regions m1 m2 → calm m2 m' → calm m1 m'.
Proof. intros S C. etransitivity; [by apply calm_same|done]. Qed.

Section Registering.
Context {P D : Type} `{!TransportProvider P} `{!ProviderLaws P} `{!DeviceWorld D}.
Context (cfg : EngineConfig) (mine : Identity) (device : option DeviceBackend).
Implicit Types c : Core P D.

Lemma add_handle_new addr len dev mem access g reg m :
  let mi := add_handle mine addr len dev mem access g reg m in
  calm m (fst mi) ∧ registered m (fst mi) addr len access (Status.kOk, Some (snd mi)).
Proof.
  cbn. split.
  - split; cbn; [|lia]. intros i lr (H1 & H2 & H3). unfold tabled. cbn.
    rewrite lookup_insert_ne by lia. split_and!; [done|set_solver|lia].
  - unfold registered. cbn. split_and!; [done|lia|lia|]. eexists.
    split; [split_and!; cbn; [apply lookup_insert_eq|set_solver|lia]|done].
Qed.

Lemma register_memory_new addr len access c m :
  let x := register_memory cfg device mine addr len access (c, m) in
  calm m (snd (fst x)) ∧ registered m (snd (fst x)) addr len access (snd x).
Proof.
  assert (R : ∀ s m', s ≠ Status.kOk → same_regions m m' →
    calm m m' ∧ registered m m' addr len access (s, None)) by (intros; split; [by apply calm_same|done]).
  unfold register_memory. destruct (_ || _); [by apply R|].
  destruct (match device with Some d => _ | None => _ end) as [dev mem].
  destruct (_ && _); [by apply R|].
  destruct (find_registration m addr len dev access) as [g|].
  - destruct (m_regs m !! g) as [e|]; [|by apply R].
    apply (add_handle_new addr len dev mem access g (rg_reg e) m).
  - destruct (register_all 0 _ addr len dev access Status.kOk) as [[[ps keys] held] fe].
    destruct keys as [|k0 keys].
    { apply R; [|done]. by destruct fe. }
    set (reg := mkRegistration _ _ _ _ _ _ _).
    unfold add_registration. set (m1 := mkMemory _ _ _ _ _ _ _ _). set (cm := if 0 <? _ then _ else _).
    assert (S : same_regions m (snd cm)).
    { unfold cm. destruct (0 <? _); [|done]. apply (cache_registration_quiet cfg (m_next_reg m) _ m1). }
    destruct cm as [c3 m3]. cbn [snd] in S.
    destruct (add_handle_new addr len dev mem access (m_next_reg m) reg m3) as [A B].
    destruct (add_handle _ _ _ _ _ _ _ _ m3) as [m4 i]. cbn [fst snd] in *.
    split; [by eapply calm_back|]. destruct S as (_ & _ & E). unfold registered in *. cbn in *.
    by rewrite E in B.
Qed.

Lemma register_each_new ranges access c m :
  let x := register_each cfg device mine ranges access (c, m) in
  calm m (snd (fst x))
  ∧ Forall2 (fun ra r => registered m (snd (fst x)) (fst ra) (snd ra) access r) ranges (snd x)
  ∧ NoDup (omap snd (snd x)).
Proof.
  revert c m. induction ranges as [|[addr len] ranges IH]; intros c m; cbn [register_each].
  { split_and!; [done|constructor|constructor]. }
  pose proof (register_memory_new addr len access c m) as [C1 R1].
  destruct (register_memory cfg device mine addr len access (c, m)) as [[c1 m1] r]. cbn [fst snd] in *.
  destruct (IH c1 m1) as (C2 & R2 & N). destruct (register_each _ _ _ _ _ (c1, m1)) as [[c2 m2] rs].
  cbn [fst snd] in *. split_and!; [by transitivity m1| |].
  - constructor.
    + unfold registered in *. destruct (snd r) as [i|]; [|done]. destruct R1 as (? & ? & ?).
      split_and!; [done|lia|destruct C2; lia|by eapply covers_calm].
    + eapply Forall2_impl; [exact R2|]. intros ra x. unfold registered. destruct (snd x) as [i|]; [|done].
      intros (? & ? & ?). destruct C1. split_and!; [done|lia|lia|done].
  - cbn. unfold registered in R1. destruct (snd r) as [i|]; [|done]. constructor; [|done].
    intros [x [Hx Hi]]%list_elem_of_omap. apply list_elem_of_lookup in Hx as [n Hn].
    eapply Forall2_lookup_r in R2 as (ra & _ & R2); [|exact Hn]. unfold registered in R2.
    rewrite Hi in R2. lia.
Qed.

Lemma forget_region_calm i c m : calm m (snd (forget_region i (c, m))).
Proof.
  unfold forget_region. case_bool_decide as Ht; [done|]. cbn [orb].
  destruct (region_busy c i); [done|]. destruct (m_reg_of m !! i) as [g|]; [|done].
  set (m' := mkMemory _ _ _ _ _ _ _ _).
  assert (C : calm m m').
  { split; cbn; [|lia]. intros j lr (H1 & H2 & H3). unfold tabled. cbn.
    rewrite lookup_delete_ne by congruence. done. }
  destruct (_ || _); [done|]. transitivity m'; [done|]. apply calm_same, release_quiet.
Qed.

(** Deregistering one leaves the others. *)

Lemma deregister_calm peers i c m j lr :
  j ≠ i → tabled m j lr → tabled (snd (fst (deregister_memory peers i (c, m)))) j lr.
Proof.
  intros Hne (H1 & H2 & H3). unfold deregister_memory. destruct (m_objs m !! i) as [x|]; [|done].
  destruct (region_busy c i).
  { unfold tabled. cbn. by rewrite lookup_insert_ne. }
  destruct (broadcast_all 0 _ _ _) as [[[ps a] b] obo]. destruct (tell_peers _ _ _ _ ps) as [[ps' a'] b'].
  unfold tabled. cbn. rewrite lookup_insert_ne by done. split_and!; [done|set_solver|done].
Qed.

Lemma deregister_next peers i c m :
  m_next_region (snd (fst (deregister_memory peers i (c, m)))) = m_next_region m.
Proof.
  unfold deregister_memory. destruct (m_objs m !! i) as [x|]; [|done]. destruct (region_busy c i); [done|].
  destruct (broadcast_all 0 _ _ _) as [[[ps a] b] obo]. by destruct (tell_peers _ _ _ _ ps) as [[ps' a'] b'].
Qed.

End Registering.

(** ** Runs *)

Section Runs.
Context {W P D : Type} `{!Python W} `{!TransportProvider P} `{!ProviderLaws P} `{!DeviceWorld D}.
Context (cfg : EngineConfig) (mine : Identity) (device : option DeviceBackend).

(** A buffer is at an address. *)

Class PythonLaws : Prop := {
  buffer_address w o b w' v : get_buffer w o b = (w', Some v) → 0 <= vw_buf v
}.

Context {PL : PythonLaws}.
Implicit Types s : Py W P D.

(** A transfer of fewer pieces than a 32-bit count holds, were it made now. *)

Definition countable (peer k h : Z) (segs : MemoryRegionImpl → list (Z * Z * Z)) (w : bool)
    (opts : TransferOptions) (s : Py W P D) : Prop :=
  ∀ r i lr rr vs pr,
    py_regions s !! k = Some r → rgn_handle r = Some i → m_objs (e_mem (py_engine s)) !! i = Some lr →
    t_robjs (e_peers (py_engine s)) !! h = Some rr → all_views lr rr (segs lr) = inr vs →
    snd (submit_prepare cfg device peer (fst <$> vs) (snd <$> vs) opts (kind_of w) (py_engine s)) = inr pr →
    Z.of_nat (length (concat (pr_per_lane pr))) < 2 ^ 32.

Definition one_segment (lo ro len : Z) (lr : MemoryRegionImpl) : list (Z * Z * Z) :=
  [(lo, ro, default_length (mr_length lr) lo len)].

(** The interpreter runs while its objects go; an object whose handle Python has given up
    goes at any later time. *)

Inductive py_step : Py W P D → Py W P D → Prop :=
| ps_register s o rr rw : py_step s (fst (py_register_memory cfg mine device o rr rw s))
| ps_register_batch s os rr rw : py_step s (fst (py_register_memory_batch cfg mine device os rr rw s))
| ps_deregister s k : py_step s (py_deregister_memory k s)
| ps_drop s k : interpreter_up (py_world s) = true → py_step s (drop_region k s)
| ps_collect s i : py_step s (drop_handle i s)
| ps_release_cached s : py_step s (fst (py_release_cached s))
| ps_submit s peer k h lo ro len w after rh :
    u64 lo → u64 ro → u64 len →
    countable peer k h (one_segment lo ro len) w (options_from after rh) s →
    py_step s (fst (py_submit cfg device peer k h lo ro len w after rh s))
| ps_submitv s peer k h lo ro len w after rh :
    Forall u64 lo → Forall u64 ro → Forall u64 len →
    countable peer k h (fun _ => zip (zip lo ro) len) w (options_from after rh) s →
    py_step s (fst (py_submitv cfg device peer k h lo ro len w after rh s))
| ps_add_peer s max_reg meta : py_step s (fst (py_add_peer mine max_reg meta s))
| ps_import s peer desc : py_step s (fst (py_import_region peer desc s))
| ps_remove_peer s peer : py_step s (py_remove_peer cfg peer s)
| ps_progress s : py_step s (py_progress cfg device s)
| ps_poll s n : py_step s (fst (py_poll cfg device n s))
| ps_notify s peer payload : py_step s (fst (py_notify cfg peer payload s))
| ps_poll_notifications s n : py_step s (fst (py_poll_notifications cfg device n s))
| ps_poll_ready s n : py_step s (fst (py_poll_ready_events cfg device n s))
| ps_cancel s j : py_step s (fst (py_cancel j s))
| ps_close s fuel expired s' st : py_close cfg device fuel expired s = Some (s', st) → py_step s s'.

Definition init_py (w : W) (ps : list P) (d : D) : Py W P D := mkPy w (init_engine ps d) ∅ 0 [].

Definition py_reachable s : Prop :=
  ∃ w ps d, (∀ j, total_out ps j = 0%nat) ∧ rtc py_step (init_py w ps d) s.

(** ** Views *)

Definition taken (tr : list BufferEvent) : list PyView := omap (fun e => if e is Taken v then Some v else None) tr.

Definition released (tr : list BufferEvent) : list PyView :=
  omap (fun e => if e is Released v then Some v else None) tr.

Definition held_views (rs : gmap Z PyRegion) : list PyView := (fun kr => rgn_view (snd kr)) <$> map_to_list rs.

(** The views taken are those given back, those of live regions, and those in hand. *)

Definition balanced (hands : list PyView) s : Prop :=
  taken (py_trace s) ≡ₚ released (py_trace s) ++ held_views (py_regions s) ++ hands
  ∧ (∀ k, is_Some (py_regions s !! k) → k < py_next s).

Lemma held_views_insert rs k r :
  rs !! k = None → held_views (<[k := r]> rs) ≡ₚ rgn_view r :: held_views rs.
Proof. intros H. unfold held_views. by rewrite map_to_list_insert. Qed.

Lemma held_views_delete rs k r :
  rs !! k = Some r → held_views rs ≡ₚ rgn_view r :: held_views (delete k rs).
Proof. intros H. unfold held_views. by rewrite <- (map_to_list_delete rs k r H). Qed.

Lemma held_views_update rs k r r' :
  rs !! k = Some r → rgn_view r' = rgn_view r → held_views (<[k := r']> rs) ≡ₚ held_views rs.
Proof.
  intros H E. rewrite (held_views_delete rs k r H), <- E, <- insert_delete_eq.
  apply held_views_insert, lookup_delete_eq.
Qed.

Lemma get_view_spec o b s :
  let x := get_view o b s in
  py_engine (fst x) = py_engine s ∧ py_regions (fst x) = py_regions s ∧ py_next (fst x) = py_next s
  ∧ (∀ v, snd x = Some v → 0 <= vw_buf v)
  ∧ ∀ hands, balanced hands s → balanced (hands ++ if snd x is Some v then [v] else []) (fst x).
Proof.
  unfold get_view. destruct (get_buffer (py_world s) o b) as [w v] eqn:E. split_and!; try done; cbn [fst snd].
  { intros v' ->. by eapply buffer_address. }
  intros hands (B1 & B2). unfold balanced. cbn. split; [|done].
  unfold taken, released in *. rewrite !omap_app, B1. destruct v as [v|]; cbn; rewrite !app_nil_r; [|done].
  by rewrite !(assoc_L (++)).
Qed.

Lemma take_view_spec o s :
  let x := take_view o s in
  py_engine (fst x) = py_engine s ∧ py_regions (fst x) = py_regions s ∧ py_next (fst x) = py_next s
  ∧ (∀ v, snd x = Some v → 0 <= vw_buf v)
  ∧ ∀ hands, balanced hands s → balanced (hands ++ if snd x is Some v then [v] else []) (fst x).
Proof.
  unfold take_view. pose proof (get_view_spec o true s) as (A1 & A2 & A3 & _ & A4).
  destruct (get_view o true s) as [s1 [v|]] eqn:E; [by destruct (get_view_spec o true s) as (_ & _ & _ & ? & _); rewrite E in *|]. cbn [fst snd] in *.
  pose proof (get_view_spec o false s1) as (C1 & C2 & C3 & C5 & C4).
  destruct (get_view o false s1) as [s2 v]. cbn [fst snd] in *. split_and!; [congruence..|done|].
  intros hands B. specialize (A4 hands B). rewrite app_nil_r in A4. auto.
Qed.

Lemma release_view_spec v hands s : balanced (v :: hands) s → balanced hands (release_view v s).
Proof.
  intros (B1 & B2). split; [|done].
  cbn. unfold taken, released in *. rewrite !omap_app, B1. cbn. rewrite app_nil_r.
  rewrite <- (assoc_L (++)), <- Permutation_middle. done.
Qed.

Lemma release_views_spec vs hands s :
  let s' := release_views vs s in
  py_engine s' = py_engine s ∧ py_regions s' = py_regions s ∧ py_next s' = py_next s
  ∧ (balanced (vs ++ hands) s → balanced hands s').
Proof.
  revert s. induction vs as [|v vs IH]; intros s; [done|]. cbn [release_views foldl].
  destruct (IH (release_view v s)) as (A1 & A2 & A3 & A4). split_and!; [done..|].
  intros B. apply A4, release_view_spec, B.
Qed.

Lemma new_region_spec i v hands s : balanced (v :: hands) s → balanced hands (fst (new_region i v s)).
Proof.
  intros (B1 & B2).
  assert (N : py_regions s !! py_next s = None).
  { apply eq_None_not_Some. intros H%B2. lia. }
  split; cbn.
  - rewrite B1, held_views_insert by done. cbn. by rewrite <- !Permutation_middle.
  - intros k. destruct (decide (k = py_next s)) as [->|Hne]; [lia|].
    rewrite lookup_insert_ne by done. intros H%B2. lia.
Qed.

(** ** Handles *)

(** A region whose buffer is read-only is registered for reading alone. *)

Definition protects (v : PyView) (access : AccessFlags) : Prop :=
  vw_readonly v = true → has_flag access kLocalWrite = false ∧ has_flag access kRemoteWrite = false.

Definition covered s (v : PyView) (i : Z) : Prop :=
  ∃ access, covers (e_mem (py_engine s)) (vw_buf v) (wrap64 (vw_len v)) access i ∧ protects v access.

Definition owns s (k : Z) (v : PyView) (i : Z) : Prop := py_regions s !! k = Some (mkPyRegion (Some i) v).

Definition backed s : Prop :=
  (∀ k v i, owns s k v i → covered s v i) ∧ (∀ k k' v v' i, owns s k v i → owns s k' v' i → k = k').

Lemma backed_calm s s' :
  py_regions s' = py_regions s → calm (e_mem (py_engine s)) (e_mem (py_engine s')) → backed s → backed s'.
Proof.
  intros E C [B1 B2]. unfold backed, owns in *. rewrite E. split; [|done].
  intros k v i H. destruct (B1 k v i H) as (a & Hc & Hp). exists a. split; [by eapply covers_calm|done].
Qed.

Lemma access_of_protects v ro rr rw : (vw_readonly v = true → ro = true) → protects v (access_of ro rr rw).
Proof. intros H R. rewrite (H R). by destruct rr, rw. Qed.

Lemma access_of_u32 ro rr rw : u32 (access_of ro rr rw).
Proof. destruct ro, rr, rw; vm_compute; split; congruence. Qed.

Lemma new_region_backed i v s :
  (∀ j, i = Some j → covered s v j ∧ ∀ k v', ¬ owns s k v' j) →
  backed s → backed (fst (new_region i v s)).
Proof.
  intros Hi [B1 B2].
  assert (O : ∀ k v' j, owns (fst (new_region i v s)) k v' j →
    k = py_next s ∧ i = Some j ∧ v' = v ∨ k ≠ py_next s ∧ owns s k v' j).
  { intros k v' j. unfold owns. cbn. rewrite lookup_insert_Some. naive_solver. }
  split.
  - intros k v' j [(-> & E & ->)|[_ H]]%O; [by apply Hi|by eapply B1].
  - intros k k' v1 v2 j [(-> & E & ->)|[_ H]]%O [(-> & E' & ->)|[_ H']]%O; try done.
    + by destruct (Hi j E) as [_ X]; destruct (X _ _ H').
    + by destruct (Hi j E') as [_ X]; destruct (X _ _ H).
    + by eapply B2.
Qed.

Lemma fresh_unowned s j k v : backed s → m_next_region (e_mem (py_engine s)) <= j → ¬ owns s k v j.
Proof. intros [B1 _] Hj H. destruct (B1 k v j H) as (a & (lr & (_ & _ & Hlt) & _) & _). lia. Qed.

Record py_inv s : Prop := mkPyInv { pi_views : balanced [] s; pi_handles : backed s }.

Lemma py_inv_calm s s' :
  py_regions s' = py_regions s → py_next s' = py_next s → py_trace s' = py_trace s →
  calm (e_mem (py_engine s)) (e_mem (py_engine s')) → py_inv s → py_inv s'.
Proof.
  intros E1 E2 E3 C [V B]. split; [|by eapply backed_calm]. unfold balanced. by rewrite E1, E2, E3.
Qed.

Lemma register_inv o rr rw s : py_inv s → py_inv (fst (py_register_memory cfg mine device o rr rw s)).
Proof.
  intros [V B]. unfold py_register_memory.
  destruct (take_view_spec o s) as (E1 & E2 & E3 & _ & T). specialize (T [] V).
  destruct (take_view o s) as [s1 [v|]]; cbn [fst snd app] in *.
  2:{ split; [done|]. eapply backed_calm; [done|by rewrite E1|done]. }
  assert (B1 : backed s1) by (eapply backed_calm; [done|by rewrite E1|done]).
  pose proof (register_memory_new cfg mine device (vw_buf v) (wrap64 (vw_len v)) (access_for v rr rw)
    (e_core (py_engine s1)) (e_mem (py_engine s1))) as [C R].
  destruct (register_memory _ _ _ _ _ _ _) as [cm [st i]]. cbn [fst snd] in *.
  set (s2 := set_engine _ s1).
  assert (V2 : balanced [v] s2) by exact T.
  assert (B2 : backed s2) by (by apply (backed_calm s1)).
  unfold registered in R. cbn [fst snd] in R. case_bool_decide as Hs.
  - destruct i as [i|]; [|done]. destruct R as (_ & F & Cov). split; [by apply new_region_spec|].
    apply (new_region_backed (Some i) v s2); [|done]. intros j [= <-]. split.
    + exists (access_for v rr rw). split; [exact Cov|by apply access_of_protects].
    + intros k v' H. apply (fresh_unowned s1 i k v' B1); [lia|exact H].
  - split; [by apply (release_view_spec v [])|]. by apply (backed_calm s2).
Qed.

Lemma take_views_spec os held s :
  let x := take_views os held s in
  py_engine (fst x) = py_engine s ∧ py_regions (fst x) = py_regions s ∧ py_next (fst x) = py_next s
  ∧ (Forall (fun v => 0 <= vw_buf v) held → Forall (fun v => 0 <= vw_buf v) (default [] (snd x)))
  ∧ (balanced held s → balanced (default [] (snd x)) (fst x)).
Proof.
  revert held s. induction os as [|o os IH]; intros held s; cbn [take_views]; [done|].
  destruct (take_view_spec o s) as (E1 & E2 & E3 & A & T).
  destruct (take_view o s) as [s1 [v|]]; cbn [fst snd] in *.
  - destruct (IH (held ++ [v]) s1) as (A1 & A2 & A3 & A5 & A4). split_and!; [congruence..| |].
    + intros F. apply A5, Forall_app. by repeat constructor; auto.
    + intros V. by apply A4, T.
  - destruct (release_views_spec held [] s1) as (A1 & A2 & A3 & A4). split_and!; [congruence..|constructor|].
    intros V. apply A4. by apply T.
Qed.

(** Results not yet kept: each handle is of its view, and is nobody's. *)

Definition kept_of s (results : list (Status.t * option Z)) (vs : list PyView) : Prop :=
  Forall2 (fun r v => ∀ i, snd r = Some i → covered s v i) results vs
  ∧ NoDup (omap snd results) ∧ ∀ k v i, owns s k v i → i ∉ omap snd results.

Lemma keep_results_spec results vs s :
  kept_of s results vs → balanced vs s → backed s →
  py_engine (fst (keep_results results vs s)) = py_engine s ∧ py_inv (fst (keep_results results vs s)).
Proof.
  revert vs s. induction results as [|[st i] results IH]; intros vs s (F & N & U) V B.
  { apply Forall2_nil_inv_l in F as ->. by cbn. }
  apply Forall2_cons_inv_l in F as (v & vs' & Hv & F & ->). cbn [keep_results].
  set (x := if negb _ || _ then _ else _).
  assert (X : py_engine (fst x) = py_engine s ∧ balanced vs' (fst x) ∧ backed (fst x)
    ∧ ∀ k v' j, owns (fst x) k v' j → owns s k v' j ∨ i = Some j).
  { unfold x. destruct (negb _ || _).
    { split_and!; [done|by apply release_view_spec|by apply (backed_calm s)|auto]. }
    split_and!; [done|by apply (new_region_spec i v)| |].
    - apply (new_region_backed i v); [|done]. intros j ->. split; [by apply Hv|].
      intros k v' H. by apply (U k v' j H), list_elem_of_here.
    - intros k v' j. unfold owns. cbn. rewrite lookup_insert_Some. naive_solver. }
  destruct x as [s1 k1]. cbn [fst] in X. destruct X as (E & V1 & B1 & O1).
  destruct (IH vs' s1) as [E' I']; [|done|done|].
  - split_and!.
    + eapply Forall2_impl; [exact F|]. intros r y H j Hj. unfold covered. rewrite E. by apply H.
    + destruct i; [by apply NoDup_cons in N as [_ N]|done].
    + intros k v' j [H| ->]%O1 Hin; [apply (U k v' j H)|by apply NoDup_cons in N as [? _]].
      cbn. destruct i; [by apply list_elem_of_further|done].
  - destruct (keep_results results vs' s1) as [s2 ks]. cbn [fst] in *. split; [congruence|done].
Qed.

Lemma register_batch_inv os rr rw s : py_inv s → py_inv (fst (py_register_memory_batch cfg mine device os rr rw s)).
Proof.
  intros [V B]. unfold py_register_memory_batch.
  destruct (take_views_spec os [] s) as (E1 & E2 & E3 & _ & T). specialize (T V).
  destruct (take_views os [] s) as [s1 vs]. cbn [fst snd] in *.
  assert (B1 : backed s1) by (apply (backed_calm s); [done|by rewrite E1|done]).
  destruct vs as [vs|]; [|done]. cbn [default] in T. unfold register_memory_batch.
  rewrite !length_fmap, bool_decide_eq_true_2 by done. cbn [negb].
  pose proof (register_each_new cfg mine device (zip (vw_buf <$> vs) ((fun v => wrap64 (vw_len v)) <$> vs))
    (batch_access vs rr rw) (e_core (py_engine s1)) (e_mem (py_engine s1))) as (C & F & N).
  destruct (register_each _ _ _ _ _ _) as [cm results]. cbn [fst snd] in *.
  set (s2 := set_engine _ s1). assert (B2 : backed s2) by (by apply (backed_calm s1)).
  destruct (_ || _); cbn [fst].
  { destruct (release_views_spec vs [] s2) as (A1 & A2 & A3 & A4). split; [apply A4; by rewrite app_nil_r|].
    apply (backed_calm s2); [done|by rewrite A1|done]. }
  assert (K : kept_of s2 results vs).
  { rewrite zip_with_fmap_l, zip_with_fmap_r, zip_with_diag in F. apply Forall2_fmap_l, Forall2_flip in F.
    split_and!; [|done|].
    - apply Forall2_same_length_lookup. split; [by eapply Forall2_length|]. intros n r v Hr Hv i Hi.
      pose proof (Forall2_lookup_lr _ _ _ _ _ _ F Hr Hv) as R. unfold flip, registered in R. cbn in R. rewrite Hi in R.
      exists (batch_access vs rr rw). split; [apply R|]. apply access_of_protects. intros Ro.
      apply existsb_exists. exists v. split; [|done]. apply list_elem_of_In. by eapply list_elem_of_lookup_2.
    - intros k v i O Hin. apply list_elem_of_omap in Hin as ([st j] & Hin & [= ->]).
      apply list_elem_of_lookup in Hin as [n Hn]. eapply Forall2_lookup_l in F as (y & _ & R); [|exact Hn].
      unfold flip, registered in R. cbn in R. apply (fresh_unowned s1 i k v B1); [lia|exact O]. }
  pose proof (keep_results_spec results vs s2 K T B2) as [_ I].
  by destruct (keep_results results vs s2).
Qed.

Lemma drop_handle_inv i s : py_inv s → py_inv (drop_handle i s).
Proof. intros I. apply (py_inv_calm s); [done..| |done]. apply forget_region_calm. Qed.

(** The handle is given up before the engine is told. *)

Lemma deregister_inv_py k s : py_inv s → py_inv (py_deregister_memory k s).
Proof.
  intros [(V1 & V2) [B1 B2]]. unfold py_deregister_memory.
  destruct (py_regions s !! k) as [[[i|] v]|] eqn:Hk; [|by repeat split..].
  set (s1 := set_regions _ s).
  assert (O : ∀ k' v' j, owns s1 k' v' j → owns s k' v' j ∧ j ≠ i).
  { intros k' v' j. unfold owns. cbn. rewrite lookup_insert_Some. intros [[_ [=]]|[Hne H]]. split; [done|].
    intros ->. by apply Hne, (B2 k k' v v' i). }
  pose proof (deregister_calm (peers_to_tell (e_peers (py_engine s1))) i (e_core (py_engine s1)) (e_mem (py_engine s1))) as C.
  destruct (deregister_memory _ _ _) as [cm st]. cbn [fst] in C. apply drop_handle_inv. split.
  - split; cbn.
    + by rewrite (held_views_update _ _ _ _ Hk).
    + intros k'. rewrite lookup_insert_is_Some'. intros [<-|H]; apply V2; [by eexists|done].
  - split.
    + intros k' v' j [H Hne]%O. destruct (B1 k' v' j H) as (a & (lr & T & R) & Pr). exists a. split; [|done].
      exists lr. split; [by apply C|done].
    + intros k1 k2 v1 v2 j [H1 _]%O [H2 _]%O. by eapply B2.
Qed.

Lemma drop_inv k s : interpreter_up (py_world s) = true → py_inv s → py_inv (drop_region k s).
Proof.
  intros Up [(V1 & V2) [B1 B2]]. unfold drop_region.
  destruct (py_regions s !! k) as [r|] eqn:Hk; [|by repeat split]. cbn [py_world set_regions]. rewrite Up.
  set (s1 := release_view _ _).
  assert (I : py_inv s1).
  { split.
    - apply release_view_spec. split; cbn.
      + rewrite V1, (held_views_delete _ _ _ Hk), app_nil_r. cbn.
        by rewrite Permutation_cons_append.
      + intros k'. rewrite lookup_delete_is_Some. intros [_ H]. by apply V2.
    - assert (O : ∀ k' v' j, owns s1 k' v' j → owns s k' v' j)
        by (intros k' v' j; unfold owns; cbn; rewrite lookup_delete_Some; tauto).
      split; [intros k' v' j H%O; by eapply B1|intros k1 k2 v1 v2 j H1%O H2%O; by eapply B2]. }
  destruct (rgn_handle r); [by apply drop_handle_inv|done].
Qed.

(** ** The engine's memory under everything else *)

Let gh : Ghost := mkGhost (fun _ _ => True) (fun _ => True) (fun _ => True).

Lemma steps_good_mem (e e' : Engine P D) : steps_good gh [] e e' → e_mem e' = e_mem e.
Proof. by intros [_ [H _]]. Qed.

Lemma polled_mem (e : Engine P D) : e_mem (fst (explicit_progress cfg device e)) = e_mem e.
Proof. apply steps_good_mem, explicit_progress_good. Qed.

Lemma post_parts_mem parts (e : Engine P D) : e_mem (foldl (fun e p => post_part cfg p e) e parts) = e_mem e.
Proof.
  revert e. induction parts as [|p parts IH]; intros e; [done|]. cbn [foldl]. rewrite IH.
  unfold post_part. by destruct (post_ops _ _ _ _).
Qed.

Lemma submit_vector_mem peer local remote opts kind (e : Engine P D) :
  e_mem (fst (submit_vector cfg device peer local remote opts kind e)) = e_mem e.
Proof.
  unfold submit_vector. destruct (submit_prepare _ _ _ _ _ _ _ e) as [e1 [st|pr]] eqn:Hp;
    apply prepare_mem in Hp; [done|].
  destruct (submit_admit pr e1) as [e2 [st|ps]] eqn:Ha; apply admit_mem in Ha; cbn [fst]; [congruence|].
  rewrite post_parts_mem. congruence.
Qed.

Lemma close_loop_mem fuel n expired (e e' : Engine P D) st :
  close_loop cfg device fuel n expired e = Some (e', st) → e_mem e' = e_mem e.
Proof.
  revert n e. induction fuel as [|fuel IH]; intros n e; cbn [close_loop];
    (case_bool_decide; [by intros [= <- _]|]); (destruct (expired n); [by intros [= <- _]|]); [done|].
  intros E%IH. rewrite E. apply steps_good_mem, progress_good.
Qed.

Definition same_memory s s' : Prop :=
  py_regions s' = py_regions s ∧ py_next s' = py_next s ∧ py_trace s' = py_trace s
  ∧ e_mem (py_engine s') = e_mem (py_engine s).

Lemma py_inv_same s s' : same_memory s s' → py_inv s → py_inv s'.
Proof. intros (E1 & E2 & E3 & E4) I. apply (py_inv_calm s); try done. by rewrite E4. Qed.

Lemma transfer_same peer vs w what opts s : same_memory s (fst (py_transfer cfg device peer vs w what opts s)).
Proof.
  unfold py_transfer. pose proof (submit_vector_mem peer (fst <$> vs) (snd <$> vs) opts (kind_of w) (py_engine s)) as E.
  destruct (submit_vector _ _ _ _ _ _ _ _) as [e [st req]]. by split_and!.
Qed.

Lemma submit_same peer k h lo ro len w after rh s :
  same_memory s (fst (py_submit cfg device peer k h lo ro len w after rh s)).
Proof.
  unfold py_submit. destruct (py_regions s !! k) as [r|]; [|done].
  destruct (t_robjs _ !! h) as [rr|]; [|done]. destruct (usable_for r w) as [x|i]; [done|].
  destruct (m_objs _ !! i) as [lr|]; [|done]. destruct (segment_views _ _ _) as [x|v]; [done|].
  apply transfer_same.
Qed.

Lemma submitv_same peer k h lo ro len w after rh s :
  same_memory s (fst (py_submitv cfg device peer k h lo ro len w after rh s)).
Proof.
  unfold py_submitv. destruct (_ || _); [done|]. destruct (py_regions s !! k) as [r|]; [|done].
  destruct (t_robjs _ !! h) as [rr|]; [|done]. destruct (usable_for r w) as [x|i]; [done|].
  destruct (m_objs _ !! i) as [lr|]; [|done]. destruct (all_views _ _ _) as [x|v]; [done|].
  apply transfer_same.
Qed.

Lemma py_step_inv s s' : py_step s s' → py_inv s → py_inv s'.
Proof.
  intros H I. destruct H.
  - by apply register_inv.
  - by apply register_batch_inv.
  - by apply deregister_inv_py.
  - by apply drop_inv.
  - by apply drop_handle_inv.
  - apply (py_inv_calm s); try done; unfold py_release_cached;
      pose proof (release_cached_quiet (e_core (py_engine s)) (e_mem (py_engine s))) as [_ Q];
      destruct (release_cached_registrations _) as [cm n]; try done. by apply calm_same.
  - by eapply py_inv_same; [apply submit_same|].
  - by eapply py_inv_same; [apply submitv_same|].
  - apply (py_inv_same s); [|done]. unfold py_add_peer. by destruct (add_peer _ _ _ _) as [ct [st i]].
  - apply (py_inv_same s); [|done]. unfold py_import_region. by destruct (import_region _ _ _ _) as [t [st i]].
  - apply (py_inv_same s); [|done]. destruct peer as [i|]; [|done]. split_and!; [done..|].
    apply steps_good_mem, remove_peer_good.
  - apply (py_inv_same s); [|done]. split_and!; [done..|]. apply steps_good_mem, progress_good.
  - apply (py_inv_same s); [|done]. unfold py_poll, poll_completions.
    pose proof (polled_mem (py_engine s)). by destruct (explicit_progress cfg device (py_engine s)).
  - apply (py_inv_same s); [|done]. unfold py_notify. pose proof (notify_mem cfg peer payload (py_engine s)).
    by destruct (notify cfg peer payload (py_engine s)) as [e [st req]].
  - apply (py_inv_same s); [|done]. unfold py_poll_notifications, poll_notifications.
    pose proof (polled_mem (py_engine s)). by destruct (explicit_progress cfg device (py_engine s)).
  - apply (py_inv_same s); [|done]. unfold py_poll_ready_events, poll_ready_events.
    pose proof (polled_mem (py_engine s)). by destruct (explicit_progress cfg device (py_engine s)).
  - apply (py_inv_same s); [|done]. unfold py_cancel.
    pose proof (steps_good_mem _ _ (cancel_good gh [] j (py_engine s))).
    by destruct (cancel_request j (py_engine s)) as [e st].
  - apply (py_inv_same s); [|done]. unfold py_close in H. destruct (close _ _ _ _ _) as [[e st']|] eqn:E; [|done].
    injection H as <- _. apply close_loop_mem in E. by split_and!.
Qed.

Lemma init_py_inv w ps d : py_inv (init_py w ps d).
Proof.
  split.
  - split; cbn; [done|]. intros k. rewrite lookup_empty. by intros [].
  - split; unfold owns; cbn; intros *; by rewrite lookup_empty.
Qed.

Lemma py_steps_inv s s' : rtc py_step s s' → py_inv s → py_inv s'.
Proof. induction 1 as [|x y z H _ IH]; [done|]. intros I. by eapply IH, py_step_inv. Qed.

Lemma py_reachable_inv s : py_reachable s → py_inv s.
Proof. intros (w & ps & d & _ & H). eapply py_steps_inv; [exact H|]. apply init_py_inv. Qed.

(** ** Every call is a run of the engine's steps *)

Definition runs (e e' : Engine P D) : Prop :=
  rtc (world_step cfg mine device) (mkWorld e [] []) (mkWorld e' [] []).

#[local] Instance runs_preorder : PreOrder runs.
Proof. split; [intros e; apply rtc_refl|]. intros e1 e2 e3 A B. unfold runs. by etransitivity. Qed.

Lemma runs_call e e' : call cfg mine device e e' → runs e e'.
Proof. intros H. apply rtc_once. exact (ws_call cfg mine device (mkWorld e [] []) e' H). Qed.

Lemma runs_forget i e : runs e (with_cm e (forget_region i (e_core e, e_mem e))).
Proof. apply rtc_once. exact (ws_forget cfg mine device (mkWorld e [] []) i (Forall_nil_2 _)). Qed.

Lemma with_cm_eta (e : Engine P D) : with_cm e (e_core e, e_mem e) = e.
Proof. by destruct e. Qed.

Lemma runs_register_each ranges access e :
  Forall (fun r => 0 <= fst r ∧ u64 (snd r)) ranges → u32 access →
  runs e (with_cm e (fst (register_each cfg device mine ranges access (e_core e, e_mem e)))).
Proof.
  intros F A. revert e. induction F as [|[addr len] ranges [H1 H2] _ IH]; intros e; cbn [register_each].
  { by rewrite with_cm_eta. }
  pose proof (runs_call _ _ (call_register cfg mine device e addr len access H1 H2 A)) as R.
  destruct (register_memory _ _ _ _ _ _ _) as [[c1 m1] r]. cbn [fst] in R. etransitivity; [exact R|].
  specialize (IH (with_cm e (c1, m1))). cbn [e_core e_mem] in IH.
  destruct (with_cm_core e (c1, m1)) as [E1 E2]. rewrite E1, E2 in IH. cbn [fst snd] in IH.
  destruct (register_each _ _ _ _ _ _) as [cm rs]. cbn [fst] in *. exact IH.
Qed.

Lemma runs_close_loop fuel n expired e e' st :
  close_loop cfg device fuel n expired e = Some (e', st) → runs e e'.
Proof.
  revert n e. induction fuel as [|fuel IH]; intros n e; cbn [close_loop];
    (case_bool_decide as Hi; [intros [= <- _]; by apply runs_call, call_close_end|]);
    (destruct (expired n); [by intros [= <- _]|]); [done|].
  intros E%IH. etransitivity; [|exact E]. apply runs_call, call_progress.
Qed.

(** Views come of 64-bit offsets and lengths. *)

Definition u64_segment (seg : Z * Z * Z) : Prop := u64 seg.1.1 ∧ u64 seg.1.2 ∧ u64 seg.2.

Lemma segment_views_wf lr rr seg v : segment_views lr rr seg = inr v → u64_segment seg → seg_wf v.
Proof.
  destruct seg as [[lo ro] len]. unfold segment_views, memory_view, remote_view.
  destruct (negb (within _ (mr_length lr))); [done|]. cbn [checked_view].
  destruct (negb (rr_valid rr)); [done|]. destruct (negb (within _ _)); [done|]. cbn.
  intros [= <-] (H1 & H2 & H3). by repeat split; apply H1 || apply H2 || apply H3.
Qed.

Lemma all_views_wf lr rr segs vs : all_views lr rr segs = inr vs → Forall u64_segment segs → Forall seg_wf vs.
Proof.
  revert vs. induction segs as [|seg segs IH]; intros vs; cbn [all_views]; [intros [= <-]; constructor|].
  destruct (segment_views lr rr seg) as [x|v] eqn:E; [done|].
  destruct (all_views lr rr segs) as [x|vs']; [done|]. intros [= <-] [H1 H2]%Forall_cons.
  constructor; [by eapply segment_views_wf|by apply IH].
Qed.

Lemma zip_fst_snd {A B} (l : list (A * B)) : zip (fst <$> l) (snd <$> l) = l.
Proof. induction l as [|[a b] l IH]; [done|]. cbn. by rewrite IH. Qed.

Lemma runs_transfer peer vs w what opts s :
  Forall seg_wf vs →
  (∀ pr, snd (submit_prepare cfg device peer (fst <$> vs) (snd <$> vs) opts (kind_of w) (py_engine s)) = inr pr →
    Z.of_nat (length (concat (pr_per_lane pr))) < 2 ^ 32) →
  runs (py_engine s) (py_engine (fst (py_transfer cfg device peer vs w what opts s))).
Proof.
  intros F N. unfold py_transfer.
  pose proof (submit_vector_steps cfg mine device peer (fst <$> vs) (snd <$> vs) opts (kind_of w) (py_engine s) [] [] N) as R.
  rewrite zip_fst_snd in R. specialize (R F).
  by destruct (submit_vector _ _ _ _ _ _ _ _) as [e [st req]].
Qed.

Lemma usable_for_handle r w i : usable_for r w = inr i → rgn_handle r = Some i.
Proof. unfold usable_for. destruct (rgn_handle r) as [j|]; [|done]. destruct (_ && _); [done|]. by intros [= ->]. Qed.

Lemma owned_length s k r i lr :
  py_inv s → py_regions s !! k = Some r → rgn_handle r = Some i → m_objs (e_mem (py_engine s)) !! i = Some lr →
  u64 (mr_length lr).
Proof.
  intros [_ [B _]] Hk Hi Hl. destruct r as [h v]. cbn in Hi. subst h.
  destruct (B k v i Hk) as (a & (lr' & (Hl' & _) & _ & E & _) & _). simplify_eq. rewrite E. by apply wrapw_uw.
Qed.

Lemma runs_submit peer k h lo ro len w after rh s :
  py_inv s → u64 lo → u64 ro → u64 len →
  countable peer k h (one_segment lo ro len) w (options_from after rh) s →
  runs (py_engine s) (py_engine (fst (py_submit cfg device peer k h lo ro len w after rh s))).
Proof.
  intros I Ul Ur Un C. unfold py_submit. destruct (py_regions s !! k) as [r|] eqn:Hk; [|done].
  destruct (t_robjs _ !! h) as [rr|] eqn:Hh; [|done]. destruct (usable_for r w) as [x|i] eqn:Hu; [done|].
  apply usable_for_handle in Hu. destruct (m_objs _ !! i) as [lr|] eqn:Hl; [|done].
  destruct (segment_views _ _ _) as [x|v] eqn:Hv; [done|].
  pose proof (owned_length s k r i lr I Hk Hu Hl) as Hn. apply runs_transfer.
  - constructor; [|constructor]. eapply segment_views_wf; [exact Hv|]. split_and!; [done..|]. cbn.
    unfold default_length, uw in *. repeat case_match; b2p; lia.
  - intros pr. apply (C r i lr rr [v] pr Hk Hu Hl Hh). unfold one_segment. cbn [all_views]. by rewrite Hv.
Qed.

Lemma runs_submitv peer k h lo ro len w after rh s :
  Forall u64 lo → Forall u64 ro → Forall u64 len →
  countable peer k h (fun _ => zip (zip lo ro) len) w (options_from after rh) s →
  runs (py_engine s) (py_engine (fst (py_submitv cfg device peer k h lo ro len w after rh s))).
Proof.
  intros Ul Ur Un C. unfold py_submitv. destruct (_ || _); [done|].
  destruct (py_regions s !! k) as [r|] eqn:Hk; [|done].
  destruct (t_robjs _ !! h) as [rr|] eqn:Hh; [|done]. destruct (usable_for r w) as [x|i] eqn:Hu; [done|].
  apply usable_for_handle in Hu. destruct (m_objs _ !! i) as [lr|] eqn:Hl; [|done].
  destruct (all_views _ _ _) as [x|vs] eqn:Hv; [done|]. apply runs_transfer.
  - eapply all_views_wf; [exact Hv|]. apply Forall_forall. intros [[a b] c] H.
    pose proof (elem_of_zip_l _ _ _ _ H) as H'. rewrite Forall_forall in Ul, Ur, Un. split_and!; cbn.
    + by eapply Ul, elem_of_zip_l.
    + by eapply Ur, elem_of_zip_r.
    + by eapply Un, elem_of_zip_r.
  - intros pr. by apply (C r i lr rr vs pr Hk Hu Hl Hh).
Qed.

Lemma runs_register o rr rw s :
  runs (py_engine s) (py_engine (fst (py_register_memory cfg mine device o rr rw s))).
Proof.
  unfold py_register_memory. destruct (take_view_spec o s) as (E & _ & _ & A & _).
  destruct (take_view o s) as [s1 [v|]]; cbn [fst snd] in *; rewrite <- E; [|done].
  pose proof (runs_call _ _ (call_register cfg mine device (py_engine s1) (vw_buf v) (wrap64 (vw_len v))
    (access_for v rr rw) (A v eq_refl) (wrapw_uw 64 _ ltac:(lia)) (access_of_u32 _ _ _))) as R.
  destruct (register_memory _ _ _ _ _ _ _) as [cm [st i]]. cbn [fst] in R.
  by destruct (bool_decide _).
Qed.

Lemma keep_results_engine results vs s : py_engine (fst (keep_results results vs s)) = py_engine s.
Proof.
  revert vs s. induction results as [|[st i] results IH]; intros [|v vs] s; try done. cbn [keep_results].
  destruct (negb _ || _); cbn [new_region];
    match goal with |- context [keep_results results vs ?x] => specialize (IH vs x); destruct (keep_results results vs x) end;
    exact IH.
Qed.

Lemma runs_register_batch os rr rw s :
  runs (py_engine s) (py_engine (fst (py_register_memory_batch cfg mine device os rr rw s))).
Proof.
  unfold py_register_memory_batch. destruct (take_views_spec os [] s) as (E & _ & _ & A & _).
  specialize (A (Forall_nil_2 _)). destruct (take_views os [] s) as [s1 [vs|]]; cbn [fst snd default] in *;
    rewrite <- E; [|done].
  unfold register_memory_batch. rewrite !length_fmap, bool_decide_eq_true_2 by done. cbn [negb].
  pose proof (runs_register_each (zip (vw_buf <$> vs) ((fun v => wrap64 (vw_len v)) <$> vs))
    (batch_access vs rr rw) (py_engine s1)) as R.
  destruct (register_each _ _ _ _ _ _) as [cm results]. cbn [fst] in R.
  assert (R' : runs (py_engine s1) (with_cm (py_engine s1) cm)).
  { apply R; [|apply access_of_u32]. rewrite zip_with_fmap_l, zip_with_fmap_r, zip_with_diag.
    apply Forall_fmap. eapply Forall_impl; [exact A|]. intros v Hv. split; [exact Hv|by apply wrapw_uw]. }
  destruct (_ || _); cbn [fst].
  - destruct (release_views_spec vs [] (set_engine (with_cm (py_engine s1) cm) s1)) as (-> & _). exact R'.
  - pose proof (keep_results_engine results vs (set_engine (with_cm (py_engine s1) cm) s1)) as K.
    destruct (keep_results _ _ _) as [s2 ks]. cbn [fst] in *. by rewrite K.
Qed.

Lemma runs_deregister k s : runs (py_engine s) (py_engine (py_deregister_memory k s)).
Proof.
  unfold py_deregister_memory. destruct (py_regions s !! k) as [[[i|] v]|]; [|done..].
  cbn [py_engine set_regions]. pose proof (runs_call _ _ (call_deregister cfg mine device (py_engine s) i)) as R.
  destruct (deregister_memory _ _ _) as [cm st]. cbn [fst] in R. etransitivity; [exact R|]. apply runs_forget.
Qed.

Lemma runs_drop k s : runs (py_engine s) (py_engine (drop_region k s)).
Proof.
  unfold drop_region. destruct (py_regions s !! k) as [[h v]|]; [|done]. cbn [rgn_handle rgn_view].
  destruct (interpreter_up _), h as [i|]; cbn; try done; apply runs_forget.
Qed.

Lemma py_step_runs s s' : py_step s s' → py_inv s → runs (py_engine s) (py_engine s').
Proof.
  intros H I. destruct H.
  - apply runs_register.
  - apply runs_register_batch.
  - apply runs_deregister.
  - apply runs_drop.
  - apply runs_forget.
  - unfold py_release_cached. pose proof (runs_call _ _ (call_release_cached cfg mine device (py_engine s))) as R.
    by destruct (release_cached_registrations _).
  - by apply runs_submit.
  - by apply runs_submitv.
  - unfold py_add_peer. pose proof (runs_call _ _ (call_add_peer cfg mine device (py_engine s) max_reg meta)) as R.
    by destruct (add_peer _ _ _ _) as [ct [st i]].
  - unfold py_import_region. pose proof (runs_call _ _ (call_import cfg mine device (py_engine s) peer desc)) as R.
    by destruct (import_region _ _ _ _) as [t [st i]].
  - destruct peer as [i|]; [|done]. apply runs_call, call_remove_peer.
  - apply runs_call, call_progress.
  - unfold py_poll. pose proof (runs_call _ _ (call_poll_completions cfg mine device (py_engine s) n)) as R.
    by destruct (poll_completions _ _ _ _) as [e [st l]].
  - unfold py_notify. pose proof (runs_call _ _ (call_notify cfg mine device (py_engine s) peer payload)) as R.
    by destruct (notify _ _ _ _) as [e [st l]].
  - unfold py_poll_notifications. pose proof (runs_call _ _ (call_poll_notifications cfg mine device (py_engine s) n)) as R.
    by destruct (poll_notifications _ _ _ _) as [e [st l]].
  - unfold py_poll_ready_events. pose proof (runs_call _ _ (call_poll_ready cfg mine device (py_engine s) n)) as R.
    by destruct (poll_ready_events _ _ _ _) as [e [st l]].
  - unfold py_cancel. pose proof (runs_call _ _ (call_cancel cfg mine device (py_engine s) j)) as R.
    by destruct (cancel_request _ _) as [e st].
  - unfold py_close in H. destruct (close _ _ _ _ _) as [[e st']|] eqn:E; [|done]. injection H as <- _.
    etransitivity; [apply runs_call, call_close_begin|]. by eapply runs_close_loop.
Qed.

Lemma py_steps_runs s s' : rtc py_step s s' → py_inv s → runs (py_engine s) (py_engine s').
Proof.
  induction 1 as [|x y z H _ IH]; [done|]. intros I. etransitivity; [by eapply py_step_runs|].
  by eapply IH, py_step_inv.
Qed.

(** ** Properties *)

(** C11: an engine driven from Python, by any run of the binding's calls and of regions
    being let go, is one the engine's own steps reach: the binding never puts it where a
    C++ caller could not. *)


(** C13: after any such run, the buffer views taken are exactly those given back once and
    those of the regions Python still has: no error path loses one or gives one back twice. *)

Theorem views_balanced s :
  py_reachable s → taken (py_trace s) ≡ₚ released (py_trace s) ++ held_views (py_regions s).
Proof. intros H%py_reachable_inv. destruct H as [[V _] _]. by rewrite app_nil_r in V. Qed.

(** C12: after any such run, a region Python has not deregistered is in the engine's
    table, over exactly its buffer and under a handle no other region has; one over a
    read-only buffer is registered without local or remote write, and a read into it, of one
    segment or many, is refused with a [ValueError] and changes nothing. *)

Theorem read_only_protected s k v i :
  py_reachable s → owns s k v i →
  covered s v i
  ∧ (∀ k' v', owns s k' v' i → k' = k)
  ∧ (vw_readonly v = true → ∀ peer h lo ro len los ros lens after,
      is_Some (t_robjs (e_peers (py_engine s)) !! h) → length los = length ros → length los = length lens →
      let refused := (s, inl (ValueError "the destination of a read must be writable; this buffer is read-only")) in
      py_read cfg device peer k h lo ro len after s = refused
      ∧ py_readv cfg device peer k h los ros lens after s = refused).
Proof.
  intros [_ [B1 B2]]%py_reachable_inv O. split_and!; [by eapply B1|intros k' v' O'; by eapply B2|].
  intros R peer h lo ro len los ros lens after [rr Hr] E1 E2. unfold py_read, py_readv, py_submit, py_submitv.
  rewrite !bool_decide_eq_true_2, O, Hr by done. cbn. by rewrite R.
Qed.

End Runs.
