(* ===== verification/PySample.v ===== *)
(** * A run of the Python binding over the local path.

    A [bytearray] and a [bytes] object are registered, a peer is added, one of its regions
    imported and written to; the theorems about all runs are applied to it.  Two more runs
    show what becomes of a region that is let go of while a transfer uses it. *)

From stdpp Require Import base list gmap strings numbers pretty.
From S2P Require Import Prelude Float64 Types Wire Region Metadata Provider Request SubOps.
From S2P Require Import EngineCore EngineInv EngineMemory EnginePeers Engine EngineSafe.
From S2P Require Import ByteMemory LocalPath EngineSample PyBinding PySafe.

(** The world counts the views it has given out.  Object 7 is writable, 8 is not, and
    anything else has no buffer. *)

#[export] Instance sample_python : Python Z := {
  get_buffer w o writable :=
    if o =? 7 then (w + 1, Some (mkView w 4096 16 false))
    else if (o =? 8) && negb writable then (w + 1, Some (mkView w 8192 8 true))
    else (w, None);
  release_buffer w _ := w;
  interpreter_up _ := true
}.

#[export] Instance sample_python_laws : PythonLaws (W := Z).
Proof. split. intros w o b w' v. cbn. repeat case_match; intros [= <- <-]; cbn; lia. Qed.

Module PyRun.
Import Sample.

Abbreviation S := (Py Z LocalProvider unit).
Abbreviation step := (py_step (W := Z) (P := LocalProvider) (D := unit) cfg mine device).

Definition s0 : S := init_py 0 [SampleLocal.world] tt.
Definition s1 : S := fst (py_register_memory cfg mine device 7 true true s0).
Definition s2 : S := fst (py_register_memory_batch cfg mine device [8; 9] true true s1).
Definition s3 : S := fst (py_register_memory cfg mine device 8 true true s2).
Definition s4 : S := fst (py_add_peer mine 0 metadata s3).
Definition s5 : S := fst (py_import_region 1 descriptor s4).

(** The peer and the region imported have handle 1. *)

Definition s6 : S := fst (py_write cfg device 1 0 1 0 32 5 [] false s5).

Lemma write_countable : countable cfg device 1 0 1 (one_segment 0 32 5) true (options_from [] false) s5.
Proof.
  intros r i lr rr vs pr Hk Hi Hl Hh Hv Hp.
  vm_compute in Hk. injection Hk as <-. vm_compute in Hi. injection Hi as <-.
  vm_compute in Hl. injection Hl as <-. vm_compute in Hh. injection Hh as <-.
  vm_compute in Hv. injection Hv as <-. vm_compute in Hp. injection Hp as <-. by vm_compute.
Qed.

Lemma run5 : rtc step s0 s5.
Proof.
  apply (rtc_l _ s0 s1 s5 (ps_register cfg mine device s0 7 true true)).
  apply (rtc_l _ s1 s2 s5 (ps_register_batch cfg mine device s1 [8; 9] true true)).
  apply (rtc_l _ s2 s3 s5 (ps_register cfg mine device s2 8 true true)).
  apply (rtc_l _ s3 s4 s5 (ps_add_peer cfg mine device s3 0 metadata)).
  apply (rtc_l _ s4 s5 s5 (ps_import cfg mine device s4 1 descriptor)). apply rtc_refl.
Qed.

Lemma s5_reached : py_reachable cfg mine device s5.
Proof. exists 0, [SampleLocal.world], tt. exact (conj start_idle run5). Qed.

Lemma s6_reached : py_reachable cfg mine device s6.
Proof.
  exists 0, [SampleLocal.world], tt. refine (conj start_idle (rtc_r s0 s5 s6 run5 _)).
  refine (ps_submit cfg mine device s5 1 0 1 0 32 5 true [] false _ _ _ write_countable); by vm_compute.
Qed.


Lemma views_balanced_witness :
  taken (py_trace s6) ≡ₚ released (py_trace s6) ++ held_views (py_regions s6).
Proof. exact (views_balanced cfg mine device s6 s6_reached). Defined.

(** The [bytes] object. *)

Definition bytes_view : PyView := mkView 2 8192 8 true.

Lemma read_only_protected_witness :
  covered s5 bytes_view 2
  ∧ py_read cfg device 1 1 1 0 0 8 [] s5
    = (s5, inl (ValueError "the destination of a read must be writable; this buffer is read-only")).
Proof.
  destruct (read_only_protected cfg mine device s5 1 bytes_view 2 s5_reached) as (H1 & _ & H3);
    [by vm_compute|].
  split; [exact H1|]. refine (proj1 (H3 eq_refl 1 1 0 0 8 [] [] [] [] _ eq_refl eq_refl)).
  by vm_compute; eexists.
Defined.

(** ** Regions let go of under a transfer *)

(** Python drops the region of the write in flight: its buffer is given back, though the
    transfer, the engine's table and the transport's registration still have it. *)

Lemma buffer_released_in_flight :
  let s := drop_region 0 s6 in
  let m := e_mem (py_engine s) in
  Released (mkView 0 4096 16 false) ∈ py_trace s
  ∧ region_busy (e_core (py_engine s)) 1 = true ∧ 1 ∈ m_table m ∧ is_Some (m_regs m !! 1).
Proof.
  cbn zeta. split_and!.
  - apply list_elem_of_In. vm_compute. tauto.
  - by vm_compute.
  - by apply (bool_decide_unpack _); vm_compute.
  - by vm_compute; eexists.
Qed.

(** Deregistering it instead answers nothing, though the engine refused: the handle is gone
    from the region, and the engine keeps it retired in its table once the transfer is over. *)

Lemma deregister_not_retried :
  let s := py_progress cfg device (py_progress cfg device (py_deregister_memory 0 s6)) in
  let m := e_mem (py_engine s) in
  c_inflight (e_core (py_engine s)) = ∅ ∧ 1 ∈ m_table m
  ∧ (mr_retired <$> m_objs m !! 1) = Some true
  ∧ py_deregister_memory 0 s = s.
Proof.
  cbn zeta. split_and!.
  - by vm_compute.
  - by apply (bool_decide_unpack _); vm_compute.
  - by vm_compute.
  - by vm_compute.
Qed.

End PyRun.
